(* ===== verification/_CoqProject ===== *)
-Q . S2P
Prelude.v
JsNum.v
CycleWalk.v
CodeAllocator.v
BlockAllocator.v
RandomCode.v
JsString.v
JsDouble.v
Keys.v
JsDate.v
Json.v
Link.v
UrlPolicy.v
ApiKeys.v
JsMap.v
MemoryStore.v
ClickBuffer.v
Async.v
Redis.v
Sql.v
World.v
RateLimiter.v
Interleave.v
PostgresStore.v
Migrate.v
CachedStore.v
WriteBehind.v
Deferred.v
SyncQueue.v
MapShards.v
Parallel.v
SyncWorker.v
Durability.v
Draining.v
Footprint.v
App.v
Policed.v
AppSafety.v
Config.v
Clients.v
SyncJob.v
Gauges.v
Server.v
Process.v
WarmCache.v
Metrics.v
Timing.v
ClusterMetrics.v
Cluster.v
ClusterSystem.v
