(* ===== verification/Prelude.v ===== *)
(** * WrapLink: a verification library

    WrapLink is a URL shortener in TypeScript (src/src/, Node.js) over
    PostgreSQL and Redis. This library models its implementation and proves what
    makes it correct. The definitions keep the names of the source.

    ** The program

    A cluster (cluster.ts) forks worker processes (server.ts), each an HTTP
    application (app.ts). A link is created under a code that is random
    (domain/code.ts), chosen by the user, or allocated from blocks of ids and
    scrambled (domain/code-allocator.ts). It is stored in PostgreSQL
    (store/postgres-link-store.ts) behind a Redis cache
    (store/cached-link-store.ts); in write-behind mode it is first acknowledged
    from a Redis queue (store/write-behind-link-store.ts), which sync workers
    drain into PostgreSQL (store/link-sync-worker.ts). Redirects count clicks
    through a buffer (store/click-buffer.ts). Requests pass a rate limiter, an
    API-key check and a URL policy (security/). Counters go to an in-process
    collector (metrics.ts) or over IPC to the primary (cluster-metrics.ts).

    ** The files

    Language. Prelude.v (this file: throwing computations [result], loops,
    strings, tactics); JsNum.v (32-bit operators, safe integers, rounding to
    doubles); JsDouble.v (binary64, [trim], [Number(text)]); JsString.v; JsDate.v
    ([toISOString] and date parsing); Json.v; JsMap.v (insertion-ordered maps);
    Async.v (an [async] function is a program over effects, with [run] and [wp]).
    A JavaScript string is its UTF-8 bytes; an integral number is its value, and
    operations that may round or overflow say so; a thrown error is [Throw].

    Codes. CycleWalk.v (the cycle-walking argument), CodeAllocator.v
    ([encodeBase62Fixed], [CodeScrambler]), BlockAllocator.v
    ([BlockCodeAllocator] and the shared sequence, as steps between awaits),
    RandomCode.v ([generateCode]), Keys.v (cache/keys.ts: hash, shards, keys).

    Servers outside the repository. Redis.v: the class [Redis] gives the
    documented behaviour of each command on a keyspace with times to live;
    scripts run atomically, command by command. Sql.v: the class [Postgres] does
    the same for each statement the program sends. [reference_redis] and
    [reference_postgres] are instances, so that the laws hold of something and
    witnesses run. World.v joins them with clocks, counters and the click buffer;
    every effect has a [choice]: delivered, lost before or after it took effect,
    how long it took. Interleave.v: [safe], rely-guarantee over all choices and
    all interleavings with others. Clients.v: how the clients are set up.

    Stores. Link.v (domain/link.ts and the queue records), PostgresStore.v,
    CachedStore.v, MemoryStore.v, ClickBuffer.v (an event machine), WriteBehind.v,
    Deferred.v (the write-behind store as a store over the cached one), SyncQueue.v ([RedisSyncQueue] and its Lua scripts), MapShards.v (bounded
    concurrency), Parallel.v (tasks on lanes as programs, and their rely-guarantee
    composition), SyncWorker.v ([syncShard], ticks, start and close), Durability.v
    (a whole deployment of creators and sync workers), Draining.v (a worker alone
    on its shard), Footprint.v (the commands [syncShard] sends, and what it leaves
    to the other shards), Policed.v (programs that bring no target into the table or
    a queue but those the URL policy let through). The interface [LinkStore] is a
    record of methods; the classes [HonestStore] (CachedStore.v) and [ObedientStore]
    (Policed.v) state what a store promises its client, and each store is an
    instance given that of the store below it. What a store may answer with besides
    the rows of the table is the class [Backlog] (CachedStore.v): nothing in
    synchronous mode, the links of queued records in write-behind mode.
    Migrate.v is database/migrate.ts against a server with transactions,
    connections and an advisory lock.

    Service. RateLimiter.v, ApiKeys.v, UrlPolicy.v (security/); App.v (every
    handler of app.ts); AppSafety.v (the application over its stores); Config.v
    (config.ts, jobs/job-env.ts, the identity of a worker); Server.v (the
    construction of server.ts), Gauges.v (its [extraMetrics]), Process.v (its
    start-up, signals and shutdown, as concurrent programs); SyncJob.v (a tick over
    all the shards of a worker, and jobs/sync-links.ts); WarmCache.v
    (jobs/warm-cache.ts).

    Cluster. Metrics.v, Timing.v (the hooks that time requests), ClusterMetrics.v,
    Cluster.v (the primary) and ClusterSystem.v (primary, workers and their ordered
    channels as a step relation with crashes, lost messages, deadlines and
    shutdown).

    ** What is shown

    - Links. An acknowledged link is never lost in any reachable state of a
      deployment (Durability.v), and the queues left to a worker get into
      PostgreSQL in one tick, whatever order it takes them in (SyncJob.v, from
      Draining.v, Footprint.v and Parallel.v), for at most as many batches a
      shard as the worker is set to and for queues nobody else touches; [create] answers only after the
      record is queued or stored, the queue script has three atomic outcomes and its
      backlog is bounded (WriteBehind.v); a batch settles every record that is the
      first of its code, drops the others, and recognises a replay
      (PostgresStore.v); queue records round-trip (Link.v).
    - Codes. Issued codes are unique across processes, crashes and lost
      replies (BlockAllocator.v); scrambling is the reference permutation and
      injective (CodeAllocator.v); random codes terminate with the right
      alphabet (RandomCode.v).
    - Reads. A coherent cache answers with nothing but the links of the table or,
      in write-behind mode, of the records Redis took for a queue, every effect
      keeps it coherent, and failures of Redis never surface (CachedStore.v,
      Deferred.v); the warm-up job caches every live link (WarmCache.v). In both
      write modes redirects lead only where the URL policy let a link lead, and a
      created link stands, in the table or in a queue (AppSafety.v). These are
      rely-guarantee results: the other processes are assumed to be lawful
      (Policed.v), which the handlers and the sync worker are shown to be.
    - Clicks. Every click is persisted, given up, pending or in flight, under
      every interleaving, and closing ends (ClickBuffer.v).
    - Security. What the URL policy lets through: public addresses, by the values
      of IPv4 blocks and IPv6 prefixes, and three named exceptions to
      docs/THREAT_MODEL.md (UrlPolicy.v); exactly the configured keys authenticate (ApiKeys.v); a window of
      the rate limiter admits its maximum (RateLimiter.v).
    - Workers. Shards are visited exactly once with bounded concurrency
      (MapShards.v), also when tasks reject, at most one operation of a worker is in
      flight and [close] waits for one started after it (SyncWorker.v), and every
      shard has one keeper however workers crash (ClusterSystem.v, Keys.v). The
      sync job drains every queue and lists every dead letter (SyncJob.v).
    - Operations. Migrations are applied once, whole and in order by any number of
      processes that crash and lose connections, and one undisturbed run applies
      what is missing (Migrate.v); a process lets go of its connections only when
      it takes no requests and has written what it buffered (Process.v); the
      gauges never fail a scrape and report the exact backlog (Gauges.v).
    - Metrics. Both collectors count exactly and alike, labels cannot break
      out, the guards accept exactly the values of the declared type and messages
      round-trip, and the cluster neither loses nor
      invents counts (Metrics.v, ClusterMetrics.v, ClusterSystem.v).
    - Settings. Which environments load, that what loads is well-typed, and that
      the server can be built from it, each component with its configured settings
      and the wiring the theorems above assume, in both write modes (Config.v,
      Server.v).

    ** Bounds and fuel

    Cycle-walking runs with the number of 54-bit values as binary fuel, which is
    proved enough. Base62 loops have as many steps as digits. [generateCode]
    takes fuel for the chunks of random bytes; any stream with enough accepted
    bytes gives a result. [drain] and the batch loop have the source's own
    bounds, and the warm-up job needs one page more than there are live links.
    [closeLoop] ends within the number of attempts. The loops over
    shards, rows, entries and addresses are structural.

    ** Not modelled

    Fastify, node-redis, pg, node's crypto, [cluster] and DNS are parameters or
    laws. [localeCompare] and the text of a fractional double are parameters.
    Lower-casing is ASCII; dates and numbers in the cache that the program did
    not write go through parameters. A migration text is a parameter that applies
    to a schema or is an error; that nothing else changes the schema and that no
    text ends its transaction are assumed there. Of the start and stop of a process
    Process.v has the order of the calls, the resources' own files what the calls do.
    Logging, console output and [LinkSyncWorker.backlog], which only tests call, are
    left out, and so are the options given to Fastify. The C++ redirect server, the
    benchmarks and the operations files are not modelled. Connections of a pool,
    Redis replication and the memory of a server are outside the world's state. *)

From Stdlib Require Export ZArith Lia Ascii.
From stdpp Require Export base tactics strings numbers gmap list.

(** ** Throwing computations

    A TypeScript function either returns or throws an [Error]; the message is
    kept because some callers and all tests look at it. *)
Inductive result (A : Type) : Type :=
  | Return (value : A)
  | Throw (message : string).
Arguments Return {A} value.
Arguments Throw {A} message.

Definition result_bind {A B} (m : result A) (f : A -> result B) : result B :=
  match m with
  | Return a => f a
  | Throw e => Throw e
  end.

Lemma Return_inj {A} (a b : A) : Return a = Return b -> a = b.
Proof. congruence. Qed.

Definition returns {A} (m : result A) : Prop := exists a, m = Return a.

Declare Scope wraplink_scope.
Delimit Scope wraplink_scope with wl.
Notation "'try' x <- m ; f" := (result_bind m (fun x => f))
  (at level 90, x name, m at level 89, right associativity) : wraplink_scope.
Open Scope wraplink_scope.

(** [xs.map(f)] where [f] may throw. *)
Fixpoint map_result {A B} (f : A -> result B) (xs : list A) : result (list B) :=
  match xs with
  | [] => Return []
  | x :: xs => try y <- f x; try ys <- map_result f xs; Return (y :: ys)
  end.

Lemma map_result_Forall2 {A B} (f : A -> result B) xs ys :
  map_result f xs = Return ys -> Forall2 (fun x y => f x = Return y) xs ys.
Proof.
  revert ys; induction xs as [|x xs IH]; intros ys; simpl.
  - intros <-%Return_inj. constructor.
  - destruct (f x) as [y|] eqn:Hy; [|done]. simpl. destruct (map_result f xs) as [zs|]; [|done].
    simpl. intros <-%Return_inj. constructor; auto.
Qed.

Lemma map_result_ok {A B} (f : A -> result B) xs :
  Forall (fun x => returns (f x)) xs -> returns (map_result f xs).
Proof.
  induction 1 as [|x xs [y Hy] _ [ys IH]]; [by eexists|]. simpl. rewrite Hy, IH. by eexists.
Qed.

(** ** Automation *)

Create HintDb wraplink.

(** Case analysis on the scrutinee of a [match] or [if], remembering it. *)
Ltac case_scrutinee :=
  match goal with
  | |- context [match ?x with _ => _ end] => destruct x eqn:?
  | H : context [match ?x with _ => _ end] |- _ => destruct x eqn:?
  end.

(** Turn the boolean comparisons of the code into propositions. *)
Ltac bool_to_prop :=
  repeat match goal with
  | H : (_ <? _)%Z = true |- _ => apply Z.ltb_lt in H
  | H : (_ <? _)%Z = false |- _ => apply Z.ltb_ge in H
  | H : (_ <=? _)%Z = true |- _ => apply Z.leb_le in H
  | H : (_ <=? _)%Z = false |- _ => apply Z.leb_gt in H
  | H : (_ =? _)%Z = true |- _ => apply Z.eqb_eq in H
  | H : (_ =? _)%Z = false |- _ => apply Z.eqb_neq in H
  | H : (_ && _) = true |- _ => apply andb_true_iff in H as [? ?]
  | H : (_ || _) = false |- _ => apply orb_false_iff in H as [? ?]
  | H : negb _ = true |- _ => apply negb_true_iff in H
  | H : negb _ = false |- _ => apply negb_false_iff in H
  end.

Ltac zbool := bool_to_prop; subst; try lia.

(** ** Loops

    [loop step fuel s] runs at most [fuel] iterations of a [while] body that
    either continues with a new state ([inl]) or leaves the loop ([inr]). The
    fuel is a binary number, so that a bound such as 2^54 costs nothing: the
    iterations after the exit are never run. *)
Section Loop.
  Context {St R : Type} (step : St -> St + R).

Fixpoint loop (fuel : positive) (s : St) : St + R :=
    match fuel with
    | xH => step s
    | xO p => match loop p s with inl s' => loop p s' | inr r => inr r end
    | xI p =>
        match step s with
        | inl s' => match loop p s' with inl s'' => loop p s'' | inr r => inr r end
        | inr r => inr r
        end
    end.

Fixpoint nloop (n : nat) (s : St) : St + R :=
    match n with
    | O => inl s
    | S n => match step s with inl s' => nloop n s' | inr r => inr r end
    end.

Lemma nloop_add n m s :
    nloop (n + m) s = match nloop n s with inl s' => nloop m s' | inr r => inr r end.
  Proof. revert s; induction n as [|n IH]; intros s; simpl; [done|]. by destruct (step s). Qed.

Lemma loop_nloop p s : loop p s = nloop (Pos.to_nat p) s.
  Proof.
    revert s; induction p as [p IH|p IH|]; intros s; simpl loop.
    - rewrite Pos2Nat.inj_xI. simpl. destruct (step s) as [s'|r]; [|done].
      rewrite Nat.add_0_r, nloop_add, IH. destruct (nloop _ s'); auto.
    - rewrite Pos2Nat.inj_xO. simpl Nat.mul. rewrite Nat.add_0_r, nloop_add, IH.
      destruct (nloop _ s); auto.
    - simpl. by destruct (step s).
  Qed.

Lemma nloop_more n m s r : nloop n s = inr r -> n <= m -> nloop m s = inr r.
  Proof.
    intros Hn Hle. replace m with (n + (m - n)) by lia. by rewrite nloop_add, Hn.
  Qed.
End Loop.

(** ** Strings

    A JavaScript string is represented by its UTF-8 bytes, one [ascii] per
    byte. *)
Definition byte_of (c : ascii) : Z := Z.of_N (N_of_ascii c).

Lemma byte_of_range c : (0 <= byte_of c < 256)%Z.
Proof. unfold byte_of. pose proof (N_ascii_bounded c). lia. Qed.

Lemma byte_of_inj c d : byte_of c = byte_of d -> c = d.
Proof.
  unfold byte_of. intros H. apply N2Z.inj in H.
  rewrite <- (ascii_N_embedding c), <- (ascii_N_embedding d). by f_equal.
Qed.

Lemma string_app_cons c (s t : string) : String c s +:+ t = String c (s +:+ t).
Proof. done. Qed.

Lemma string_app_nil_l (s : string) : "" +:+ s = s.
Proof. done. Qed.

Lemma string_app_char c (s : string) : String c "" +:+ s = String c s.
Proof. done. Qed.

Fixpoint string_forallb (p : ascii -> bool) (s : string) : bool :=
  match s with
  | EmptyString => true
  | String c s => p c && string_forallb p s
  end.

Lemma string_forallb_app p s t :
  string_forallb p (s +:+ t) = string_forallb p s && string_forallb p t.
Proof.
  induction s as [|c s IH]; [done|]. rewrite string_app_cons. simpl.
  by rewrite IH, andb_assoc.
Qed.

Lemma string_length_app s t :
  String.length (s +:+ t) = String.length s + String.length t.
Proof. induction s as [|c s IH]; [done|]. rewrite ?string_app_cons. simpl. by rewrite IH. Qed.

Lemma string_app_nil_r (s : string) : s +:+ "" = s.
Proof. induction s as [|c s IH]; [done|]. rewrite ?string_app_cons. simpl. by rewrite IH. Qed.

Lemma string_app_assoc (s t u : string) : s +:+ (t +:+ u) = (s +:+ t) +:+ u.
Proof. induction s as [|c s IH]; [done|]. rewrite ?string_app_cons. simpl. by rewrite IH. Qed.

Lemma string_app_inj_l s1 s2 t1 t2 :
  String.length s1 = String.length s2 -> s1 +:+ t1 = s2 +:+ t2 -> s1 = s2 /\ t1 = t2.
Proof.
  revert s2; induction s1 as [|c s1 IH]; intros [|d s2] Hl He; rewrite ?string_app_cons in *; simpl in *; try done.
  injection He as -> He. injection Hl as Hl. by destruct (IH _ Hl He) as [-> ->].
Qed.

Fixpoint bytes_of_string (s : string) : list Z :=
  match s with
  | EmptyString => []
  | String c s => byte_of c :: bytes_of_string s
  end.

(** [parts.join("")]. *)
Fixpoint join (parts : list string) : string :=
  match parts with
  | [] => ""
  | p :: ps => p +:+ join ps
  end.

Lemma join_app ps qs : join (ps ++ qs) = join ps +:+ join qs.
Proof. induction ps as [|p ps IH]; [done|]. simpl. by rewrite IH, string_app_assoc. Qed.

(** Characters of [\[A-Za-z0-9\]]. *)
Definition is_digit (c : ascii) : bool :=
  let b := byte_of c in ((48 <=? b) && (b <=? 57))%Z.
Definition is_upper (c : ascii) : bool :=
  let b := byte_of c in ((65 <=? b) && (b <=? 90))%Z.
Definition is_lower (c : ascii) : bool :=
  let b := byte_of c in ((97 <=? b) && (b <=? 122))%Z.
Definition is_alnum (c : ascii) : bool := is_digit c || is_upper c || is_lower c.
