(* ===== verification/JsNum.v ===== *)
(** * JavaScript integers

    The 32-bit integer operators of JavaScript and its safe integers, on [Z].
    A JavaScript number that the program keeps integral is its value; the
    operators below convert their operands to 32 bits as ECMAScript does. *)
From S2P Require Import Prelude.
Open Scope Z_scope.

Definition MAX_SAFE_INTEGER : Z := 2 ^ 53 - 1.

(** [Number.isSafeInteger] on an integral number. *)
Definition isSafeInteger (x : Z) : bool :=
  (- MAX_SAFE_INTEGER <=? x) && (x <=? MAX_SAFE_INTEGER).

Definition ToUint32 (x : Z) : Z := x mod 2 ^ 32.

Definition ToInt32 (x : Z) : Z :=
  let u := x mod 2 ^ 32 in if u <? 2 ^ 31 then u else u - 2 ^ 32.

(** [a ^ b], [a & b], [a >>> n] and [Math.imul(a, b)]. *)
Definition js_xor (a b : Z) : Z := Z.lxor (ToInt32 a) (ToInt32 b).
Definition js_and (a b : Z) : Z := Z.land (ToInt32 a) (ToInt32 b).
Definition js_shr (a n : Z) : Z := Z.shiftr (ToUint32 a) n.
Definition imul (a b : Z) : Z := ToInt32 (a * b).

Lemma ToUint32_range x : 0 <= ToUint32 x < 2 ^ 32.
Proof. unfold ToUint32. apply Z.mod_pos_bound. lia. Qed.

Lemma ToInt32_small x : 0 <= x < 2 ^ 31 -> ToInt32 x = x.
Proof.
  intros H. unfold ToInt32. rewrite Z.mod_small by lia.
  by rewrite (proj2 (Z.ltb_lt _ _)) by lia.
Qed.

(** Masking with a contiguous low mask only looks at the low bits. *)
Lemma ToInt32_mod k x : 0 <= k <= 32 -> ToInt32 x mod 2 ^ k = x mod 2 ^ k.
Proof.
  intros Hk. unfold ToInt32.
  assert (Hdvd : (2 ^ k | 2 ^ 32)).
  { exists (2 ^ (32 - k)). rewrite <- Z.pow_add_r by lia. f_equal; lia. }
  assert (Hmod : (x mod 2 ^ 32) mod 2 ^ k = x mod 2 ^ k).
  { by apply Z.mod_mod_divide. }
  cbv zeta. destruct (_ <? _); [done|].
  rewrite <- Hmod. destruct Hdvd as [q ->].
  rewrite <- (Z_mod_plus_full _ q). f_equal. lia.
Qed.

Lemma js_and_mask k x : 0 <= k <= 31 -> js_and x (2 ^ k - 1) = x mod 2 ^ k.
Proof.
  intros Hk. unfold js_and.
  assert (0 < 2 ^ k <= 2 ^ 31).
  { split; [apply Z.pow_pos_nonneg; lia|apply Z.pow_le_mono_r; lia]. }
  rewrite (ToInt32_small (2 ^ k - 1)) by lia.
  replace (2 ^ k - 1) with (Z.ones k) by (rewrite Z.ones_equiv; lia).
  rewrite Z.land_ones by lia. apply ToInt32_mod. lia.
Qed.

(** Two values that agree after [^ m] and a low mask agree on the low bits. *)
Lemma lxor_mod k x y : 0 <= k -> Z.lxor x y mod 2 ^ k = Z.lxor (x mod 2 ^ k) (y mod 2 ^ k).
Proof.
  intros Hk. rewrite <- !Z.land_ones by done.
  apply Z.bits_inj_iff'. intros i Hi.
  rewrite !Z.lxor_spec, !Z.land_spec, Z.lxor_spec. by destruct (Z.testbit (Z.ones k) i); rewrite ?andb_true_r, ?andb_false_r.
Qed.

Lemma js_xor_mod k x y :
  0 <= k <= 32 -> js_xor x y mod 2 ^ k = Z.lxor (x mod 2 ^ k) (y mod 2 ^ k).
Proof. intros Hk. unfold js_xor. by rewrite lxor_mod, !ToInt32_mod by lia. Qed.

Lemma lxor_cancel_r x y z : Z.lxor x z = Z.lxor y z -> x = y.
Proof.
  intros H. rewrite <- (Z.lxor_0_r x), <- (Z.lxor_0_r y), <- (Z.lxor_nilpotent z).
  by rewrite <- !Z.lxor_assoc, H.
Qed.

(** Splitting a remainder by a product into a quotient and a remainder. *)
Lemma Zaux_mod_mul x a b :
  0 < a -> 0 < b -> x mod (a * b) = (x / a) mod b * a + x mod a.
Proof.
  intros Ha Hb. rewrite Z.rem_mul_r by lia. lia.
Qed.

(** An integer converted to a double: exact up to 2^53, rounded to 53
    significant bits (ties to even) beyond. *)
Definition to_double (n : Z) : Z :=
  let a := Z.abs n in
  let k := Z.log2 a - 52 in
  if k <=? 0 then n
  else
    let q := a / 2 ^ k in
    let r := a mod 2 ^ k in
    let up := (2 ^ k <? 2 * r) || ((2 ^ k =? 2 * r) && Z.odd q) in
    Z.sgn n * (if up then q + 1 else q) * 2 ^ k.

Lemma to_double_exact n : Z.abs n <= 2 ^ 53 -> to_double n = n.
Proof.
  intros Hn. unfold to_double. cbv zeta.
  destruct (decide (Z.abs n = 2 ^ 53)) as [He|Hne].
  - rewrite He. assert (n = 2 ^ 53 \/ n = - 2 ^ 53) as [->| ->] by lia; reflexivity.
  - destruct (decide (n = 0)) as [->|Hz]; [done|].
    assert (Z.log2 (Z.abs n) < 53) by (apply Z.log2_lt_pow2; lia).
    by rewrite (proj2 (Z.leb_le _ 0)) by lia.
Qed.

(** Rounding never produces a value below 2^53 from one above. *)
Lemma to_double_small n t : to_double n = t -> Z.abs t < 2 ^ 53 -> n = t.
Proof.
  intros Hn Ht. destruct (Z.le_gt_cases (Z.abs n) (2 ^ 53)) as [Hle|Hgt].
  { by rewrite to_double_exact in Hn. }
  exfalso. unfold to_double in Hn. cbv zeta in Hn.
  assert (Hlog : 53 <= Z.log2 (Z.abs n)) by (apply Z.log2_le_pow2; lia).
  pose proof (Z.log2_spec (Z.abs n) ltac:(lia)) as [Hlow _].
  set (k := Z.log2 (Z.abs n) - 52) in *.
  rewrite (proj2 (Z.leb_gt k 0)) in Hn by lia.
  replace (Z.log2 (Z.abs n)) with (52 + k) in Hlow by lia.
  rewrite Z.pow_add_r in Hlow by lia.
  assert (Hk : 2 <= 2 ^ k).
  { replace 2 with (2 ^ 1) at 1 by done. apply Z.pow_le_mono_r; lia. }
  assert (Hq : 2 ^ 52 <= Z.abs n / 2 ^ k) by (apply Z.div_le_lower_bound; lia).
  assert (Hbig : forall q, 2 ^ 52 <= q -> 2 ^ 53 <= Z.abs (Z.sgn n * q * 2 ^ k)).
  { intros q Hq'. rewrite !Z.abs_mul. change (2 ^ 53) with (2 ^ 52 * 2).
    rewrite (Z.abs_eq q), (Z.abs_eq (2 ^ k)) by lia.
    assert (Z.abs (Z.sgn n) = 1) as -> by lia. nia. }
  destruct (_ || _) in Hn; subst t; match goal with H : context [Z.sgn n * ?q * _] |- _ =>
    pose proof (Hbig q ltac:(lia)); lia end.
Qed.
