(* ===== verification/CycleWalk.v ===== *)
(** * Cycle-walking

    Restricting a permutation of a finite set to a subset by iterating it
    until it comes back into the subset: the walk always ends, stays in the
    subset and is injective on it. Used by the short-code scrambler, whose
    Feistel network permutes 54-bit values while codes live in [0, 62^9). *)
From stdpp Require Import finite.
From S2P Require Import Prelude.

Section CycleWalk.
  Context {A : Type} (f : A -> A) (inside : A -> bool).
  Context (dom : A -> Prop) (index : A -> nat) (bound : nat).
  Hypothesis f_dom : forall x, dom x -> dom (f x).
  Hypothesis f_inj : forall x y, dom x -> dom y -> f x = f y -> x = y.
  Hypothesis index_inj : forall x y, dom x -> dom y -> index x = index y -> x = y.
  Hypothesis index_bound : forall x, dom x -> index x < bound.

  (** One iteration of [while (!inside(x)) x = f(x)]. *)
Definition walk_step (x : A) : A + A := if inside x then inr x else inl (f x).

Lemma iter_dom n x : dom x -> dom (Nat.iter n f x).
  Proof. intros Hx. induction n as [|n IH]; simpl; auto. Qed.

Lemma iter_inj n x y : dom x -> dom y -> Nat.iter n f x = Nat.iter n f y -> x = y.
  Proof.
    intros Hx Hy. induction n as [|n IH]; simpl; [done|].
    intros H. apply IH, (f_inj _ _ (iter_dom n x Hx) (iter_dom n y Hy) H).
  Qed.

  (** Every orbit of an injection of a finite set into itself is a cycle. *)
Lemma orbit_returns x : dom x -> exists n, 1 <= n <= bound /\ Nat.iter n f x = x.
  Proof.
    intros Hx.
    destruct (nat_pigeonhole (fun i => index (Nat.iter i f x)) (S bound) bound)
      as (i & j & Hij & Heq); [lia|intros; by apply index_bound, iter_dom|].
    apply index_inj in Heq; [|by apply iter_dom..].
    exists (j - i). split; [lia|].
    symmetry. apply (iter_inj i); [done|by apply iter_dom|].
    rewrite Heq, <- Nat.iter_add. f_equal. lia.
  Qed.

Lemma nloop_walk n x r :
    nloop walk_step n x = inr r ->
    exists k, k < n /\ r = Nat.iter k f x /\ inside r = true
      /\ forall j, j < k -> inside (Nat.iter j f x) = false.
  Proof.
    revert x; induction n as [|n IH]; intros x; simpl; [done|].
    unfold walk_step at 1. destruct (inside x) eqn:Hin.
    - intros [= <-]. exists 0. repeat split; [lia|done|lia].
    - intros (k & Hk & -> & Hr & Hj)%IH. exists (S k).
      rewrite Nat.iter_succ_r. repeat split; [lia|done|].
      intros [|j] ?; [done|]. rewrite Nat.iter_succ_r. apply Hj. lia.
  Qed.

Lemma nloop_walk_stuck n x s :
    nloop walk_step n x = inl s -> forall j, j < n -> inside (Nat.iter j f x) = false.
  Proof.
    revert x; induction n as [|n IH]; intros x; simpl; [lia|].
    unfold walk_step at 1. destruct (inside x) eqn:Hin; [done|].
    intros H [|j] ?; [done|]. rewrite Nat.iter_succ_r. apply (IH _ H). lia.
  Qed.

  (** Walking from [f x] ends within [bound] iterations when [x] is inside. *)
Lemma walk_terminates x :
    dom x -> inside x = true -> exists r, nloop walk_step bound (f x) = inr r.
  Proof.
    intros Hx Hin. destruct (orbit_returns x Hx) as (n & Hn & Hiter).
    destruct (nloop walk_step bound (f x)) as [s|r] eqn:Hl; [|eauto].
    pose proof (nloop_walk_stuck _ _ _ Hl (n - 1)) as Hout.
    rewrite <- Nat.iter_succ_r in Hout.
    replace (S (n - 1)) with n in Hout by lia.
    rewrite Hiter, Hin in Hout. discriminate Hout. lia.
  Qed.

Lemma walk_inj_le x y i j :
    dom x -> dom y -> inside x = true -> i <= j ->
    Nat.iter (S i) f x = Nat.iter (S j) f y ->
    (forall k, k < j -> inside (Nat.iter (S k) f y) = false) -> x = y.
  Proof.
    intros Hx Hy Hin Hle Heq Hout.
    replace (S j) with (S i + (j - i)) in Heq by lia.
    rewrite Nat.iter_add in Heq.
    apply (iter_inj (S i)) in Heq; [|done|by apply iter_dom].
    destruct (j - i) as [|d] eqn:Hd; [done|].
    rewrite Heq, (Hout d) in Hin by lia. done.
  Qed.

  (** The walk is injective on the subset. *)
Lemma walk_injective n m x y r :
    dom x -> dom y -> inside x = true -> inside y = true ->
    nloop walk_step n (f x) = inr r -> nloop walk_step m (f y) = inr r -> x = y.
  Proof.
    intros Hx Hy Hix Hiy (i & _ & Hi & _ & Hoi)%nloop_walk (j & _ & Hj & _ & Hoj)%nloop_walk.
    rewrite Hi in Hj. rewrite <- !Nat.iter_succ_r in Hj.
    setoid_rewrite <- Nat.iter_succ_r in Hoi. setoid_rewrite <- Nat.iter_succ_r in Hoj.
    destruct (decide (i <= j)) as [Hle|Hgt].
    - exact (walk_inj_le x y i j Hx Hy Hix Hle Hj Hoj).
    - symmetry. apply (walk_inj_le y x j i Hy Hx Hiy); [lia|done|done].
  Qed.

Lemma nloop_walk_exit n x :
    inside (Nat.iter n f x) = true ->
    (forall j, j < n -> inside (Nat.iter j f x) = false) ->
    nloop walk_step (S n) x = inr (Nat.iter n f x).
  Proof.
    revert x; induction n as [|n IH]; intros x Hin Hout.
    - simpl in *. unfold walk_step. by rewrite Hin.
    - rewrite Nat.iter_succ_r in *. rewrite <- IH; [|done|].
      + change (nloop walk_step (S (S n)) x)
          with (match walk_step x with inl y => nloop walk_step (S n) y | inr r => inr r end).
        unfold walk_step at 1. pose proof (Hout 0 ltac:(lia)) as Hx. simpl in Hx. by rewrite Hx.
      + intros j Hj. rewrite <- Nat.iter_succ_r. apply Hout. lia.
  Qed.

  (** The last point inside the subset among the first [n] of an orbit. *)
Lemma last_inside n x :
    inside x = true -> 1 <= n ->
    exists k, k < n /\ inside (Nat.iter k f x) = true
      /\ forall j, k < j -> j < n -> inside (Nat.iter j f x) = false.
  Proof.
    intros Hin. induction n as [|n IH]; [lia|]. intros _.
    destruct (inside (Nat.iter n f x)) eqn:Hn; [exists n; repeat split; [lia|done|lia]|].
    destruct n as [|n]; [by simpl in Hn; congruence|].
    destruct IH as (k & Hk & Hik & Hout); [lia|].
    exists k. repeat split; [lia|done|]. intros j Hkj Hj.
    destruct (decide (j = S n)) as [->|]; [done|]. apply Hout; lia.
  Qed.

  (** Every point of the subset is the end of a walk from the subset. *)
Lemma walk_surjective r :
    dom r -> inside r = true ->
    exists x, dom x /\ inside x = true /\ nloop walk_step bound (f x) = inr r.
  Proof.
    intros Hr Hin. destruct (orbit_returns r Hr) as (n & Hn & Hiter).
    destruct (last_inside n r Hin) as (k & Hk & Hik & Hout); [lia|].
    exists (Nat.iter k f r). split; [by apply iter_dom|]. split; [done|].
    assert (Hpt : forall j, Nat.iter j f (f (Nat.iter k f r)) = Nat.iter (S j + k) f r).
    { intros j. by rewrite <- Nat.iter_succ_r, <- Nat.iter_add. }
    apply (nloop_more _ (S (n - k - 1))); [|lia].
    rewrite nloop_walk_exit; rewrite ?Hpt; replace (S (n - k - 1) + k) with n by lia.
    - by rewrite Hiter.
    - by rewrite Hiter.
    - intros j Hj. rewrite Hpt. apply Hout; lia.
  Qed.

Lemma nloop_walk_dom n x r : dom x -> nloop walk_step n x = inr r -> dom r.
  Proof. intros Hx (k & _ & -> & _)%nloop_walk. by apply iter_dom. Qed.
End CycleWalk.
