(* ===== verification/CodeAllocator.v ===== *)
(** * Short codes: Base62 and the Feistel scrambler

    Models [encodeBase62Fixed] and [CodeScrambler] of
    src/src/domain/code-allocator.ts. *)
From S2P Require Import Prelude JsNum CycleWalk.
Open Scope Z_scope.

Module Base62.

Definition ALPHABET : string :=
  "0123456789ABCDEFGHIJKLMNOPQRSTUVWXYZabcdefghijklmnopqrstuvwxyz".

Definition ALLOCATED_CODE_LENGTH : nat := 9.

Definition ALLOCATED_CODE_SPACE : Z := 62 ^ Z.of_nat ALLOCATED_CODE_LENGTH.

(** [ALPHABET\[digit\]] as a one-character string. An index outside the
    alphabet gives [undefined], which [join("")] prints as nothing. *)
Definition alphabet_at (digit : Z) : string :=
  if digit <? 0 then ""
  else match String.get (Z.to_nat digit) ALPHABET with
       | Some c => String c ""
       | None => ""
       end.

(** The loop of [encodeBase62Fixed]: fills [characters] from the last index
    down to 0 and returns it with the remaining quotient. *)
Fixpoint base62_loop (count : nat) (remaining : Z) (characters : list string)
  : list string * Z :=
  match count with
  | O => (characters, remaining)
  | S count =>
      base62_loop count (remaining / 62) (alphabet_at (remaining mod 62) :: characters)
  end.

Definition encodeBase62Fixed (value : Z) (length : nat) : result string :=
  if value <? 0 then Throw "value must be non-negative"
  else
    let '(characters, remaining) := base62_loop length value [] in
    if negb (remaining =? 0) then Throw "value does not fit in the requested length"
    else Return (join characters).

(** The same digits, most significant first, without the accumulator. *)
Fixpoint digits (count : nat) (value : Z) : string :=
  match count with
  | O => ""
  | S count => digits count (value / 62) +:+ alphabet_at (value mod 62)
  end.

Lemma base62_loop_digits count value characters :
  base62_loop count value characters
  = (fst (base62_loop count value []) ++ characters, snd (base62_loop count value [])).
Proof.
  revert value characters; induction count as [|count IH]; intros value characters; [done|].
  simpl. rewrite (IH _ (_ :: characters)), (IH _ [_]). simpl. by rewrite <- app_assoc.
Qed.

Lemma base62_loop_join count value : join (fst (base62_loop count value [])) = digits count value.
Proof.
  revert value; induction count as [|count IH]; intros value; [done|].
  simpl. rewrite base62_loop_digits. simpl. rewrite join_app, IH. simpl.
  by rewrite string_app_nil_r.
Qed.

Lemma base62_loop_remaining count value chars :
  snd (base62_loop count value chars) = value / 62 ^ Z.of_nat count.
Proof.
  revert value chars; induction count as [|count IH]; intros value chars.
  - simpl. by rewrite Z.div_1_r.
  - simpl base62_loop. rewrite IH, Nat2Z.inj_succ, Z.pow_succ_r by lia.
    rewrite Z.div_div; [done|lia|apply Z.pow_pos_nonneg; lia].
Qed.

Lemma alphabet_at_char d :
  0 <= d < 62 -> exists c, alphabet_at d = String c "" /\ is_alnum c = true.
Proof.
  intros Hd. unfold alphabet_at. rewrite (proj2 (Z.ltb_ge d 0)) by lia.
  assert (Hn : (Z.to_nat d < 62)%nat) by lia. revert Hn.
  generalize (Z.to_nat d). intros n Hn.
  do 62 (destruct n as [|n]; [eexists; split; reflexivity|]). lia.
Qed.

(** Position of a character in the alphabet; the inverse of [alphabet_at]. *)
Fixpoint index_from (i : Z) (c : ascii) (s : string) : Z :=
  match s with
  | EmptyString => -1
  | String d s => if Ascii.eqb c d then i else index_from (i + 1) c s
  end.

Lemma alphabet_at_index d c :
  0 <= d < 62 -> alphabet_at d = String c "" -> index_from 0 c ALPHABET = d.
Proof.
  intros Hd. unfold alphabet_at. rewrite (proj2 (Z.ltb_ge d 0)) by lia.
  rewrite <- (Z2Nat.id d) at 2 by lia.
  assert (Hn : (Z.to_nat d < 62)%nat) by lia. revert Hn.
  generalize (Z.to_nat d). intros n Hn.
  do 62 (destruct n as [|n]; [intros [= <-]; reflexivity|]). lia.
Qed.

Lemma alphabet_at_inj d e :
  0 <= d < 62 -> 0 <= e < 62 -> alphabet_at d = alphabet_at e -> d = e.
Proof.
  intros Hd He Heq. destruct (alphabet_at_char d Hd) as (c & Hc & _).
  rewrite <- (alphabet_at_index d c Hd Hc), <- (alphabet_at_index e c He); congruence.
Qed.

Lemma digits_length count value : 0 <= value -> String.length (digits count value) = count.
Proof.
  revert value; induction count as [|count IH]; intros value Hv; [done|]. simpl.
  destruct (alphabet_at_char (value mod 62)) as (c & -> & _); [by apply Z.mod_pos_bound|].
  rewrite string_length_app, IH; [simpl; lia|]. apply Z.div_pos; lia.
Qed.

Lemma digits_alnum count value :
  0 <= value -> string_forallb is_alnum (digits count value) = true.
Proof.
  revert value; induction count as [|count IH]; intros value Hv; [done|]. simpl.
  destruct (alphabet_at_char (value mod 62)) as (c & -> & Hc); [by apply Z.mod_pos_bound|].
  rewrite string_forallb_app, IH by (apply Z.div_pos; lia). simpl. by rewrite Hc.
Qed.

Lemma digits_inj count v w :
  0 <= v < 62 ^ Z.of_nat count -> 0 <= w < 62 ^ Z.of_nat count ->
  digits count v = digits count w -> v = w.
Proof.
  revert v w; induction count as [|count IH]; intros v w Hv Hw; simpl digits.
  - simpl in *. lia.
  - rewrite Nat2Z.inj_succ, Z.pow_succ_r in Hv, Hw by lia.
    intros [Hq Hr]%string_app_inj_l; cycle 1.
    { by rewrite !digits_length by (apply Z.div_pos; lia). }
    apply IH in Hq; [|split; [apply Z.div_pos; lia|apply Z.div_lt_upper_bound; lia]..].
    apply alphabet_at_inj in Hr; [|by apply Z.mod_pos_bound..].
    rewrite (Z.div_mod v 62), (Z.div_mod w 62) by lia. by rewrite Hq, Hr.
Qed.

Lemma encode_fits value length :
  0 <= value < 62 ^ Z.of_nat length ->
  encodeBase62Fixed value length = Return (digits length value).
Proof.
  intros Hv. unfold encodeBase62Fixed. rewrite (proj2 (Z.ltb_ge _ _)) by lia.
  destruct (base62_loop length value []) as [chars rest] eqn:He.
  pose proof (base62_loop_remaining length value []) as Hr.
  pose proof (base62_loop_join length value) as Hj.
  rewrite He in Hr, Hj. simpl in Hr, Hj. rewrite Z.div_small in Hr by done.
  rewrite Hr, Hj. done.
Qed.

(** Reading a Base62 numeral back, most significant digit first. *)
Fixpoint decode_from (acc : Z) (code : string) : Z :=
  match code with
  | EmptyString => acc
  | String c code => decode_from (acc * 62 + index_from 0 c ALPHABET) code
  end.

Lemma decode_from_app acc s c :
  decode_from acc (s +:+ String c "") = decode_from acc s * 62 + index_from 0 c ALPHABET.
Proof.
  revert acc; induction s as [|d s IH]; intros acc; [done|].
  rewrite string_app_cons. apply IH.
Qed.

Lemma decode_digits count value :
  0 <= value -> decode_from 0 (digits count value) = value mod 62 ^ Z.of_nat count.
Proof.
  revert value; induction count as [|count IH]; intros value Hv.
  - simpl. by rewrite Z.mod_1_r.
  - simpl digits. destruct (alphabet_at_char (value mod 62)) as (c & Hc & _);
      [by apply Z.mod_pos_bound|].
    rewrite Hc, decode_from_app, IH by (apply Z.div_pos; lia).
    rewrite (alphabet_at_index _ _ (Z.mod_pos_bound value 62 ltac:(done)) Hc).
    rewrite Nat2Z.inj_succ, Z.pow_succ_r by lia.
    rewrite (Zaux_mod_mul value 62 (62 ^ Z.of_nat count));
      [lia|done|apply Z.pow_pos_nonneg; lia].
Qed.

(** C32. [encodeBase62Fixed] on every input: it throws on a negative value and
    on one that does not fit; otherwise it returns exactly [length] characters
    of [\[0-9A-Za-z\]], which read back as the value. *)
Theorem encodeBase62Fixed_correct value length :
  (value < 0 ->
     encodeBase62Fixed value length = Throw "value must be non-negative")
  /\ (62 ^ Z.of_nat length <= value ->
     encodeBase62Fixed value length = Throw "value does not fit in the requested length")
  /\ (0 <= value < 62 ^ Z.of_nat length ->
     exists code, encodeBase62Fixed value length = Return code
       /\ String.length code = length /\ string_forallb is_alnum code = true
       /\ decode_from 0 code = value).
Proof.
  split; [|split].
  - intros Hv. unfold encodeBase62Fixed. by rewrite (proj2 (Z.ltb_lt value 0) Hv).
  - intros Hv. pose proof (Z.pow_pos_nonneg 62 (Z.of_nat length)).
    unfold encodeBase62Fixed. rewrite (proj2 (Z.ltb_ge _ _)) by lia.
    pose proof (base62_loop_remaining length value []) as Hr.
    destruct (base62_loop length value []) as [chars rest]. simpl in Hr.
    assert (1 <= rest) by (rewrite Hr; apply Z.div_le_lower_bound; lia).
    by rewrite (proj2 (Z.eqb_neq _ _)) by lia.
  - intros Hv. exists (digits length value). rewrite encode_fits by done.
    split; [done|]. split; [apply digits_length, Hv|]. split; [apply digits_alnum, Hv|].
    rewrite decode_digits by lia. by apply Z.mod_small.
Qed.

Lemma encodeBase62Fixed_correct_witness :
  encodeBase62Fixed (-1) 2 = Throw "value must be non-negative"
  /\ encodeBase62Fixed 3844 2 = Throw "value does not fit in the requested length"
  /\ (exists code, encodeBase62Fixed 61 2 = Return code
       /\ String.length code = 2%nat /\ string_forallb is_alnum code = true
       /\ decode_from 0 code = 61).
Proof.
  split; [|split].
  - apply (encodeBase62Fixed_correct (-1) 2). reflexivity.
  - apply (encodeBase62Fixed_correct 3844 2). discriminate.
  - apply (encodeBase62Fixed_correct 61 2). split; [discriminate|reflexivity].
Defined.

End Base62.

Module CodeScrambler.
Import Base62.

Definition HALF_BITS : Z := 27.
Definition HALF_SIZE : Z := 2 ^ HALF_BITS.
Definition HALF_MASK : Z := HALF_SIZE - 1.
Definition FEISTEL_ROUNDS : nat := 8.

Definition SPACE_HIGH : Z := ALLOCATED_CODE_SPACE / HALF_SIZE.
Definition SPACE_LOW : Z := ALLOCATED_CODE_SPACE mod HALF_SIZE.

Definition insideCodeSpace (high low : Z) : bool :=
  (high <? SPACE_HIGH) || ((high =? SPACE_HIGH) && (low <? SPACE_LOW)).

Record t : Type := { roundKeys : list Z }.

(** [material.readUInt32BE(offset)]: throws a RangeError past the end. *)
Definition readUInt32BE (material : list Z) (offset : nat) : result Z :=
  match material !! offset, material !! S offset,
        material !! S (S offset), material !! S (S (S offset)) with
  | Some a, Some b, Some c, Some d =>
      Return (a * 2 ^ 24 + b * 2 ^ 16 + c * 2 ^ 8 + d)
  | _, _, _, _ => Throw "ERR_OUT_OF_RANGE"
  end.

(** Filling [this.roundKeys\[index\]] for [index] from [from], [count] times. *)
Fixpoint readRoundKeys (material : list Z) (from count : nat) : result (list Z) :=
  match count with
  | O => Return []
  | S count =>
      try key <- readUInt32BE material (from * 4);
      try keys <- readRoundKeys material (S from) count;
      Return (key :: keys)
  end.

(** The constructor. HMAC-SHA256 is Node's [crypto]: a parameter giving the
    digest bytes of a secret and a message. *)
Definition new (hmac_sha256 : string -> string -> list Z) (secret : string) : result t :=
  if (String.length secret =? 0)%nat then Throw "scramble secret must not be empty"
  else
    let material :=
      (hmac_sha256 secret "wraplink-feistel-keys-0"
       ++ hmac_sha256 secret "wraplink-feistel-keys-1")%list in
    try keys <- readRoundKeys material 0 (FEISTEL_ROUNDS * 2);
    Return {| roundKeys := keys |}.

(** [round(half, keyA, keyB)], on JavaScript's 32-bit operators. *)
Definition round (half keyA keyB : Z) : Z :=
  let hash := js_shr (js_xor half keyA) 0 in
  let hash := imul (js_xor hash (js_shr hash 16)) 0x85ebca6b in
  let hash := imul (js_xor hash (js_shr hash 13)) 0xc2b2ae35 in
  let hash := js_shr (js_xor hash (js_shr hash 16)) 0 in
  let hash := imul (js_xor hash keyB) 0x9e3779b1 in
  js_and (js_xor hash (js_shr hash 15)) HALF_MASK.

(** [this.roundKeys\[index\]!]; a missing key is [undefined], which the bit
    operators read as 0. *)
Definition roundKey (s : t) (index : nat) : Z := default 0 (roundKeys s !! index).

(** The body of the loop of [feistel] for one round. *)
Definition feistel_round (s : t) (r : nat) (half : Z * Z) : Z * Z :=
  let '(left_, right_) := half in
  let mixed :=
    js_and (js_xor left_ (round right_ (roundKey s (r * 2)) (roundKey s (r * 2 + 1))))
      HALF_MASK in
  (right_, mixed).

Definition feistel (s : t) (half : Z * Z) : Z * Z :=
  fold_left (fun h r => feistel_round s r h) (seq 0 FEISTEL_ROUNDS) half.

Definition inside (half : Z * Z) : bool := insideCodeSpace (fst half) (snd half).

(** Fuel for the cycle-walking loop: the number of 54-bit values, which the
    orbit of a code can never exceed. *)
Definition WALK_FUEL : positive := 2 ^ 54.

(** [permuteHalves]: one permutation, then again while outside the space.
    [None] stands for a loop longer than the fuel, which never happens
    ([permuteHalves_total]). *)
Definition permuteHalves (s : t) (high low : Z) : option (Z * Z) :=
  match loop (walk_step (feistel s) inside) WALK_FUEL (feistel s (high, low)) with
  | inl _ => None
  | inr half => Some half
  end.

Definition out_of_space (id : Z) : bool := (id <? 0) || (ALLOCATED_CODE_SPACE <=? id).

Definition permute (s : t) (id : Z) : option (result Z) :=
  if out_of_space id then Some (Throw "id is outside the code space")
  else
    match permuteHalves s (id / HALF_SIZE) (id mod HALF_SIZE) with
    | Some (high, low) => Some (Return (high * HALF_SIZE + low))
    | None => None
    end.

(** The digit loop of [encode]: two-part long division by 62. Each
    [Math.floor] of a quotient of safe integers is the integer quotient. *)
Fixpoint encode_loop (count : nat) (high low : Z) (characters : list string) : list string :=
  match count with
  | O => characters
  | S count =>
      let highRemainder := high mod 62 in
      let high := high / 62 in
      let combined := highRemainder * HALF_SIZE + low in
      let low := combined / 62 in
      encode_loop count high low (alphabet_at (combined mod 62) :: characters)
  end.

Definition encode (s : t) (id : Z) : option (result string) :=
  if out_of_space id then Some (Throw "id is outside the code space")
  else
    match permuteHalves s (id / HALF_SIZE) (id mod HALF_SIZE) with
    | Some (high, low) => Some (Return (join (encode_loop ALLOCATED_CODE_LENGTH high low [])))
    | None => None
    end.

(** ** The Feistel network is a permutation of pairs of 27-bit halves *)

Definition half_ok (half : Z * Z) : Prop :=
  0 <= fst half < HALF_SIZE /\ 0 <= snd half < HALF_SIZE.

Lemma HALF_SIZE_pos : 0 < HALF_SIZE. Proof. done. Qed.

Lemma masked_ok x : 0 <= js_and x HALF_MASK < HALF_SIZE.
Proof.
  unfold HALF_MASK, HALF_SIZE. rewrite js_and_mask by (unfold HALF_BITS; lia).
  apply Z.mod_pos_bound. done.
Qed.

Lemma feistel_round_ok s r half : half_ok half -> half_ok (feistel_round s r half).
Proof.
  destruct half as [l0 r0]. intros [Hl Hr]. split; [done|apply masked_ok].
Qed.

Lemma feistel_round_inj s r h1 h2 :
  half_ok h1 -> half_ok h2 -> feistel_round s r h1 = feistel_round s r h2 -> h1 = h2.
Proof.
  destruct h1 as [l1 r1], h2 as [l2 r2]. unfold half_ok; simpl. intros [Hl1 _] [Hl2 _].
  intros [= -> Hmix]. f_equal. revert Hmix.
  unfold HALF_MASK, HALF_SIZE in *. rewrite !js_and_mask by (unfold HALF_BITS; lia).
  rewrite !js_xor_mod by (unfold HALF_BITS; lia).
  intros Hx%lxor_cancel_r. by rewrite !Z.mod_small in Hx.
Qed.

Lemma feistel_rounds_ok s rs half :
  half_ok half -> half_ok (fold_left (fun h r => feistel_round s r h) rs half).
Proof.
  revert half; induction rs as [|r rs IH]; intros half Hok; simpl; [done|].
  by apply IH, feistel_round_ok.
Qed.

Lemma feistel_ok s half : half_ok half -> half_ok (feistel s half).
Proof. unfold feistel. apply feistel_rounds_ok. Qed.

Lemma feistel_inj s h1 h2 :
  half_ok h1 -> half_ok h2 -> feistel s h1 = feistel s h2 -> h1 = h2.
Proof.
  unfold feistel. generalize (seq 0 FEISTEL_ROUNDS) as rs. intros rs.
  revert h1 h2; induction rs as [|r rs IH]; intros h1 h2 H1 H2; simpl; [done|].
  intros Heq. apply IH in Heq; [|by apply feistel_round_ok..].
  by apply (feistel_round_inj s r).
Qed.

(** ** The walk *)

Definition value_of (half : Z * Z) : Z := fst half * HALF_SIZE + snd half.
Definition halves_of (id : Z) : Z * Z := (id / HALF_SIZE, id mod HALF_SIZE).

Lemma value_of_halves id : value_of (halves_of id) = id.
Proof. unfold value_of, halves_of; simpl. pose proof (Z.div_mod id HALF_SIZE ltac:(done)). lia. Qed.

Lemma value_of_bound half : half_ok half -> 0 <= value_of half < 2 ^ 54.
Proof.
  destruct half as [h l]. unfold half_ok, value_of; simpl. intros [Hh Hl].
  change (2 ^ 54) with (HALF_SIZE * HALF_SIZE). nia.
Qed.

Lemma value_of_inj h1 h2 : half_ok h1 -> half_ok h2 -> value_of h1 = value_of h2 -> h1 = h2.
Proof.
  destruct h1 as [a b], h2 as [c d]. unfold half_ok, value_of; simpl.
  intros [_ Hb] [_ Hd] Heq.
  assert (a = c) as -> by nia. f_equal. lia.
Qed.

Lemma inside_spec half :
  half_ok half -> inside half = true <-> value_of half < ALLOCATED_CODE_SPACE.
Proof.
  destruct half as [h l]. unfold half_ok, inside, insideCodeSpace, value_of; simpl fst; simpl snd.
  intros [Hh Hl]. rewrite orb_true_iff, andb_true_iff, !Z.ltb_lt, Z.eqb_eq.
  pose proof (Z.div_mod ALLOCATED_CODE_SPACE HALF_SIZE) as Hdm.
  pose proof (Z.mod_pos_bound ALLOCATED_CODE_SPACE HALF_SIZE HALF_SIZE_pos) as Hb.
  fold SPACE_HIGH SPACE_LOW in *. specialize (Hdm ltac:(done)).
  rewrite Hdm. clear Hdm. revert Hh Hl Hb. generalize SPACE_HIGH SPACE_LOW HALF_SIZE.
  intros sh sl hs Hh Hl Hb. split; [nia|]. intros H.
  destruct (Z.lt_trichotomy h sh) as [?|[->|?]]; [by left|right; lia|nia].
Qed.

Definition in_space (id : Z) : Prop := 0 <= id < ALLOCATED_CODE_SPACE.

Lemma in_space_half id : in_space id -> half_ok (halves_of id) /\ inside (halves_of id) = true.
Proof.
  intros Hid. assert (Hok : half_ok (halves_of id)).
  { unfold half_ok, halves_of; simpl. split; [|by apply Z.mod_pos_bound].
    split; [apply Z.div_pos; [apply Hid|done]|].
    apply Z.div_lt_upper_bound; [done|]. destruct Hid as [_ Hid].
    eapply Z.lt_trans; [exact Hid|]. done. }
  split; [done|]. apply inside_spec; [done|]. rewrite value_of_halves. apply Hid.
Qed.

Lemma out_of_space_false id : out_of_space id = false <-> in_space id.
Proof.
  unfold out_of_space, in_space. rewrite orb_false_iff, Z.ltb_ge, Z.leb_gt. done.
Qed.

(** Abstract bound on the number of halves, never computed. *)
Lemma half_index_bound half :
  half_ok half -> (Z.to_nat (value_of half) < Pos.to_nat WALK_FUEL)%nat.
Proof.
  intros Hok%value_of_bound. rewrite <- Z2Nat.inj_pos.
  apply Z2Nat.inj_lt; [lia|done|]. apply Hok.
Qed.

Lemma half_index_inj h1 h2 :
  half_ok h1 -> half_ok h2 -> Z.to_nat (value_of h1) = Z.to_nat (value_of h2) -> h1 = h2.
Proof.
  intros H1 H2 Heq. apply value_of_inj; [done..|].
  pose proof (value_of_bound h1 H1). pose proof (value_of_bound h2 H2). lia.
Qed.

Lemma permuteHalves_total s id :
  in_space id ->
  exists half, permuteHalves s (fst (halves_of id)) (snd (halves_of id)) = Some half
    /\ half_ok half /\ inside half = true.
Proof.
  intros [Hok Hin]%in_space_half. unfold permuteHalves. rewrite loop_nloop.
  rewrite <- surjective_pairing.
  destruct (walk_terminates (feistel s) inside half_ok (fun h => Z.to_nat (value_of h))
    (Pos.to_nat WALK_FUEL) (feistel_ok s) (feistel_inj s) half_index_inj half_index_bound
    (halves_of id) Hok Hin) as [half Hw].
  rewrite Hw. exists half. split; [done|]. split.
  - eapply (nloop_walk_dom (feistel s) inside half_ok (feistel_ok s)), Hw. by apply feistel_ok.
  - by apply nloop_walk in Hw as (_ & _ & _ & Hr & _).
Qed.

Lemma permuteHalves_inj s id1 id2 half :
  in_space id1 -> in_space id2 ->
  permuteHalves s (fst (halves_of id1)) (snd (halves_of id1)) = Some half ->
  permuteHalves s (fst (halves_of id2)) (snd (halves_of id2)) = Some half -> id1 = id2.
Proof.
  intros [Hok1 Hin1]%in_space_half [Hok2 Hin2]%in_space_half.
  unfold permuteHalves. rewrite !loop_nloop, <- !surjective_pairing.
  generalize (Pos.to_nat WALK_FUEL) as fuel. intros fuel.
  destruct (nloop _ _ (feistel s (halves_of id1))) as [|r1] eqn:Hw1; [done|].
  destruct (nloop _ _ (feistel s (halves_of id2))) as [|r2] eqn:Hw2; [done|].
  intros [= ->] [= ->].
  rewrite <- (value_of_halves id1), <- (value_of_halves id2). f_equal.
  eapply (walk_injective (feistel s) inside half_ok (feistel_ok s) (feistel_inj s));
    [exact Hok1|exact Hok2|exact Hin1|exact Hin2|exact Hw1|exact Hw2].
Qed.

Lemma permuteHalves_surjective s v :
  in_space v ->
  exists id, in_space id
    /\ permuteHalves s (fst (halves_of id)) (snd (halves_of id)) = Some (halves_of v).
Proof.
  intros [Hok Hin]%in_space_half.
  destruct (walk_surjective (feistel s) inside half_ok (fun h => Z.to_nat (value_of h))
    (Pos.to_nat WALK_FUEL) (feistel_ok s) (feistel_inj s) half_index_inj half_index_bound
    (halves_of v) Hok Hin) as (h & Hh & Hih & Hw).
  exists (value_of h).
  assert (Hid : in_space (value_of h)).
  { split; [by apply value_of_bound|by apply inside_spec]. }
  split; [done|].
  assert (halves_of (value_of h) = h) as ->.
  { apply value_of_inj; [by apply in_space_half|done|]. apply value_of_halves. }
  unfold permuteHalves. by rewrite loop_nloop, <- surjective_pairing, Hw.
Qed.

(** The two-part division computes the Base62 digits of the whole number,
    and every number it meets is a safe integer. *)
Lemma encode_loop_digits count high low chars :
  half_ok (high, low) ->
  join (encode_loop count high low chars)
  = digits count (value_of (high, low)) +:+ join chars.
Proof.
  revert high low chars; induction count as [|count IH]; intros high low chars [Hh Hl];
    [done|].
  simpl in Hh, Hl. simpl encode_loop.
  assert (Hv : value_of (high, low)
    = (high / 62 * HALF_SIZE) * 62 + ((high mod 62) * HALF_SIZE + low)).
  { unfold value_of; simpl. pose proof (Z.div_mod high 62 ltac:(done)). nia. }
  assert (Hm : 0 <= high mod 62 < 62) by (by apply Z.mod_pos_bound).
  rewrite IH; cycle 1.
  { unfold half_ok, HALF_SIZE, HALF_BITS in *; simpl fst; simpl snd. split; split.
    - apply Z.div_pos; lia.
    - apply Z.div_lt_upper_bound; lia.
    - apply Z.div_pos; lia.
    - apply Z.div_lt_upper_bound; lia. }
  simpl digits. simpl join. rewrite string_app_assoc. do 2 f_equal.
  - f_equal. rewrite Hv. unfold value_of; simpl fst; simpl snd.
    by rewrite Z.div_add_l by done.
  - rewrite Hv. by rewrite (Z.add_comm (_ * 62)), Z.mod_add by done.
Qed.

Lemma permute_in_space s id :
  in_space id ->
  exists half, permuteHalves s (id / HALF_SIZE) (id mod HALF_SIZE) = Some half
    /\ half_ok half /\ in_space (value_of half)
    /\ permute s id = Some (Return (value_of half))
    /\ encode s id = Some (Return (digits ALLOCATED_CODE_LENGTH (value_of half))).
Proof.
  intros Hid. destruct (permuteHalves_total s id Hid) as (half & Hp & Hok & Hin).
  exists half. unfold halves_of in Hp; simpl fst in Hp; simpl snd in Hp.
  repeat split.
  - done.
  - apply Hok.
  - apply Hok.
  - apply Hok.
  - apply Hok.
  - by apply value_of_bound.
  - by apply inside_spec.
  - unfold permute. rewrite (proj2 (out_of_space_false id) Hid), Hp. by destruct half.
  - unfold encode. rewrite (proj2 (out_of_space_false id) Hid), Hp. destruct half as [h l].
    by rewrite encode_loop_digits, string_app_nil_r.
Qed.

Lemma digits_code_inj v w :
  in_space v -> in_space w ->
  digits ALLOCATED_CODE_LENGTH v = digits ALLOCATED_CODE_LENGTH w -> v = w.
Proof. apply digits_inj. Qed.

Lemma encode_inj s id1 id2 code :
  in_space id1 -> in_space id2 ->
  encode s id1 = Some (Return code) -> encode s id2 = Some (Return code) -> id1 = id2.
Proof.
  intros H1 H2.
  destruct (permute_in_space s id1 H1) as (h1 & Hp1 & Hok1 & Hs1 & _ & ->).
  destruct (permute_in_space s id2 H2) as (h2 & Hp2 & Hok2 & Hs2 & _ & ->).
  intros [= <-] [= Heq]. apply digits_code_inj in Heq; [|done..].
  apply value_of_inj in Heq; [subst h2|done..].
  by apply (permuteHalves_inj s id1 id2 h1).
Qed.

(** C16. [encode] agrees with the reference: for every id of the code space,
    cycle-walking ends, [permute] returns a value of the code space, and
    [encode] returns exactly [encodeBase62Fixed(permute(id), 9)]. *)
Theorem encode_matches_reference s id :
  in_space id ->
  exists value code,
    permute s id = Some (Return value) /\ in_space value
    /\ encodeBase62Fixed value ALLOCATED_CODE_LENGTH = Return code
    /\ encode s id = Some (Return code).
Proof.
  intros Hid. destruct (permute_in_space s id Hid) as (h & _ & _ & Hs & Hp & He).
  exists (value_of h), (digits ALLOCATED_CODE_LENGTH (value_of h)).
  split; [done|]. split; [done|]. split; [|done]. by apply encode_fits.
Qed.

(** C15. Codes are unique by construction: distinct ids of the code space get
    distinct codes, each of exactly 9 characters of [\[0-9A-Za-z\]]. *)
Theorem encode_unique_codes s id1 id2 :
  in_space id1 -> in_space id2 -> id1 <> id2 ->
  exists code1 code2,
    encode s id1 = Some (Return code1) /\ encode s id2 = Some (Return code2)
    /\ code1 <> code2
    /\ String.length code1 = ALLOCATED_CODE_LENGTH /\ string_forallb is_alnum code1 = true.
Proof.
  intros H1 H2 Hne.
  destruct (permute_in_space s id1 H1) as (h1 & _ & _ & Hs1 & _ & He1).
  destruct (permute_in_space s id2 H2) as (h2 & _ & _ & Hs2 & _ & He2).
  do 2 eexists. split; [done|]. split; [done|]. split.
  - intros Heq. apply Hne. eapply (encode_inj s); [done|done|exact He1|]. by rewrite He2, Heq.
  - split; [apply digits_length, Hs1|apply digits_alnum, Hs1].
Qed.

(** [permute] is a bijection of [\[0, 62^9)]: every value of the code
    space is the image of exactly one id, and ids outside it throw. *)
Theorem permute_bijective s :
  (forall value, in_space value ->
     exists id, in_space id /\ permute s id = Some (Return value)
       /\ forall id', in_space id' -> permute s id' = Some (Return value) -> id' = id)
  /\ (forall id, ~ in_space id ->
        permute s id = Some (Throw "id is outside the code space")).
Proof.
  split.
  - intros v Hv. destruct (permuteHalves_surjective s v Hv) as (id & Hid & Hp).
    destruct (permute_in_space s id Hid) as (h & Hp' & Hok & Hs & Hperm & _).
    unfold halves_of in Hp at 1 2; simpl fst in Hp; simpl snd in Hp.
    rewrite Hp' in Hp. injection Hp as ->. rewrite value_of_halves in *.
    exists id. split; [done|]. split; [done|]. intros id' Hid' Hperm'.
    destruct (permute_in_space s id' Hid') as (h' & Hp'' & Hok' & Hs' & Hperm'' & _).
    rewrite Hperm'' in Hperm'. injection Hperm' as Heq.
    rewrite <- (value_of_halves v) in Heq. apply value_of_inj in Heq; [subst h'|done..].
    by apply (permuteHalves_inj s id' id (halves_of v)).
  - intros id Hout. unfold permute. destruct (out_of_space id) eqn:Ho; [done|].
    by apply out_of_space_false in Ho.
Qed.

(** ** The constructor *)

Lemma readUInt32BE_ok material offset :
  Forall (fun b => 0 <= b < 256) material -> (offset + 3 < List.length material)%nat ->
  exists word, readUInt32BE material offset = Return word /\ 0 <= word < 2 ^ 32.
Proof.
  intros Hall Hlen. unfold readUInt32BE.
  destruct (lookup_lt_is_Some_2 material offset) as [a Ha]; [lia|].
  destruct (lookup_lt_is_Some_2 material (S offset)) as [b Hb]; [lia|].
  destruct (lookup_lt_is_Some_2 material (S (S offset))) as [c Hc]; [lia|].
  destruct (lookup_lt_is_Some_2 material (S (S (S offset)))) as [d Hd]; [lia|].
  rewrite Ha, Hb, Hc, Hd. eexists. split; [done|].
  rewrite Forall_lookup in Hall.
  pose proof (Hall _ _ Ha). pose proof (Hall _ _ Hb).
  pose proof (Hall _ _ Hc). pose proof (Hall _ _ Hd). simpl in *. lia.
Qed.

Lemma readRoundKeys_ok material from count :
  Forall (fun b => 0 <= b < 256) material ->
  ((from + count) * 4 <= List.length material)%nat ->
  exists keys, readRoundKeys material from count = Return keys
    /\ List.length keys = count /\ Forall (fun k => 0 <= k < 2 ^ 32) keys.
Proof.
  intros Hall. revert from; induction count as [|count IH]; intros from Hlen.
  - exists []. repeat split. constructor.
  - destruct (readUInt32BE_ok material (from * 4) Hall) as (word & Hw & Hword); [lia|].
    destruct (IH (S from)) as (keys & Hk & Hlk & Hkeys); [lia|].
    exists (word :: keys). simpl readRoundKeys. rewrite Hw. simpl. rewrite Hk. simpl.
    split; [done|]. split; [by rewrite Hlk|by constructor].
Qed.

(** HMAC-SHA256 digests have 32 bytes. *)
Definition digest_ok (hmac_sha256 : string -> string -> list Z) : Prop :=
  forall secret message, List.length (hmac_sha256 secret message) = 32%nat
    /\ Forall (fun b => 0 <= b < 256) (hmac_sha256 secret message).

(** The constructor throws on the empty secret only; otherwise it derives
    exactly two 32-bit keys for each of the 8 rounds. *)
Theorem new_correct hmac_sha256 secret :
  digest_ok hmac_sha256 ->
  (secret = "" -> new hmac_sha256 secret = Throw "scramble secret must not be empty")
  /\ (secret <> "" ->
      exists s, new hmac_sha256 secret = Return s
        /\ List.length (roundKeys s) = (FEISTEL_ROUNDS * 2)%nat
        /\ Forall (fun k => 0 <= k < 2 ^ 32) (roundKeys s)).
Proof.
  intros Hd. split; [by intros ->|]. intros Hne.
  destruct (Hd secret "wraplink-feistel-keys-0") as [Hl0 Hb0].
  destruct (Hd secret "wraplink-feistel-keys-1") as [Hl1 Hb1].
  destruct (readRoundKeys_ok (hmac_sha256 secret "wraplink-feistel-keys-0"
    ++ hmac_sha256 secret "wraplink-feistel-keys-1") 0 (FEISTEL_ROUNDS * 2))
    as (keys & Hk & Hlk & Hkeys).
  { by apply Forall_app. }
  { rewrite length_app, Hl0, Hl1. simpl. lia. }
  exists {| roundKeys := keys |}. unfold new.
  destruct secret as [|c rest]; [done|]. simpl (String.length _ =? 0)%nat. cbv iota.
  rewrite Hk. done.
Qed.

(** ** Witnesses *)

Definition toy_hmac (secret message : string) : list Z :=
  replicate 32 (Z.of_nat (String.length message) mod 256).

Lemma new_correct_witness :
  digest_ok toy_hmac
  /\ exists s, new toy_hmac "k" = Return s
        /\ List.length (roundKeys s) = (FEISTEL_ROUNDS * 2)%nat
        /\ Forall (fun k => 0 <= k < 2 ^ 32) (roundKeys s).
Proof.
  assert (H : digest_ok toy_hmac).
  { intros s m. split; [apply length_replicate|].
    apply Forall_replicate, Z.mod_pos_bound. reflexivity. }
  split; [exact H|]. apply (new_correct toy_hmac "k" H). discriminate.
Defined.

Definition zero_keys : t := {| roundKeys := replicate 16 0 |}.

Lemma encode_matches_reference_witness :
  in_space 12345 /\ exists value code,
    permute zero_keys 12345 = Some (Return value) /\ in_space value
    /\ encodeBase62Fixed value ALLOCATED_CODE_LENGTH = Return code
    /\ encode zero_keys 12345 = Some (Return code).
Proof.
  assert (H : in_space 12345) by (split; vm_compute; [discriminate|reflexivity]).
  split; [exact H|]. exact (encode_matches_reference zero_keys 12345 H).
Defined.

Lemma encode_unique_codes_witness :
  exists code1 code2,
    encode zero_keys 0 = Some (Return code1) /\ encode zero_keys 1 = Some (Return code2)
    /\ code1 <> code2
    /\ String.length code1 = ALLOCATED_CODE_LENGTH /\ string_forallb is_alnum code1 = true.
Proof.
  apply (encode_unique_codes zero_keys 0 1);
    [split; vm_compute; [discriminate|reflexivity]
    |split; vm_compute; [discriminate|reflexivity]|discriminate].
Defined.

End CodeScrambler.
