(* ===== verification/BlockAllocator.v ===== *)
(** * Block allocation of short codes

    Models [BlockCodeAllocator] of src/src/domain/code-allocator.ts: the
    asynchronous [nextCode] as steps between its awaits, several processes
    that each own an allocator, and the PostgreSQL sequence they share
    (src/src/store/postgres-id-block-source.ts), which is a parameter. *)
From S2P Require Import Prelude JsNum CodeAllocator.
Import Base62.
Open Scope Z_scope.

Record IdBlock : Type := { start : Z; size : Z }.

(** Progress of the promise stored in [this.reservation]: the block query is
    in flight, or [reserve()] has settled and its [finally] has not run yet. *)
Inductive phase : Type :=
  | InFlight
  | Settled (outcome : result unit).

(** One process: the fields of its [BlockCodeAllocator], the callers of
    [nextCode] suspended on [await this.reservation], and those whose await
    has settled but who have not resumed yet, in order. *)
Record proc : Type := {
  next : Z;
  end_ : Z;
  reservation : option phase;
  waiting : list nat;
  woken : list (nat * result unit)
}.

Definition new_proc : proc :=
  {| next := 0; end_ := 0; reservation := None; waiting := []; woken := [] |}.

Definition remainingInBlock (p : proc) : Z := end_ p - next p.

(** What a step makes visible: a caller gets an id (which it returns encoded)
    or its promise is rejected. *)
Inductive output : Type :=
  | Issued (caller : nat) (id : Z)
  | Rejected (caller : nat) (message : string).

(** The code of [reserve()] after [await this.source.reserveBlock()]. *)
Definition reserve (block : IdBlock) (p : proc) : proc * result unit :=
  if (start block <? 0) || negb (isSafeInteger (size block)) || (size block <? 1)
  then (p, Throw "invalid ID block")
  else
    let end' := start block + size block in
    if ALLOCATED_CODE_SPACE <? end' then (p, Throw "short code space exhausted")
    else ({| next := start block; end_ := end'; reservation := reservation p;
             waiting := waiting p; woken := woken p |}, Return tt).

(** [nextCode] from the test of its [while] to the next await or return. *)
Definition nextCode (caller : nat) (p : proc) : proc * option output :=
  if end_ p <=? next p then
    ({| next := next p; end_ := end_ p;
        reservation := match reservation p with None => Some InFlight | r => r end;
        waiting := waiting p ++ [caller]; woken := woken p |}, None)
  else
    ({| next := next p + 1; end_ := end_ p; reservation := reservation p;
        waiting := waiting p; woken := woken p |}, Some (Issued caller (next p))).

Inductive event : Type :=
  | Call (caller : nat)
  | BlockArrives (block : IdBlock)
  | BlockFails (message : string)
  | RunFinally
  | Resume.

(** One run-to-await step of the process; [None] when the event cannot
    happen in this state. *)
Definition step (ev : event) (p : proc) : option (proc * option output) :=
  match ev with
  | Call caller => Some (nextCode caller p)
  | BlockArrives block =>
      match reservation p with
      | Some InFlight =>
          let '(p', outcome) := reserve block p in
          Some ({| next := next p'; end_ := end_ p';
                   reservation := Some (Settled outcome);
                   waiting := waiting p'; woken := woken p' |}, None)
      | _ => None
      end
  | BlockFails message =>
      match reservation p with
      | Some InFlight =>
          Some ({| next := next p; end_ := end_ p;
                   reservation := Some (Settled (Throw message));
                   waiting := waiting p; woken := woken p |}, None)
      | _ => None
      end
  | RunFinally =>
      match reservation p with
      | Some (Settled outcome) =>
          Some ({| next := next p; end_ := end_ p; reservation := None; waiting := [];
                   woken := woken p ++ map (fun c => (c, outcome)) (waiting p) |}, None)
      | _ => None
      end
  | Resume =>
      match woken p with
      | [] => None
      | (caller, outcome) :: rest =>
          let p' := {| next := next p; end_ := end_ p; reservation := reservation p;
                       waiting := waiting p; woken := rest |} in
          match outcome with
          | Throw message => Some (p', Some (Rejected caller message))
          | Return _ => Some (nextCode caller p')
          end
      end
  end.

(** ** All processes and the shared sequence *)

(** [used]: the sequence values already returned; [granted] and [issued]: which
    process was given which block and which id, most recent first. *)
Record sys : Type := {
  procs : list proc;
  used : list nat;
  granted : list (nat * IdBlock);
  issued : list (nat * Z)
}.

Definition init (n : nat) : sys :=
  {| procs := replicate n new_proc; used := []; granted := []; issued := [] |}.

Definition issue_of (i : nat) (o : option output) : list (nat * Z) :=
  match o with Some (Issued _ id) => [(i, id)] | _ => [] end.

(** Did [reserve] accept the block? *)
Definition grant_of (i : nat) (block : IdBlock) (p : proc) : list (nat * IdBlock) :=
  match reserve block p with (_, Return _) => [(i, block)] | (_, Throw _) => [] end.

Section System.
Context (sequence : nat -> IdBlock).

(** A step of the system: one process steps; a block it receives is one the
    sequence has not returned before; a value the sequence returned may also be
    lost; a new process may start (a process that crashed is one that takes no
    more steps). *)
Inductive sys_step : sys -> sys -> Prop :=
  | step_local s i p ev p' o :
      procs s !! i = Some p ->
      (forall block, ev <> BlockArrives block) ->
      step ev p = Some (p', o) ->
      sys_step s {| procs := <[i:=p']> (procs s); used := used s; granted := granted s;
                    issued := issue_of i o ++ issued s |}
  | step_block s i p k p' o :
      procs s !! i = Some p ->
      k ∉ used s ->
      step (BlockArrives (sequence k)) p = Some (p', o) ->
      sys_step s {| procs := <[i:=p']> (procs s); used := k :: used s;
                    granted := grant_of i (sequence k) p ++ granted s; issued := issued s |}
  | step_lost s k :
      k ∉ used s ->
      sys_step s {| procs := procs s; used := k :: used s; granted := granted s;
                    issued := issued s |}
  | step_spawn s :
      sys_step s {| procs := procs s ++ [new_proc]; used := used s; granted := granted s;
                    issued := issued s |}.

Inductive reachable (n : nat) : sys -> Prop :=
  | reach_init : reachable n (init n)
  | reach_step s s' : reachable n s -> sys_step s s' -> reachable n s'.

Definition in_block (id : Z) (b : IdBlock) : Prop := start b <= id < start b + size b.
Definition avail (p : proc) (id : Z) : Prop := next p <= id < end_ p.

(** ** What one process step does *)

Lemma nextCode_spec c p :
  match nextCode c p with
  | (p', Some (Issued c' id)) =>
      c' = c /\ id = next p /\ avail p id /\ next p' = next p + 1 /\ end_ p' = end_ p
      /\ reservation p' = reservation p /\ waiting p' = waiting p /\ woken p' = woken p
  | (p', None) =>
      next p' = next p /\ end_ p' = end_ p /\ end_ p <= next p
      /\ reservation p' <> None /\ waiting p' = waiting p ++ [c] /\ woken p' = woken p
      /\ (reservation p <> None -> reservation p' = reservation p)
  | (_, Some (Rejected _ _)) => False
  end.
Proof.
  unfold nextCode, avail. destruct (Z.leb_spec (end_ p) (next p)); simpl.
  - repeat split; try done; destruct (reservation p); congruence.
  - repeat split; lia.
Qed.

Lemma reserve_spec b p p' r :
  reserve b p = (p', r) ->
  (p' = p /\ exists e, r = Throw e)
  \/ (r = Return tt /\ next p' = start b /\ end_ p' = start b + size b
      /\ 0 <= start b /\ 1 <= size b /\ end_ p' <= ALLOCATED_CODE_SPACE
      /\ reservation p' = reservation p /\ waiting p' = waiting p /\ woken p' = woken p).
Proof.
  unfold reserve. destruct (_ || _) eqn:Hv; [intros [= <- <-]; left; eauto|].
  cbv zeta. destruct (Z.ltb_spec ALLOCATED_CODE_SPACE (start b + size b)) as [Hs|Hs];
    intros [= <- <-]; [left; eauto|].
  bool_to_prop. right. simpl. repeat split; lia.
Qed.

(** A step that is not the arrival of a block only ever takes the next id. *)
Definition takes (p p' : proc) (o : option output) : Prop :=
  end_ p' = end_ p /\
  match o with
  | Some (Issued _ id) => id = next p /\ avail p id /\ next p' = next p + 1
  | _ => next p' = next p
  end.

Lemma step_takes ev p p' o :
  (forall b, ev <> BlockArrives b) -> step ev p = Some (p', o) -> takes p p' o.
Proof.
  intros Hev. unfold takes. destruct ev as [c|b|e| |]; simpl.
  - intros [= Hn]. pose proof (nextCode_spec c p) as Hs. rewrite Hn in Hs.
    destruct o as [[]|]; naive_solver.
  - by specialize (Hev b).
  - repeat case_match; naive_solver.
  - repeat case_match; naive_solver.
  - destruct (woken p) as [|[c [|e]] rest]; [done| |naive_solver].
    intros [= Hn].
    match type of Hn with nextCode _ ?q = _ => pose proof (nextCode_spec c q) as Hs end.
    rewrite Hn in Hs. unfold avail in *. simpl in Hs. destruct o as [[]|]; naive_solver.
Qed.

Lemma step_block_spec b p p' o :
  step (BlockArrives b) p = Some (p', o) ->
  o = None /\ reservation p = Some InFlight /\
  ((next p' = next p /\ end_ p' = end_ p /\ forall i, grant_of i b p = [])
   \/ (next p' = start b /\ end_ p' = start b + size b /\ 0 <= start b /\ 1 <= size b
       /\ end_ p' <= ALLOCATED_CODE_SPACE /\ forall i, grant_of i b p = [(i, b)])).
Proof.
  simpl. unfold grant_of. destruct (reservation p) as [[|]|]; try done.
  destruct (reserve b p) as [q r] eqn:Hr. intros [= <- <-]. split; [done|]. split; [done|].
  apply reserve_spec in Hr as [[-> [e ->]]|(-> & ? & ? & ? & ? & ? & _)]; simpl; [by left|].
  right. by repeat split.
Qed.

(** ** Uniqueness *)

Hypothesis sequence_disjoint : forall j k id,
  in_block id (sequence j) -> in_block id (sequence k) -> j = k.

Definition owned (s : sys) (id : Z) : Prop :=
  0 <= id < ALLOCATED_CODE_SPACE /\ exists k, k ∈ used s /\ in_block id (sequence k).

Record unique_inv (s : sys) : Prop := {
  u_bounds : forall i p, procs s !! i = Some p -> 0 <= next p <= end_ p;
  u_nodup : NoDup (issued s).*2;
  u_fresh : forall i p id, procs s !! i = Some p -> avail p id -> id ∉ (issued s).*2;
  u_disjoint : forall i j p q id, procs s !! i = Some p -> procs s !! j = Some q ->
    avail p id -> avail q id -> i = j;
  u_issued : forall id, id ∈ (issued s).*2 -> owned s id;
  u_avail : forall i p id, procs s !! i = Some p -> avail p id -> owned s id
}.

(** Looking a process up after one was replaced. *)
Lemma lookup_procs_insert (ps : list proc) i j (p q : proc) :
  <[i:=p]> ps !! j = Some q -> (j = i /\ q = p) \/ (j <> i /\ ps !! j = Some q).
Proof. intros H. apply list_lookup_insert_Some in H. naive_solver. Qed.

Lemma unique_init n : unique_inv (init n).
Proof.
  assert (Hp : forall i p, procs (init n) !! i = Some p -> p = new_proc).
  { intros i p H. by apply lookup_replicate in H as [-> _]. }
  split; simpl.
  - intros i p ->%Hp. simpl. lia.
  - constructor.
  - intros i p id _ _. apply not_elem_of_nil.
  - intros i j p q id ->%Hp _. unfold avail; simpl. lia.
  - intros id []%not_elem_of_nil.
  - intros i p id ->%Hp. unfold avail; simpl. lia.
Qed.

Lemma takes_avail p p' o id : takes p p' o -> avail p' id -> avail p id.
Proof. unfold takes, avail. destruct o as [[]|]; lia. Qed.

Lemma takes_issued i p p' o id :
  takes p p' o -> id ∈ (issue_of i o).*2 -> avail p id /\ ~ avail p' id.
Proof.
  unfold takes, avail, issue_of. intros [He Ho].
  destruct o as [[c x|]|]; simpl; rewrite ?list_elem_of_singleton;
    try (by intros []%not_elem_of_nil). intros ->. lia.
Qed.

Lemma issue_nodup i o : NoDup (issue_of i o).*2.
Proof. destruct o as [[]|]; simpl; repeat constructor; apply not_elem_of_nil. Qed.

Lemma unique_local s i p p' o :
  unique_inv s -> procs s !! i = Some p -> takes p p' o ->
  unique_inv {| procs := <[i:=p']> (procs s); used := used s; granted := granted s;
                issued := issue_of i o ++ issued s |}.
Proof.
  intros [Hb Hn Hf Hd Hi Ha] Hp Ht. split; simpl.
  - intros j q [[-> ->]|[_ Hq]]%lookup_procs_insert; [|by eapply Hb].
    specialize (Hb _ _ Hp). destruct Ht as [He Ho]. unfold avail in Ho.
    destruct o as [[]|]; lia.
  - rewrite fmap_app. apply list.NoDup_app. split; [apply issue_nodup|]. split; [|done].
    intros id [Hav _]%(takes_issued i p p' o id Ht). by eapply Hf.
  - intros j q id [[-> ->]|[Hne Hq]]%lookup_procs_insert Hav; rewrite fmap_app, elem_of_app.
    + intros [H|H]; [by apply (takes_issued i p p' o id Ht) in H as [_ []]|].
      eapply Hf; [exact Hp|by eapply takes_avail|done].
    + intros [H|H]; [|by eapply Hf].
      apply (takes_issued i p p' o id Ht) in H as [H _]. by apply Hne, (Hd j i q p id).
  - intros j k q r id [[-> ->]|[? Hq]]%lookup_procs_insert
      [[-> ->]|[? Hr]]%lookup_procs_insert H1 H2; [done| | |].
    + eapply (Hd i k p r id); [done..|by eapply takes_avail|done].
    + eapply (Hd j i q p id); [done..|by eapply takes_avail].
    + by apply (Hd j k q r id).
  - intros id. rewrite fmap_app, elem_of_app. intros [H|H]; [|by apply Hi].
    apply (takes_issued i p p' o id Ht) in H as [H _]. by apply (Ha i p).
  - intros j q id [[-> ->]|[_ Hq]]%lookup_procs_insert H.
    + eapply (Ha i p); [done|by eapply takes_avail].
    + by eapply Ha.
Qed.

Lemma owned_more s k id :
  owned s id -> owned {| procs := procs s; used := k :: used s; granted := granted s;
                         issued := issued s |} id.
Proof. intros [? (j & ? & ?)]. split; [done|]. exists j. simpl. set_solver. Qed.

Lemma owned_not_in_new s k id :
  k ∉ used s -> owned s id -> ~ in_block id (sequence k).
Proof. intros Hk [_ (j & Hj & Hin)] Hin'. by rewrite (sequence_disjoint k j id) in Hk. Qed.

(** Widening [used] and replacing process [i] by one whose ids are the old
    ones or those of the new block. *)
Lemma unique_block s i k p p' gs :
  unique_inv s -> procs s !! i = Some p -> k ∉ used s ->
  0 <= next p' <= end_ p' ->
  (forall id, avail p' id -> avail p id
     \/ (in_block id (sequence k) /\ 0 <= id < ALLOCATED_CODE_SPACE)) ->
  unique_inv {| procs := <[i:=p']> (procs s); used := k :: used s; granted := gs;
                issued := issued s |}.
Proof.
  intros [Hb Hn Hf Hd Hi Ha] Hp Hk Hp' Hav.
  assert (Hnew : forall id, in_block id (sequence k) -> ~ owned s id).
  { intros id Hin Ho. by apply (owned_not_in_new s k id). }
  split; simpl.
  - intros j q [[-> ->]|[_ Hq]]%lookup_procs_insert; [done|by eapply Hb].
  - done.
  - intros j q id [[-> ->]|[_ Hq]]%lookup_procs_insert H; [|by eapply Hf].
    destruct (Hav _ H) as [Hold|[Hin _]]; [by eapply Hf|].
    intros Hiss. by apply (Hnew id Hin), Hi.
  - intros j l q r id [[-> ->]|[? Hq]]%lookup_procs_insert
      [[-> ->]|[? Hr]]%lookup_procs_insert H1 H2; [done| | |by apply (Hd j l q r id)].
    + destruct (Hav _ H1) as [Hold|[Hin _]]; [by apply (Hd i l p r id)|].
      by destruct (Hnew id Hin), (Ha l r id).
    + destruct (Hav _ H2) as [Hold|[Hin _]]; [by apply (Hd j i q p id)|].
      by destruct (Hnew id Hin), (Ha j q id).
  - intros id H. by apply (owned_more s k id), Hi.
  - intros j q id [[-> ->]|[_ Hq]]%lookup_procs_insert H;
      [|by apply (owned_more s k id), (Ha j q)].
    destruct (Hav _ H) as [Hold|[Hin Hsp]]; [by apply (owned_more s k id), (Ha i p)|].
    split; [done|]. exists k. split; [left|done].
Qed.

Lemma unique_step s s' : unique_inv s -> sys_step s s' -> unique_inv s'.
Proof.
  intros Hinv Hstep. destruct Hstep as [s i p ev p' o Hp Hev Hs|s i p k p' o Hp Hk Hs|s k Hk|s].
  - eapply unique_local; [done..|by eapply step_takes].
  - pose proof (u_bounds _ Hinv _ _ Hp) as Hb.
    apply step_block_spec in Hs as (-> & _ & [(Hn & He & _)|(Hn & He & H0 & H1 & Hs & _)]).
    + apply (unique_block s i k p); [done..|lia|]. unfold avail. rewrite Hn, He. by left.
    + apply (unique_block s i k p); [done..|lia|]. unfold avail, in_block. right. lia.
  - destruct Hinv as [Hb Hn Hf Hd Hi Ha]. split; simpl; try done.
    + intros id H. by apply (owned_more s k id), Hi.
    + intros i p id Hp H. by apply (owned_more s k id), (Ha i p).
  - assert (Hl : forall j q, (procs s ++ [new_proc]) !! j = Some q ->
      procs s !! j = Some q \/ q = new_proc).
    { intros j q [H|[_ H]]%lookup_app_Some; [by left|right].
      by apply list_lookup_singleton_Some in H as [_ <-]. }
    assert (Hnone : forall id, ~ avail new_proc id) by (intros id; unfold avail; simpl; lia).
    destruct Hinv as [Hb Hn Hf Hd Hi Ha]. split; simpl; try done.
    + intros j q [H| ->]%Hl; [by eapply Hb|simpl; lia].
    + intros j q id [H| ->]%Hl Hav; [by eapply Hf|by apply Hnone in Hav].
    + intros i j p q id [Hp| ->]%Hl [Hq| ->]%Hl H1 H2;
        [by eapply Hd|by apply Hnone in H2|by apply Hnone in H1..].
    + intros j q id [H| ->]%Hl Hav; [by eapply Ha|by apply Hnone in Hav].
Qed.

Lemma reachable_unique n s : reachable n s -> unique_inv s.
Proof. induction 1; [apply unique_init|by eapply unique_step]. Qed.

(** ** Bookkeeping: reservations, waiters and counts *)

Definition granted_total (i : nat) (s : sys) : Z :=
  foldr (fun g acc => if decide (fst g = i) then size (snd g) + acc else acc) 0 (granted s).

Definition issued_count (i : nat) (s : sys) : Z :=
  Z.of_nat (length (filter (fun e => fst e = i) (issued s))).

Record proc_inv (p : proc) : Prop := {
  p_inflight : reservation p = Some InFlight -> end_ p <= next p;
  p_waiting : waiting p <> [] -> reservation p <> None
}.

Lemma nextCode_proc_inv c p p' o :
  proc_inv p -> nextCode c p = (p', o) -> proc_inv p'.
Proof.
  intros [Hi Hw] Hn. pose proof (nextCode_spec c p) as Hs. rewrite Hn in Hs.
  destruct o as [[]|]; [|done|].
  - destruct Hs as (_ & _ & Hav & Hx & He & Hr & Hwt & _). unfold avail in Hav.
    split; rewrite ?Hr, ?Hwt; [|done]. intros H%Hi. lia.
  - destruct Hs as (Hx & He & Hle & Hr & _). split; [lia|done].
Qed.

Lemma step_proc_inv ev p p' o : proc_inv p -> step ev p = Some (p', o) -> proc_inv p'.
Proof.
  intros Hp. destruct ev as [c|b|e| |].
  - simpl. intros [= Hn]. by eapply nextCode_proc_inv.
  - simpl. destruct (reservation p) as [[|]|]; try done.
    destruct (reserve b p) as [q r]. intros [= <- <-]. by split.
  - simpl. destruct (reservation p) as [[|]|]; try done. intros [= <- <-]. by split.
  - simpl. destruct (reservation p) as [[|]|]; try done. intros [= <- <-]. by split.
  - simpl. destruct (woken p) as [|[c [|e]] rest]; [done| |].
    + intros [= Hn]. eapply nextCode_proc_inv; [|exact Hn]. destruct Hp. by split.
    + intros [= <- <-]. destruct Hp. by split.
Qed.

Record count_inv (s : sys) : Prop := {
  c_proc : forall i p, procs s !! i = Some p -> proc_inv p;
  c_count : forall i p, procs s !! i = Some p ->
    granted_total i s = issued_count i s + remainingInBlock p;
  c_absent : forall i, procs s !! i = None -> granted_total i s = 0 /\ issued_count i s = 0
}.

Lemma issued_count_add i j o s gs us ps :
  issued_count j {| procs := ps; used := us; granted := gs; issued := issue_of i o ++ issued s |}
  = issued_count j s
    + (if decide (i = j) then match o with Some (Issued _ _) => 1 | _ => 0 end else 0).
Proof.
  unfold issued_count, issue_of. simpl.
  destruct o as [[c id|]|]; simpl; [|case_decide; lia..].
  rewrite filter_cons. simpl. case_decide; simpl; lia.
Qed.

Lemma granted_total_add j gs s ps us iss :
  granted_total j {| procs := ps; used := us; granted := gs ++ granted s; issued := iss |}
  = granted_total j s + foldr (fun g acc =>
      if decide (fst g = j) then size (snd g) + acc else acc) 0 gs.
Proof.
  unfold granted_total. simpl. induction gs as [|g gs IH]; simpl; [lia|].
  case_decide; lia.
Qed.

Lemma grant_of_other i j b p :
  i <> j -> foldr (fun g acc => if decide (fst g = j) then size (snd g) + acc else acc) 0
    (grant_of i b p) = 0.
Proof.
  intros Hne. unfold grant_of. destruct (reserve b p) as [? [|]]; simpl; [|done].
  by rewrite decide_False.
Qed.

Lemma count_init n : count_inv (init n).
Proof.
  split; simpl.
  - intros i p [-> _]%lookup_replicate. by split.
  - intros i p [-> _]%lookup_replicate. done.
  - done.
Qed.

Lemma count_local s i p ev p' o :
  count_inv s -> procs s !! i = Some p -> (forall b, ev <> BlockArrives b) ->
  step ev p = Some (p', o) ->
  count_inv {| procs := <[i:=p']> (procs s); used := used s; granted := granted s;
               issued := issue_of i o ++ issued s |}.
Proof.
  intros [Hp Hc Ha] Hi Hev Hs. pose proof (step_takes ev p p' o Hev Hs) as [He Ho]. split.
  - intros j q [[-> ->]|[_ Hq]]%lookup_procs_insert; [|by eapply Hp].
    eapply step_proc_inv; [by eapply Hp|exact Hs].
  - intros j q Hq. simpl in Hq. rewrite issued_count_add.
    change (granted_total j _) with (granted_total j s).
    apply lookup_procs_insert in Hq as [[-> ->]|[Hne Hq]].
    + rewrite (Hc _ _ Hi), decide_True by done. unfold remainingInBlock, avail in *.
      destruct o as [[]|]; lia.
    + rewrite (Hc _ _ Hq), decide_False by done. lia.
  - intros j Hj. simpl in Hj. rewrite issued_count_add.
    change (granted_total j _) with (granted_total j s).
    rewrite list_lookup_insert_None in Hj. rewrite decide_False by naive_solver.
    destruct (Ha j Hj). lia.
Qed.

Lemma count_block s i k p p' o :
  unique_inv s -> count_inv s -> procs s !! i = Some p ->
  step (BlockArrives (sequence k)) p = Some (p', o) ->
  count_inv {| procs := <[i:=p']> (procs s); used := k :: used s;
               granted := grant_of i (sequence k) p ++ granted s; issued := issued s |}.
Proof.
  intros Hu [Hp Hc Ha] Hi Hs.
  pose proof (p_inflight _ (Hp _ _ Hi)) as Hin. pose proof (u_bounds _ Hu _ _ Hi) as Hb.
  pose proof (step_proc_inv _ _ _ _ (Hp _ _ Hi) Hs) as Hp'.
  apply step_block_spec in Hs as (_ & Hres & Hcase). specialize (Hin Hres).
  split.
  - intros j q [[-> ->]|[_ Hq]]%lookup_procs_insert; [done|by eapply Hp].
  - intros j q Hq. simpl in Hq. rewrite granted_total_add.
    change (issued_count j _) with (issued_count j s).
    apply lookup_procs_insert in Hq as [[-> ->]|[Hne Hq]].
    + rewrite (Hc _ _ Hi). unfold remainingInBlock.
      destruct Hcase as [(Hn & He & Hg)|(Hn & He & _ & _ & _ & Hg)]; rewrite Hg; simpl;
        rewrite ?decide_True by done; lia.
    + rewrite (Hc _ _ Hq), grant_of_other by done. lia.
  - intros j Hj. simpl in Hj. rewrite granted_total_add.
    change (issued_count j _) with (issued_count j s).
    rewrite list_lookup_insert_None in Hj.
    rewrite grant_of_other by naive_solver. destruct (Ha j Hj). lia.
Qed.

Lemma count_step s s' : unique_inv s -> count_inv s -> sys_step s s' -> count_inv s'.
Proof.
  intros Hu Hinv Hstep. destruct Hstep as [s i p ev p' o Hp Hev Hs|s i p k p' o Hp Hk Hs|s k Hk|s].
  - by eapply count_local.
  - by eapply count_block.
  - destruct Hinv as [H1 H2 H3]. by split.
  - destruct Hinv as [H1 H2 H3]. split; simpl.
    + intros i p [Hi|[_ Hi]]%lookup_app_Some; [by eapply H1|].
      apply list_lookup_singleton_Some in Hi as [_ <-]. by split.
    + intros i p [Hi|[Hi Hi']]%lookup_app_Some; [by apply H2|].
      apply list_lookup_singleton_Some in Hi' as [_ <-].
      apply lookup_ge_None in Hi. destruct (H3 i Hi) as [Hg Hc].
      change (granted_total i s = issued_count i s + 0). lia.
    + intros i Hi. apply H3. apply lookup_ge_None in Hi. apply lookup_ge_None.
      rewrite length_app in Hi. lia.
Qed.

Lemma reachable_count n s : reachable n s -> count_inv s.
Proof.
  intros Hr. assert (unique_inv s /\ count_inv s) as [_ ?]; [|done].
  induction Hr as [|s s' Hr [IHu IHc] Hs]; [split; [apply unique_init|apply count_init]|].
  split; [by eapply unique_step|by eapply count_step].
Qed.

(** C5. No code is ever issued twice: over all processes, restarts, lost and
    failed reservations and interleavings of callers, the issued ids are
    pairwise distinct and inside the code space, and so are the codes the
    callers receive. *)
Theorem issued_codes_unique n s scrambler :
  reachable n s ->
  exists codes, Forall2 (fun e code => CodeScrambler.encode scrambler (snd e) = Some (Return code))
                  (issued s) codes
    /\ NoDup codes.
Proof.
  intros Hr%reachable_unique.
  pose proof (u_nodup _ Hr) as Hn.
  assert (Hsp : forall id, id ∈ (issued s).*2 -> CodeScrambler.in_space id).
  { intros id Hid. apply (u_issued _ Hr _ Hid). }
  revert Hn Hsp. clear Hr. induction (issued s) as [|[i id] l IH]; simpl; intros Hn Hsp.
  - exists []. split; constructor.
  - apply NoDup_cons in Hn as [Hnotin Hn].
    destruct IH as (codes & Hc & Hnd); [done|intros; apply Hsp; by right|].
    destruct (CodeScrambler.permute_in_space scrambler id) as (h & _ & _ & _ & _ & He);
      [apply Hsp; left|].
    eexists (_ :: codes). split; [constructor; [exact He|done]|].
    apply NoDup_cons. split; [|done]. intros Hin.
    apply list_elem_of_lookup in Hin as [j Hj].
    destruct (Forall2_lookup_r _ _ _ _ _ Hc Hj) as ([i' id'] & Hl & He').
    simpl in He'. apply Hnotin.
    assert (id' ∈ l.*2) as Hid' by (apply list_elem_of_fmap; exists (i', id'); split;
      [done|by eapply list_elem_of_lookup_2]).
    rewrite (CodeScrambler.encode_inj scrambler id id' _ (Hsp id ltac:(left))
      (Hsp id' ltac:(right; exact Hid')) He He').
    exact Hid'.
Qed.

(** A process asks for a block only when its block is used up, never skips
    an id, and never strands a caller: the ids granted to it are exactly those
    it issued plus those remaining, a reservation in flight means nothing
    remains, and a suspended caller always has a reservation to wait for. *)
Theorem reservations_on_demand n s i p :
  reachable n s -> procs s !! i = Some p ->
  granted_total i s = issued_count i s + remainingInBlock p
  /\ 0 <= remainingInBlock p
  /\ (reservation p = Some InFlight -> remainingInBlock p = 0)
  /\ (waiting p <> [] -> reservation p <> None).
Proof.
  intros Hr Hp. pose proof (reachable_unique _ _ Hr) as Hu.
  pose proof (reachable_count _ _ Hr) as Hc.
  pose proof (u_bounds _ Hu _ _ Hp). pose proof (c_proc _ Hc _ _ Hp) as [Hin Hw].
  unfold remainingInBlock. split; [by apply (c_count _ Hc)|]. split; [lia|]. split; [|done].
  intros H'%Hin. lia.
Qed.
End System.

(** ** The sequence of migration 002 and a concrete run *)

Definition link_code_block_seq (k : nat) : IdBlock :=
  {| start := 10000 * Z.of_nat k; size := 10000 |}.

Lemma link_code_block_seq_disjoint j k id :
  in_block id (link_code_block_seq j) -> in_block id (link_code_block_seq k) -> j = k.
Proof. unfold in_block, link_code_block_seq; simpl. lia. Qed.

(** Two callers of one process share a reservation and then get two ids. *)
Definition run_events (evs : list event) (p : proc) : option (proc * list output) :=
  foldl (fun acc ev => match acc with
    | Some (q, outs) => match step ev q with
        | Some (q', o) => Some (q', outs ++ option_list o)
        | None => None
        end
    | None => None
    end) (Some (p, [])) evs.

Example two_callers_one_reservation :
  option_map snd (run_events [Call 0; Call 1; BlockArrives (link_code_block_seq 0); RunFinally;
      Resume; Resume] new_proc) = Some [Issued 0 0; Issued 1 1].
Proof. vm_compute. reflexivity. Qed.

(** Running a schedule of system steps: process [i] takes event [ev], or
    receives block [k] of the sequence. *)
Inductive action : Type :=
  | Local (i : nat) (ev : event)
  | Block (i k : nat).

Definition is_block (ev : event) : bool :=
  match ev with BlockArrives _ => true | _ => false end.

Definition exec1 (sequence : nat -> IdBlock) (s : sys) (a : action) : option sys :=
  match a with
  | Local i ev =>
      match procs s !! i with
      | Some p =>
          match (if is_block ev then None else step ev p) with
          | Some (p', o) =>
              Some {| procs := <[i:=p']> (procs s); used := used s; granted := granted s;
                      issued := issue_of i o ++ issued s |}
          | None => None
          end
      | None => None
      end
  | Block i k =>
      match procs s !! i with
      | Some p =>
          match (if bool_decide (k ∈ used s) then None
                 else step (BlockArrives (sequence k)) p) with
          | Some (p', _) =>
              Some {| procs := <[i:=p']> (procs s); used := k :: used s;
                      granted := grant_of i (sequence k) p ++ granted s; issued := issued s |}
          | None => None
          end
      | None => None
      end
  end.

Fixpoint exec (sequence : nat -> IdBlock) (s : sys) (acts : list action) : option sys :=
  match acts with
  | [] => Some s
  | a :: acts => s' ← exec1 sequence s a; exec sequence s' acts
  end.

Lemma exec1_step sequence s a s' : exec1 sequence s a = Some s' -> sys_step sequence s s'.
Proof.
  destruct a as [i ev|i k]; unfold exec1; destruct (procs s !! i) as [p|] eqn:Hp; try done.
  - destruct (is_block ev) eqn:Hev; [done|].
    destruct (step ev p) as [[p' o]|] eqn:Hs; [|done]. intros [= <-].
    apply (step_local _ s i p ev); [done| |done]. intros b ->. done.
  - case_bool_decide as Hk; [done|].
    destruct (step (BlockArrives (sequence k)) p) as [[p' o]|] eqn:Hs; [|done].
    intros [= <-]. by eapply step_block.
Qed.

Lemma exec_reachable sequence n acts s s' :
  reachable sequence n s -> exec sequence s acts = Some s' -> reachable sequence n s'.
Proof.
  revert s; induction acts as [|a acts IH]; intros s Hr; simpl; [by intros [= <-]|].
  destruct (exec1 sequence s a) as [s1|] eqn:He; simpl; [|done].
  apply IH. eapply reach_step; [exact Hr|by eapply exec1_step].
Qed.

(** Two workers: the first serves two callers from block 0, the second one
    caller from block 1. *)
Definition demo_schedule : list action :=
  [Local 0 (Call 0); Local 0 (Call 1); Local 1 (Call 2); Block 0 0; Block 1 1;
   Local 0 RunFinally; Local 1 RunFinally; Local 0 Resume; Local 1 Resume; Local 0 Resume].

Definition demo_sys : sys :=
  Eval vm_compute in default (init 0) (exec link_code_block_seq (init 2) demo_schedule).

Lemma demo_reachable : reachable link_code_block_seq 2 demo_sys.
Proof.
  apply (exec_reachable _ 2 demo_schedule (init 2)); [apply reach_init|].
  vm_compute. reflexivity.
Qed.

Lemma issued_codes_unique_witness :
  issued demo_sys = [(0%nat, 1); (1%nat, 10000); (0%nat, 0)]
  /\ exists codes,
      Forall2 (fun e code =>
          CodeScrambler.encode CodeScrambler.zero_keys (snd e) = Some (Return code))
        (issued demo_sys) codes /\ NoDup codes.
Proof.
  split; [reflexivity|].
  exact (issued_codes_unique link_code_block_seq link_code_block_seq_disjoint 2 demo_sys
    CodeScrambler.zero_keys demo_reachable).
Defined.

Lemma reservations_on_demand_witness :
  exists p, procs demo_sys !! 0%nat = Some p
    /\ granted_total 0 demo_sys = issued_count 0 demo_sys + remainingInBlock p
    /\ 0 <= remainingInBlock p
    /\ (reservation p = Some InFlight -> remainingInBlock p = 0)
    /\ (waiting p <> [] -> reservation p <> None).
Proof.
  eexists. split; [reflexivity|].
  exact (reservations_on_demand link_code_block_seq link_code_block_seq_disjoint 2 demo_sys
    0 _ demo_reachable eq_refl).
Defined.
