(* ===== verification/RandomCode.v ===== *)
(** * Random short codes

    Models [generateCode] of src/src/domain/code.ts: rejection sampling of the
    bytes of Node's [randomBytes], which is a parameter giving the successive
    chunks. *)
From S2P Require Import Prelude JsNum CodeAllocator.
Import Base62.
Open Scope Z_scope.

(** The [for] loop over one chunk. *)
Fixpoint take_bytes (length : nat) (bytes : list Z) (result : string) : string :=
  match bytes with
  | [] => result
  | byte :: bytes =>
      if 248 <=? byte then take_bytes length bytes result
      else
        let result := result +:+ alphabet_at (byte mod 62) in
        if (String.length result =? length)%nat then result
        else take_bytes length bytes result
  end.

(** The [while] loop; [fuel] bounds the number of chunks drawn and [i] counts
    those already drawn. [None]: the fuel ran out before the code was full. *)
Fixpoint generate_loop (randomBytes : nat -> list Z) (fuel i length : nat) (result : string)
  : option string :=
  if (String.length result <? length)%nat then
    match fuel with
    | O => None
    | S fuel =>
        generate_loop randomBytes fuel (S i) length (take_bytes length (randomBytes i) result)
    end
  else Some result.

Definition generateCode (randomBytes : nat -> list Z) (fuel length : nat) : option string :=
  generate_loop randomBytes fuel 0 length "".

(** ** Specification: the first [length] accepted bytes *)

Definition accepted (bytes : list Z) : list Z := filter (fun b => b < 248) bytes.

Definition code_of (bytes : list Z) : string :=
  join (map (fun b => alphabet_at (b mod 62)) bytes).

Definition chunks (randomBytes : nat -> list Z) (i k : nat) : list Z :=
  concat (map randomBytes (seq i k)).

Lemma accepted_cons b bytes :
  accepted (b :: bytes) = if 248 <=? b then accepted bytes else b :: accepted bytes.
Proof.
  unfold accepted. rewrite filter_cons.
  destruct (Z.leb_spec 248 b); [rewrite decide_False by lia|rewrite decide_True by lia]; done.
Qed.

Lemma digit_char b : exists c, alphabet_at (b mod 62) = String c "" /\ is_alnum c = true.
Proof. apply alphabet_at_char. by apply Z.mod_pos_bound. Qed.

Lemma code_of_length bytes : String.length (code_of bytes) = List.length bytes.
Proof.
  unfold code_of. induction bytes as [|b bytes IH]; [done|].
  simpl. destruct (digit_char b) as (c & -> & _). rewrite string_app_char. simpl. by rewrite IH.
Qed.

Lemma code_of_alnum bytes : string_forallb is_alnum (code_of bytes) = true.
Proof.
  unfold code_of. induction bytes as [|b bytes IH]; [done|].
  simpl. destruct (digit_char b) as (c & -> & Hc). rewrite string_app_char. simpl.
  by rewrite Hc, IH.
Qed.

Lemma code_of_app xs ys : code_of (xs ++ ys) = code_of xs +:+ code_of ys.
Proof. unfold code_of. by rewrite map_app, join_app. Qed.

(** One chunk extends a code of accepted bytes to the next ones. *)
Lemma take_bytes_spec length bytes seen :
  (List.length seen < length)%nat ->
  take_bytes length bytes (code_of seen) = code_of (take length (seen ++ accepted bytes)).
Proof.
  revert seen; induction bytes as [|b bytes IH]; intros seen Hlt.
  - simpl. rewrite app_nil_r, firstn_all2 by lia. done.
  - rewrite accepted_cons. simpl take_bytes. destruct (248 <=? b); [by apply IH|].
    assert (code_of seen +:+ alphabet_at (b mod 62) = code_of (seen ++ [b])) as ->.
    { rewrite code_of_app. unfold code_of at 3. simpl. by rewrite string_app_nil_r. }
    rewrite code_of_length, length_app. simpl.
    replace (seen ++ b :: accepted bytes) with ((seen ++ [b]) ++ accepted bytes)
      by (by rewrite <- app_assoc).
    destruct (Nat.eqb_spec (List.length seen + 1) length) as [He|Hne].
    + f_equal. symmetry. apply take_app_length'. rewrite length_app. simpl. lia.
    + apply IH. rewrite length_app. simpl. lia.
Qed.

Lemma generate_loop_full randomBytes fuel i length r :
  (length <= String.length r)%nat -> generate_loop randomBytes fuel i length r = Some r.
Proof.
  intros Hle. apply Nat.ltb_ge in Hle. destruct fuel; simpl; by rewrite Hle.
Qed.

Lemma generate_loop_spec randomBytes length k fuel i seen :
  (k <= fuel)%nat -> (List.length seen <= length)%nat ->
  (length <= List.length (seen ++ accepted (chunks randomBytes i k)))%nat ->
  generate_loop randomBytes fuel i length (code_of seen)
  = Some (code_of (take length (seen ++ accepted (chunks randomBytes i k)))).
Proof.
  revert fuel i seen; induction k as [|k IH]; intros fuel i seen Hfuel Hseen Hlen.
  - unfold chunks in *. simpl in *. rewrite app_nil_r in *.
    assert (List.length seen = length) as Heq by lia.
    rewrite firstn_all2 by lia.
    apply generate_loop_full. rewrite code_of_length. lia.
  - assert (Hch : chunks randomBytes i (S k) = randomBytes i ++ chunks randomBytes (S i) k)
      by done.
    assert (Hacc : seen ++ accepted (chunks randomBytes i (S k))
      = (seen ++ accepted (randomBytes i)) ++ accepted (chunks randomBytes (S i) k)).
    { rewrite Hch. unfold accepted. by rewrite filter_app, app_assoc. }
    rewrite Hacc in *. destruct fuel as [|fuel]; [lia|]. simpl generate_loop.
    rewrite code_of_length. destruct (Nat.ltb_spec (List.length seen) length) as [Hlt|Hge].
    + rewrite take_bytes_spec by done.
      destruct (decide (length <= List.length (seen ++ accepted (randomBytes i)))%nat) as [Hfull|].
      * rewrite (take_app_le (seen ++ accepted (randomBytes i))) by lia.
        assert (Ht : List.length (take length (seen ++ accepted (randomBytes i))) = length)
          by (rewrite length_take; lia).
        apply generate_loop_full. rewrite code_of_length. lia.
      * rewrite (firstn_all2 (seen ++ accepted (randomBytes i))) by lia.
        apply IH; lia.
    + assert (List.length seen = length) as Heq by lia.
      rewrite <- app_assoc. rewrite take_app_length' by done. done.
Qed.

(** C33. [generateCode] terminates as soon as the chunks drawn contain [length]
    bytes below 248, whatever the fuel beyond that, and returns the first
    [length] of them mapped into the alphabet: exactly [length] characters of
    [\[0-9A-Za-z\]]. *)
Theorem generateCode_correct randomBytes length k fuel :
  (k <= fuel)%nat ->
  (length <= List.length (accepted (chunks randomBytes 0 k)))%nat ->
  exists code,
    generateCode randomBytes fuel length = Some code
    /\ code = code_of (take length (accepted (chunks randomBytes 0 k)))
    /\ String.length code = length /\ string_forallb is_alnum code = true.
Proof.
  intros Hk Hlen. pose proof (generate_loop_spec randomBytes length k fuel 0 []) as Hg.
  simpl in Hg. eexists. split; [by apply Hg; [|lia|]|]. split; [done|]. split; [|apply code_of_alnum].
  rewrite code_of_length, length_take. lia.
Qed.

(** Rejection sampling removes the modulo bias: every character of the
    alphabet is chosen by exactly four of the 248 accepted byte values. *)
Theorem generateCode_unbiased digit :
  0 <= digit < 62 ->
  List.length (filter (fun b => take_bytes 1 [b] "" = alphabet_at digit)
    (seqZ 0 256)) = 4%nat.
Proof.
  intros Hd. rewrite <- (Z2Nat.id digit) by lia.
  assert (Hn : (Z.to_nat digit < 62)%nat) by lia. revert Hn.
  generalize (Z.to_nat digit). intros n Hn.
  do 62 (destruct n as [|n]; [vm_compute; reflexivity|]). lia.
Qed.

(** ** Witnesses *)

Definition toy_bytes (i : nat) : list Z :=
  match i with 0%nat => [255; 0; 61; 62] | _ => [249; 10; 247; 200] end.

Lemma generateCode_correct_witness :
  generateCode toy_bytes 2 4 = Some "0z0A"
  /\ exists code,
    generateCode toy_bytes 2 4 = Some code
    /\ code = code_of (take 4 (accepted (chunks toy_bytes 0 2)))
    /\ String.length code = 4%nat /\ string_forallb is_alnum code = true.
Proof.
  split; [reflexivity|].
  apply (generateCode_correct toy_bytes 4 2 2); vm_compute; repeat constructor.
Defined.

Lemma generateCode_unbiased_witness :
  List.length (filter (fun b => take_bytes 1 [b] "" = alphabet_at 7) (seqZ 0 256)) = 4%nat.
Proof. apply (generateCode_unbiased 7). split; [discriminate|reflexivity]. Defined.
