(* ===== verification/JsString.v ===== *)
(** * JavaScript strings and decimal numerals

    The string functions the program uses: [String(n)] of an integer,
    [padStart], prefixes, and fixed-width decimal fields with their reader. *)
From S2P Require Import Prelude JsNum.
Open Scope Z_scope.

(** A value of type [unknown], as far as the program tells values apart:
    [undefined], a string, a number that is an integer, or anything else. *)
Inductive unknown : Type := Undefined | Text (s : string) | Integer (n : Z) | Other.

Definition char_of (b : Z) : ascii := ascii_of_N (Z.to_N b).

(** The decimal digit of [0 <= d < 10]. *)
Definition digit_char (d : Z) : ascii := char_of (48 + d).

Definition digit_value (c : ascii) : option Z :=
  if is_digit c then Some (byte_of c - 48) else None.

Lemma byte_of_char_of b : 0 <= b < 256 -> byte_of (char_of b) = b.
Proof.
  intros Hb. unfold byte_of, char_of. rewrite N_ascii_embedding; lia.
Qed.

Lemma digit_char_digit d : 0 <= d < 10 -> is_digit (digit_char d) = true.
Proof.
  intros Hd. unfold is_digit, digit_char. rewrite byte_of_char_of by lia.
  apply andb_true_iff. rewrite !Z.leb_le. lia.
Qed.

Lemma digit_value_char d : 0 <= d < 10 -> digit_value (digit_char d) = Some d.
Proof.
  intros Hd. unfold digit_value. rewrite digit_char_digit by done.
  unfold digit_char. rewrite byte_of_char_of by lia. f_equal. lia.
Qed.

(** ** [String(n)] *)

Fixpoint dec_fuel (fuel : nat) (n : Z) : string :=
  match fuel with
  | O => ""
  | S fuel =>
      if n <? 10 then String (digit_char n) ""
      else dec_fuel fuel (n / 10) +:+ String (digit_char (n mod 10)) ""
  end.

(** An integer has at most [log2 n + 2] decimal digits. *)
Definition js_String (n : Z) : string :=
  if n <? 0 then "-" +:+ dec_fuel (S (S (Z.to_nat (Z.log2 (- n))))) (- n)
  else dec_fuel (S (S (Z.to_nat (Z.log2 n)))) n.

(** [s.padStart(width, "0")]. *)
Fixpoint repeat_char (count : nat) (c : ascii) : string :=
  match count with O => "" | S count => String c (repeat_char count c) end.

Definition padStart (s : string) (width : nat) (c : ascii) : string :=
  repeat_char (width - String.length s) c +:+ s.

(** A field of exactly [width] digits. *)
Fixpoint dec_fixed (width : nat) (n : Z) : string :=
  match width with
  | O => ""
  | S width => dec_fixed width (n / 10) +:+ String (digit_char (n mod 10)) ""
  end.

(** Reading [width] digits off the front of a string. *)
Fixpoint read_digits (width : nat) (acc : Z) (s : string) : option (Z * string) :=
  match width with
  | O => Some (acc, s)
  | S width =>
      match s with
      | String c s =>
          match digit_value c with
          | Some d => read_digits width (acc * 10 + d) s
          | None => None
          end
      | EmptyString => None
      end
  end.

Lemma dec_fixed_length width n : String.length (dec_fixed width n) = width.
Proof.
  revert n; induction width as [|width IH]; intros n; [done|].
  simpl. rewrite string_length_app, IH. simpl. lia.
Qed.

Lemma read_digits_app width acc s t v rest :
  read_digits width acc s = Some (v, rest) ->
  read_digits width acc (s +:+ t) = Some (v, rest +:+ t).
Proof.
  revert acc s; induction width as [|width IH]; intros acc s; simpl.
  - by intros [= <- <-].
  - destruct s as [|c s]; [done|]. rewrite string_app_cons.
    destruct (digit_value c); [apply IH|done].
Qed.

Lemma read_digits_snoc width acc s v d t :
  read_digits width acc s = Some (v, "") -> 0 <= d < 10 ->
  read_digits (S width) acc (s +:+ String (digit_char d) t) = Some (v * 10 + d, t).
Proof.
  revert acc s; induction width as [|width IH]; intros acc s Hr Hd.
  - simpl in Hr. injection Hr as -> ->. rewrite string_app_nil_l. simpl.
    by rewrite digit_value_char.
  - simpl in Hr. destruct s as [|c s]; [done|]. rewrite string_app_cons.
    destruct (digit_value c) as [e|] eqn:He; [|done].
    change (read_digits (S (S width)) acc (String c (s +:+ String (digit_char d) t)))
      with (match digit_value c with
            | Some e => read_digits (S width) (acc * 10 + e) (s +:+ String (digit_char d) t)
            | None => None end).
    rewrite He. by apply IH.
Qed.

Lemma read_dec_fixed width n rest :
  0 <= n < 10 ^ Z.of_nat width -> read_digits width 0 (dec_fixed width n +:+ rest) = Some (n, rest).
Proof.
  intros Hn. assert (Hread : read_digits width 0 (dec_fixed width n) = Some (n, "")).
  { revert n Hn; induction width as [|width IH]; intros n Hn; [simpl in *; f_equal; f_equal; lia|].
    rewrite Nat2Z.inj_succ, Z.pow_succ_r in Hn by lia.
    assert (Hm : 0 <= n mod 10 < 10) by (by apply Z.mod_pos_bound).
    simpl dec_fixed. erewrite read_digits_snoc; [|apply IH|done].
    - f_equal. f_equal. pose proof (Z.div_mod n 10 ltac:(done)). lia.
    - split; [apply Z.div_pos; lia|apply Z.div_lt_upper_bound; lia]. }
  by apply (read_digits_app _ _ _ rest) in Hread.
Qed.

Lemma dec_fixed_inj width m n :
  0 <= m < 10 ^ Z.of_nat width -> 0 <= n < 10 ^ Z.of_nat width ->
  dec_fixed width m = dec_fixed width n -> m = n.
Proof.
  intros Hm Hn Heq. pose proof (read_dec_fixed width m "" Hm) as H1.
  rewrite Heq, read_dec_fixed in H1 by done. by injection H1.
Qed.

Lemma dec_fixed_zero width : dec_fixed width 0 = repeat_char width "0"%char.
Proof.
  assert (Hsnoc : forall n c, repeat_char n c +:+ String c "" = String c (repeat_char n c)).
  { intros n c. induction n as [|n IH]; [done|]. simpl. by rewrite string_app_cons, IH. }
  induction width as [|width IH]; [done|].
  simpl. rewrite Z.div_0_l, Z.mod_0_l, IH by done. apply Hsnoc.
Qed.

Lemma dec_fuel_pad fuel width n :
  0 <= n < 10 ^ Z.of_nat (S width) -> n < 2 ^ Z.of_nat fuel ->
  padStart (dec_fuel (S fuel) n) (S width) "0"%char = dec_fixed (S width) n
  /\ (String.length (dec_fuel (S fuel) n) <= S width)%nat.
Proof.
  revert width n; induction fuel as [|fuel IH]; intros width n Hn Hf.
  - assert (n = 0) as -> by (simpl in Hf; lia). rewrite dec_fixed_zero. split; [|simpl; lia].
    unfold padStart. change (dec_fuel 1 0) with "0".
    simpl. rewrite Nat.sub_0_r. induction width as [|w IHw]; [done|].
    simpl. rewrite string_app_cons. f_equal. apply IHw. simpl. split; [lia|].
    apply Z.pow_pos_nonneg; lia.
  - change (dec_fuel (S (S fuel)) n) with (if n <? 10 then String (digit_char n) ""
      else dec_fuel (S fuel) (n / 10) +:+ String (digit_char (n mod 10)) "").
    simpl dec_fixed. destruct (Z.ltb_spec n 10) as [Hlt|Hge].
    + rewrite Z.div_small, Z.mod_small, dec_fixed_zero by lia. split; [|simpl; lia].
      unfold padStart. simpl. by rewrite Nat.sub_0_r.
    + rewrite Nat2Z.inj_succ, Z.pow_succ_r in Hn, Hf by lia.
      destruct width as [|width]; [simpl in Hn; lia|].
      destruct (IH width (n / 10)) as [Hp Hl].
      { split; [apply Z.div_pos; lia|apply Z.div_lt_upper_bound; lia]. }
      { apply Z.div_lt_upper_bound; lia. }
      rewrite string_length_app. split; [|simpl; simpl in Hl; lia].
      rewrite <- Hp. unfold padStart. rewrite string_length_app, string_app_assoc.
      do 3 f_equal. simpl. lia.
Qed.

(** Zero-padding [String(n)] gives the fixed-width numeral. *)
Lemma padStart_String width n :
  (0 < width)%nat -> 0 <= n < 10 ^ Z.of_nat width ->
  padStart (js_String n) width "0"%char = dec_fixed width n.
Proof.
  intros Hw Hn. unfold js_String. rewrite (proj2 (Z.ltb_ge n 0)) by lia.
  destruct width as [|width]; [lia|].
  apply (dec_fuel_pad (S (Z.to_nat (Z.log2 n))) width n Hn).
  destruct (decide (n = 0)) as [->|Hnz]; [done|].
  rewrite Nat2Z.inj_succ, Z2Nat.id by apply Z.log2_nonneg. apply Z.log2_spec. lia.
Qed.

(** ** Prefixes *)

Fixpoint startsWith (s prefix : string) {struct prefix} : bool :=
  match prefix, s with
  | EmptyString, _ => true
  | String c prefix, String d s => Ascii.eqb c d && startsWith s prefix
  | String _ _, EmptyString => false
  end.

Lemma startsWith_app s t : startsWith (s +:+ t) s = true.
Proof.
  induction s as [|c s IH]; [done|]. rewrite string_app_cons. simpl.
  by rewrite Ascii.eqb_refl, IH.
Qed.

(** ** Reading decimal integers

    The integer syntax on which Lua's [tonumber], Redis' integer arguments and
    JavaScript's [Number] agree: an optional minus sign and decimal digits. *)
Fixpoint read_decimal (acc : Z) (s : string) : option Z :=
  match s with
  | EmptyString => Some acc
  | String c s =>
      match digit_value c with
      | Some d => read_decimal (acc * 10 + d) s
      | None => None
      end
  end.

Lemma read_decimal_nonneg acc s v : 0 <= acc -> read_decimal acc s = Some v -> 0 <= v.
Proof.
  revert acc; induction s as [|c s IH]; intros acc Ha Hr; cbn [read_decimal] in Hr; [by injection Hr as <-|].
  destruct (digit_value c) as [d|] eqn:Hd; [|done]. eapply IH; [|exact Hr].
  unfold digit_value, is_digit in Hd. destruct (_ && _) eqn:Hb; [|done]. injection Hd as <-. bool_to_prop. lia.
Qed.

Definition read_integer (s : string) : option Z :=
  match s with
  | EmptyString => None
  | String c rest =>
      if Ascii.eqb c "-" then
        match rest with
        | EmptyString => None
        | _ => Z.opp <$> read_decimal 0 rest
        end
      else read_decimal 0 s
  end.

Lemma read_decimal_snoc acc s v d :
  read_decimal acc s = Some v -> 0 <= d < 10 ->
  read_decimal acc (s +:+ String (digit_char d) "") = Some (v * 10 + d).
Proof.
  revert acc; induction s as [|c s IH]; intros acc Hr Hd; simpl in Hr.
  - injection Hr as ->. rewrite string_app_nil_l. simpl. by rewrite digit_value_char.
  - rewrite string_app_cons. simpl. destruct (digit_value c); [by apply IH|done].
Qed.

Lemma dec_fuel_read fuel n :
  0 <= n < 2 ^ Z.of_nat fuel ->
  read_decimal 0 (dec_fuel (S fuel) n) = Some n
  /\ exists c s, dec_fuel (S fuel) n = String c s /\ is_digit c = true.
Proof.
  revert n; induction fuel as [|fuel IH]; intros n Hn.
  - assert (n = 0) as -> by (simpl in Hn; lia). split; [done|]. by eexists _, _.
  - change (dec_fuel (S (S fuel)) n) with (if n <? 10 then String (digit_char n) ""
      else dec_fuel (S fuel) (n / 10) +:+ String (digit_char (n mod 10)) "").
    destruct (Z.ltb_spec n 10) as [Hlt|Hge].
    + split; [simpl; rewrite digit_value_char by lia; f_equal; lia|].
      exists (digit_char n), "". split; [done|]. apply digit_char_digit. lia.
    + rewrite Nat2Z.inj_succ, Z.pow_succ_r in Hn by lia.
      destruct (IH (n / 10)) as (Hr & c & s & Hc & Hd).
      { split; [apply Z.div_pos; lia|apply Z.div_lt_upper_bound; lia]. }
      split.
      * erewrite read_decimal_snoc; [|exact Hr|by apply Z.mod_pos_bound].
        f_equal. pose proof (Z.div_mod n 10 ltac:(done)). lia.
      * rewrite Hc, string_app_cons. by eexists _, _.
Qed.

Lemma read_integer_String n : read_integer (js_String n) = Some n.
Proof.
  assert (Hpos : forall m, 0 <= m -> let s := dec_fuel (S (S (Z.to_nat (Z.log2 m)))) m in
    read_decimal 0 s = Some m /\ exists c r, s = String c r /\ is_digit c = true).
  { intros m Hm. cbv zeta. apply dec_fuel_read. split; [done|].
    destruct (decide (m = 0)) as [->|Hnz]; [done|].
    rewrite Nat2Z.inj_succ, Z2Nat.id by apply Z.log2_nonneg. apply Z.log2_spec. lia. }
  unfold js_String. destruct (Z.ltb_spec n 0) as [Hn|Hn].
  - destruct (Hpos (- n) ltac:(lia)) as (Hr & c & r & Hc & _). rewrite Hc in *.
    rewrite string_app_cons, string_app_nil_l. cbn [read_integer]. rewrite Ascii.eqb_refl, Hr.
    simpl. f_equal. lia.
  - destruct (Hpos n Hn) as (Hr & c & r & Hc & Hd). rewrite Hc in *. unfold read_integer.
    destruct (Ascii.eqb_spec c "-") as [->|]; [done|]. exact Hr.
Qed.

Lemma js_String_inj m n : js_String m = js_String n -> m = n.
Proof. intros H. pose proof (read_integer_String m) as Hm. rewrite H, read_integer_String in Hm. congruence. Qed.

(** ** Splitting and trimming *)

(** [s.toLowerCase()] of ASCII text; other bytes are left alone. *)
Definition lower_char (c : ascii) : ascii :=
  if (65 <=? byte_of c) && (byte_of c <=? 90) then char_of (byte_of c + 32) else c.

Fixpoint toLowerCase (s : string) : string :=
  match s with EmptyString => EmptyString | String c s => String (lower_char c) (toLowerCase s) end.

(** [s.split(c)], never empty. *)
Fixpoint split_on (c : ascii) (s : string) : list string :=
  match s with
  | EmptyString => [""]
  | String d s =>
      if Ascii.eqb d c then "" :: split_on c s
      else match split_on c s with
           | part :: parts => String d part :: parts
           | [] => [String d ""]
           end
  end.

(** The text before the first [c]. *)
Fixpoint before (c : ascii) (s : string) : string :=
  match s with
  | EmptyString => ""
  | String d s => if Ascii.eqb d c then "" else String d (before c s)
  end.

(** [s.replace(/^c/, "")] and [s.replace(/c$/, "")]. *)
Definition strip_first (c : ascii) (s : string) : string :=
  match s with String d t => if Ascii.eqb d c then t else s | EmptyString => s end.

Fixpoint strip_last (c : ascii) (s : string) : string :=
  match s with
  | EmptyString => ""
  | String d EmptyString => if Ascii.eqb d c then "" else s
  | String d s => String d (strip_last c s)
  end.

Fixpoint endsWith (s suffix : string) : bool :=
  String.eqb s suffix || match s with EmptyString => false | String _ s => endsWith s suffix end.

Lemma split_on_part c s t :
  string_forallb (fun d => negb (Ascii.eqb d c)) s = true ->
  split_on c (s +:+ String c t) = s :: split_on c t.
Proof.
  induction s as [|d s IH]; cbn [string_forallb].
  - intros _. rewrite string_app_nil_l. cbn [split_on]. by rewrite Ascii.eqb_refl.
  - intros [Hd Hs]%andb_true_iff. rewrite string_app_cons. cbn [split_on]. rewrite IH by done.
    by destruct (Ascii.eqb d c).
Qed.

Lemma split_on_last c s :
  string_forallb (fun d => negb (Ascii.eqb d c)) s = true -> split_on c s = [s].
Proof.
  induction s as [|d s IH]; [done|]. simpl. intros [Hd Hs]%andb_true_iff. rewrite IH by done.
  by destruct (Ascii.eqb d c).
Qed.
