(* ===== verification/JsDouble.v ===== *)
(** * JavaScript doubles

    Binary64 numbers ([SpecFloat] of the Standard Library) where the program
    computes with fractions, and [Number(text)], which may meet any numeric
    literal: the text is trimmed, read as a ratio of integers and rounded once. *)
From Stdlib Require Import SpecFloat.
From S2P Require Import Prelude JsNum JsString.
Open Scope Z_scope.

Abbreviation double := spec_float.

(** The double nearest to an integer, and the sum of two. *)
Definition double_of (n : Z) : double := binary_normalize 53 1024 n 0 false.
Definition dadd (a b : double) : double := SFadd 53 1024 a b.

(** The double nearest to [n / d]. *)
Definition literal (n d : Z) : double := SFdiv 53 1024 (double_of n) (double_of d).

Definition isFinite (d : double) : bool :=
  match d with S754_zero _ | S754_finite _ _ _ => true | _ => false end.

(** The integer a double is, if it is one. *)
Definition integer_of (d : double) : option Z :=
  match d with
  | S754_zero _ => Some 0
  | S754_finite s m e =>
      let n := if s then Z.neg m else Z.pos m in
      if 0 <=? e then Some (n * 2 ^ e)
      else if n mod 2 ^ (- e) =? 0 then Some (n / 2 ^ (- e)) else None
  | _ => None
  end.

(** ** Trimming

    The white space and line terminators of ECMAScript, by their UTF-8 bytes. *)
Definition space1 (a : ascii) : bool := let b := byte_of a in (b =? 32) || ((9 <=? b) && (b <=? 13)).

Definition space2 (a b : ascii) : bool := (byte_of a =? 0xc2) && (byte_of b =? 0xa0).

Definition space3 (a b c : ascii) : bool :=
  let code := byte_of a * 65536 + byte_of b * 256 + byte_of c in
  (code =? 0xe19a80) || ((0xe28080 <=? code) && (code <=? 0xe2808a)) || (code =? 0xe280a8) || (code =? 0xe280a9)
  || (code =? 0xe280af) || (code =? 0xe2819f) || (code =? 0xe38080) || (code =? 0xefbbbf).

Fixpoint trimStart (s : string) : string :=
  match s with
  | String a s1 =>
      if space1 a then trimStart s1
      else match s1 with
           | String b s2 =>
               if space2 a b then trimStart s2
               else match s2 with
                    | String c s3 => if space3 a b c then trimStart s3 else s
                    | EmptyString => s
                    end
           | EmptyString => s
           end
  | EmptyString => s
  end.

(** Cut where only white space is left. *)
Fixpoint trimEnd (s : string) : string :=
  match s with
  | EmptyString => ""
  | String c s' => if String.eqb (trimStart s) "" then "" else String c (trimEnd s')
  end.

Definition trim (s : string) : string := trimEnd (trimStart s).

(** ** [Number(text)] *)

Definition hex_value (c : ascii) : option Z :=
  if is_digit c then Some (byte_of c - 48)
  else if (97 <=? byte_of c) && (byte_of c <=? 102) then Some (byte_of c - 87)
  else if (65 <=? byte_of c) && (byte_of c <=? 70) then Some (byte_of c - 55)
  else None.

(** All of [s], one or more digits of the radix. *)
Fixpoint radix_from (radix acc : Z) (s : string) : option Z :=
  match s with
  | EmptyString => Some acc
  | String c s =>
      match hex_value c with
      | Some d => if d <? radix then radix_from radix (acc * radix + d) s else None
      | None => None
      end
  end.

Definition radix_literal (radix : Z) (s : string) : double :=
  match s with
  | EmptyString => S754_nan
  | _ => match radix_from radix 0 s with Some n => double_of n | None => S754_nan end
  end.

(** The longest run of decimal digits: its value after [acc], its length and
    what follows. *)
Fixpoint run (acc : Z) (n : nat) (s : string) : Z * nat * string :=
  match s with
  | String c s' => match digit_value c with Some d => run (acc * 10 + d) (S n) s' | None => (acc, n, s) end
  | EmptyString => (acc, n, s)
  end.

(** [m * 10 ^ e], rounded once: dividing unnormalised operands is exact. *)
Definition decimal (negative : bool) (m e : Z) : double :=
  match m with
  | Zpos p =>
      if 0 <=? e then binary_normalize 53 1024 ((if negative then -1 else 1) * (m * 10 ^ e)) 0 negative
      else SFdiv 53 1024 (S754_finite negative p 0) (S754_finite false (Z.to_pos (10 ^ (- e))) 0)
  | _ => S754_zero negative
  end.

Definition exponent (s : string) : option Z :=
  let '(negative, digits) :=
    match s with String "+" s => (false, s) | String "-" s => (true, s) | s => (false, s) end in
  match run 0 0 digits with
  | (n, S _, EmptyString) => Some (if negative then - n else n)
  | _ => None
  end.

Definition unsigned_decimal (negative : bool) (s : string) : double :=
  if String.eqb s "Infinity" then S754_infinity negative
  else
    let '(whole, wholeDigits, rest) := run 0 0 s in
    let '(m, fractionDigits, rest) :=
      match rest with String "." rest => run whole 0 rest | rest => (whole, 0%nat, rest) end in
    if (wholeDigits + fractionDigits =? 0)%nat then S754_nan
    else
      match rest with
      | EmptyString => decimal negative m (- Z.of_nat fractionDigits)
      | String c rest =>
          if Ascii.eqb c "e" || Ascii.eqb c "E" then
            match exponent rest with
            | Some e => decimal negative m (e - Z.of_nat fractionDigits)
            | None => S754_nan
            end
          else S754_nan
      end.

Definition Number_of (text : string) : double :=
  match trim text with
  | EmptyString => S754_zero false
  | String "0" (String "x" s) | String "0" (String "X" s) => radix_literal 16 s
  | String "0" (String "o" s) | String "0" (String "O" s) => radix_literal 8 s
  | String "0" (String "b" s) | String "0" (String "B" s) => radix_literal 2 s
  | String "+" s => unsigned_decimal false s
  | String "-" s => unsigned_decimal true s
  | s => unsigned_decimal false s
  end.

(** ** Integers are exact doubles *)

Lemma digits_lower p : 2 ^ (Z.pos (digits2_pos p) - 1) <= Z.pos p.
Proof.
  induction p as [p IH|p IH|]; [| |done]; cbn [digits2_pos]; rewrite Pos2Z.inj_succ;
    replace (Z.succ (Z.pos (digits2_pos p)) - 1) with (Z.succ (Z.pos (digits2_pos p) - 1)) by lia;
    rewrite Z.pow_succ_r by lia; lia.
Qed.

Lemma digits_bound p k : 0 <= k -> Z.pos p < 2 ^ k -> Z.pos (digits2_pos p) <= k.
Proof.
  intros Hk Hp. pose proof (digits_lower p) as Hl. destruct (Z.le_gt_cases (Z.pos (digits2_pos p)) k) as [|Hgt]; [done|].
  assert (2 ^ k <= 2 ^ (Z.pos (digits2_pos p) - 1)) by (apply Z.pow_le_mono_r; lia). lia.
Qed.

Lemma shifted d m :
  Z.pos (Pos.iter xO m d) = Z.pos m * 2 ^ Z.pos d
  /\ Z.pos (digits2_pos (Pos.iter xO m d)) = Z.pos (digits2_pos m) + Z.pos d.
Proof.
  induction d as [|d [IH1 IH2]] using Pos.peano_ind; [split; [by rewrite Z.mul_comm|simpl; lia]|].
  rewrite Pos.iter_succ. split.
  - rewrite Pos2Z.inj_succ, Z.pow_succ_r by lia. rewrite (Pos2Z.inj_xO (Pos.iter xO m d)), IH1. lia.
  - cbn [digits2_pos]. lia.
Qed.

(** Rounding a mantissa that has exactly its 53 digits does nothing. *)
Lemma round_canonical s m e :
  Z.pos (digits2_pos m) = 53 -> -1074 <= e <= 971 ->
  binary_round_aux 53 1024 s (Z.pos m) e loc_Exact = S754_finite s m e.
Proof.
  intros Hm He.
  assert (Hsame : shr_fexp 53 1024 (Z.pos m) e loc_Exact = ({| shr_m := Z.pos m; shr_r := false; shr_s := false |}, e)).
  { unfold shr_fexp. cbn [Zdigits2]. rewrite Hm.
    replace (fexp 53 1024 (53 + e) - e) with 0 by (unfold fexp, emin; lia). done. }
  unfold binary_round_aux. rewrite Hsame. cbn [shr_m loc_of_shr_record round_nearest_even]. rewrite Hsame.
  cbn [shr_m]. by rewrite (proj2 (Z.leb_le _ _)) by lia.
Qed.

Lemma round_exact s m :
  Z.pos m < 2 ^ 53 -> integer_of (binary_round 53 1024 s m 0) = Some (if s then Z.neg m else Z.pos m).
Proof.
  intros Hm. pose proof (digits_bound m 53 ltac:(lia) Hm) as Hd. unfold binary_round.
  set (D := Z.pos (digits2_pos m)) in *. assert (1 <= D) by lia.
  replace (fexp 53 1024 (D + 0)) with (D - 53) by (unfold fexp, emin; lia). unfold shl_align.
  destruct (D - 53 - 0) as [|d|d] eqn:He; [|lia|].
  - rewrite round_canonical by (unfold D in *; lia). simpl. f_equal. lia.
  - destruct (shifted d m) as [H1 H2]. fold D in H2. rewrite round_canonical by lia. unfold integer_of.
    rewrite (proj2 (Z.leb_gt 0 (D - 53))) by lia. replace (- (D - 53)) with (Z.pos d) by lia.
    assert (Hpow : 0 < 2 ^ Z.pos d) by (apply Z.pow_pos_nonneg; lia).
    assert (Heq : (if s then Z.neg (Pos.iter xO m d) else Z.pos (Pos.iter xO m d))
      = (if s then Z.neg m else Z.pos m) * 2 ^ Z.pos d).
    { destruct s; [rewrite <- Pos2Z.opp_pos, H1, <- (Pos2Z.opp_pos m); lia|done]. }
    rewrite Heq, Z.mod_mul, Z.div_mul by lia. done.
Qed.

Lemma integer_of_double n : Z.abs n <= MAX_SAFE_INTEGER -> integer_of (double_of n) = Some n.
Proof.
  unfold MAX_SAFE_INTEGER. intros Hn. unfold double_of, binary_normalize.
  destruct n as [|p|p]; [done| |]; rewrite round_exact by lia; done.
Qed.

(** ** Decimal texts are read exactly *)

Lemma digit_no_space c : is_digit c = true -> space1 c = false /\ byte_of c < 128.
Proof.
  unfold is_digit, space1. intros [H1 H2]%andb_true_iff. bool_to_prop. split; [|lia].
  apply orb_false_iff. split; [apply Z.eqb_neq; lia|]. apply andb_false_iff. right. apply Z.leb_gt. lia.
Qed.

Lemma trimStart_digit c s : is_digit c = true -> trimStart (String c s) = String c s.
Proof.
  intros [H1 H2]%digit_no_space. cbn [trimStart]. rewrite H1. destruct s as [|b s]; [done|].
  assert (space2 c b = false) as ->. { unfold space2. apply andb_false_iff. left. apply Z.eqb_neq. lia. }
  destruct s as [|d s]; [done|]. assert (space3 c b d = false) as ->; [|done].
  pose proof (byte_of_range b). pose proof (byte_of_range d). unfold space3.
  set (code := byte_of c * 65536 + byte_of b * 256 + byte_of d). assert (code < 0xe19a80) by (unfold code; lia).
  rewrite !orb_false_iff, andb_false_iff, !Z.eqb_neq, !Z.leb_gt. split_and!; lia.
Qed.

Lemma trim_digits s : string_forallb is_digit s = true -> trim s = s.
Proof.
  intros Hs. unfold trim.
  assert (Hstart : trimStart s = s).
  { destruct s as [|c s]; [done|]. cbn [string_forallb] in Hs. apply andb_true_iff in Hs as [Hc _].
    by apply trimStart_digit. }
  rewrite Hstart. clear Hstart. induction s as [|c s IH]; [done|]. cbn [string_forallb] in Hs.
  apply andb_true_iff in Hs as [Hc Hs]. unfold trimEnd. fold trimEnd. rewrite trimStart_digit by done.
  cbn [String.eqb]. by rewrite IH.
Qed.

Lemma read_decimal_digits acc s v : read_decimal acc s = Some v ->
  string_forallb is_digit s = true /\ forall k, run acc k s = (v, (k + String.length s)%nat, "").
Proof.
  revert acc; induction s as [|c s IH]; intros acc Hr; cbn [read_decimal run string_forallb String.length] in *.
  { injection Hr as <-. split; [done|]. intros k. by rewrite Nat.add_0_r. }
  destruct (digit_value c) as [d|] eqn:Hd; [|done]. destruct (IH _ Hr) as [H1 H2]. rewrite H1. split.
  - unfold digit_value in Hd. by destruct (is_digit c).
  - intros k. rewrite H2. f_equal. f_equal. lia.
Qed.

Lemma Number_digits s : s <> "" -> string_forallb is_digit s = true -> Number_of s = unsigned_decimal false s.
Proof.
  intros Hne Hs. unfold Number_of. rewrite (trim_digits s Hs). destruct s as [|c s]; [done|].
  cbn [string_forallb] in Hs. apply andb_true_iff in Hs as [Hc Hs].
  destruct c as [[] [] [] [] [] [] [] []]; try discriminate Hc; try reflexivity.
  destruct s as [|d s]; [done|]. cbn [string_forallb] in Hs. apply andb_true_iff in Hs as [Hd _].
  destruct d as [[] [] [] [] [] [] [] []]; try discriminate Hd; reflexivity.
Qed.

(** A text of decimal digits is the number it denotes, if that is safe. *)
Lemma Number_read s n :
  s <> "" -> read_decimal 0 s = Some n -> n <= MAX_SAFE_INTEGER -> integer_of (Number_of s) = Some n.
Proof.
  intros Hne Hr Hn. pose proof (read_decimal_nonneg 0 s n ltac:(lia) Hr) as Hpos.
  destruct (read_decimal_digits _ _ _ Hr) as [Hd Hrun]. rewrite Number_digits by done.
  unfold unsigned_decimal. assert (String.eqb s "Infinity" = false) as ->.
  { destruct s as [|c s]; [done|]. cbn [string_forallb] in Hd. apply andb_true_iff in Hd as [Hc _].
    destruct c as [[] [] [] [] [] [] [] []]; try discriminate Hc; reflexivity. }
  rewrite Hrun. cbn [Nat.add]. destruct (Nat.eqb_spec (String.length s + 0) 0) as [H0|_].
  { by destruct s. }
  change (- Z.of_nat 0) with 0. unfold decimal. destruct n as [|p|p]; [done| |lia]. cbn [Z.leb].
  change (0 <=? 0) with true. cbv iota. rewrite Z.pow_0_r, Z.mul_1_r, Z.mul_1_l.
  apply (integer_of_double (Z.pos p)). lia.
Qed.

Lemma Number_String n : 0 <= n <= MAX_SAFE_INTEGER -> integer_of (Number_of (js_String n)) = Some n.
Proof.
  intros Hn. unfold js_String. rewrite (proj2 (Z.ltb_ge n 0)) by lia.
  destruct (dec_fuel_read (S (Z.to_nat (Z.log2 n))) n) as [H1 (c & s & H2 & _)].
  - rewrite Nat2Z.inj_succ, Z2Nat.id by apply Z.log2_nonneg. split; [lia|].
    destruct (decide (n = 0)) as [->|]; [done|]. apply Z.log2_spec. lia.
  - apply Number_read; [|done|lia]. by rewrite H2.
Qed.

(** ** Trimming twice is trimming once *)

Lemma trimStart_short s : (String.length (trimStart s) <= String.length s)%nat.
Proof.
  assert (Hall : forall n s, (String.length s <= n)%nat -> (String.length (trimStart s) <= String.length s)%nat).
  { clear s. induction n as [|n IH]; intros [|a s1] Hn; cbn [String.length] in Hn; try done; [lia|]. cbn [trimStart].
    case_match; [pose proof (IH s1 ltac:(lia)); cbn [String.length]; lia|]. destruct s1 as [|b s2]; [done|].
    cbn [String.length] in *. case_match; [pose proof (IH s2 ltac:(lia)); lia|]. destruct s2 as [|c s3]; [done|].
    cbn [String.length] in *. case_match; [pose proof (IH s3 ltac:(lia)); lia|done]. }
  by apply (Hall (String.length s)).
Qed.

(** Nothing is left of a text of white space: it disappears in front of others. *)
Lemma trimStart_blank v w : trimStart v = "" -> trimStart (v +:+ w) = trimStart w.
Proof.
  assert (Hall : forall n v, (String.length v <= n)%nat -> trimStart v = "" -> trimStart (v +:+ w) = trimStart w).
  { clear v. induction n as [|n IH]; intros [|a s1] Hn Hv; cbn [String.length] in Hn; try done; [lia|].
    rewrite string_app_cons. cbn [trimStart] in *. destruct (space1 a); [by apply IH; [lia|]|].
    destruct s1 as [|b s2]; [done|]. cbn [String.length] in Hn. rewrite string_app_cons.
    destruct (space2 a b); [by apply IH; [lia|]|]. destruct s2 as [|c s3]; [done|]. cbn [String.length] in Hn.
    rewrite string_app_cons. destruct (space3 a b c); [by apply IH; [lia|]|done]. }
  by apply (Hall (String.length v)).
Qed.

Lemma trimStart_twice s : trimStart (trimStart s) = trimStart s.
Proof.
  assert (Hall : forall n s, (String.length s <= n)%nat -> trimStart (trimStart s) = trimStart s).
  { clear s. induction n as [|n IH]; intros [|a s1] Hn; cbn [String.length] in Hn; try done; [lia|]. cbn [trimStart].
    destruct (space1 a) eqn:H1; [apply IH; lia|]. destruct s1 as [|b s2]; [cbn [trimStart]; by rewrite H1|].
    cbn [String.length] in Hn. destruct (space2 a b) eqn:H2; [apply IH; lia|].
    destruct s2 as [|c s3]; [cbn [trimStart]; by rewrite H1, H2|]. cbn [String.length] in Hn.
    destruct (space3 a b c) eqn:H3; [apply IH; lia|]. cbn [trimStart]. by rewrite H1, H2, H3. }
  by apply (Hall (String.length s)).
Qed.

(** What begins with no white space still does when its end is cut. *)
Lemma trimStart_cut u w : trimStart (u +:+ w) = u +:+ w -> trimStart u = u.
Proof.
  assert (Hlong : forall t v, trimStart t <> v +:+ t \/ v = "").
  { intros t v. destruct v as [|c v]; [by right|left]. intros He. pose proof (trimStart_short t) as Hl.
    rewrite He in Hl. rewrite string_app_cons in Hl. cbn [String.length] in Hl. rewrite string_length_app in Hl. lia. }
  destruct u as [|a u1]; [done|]. rewrite string_app_cons. cbn [trimStart].
  destruct (space1 a); [intros He; by destruct (Hlong (u1 +:+ w) (String a ""))|].
  destruct u1 as [|b u2]; [done|]. rewrite string_app_cons.
  destruct (space2 a b); [intros He; by destruct (Hlong (u2 +:+ w) (String a (String b "")))|].
  destruct u2 as [|c u3]; [done|]. rewrite string_app_cons.
  destruct (space3 a b c); [intros He; by destruct (Hlong (u3 +:+ w) (String a (String b (String c ""))))|done].
Qed.

Lemma trimEnd_cut s : exists w, s = trimEnd s +:+ w /\ trimStart w = "".
Proof.
  induction s as [|c s (w & Hs & Hw)]; [by exists ""|]. unfold trimEnd. fold trimEnd.
  destruct (String.eqb_spec (trimStart (String c s)) "") as [He|_].
  - exists (String c s). by rewrite string_app_nil_l.
  - exists w. split; [|done]. rewrite string_app_cons. by f_equal.
Qed.

Lemma trimEnd_twice s : trimEnd (trimEnd s) = trimEnd s.
Proof.
  induction s as [|c s IH]; [done|]. destruct (trimEnd_cut s) as (w & Hs & Hw).
  assert (Hc : trimEnd (String c s) = if String.eqb (trimStart (String c s)) "" then "" else String c (trimEnd s)) by done.
  rewrite Hc. destruct (String.eqb_spec (trimStart (String c s)) "") as [He|Hne]; [done|].
  assert (Hd : trimEnd (String c (trimEnd s))
    = if String.eqb (trimStart (String c (trimEnd s))) "" then "" else String c (trimEnd (trimEnd s))) by done.
  rewrite Hd. destruct (String.eqb_spec (trimStart (String c (trimEnd s))) "") as [He'|_]; [|by rewrite IH].
  destruct Hne. rewrite Hs, <- string_app_cons. by rewrite trimStart_blank.
Qed.

Lemma trim_trim s : trim (trim s) = trim s.
Proof.
  unfold trim. destruct (trimEnd_cut (trimStart s)) as (w & Hs & _).
  rewrite (trimStart_cut (trimEnd (trimStart s)) w); [apply trimEnd_twice|].
  rewrite <- Hs. apply trimStart_twice.
Qed.
