(* ===== verification/Keys.v ===== *)
(** * Redis key layout

    Models src/src/cache/keys.ts: the FNV-1a hash of a code, its shard, the
    keys of a link and of a shard's queue, lock and dead letters, and the
    shards a worker owns. *)
From S2P Require Import Prelude JsNum JsString.
Open Scope Z_scope.

Definition LINK_KEY_SHARDS : Z := 1024.
Definition FNV_OFFSET_BASIS : Z := 0x811c9dc5.
Definition FNV_PRIME : Z := 0x01000193.

(** The loop of [fnv1a32] over the UTF-8 bytes. *)
Fixpoint fnv1a_loop (hash : Z) (bytes : list Z) : Z :=
  match bytes with
  | [] => hash
  | byte :: bytes =>
      let hash := js_xor hash byte in
      let hash := js_shr (imul hash FNV_PRIME) 0 in
      fnv1a_loop hash bytes
  end.

Definition fnv1a32 (value : string) : Z :=
  js_shr (fnv1a_loop FNV_OFFSET_BASIS (bytes_of_string value)) 0.

Definition shardOf (code : string) : Z := fnv1a32 code mod LINK_KEY_SHARDS.

Definition shardTag (shard : Z) : result string :=
  if negb (isSafeInteger shard) || (shard <? 0) || (LINK_KEY_SHARDS <=? shard)
  then Throw ("invalid shard " +:+ js_String shard)
  else Return ("{" +:+ padStart (js_String shard) 4 "0" +:+ "}").

Definition linkKey (code : string) : result string :=
  try tag <- shardTag (shardOf code);
  Return ("wraplink:link:" +:+ tag +:+ ":" +:+ code).

Definition syncQueueKey (shard : Z) : result string :=
  try tag <- shardTag shard; Return ("wraplink:sync:queue:" +:+ tag).

Definition syncLockKey (shard : Z) : result string :=
  try tag <- shardTag shard; Return ("wraplink:sync:lock:" +:+ tag).

Definition syncDeadLetterKey (shard : Z) : result string :=
  try tag <- shardTag shard; Return ("wraplink:sync:dead:" +:+ tag).

(** The loop of [shardsForWorker]; [fuel] bounds its iterations, which
    advance [shard] by at least 1. *)
Fixpoint shards_loop (fuel : nat) (shard workerCount : Z) : list Z :=
  match fuel with
  | O => []
  | S fuel =>
      if shard <? LINK_KEY_SHARDS
      then shard :: shards_loop fuel (shard + workerCount) workerCount
      else []
  end.

Definition shardsForWorker (workerIndex workerCount : Z) : result (list Z) :=
  if negb (isSafeInteger workerCount) || (workerCount <? 1)
     || negb (isSafeInteger workerIndex) || (workerIndex <? 0) || (workerCount <=? workerIndex)
  then Throw "worker index must be within [0, workerCount)"
  else Return (shards_loop (Z.to_nat LINK_KEY_SHARDS) workerIndex workerCount).

Definition allShards : result (list Z) := shardsForWorker 0 1.

(** ** Hashing *)

Lemma fnv1a32_u32 value : 0 <= fnv1a32 value < 2 ^ 32.
Proof.
  unfold fnv1a32, js_shr. rewrite Z.shiftr_0_r. apply ToUint32_range.
Qed.

Lemma shardOf_range code : 0 <= shardOf code < LINK_KEY_SHARDS.
Proof. unfold shardOf. by apply Z.mod_pos_bound. Qed.

(** FNV-1a on bytes, as its specification states it: multiplication modulo
    2^32 with no 32-bit sign conversions. *)
Fixpoint fnv1a_reference (hash : Z) (bytes : list Z) : Z :=
  match bytes with
  | [] => hash
  | byte :: bytes => fnv1a_reference ((Z.lxor hash byte * FNV_PRIME) mod 2 ^ 32) bytes
  end.

Lemma fnv1a_step hash byte :
  0 <= hash < 2 ^ 32 -> 0 <= byte < 256 ->
  js_shr (imul (js_xor hash byte) FNV_PRIME) 0 = (Z.lxor hash byte * FNV_PRIME) mod 2 ^ 32.
Proof.
  intros Hh Hb. unfold js_shr, imul, ToUint32. rewrite Z.shiftr_0_r.
  rewrite (ToInt32_mod 32) by lia. rewrite <- Z.mul_mod_idemp_l by done.
  rewrite (js_xor_mod 32) by lia.
  by rewrite (Z.mod_small hash), (Z.mod_small byte) by lia.
Qed.

Lemma fnv1a_loop_reference hash bytes :
  0 <= hash < 2 ^ 32 -> Forall (fun b => 0 <= b < 256) bytes ->
  fnv1a_loop hash bytes = fnv1a_reference hash bytes.
Proof.
  intros Hh Hb. revert hash Hh; induction Hb as [|b bytes Hb _ IH]; intros hash Hh; [done|].
  simpl. rewrite fnv1a_step by done. apply IH. by apply Z.mod_pos_bound.
Qed.

Lemma bytes_of_string_range s : Forall (fun b => 0 <= b < 256) (bytes_of_string s).
Proof. induction s; constructor; [apply byte_of_range|done]. Qed.

Lemma fnv1a_reference_range hash bytes :
  0 <= hash < 2 ^ 32 -> 0 <= fnv1a_reference hash bytes < 2 ^ 32.
Proof.
  revert hash; induction bytes as [|b bytes IH]; intros hash Hh; [done|].
  simpl. apply IH. by apply Z.mod_pos_bound.
Qed.

Lemma fnv1a32_reference value :
  fnv1a32 value = fnv1a_reference FNV_OFFSET_BASIS (bytes_of_string value).
Proof.
  unfold fnv1a32. rewrite fnv1a_loop_reference by (done || apply bytes_of_string_range).
  unfold js_shr, ToUint32. rewrite Z.shiftr_0_r. apply Z.mod_small.
  by apply fnv1a_reference_range.
Qed.

(** ** Keys *)

Lemma isSafeInteger_shard shard : 0 <= shard < LINK_KEY_SHARDS -> isSafeInteger shard = true.
Proof.
  unfold isSafeInteger, MAX_SAFE_INTEGER, LINK_KEY_SHARDS. intros H.
  apply andb_true_iff. rewrite !Z.leb_le. lia.
Qed.

Lemma shardTag_ok shard :
  0 <= shard < LINK_KEY_SHARDS ->
  shardTag shard = Return ("{" +:+ dec_fixed 4 shard +:+ "}").
Proof.
  intros Hs. unfold shardTag. rewrite isSafeInteger_shard by done.
  rewrite (proj2 (Z.ltb_ge _ _)), (proj2 (Z.leb_gt _ _)) by (unfold LINK_KEY_SHARDS in *; lia).
  simpl. rewrite padStart_String; [done|lia|]. unfold LINK_KEY_SHARDS in Hs. simpl. lia.
Qed.

Lemma linkKey_eq code :
  linkKey code = Return ("wraplink:link:{" +:+ dec_fixed 4 (shardOf code) +:+ "}:" +:+ code).
Proof.
  unfold linkKey. by rewrite shardTag_ok by apply shardOf_range.
Qed.

(** The key of a code and the queue, lock and dead-letter keys of a shard, for
    use where the shard is known to be valid. *)
Definition key_of (prefix : string) (shard : Z) : string :=
  "wraplink:" +:+ prefix +:+ ":{" +:+ dec_fixed 4 shard +:+ "}".

Lemma syncQueueKey_eq shard :
  0 <= shard < LINK_KEY_SHARDS -> syncQueueKey shard = Return (key_of "sync:queue" shard).
Proof. intros Hs. unfold syncQueueKey. by rewrite shardTag_ok. Qed.

Lemma syncLockKey_eq shard :
  0 <= shard < LINK_KEY_SHARDS -> syncLockKey shard = Return (key_of "sync:lock" shard).
Proof. intros Hs. unfold syncLockKey. by rewrite shardTag_ok. Qed.

Lemma syncDeadLetterKey_eq shard :
  0 <= shard < LINK_KEY_SHARDS -> syncDeadLetterKey shard = Return (key_of "sync:dead" shard).
Proof. intros Hs. unfold syncDeadLetterKey. by rewrite shardTag_ok. Qed.

Lemma key_of_inj prefix s1 s2 :
  0 <= s1 < LINK_KEY_SHARDS -> 0 <= s2 < LINK_KEY_SHARDS ->
  key_of prefix s1 = key_of prefix s2 -> s1 = s2.
Proof.
  unfold key_of, LINK_KEY_SHARDS. intros H1 H2 Heq.
  do 3 (apply (inj (String.append _)) in Heq).
  apply string_app_inj_l in Heq as [Heq _]; [|by rewrite !dec_fixed_length].
  apply (dec_fixed_inj 4) in Heq; [done|simpl; lia..].
Qed.

(** The four kinds of keys never coincide. *)
Definition queue_key (shard : Z) : string := key_of "sync:queue" shard.
Definition lock_key (shard : Z) : string := key_of "sync:lock" shard.
Definition dead_key (shard : Z) : string := key_of "sync:dead" shard.
Definition link_key (code : string) : string :=
  key_of "link" (shardOf code) +:+ ":" +:+ code.

Lemma key_of_head prefix shard :
  exists t, key_of prefix shard = "wraplink:" +:+ prefix +:+ String ":" t.
Proof. unfold key_of. eexists. do 2 f_equal. Qed.

Lemma head_ne p q t u v :
  p <> "" -> q <> "" -> String.get 0 p <> String.get 0 q ->
  "wraplink:" +:+ v +:+ p +:+ t <> "wraplink:" +:+ v +:+ q +:+ u.
Proof.
  intros Hp Hq Hne Heq. do 2 (apply (inj (String.append _)) in Heq).
  destruct p as [|a p]; [done|]. destruct q as [|b q]; [done|].
  rewrite !string_app_cons in Heq. simpl in Hne. congruence.
Qed.

Lemma link_key_split code : exists t, link_key code = "wraplink:" +:+ "" +:+ "link" +:+ t.
Proof. unfold link_key, key_of. rewrite <- !string_app_assoc. by eexists. Qed.

Lemma link_key_inj c1 c2 : link_key c1 = link_key c2 -> c1 = c2.
Proof.
  unfold link_key, key_of. rewrite <- !string_app_assoc. intros Heq.
  do 3 (apply (inj (String.append _)) in Heq).
  apply string_app_inj_l in Heq as [_ Heq]; [|by rewrite !dec_fixed_length].
  by do 2 (apply (inj (String.append _)) in Heq).
Qed.

Lemma queue_key_split s : exists t, queue_key s = "wraplink:" +:+ "sync:" +:+ "queue" +:+ t.
Proof. by eexists. Qed.

Lemma lock_key_split s : exists t, lock_key s = "wraplink:" +:+ "sync:" +:+ "lock" +:+ t.
Proof. by eexists. Qed.

Lemma dead_key_split s : exists t, dead_key s = "wraplink:" +:+ "sync:" +:+ "dead" +:+ t.
Proof. by eexists. Qed.

Lemma queue_lock_ne s1 s2 : queue_key s1 <> lock_key s2.
Proof.
  destruct (queue_key_split s1) as [t ->], (lock_key_split s2) as [u ->]. by apply head_ne.
Qed.

Lemma queue_dead_ne s1 s2 : queue_key s1 <> dead_key s2.
Proof.
  destruct (queue_key_split s1) as [t ->], (dead_key_split s2) as [u ->]. by apply head_ne.
Qed.

Lemma lock_dead_ne s1 s2 : lock_key s1 <> dead_key s2.
Proof.
  destruct (lock_key_split s1) as [t ->], (dead_key_split s2) as [u ->]. by apply head_ne.
Qed.

Lemma link_sync_ne code t : link_key code <> "wraplink:" +:+ "sync:" +:+ t.
Proof.
  destruct (link_key_split code) as [u ->]. rewrite <- (string_app_nil_l ("sync:" +:+ t)).
  by apply head_ne.
Qed.

Lemma link_queue_ne code s : link_key code <> queue_key s.
Proof. destruct (queue_key_split s) as [t ->]. apply link_sync_ne. Qed.

Lemma link_lock_ne code s : link_key code <> lock_key s.
Proof. destruct (lock_key_split s) as [t ->]. apply link_sync_ne. Qed.

Lemma link_dead_ne code s : link_key code <> dead_key s.
Proof. destruct (dead_key_split s) as [t ->]. apply link_sync_ne. Qed.

Lemma linkKey_ok code : linkKey code = Return (link_key code).
Proof.
  unfold linkKey. rewrite shardTag_ok by apply shardOf_range. done.
Qed.

#[export] Hint Resolve queue_lock_ne queue_dead_ne lock_dead_ne link_queue_ne link_lock_ne
  link_dead_ne not_eq_sym : wraplink.

(** ** Hash slots of Redis Cluster

    The part of a key Redis Cluster hashes: the text between the first opening
    brace and the first closing brace after it, if there is such a text and it
    is not empty; the whole key otherwise. *)
Fixpoint until_brace (s : string) : option string :=
  match s with
  | EmptyString => None
  | String c s =>
      if Ascii.eqb c "}" then Some "" else option_map (String c) (until_brace s)
  end.

Fixpoint after_brace (s : string) : option string :=
  match s with
  | EmptyString => None
  | String c s => if Ascii.eqb c "{" then Some s else after_brace s
  end.

Definition hash_tag (key : string) : string :=
  match after_brace key with
  | Some s => match until_brace s with Some (String c t) => String c t | _ => key end
  | None => key
  end.

(** Documented behaviour of Redis Cluster: the slot depends on the tag only. *)
Definition slot_law (slot : string -> Z) : Prop :=
  forall k1 k2, hash_tag k1 = hash_tag k2 -> slot k1 = slot k2.

Lemma until_brace_digits width n rest :
  0 <= n -> until_brace (dec_fixed width n +:+ String "}" rest) = Some (dec_fixed width n).
Proof.
  assert (Hs : forall s t, string_forallb is_digit s = true ->
    until_brace (s +:+ String "}" t) = Some s).
  { induction s as [|c s IH]; intros t; [done|]. rewrite string_app_cons. simpl.
    intros [Hc Hs]%andb_true_iff. destruct (Ascii.eqb_spec c "}") as [->|]; [done|].
    by rewrite IH. }
  intros Hn. apply Hs. clear Hs. revert n Hn; induction width as [|width IH]; intros n Hn; [done|].
  simpl. rewrite string_forallb_app, IH by (apply Z.div_pos; lia). simpl.
  by rewrite digit_char_digit by (apply Z.mod_pos_bound; lia).
Qed.

Lemma hash_tag_key prefix shard rest :
  after_brace ("wraplink:" +:+ prefix +:+ ":{") = Some "" ->
  0 <= shard ->
  hash_tag ("wraplink:" +:+ prefix +:+ ":{" +:+ dec_fixed 4 shard +:+ "}" +:+ rest)
  = dec_fixed 4 shard.
Proof.
  intros Hp Hs. unfold hash_tag.
  assert (Hafter : forall s t u, after_brace s = Some t -> after_brace (s +:+ u) = Some (t +:+ u)).
  { induction s as [|c s IH]; intros t u; [done|]. rewrite string_app_cons. simpl.
    destruct (Ascii.eqb c "{"); [by intros [= ->]|apply IH]. }
  apply (Hafter _ _ (dec_fixed 4 shard +:+ "}" +:+ rest)) in Hp.
  rewrite <- !string_app_assoc in Hp. rewrite Hp, string_app_nil_l, string_app_char.
  rewrite until_brace_digits by done.
  pose proof (dec_fixed_length 4 shard). by destruct (dec_fixed 4 shard).
Qed.

Lemma hash_tag_key_of prefix shard :
  after_brace ("wraplink:" +:+ prefix +:+ ":{") = Some "" -> 0 <= shard ->
  hash_tag (key_of prefix shard) = dec_fixed 4 shard.
Proof. apply (hash_tag_key prefix shard ""). Qed.

(** ** Properties *)

(** Every key the pipeline touches for a link is on one Redis Cluster
    node: the link's key and the queue, lock and dead-letter keys of its shard
    always exist and have the same hash slot, whatever characters the code
    has. *)
Theorem link_keys_same_slot slot code :
  slot_law slot ->
  exists link queue lock dead,
    linkKey code = Return link /\ syncQueueKey (shardOf code) = Return queue
    /\ syncLockKey (shardOf code) = Return lock
    /\ syncDeadLetterKey (shardOf code) = Return dead
    /\ slot link = slot queue /\ slot lock = slot queue /\ slot dead = slot queue.
Proof.
  intros Hslot. pose proof (shardOf_range code) as Hs.
  rewrite linkKey_eq, syncQueueKey_eq, syncLockKey_eq, syncDeadLetterKey_eq by done.
  do 4 eexists. do 4 (split; [done|]).
  pose proof (hash_tag_key "link" (shardOf code) (":" +:+ code) eq_refl ltac:(lia)) as Hl.
  repeat split; apply Hslot; rewrite ?hash_tag_key_of by (done || lia); done.
Qed.

Lemma shards_loop_spec fuel start n shard :
  0 <= start -> 1 <= n -> LINK_KEY_SHARDS <= start + Z.of_nat fuel ->
  shard ∈ shards_loop fuel start n
  <-> start <= shard < LINK_KEY_SHARDS /\ (n | shard - start).
Proof.
  revert start; induction fuel as [|fuel IH]; intros start H0 Hn Hf; simpl shards_loop.
  - split; [by intros []%not_elem_of_nil|lia].
  - destruct (Z.ltb_spec start LINK_KEY_SHARDS) as [Hlt|Hge]; cycle 1.
    { split; [by intros []%not_elem_of_nil|lia]. }
    rewrite elem_of_cons, IH by lia. split.
    + intros [->|[Hr [q Hq]]]; [split; [lia|exists 0; lia]|].
      split; [lia|]. exists (q + 1). lia.
    + intros [Hr [q Hq]]. destruct (decide (shard = start)) as [->|Hne]; [by left|right].
      assert (1 <= q) by nia. split; [nia|]. exists (q - 1). lia.
Qed.

Lemma shards_loop_sorted fuel start n :
  1 <= n -> NoDup (shards_loop fuel start n)
    /\ Forall (fun s => start <= s) (shards_loop fuel start n).
Proof.
  intros Hn. revert start; induction fuel as [|fuel IH]; intros start; simpl; [by split; constructor|].
  destruct (start <? LINK_KEY_SHARDS); [|by split; constructor].
  destruct (IH (start + n)) as [Hnd Hall]. split.
  - constructor; [|done]. intros Hin. rewrite Forall_forall in Hall. apply Hall in Hin. lia.
  - constructor; [lia|]. eapply Forall_impl; [exact Hall|]. simpl. lia.
Qed.

Definition worker_ok (i n : Z) : Prop := 0 <= i < n /\ n <= MAX_SAFE_INTEGER.

Lemma shardsForWorker_ok i n :
  worker_ok i n -> shardsForWorker i n = Return (shards_loop (Z.to_nat LINK_KEY_SHARDS) i n).
Proof.
  intros [Hi Hn]. unfold shardsForWorker.
  assert (isSafeInteger n = true /\ isSafeInteger i = true) as [-> ->].
  { unfold isSafeInteger, MAX_SAFE_INTEGER in *. rewrite !andb_true_iff, !Z.leb_le. lia. }
  rewrite (proj2 (Z.ltb_ge n 1)), (proj2 (Z.ltb_ge i 0)), (proj2 (Z.leb_gt n i)) by lia. done.
Qed.

Lemma shards_owned n i :
  worker_ok i n ->
  exists owned, shardsForWorker i n = Return owned /\ NoDup owned
    /\ forall shard, shard ∈ owned <-> 0 <= shard < LINK_KEY_SHARDS /\ shard mod n = i.
Proof.
  intros Hok. rewrite shardsForWorker_ok by done. destruct Hok as [Hi _].
  eexists. split; [done|]. split; [apply shards_loop_sorted; lia|]. intros shard.
  rewrite shards_loop_spec by (rewrite ?Z2Nat.id; unfold LINK_KEY_SHARDS; lia).
  split.
  - intros [Hr [q Hq]]. split; [lia|].
    replace shard with (i + q * n) by lia. rewrite Z.mod_add by lia. apply Z.mod_small. lia.
  - intros [Hr <-]. pose proof (Z.mod_le shard n ltac:(lia) ltac:(lia)).
    split; [lia|]. exists (shard / n). pose proof (Z.div_mod shard n ltac:(lia)). lia.
Qed.

(** C34. The workers partition the shards: for any worker count, each of the
    1,024 shards is owned by exactly one worker, no worker owns a shard twice
    or one out of range, and any other index or count throws. *)
Theorem shardsForWorker_partition n :
  (forall i, ~ worker_ok i n ->
     shardsForWorker i n = Throw "worker index must be within [0, workerCount)")
  /\ (forall i, worker_ok i n ->
     exists owned, shardsForWorker i n = Return owned /\ NoDup owned
       /\ forall shard, shard ∈ owned <-> 0 <= shard < LINK_KEY_SHARDS /\ shard mod n = i).
Proof.
  split.
  - intros i Hbad. unfold shardsForWorker.
    destruct (_ || _) eqn:Hg; [done|]. exfalso. apply Hbad. unfold isSafeInteger in Hg. bool_to_prop. split; lia.
  - apply shards_owned.
Qed.

(** The 32-bit operators of [fnv1a32] compute FNV-1a modulo 2^32, keys
    are injective in the code and in the shard, and a shard tag exists exactly
    for the shards 0 to 1023. *)
Theorem keys_well_formed :
  (forall value, fnv1a32 value
     = fnv1a_reference FNV_OFFSET_BASIS (bytes_of_string value) /\ 0 <= fnv1a32 value < 2 ^ 32)
  /\ (forall c1 c2, linkKey c1 = linkKey c2 -> c1 = c2)
  /\ (forall shard, (exists tag, shardTag shard = Return tag) <-> 0 <= shard < LINK_KEY_SHARDS)
  /\ (forall s1 s2, 0 <= s1 < LINK_KEY_SHARDS -> 0 <= s2 < LINK_KEY_SHARDS ->
     syncQueueKey s1 = syncQueueKey s2 -> s1 = s2).
Proof.
  split; [|split; [|split]].
  - intros value. split; [apply fnv1a32_reference|apply fnv1a32_u32].
  - intros c1 c2. rewrite !linkKey_eq. intros Heq%Return_inj.
    apply (inj (String.append _)) in Heq.
    apply string_app_inj_l in Heq as [_ Heq]; [|by rewrite !dec_fixed_length].
    by apply (inj (String.append _)) in Heq.
  - intros shard. split; [|intros Hs; eexists; by apply shardTag_ok].
    intros [tag Ht]. unfold shardTag in Ht. destruct (_ || _) eqn:Hg; [done|].
    bool_to_prop. lia.
  - intros s1 s2 H1 H2. rewrite !syncQueueKey_eq by done.
    intros Heq%Return_inj. by apply key_of_inj in Heq.
Qed.

(** The vectors of test/fixtures/shard-vectors.json. *)
Example shard_vector_docs :
  fnv1a32 "docs" = 686503122 /\ linkKey "docs" = Return "wraplink:link:{0210}:docs".
Proof. split; vm_compute; reflexivity. Qed.

Example shard_vector_alias :
  fnv1a32 "my_custom-alias" = 1610118386
  /\ linkKey "my_custom-alias" = Return "wraplink:link:{0242}:my_custom-alias".
Proof. split; vm_compute; reflexivity. Qed.

(** ** Witnesses *)

Definition toy_slot (key : string) : Z := fnv1a32 (hash_tag key) mod 16384.

Lemma toy_slot_law : slot_law toy_slot.
Proof. intros k1 k2 H. unfold toy_slot. rewrite H. reflexivity. Qed.

Lemma link_keys_same_slot_witness :
  slot_law toy_slot /\ exists link queue lock dead,
    linkKey "docs" = Return link /\ syncQueueKey (shardOf "docs") = Return queue
    /\ syncLockKey (shardOf "docs") = Return lock
    /\ syncDeadLetterKey (shardOf "docs") = Return dead
    /\ toy_slot link = toy_slot queue /\ toy_slot lock = toy_slot queue
    /\ toy_slot dead = toy_slot queue.
Proof. split; [exact toy_slot_law|]. exact (link_keys_same_slot toy_slot "docs" toy_slot_law). Defined.

Lemma shardsForWorker_partition_witness :
  exists owned, shardsForWorker 1 4 = Return owned /\ NoDup owned
    /\ forall shard, shard ∈ owned <-> 0 <= shard < LINK_KEY_SHARDS /\ shard mod 4 = 1.
Proof.
  apply (shardsForWorker_partition 4). split; [lia|]. vm_compute. discriminate.
Defined.

Lemma keys_well_formed_witness :
  fnv1a32 "docs" = fnv1a_reference FNV_OFFSET_BASIS (bytes_of_string "docs")
  /\ 0 <= fnv1a32 "docs" < 2 ^ 32.
Proof. apply keys_well_formed. Defined.
