(* ===== verification/JsDate.v ===== *)
(** * JavaScript dates

    [Date.prototype.toISOString] and [new Date(string)] on time values, the
    milliseconds since 1970-01-01T00:00:00Z. A time value is valid up to
    8.64e15 in absolute value. *)
From S2P Require Import Prelude JsNum JsString.
Open Scope Z_scope.

Definition MAX_TIME : Z := 8640000000000000.

Definition valid_time (t : Z) : bool := (- MAX_TIME <=? t) && (t <=? MAX_TIME).

(** ** The proleptic Gregorian calendar

    Years are counted from March in 400-year eras of 146,097 days; day 0 is
    1970-01-01. *)
Definition days_from_civil (y m d : Z) : Z :=
  let y := if m <=? 2 then y - 1 else y in
  let era := y / 400 in
  let yoe := y mod 400 in
  let mp := if m <=? 2 then m + 9 else m - 3 in
  let doy := (153 * mp + 2) / 5 + d - 1 in
  let doe := yoe * 365 + yoe / 4 - yoe / 100 + doy in
  era * 146097 + doe - 719468.

Definition year_of_era (doe : Z) : Z :=
  (doe - doe / 1460 + doe / 36524 - doe / 146096) / 365.

Definition day_of_year (doe : Z) : Z :=
  let yoe := year_of_era doe in doe - (365 * yoe + yoe / 4 - yoe / 100).

Definition civil_from_days (days : Z) : Z * Z * Z :=
  let z := days + 719468 in
  let era := z / 146097 in
  let doe := z mod 146097 in
  let yoe := year_of_era doe in
  let doy := day_of_year doe in
  let mp := (5 * doy + 2) / 153 in
  let d := doy - (153 * mp + 2) / 5 + 1 in
  let m := if mp <? 10 then mp + 3 else mp - 9 in
  let y := yoe + era * 400 in
  (if m <=? 2 then y + 1 else y, m, d).

Definition MS_PER_DAY : Z := 86400000.

(** The year field: four digits from 0 to 9999, otherwise a sign and six. *)
Definition iso_year (y : Z) : string :=
  if (0 <=? y) && (y <=? 9999) then dec_fixed 4 y
  else if y <? 0 then "-" +:+ dec_fixed 6 (- y) else "+" +:+ dec_fixed 6 y.

Definition iso_time (ms : Z) : string :=
  dec_fixed 2 (ms / 3600000) +:+ ":" +:+ dec_fixed 2 (ms / 60000 mod 60) +:+ ":"
  +:+ dec_fixed 2 (ms / 1000 mod 60) +:+ "." +:+ dec_fixed 3 (ms mod 1000) +:+ "Z".

Definition iso_string (t : Z) : string :=
  let '(y, m, d) := civil_from_days (t / MS_PER_DAY) in
  iso_year y +:+ "-" +:+ dec_fixed 2 m +:+ "-" +:+ dec_fixed 2 d +:+ "T"
  +:+ iso_time (t mod MS_PER_DAY).

Definition toISOString (t : Z) : result string :=
  if valid_time t then Return (iso_string t) else Throw "Invalid time value".

(** ** Reading *)

(** A literal character. *)
Definition expect (c : ascii) (s : string) : option string :=
  match s with
  | String d s => if Ascii.eqb c d then Some s else None
  | EmptyString => None
  end.

Definition read_year (s : string) : option (Z * string) :=
  match s with
  | String c rest =>
      if Ascii.eqb c "-" then
        match read_digits 6 0 rest with Some (y, s) => Some (- y, s) | None => None end
      else if Ascii.eqb c "+" then read_digits 6 0 rest
      else read_digits 4 0 s
  | EmptyString => None
  end.

(** The fields of an ISO string, unchecked. *)
Definition read_iso (s : string) : option Z :=
  '(y, s) ← read_year s; s ← expect "-" s;
  '(m, s) ← read_digits 2 0 s; s ← expect "-" s;
  '(d, s) ← read_digits 2 0 s; s ← expect "T" s;
  '(hh, s) ← read_digits 2 0 s; s ← expect ":" s;
  '(mm, s) ← read_digits 2 0 s; s ← expect ":" s;
  '(ss, s) ← read_digits 2 0 s; s ← expect "." s;
  '(ms, s) ← read_digits 3 0 s; s ← expect "Z" s;
  Some (days_from_civil y m d * MS_PER_DAY + hh * 3600000 + mm * 60000 + ss * 1000 + ms).

(** [new Date(s).getTime()], [None] for NaN. A string that [toISOString]
    produces is read back; ECMAScript leaves most other strings to the
    implementation, so they are the parameter [otherDate]. *)
Definition parseDate (otherDate : string -> option Z) (s : string) : option Z :=
  match read_iso s with
  | Some t => if valid_time t && String.eqb (iso_string t) s then Some t else otherDate s
  | None => otherDate s
  end.

(** ** Round trip *)

Lemma year_of_era_range doe : 0 <= doe < 146097 -> 0 <= year_of_era doe < 400.
Proof.
  intros H. unfold year_of_era. split.
  - apply Z.div_pos; [|lia].
    assert (doe / 1460 <= doe) by (apply Z.div_le_upper_bound; lia).
    assert (0 <= doe / 36524) by (apply Z.div_pos; lia).
    assert (doe / 146096 <= doe / 36524) by (apply Z.div_le_compat_l; lia). lia.
  - apply Z.div_lt_upper_bound; [lia|]. Z.div_mod_to_equations. lia.
Qed.

Lemma day_of_year_range doe : 0 <= doe < 146097 -> 0 <= day_of_year doe <= 365.
Proof.
  intros H. unfold day_of_year, year_of_era. cbv zeta. Z.div_mod_to_equations. lia.
Qed.

Lemma civil_fields days y m d :
  civil_from_days days = (y, m, d) ->
  days_from_civil y m d = days /\ 1 <= m <= 12 /\ 1 <= d <= 31.
Proof.
  unfold civil_from_days. cbv zeta. intros [= <- <- <-].
  set (z := days + 719468). set (doe := z mod 146097).
  assert (Hzd : z = days + 719468) by done.
  assert (Hdoe : 0 <= doe < 146097) by (apply Z.mod_pos_bound; lia).
  pose proof (year_of_era_range doe Hdoe) as Hyoe.
  pose proof (day_of_year_range doe Hdoe) as Hdoy.
  assert (Hdef : doe = 365 * year_of_era doe + year_of_era doe / 4 - year_of_era doe / 100
    + day_of_year doe) by (unfold day_of_year; lia).
  assert (Hz : z = z / 146097 * 146097 + doe)
    by (unfold doe; pose proof (Z.div_mod z 146097 ltac:(done)); lia).
  set (yoe := year_of_era doe) in *. set (doy := day_of_year doe) in *.
  set (mp := (5 * doy + 2) / 153).
  assert (Hmp : 0 <= mp <= 11) by (unfold mp; Z.div_mod_to_equations; lia).
  assert (Hd : 1 <= doy - (153 * mp + 2) / 5 + 1 <= 31)
    by (unfold mp; Z.div_mod_to_equations; lia).
  destruct (Z.ltb_spec mp 10) as [Hlt|Hge].
  - rewrite (proj2 (Z.leb_gt (mp + 3) 2)) by lia. split; [|lia].
    unfold days_from_civil. cbv zeta. rewrite (proj2 (Z.leb_gt (mp + 3) 2)) by lia.
    rewrite Z.div_add, Z.div_small, Z.mod_add, Z.mod_small by lia.
    replace (mp + 3 - 3) with mp by lia. lia.
  - rewrite (proj2 (Z.leb_le (mp - 9) 2)) by lia. split; [|lia].
    unfold days_from_civil. cbv zeta. rewrite (proj2 (Z.leb_le (mp - 9) 2)) by lia.
    replace (yoe + z / 146097 * 400 + 1 - 1) with (yoe + z / 146097 * 400) by lia.
    rewrite Z.div_add, Z.div_small, Z.mod_add, Z.mod_small by lia.
    replace (mp - 9 + 9) with mp by lia. lia.
Qed.

Lemma civil_year_range t y m d :
  valid_time t = true -> civil_from_days (t / MS_PER_DAY) = (y, m, d) -> -999999 < y < 999999.
Proof.
  unfold valid_time, MAX_TIME, MS_PER_DAY, civil_from_days. intros Ht. bool_to_prop.
  cbv zeta. set (z := t / 86400000 + 719468).
  assert (-100000001 + 719468 <= z <= 100000001 + 719468)
    by (unfold z; Z.div_mod_to_equations; lia).
  pose proof (year_of_era_range (z mod 146097) (Z.mod_pos_bound z 146097 ltac:(lia))).
  assert (-1000 <= z / 146097 <= 1000) by (Z.div_mod_to_equations; lia).
  intros [= <- _ _]. destruct (_ <=? _); lia.
Qed.

Lemma expect_app c s : expect c (String c "" +:+ s) = Some s.
Proof. rewrite string_app_char. simpl. by rewrite Ascii.eqb_refl. Qed.

Lemma dec_fixed_head n y rest :
  exists c s, dec_fixed (S n) y +:+ rest = String c s /\ is_digit c = true.
Proof.
  revert y rest; induction n as [|n IH]; intros y rest.
  - simpl. do 2 eexists. split; [done|]. apply digit_char_digit. by apply Z.mod_pos_bound.
  - change (dec_fixed (S (S n)) y)
      with (dec_fixed (S n) (y / 10) +:+ String (digit_char (y mod 10)) "").
    rewrite <- string_app_assoc. apply IH.
Qed.

Lemma read_year_minus s :
  read_year (String "-" s)
  = match read_digits 6 0 s with Some (y, s) => Some (- y, s) | None => None end.
Proof. done. Qed.

Lemma read_year_plus s : read_year (String "+" s) = read_digits 6 0 s.
Proof. done. Qed.

Lemma read_year_iso y rest : -999999 < y < 999999 -> read_year (iso_year y +:+ rest) = Some (y, rest).
Proof.
  intros Hy. unfold iso_year. destruct ((0 <=? y) && (y <=? 9999)) eqn:H4.
  - bool_to_prop. unfold read_year.
    destruct (dec_fixed_head 3 y rest) as (c & s & Heq & Hc). rewrite Heq.
    destruct (Ascii.eqb_spec c "-") as [->|]; [done|].
    destruct (Ascii.eqb_spec c "+") as [->|]; [done|].
    rewrite <- Heq. apply (read_dec_fixed 4). simpl. lia.
  - destruct (Z.ltb_spec y 0).
    + rewrite <- string_app_assoc, string_app_char, read_year_minus, read_dec_fixed
        by (simpl; lia).
      do 2 f_equal. lia.
    + rewrite <- string_app_assoc, string_app_char, read_year_plus.
      apply read_dec_fixed. simpl. lia.
Qed.

Lemma read_iso_string t : valid_time t = true -> read_iso (iso_string t) = Some t.
Proof.
  intros Ht. unfold iso_string.
  destruct (civil_from_days (t / MS_PER_DAY)) as [[y m] d] eqn:Hc.
  pose proof (civil_year_range t y m d Ht Hc) as Hy.
  destruct (civil_fields _ _ _ _ Hc) as (Hdays & Hm & Hd).
  set (ms := t mod MS_PER_DAY).
  assert (Hms : 0 <= ms < 86400000) by (apply Z.mod_pos_bound; done).
  assert (Hh : 0 <= ms / 3600000 < 100) by (Z.div_mod_to_equations; lia).
  assert (Hmin : 0 <= ms / 60000 mod 60 < 60) by (apply Z.mod_pos_bound; lia).
  assert (Hsec : 0 <= ms / 1000 mod 60 < 60) by (apply Z.mod_pos_bound; lia).
  assert (Hmil : 0 <= ms mod 1000 < 1000) by (apply Z.mod_pos_bound; lia).
  unfold read_iso, iso_time. rewrite read_year_iso by done.
  repeat (cbn [mbind option_bind]; first
    [ rewrite expect_app | rewrite (read_dec_fixed 2) by lia | rewrite (read_dec_fixed 3) by lia ]).
  cbn [mbind option_bind]. change (expect "Z" "Z") with (Some ""). cbn [mbind option_bind].
  rewrite Hdays. f_equal.
  assert (Hsum : ms / 3600000 * 3600000 + ms / 60000 mod 60 * 60000
    + ms / 1000 mod 60 * 1000 + ms mod 1000 = ms).
  { clear -Hms. Z.div_mod_to_equations. lia. }
  pose proof (Z.div_mod t MS_PER_DAY ltac:(done)) as Hdm. fold ms in Hdm.
  unfold MS_PER_DAY in *. lia.
Qed.

(** The round trip every record and cache entry relies on. *)
Lemma parseDate_toISOString otherDate t s :
  toISOString t = Return s -> parseDate otherDate s = Some t.
Proof.
  unfold toISOString. destruct (valid_time t) eqn:Ht; [|done]. intros <-%Return_inj.
  unfold parseDate. rewrite read_iso_string by done. by rewrite Ht, String.eqb_refl.
Qed.

Lemma toISOString_inj t1 t2 s : toISOString t1 = Return s -> toISOString t2 = Return s -> t1 = t2.
Proof.
  intros H1%(parseDate_toISOString (fun _ => None)) H2%(parseDate_toISOString (fun _ => None)).
  congruence.
Qed.

Example iso_epoch : toISOString 0 = Return "1970-01-01T00:00:00.000Z".
Proof. vm_compute. reflexivity. Qed.

Example iso_leap_day : toISOString 1709164800123 = Return "2024-02-29T00:00:00.123Z".
Proof. vm_compute. reflexivity. Qed.

Example iso_max : toISOString MAX_TIME = Return "+275760-09-13T00:00:00.000Z".
Proof. vm_compute. reflexivity. Qed.
