(* ===== verification/Json.v ===== *)
(** * JSON

    [JSON.stringify] of strings and [JSON.parse], on the UTF-8 bytes of the
    text. Numbers keep their literal: no modelled code reads one. *)
From S2P Require Import Prelude JsNum JsString.
Open Scope Z_scope.

#[warnings="-register-all"]
Inductive json : Type :=
  | JNull
  | JBool (b : bool)
  | JNumber (literal : string)
  | JString (s : string)
  | JArray (elements : list json)
  | JObject (members : list (string * json)).

Definition DQUOTE : ascii := "034".
Definition BACKSLASH : ascii := "092".

Definition chr (c : ascii) : string := String c "".

(** ** Writing strings: ECMAScript's QuoteJSONString *)

Definition hex_digit (d : Z) : ascii := if d <? 10 then char_of (48 + d) else char_of (87 + d).

Definition quote_char (c : ascii) : string :=
  let b := byte_of c in
  if b =? 34 then String BACKSLASH (chr DQUOTE)
  else if b =? 92 then String BACKSLASH (chr BACKSLASH)
  else if b =? 8 then String BACKSLASH "b"
  else if b =? 9 then String BACKSLASH "t"
  else if b =? 10 then String BACKSLASH "n"
  else if b =? 12 then String BACKSLASH "f"
  else if b =? 13 then String BACKSLASH "r"
  else if b <? 32 then
    String BACKSLASH ("u00" +:+ String (hex_digit (b / 16)) (chr (hex_digit (b mod 16))))
  else chr c.

Fixpoint quote_chars (s : string) : string :=
  match s with
  | EmptyString => ""
  | String c s => quote_char c +:+ quote_chars s
  end.

Definition quote (s : string) : string := String DQUOTE (quote_chars s +:+ chr DQUOTE).

(** [JSON.stringify] of an object whose properties are strings or [null], in
    insertion order. *)
Definition stringify_value (v : option string) : string :=
  match v with Some s => quote s | None => "null" end.

Fixpoint stringify_members (members : list (string * option string)) : string :=
  match members with
  | [] => ""
  | [(k, v)] => quote k +:+ ":" +:+ stringify_value v
  | (k, v) :: members => quote k +:+ ":" +:+ stringify_value v +:+ "," +:+ stringify_members members
  end.

Definition stringify_object (members : list (string * option string)) : string :=
  "{" +:+ stringify_members members +:+ "}".

(** ** Reading strings *)

Definition hex_value (c : ascii) : option Z :=
  let b := byte_of c in
  if is_digit c then Some (b - 48)
  else if (97 <=? b) && (b <=? 102) then Some (b - 87)
  else if (65 <=? b) && (b <=? 70) then Some (b - 55)
  else None.

Definition hex4 (a b c d : ascii) : option Z :=
  match hex_value a, hex_value b, hex_value c, hex_value d with
  | Some a, Some b, Some c, Some d => Some (((a * 16 + b) * 16 + c) * 16 + d)
  | _, _, _, _ => None
  end.

(** A piece of a string literal: a byte, or the UTF-16 unit of an escape. *)
Inductive piece : Type :=
  | Raw (c : ascii)
  | Unit (u : Z).

Definition escape_unit (c : ascii) : option Z :=
  let b := byte_of c in
  if (b =? 34) || (b =? 92) || (b =? 47) then Some b
  else if b =? 98 then Some 8
  else if b =? 102 then Some 12
  else if b =? 110 then Some 10
  else if b =? 114 then Some 13
  else if b =? 116 then Some 9
  else None.

(** The pieces up to the closing quote, and the text after it. *)
Fixpoint read_pieces (s : string) : option (list piece * string) :=
  match s with
  | EmptyString => None
  | String c s =>
      if byte_of c =? 34 then Some ([], s)
      else if byte_of c <? 32 then None
      else if byte_of c =? 92 then
        match s with
        | EmptyString => None
        | String e s =>
            if byte_of e =? 117 then
              match s with
              | String h1 (String h2 (String h3 (String h4 s))) =>
                  match hex4 h1 h2 h3 h4, read_pieces s with
                  | Some u, Some (ps, rest) => Some (Unit u :: ps, rest)
                  | _, _ => None
                  end
              | _ => None
              end
            else
              match escape_unit e, read_pieces s with
              | Some u, Some (ps, rest) => Some (Unit u :: ps, rest)
              | _, _ => None
              end
        end
      else
        match read_pieces s with
        | Some (ps, rest) => Some (Raw c :: ps, rest)
        | None => None
        end
  end.

(** UTF-8 of a code point; a lone surrogate gets its three generalised
    bytes. *)
Definition utf8 (u : Z) : string :=
  if u <? 128 then chr (char_of u)
  else if u <? 2048 then String (char_of (192 + u / 64)) (chr (char_of (128 + u mod 64)))
  else if u <? 65536 then
    String (char_of (224 + u / 4096))
      (String (char_of (128 + u / 64 mod 64)) (chr (char_of (128 + u mod 64))))
  else
    String (char_of (240 + u / 262144))
      (String (char_of (128 + u / 4096 mod 64))
        (String (char_of (128 + u / 64 mod 64)) (chr (char_of (128 + u mod 64))))).

Definition is_high (u : Z) : bool := (55296 <=? u) && (u <=? 56319).
Definition is_low (u : Z) : bool := (56320 <=? u) && (u <=? 57343).

(** Joining the pieces; a high surrogate and the low one after it make one
    code point. *)
Fixpoint join_pieces (ps : list piece) : string :=
  match ps with
  | [] => ""
  | Raw c :: ps => String c (join_pieces ps)
  | Unit u :: ps =>
      match ps with
      | Unit v :: ps' =>
          if is_high u && is_low v
          then utf8 (65536 + (u - 55296) * 1024 + (v - 56320)) +:+ join_pieces ps'
          else utf8 u +:+ join_pieces ps
      | _ => utf8 u +:+ join_pieces ps
      end
  end.

Definition read_string (s : string) : option (string * string) :=
  match read_pieces s with
  | Some (ps, rest) => Some (join_pieces ps, rest)
  | None => None
  end.

(** ** Reading values *)

Definition is_ws (c : ascii) : bool :=
  let b := byte_of c in (b =? 32) || (b =? 9) || (b =? 10) || (b =? 13).

Fixpoint skip_ws (s : string) : string :=
  match s with
  | String c s' => if is_ws c then skip_ws s' else s
  | EmptyString => ""
  end.

(** Maximal run of digits. *)
Fixpoint span_digits (s : string) : string * string :=
  match s with
  | String c s' =>
      if is_digit c then let '(ds, rest) := span_digits s' in (String c ds, rest) else ("", s)
  | EmptyString => ("", "")
  end.

Definition read_sign (s : string) : string * string :=
  match s with
  | String c s' => if (byte_of c =? 43) || (byte_of c =? 45) then (chr c, s') else ("", s)
  | EmptyString => ("", s)
  end.

Definition read_int (s : string) : option (string * string) :=
  match span_digits s with
  | (EmptyString, _) => None
  | (String c ds, rest) =>
      if (byte_of c =? 48) && negb (String.eqb ds "") then None else Some (String c ds, rest)
  end.

(** An optional part introduced by one of the characters [p] accepts, which
    must then contain at least one digit. *)
Definition read_part (p : ascii -> bool) (signed : bool) (s : string) : option (string * string) :=
  match s with
  | String c s' =>
      if p c then
        let '(sg, s') := if signed then read_sign s' else ("", s') in
        match span_digits s' with
        | (EmptyString, _) => None
        | (ds, rest) => Some (String c (sg +:+ ds), rest)
        end
      else Some ("", s)
  | EmptyString => Some ("", "")
  end.

Definition read_number (s : string) : option (string * string) :=
  let '(sg, s) := match s with
                  | String c s' => if byte_of c =? 45 then (chr c, s') else ("", s)
                  | EmptyString => ("", s)
                  end in
  '(i, s) ← read_int s;
  '(f, s) ← read_part (fun c => byte_of c =? 46) false s;
  '(e, s) ← read_part (fun c => (byte_of c =? 101) || (byte_of c =? 69)) true s;
  Some (sg +:+ i +:+ f +:+ e, s).

Fixpoint read_literal (lit s : string) : option string :=
  match lit, s with
  | EmptyString, _ => Some s
  | String c lit, String d s => if Ascii.eqb c d then read_literal lit s else None
  | String _ _, EmptyString => None
  end.

(** Recursive descent; [fuel] bounds the number of nested calls, see
    [parse_fuel_enough]. *)
Fixpoint parse_value (fuel : nat) (s : string) : option (json * string) :=
  match fuel with
  | O => None
  | S fuel =>
      match skip_ws s with
      | EmptyString => None
      | String c s' =>
          let b := byte_of c in
          if b =? 34 then '(str, rest) ← read_string s'; Some (JString str, rest)
          else if b =? 123 then
            match skip_ws s' with
            | String d rest =>
                if byte_of d =? 125 then Some (JObject [], rest)
                else '(ms, rest) ← parse_members fuel s'; Some (JObject ms, rest)
            | EmptyString => None
            end
          else if b =? 91 then
            match skip_ws s' with
            | String d rest =>
                if byte_of d =? 93 then Some (JArray [], rest)
                else '(vs, rest) ← parse_elements fuel s'; Some (JArray vs, rest)
            | EmptyString => None
            end
          else if b =? 110 then rest ← read_literal "ull" s'; Some (JNull, rest)
          else if b =? 116 then rest ← read_literal "rue" s'; Some (JBool true, rest)
          else if b =? 102 then rest ← read_literal "alse" s'; Some (JBool false, rest)
          else '(n, rest) ← read_number (String c s'); Some (JNumber n, rest)
      end
  end
with parse_elements (fuel : nat) (s : string) : option (list json * string) :=
  match fuel with
  | O => None
  | S fuel =>
      '(v, s) ← parse_value fuel s;
      match skip_ws s with
      | String c s =>
          if byte_of c =? 44 then '(vs, rest) ← parse_elements fuel s; Some (v :: vs, rest)
          else if byte_of c =? 93 then Some ([v], s)
          else None
      | EmptyString => None
      end
  end
with parse_members (fuel : nat) (s : string) : option (list (string * json) * string) :=
  match fuel with
  | O => None
  | S fuel =>
      match skip_ws s with
      | String c s =>
          if byte_of c =? 34 then
            '(k, s) ← read_string s;
            match skip_ws s with
            | String c s =>
                if byte_of c =? 58 then
                  '(v, s) ← parse_value fuel s;
                  match skip_ws s with
                  | String c s =>
                      if byte_of c =? 44 then
                        '(ms, rest) ← parse_members fuel s; Some ((k, v) :: ms, rest)
                      else if byte_of c =? 125 then Some ([(k, v)], s)
                      else None
                  | EmptyString => None
                  end
                else None
            | EmptyString => None
            end
          else None
      | EmptyString => None
      end
  end.

(** Each nested call reads a shorter text, or the same text one level
    down. *)
Definition parse_fuel (s : string) : nat := 2 * String.length s + 2.

(** [JSON.parse]: [None] for a SyntaxError. *)
Definition JSON_parse (s : string) : option json :=
  match parse_value (parse_fuel s) s with
  | Some (v, rest) => if String.eqb (skip_ws rest) "" then Some v else None
  | None => None
  end.

(** A property of a parsed object: the last member with the name. *)
Fixpoint property (members : list (string * json)) (name : string) : option json :=
  match members with
  | [] => None
  | (k, v) :: members =>
      match property members name with
      | Some w => Some w
      | None => if String.eqb k name then Some v else None
      end
  end.

(** ** What is read is consumed *)

Ltac len := rewrite ?string_length_app in *; simpl in *; lia.

Lemma skip_ws_le s : (String.length (skip_ws s) <= String.length s)%nat.
Proof. induction s as [|c s IH]; simpl; [done|]. destruct (is_ws c); simpl; lia. Qed.

Lemma read_pieces_lt s ps rest :
  read_pieces s = Some (ps, rest) -> (String.length rest < String.length s)%nat.
Proof.
  remember (String.length s) as n eqn:Hn. revert s ps rest Hn.
  induction n as [n IH] using lt_wf_ind. intros s ps rest ->.
  assert (Hrec : forall t ps' rest', (String.length t < String.length s)%nat ->
    read_pieces t = Some (ps', rest') -> (String.length rest' < String.length s)%nat).
  { intros t ps' rest' Hlt Ht. pose proof (IH _ Hlt t ps' rest' eq_refl Ht). lia. }
  destruct s as [|c s]; simpl; [done|].
  repeat case_match; try done; intros [= <- <-]; simplify_eq; try lia;
    match goal with H : read_pieces ?t = Some (_, ?r) |- _ =>
      specialize (Hrec t _ r ltac:(simpl; lia) H); simpl in *; lia end.
Qed.

Lemma read_string_lt s v rest :
  read_string s = Some (v, rest) -> (String.length rest < String.length s)%nat.
Proof.
  unfold read_string. destruct (read_pieces s) as [[ps r]|] eqn:H; [|done].
  intros [= _ <-]. by eapply read_pieces_lt.
Qed.

Lemma span_digits_le s ds rest :
  span_digits s = (ds, rest) -> String.length s = (String.length ds + String.length rest)%nat.
Proof.
  revert ds rest; induction s as [|c s IH]; intros ds rest; simpl; [by intros [= <- <-]|].
  destruct (is_digit c); [|by intros [= <- <-]].
  destruct (span_digits s) as [ds' rest']. intros [= <- <-]. simpl. by rewrite (IH ds' rest').
Qed.

Lemma read_sign_le s sg rest :
  read_sign s = (sg, rest) -> (String.length rest <= String.length s)%nat.
Proof. destruct s; simpl; [by intros [= _ <-]|]. case_match; intros [= _ <-]; simpl; lia. Qed.

Lemma read_part_le p signed s part rest :
  read_part p signed s = Some (part, rest) -> (String.length rest <= String.length s)%nat.
Proof.
  destruct s as [|c s]; simpl; [by intros [= _ <-]|].
  destruct (p c); [|by intros [= _ <-]].
  destruct (if signed then _ else _) as [sg s'] eqn:Hs.
  assert (String.length s' <= String.length s)%nat.
  { destruct signed; [by eapply read_sign_le|]. by injection Hs as _ <-. }
  destruct (span_digits s') as [[|d ds] r] eqn:Hd; [done|].
  intros [= _ <-]. apply span_digits_le in Hd. lia.
Qed.

Lemma read_number_lt s n rest :
  read_number s = Some (n, rest) -> (String.length rest < String.length s)%nat.
Proof.
  unfold read_number. destruct (match s with EmptyString => _ | String _ _ => _ end) as [sg s0] eqn:Hs.
  assert (String.length s0 <= String.length s)%nat.
  { destruct s; [by injection Hs as _ <-|]. case_match; injection Hs as _ <-; simpl; lia. }
  destruct (read_int s0) as [[i s1]|] eqn:Hi; [|done]. simpl.
  destruct (read_part _ false s1) as [[f s2]|] eqn:Hf; [|done]. simpl.
  destruct (read_part _ true s2) as [[e s3]|] eqn:He; [|done]. simpl.
  intros [= _ <-]. apply read_part_le in Hf, He. unfold read_int in Hi.
  destruct (span_digits s0) as [[|d ds] r] eqn:Hd; [done|].
  apply span_digits_le in Hd. simpl in Hd. case_match; [done|]. injection Hi as _ <-. lia.
Qed.

Lemma read_literal_le lit s rest :
  read_literal lit s = Some rest -> (String.length rest <= String.length s)%nat.
Proof.
  revert s; induction lit as [|c lit IH]; intros s; simpl; [by intros [= <-]|].
  destruct s as [|d s]; [done|]. destruct (Ascii.eqb c d); [|done].
  intros H%IH. simpl. lia.
Qed.

(** The length of what a nested reader leaves, for one text. *)
Definition consumes {A} (s : string) (r : option (A * string)) : Prop :=
  match r with Some (_, rest) => (String.length rest < String.length s)%nat | None => True end.

Lemma consumes_weaken {A} s t (r : option (A * string)) :
  (String.length t <= String.length s)%nat -> consumes t r -> consumes s r.
Proof. unfold consumes. destruct r as [[? ?]|]; [lia|done]. Qed.

Lemma consumes_bind {A B} s (r : option (A * string)) (f : A -> string -> option (B * string)) :
  consumes s r ->
  (forall a rest, (String.length rest < String.length s)%nat -> consumes s (f a rest)) ->
  consumes s ('(a, rest) ← r; f a rest).
Proof. unfold consumes at 1. destruct r as [[a rest]|]; simpl; auto. Qed.

#[local] Arguments skip_ws : simpl never.
#[local] Arguments read_string : simpl never.
#[local] Arguments read_number : simpl never.
#[local] Arguments read_literal : simpl never.

(** The remaining text after white space and one character. *)
Lemma skip_ws_cons s c s' :
  skip_ws s = String c s' -> (String.length s' < String.length s)%nat.
Proof. intros H. pose proof (skip_ws_le s) as Hs. rewrite H in Hs. simpl in Hs. lia. Qed.

Lemma consumes_string s : consumes s (read_string s).
Proof. destruct (read_string s) as [[v r]|] eqn:E; [|done]. by apply read_string_lt in E. Qed.

Lemma consumes_number s : consumes s (read_number s).
Proof. destruct (read_number s) as [[v r]|] eqn:E; [|done]. by apply read_number_lt in E. Qed.

Lemma consumes_literal s lit t (v : json) :
  (String.length t < String.length s)%nat -> consumes s (rest ← read_literal lit t; Some (v, rest)).
Proof.
  intros Ht. destruct (read_literal lit t) as [r|] eqn:E; [|done].
  apply read_literal_le in E. simpl. lia.
Qed.

(** A reader of a shorter text whose result is wrapped. *)
Lemma consumes_wrap {A B} s t (r : option (A * string)) (f : A -> B) :
  (String.length t <= String.length s)%nat -> consumes t r ->
  consumes s ('(a, rest) ← r; Some (f a, rest)).
Proof. unfold consumes. destruct r as [[a rest]|]; simpl; [lia|done]. Qed.

Lemma parse_consumes fuel :
  (forall s, consumes s (parse_value fuel s)) /\ (forall s, consumes s (parse_elements fuel s))
  /\ (forall s, consumes s (parse_members fuel s)).
Proof.
  induction fuel as [|fuel (IHv & IHe & IHm)]; [done|]. split; [|split]; intros s.
  - cbn [parse_value]. destruct (skip_ws s) as [|c s'] eqn:Hs; [done|].
    apply skip_ws_cons in Hs. cbv zeta.
    destruct (byte_of c =? 34); [apply (consumes_wrap _ s'); [lia|apply consumes_string]|].
    destruct (byte_of c =? 123).
    { destruct (skip_ws s') as [|d r] eqn:Hd; [done|]. apply skip_ws_cons in Hd.
      destruct (_ =? _); [simpl; lia|]. apply (consumes_wrap _ s'); [lia|apply IHm]. }
    destruct (byte_of c =? 91).
    { destruct (skip_ws s') as [|d r] eqn:Hd; [done|]. apply skip_ws_cons in Hd.
      destruct (_ =? _); [simpl; lia|]. apply (consumes_wrap _ s'); [lia|apply IHe]. }
    do 3 (destruct (byte_of c =? _); [by apply consumes_literal|]).
    apply (consumes_wrap _ (String c s')); [simpl; lia|apply consumes_number].
  - cbn [parse_elements]. apply consumes_bind; [apply IHv|]. intros v r Hr.
    destruct (skip_ws r) as [|c r'] eqn:Hw; [done|]. apply skip_ws_cons in Hw.
    destruct (byte_of c =? 44); [apply (consumes_wrap _ r'); [lia|apply IHe]|].
    destruct (byte_of c =? 93); [simpl; lia|done].
  - cbn [parse_members]. destruct (skip_ws s) as [|c s'] eqn:Hs; [done|].
    apply skip_ws_cons in Hs. destruct (byte_of c =? 34); [|done].
    apply consumes_bind; [apply (consumes_weaken _ s'); [lia|apply consumes_string]|].
    intros k r Hr. destruct (skip_ws r) as [|c' r'] eqn:Hw; [done|]. apply skip_ws_cons in Hw.
    destruct (byte_of c' =? 58); [|done].
    apply consumes_bind; [apply (consumes_weaken _ r'); [lia|apply IHv]|].
    intros v r2 Hr2. destruct (skip_ws r2) as [|c2 r3] eqn:Hw2; [done|]. apply skip_ws_cons in Hw2.
    destruct (byte_of c2 =? 44); [apply (consumes_wrap _ r3); [lia|apply IHm]|].
    destruct (byte_of c2 =? 125); [simpl; lia|done].
Qed.

(** ** Enough fuel: more than the bound changes nothing *)

Lemma bind_ext {A B} (r1 r2 : option (A * string)) (f1 f2 : A -> string -> option B) s :
  consumes s r1 -> r1 = r2 ->
  (forall a rest, (String.length rest < String.length s)%nat -> f1 a rest = f2 a rest) ->
  ('(a, rest) ← r1; f1 a rest) = ('(a, rest) ← r2; f2 a rest).
Proof. intros Hc <- Hf. destruct r1 as [[a rest]|]; simpl; auto. Qed.

Lemma parse_fuel_stable f1 f2 :
  (forall s, (2 * String.length s + 1 <= f1)%nat -> (2 * String.length s + 1 <= f2)%nat ->
     parse_value f1 s = parse_value f2 s)
  /\ (forall s, (2 * String.length s + 2 <= f1)%nat -> (2 * String.length s + 2 <= f2)%nat ->
     parse_elements f1 s = parse_elements f2 s)
  /\ (forall s, (2 * String.length s + 2 <= f1)%nat -> (2 * String.length s + 2 <= f2)%nat ->
     parse_members f1 s = parse_members f2 s).
Proof.
  revert f2; induction f1 as [|f1 IH]; intros [|f2]; [repeat split; intros; lia..|].
  destruct (IH f2) as (IHv & IHe & IHm). clear IH.
  destruct (parse_consumes f1) as (Cv & Ce & Cm). split; [|split]; intros s H1 H2.
  - cbn [parse_value]. destruct (skip_ws s) as [|c s'] eqn:Hs; [done|]. apply skip_ws_cons in Hs.
    by rewrite IHm, IHe by lia.
  - cbn [parse_elements]. apply (bind_ext _ _ _ _ s); [apply Cv|apply IHv; lia|]. intros v r Hr.
    destruct (skip_ws r) as [|c r'] eqn:Hw; [done|]. apply skip_ws_cons in Hw.
    by rewrite IHe by lia.
  - cbn [parse_members]. destruct (skip_ws s) as [|c s'] eqn:Hs; [done|].
    apply skip_ws_cons in Hs. destruct (byte_of c =? 34); [|done].
    apply (bind_ext _ _ _ _ s'); [apply consumes_string|done|]. intros k r Hr.
    destruct (skip_ws r) as [|c' r'] eqn:Hw; [done|]. apply skip_ws_cons in Hw.
    destruct (byte_of c' =? 58); [|done].
    apply (bind_ext _ _ _ _ r'); [apply Cv|apply IHv; lia|]. intros v r2 Hr2.
    destruct (skip_ws r2) as [|c2 r3] eqn:Hw2; [done|]. apply skip_ws_cons in Hw2.
    by rewrite IHm by lia.
Qed.

(** [JSON_parse] does not depend on its fuel. *)
Lemma parse_fuel_enough s fuel :
  (parse_fuel s <= fuel)%nat -> parse_value fuel s = parse_value (parse_fuel s) s.
Proof. unfold parse_fuel. intros H. apply (parse_fuel_stable fuel); lia. Qed.

(** ** Round trip of strings *)

Definition piece_of (c : ascii) : piece :=
  let b := byte_of c in
  if (b <? 32) || (b =? 34) || (b =? 92) then Unit b else Raw c.

Definition pieces_of (s : string) : list piece := map piece_of (String.list_ascii_of_string s).

Lemma read_quote_char c t :
  read_pieces (quote_char c +:+ t)
  = match read_pieces t with Some (ps, rest) => Some (piece_of c :: ps, rest) | None => None end.
Proof. by destruct c as [[] [] [] [] [] [] [] []]. Qed.

Lemma read_quote_chars s rest :
  read_pieces (quote_chars s +:+ String DQUOTE rest) = Some (pieces_of s, rest).
Proof.
  induction s as [|c s IH]; [done|]. simpl quote_chars.
  by rewrite <- string_app_assoc, read_quote_char, IH.
Qed.

Lemma join_piece c ps :
  (forall u, ~ exists ps', ps = Unit u :: ps' /\ 128 <= u) ->
  join_pieces (piece_of c :: ps) = String c (join_pieces ps).
Proof.
  intros Hps. unfold piece_of. destruct (_ || _) eqn:Hb; [|done].
  assert (Hu : utf8 (byte_of c) = chr c).
  { revert Hb. by destruct c as [[] [] [] [] [] [] [] []]. }
  assert (Hl : byte_of c < 128).
  { apply orb_true_iff in Hb as [[Hb%Z.ltb_lt|Hb%Z.eqb_eq]%orb_true_iff|Hb%Z.eqb_eq]; lia. }
  simpl. destruct ps as [|[d|v] ps]; try by rewrite Hu.
  unfold is_high. rewrite (proj2 (Z.leb_gt 55296 (byte_of c))) by lia. simpl. by rewrite Hu.
Qed.

Lemma join_pieces_of s : join_pieces (pieces_of s) = s.
Proof.
  induction s as [|c s IH]; [done|]. unfold pieces_of in *. simpl map.
  rewrite join_piece; [by rewrite IH|].
  intros u (ps' & Heq & Hu). destruct s as [|d s]; [done|]. simpl in Heq. unfold piece_of in Heq.
  destruct (_ || _) eqn:Hb; [|done]. injection Heq as <- _.
  apply orb_true_iff in Hb as [[Hb%Z.ltb_lt|Hb%Z.eqb_eq]%orb_true_iff|Hb%Z.eqb_eq]; lia.
Qed.

Lemma read_quote s rest : read_string (quote_chars s +:+ String DQUOTE rest) = Some (s, rest).
Proof. unfold read_string. by rewrite read_quote_chars, join_pieces_of. Qed.

(** ** Round trip of objects of strings and nulls *)

Definition json_of (v : option string) : json :=
  match v with Some s => JString s | None => JNull end.

Definition json_member (kv : string * option string) : string * json :=
  (fst kv, json_of (snd kv)).

Lemma skip_ws_char c s : is_ws c = false -> skip_ws (String c s) = String c s.
Proof. unfold skip_ws. by intros ->. Qed.

Lemma quote_app s rest : quote s +:+ rest = String DQUOTE (quote_chars s +:+ String DQUOTE rest).
Proof. unfold quote. rewrite string_app_cons. by rewrite <- string_app_assoc. Qed.

Lemma parse_stringify_value fuel v rest :
  parse_value (S fuel) (stringify_value v +:+ rest) = Some (json_of v, rest).
Proof.
  destruct v as [s|]; simpl stringify_value.
  - rewrite quote_app. cbn [parse_value]. rewrite skip_ws_char by done.
    change (byte_of DQUOTE =? 34) with true. cbv iota zeta. by rewrite read_quote.
  - by destruct rest.
Qed.

Lemma parse_one_member fuel k v c rest :
  is_ws c = false ->
  parse_members (S (S fuel)) (quote k +:+ ":" +:+ stringify_value v +:+ String c rest)
  = if byte_of c =? 44 then
      '(ms, rest) ← parse_members (S fuel) rest; Some ((k, json_of v) :: ms, rest)
    else if byte_of c =? 125 then Some ([(k, json_of v)], rest)
    else None.
Proof.
  intros Hc. rewrite quote_app. remember (S fuel) as f eqn:Hf. cbn [parse_members].
  rewrite skip_ws_char by done. change (byte_of DQUOTE =? 34) with true. cbv iota.
  rewrite read_quote. cbn [mbind option_bind]. rewrite (string_app_char ":").
  rewrite skip_ws_char by done. change (byte_of ":" =? 58) with true. cbv iota.
  rewrite Hf, parse_stringify_value. cbn [mbind option_bind]. by rewrite skip_ws_char.
Qed.

Lemma stringify_members_cons k v kv ms :
  stringify_members ((k, v) :: kv :: ms)
  = quote k +:+ ":" +:+ stringify_value v +:+ "," +:+ stringify_members (kv :: ms).
Proof. done. Qed.

Lemma parse_stringify_members kv ms fuel rest :
  (List.length ms < fuel)%nat ->
  parse_members (S fuel) (stringify_members (kv :: ms) +:+ String "}" rest)
  = Some (map json_member (kv :: ms), rest).
Proof.
  revert kv fuel; induction ms as [|kv' ms IH]; intros [k v] fuel Hf; simpl in Hf.
  - destruct fuel as [|fuel]; [lia|]. simpl stringify_members.
    rewrite <- !string_app_assoc, parse_one_member; done.
  - destruct fuel as [|fuel]; [lia|]. rewrite stringify_members_cons, <- !string_app_assoc.
    rewrite (string_app_char ","), parse_one_member by done.
    change (byte_of "," =? 44) with true. cbv iota. rewrite IH by lia. done.
Qed.

Lemma stringify_members_length ms :
  (List.length ms <= String.length (stringify_members ms))%nat.
Proof.
  induction ms as [|[k v] [|kv ms] IH]; [done|simpl; unfold quote; simpl; lia|].
  rewrite stringify_members_cons, !string_length_app. simpl List.length in *.
  simpl String.length at 1. lia.
Qed.

Lemma parse_stringify_object kv ms :
  JSON_parse (stringify_object (kv :: ms)) = Some (JObject (map json_member (kv :: ms))).
Proof.
  unfold JSON_parse, parse_fuel, stringify_object.
  pose proof (stringify_members_length (kv :: ms)) as Hl.
  rewrite (string_app_char "{"). set (body := stringify_members (kv :: ms) +:+ "}").
  assert (Hb : (List.length (kv :: ms) <= String.length body)%nat)
    by (unfold body; rewrite string_length_app; lia).
  replace (2 * String.length (String "{" body) + 2)%nat
    with (S (S (2 * String.length body + 2))) by (simpl; lia).
  remember (S (2 * String.length body + 2)) as f eqn:Hf. cbn [parse_value].
  rewrite skip_ws_char by done. cbv zeta. change (byte_of "{" =? 34) with false.
  change (byte_of "{" =? 123) with true. cbv iota.
  assert (exists t, body = String DQUOTE t) as [t Ht].
  { unfold body. destruct kv as [k v], ms as [|kv ms];
      [|rewrite stringify_members_cons]; simpl stringify_members;
      rewrite <- !string_app_assoc, quote_app; eauto. }
  rewrite Ht. rewrite skip_ws_char by done. change (byte_of DQUOTE =? 125) with false.
  cbv iota. rewrite <- Ht, Hf. unfold body.
  rewrite parse_stringify_members by (simpl List.length in Hb; fold body; lia). done.
Qed.

Example json_round : JSON_parse (stringify_object [("a", Some "x/y"); ("b", None)])
  = Some (JObject [("a", JString "x/y"); ("b", JNull)]).
Proof. vm_compute. reflexivity. Qed.

Example json_rejects_trailing_comma : JSON_parse "[1,]" = None.
Proof. vm_compute. reflexivity. Qed.
