(* ===== verification/Link.v ===== *)
(** * Links and queue records

    The data of src/src/domain/link.ts, and the records of the write-behind
    queue: [serializePendingLink] and [parsePendingLink] of
    src/src/store/write-behind-link-store.ts. *)
From S2P Require Import Prelude JsNum JsString JsDate Json.
Open Scope Z_scope.

(** Dates are time values; see JsDate.v. *)
Record Link : Type := MkLink {
  code : string;
  targetUrl : string;
  createdAt : Z;
  expiresAt : option Z;
  clicks : Z
}.

Inductive CodeSource : Type := Custom | Generated.

Record CreateLinkInput : Type := {
  in_code : string;
  in_targetUrl : string;
  in_expiresAt : option Z;
  in_codeSource : option CodeSource
}.

Record PendingLink : Type := {
  p_code : string;
  p_targetUrl : string;
  p_createdAt : Z;
  p_expiresAt : option Z
}.

#[export] Instance CodeSource_eq_dec : EqDecision CodeSource.
Proof. solve_decision. Defined.

#[export] Instance Link_eq_dec : EqDecision Link.
Proof. solve_decision. Defined.

#[export] Instance PendingLink_eq_dec : EqDecision PendingLink.
Proof. solve_decision. Defined.

(** [s.length]: UTF-16 units of a string given by its UTF-8 bytes. *)
Fixpoint js_length (s : string) : Z :=
  match s with
  | EmptyString => 0
  | String c s =>
      let b := byte_of c in
      (if (128 <=? b) && (b <=? 191) then 0 else if 240 <=? b then 2 else 1) + js_length s
  end.

(** [/^\[A-Za-z0-9_-\]{4,32}$/.test(s)]. *)
Definition is_code_char (c : ascii) : bool :=
  is_alnum c || (byte_of c =? 95) || (byte_of c =? 45).

Definition CODE_PATTERN (s : string) : bool :=
  string_forallb is_code_char s && (4 <=? String.length s)%nat && (String.length s <=? 32)%nat.

(** [date?.toISOString() ?? null]. *)
Definition isoOrNull (date : option Z) : result (option string) :=
  match date with
  | Some t => try s <- toISOString t; Return (Some s)
  | None => Return None
  end.

Definition serializePendingLink (link : PendingLink) : result string :=
  try created <- toISOString (p_createdAt link);
  try expires <- isoOrNull (p_expiresAt link);
  Return (stringify_object
    [("code", Some (p_code link)); ("targetUrl", Some (p_targetUrl link));
     ("createdAt", Some created); ("expiresAt", expires)]).

Section Parse.
Context (otherDate : string -> option Z).

(** The checks of [parsePendingLink] on the members of the parsed object. *)
Definition pendingOfMembers (members : list (string * json)) : option PendingLink :=
  match property members "code", property members "targetUrl", property members "createdAt" with
  | Some (JString code), Some (JString targetUrl), Some (JString createdAtText) =>
      if negb (CODE_PATTERN code) || (js_length targetUrl =? 0) || (2048 <? js_length targetUrl)
      then None
      else
        match parseDate otherDate createdAtText with
        | None => None
        | Some createdAt =>
            let link e := {| p_code := code; p_targetUrl := targetUrl;
                             p_createdAt := createdAt; p_expiresAt := e |} in
            match property members "expiresAt" with
            | Some JNull => Some (link None)
            | Some (JString expiresAtText) =>
                match parseDate otherDate expiresAtText with
                | Some expiresAt => Some (link (Some expiresAt))
                | None => None
                end
            | _ => None
            end
        end
  | _, _, _ => None
  end.

(** Only an object has the properties: a string, number or boolean fails the
    [typeof] test, [null] the next one, and an array has none of them. *)
Definition parsePendingLink (value : string) : option PendingLink :=
  match JSON_parse value with
  | Some (JObject members) => pendingOfMembers members
  | _ => None
  end.

(** What the queue accepts as a record. *)
Record pending_ok (link : PendingLink) : Prop := {
  ok_code : CODE_PATTERN (p_code link) = true;
  ok_url : 0 < js_length (p_targetUrl link) <= 2048
}.

Lemma js_length_nonneg s : 0 <= js_length s.
Proof. induction s as [|c s IH]; simpl; [done|]. repeat case_match; lia. Qed.

Lemma serialize_members link value :
  serializePendingLink link = Return value ->
  exists created expires,
    toISOString (p_createdAt link) = Return created
    /\ isoOrNull (p_expiresAt link) = Return expires
    /\ JSON_parse value = Some (JObject
        [("code", JString (p_code link)); ("targetUrl", JString (p_targetUrl link));
         ("createdAt", JString created); ("expiresAt", json_of expires)]).
Proof.
  unfold serializePendingLink.
  destruct (toISOString _) as [created|] eqn:Hc; [|done].
  destruct (isoOrNull _) as [expires|] eqn:He; [|done]. cbn [result_bind].
  intros <-%Return_inj. exists created, expires. split; [done|]. split; [done|].
  apply parse_stringify_object.
Qed.

Lemma pending_roundtrip link value :
  pending_ok link -> serializePendingLink link = Return value ->
  parsePendingLink value = Some link.
Proof.
  intros [Hcode Hurl] (created & expires & Hc & He & Hp)%serialize_members.
  unfold parsePendingLink. rewrite Hp. unfold pendingOfMembers. cbn -[CODE_PATTERN js_length parseDate Z.eqb Z.ltb].
  rewrite Hcode, (proj2 (Z.eqb_neq _ _)), (proj2 (Z.ltb_ge _ _)) by lia. cbn [negb orb].
  rewrite (parseDate_toISOString otherDate _ _ Hc).
  destruct link as [c u t e]; simpl in *. unfold isoOrNull in He.
  destruct e as [e|]; [|by injection He as <-].
  destruct (toISOString e) as [es|] eqn:Hes; [|done]. injection He as <-. simpl.
  by rewrite (parseDate_toISOString otherDate _ _ Hes).
Qed.

Lemma parse_pending_ok value link : parsePendingLink value = Some link -> pending_ok link.
Proof.
  unfold parsePendingLink. destruct (JSON_parse value) as [[]|]; try done.
  unfold pendingOfMembers.
  destruct (property members "code") as [[| | |c| |]|]; try done.
  destruct (property members "targetUrl") as [[| | |u| |]|]; try done.
  destruct (property members "createdAt") as [[| | |t| |]|]; try done.
  destruct (_ || _) eqn:Hg; [done|]. bool_to_prop.
  pose proof (js_length_nonneg u) as Hu.
  destruct (parseDate otherDate t); [|done].
  assert (Hok : forall t e, pending_ok {| p_code := c; p_targetUrl := u; p_createdAt := t;
    p_expiresAt := e |}) by (intros; split; simpl; [done|lia]).
  destruct (property members "expiresAt") as [[| | |e| |]|]; try done; [by intros [= <-]|].
  destruct (parseDate otherDate e); [by intros [= <-]|done].
Qed.
End Parse.

(** C35. Queue records round-trip: what [serializePendingLink] writes for a
    link with a well-formed code and a target of 1 to 2,048 characters is read
    back by [parsePendingLink] as the same link, to the millisecond, whatever
    characters the target contains. *)
Theorem pending_link_roundtrip otherDate link value :
  pending_ok link -> serializePendingLink link = Return value ->
  parsePendingLink otherDate value = Some link.
Proof. apply pending_roundtrip. Qed.

(** [parsePendingLink] only accepts well-formed records: a code of the
    pattern, a target of 1 to 2,048 characters. In particular text that is not
    JSON, is not an object, or lacks a field is rejected, not an error. *)
Theorem parsePendingLink_wellformed otherDate value link :
  parsePendingLink otherDate value = Some link ->
  CODE_PATTERN (p_code link) = true /\ 0 < js_length (p_targetUrl link) <= 2048
  /\ exists members, JSON_parse value = Some (JObject members)
     /\ property members "code" = Some (JString (p_code link))
     /\ property members "targetUrl" = Some (JString (p_targetUrl link)).
Proof.
  intros Hp. destruct (parse_pending_ok otherDate value link Hp) as [Hc Hu].
  split; [done|]. split; [done|]. unfold parsePendingLink in Hp.
  destruct (JSON_parse value) as [[]|]; try done. exists members. split; [done|].
  unfold pendingOfMembers in Hp. repeat case_match; try done; simplify_eq; done.
Qed.

(** ** Witnesses *)

Definition no_other_date (s : string) : option Z := None.

Definition demo_pending : PendingLink :=
  {| p_code := "docs"; p_targetUrl := "https://example.com/a?b=\c";
     p_createdAt := 1709164800123; p_expiresAt := Some 1709168400123 |}.

Definition demo_record : string :=
  Eval vm_compute in
    match serializePendingLink demo_pending with Return s => s | Throw _ => "" end.

Lemma demo_pending_ok : pending_ok demo_pending.
Proof. split; vm_compute; [reflexivity|split; [reflexivity|discriminate]]. Qed.

Lemma demo_serialize : serializePendingLink demo_pending = Return demo_record.
Proof. vm_compute. reflexivity. Qed.

Lemma pending_link_roundtrip_witness :
  serializePendingLink demo_pending = Return demo_record
  /\ parsePendingLink no_other_date demo_record = Some demo_pending.
Proof.
  split; [exact demo_serialize|].
  exact (pending_link_roundtrip no_other_date demo_pending demo_record demo_pending_ok
    demo_serialize).
Defined.

Lemma parsePendingLink_wellformed_witness :
  CODE_PATTERN "docs" = true /\ exists members,
    JSON_parse demo_record = Some (JObject members)
    /\ property members "code" = Some (JString "docs").
Proof.
  assert (H : parsePendingLink no_other_date demo_record = Some demo_pending)
    by (vm_compute; reflexivity).
  destruct (parsePendingLink_wellformed no_other_date demo_record demo_pending H)
    as (Hc & _ & members & Hm & Hcode & _).
  split; [exact Hc|]. exists members. split; [exact Hm|exact Hcode].
Defined.
