(* ===== verification/UrlPolicy.v ===== *)
(** * The URL policy

    src/src/security/url-policy.ts: which destinations a link may have. The
    URL parser, [net.isIP] and the DNS are not part of the repository. *)
From S2P Require Import Prelude JsNum JsString Link.
Open Scope Z_scope.

(** ** Addresses *)

(** [/^\d{1,3}$/.test(part)] and [Number(part)]. *)
Definition is_octet_text (part : string) : bool :=
  string_forallb is_digit part && (1 <=? String.length part)%nat && (String.length part <=? 3)%nat.

Definition octet_of (part : string) : option Z :=
  if is_octet_text part then read_decimal 0 part else None.

Definition parseIpv4 (address : string) : option (list Z) :=
  let parts := split_on "." address in
  if negb (List.length parts =? 4)%nat then None
  else
    let octets := octet_of <$> parts in
    if existsb (fun octet => match octet with
                             | None => true
                             | Some octet => (octet <? 0) || (255 <? octet)
                             end) octets
    then None
    else Some (omap id octets).

Definition isUnsafeIpv4 (address : string) : bool :=
  match parseIpv4 address with
  | Some (first :: second :: _) =>
      (first =? 0) || (first =? 10) || (first =? 127)
      || ((first =? 100) && (64 <=? second) && (second <=? 127))
      || ((first =? 169) && (second =? 254))
      || ((first =? 172) && (16 <=? second) && (second <=? 31))
      || ((first =? 192) && (second =? 0))
      || ((first =? 192) && (second =? 168))
      || ((first =? 198) && ((second =? 18) || (second =? 19)))
      || (224 <=? first)
  | _ => true
  end.

Definition normalizeIpv6 (address : string) : string :=
  strip_last "]" (strip_first "[" (before "%" (toLowerCase address))).

Definition hex_value (c : ascii) : option Z :=
  let b := byte_of c in
  if is_digit c then Some (b - 48)
  else if (97 <=? b) && (b <=? 102) then Some (b - 87)
  else if (65 <=? b) && (b <=? 70) then Some (b - 55)
  else None.

(** [Number.parseInt(s, 16)] of a text that starts with no space, sign or 0x:
    the value of its longest prefix of hexadecimal digits, [None] for NaN. *)
Fixpoint hex_prefix (acc : option Z) (s : string) : option Z :=
  match s with
  | EmptyString => acc
  | String c s =>
      match hex_value c with
      | Some d => hex_prefix (Some (default 0 acc * 16 + d)) s
      | None => acc
      end
  end.

Definition parseInt16 (s : string) : option Z := hex_prefix None s.

(** [/^::ffff:(\d{1,3}(?:\.\d{1,3}){3})$/]. *)
Definition mappedIpv4 (normalized : string) : option string :=
  if startsWith normalized "::ffff:" then
    let rest := String.substring 7 (String.length normalized) normalized in
    let parts := split_on "." rest in
    if (List.length parts =? 4)%nat && forallb is_octet_text parts then Some rest else None
  else None.

Definition isUnsafeIpv6 (address : string) : bool :=
  let normalized := normalizeIpv6 address in
  if String.eqb normalized "::" || String.eqb normalized "::1" then true
  else if startsWith normalized "fc" || startsWith normalized "fd" then true
  else
    let firstGroup := before ":" normalized in
    let linkLocal :=
      if String.eqb firstGroup "" then false
      else match parseInt16 firstGroup with
           | Some value => (0xfe80 <=? value) && (value <=? 0xfebf)
           | None => false
           end in
    if linkLocal then true
    else match mappedIpv4 normalized with
         | Some mapped => isUnsafeIpv4 mapped
         | None => false
         end.

Definition isLocalHostname (hostname : string) : bool :=
  let normalized := strip_last "." (toLowerCase hostname) in
  String.eqb normalized "localhost" || endsWith normalized ".localhost" || endsWith normalized ".local".

(** What the program reads of a [URL]. *)
Record URL : Type := {
  protocol : string;
  username : string;
  password : string;
  hostname : string;
  href : string
}.

Section Policy.
(** [net.isIP], [new URL] and the resolver. *)
Context (isIP : string -> Z) (parseURL : string -> option URL) (resolve : string -> result (list string)).

Definition isUnsafeIpAddress (address : string) : bool :=
  let version := isIP address in
  if version =? 4 then isUnsafeIpv4 address
  else if version =? 6 then isUnsafeIpv6 address
  else true.

Definition hostOf (url : URL) : string :=
  strip_last "." (strip_last "]" (strip_first "[" (toLowerCase (hostname url)))).

Definition validate (value : unknown) : option string :=
  match value with
  | Undefined | Integer _ | Other => None
  | Text value =>
      if (js_length value =? 0) || (2048 <? js_length value) then None
      else
        match parseURL value with
        | None => None
        | Some url =>
            if negb (String.eqb (protocol url) "http:") && negb (String.eqb (protocol url) "https:") then None
            else if negb (String.eqb (username url) "") || negb (String.eqb (password url) "") then None
            else
              let host := hostOf url in
              if String.eqb host "" || isLocalHostname host then None
              else if negb (isIP host =? 0) then
                if isUnsafeIpAddress host then None else Some (href url)
              else
                match resolve host with
                | Throw _ => None
                | Return addresses =>
                    if (List.length addresses =? 0)%nat || existsb isUnsafeIpAddress addresses then None
                    else Some (href url)
                end
        end
  end.
End Policy.

(** ** IPv4 blocks *)

Definition octet (n : Z) : Prop := 0 <= n < 256.

Definition dotted (a b c d : Z) : string :=
  js_String a +:+ String "." (js_String b +:+ String "." (js_String c +:+ String "." (js_String d))).

Definition ipv4 (a b c d : Z) : Z := a * 2 ^ 24 + b * 2 ^ 16 + c * 2 ^ 8 + d.

(** An address is in a block when their first [len] bits agree. *)
Definition in_block (ip : Z) (block : Z * Z) : bool :=
  Z.shiftr ip (32 - block.2) =? Z.shiftr block.1 (32 - block.2).

Definition UNSAFE_BLOCKS : list (Z * Z) :=
  [(ipv4 0 0 0 0, 8); (ipv4 10 0 0 0, 8); (ipv4 127 0 0 0, 8); (ipv4 100 64 0 0, 10);
   (ipv4 169 254 0 0, 16); (ipv4 172 16 0 0, 12); (ipv4 192 0 0 0, 16); (ipv4 192 168 0 0, 16);
   (ipv4 198 18 0 0, 15); (ipv4 224 0 0 0, 3)].

(** A boolean property of every integer of a range, by enumeration. *)
Fixpoint all_from (p : Z -> bool) (n : nat) (v : Z) : bool :=
  match n with O => true | S n => p v && all_from p n (v + 1) end.

Lemma all_from_spec p n v w : all_from p n v = true -> v <= w < v + Z.of_nat n -> p w = true.
Proof.
  revert v; induction n as [|n IH]; intros v; cbn [all_from]; [lia|].
  intros [Hp Hn]%andb_true_iff Hw. destruct (decide (w = v)) as [->|]; [done|]. apply (IH (v + 1)); [done|lia].
Qed.

Definition octet_facts (n : Z) : bool :=
  bool_decide (octet_of (js_String n) = Some n)
  && string_forallb (fun d => negb (Ascii.eqb d ".")) (js_String n).

Lemma octet_text n : octet n ->
  octet_of (js_String n) = Some n
  /\ string_forallb (fun d => negb (Ascii.eqb d ".")) (js_String n) = true.
Proof.
  intros Hn. assert (Hall : octet_facts n = true).
  { apply (all_from_spec _ 256 0); [vm_compute; reflexivity|unfold octet in Hn; lia]. }
  by apply andb_true_iff in Hall as [H1%bool_decide_eq_true H2].
Qed.

Lemma parse_dotted a b c d :
  octet a -> octet b -> octet c -> octet d -> parseIpv4 (dotted a b c d) = Some [a; b; c; d].
Proof.
  intros Ha Hb Hc Hd. unfold parseIpv4, dotted.
  destruct (octet_text a Ha) as [Oa Sa], (octet_text b Hb) as [Ob Sb], (octet_text c Hc) as [Oc Sc],
    (octet_text d Hd) as [Od Sd].
  rewrite !split_on_part, split_on_last by done. cbn [List.length Nat.eqb negb fmap list_fmap].
  rewrite Oa, Ob, Oc, Od. unfold octet in *. cbn [existsb].
  assert (Hr : forall n, 0 <= n < 256 -> (n <? 0) || (255 <? n) = false).
  { intros n Hn. apply orb_false_iff. rewrite !Z.ltb_ge. lia. }
  by rewrite !Hr by done.
Qed.

(** The blocks are told apart by the first two octets. *)
Lemma first_bits a b c d base len :
  octet c -> octet d -> 0 <= len <= 16 ->
  in_block (ipv4 a b c d) (base, len)
  = ((a * 256 + b) / 2 ^ (16 - len) =? Z.shiftr base (32 - len)).
Proof.
  intros Hc Hd Hl. unfold in_block. cbn [fst snd]. f_equal. rewrite Z.shiftr_div_pow2 by lia.
  replace (32 - len) with (16 + (16 - len)) by lia. rewrite Z.pow_add_r, <- Z.div_div by lia. f_equal.
  unfold ipv4, octet in *. change (2 ^ 24) with 16777216. change (2 ^ 16) with 65536. change (2 ^ 8) with 256.
  Z.div_mod_to_equations. lia.
Qed.

Ltac block_test :=
  repeat match goal with
  | |- context [Z.shiftr ?x ?k] => let v := eval vm_compute in (Z.shiftr x k) in change (Z.shiftr x k) with v
  | |- context [2 ^ ?k] => let v := eval vm_compute in (2 ^ k) in change (2 ^ k) with v
  end;
  apply eq_true_iff_eq; rewrite ?andb_true_iff, ?orb_true_iff, ?Z.eqb_eq, ?Z.leb_le;
  Z.div_mod_to_equations; lia.

Lemma isUnsafeIpv4_reserved a b c d :
  octet a -> octet b -> octet c -> octet d ->
  isUnsafeIpv4 (dotted a b c d) = existsb (in_block (ipv4 a b c d)) UNSAFE_BLOCKS.
Proof.
  intros Ha Hb Hc Hd.
  unfold isUnsafeIpv4. rewrite parse_dotted by done. unfold UNSAFE_BLOCKS. cbn [existsb].
  rewrite !first_bits by (done || lia). unfold octet in *. rewrite orb_false_r, !orb_assoc.
  repeat apply (f_equal2 orb); block_test.
Qed.

(** C37. [isUnsafeIpv4] is membership in the reserved blocks: for every
    address, the comparisons on its first two octets decide exactly whether it
    lies in 0/8, 10/8, 127/8, 100.64/10, 169.254/16, 172.16/12, 192.0/16,
    192.168/16, 198.18/15 or 224/3; and a text that is no address at all counts
    as unsafe. *)
Theorem isUnsafeIpv4_blocks a b c d :
  octet a -> octet b -> octet c -> octet d ->
  isUnsafeIpv4 (dotted a b c d) = existsb (in_block (ipv4 a b c d)) UNSAFE_BLOCKS
  /\ forall text, parseIpv4 text = None -> isUnsafeIpv4 text = true.
Proof.
  intros Ha Hb Hc Hd. split; [by apply isUnsafeIpv4_reserved|].
  intros text Ht. unfold isUnsafeIpv4. by rewrite Ht.
Qed.

(** ** IPv6 *)

Definition hex_digit (d : Z) : ascii := if d <? 10 then char_of (48 + d) else char_of (87 + d).

(** A group of an address: up to four hexadecimal digits, no leading zero. *)
Definition hex_text (v : Z) : string :=
  let s := String (hex_digit (v mod 16)) "" in
  if v <? 16 then s
  else
    let s := String (hex_digit (v / 16 mod 16)) s in
    if v <? 256 then s
    else
      let s := String (hex_digit (v / 256 mod 16)) s in
      if v <? 4096 then s else String (hex_digit (v / 4096)) s.

Definition group (v : Z) : Prop := 0 <= v < 65536.

(** fc00::/7, unique local, and fe80::/10, link local, by the first group. *)
Definition unique_local (v : Z) : bool := Z.shiftr v 9 =? 0x7e.
Definition link_local (v : Z) : bool := Z.shiftr v 6 =? 0x3fa.
(** First groups that merely begin with the letters: fc, fd and fc0 to fdf. *)
Definition looks_unique_local (v : Z) : bool := (Z.shiftr v 1 =? 0x7e) || (Z.shiftr v 5 =? 0x7e).

(** The characters of an address text, in lower case. *)
Definition address_char (c : ascii) : bool :=
  is_digit c || ((97 <=? byte_of c) && (byte_of c <=? 102)) || Ascii.eqb c ":" || Ascii.eqb c ".".

(** *** Single digits, by enumeration *)
Definition digit_facts (d : Z) : bool :=
  bool_decide (hex_value (hex_digit d) = Some d)
  && Bool.eqb (Ascii.eqb "f" (hex_digit d)) (d =? 15) && Bool.eqb (Ascii.eqb "c" (hex_digit d)) (d =? 12)
  && Bool.eqb (Ascii.eqb "d" (hex_digit d)) (d =? 13)
  && Ascii.eqb (lower_char (hex_digit d)) (hex_digit d) && address_char (hex_digit d).

Lemma digit_facts_hold d : 0 <= d < 16 ->
  hex_value (hex_digit d) = Some d
  /\ Ascii.eqb "f" (hex_digit d) = (d =? 15) /\ Ascii.eqb "c" (hex_digit d) = (d =? 12)
  /\ Ascii.eqb "d" (hex_digit d) = (d =? 13) /\ lower_char (hex_digit d) = hex_digit d
  /\ address_char (hex_digit d) = true.
Proof.
  intros Hd. assert (Hall : digit_facts d = true) by (by apply (all_from_spec _ 16 0)).
  unfold digit_facts in Hall.
  rewrite !andb_true_iff, !eqb_true_iff, bool_decide_eq_true, Ascii.eqb_eq in Hall.
  by destruct Hall as [[[[[]]]]].
Qed.

Ltac digit_bound := Z.div_mod_to_equations; lia.
Ltac know_digits :=
  repeat match goal with
  | |- context [hex_digit ?d] =>
      lazymatch goal with
      | _ : hex_value (hex_digit d) = _ |- _ => fail
      | _ => let H := fresh in
             assert (H : 0 <= d < 16) by digit_bound; apply digit_facts_hold in H as (?&?&?&?&?&?)
      end
  end.
Ltac by_length v :=
  unfold group in *; unfold hex_text;
  destruct (Z.ltb_spec v 16); [|destruct (Z.ltb_spec v 256); [|destruct (Z.ltb_spec v 4096)]]; know_digits.

Lemma parseInt16_group v : group v -> parseInt16 (hex_text v) = Some v.
Proof.
  intros Hv. unfold parseInt16. by_length v;
    repeat (cbn [hex_prefix default from_option id]; match goal with H : hex_value _ = _ |- _ => rewrite H; clear H end);
    cbn [hex_prefix default from_option id]; f_equal; digit_bound.
Qed.

Lemma lower_group v : group v -> toLowerCase (hex_text v) = hex_text v.
Proof. intros Hv. by_length v; cbn [toLowerCase]; congruence. Qed.

Lemma group_unique_local v :
  group v -> startsWith (hex_text v) "fc" || startsWith (hex_text v) "fd" = unique_local v || looks_unique_local v.
Proof.
  intros Hv. unfold unique_local, looks_unique_local. rewrite !Z.shiftr_div_pow2 by lia.
  by_length v; cbn [startsWith];
    repeat match goal with H : Ascii.eqb _ (hex_digit _) = _ |- _ => rewrite ?H; clear H end;
    apply eq_true_iff_eq; rewrite ?orb_true_iff, ?andb_true_iff, ?Z.eqb_eq;
    change (2 ^ 9) with 512; change (2 ^ 1) with 2; change (2 ^ 5) with 32.
  all: try digit_bound.
Qed.

Lemma startsWith_before c s p :
  string_forallb (fun d => negb (Ascii.eqb d c)) p = true -> startsWith s p = startsWith (before c s) p.
Proof.
  revert s; induction p as [|d p IH]; intros s Hp; [done|].
  cbn [string_forallb] in Hp. apply andb_true_iff in Hp as [Hd Hp].
  destruct s as [|e s]; [done|]. cbn [before]. destruct (Ascii.eqb_spec e c) as [->|Hne].
  - cbn [startsWith]. apply negb_true_iff in Hd. by rewrite Hd.
  - cbn [startsWith]. by rewrite (IH s Hp).
Qed.

Lemma hex_text_nonempty v : group v -> hex_text v <> "".
Proof. intros Hv He. pose proof (parseInt16_group v Hv) as Hp. by rewrite He in Hp. Qed.

Lemma isUnsafeIpv6_first_group address v :
  group v -> before ":" (normalizeIpv6 address) = hex_text v ->
  isUnsafeIpv6 address = unique_local v || looks_unique_local v || link_local v.
Proof.
  intros Hv Hg. unfold isUnsafeIpv6. cbv zeta. set (normalized := normalizeIpv6 address) in *.
  pose proof (hex_text_nonempty v Hv) as Hne.
  assert (Hhead : forall s, before ":" (":" +:+ s) <> before ":" normalized).
  { intros s. rewrite Hg, string_app_cons. cbn [before]. rewrite Ascii.eqb_refl. congruence. }
  assert (Hc : forall t, normalized <> ":" +:+ t) by (intros t He; apply (Hhead t); by rewrite He).
  rewrite (proj2 (String.eqb_neq normalized "::")) by (apply (Hc ":")).
  rewrite (proj2 (String.eqb_neq normalized "::1")) by (apply (Hc ":1")).
  cbn [orb]. rewrite !(startsWith_before ":" normalized), Hg, group_unique_local by done.
  destruct (unique_local v || looks_unique_local v); [done|].
  rewrite (proj2 (String.eqb_neq _ "")), parseInt16_group by done.
  assert (Hll : (0xfe80 <=? v) && (v <=? 0xfebf) = link_local v).
  { unfold link_local. rewrite Z.shiftr_div_pow2 by lia. change (2 ^ 6) with 64. unfold group in Hv.
    apply eq_true_iff_eq. rewrite andb_true_iff, !Z.leb_le, Z.eqb_eq. digit_bound. }
  rewrite Hll. cbn [orb]. destruct (link_local v); [done|].
  unfold mappedIpv4. destruct normalized as [|c t]; [done|]. 
  destruct (Ascii.eqb_spec ":" c) as [<-|Hnc]; [by destruct (Hc t)|].
  cbn [startsWith]. by rewrite (proj2 (Ascii.eqb_neq _ _) Hnc).
Qed.

(** [isUnsafeIpv6] on every address whose first group is not zero: it is
    unsafe exactly when the group lies in fc00::/7 (unique local), in fe80::/10
    (link local), or is one of the short groups fc, fd and fc0 to fdf that only
    begin with the same letters; whatever the rest, the zone or the case. In
    particular no unique-local or link-local address is ever let through. *)
Theorem isUnsafeIpv6_blocks address v :
  group v -> before ":" (normalizeIpv6 address) = hex_text v ->
  isUnsafeIpv6 address = unique_local v || looks_unique_local v || link_local v.
Proof. apply isUnsafeIpv6_first_group. Qed.

(** ** IPv4 inside IPv6 *)

Lemma address_char_plain c : address_char c = true ->
  lower_char c = c /\ Ascii.eqb c "%" = false /\ Ascii.eqb c "[" = false /\ Ascii.eqb c "]" = false.
Proof. by destruct c as [[] [] [] [] [] [] [] []]. Qed.

Lemma normalize_address s : string_forallb address_char s = true -> normalizeIpv6 s = s.
Proof.
  intros Hs. unfold normalizeIpv6.
  assert (H1 : toLowerCase s = s /\ before "%" s = s /\ strip_last "]" s = s).
  { induction s as [|c s IH]; [done|]. cbn [string_forallb] in Hs. apply andb_true_iff in Hs as [Hc Hs].
    destruct (address_char_plain c Hc) as (L & P & _ & B). destruct (IH Hs) as (I1 & I2 & I3).
    cbn [toLowerCase before strip_last]. rewrite L, P, I1, I2. split_and!; [done..|].
    destruct s; [by rewrite B|]. by rewrite I3. }
  destruct H1 as (-> & -> & H1). destruct s as [|c s]; [done|].
  cbn [string_forallb] in Hs. apply andb_true_iff in Hs as [Hc Hs].
  destruct (address_char_plain c Hc) as (_ & _ & O & _). cbn [strip_first]. by rewrite O.
Qed.

Lemma octet_address n : octet n -> string_forallb address_char (js_String n) = true.
Proof.
  intros Hn. apply (all_from_spec (fun n => string_forallb address_char (js_String n)) 256 0);
    [vm_compute; reflexivity|unfold octet in Hn; lia].
Qed.

Lemma group_address v : group v -> string_forallb address_char (hex_text v) = true.
Proof.
  intros Hv. by_length v; cbn [string_forallb];
    by repeat match goal with H : address_char _ = true |- _ => rewrite H; clear H end.
Qed.

Lemma group_no_dot v : group v ->
  string_forallb (fun d => negb (Ascii.eqb d ".")) (hex_text v) = true.
Proof.
  intros Hv. assert (Hd : forall c, hex_value c <> None -> Ascii.eqb c "." = false)
    by by intros [[] [] [] [] [] [] [] []].
  by_length v; cbn [string_forallb]; by rewrite !Hd by congruence.
Qed.

Lemma substring_whole t n : (String.length t <= n)%nat -> String.substring 0 n t = t.
Proof.
  revert n; induction t as [|c t IH]; intros [|n] Hn; simpl in *; try done; [lia|]. by rewrite IH by lia.
Qed.

(** What [isUnsafeIpv6] does with ::ffff: and the rest. *)
Lemma mapped_text t :
  string_forallb address_char t = true ->
  isUnsafeIpv6 ("::ffff:" +:+ t)
  = (let parts := split_on "." t in
     if (List.length parts =? 4)%nat && forallb is_octet_text parts then isUnsafeIpv4 t else false).
Proof.
  intros Ht. unfold isUnsafeIpv6. rewrite normalize_address
    by (rewrite string_forallb_app, Ht; reflexivity).
  rewrite !string_app_cons, string_app_nil_l. cbn [String.eqb Ascii.eqb Bool.eqb orb startsWith before].
  change (String.eqb "" "") with true. cbv iota. unfold mappedIpv4.
  cbn [startsWith Ascii.eqb Bool.eqb String.length String.substring]. cbv beta iota zeta.
  rewrite substring_whole by lia. cbn [andb orb]. by destruct (_ && _).
Qed.

Lemma mapped_dotted a b c d :
  octet a -> octet b -> octet c -> octet d ->
  isUnsafeIpv6 ("::ffff:" +:+ dotted a b c d) = isUnsafeIpv4 (dotted a b c d).
Proof.
  intros Ha Hb Hc Hd. rewrite mapped_text.
  - destruct (octet_text a Ha) as [Oa Sa], (octet_text b Hb) as [Ob Sb], (octet_text c Hc) as [Oc Sc],
      (octet_text d Hd) as [Od Sd].
    unfold dotted at 1. rewrite !split_on_part, split_on_last by done. cbv zeta.
    assert (Ho : forall n, octet_of (js_String n) = Some n -> is_octet_text (js_String n) = true)
      by (intros n; unfold octet_of; by destruct (is_octet_text _)).
    cbn [List.length Nat.eqb forallb]. by rewrite !Ho by done.
  - unfold dotted. repeat (rewrite ?string_forallb_app; cbn [string_forallb]).
    by rewrite !octet_address by done.
Qed.

(** C38. IPv4 addresses written inside IPv6: after ::ffff: a dotted address is
    judged as that address; but the same address in hexadecimal, the form in
    which the URL parser writes it, is never unsafe. *)
Theorem mapped_ipv4 a b c d :
  octet a -> octet b -> octet c -> octet d ->
  isUnsafeIpv6 ("::ffff:" +:+ dotted a b c d) = isUnsafeIpv4 (dotted a b c d)
  /\ isUnsafeIpv6 ("::ffff:" +:+ (hex_text (a * 256 + b) +:+ String ":" (hex_text (c * 256 + d)))) = false.
Proof.
  intros Ha Hb Hc Hd. split; [by apply mapped_dotted|].
  - assert (group (a * 256 + b) /\ group (c * 256 + d)) as [H1 H2] by (unfold group, octet in *; lia).
    rewrite mapped_text.
    + rewrite split_on_last; [done|].
      rewrite string_forallb_app. cbn [string_forallb]. by rewrite !group_no_dot by done.
    + rewrite string_forallb_app. cbn [string_forallb]. by rewrite !group_address by done.
Qed.

(** ** The value of an IPv6 text

    What an address is, whatever the code makes of its text (RFC 4291, 2.2):
    eight groups of one to four hexadecimal digits, where [::] stands for zeros
    and the last two groups may be a dotted IPv4 address. *)
Fixpoint hex_number (acc : Z) (s : string) : option Z :=
  match s with
  | EmptyString => Some acc
  | String c s => d ← hex_value c; hex_number (acc * 16 + d) s
  end.

Definition group_of (text : string) : option Z :=
  if (1 <=? String.length text)%nat && (String.length text <=? 4)%nat then hex_number 0 text else None.

Definition dotted_groups (text : string) : option (list Z) :=
  match mapM octet_of (split_on "." text) with
  | Some [a; b; c; d] =>
      if forallb (fun n => n <? 256) [a; b; c; d] then Some [a * 256 + b; c * 256 + d] else None
  | _ => None
  end.

Fixpoint tail_groups (parts : list string) : option (list Z) :=
  match parts with
  | [] => Some []
  | [part] => match group_of part with Some g => Some [g] | None => dotted_groups part end
  | part :: parts => g ← group_of part; gs ← tail_groups parts; Some (g :: gs)
  end.

(** The texts around the first [::]. *)
Fixpoint cut (s : string) : option (string * string) :=
  match s with
  | EmptyString => None
  | String c t =>
      if Ascii.eqb c ":" && startsWith t ":" then Some ("", strip_first ":" t)
      else '(l, r) ← cut t; Some (String c l, r)
  end.

Definition groups_or_none (parse : list string -> option (list Z)) (s : string) : option (list Z) :=
  if String.eqb s "" then Some [] else parse (split_on ":" s).

Definition ip6_groups (s : string) : option (list Z) :=
  match cut s with
  | None => gs ← tail_groups (split_on ":" s); if (List.length gs =? 8)%nat then Some gs else None
  | Some (l, r) =>
      left ← groups_or_none (mapM group_of) l; right ← groups_or_none tail_groups r;
      if (List.length left + List.length right <=? 7)%nat
      then Some (left ++ replicate (8 - (List.length left + List.length right)) 0 ++ right) else None
  end.

Definition ip6 (groups : list Z) : Z := fold_left (fun acc g => acc * 65536 + g) groups 0.

(** An address is under a prefix when their first [len] bits agree. *)
Definition under (ip : Z) (prefix : Z * Z) : bool :=
  Z.shiftr ip (128 - prefix.2) =? Z.shiftr prefix.1 (128 - prefix.2).

Definition UNSPECIFIED : Z * Z := (ip6 [0; 0; 0; 0; 0; 0; 0; 0], 128).
Definition LOOPBACK : Z * Z := (ip6 [0; 0; 0; 0; 0; 0; 0; 1], 128).
Definition UNIQUE_LOCAL : Z * Z := (ip6 [0xfc00; 0; 0; 0; 0; 0; 0; 0], 7).
Definition LINK_LOCAL : Z * Z := (ip6 [0xfe80; 0; 0; 0; 0; 0; 0; 0], 10).
Definition MULTICAST : Z * Z := (ip6 [0xff00; 0; 0; 0; 0; 0; 0; 0], 8).
Definition IPV4_MAPPED : Z * Z := (ip6 [0; 0; 0; 0; 0; 0xffff; 0; 0], 96).

Definition UNSAFE_PREFIXES : list (Z * Z) :=
  [UNSPECIFIED; LOOPBACK; UNIQUE_LOCAL; LINK_LOCAL; MULTICAST; IPV4_MAPPED].

Example ip6_compressed : ip6_groups "2001:db8::7f00:1" = Some [0x2001; 0xdb8; 0; 0; 0; 0; 0x7f00; 1].
Proof. vm_compute. reflexivity. Qed.
Example ip6_dotted : ip6_groups "::ffff:127.0.0.1" = ip6_groups "::ffff:7f00:1".
Proof. vm_compute. reflexivity. Qed.
Example ip6_long : ip6_groups "0:0:0:0:0:0:0:1" = ip6_groups "::1" /\ ip6_groups "1:2:3" = None /\ ip6_groups "1::2::3" = None.
Proof. vm_compute. by split_and!. Qed.

(** *** Its first group *)
Lemma hex_value_range c d : hex_value c = Some d -> 0 <= d < 16.
Proof.
  destruct c as [[] [] [] [] [] [] [] []]; intros Hc; vm_compute in Hc; (discriminate Hc || (injection Hc as <-; lia)).
Qed.

Lemma hex_number_prefix s acc v : hex_number acc s = Some v -> hex_prefix (Some acc) s = Some v.
Proof.
  revert acc; induction s as [|c s IH]; intros acc; cbn [hex_number hex_prefix]; [done|].
  destruct (hex_value c) as [d|]; [|done]. cbn [default from_option id]. apply IH.
Qed.

Lemma group_of_parse t v : group_of t = Some v -> parseInt16 t = Some v /\ t <> "".
Proof.
  unfold group_of, parseInt16. destruct t as [|c t]; [done|]. destruct (_ && _); [|done].
  cbn [hex_number hex_prefix]. destruct (hex_value c) as [d|]; [|done]. cbn. intros Hv.
  split; [by apply hex_number_prefix|done].
Qed.

(** The digits of a group. *)
Lemma group_of_digits t v : group_of t = Some v ->
  group v /\ (4096 <= v -> exists c1 c2 d1 d2 rest, t = String c1 (String c2 rest)
    /\ hex_value c1 = Some d1 /\ hex_value c2 = Some d2 /\ v / 256 = d1 * 16 + d2).
Proof.
  unfold group_of, group. destruct (_ && _) eqn:Hlen; [|done]. apply andb_true_iff in Hlen as [_ Hlen%Nat.leb_le].
  intros Hv. destruct t as [|? [|? [|? [|? [|? t]]]]]; cbn [String.length] in Hlen; try lia; clear Hlen;
    cbn [hex_number] in Hv;
    repeat match type of Hv with
    | context [hex_value ?c] =>
        let d := fresh "d" in let Hd := fresh "Hd" in
        destruct (hex_value c) as [d|] eqn:Hd; cbn [mbind option_bind] in Hv; [|discriminate Hv];
        pose proof (hex_value_range _ _ Hd)
    end; injection Hv as <-; (split; [lia|]); intros Hbig; try lia.
  do 5 eexists. split_and!; [done..|]. Z.div_mod_to_equations. lia.
Qed.

Lemma dotted_groups_range t gs : dotted_groups t = Some gs -> Forall group gs.
Proof.
  unfold dotted_groups. destruct (mapM _ _) as [l|] eqn:Hm; [|done]. apply mapM_Some in Hm.
  destruct l as [|a [|b [|c [|d [|]]]]]; try done. destruct (forallb _ _) eqn:Hall; [|done]. intros [= <-].
  assert (Hpos : Forall (fun n => 0 <= n) [a; b; c; d]).
  { clear Hall. induction Hm as [|p n ps l Hp _ IH]; [apply Forall_nil_2|]. apply Forall_cons. split; [|done].
    unfold octet_of in Hp. destruct (is_octet_text p); [|done]. by apply read_decimal_nonneg in Hp. }
  cbn [forallb] in Hall. rewrite !andb_true_iff, !Z.ltb_lt in Hall. rewrite !Forall_cons in Hpos. unfold group.
  repeat (apply Forall_cons; split; [lia|]). apply Forall_nil_2.
Qed.

Lemma tail_groups_range parts gs : tail_groups parts = Some gs -> Forall group gs.
Proof.
  revert gs; induction parts as [|part parts IH]; intros gs Hg; [injection Hg as <-; apply Forall_nil_2|].
  destruct parts as [|part' parts].
  - cbn [tail_groups] in Hg. destruct (group_of part) as [g|] eqn:Hp; [|by apply dotted_groups_range in Hg].
    injection Hg as <-. apply Forall_cons. split; [by apply group_of_digits in Hp as [? _]|apply Forall_nil_2].
  - cbn [tail_groups] in Hg. apply bind_Some in Hg as (g & Hp & Hg). apply bind_Some in Hg as (gs' & Hgs & [= <-]).
    apply Forall_cons. split; [by apply group_of_digits in Hp as [? _]|by apply IH].
Qed.

Lemma split_on_before c s : exists parts, split_on c s = before c s :: parts.
Proof.
  induction s as [|d s [parts IH]]; [by exists []|]. cbn [split_on before]. destruct (Ascii.eqb d c); [by eexists|].
  rewrite IH. by eexists.
Qed.

Lemma cut_before s l r : cut s = Some (l, r) -> before ":" s = before ":" l.
Proof.
  revert l r; induction s as [|c s IH]; intros l r; [done|]. cbn [cut]. destruct (Ascii.eqb_spec c ":") as [->|Hc].
  - cbn [andb]. destruct (startsWith s ":"); [by intros [= <- <-]|].
    destruct (cut s) as [[l' r']|]; [|done]. by intros [= <- <-].
  - cbn [andb]. destruct (cut s) as [[l' r']|]; [|done]. intros [= <- <-]. cbn [before].
    rewrite (proj2 (Ascii.eqb_neq _ _) Hc). f_equal. by eapply IH.
Qed.

Lemma mapM_groups parts gs : mapM group_of parts = Some gs -> Forall group gs.
Proof.
  intros Hm%mapM_Some. induction Hm as [|p g ps gs Hp _ IH]; [apply Forall_nil_2|]. apply Forall_cons.
  split; [by apply group_of_digits in Hp as [? _]|done].
Qed.

Lemma ip6_groups_first s gs : ip6_groups s = Some gs ->
  exists g rest, gs = g :: rest /\ List.length rest = 7%nat /\ Forall group gs
    /\ (g <> 0 -> group_of (before ":" s) = Some g).
Proof.
  unfold ip6_groups. destruct (cut s) as [[l r]|] eqn:Hcut.
  - intros (left & Hl & (right & Hr & Hg)%bind_Some)%bind_Some. destruct (Nat.leb_spec (List.length left + List.length right) 7)
      as [Hle|]; [|done]. injection Hg as <-. rewrite (cut_before _ _ _ Hcut). clear Hcut.
    assert (Hright : Forall group right).
    { unfold groups_or_none in Hr. destruct (String.eqb r ""); [injection Hr as <-; apply Forall_nil_2|].
      by apply tail_groups_range in Hr. }
    assert (Hall : Forall group left -> Forall group (left ++ replicate (8 - (List.length left + List.length right)) 0 ++ right)).
    { intros Hleft. rewrite !Forall_app. split_and!; [done| |done]. apply Forall_replicate. unfold group. lia. }
    unfold groups_or_none in Hl. destruct (String.eqb l "").
    + injection Hl as <-. cbn [List.length plus app] in *. destruct (8 - List.length right)%nat as [|n] eqn:Hn; [lia|].
      exists 0, (replicate n 0 ++ right). split_and!; [done|rewrite length_app, length_replicate; lia|by apply Hall, Forall_nil_2|done].
    + pose proof (mapM_groups _ _ Hl) as Hleft. destruct (split_on_before ":" l) as [parts Hparts]. rewrite Hparts in Hl.
      cbn [mapM] in Hl. apply bind_Some in Hl as (g & Hfirst & Hl). apply bind_Some in Hl as (rest & _ & [= <-]).
      exists g, (rest ++ replicate (8 - (List.length (g :: rest) + List.length right)) 0 ++ right).
      split_and!; [done| |by apply Hall|done]. cbn [List.length] in *. rewrite !length_app, length_replicate. lia.
  - intros (gs' & Hgs & Hg)%bind_Some. destruct (Nat.eqb_spec (List.length gs') 8) as [Hlen|]; [|done].
    injection Hg as <-. pose proof (tail_groups_range _ _ Hgs) as Hall. destruct gs' as [|g rest]; [done|].
    exists g, rest. split_and!; [done|by injection Hlen|done|]. intros _.
    destruct (split_on_before ":" s) as [parts Hparts]. rewrite Hparts in Hgs. destruct parts as [|part parts].
    + cbn [tail_groups] in Hgs. destruct (group_of _); [by injection Hgs as <- <-|].
      unfold dotted_groups in Hgs. repeat case_match; try done. by injection Hgs as <- <-.
    + cbn [tail_groups] in Hgs. apply bind_Some in Hgs as (g' & Hg' & Hgs). by apply bind_Some in Hgs as (? & _ & [= <- <-]).
Qed.

(** The value and its first group. *)
Lemma ip6_rest acc gs : Forall group gs ->
  exists r, fold_left (fun acc g => acc * 65536 + g) gs acc = acc * 65536 ^ Z.of_nat (List.length gs) + r
    /\ 0 <= r < 65536 ^ Z.of_nat (List.length gs).
Proof.
  revert acc; induction gs as [|g gs IH]; intros acc Hall.
  - exists 0. cbn. lia.
  - apply Forall_cons in Hall as [Hg Hall]. cbn [fold_left List.length]. destruct (IH (acc * 65536 + g) Hall) as (r & -> & Hr).
    unfold group in Hg. rewrite Nat2Z.inj_succ, Z.pow_succ_r by lia.
    exists (g * 65536 ^ Z.of_nat (List.length gs) + r). split; [lia|nia].
Qed.

Lemma under_first g rest base len : List.length rest = 7%nat -> Forall group rest -> 0 <= len <= 16 ->
  under (ip6 (g :: rest)) (base, len) = (Z.shiftr g (16 - len) =? Z.shiftr base (128 - len)).
Proof.
  intros Hlen Hall Hl. unfold under, ip6. cbn [fst snd fold_left]. destruct (ip6_rest (0 * 65536 + g) rest Hall) as (r & -> & Hr).
  rewrite Hlen in *. change (Z.of_nat 7) with 7 in *. change (65536 ^ 7) with (2 ^ 112) in *. f_equal.
  replace (128 - len) with (112 + (16 - len)) by lia. rewrite <- Z.shiftr_shiftr by lia. f_equal.
  rewrite Z.shiftr_div_pow2 by lia. rewrite Z.div_add_l by lia. rewrite (Z.div_small r) by done. lia.
Qed.

Lemma hex_char c d : lower_char c = c -> hex_value c = Some d ->
  Ascii.eqb "f" c = (d =? 15) /\ Ascii.eqb "c" c = (d =? 12) /\ Ascii.eqb "d" c = (d =? 13).
Proof.
  destruct c as [[] [] [] [] [] [] [] []]; intros Hc Hd; vm_compute in Hd;
    (discriminate Hd || discriminate Hc || (injection Hd as <-; by split_and!)).
Qed.

Lemma before_prefix c s : exists t, s = before c s +:+ t.
Proof.
  induction s as [|d s [t IH]]; [by exists ""|]. cbn [before]. destruct (Ascii.eqb d c); [by eexists|].
  exists t. rewrite string_app_cons. by f_equal.
Qed.

Lemma forallb_before p c s : string_forallb p s = true -> string_forallb p (before c s) = true.
Proof.
  destruct (before_prefix c s) as [t Ht]. rewrite Ht at 1. rewrite string_forallb_app. by intros [? _]%andb_true_iff.
Qed.

(** A normalised address is in lower case. *)
Definition lower (c : ascii) : bool := Ascii.eqb (lower_char c) c.

Lemma normalized_lower address : string_forallb lower (normalizeIpv6 address) = true.
Proof.
  assert (Hlow : string_forallb lower (toLowerCase address) = true).
  { induction address as [|c s IH]; [done|]. cbn [toLowerCase string_forallb]. rewrite IH, andb_true_r.
    by destruct c as [[] [] [] [] [] [] [] []]. }
  apply (forallb_before lower "%") in Hlow. unfold normalizeIpv6. revert Hlow.
  generalize (before "%" (toLowerCase address)). intros s Hs.
  assert (H1 : string_forallb lower (strip_first "[" s) = true).
  { destruct s as [|c s]; [done|]. cbn [strip_first string_forallb] in *. apply andb_true_iff in Hs as [Hc Hs].
    destruct (Ascii.eqb c "["); [done|]. cbn [string_forallb]. by rewrite Hc, Hs. }
  revert H1. generalize (strip_first "[" s). clear. intros s. induction s as [|c s IH]; [done|].
  cbn [string_forallb]. intros [Hc Hs]%andb_true_iff. destruct s as [|d s].
  - cbn [strip_last]. destruct (Ascii.eqb c "]"); [done|]. cbn [string_forallb]. by rewrite Hc.
  - change (strip_last "]" (String c (String d s))) with (String c (strip_last "]" (String d s))).
    cbn [string_forallb]. by rewrite Hc, IH.
Qed.

(** Only the normalised text counts. *)
Lemma normalized_same address address' :
  normalizeIpv6 address = normalizeIpv6 address' -> isUnsafeIpv6 address = isUnsafeIpv6 address'.
Proof. unfold isUnsafeIpv6. by intros ->. Qed.

Lemma unsafe_local address groups :
  ip6_groups (normalizeIpv6 address) = Some groups ->
  under (ip6 groups) UNIQUE_LOCAL = true \/ under (ip6 groups) LINK_LOCAL = true -> isUnsafeIpv6 address = true.
Proof.
  intros Hg Hu. destruct (ip6_groups_first _ _ Hg) as (g & rest & -> & Hlen & Hall & Hfirst).
  apply Forall_cons in Hall as [Hrange Hall]. unfold UNIQUE_LOCAL, LINK_LOCAL in Hu.
  rewrite !under_first, !Z.eqb_eq in Hu by (done || lia).
  change (Z.shiftr (ip6 [0xfc00; 0; 0; 0; 0; 0; 0; 0]) (128 - 7)) with 126 in Hu.
  change (Z.shiftr (ip6 [0xfe80; 0; 0; 0; 0; 0; 0; 0]) (128 - 10)) with 1018 in Hu.
  change (16 - 7) with 9 in Hu. change (16 - 10) with 6 in Hu. rewrite !Z.shiftr_div_pow2 in Hu by lia.
  change (2 ^ 9) with 512 in Hu. change (2 ^ 6) with 64 in Hu.
  assert (Hbig : 4096 <= g) by (destruct Hu; Z.div_mod_to_equations; lia).
  specialize (Hfirst ltac:(lia)). unfold isUnsafeIpv6. cbv zeta. destruct (_ || _); [done|].
  destruct (startsWith _ "fc" || startsWith _ "fd") eqn:Hf; [done|].
  destruct (group_of_parse _ _ Hfirst) as [-> Hne]. rewrite (proj2 (String.eqb_neq _ _) Hne).
  destruct Hu as [Hu|Hu].
  - exfalso. apply not_true_iff_false in Hf. apply Hf. rewrite (startsWith_before ":" _ "fc"), (startsWith_before ":" _ "fd") by done.
    destruct (proj2 (group_of_digits _ _ Hfirst) Hbig) as (c1 & c2 & d1 & d2 & t & Ht & H1 & H2 & Hv).
    pose proof (forallb_before lower ":" _ (normalized_lower address)) as Hlow.
    rewrite Ht in Hlow |- *. cbn [string_forallb startsWith] in Hlow |- *.
    apply andb_true_iff in Hlow as [Hc1%Ascii.eqb_eq [Hc2%Ascii.eqb_eq _]%andb_true_iff].
    destruct (hex_char _ _ Hc1 H1) as (-> & _ & _), (hex_char _ _ Hc2 H2) as (_ & -> & ->).
    apply hex_value_range in H1, H2. assert (d1 = 15 /\ (d2 = 12 \/ d2 = 13)) as [-> [-> | ->]]; [|done..].
    clear -Hu Hv H1 H2. Z.div_mod_to_equations. lia.
  - assert ((0xfe80 <=? g) && (g <=? 0xfebf) = true) as ->; [|done]. clear -Hu. Z.div_mod_to_equations. lia.
Qed.

(** ** Validation *)
Section Validation.
Context (isIP : string -> Z) (parseURL : string -> option URL) (resolve : string -> result (list string)).

(** The addresses a host stands for: itself, or what the resolver says. *)
Definition addresses_of (host : string) : list string :=
  if isIP host =? 0 then match resolve host with Return l => l | Throw _ => [] end else [host].

(** [net.isIP] answers 4 on dotted decimal texts only, and 6 on IPv6 texts only,
    a zone apart. *)
Record isIP_lawful : Prop := {
  isIP_dotted s : isIP s = 4 -> exists a b c d, octet a /\ octet b /\ octet c /\ octet d /\ s = dotted a b c d;
  isIP_groups s : isIP s = 6 -> is_Some (ip6_groups (normalizeIpv6 s))
}.

(** What docs/THREAT_MODEL.md asks of every address: no reserved IPv4 block, and
    no unspecified, loopback, unique-local, link-local, multicast or IPv4-mapped
    IPv6 address. *)
Definition public (address : string) : Prop :=
  (exists a b c d, octet a /\ octet b /\ octet c /\ octet d /\ address = dotted a b c d
     /\ existsb (in_block (ipv4 a b c d)) UNSAFE_BLOCKS = false)
  \/ (exists groups, ip6_groups (normalizeIpv6 address) = Some groups
     /\ existsb (under (ip6 groups)) UNSAFE_PREFIXES = false).

(** What the code lets through besides. *)
Definition multicast (address : string) : Prop :=
  exists groups, ip6_groups (normalizeIpv6 address) = Some groups /\ under (ip6 groups) MULTICAST = true.

(** A mapped address, whose dotted form is that of an address outside the
    reserved blocks; in hexadecimal it may be any. *)
Definition mapped (address : string) : Prop :=
  (exists groups, ip6_groups (normalizeIpv6 address) = Some groups /\ under (ip6 groups) IPV4_MAPPED = true)
  /\ forall a b c d, octet a -> octet b -> octet c -> octet d ->
       normalizeIpv6 address = "::ffff:" +:+ dotted a b c d -> existsb (in_block (ipv4 a b c d)) UNSAFE_BLOCKS = false.

(** The addresses 0 and 1 spelled otherwise than every serialiser spells them. *)
Definition spelled_out (address : string) : Prop :=
  (exists groups, ip6_groups (normalizeIpv6 address) = Some groups
     /\ (under (ip6 groups) UNSPECIFIED = true \/ under (ip6 groups) LOOPBACK = true))
  /\ normalizeIpv6 address <> "::" /\ normalizeIpv6 address <> "::1".

Definition excepted (address : string) : Prop := multicast address \/ mapped address \/ spelled_out address.

Lemma safe_public address : isIP_lawful -> isUnsafeIpAddress isIP address = false -> public address \/ excepted address.
Proof.
  clear parseURL resolve.
  intros [Hdotted Hgroups]. unfold isUnsafeIpAddress. cbv zeta. destruct (Z.eqb_spec (isIP address) 4) as [H4|_].
  { intros Hs. destruct (Hdotted _ H4) as (a & b & c & d & Ha & Hb & Hc & Hd & ->).
    left. left. exists a, b, c, d. split_and!; try done.
    rewrite <- Hs. symmetry. by apply isUnsafeIpv4_reserved. }
  destruct (Z.eqb_spec (isIP address) 6) as [H6|_]; [|done]. intros Hs. destruct (Hgroups _ H6) as [groups Hg].
  destruct (existsb (under (ip6 groups)) UNSAFE_PREFIXES) eqn:Hu; [right|by left; right; exists groups].
  unfold UNSAFE_PREFIXES in Hu. cbn [existsb] in Hu. rewrite !orb_true_iff in Hu.
  assert (Hspelled : normalizeIpv6 address <> "::" /\ normalizeIpv6 address <> "::1")
    by (split; intros He; unfold isUnsafeIpv6 in Hs; by rewrite He in Hs).
  assert (Hlocal : ~ (under (ip6 groups) UNIQUE_LOCAL = true \/ under (ip6 groups) LINK_LOCAL = true))
    by (intros Hl; rewrite (unsafe_local _ _ Hg Hl) in Hs; done).
  destruct Hu as [Hu|[Hu|[Hu|[Hu|[Hu|[Hu|Hu]]]]]]; try done.
  - right. right. split; [|done]. exists groups. by split; [|left].
  - right. right. split; [|done]. exists groups. by split; [|right].
  - destruct Hlocal. by left.
  - destruct Hlocal. by right.
  - left. by exists groups.
  - right. left. split; [by exists groups|]. intros a b c d Ha Hb Hc Hd He.
    rewrite <- (isUnsafeIpv4_reserved a b c d), <- (mapped_dotted a b c d) by done.
    transitivity (isUnsafeIpv6 address); [|exact Hs]. apply normalized_same. rewrite He. apply normalize_address.
    rewrite string_forallb_app. unfold dotted. repeat (rewrite ?string_forallb_app; cbn [string_forallb]).
    by rewrite !octet_address by done.
Qed.

Lemma validate_some value target :
  validate isIP parseURL resolve value = Some target ->
  exists text url, value = Text text /\ 0 < js_length text <= 2048 /\ parseURL text = Some url
    /\ target = href url /\ (protocol url = "http:" \/ protocol url = "https:")
    /\ username url = "" /\ password url = "" /\ hostOf url <> "" /\ isLocalHostname (hostOf url) = false
    /\ addresses_of (hostOf url) <> []
    /\ forall a, a ∈ addresses_of (hostOf url) -> isUnsafeIpAddress isIP a = false.
Proof.
  destruct value as [|text| |]; try done. cbn [validate].
  destruct (_ || _) eqn:Hlen; [done|]. destruct (parseURL text) as [url|] eqn:Hu; [|done].
  destruct (negb _ && negb _) eqn:Hp; [done|]. destruct (negb _ || negb _) eqn:Hc; [done|]. cbv zeta.
  destruct (String.eqb (hostOf url) "" || _) eqn:Hh; [done|].
  apply orb_false_iff in Hlen as [Hl1%Z.eqb_neq Hl2%Z.ltb_ge]. pose proof (js_length_nonneg text).
  apply orb_false_iff in Hc as [Hc1%negb_false_iff%String.eqb_eq Hc2%negb_false_iff%String.eqb_eq].
  apply orb_false_iff in Hh as [Hh1%String.eqb_neq Hh2].
  apply andb_false_iff in Hp. rewrite !negb_false_iff, !String.eqb_eq in Hp.
  intros Ht. exists text, url. unfold addresses_of.
  destruct (Z.eqb_spec (isIP (hostOf url)) 0) as [H0|H0]; cbn [negb] in Ht.
  - destruct (resolve (hostOf url)) as [l|]; [|done].
    destruct (_ || _) eqn:Hl; [done|]. injection Ht as <-.
    apply orb_false_iff in Hl as [Hne Hall]. split_and!; try done; try lia.
    + by destruct l.
    + intros a Ha. apply not_true_is_false. intros Hu'. apply not_true_iff_false in Hall. apply Hall.
      apply existsb_exists. exists a. split; [by apply list_elem_of_In|done].
  - destruct (isUnsafeIpAddress isIP (hostOf url)) eqn:Hun; [done|]. injection Ht as <-.
    split_and!; try done; try lia. by intros a ->%list_elem_of_singleton.
Qed.
End Validation.

(** C11. What [validate] lets through. The destination it answers with is the
    parser's own serialisation of an http or https URL of at most 2,048
    characters without credentials, whose host is neither empty nor local, and
    which stands for at least one address. Each of these addresses is public as
    docs/THREAT_MODEL.md has it (outside the reserved IPv4 blocks, and neither
    the unspecified address nor loopback, unique local, link local, multicast or
    IPv4-mapped), or it is one of the three exceptions the code makes: an IPv6
    multicast address (ff00::/8), an IPv4-mapped address (a dotted one only
    if it is that of a public IPv4 address, a hexadecimal one whatever it is),
    or the unspecified or loopback IPv6 address in a spelling other than :: and
    ::1. A resolver that fails or knows no address lets nothing through. *)
Theorem validate_public isIP parseURL resolve value target :
  isIP_lawful isIP ->
  validate isIP parseURL resolve value = Some target ->
  exists text url, value = Text text /\ parseURL text = Some url /\ target = href url
    /\ 0 < js_length text <= 2048 /\ (protocol url = "http:" \/ protocol url = "https:")
    /\ username url = "" /\ password url = "" /\ isLocalHostname (hostOf url) = false
    /\ addresses_of isIP resolve (hostOf url) <> []
    /\ Forall (fun address => public address \/ excepted address) (addresses_of isIP resolve (hostOf url)).
Proof.
  intros Hlaw (text & url & H1 & H2 & H3 & H4 & H5 & H6 & H7 & H8 & H9 & H10 & H11)%validate_some.
  exists text, url. split_and!; try done; try lia. apply Forall_forall. intros a Ha.
  exact (safe_public isIP a Hlaw (H11 a Ha)).
Qed.

(** ** Witnesses *)
Lemma isUnsafeIpv4_blocks_witness : isUnsafeIpv4 (dotted 172 31 255 1) = true.
Proof.
  rewrite (proj1 (isUnsafeIpv4_blocks 172 31 255 1 ltac:(unfold octet; lia) ltac:(unfold octet; lia)
    ltac:(unfold octet; lia) ltac:(unfold octet; lia))). vm_compute. reflexivity.
Defined.

Lemma isUnsafeIpv6_blocks_witness : isUnsafeIpv6 "FE80::1%eth0" = true.
Proof.
  rewrite (isUnsafeIpv6_blocks "FE80::1%eth0" 0xfe80 ltac:(unfold group; lia) ltac:(vm_compute; reflexivity)).
  reflexivity.
Defined.

Lemma mapped_ipv4_witness :
  isUnsafeIpv6 "::ffff:127.0.0.1" = true /\ isUnsafeIpv6 "::ffff:7f00:1" = false.
Proof.
  destruct (mapped_ipv4 127 0 0 1 ltac:(unfold octet; lia) ltac:(unfold octet; lia)
    ltac:(unfold octet; lia) ltac:(unfold octet; lia)) as [H1 H2].
  split; [|exact H2]. etransitivity; [exact H1|]. vm_compute. reflexivity.
Defined.

(** An [isIP] that knows two addresses, and a parser and resolver for one URL. *)
Definition demo_isIP (s : string) : Z :=
  if String.eqb s "93.184.216.34" then 4 else if String.eqb s "2606:2800:21F:cb07::1%eth0" then 6 else 0.
Definition demo_parse (s : string) : option URL :=
  Some {| protocol := "https:"; username := ""; password := ""; hostname := "example.com"; href := s |}.
Definition demo_resolve (s : string) : result (list string) := Return ["93.184.216.34"; "2606:2800:21F:cb07::1%eth0"].

Lemma demo_isIP_lawful : isIP_lawful demo_isIP.
Proof.
  split; intros s; unfold demo_isIP; destruct (String.eqb_spec s "93.184.216.34") as [->|]; try done.
  - intros _. exists 93, 184, 216, 34. by repeat split; vm_compute.
  - by destruct (String.eqb _ _).
  - destruct (String.eqb_spec s "2606:2800:21F:cb07::1%eth0") as [->|]; [|done]. intros _. by vm_compute; eexists.
Qed.

Lemma validate_public_witness :
  validate demo_isIP demo_parse demo_resolve (Text "https://example.com/") = Some "https://example.com/"
  /\ Forall (fun address => public address \/ excepted address) ["93.184.216.34"; "2606:2800:21F:cb07::1%eth0"].
Proof.
  split; [vm_compute; reflexivity|].
  destruct (validate_public demo_isIP demo_parse demo_resolve (Text "https://example.com/")
    "https://example.com/" demo_isIP_lawful) as (text & url & H1 & H2 & _ & _ & _ & _ & _ & _ & _ & H).
  - vm_compute. reflexivity.
  - injection H2 as <-. exact H.
Defined.

(** The exceptions occur. *)
Example multicast_passes : isUnsafeIpv6 "ff02::1" = false /\ multicast "ff02::1".
Proof. split; [by vm_compute|]. eexists. split; vm_compute; reflexivity. Qed.

Example loopback_spelled_out : isUnsafeIpv6 "0:0:0:0:0:0:0:1" = false.
Proof. by vm_compute. Qed.
