(* ===== verification/ApiKeys.v ===== *)
(** * API keys

    [HashedApiKeyAuthenticator] of src/src/security/api-key-authenticator.ts.
    SHA-256 and [timingSafeEqual] are node's. *)
From S2P Require Import Prelude JsNum JsString Link.
Open Scope Z_scope.

Section ApiKeys.
(** [createHash("sha256").update(key, "utf8").digest()]. *)
Context (sha256 : string -> string).

Definition hashApiKey (apiKey : string) : string := sha256 apiKey.

(** [timingSafeEqual]: an error for buffers of different lengths. *)
Definition timingSafeEqual (a b : string) : result bool :=
  if (String.length a =? String.length b)%nat then Return (String.eqb a b)
  else Throw "Input buffers must have the same byte length".

Definition new (apiKeys : list string) : result (list string) :=
  if (List.length apiKeys =? 0)%nat then Throw "At least one API key must be configured"
  else if existsb (fun apiKey => js_length apiKey <? 32) apiKeys
  then Throw "API keys must contain at least 32 characters"
  else Return (hashApiKey <$> apiKeys).

(** The loop over every configured hash: it never stops early, so that its
    length does not depend on which key matches. *)
Fixpoint compare_all (hashes : list string) (candidateHash : string) (authenticated : bool) : result bool :=
  match hashes with
  | [] => Return authenticated
  | expected :: hashes =>
      try equal <- timingSafeEqual candidateHash expected;
      compare_all hashes candidateHash (equal || authenticated)
  end.

Definition authenticate (hashes : list string) (candidate : unknown) : result bool :=
  match candidate with
  | Undefined | Integer _ | Other => Return false
  | Text candidate =>
      if (js_length candidate <? 32) || (256 <? js_length candidate) then Return false
      else compare_all hashes (hashApiKey candidate) false
  end.

Context (digest_length : forall s, String.length (sha256 s) = 32%nat).

Lemma compare_all_hashes keys candidate b :
  compare_all (hashApiKey <$> keys) (hashApiKey candidate) b
  = Return (existsb (fun key => String.eqb (sha256 candidate) (sha256 key)) keys || b).
Proof using digest_length.
  revert b; induction keys as [|key keys IH]; intros b; [done|]. rewrite fmap_cons. cbn [compare_all existsb].
  unfold timingSafeEqual at 1, hashApiKey at 1 2 3 4. rewrite !digest_length. cbn [Nat.eqb result_bind].
  rewrite IH. f_equal. destruct (String.eqb _ _), (existsb _ _), b; done.
Qed.
End ApiKeys.

(** C31. The authenticator accepts exactly the configured keys. It is built
    from any non-empty list of keys of 32 characters or more and from no other;
    then, SHA-256 having no collision among these keys and the candidate, a
    value is accepted if and only if it is one of the keys and not longer than
    256 characters; values that are no strings are refused, and no call throws. *)
Theorem authenticate_exact sha256 keys candidate :
  (forall s, String.length (sha256 s) = 32%nat) ->
  (forall s key, candidate = Text s -> key ∈ keys -> sha256 s = sha256 key -> s = key) ->
  match new sha256 keys with
  | Throw _ => keys = [] \/ exists key, key ∈ keys /\ js_length key < 32
  | Return hashes =>
      keys <> [] /\ (forall key, key ∈ keys -> 32 <= js_length key)
      /\ exists accepted, authenticate sha256 hashes candidate = Return accepted
           /\ (accepted = true <-> exists s, candidate = Text s /\ s ∈ keys /\ js_length s <= 256)
  end.
Proof.
  intros Hlen Hcol. unfold new. destruct keys as [|k0 keys0]; [by left|].
  set (keys := k0 :: keys0) in *. cbn [List.length Nat.eqb].
  destruct (existsb _ keys) eqn:Hshort.
  { apply existsb_exists in Hshort as (key & Hin & Hk). right. exists key.
    split; [by apply list_elem_of_In|by apply Z.ltb_lt]. }
  assert (Hall : forall key, key ∈ keys -> 32 <= js_length key).
  { intros key Hin. apply Z.nlt_ge. intros Hlt. apply not_true_iff_false in Hshort. apply Hshort.
    apply existsb_exists. exists key. split; [by apply list_elem_of_In|by apply Z.ltb_lt]. }
  split; [done|]. split; [done|].
  destruct candidate as [|s| |]; cbn [authenticate];
    try (exists false; split; [done|]; split; [done|]; by intros (s & ? & _)).
  destruct (_ || _) eqn:Hrange.
  - exists false. split; [done|]. split; [done|]. intros (s' & [= <-] & Hin & Hs). specialize (Hall _ Hin).
    apply orb_true_iff in Hrange as [?%Z.ltb_lt|?%Z.ltb_lt]; lia.
  - rewrite compare_all_hashes by done. eexists. split; [done|]. rewrite orb_false_r, existsb_exists.
    apply orb_false_iff in Hrange as [_ Hmax%Z.ltb_ge]. split.
    + intros (key & Hin%list_elem_of_In & Heq%String.eqb_eq). exists s.
      assert (s = key) as <- by (by apply Hcol). by split_and!.
    + intros (s' & [= <-] & Hin & _). exists s. split; [by apply list_elem_of_In|apply String.eqb_refl].
Qed.

(** A hash of the right length that tells the demonstration keys apart. *)
Definition toy_sha256 (s : string) : string := dec_fixed 32 (js_length s).

Definition demo_keys : list string := [dec_fixed 32 7; dec_fixed 40 9].

Lemma authenticate_exact_witness :
  exists hashes, new toy_sha256 demo_keys = Return hashes
    /\ authenticate toy_sha256 hashes (Text (dec_fixed 40 9)) = Return true.
Proof.
  pose proof (authenticate_exact toy_sha256 demo_keys (Text (dec_fixed 40 9))) as H.
  destruct (new toy_sha256 demo_keys) as [hashes|e] eqn:Hnew; [|discriminate Hnew].
  destruct H as (_ & _ & accepted & Ha & Hiff).
  - intros s. apply dec_fixed_length.
  - intros s key [= <-] Hin He. apply list_elem_of_In in Hin as [<-|[<-|[]]]; [discriminate He|reflexivity].
  - exists hashes. split; [reflexivity|]. rewrite Ha. f_equal. apply Hiff. exists (dec_fixed 40 9).
    split; [reflexivity|]. split; [apply list_elem_of_In; right; left; reflexivity|vm_compute; discriminate].
Defined.
