(* ===== verification/JsMap.v ===== *)
(** * JavaScript maps with string keys

    A [Map] keeps its entries in the order in which their keys were first set:
    a list of entries with distinct keys. *)
From S2P Require Import Prelude.

Abbreviation jsmap V := (list (string * V)).

Section JsMap.
Context {V : Type}.

(** [map.get(k)], [map.has(k)], [map.set(k, v)], [map.delete(k)]. *)
Fixpoint get (m : jsmap V) (k : string) : option V :=
  match m with
  | [] => None
  | (k', v) :: m => if bool_decide (k' = k) then Some v else get m k
  end.

Definition has_key (m : jsmap V) (k : string) : bool :=
  match get m k with Some _ => true | None => false end.

Fixpoint set (m : jsmap V) (k : string) (v : V) : jsmap V :=
  match m with
  | [] => [(k, v)]
  | (k', v') :: m => if bool_decide (k' = k) then (k', v) :: m else (k', v') :: set m k v
  end.

Fixpoint remove (m : jsmap V) (k : string) : jsmap V :=
  match m with
  | [] => []
  | (k', v') :: m => if bool_decide (k' = k) then m else (k', v') :: remove m k
  end.

Definition well_keyed (m : jsmap V) : Prop := NoDup m.*1.

Lemma get_set m k v k' : get (set m k v) k' = if decide (k = k') then Some v else get m k'.
Proof.
  induction m as [|[a w] m IH]; simpl.
  - case_bool_decide; case_decide; congruence.
  - case_bool_decide; simpl; repeat (case_bool_decide || case_decide); congruence.
Qed.

Lemma get_none m k : get m k = None <-> k ∉ m.*1.
Proof.
  induction m as [|[a w] m IH]; simpl; [split; [set_solver|done]|].
  rewrite not_elem_of_cons, <- IH. case_bool_decide; [|naive_solver].
  split; [done|]. intros [? _]. congruence.
Qed.

Lemma get_some_key m k v : get m k = Some v -> k ∈ m.*1.
Proof. intros Hk. destruct (decide (k ∈ m.*1)) as [|Hn]; [done|]. apply get_none in Hn. congruence. Qed.

Lemma key_get m k : k ∈ m.*1 -> get m k <> None.
Proof. by rewrite get_none; intros Hk Hn. Qed.

Lemma has_key_elem m k : has_key m k <-> k ∈ m.*1.
Proof.
  unfold has_key. destruct (get m k) eqn:Hk; simpl.
  - split; [|done]. intros _. by eapply get_some_key.
  - apply get_none in Hk. by split.
Qed.

Lemma set_keys m k v : (set m k v).*1 = if has_key m k then m.*1 else m.*1 ++ [k].
Proof.
  unfold has_key. induction m as [|[a w] m IH]; [done|]. cbn [set get].
  case_bool_decide; [done|]. rewrite !fmap_cons, IH. by destruct (get m k).
Qed.

Lemma set_well_keyed m k v : well_keyed m -> well_keyed (set m k v).
Proof.
  unfold well_keyed. rewrite set_keys. unfold has_key. destruct (get m k) eqn:Hk; [done|].
  intros Hm. apply list.NoDup_app. split; [done|]. split; [|apply NoDup_singleton].
  intros x Hx ->%list_elem_of_singleton. by apply get_none in Hk.
Qed.

Lemma set_Forall (P : string * V -> Prop) m k v : Forall P m -> P (k, v) -> Forall P (set m k v).
Proof.
  intros Hm Hv. induction m as [|[a w] m IH]; cbn [set]; [by apply Forall_cons|].
  apply Forall_cons in Hm as [Hw Hm]. case_bool_decide; subst; apply Forall_cons; auto.
Qed.

Lemma remove_keys_sub m k x : x ∈ (remove m k).*1 -> x ∈ m.*1.
Proof. induction m as [|[a w] m IH]; simpl; [done|]. case_bool_decide; set_solver. Qed.

Lemma remove_well_keyed m k : well_keyed m -> well_keyed (remove m k).
Proof.
  unfold well_keyed. induction m as [|[a w] m IH]; simpl; [done|]. intros [Ha Hm]%NoDup_cons.
  case_bool_decide; [done|]. simpl. constructor; [|by apply IH].
  intros Hin. apply Ha. by eapply remove_keys_sub.
Qed.

Lemma get_remove m k k' :
  well_keyed m -> get (remove m k) k' = if decide (k = k') then None else get m k'.
Proof.
  unfold well_keyed. induction m as [|[a w] m IH]; simpl; [by case_decide|].
  intros [Ha Hm]%NoDup_cons. case_bool_decide as Hak; subst; simpl.
  - case_decide as Hk; subst; [by apply get_none|]. by rewrite bool_decide_false by done.
  - case_bool_decide as Hak'; subst; [by rewrite decide_False by congruence|by apply IH].
Qed.

Lemma remove_length m k :
  List.length (remove m k) = if has_key m k then pred (List.length m) else List.length m.
Proof.
  unfold has_key. induction m as [|[a w] m IH]; simpl; [done|]. case_bool_decide; [done|]. simpl.
  rewrite IH. destruct (get m k) eqn:Hk; [|done].
  destruct m; [done|]. done.
Qed.

Lemma set_length m k v :
  List.length (set m k v) = if has_key m k then List.length m else S (List.length m).
Proof.
  unfold has_key. induction m as [|[a w] m IH]; simpl; [done|]. case_bool_decide; [done|]. simpl.
  rewrite IH. by destruct (get m k).
Qed.

Lemma get_elem m k v : well_keyed m -> (get m k = Some v <-> (k, v) ∈ m).
Proof.
  unfold well_keyed. induction m as [|[a w] m IH]; simpl; [split; [done|by intros ?%not_elem_of_nil]|].
  intros [Ha Hm]%NoDup_cons. rewrite elem_of_cons. case_bool_decide as Hak; subst.
  - split; [intros [= ->]; by left|]. intros [[= ->]|Hin]; [done|]. exfalso. apply Ha.
    apply list_elem_of_fmap. by exists (k, v).
  - rewrite IH by done. split; [by right|]. intros [[= -> ->]|]; done.
Qed.
End JsMap.

(** ** Counters *)
Open Scope Z_scope.

Definition count_of (m : jsmap Z) (k : string) : Z := default 0 (get m k).

(** [map.set(k, (map.get(k) ?? 0) + n)]. *)
Definition add_count (m : jsmap Z) (k : string) (n : Z) : jsmap Z := set m k (count_of m k + n).

Definition total (m : jsmap Z) : Z := foldr (fun p acc => p.2 + acc) 0 m.

Lemma count_add m k n k' :
  count_of (add_count m k n) k' = count_of m k' + (if decide (k = k') then n else 0).
Proof.
  unfold add_count, count_of. rewrite get_set. case_decide; subst; simpl; lia.
Qed.

Lemma total_set (m : jsmap Z) k v : total (set m k v) = total m - count_of m k + v.
Proof.
  unfold count_of. induction m as [|[a w] m IH]; simpl; [lia|]. case_bool_decide; simpl; lia.
Qed.

Lemma total_add m k n : total (add_count m k n) = total m + n.
Proof. unfold add_count. rewrite total_set. lia. Qed.

Lemma total_app m1 m2 : total (m1 ++ m2) = total m1 + total m2.
Proof. unfold total. induction m1 as [|p m1 IH]; simpl; lia. Qed.
