(* ===== verification/MemoryStore.v ===== *)
(** * The in-memory store

    [MemoryLinkStore] of src/src/store/memory-link-store.ts: a [Map] of at most
    [maxLinks] links that forgets the oldest one when it is full. *)
From S2P Require Import Prelude JsNum Link JsMap.
Open Scope Z_scope.

Module MemoryLinkStore.

Abbreviation links := (jsmap Link).

Definition size (m : links) : Z := Z.of_nat (List.length m).

Definition create (maxLinks now : Z) (input : CreateLinkInput) (m : links) : links * option Link :=
  if has_key m (in_code input) then (m, None)
  else
    let m := if maxLinks <=? size m
             then match head m with Some (oldest, _) => remove m oldest | None => m end
             else m in
    let link := {| code := in_code input; targetUrl := in_targetUrl input; createdAt := now;
                   expiresAt := in_expiresAt input; clicks := 0 |} in
    (set m (code link) link, Some link).

Definition expired (now : Z) (link : Link) : bool :=
  match expiresAt link with Some e => e <=? now | None => false end.

Definition find (now : Z) (c : string) (m : links) : links * option Link :=
  match get m c with
  | None => (m, None)
  | Some link => if expired now link then (remove m c, None) else (m, Some link)
  end.

Definition click (link : Link) : Link :=
  {| code := code link; targetUrl := targetUrl link; createdAt := createdAt link;
     expiresAt := expiresAt link; clicks := clicks link + 1 |}.

(** [link.clicks += 1] changes the object in the map, in its place. *)
Definition recordClick (c : string) (m : links) : links :=
  match get m c with Some link => set m c (click link) | None => m end.

Definition isHealthy : bool := true.

(** ** Runs *)
Inductive op : Type :=
  | Create (now : Z) (input : CreateLinkInput)
  | Find (now : Z) (c : string)
  | RecordClick (c : string).

Definition apply (maxLinks : Z) (o : op) (m : links) : links :=
  match o with
  | Create now input => (create maxLinks now input m).1
  | Find now c => (find now c m).1
  | RecordClick c => recordClick c m
  end.

Definition run (maxLinks : Z) (ops : list op) : links := fold_left (fun m o => apply maxLinks o m) ops [].

Record well_formed (maxLinks : Z) (m : links) : Prop := {
  wf_keys : well_keyed m;
  wf_codes : forall c link, get m c = Some link -> code link = c;
  wf_size : size m <= Z.max 1 maxLinks
}.

Lemma get_head_remove (m : links) c0 l0 c :
  well_keyed m -> head m = Some (c0, l0) -> get (remove m c0) c = if decide (c0 = c) then None else get m c.
Proof. intros Hw _. by apply get_remove. Qed.

Lemma create_wf maxLinks now input m :
  well_formed maxLinks m -> well_formed maxLinks (create maxLinks now input m).1.
Proof.
  intros Hm. unfold create. destruct (has_key m (in_code input)) eqn:Hk; [done|]. cbv zeta. cbn [fst].
  set (m1 := if maxLinks <=? size m then _ else m).
  assert (H1 : well_keyed m1 /\ (forall c link, get m1 c = Some link -> code link = c)
    /\ has_key m1 (in_code input) = false /\ (size m1 < Z.max 1 maxLinks)).
  { destruct Hm as [Hw Hc Hs]. unfold m1. destruct (Z.leb_spec maxLinks (size m)) as [Hfull|Hroom].
    - destruct m as [|[c0 l0] m]; cbn [head].
      + unfold size in *. simpl in *. split_and!; [done..|lia].
      + split_and!.
        * by apply remove_well_keyed.
        * intros c link. rewrite get_remove by done. case_decide; [done|apply Hc].
        * unfold has_key in *. rewrite get_remove by done. by case_decide.
        * unfold size in *. rewrite remove_length. unfold has_key. cbn [get].
          rewrite bool_decide_true by done. rewrite length_cons in *. simpl. lia.
    - split_and!; try done. lia. }
  destruct H1 as (Hw & Hc & Hn & Hs). split.
  - by apply set_well_keyed.
  - intros c link. rewrite get_set. case_decide as Heq; [|apply Hc]. intros [= <-]. exact Heq.
  - unfold size in *. rewrite set_length. cbn [code]. rewrite Hn. lia.
Qed.

Lemma find_wf maxLinks now c m : well_formed maxLinks m -> well_formed maxLinks (find now c m).1.
Proof.
  intros Hm. unfold find. destruct (get m c) eqn:Hg; [|done]. destruct (expired now l); [|done].
  destruct Hm as [Hw Hc Hs]. split; cbn [fst].
  - by apply remove_well_keyed.
  - intros c' link. rewrite get_remove by done. case_decide; [done|apply Hc].
  - unfold size in *. rewrite remove_length. destruct (has_key m c); lia.
Qed.

Lemma click_wf maxLinks c m : well_formed maxLinks m -> well_formed maxLinks (recordClick c m).
Proof.
  intros Hm. unfold recordClick. destruct (get m c) as [link|] eqn:Hg; [|done].
  destruct Hm as [Hw Hc Hs]. split.
  - by apply set_well_keyed.
  - intros c' link'. rewrite get_set. case_decide as Heq; [|apply Hc]. intros [= <-]. subst c'.
    by apply Hc in Hg.
  - unfold size in *. rewrite set_length. unfold has_key. by rewrite Hg.
Qed.

Lemma run_wf maxLinks ops : well_formed maxLinks (run maxLinks ops).
Proof.
  unfold run. assert (Hg : forall m, well_formed maxLinks m ->
    well_formed maxLinks (fold_left (fun m o => apply maxLinks o m) ops m)).
  { induction ops as [|o ops IH]; intros m Hm; [done|]. apply IH.
    destruct o; [by apply create_wf|by apply find_wf|by apply click_wf]. }
  apply Hg. split; [constructor|done|]. unfold size. simpl. lia.
Qed.

(** The in-memory store after any operations: it never holds more than
    [maxLinks] links (one, if that is not positive); [create] refuses exactly
    the codes it holds and otherwise stores the link, evicting no link but the
    oldest and that only when full; [find] answers with exactly the stored
    link until it expires and drops it then; [recordClick] adds one click to
    one link and changes no other. *)
Theorem memory_store_correct maxLinks ops now input c :
  let m := run maxLinks ops in
  size m <= Z.max 1 maxLinks
  /\ (let '(m', r) := create maxLinks now input m in
      match get m (in_code input) with
      | Some _ => r = None /\ m' = m
      | None => r = get m' (in_code input)
          /\ r = Some {| code := in_code input; targetUrl := in_targetUrl input; createdAt := now;
                         expiresAt := in_expiresAt input; clicks := 0 |}
          /\ forall c', c' <> in_code input ->
               get m' c' = get m c'
               \/ (get m' c' = None /\ maxLinks <= size m /\ fst <$> head m = Some c')
      end)
  /\ (let '(m', r) := find now c m in
      r = match get m c with Some link => if expired now link then None else Some link | None => None end
      /\ forall c', get m' c' = if decide (c' = c) then r else get m c')
  /\ (forall c', get (recordClick c m) c' = if decide (c' = c) then click <$> get m c else get m c').
Proof.
  cbv zeta. pose proof (run_wf maxLinks ops) as [Hw Hc Hs]. set (m := run maxLinks ops) in *.
  split; [done|]. split; [|split].
  - unfold create, has_key. destruct (get m (in_code input)) eqn:Hg; [done|]. cbn [code].
    rewrite get_set, decide_True by done. split; [done|]. split; [done|].
    intros c' Hne. rewrite get_set, decide_False by congruence.
    destruct (Z.leb_spec maxLinks (size m)); [|by left].
    destruct (head m) as [[c0 l0]|] eqn:Hh; [|by left]. rewrite get_remove by done.
    case_decide as Heq; [right; subst; done|by left].
  - unfold find. destruct (get m c) as [link|] eqn:Hg.
    + destruct (expired now link); (split; [done|]); intros c'; [rewrite get_remove by done|];
        repeat case_decide; congruence.
    + split; [done|]. intros c'. case_decide; congruence.
  - intros c'. unfold recordClick. destruct (get m c) as [link|] eqn:Hg; simpl.
    + rewrite get_set. repeat case_decide; congruence.
    + case_decide; congruence.
Qed.
End MemoryLinkStore.
