(* ===== verification/ClickBuffer.v ===== *)
(** * The click buffer

    [ClickBuffer] of src/src/store/click-buffer.ts: clicks are counted in
    memory and flushed in batches. The object is a state machine: each method
    runs without interruption up to its [await], and the answer of the sink,
    or the end of a flush, is a later event. *)
From S2P Require Import Prelude JsNum JsMap.
Open Scope Z_scope.

Module ClickBuffer.

Record config : Type := { flushIntervalMs : Z; maxPendingClicks : Z; maxUnmatchedAttempts : Z }.

Definition positive (n : Z) : bool := isSafeInteger n && (1 <=? n).

(** The constructor's checks. *)
Definition new (flushIntervalMs maxPendingClicks maxUnmatchedAttempts : Z) : result config :=
  if negb (positive flushIntervalMs) then Throw "flush interval must be a positive integer"
  else if negb (positive maxPendingClicks) then
    Throw "maximum pending clicks must be a positive integer"
  else if negb (positive maxUnmatchedAttempts) then
    Throw "maximum unmatched attempts must be a positive integer"
  else Return {| flushIntervalMs := flushIntervalMs; maxPendingClicks := maxPendingClicks;
                 maxUnmatchedAttempts := maxUnmatchedAttempts |}.

(** [flushPromise]: none, a flush that awaits the sink, or one that is over but
    whose [finally] has not run yet. *)
Inductive flight : Type :=
  | NoFlush
  | AwaitsSink (batch : jsmap Z)
  | FlushOver (outcome : result unit).

Record buffer : Type := {
  pending : jsmap Z;
  pendingTotal : Z;
  timer : bool;
  flushPromise : flight;
  closed : bool;
  unmatchedAttempts : jsmap Z;
  dropped : Z
}.

Definition new_buffer : buffer :=
  {| pending := []; pendingTotal := 0; timer := false; flushPromise := NoFlush; closed := false;
     unmatchedAttempts := []; dropped := 0 |}.

Definition with_pending (b : buffer) (p : jsmap Z) (n : Z) : buffer :=
  {| pending := p; pendingTotal := n; timer := timer b; flushPromise := flushPromise b;
     closed := closed b; unmatchedAttempts := unmatchedAttempts b; dropped := dropped b |}.
Definition with_flight (b : buffer) (f : flight) : buffer :=
  {| pending := pending b; pendingTotal := pendingTotal b; timer := timer b; flushPromise := f;
     closed := closed b; unmatchedAttempts := unmatchedAttempts b; dropped := dropped b |}.
Definition with_attempts (b : buffer) (a : jsmap Z) (d : Z) : buffer :=
  {| pending := pending b; pendingTotal := pendingTotal b; timer := timer b;
     flushPromise := flushPromise b; closed := closed b; unmatchedAttempts := a; dropped := d |}.

(** [this.pending.set(code, (this.pending.get(code) ?? 0) + count)] and
    [this.pendingTotal += count]. *)
Definition add_pending (b : buffer) (code : string) (count : Z) : buffer :=
  with_pending b (add_count (pending b) code count) (pendingTotal b + count).

Definition pendingClicks (b : buffer) : Z := pendingTotal b.
Definition droppedClicks (b : buffer) : Z := dropped b.

Section Buffer.
Context (cfg : config).

(** [performFlush] up to its [await]; with nothing pending it returns at once. *)
Definition beginFlush (b : buffer) : buffer :=
  match pending b with
  | [] => with_flight b (FlushOver (Return tt))
  | batch => with_flight (with_pending b [] 0) (AwaitsSink batch)
  end.

(** [flush]: joins the flush in progress or begins one. *)
Definition flush (b : buffer) : buffer :=
  match flushPromise b with
  | NoFlush => beginFlush b
  | _ => b
  end.

Definition record (code : string) (b : buffer) : result buffer :=
  if closed b then Throw "click buffer is closed"
  else if bool_decide (code = "") then Throw "link code must not be empty"
  else
    let b := add_pending b code 1 in
    Return (if maxPendingClicks cfg <=? pendingTotal b then flush b else b).

(** The [catch] of [performFlush]: the batch is counted again. *)
Definition restore (batch : jsmap Z) (b : buffer) : buffer :=
  fold_left (fun b entry => add_pending b entry.1 entry.2) batch b.

(** The codes that matched no longer have failed attempts. *)
Definition forget_matched (batch : jsmap Z) (unmatched : list string) (b : buffer) : buffer :=
  fold_left (fun b entry =>
      if bool_decide (entry.1 ∈ unmatched) then b
      else with_attempts b (remove (unmatchedAttempts b) entry.1) (dropped b))
    batch b.

(** The loop over the unmatched codes. *)
Definition retry_one (batch : jsmap Z) (b : buffer) (code : string) : buffer :=
  match get batch code with
  | None => b
  | Some count =>
      let attempts := count_of (unmatchedAttempts b) code + 1 in
      if maxUnmatchedAttempts cfg <=? attempts
      then with_attempts b (remove (unmatchedAttempts b) code) (dropped b + count)
      else add_pending (with_attempts b (set (unmatchedAttempts b) code attempts) (dropped b))
             code count
  end.

Definition retry (batch : jsmap Z) (unmatched : list string) (b : buffer) : buffer :=
  fold_left (retry_one batch) unmatched b.

(** [performFlush] from the sink's answer: [unmatched] is a [Set]; an answer of
    [undefined] is one with no unmatched code. *)
Definition finishFlush (batch : jsmap Z) (answer : result (option (list string))) (b : buffer) : buffer :=
  match answer with
  | Throw e => with_flight (restore batch b) (FlushOver (Throw e))
  | Return unmatched =>
      let unmatched := default [] unmatched in
      let b := forget_matched batch unmatched b in
      with_flight (retry batch unmatched b) (FlushOver (Return tt))
  end.

(** [start]: with a timer already set it does nothing. *)
Definition start (b : buffer) : result buffer :=
  if closed b then Throw "click buffer is closed"
  else if timer b then Return b
  else Return {| pending := pending b; pendingTotal := pendingTotal b; timer := true;
                 flushPromise := flushPromise b; closed := closed b;
                 unmatchedAttempts := unmatchedAttempts b; dropped := dropped b |}.

(** [close] up to its first [await]. *)
Definition close (b : buffer) : buffer :=
  if closed b then b
  else {| pending := pending b; pendingTotal := pendingTotal b; timer := false;
          flushPromise := flushPromise b; closed := true;
          unmatchedAttempts := unmatchedAttempts b; dropped := dropped b |}.

(** The loop of [close], once no flush is in progress: [sink k batch] answers
    the [k]-th flush. [None]: the fuel is out. *)
Fixpoint closeLoop (sink : nat -> jsmap Z -> result (option (list string))) (fuel k : nat)
    (b : buffer) : option (buffer * result unit) :=
  match pending b, fuel with
  | [], _ => Some (b, Return tt)
  | _, O => None
  | _, S fuel =>
      let b := beginFlush b in
      match flushPromise b with
      | AwaitsSink batch =>
          let answer := sink k batch in
          let b := with_flight (finishFlush batch answer b) NoFlush in
          match answer with
          | Throw e => Some (b, Throw e)
          | Return _ => closeLoop sink fuel (S k) b
          end
      | _ => Some (b, Return tt)
      end
  end.

(** ** Events *)

Inductive event : Type :=
  | Record_ (code : string)
  | Flush                       (* the interval, a full buffer, a caller or the loop of close *)
  | SinkAnswers (answer : result (option (list string)))
  | FlushFinally
  | Start
  | Close.

Definition answer_ok (answer : result (option (list string))) : bool :=
  match answer with
  | Return (Some unmatched) => bool_decide (NoDup unmatched)
  | _ => true
  end.

Definition step (ev : event) (b : buffer) : option buffer :=
  match ev with
  | Record_ code => match record code b with Return b' => Some b' | Throw _ => Some b end
  | Flush => Some (flush b)
  | SinkAnswers answer =>
      match flushPromise b with
      | AwaitsSink batch => if answer_ok answer then Some (finishFlush batch answer b) else None
      | _ => None
      end
  | FlushFinally =>
      match flushPromise b with FlushOver _ => Some (with_flight b NoFlush) | _ => None end
  | Start => match start b with Return b' => Some b' | Throw _ => Some b end
  | Close => Some (close b)
  end.

(** ** What has become of the clicks

    Clicks recorded, clicks the sink has persisted, clicks given up. *)
Record ledger : Type := { recorded : list (string * Z); persisted : list (string * Z); lost : list (string * Z) }.

Definition recorded_by (ev : event) (b : buffer) : list (string * Z) :=
  match ev with
  | Record_ code => match record code b with Return _ => [(code, 1)] | Throw _ => [] end
  | _ => []
  end.

Definition persisted_by (ev : event) (b : buffer) : list (string * Z) :=
  match ev, flushPromise b with
  | SinkAnswers (Return unmatched), AwaitsSink batch =>
      filter (fun entry => entry.1 ∉ default [] unmatched) batch
  | _, _ => []
  end.

Definition given_up (batch : jsmap Z) (attempts : jsmap Z) (unmatched : list string) : list (string * Z) :=
  omap (fun code =>
    match get batch code with
    | Some count =>
        if maxUnmatchedAttempts cfg <=? count_of attempts code + 1 then Some (code, count) else None
    | None => None
    end) unmatched.

Definition lost_by (ev : event) (b : buffer) : list (string * Z) :=
  match ev, flushPromise b with
  | SinkAnswers (Return unmatched), AwaitsSink batch =>
      given_up batch (unmatchedAttempts b) (default [] unmatched)
  | _, _ => []
  end.

Inductive reachable : buffer -> ledger -> Prop :=
  | reach_new : reachable new_buffer {| recorded := []; persisted := []; lost := [] |}
  | reach_step ev b b' h :
      reachable b h -> step ev b = Some b' ->
      reachable b' {| recorded := recorded_by ev b ++ recorded h;
                      persisted := persisted_by ev b ++ persisted h;
                      lost := lost_by ev b ++ lost h |}.

(** Clicks of one code in a list of entries. *)
Fixpoint clicks_of (code : string) (entries : list (string * Z)) : Z :=
  match entries with
  | [] => 0
  | (c, n) :: entries => (if decide (c = code) then n else 0) + clicks_of code entries
  end.

Definition in_flight (b : buffer) : jsmap Z :=
  match flushPromise b with AwaitsSink batch => batch | _ => [] end.

(** ** Conservation *)

Lemma clicks_of_app code l1 l2 : clicks_of code (l1 ++ l2) = clicks_of code l1 + clicks_of code l2.
Proof. induction l1 as [|[c n] l1 IH]; simpl; [done|]. rewrite IH. lia. Qed.

Lemma clicks_of_absent code l : code ∉ l.*1 -> clicks_of code l = 0.
Proof.
  induction l as [|[c n] l IH]; simpl; [done|]. rewrite not_elem_of_cons. intros [Hc Hl].
  rewrite decide_False by done. by rewrite IH.
Qed.

Lemma clicks_of_map code (m : jsmap Z) : well_keyed m -> clicks_of code m = count_of m code.
Proof.
  unfold well_keyed, count_of. induction m as [|[c n] m IH]; [done|]. cbn [clicks_of get].
  rewrite fmap_cons. intros [Hc Hm]%NoDup_cons. destruct (decide (c = code)) as [->|Hne].
  - rewrite bool_decide_true by done. simpl. rewrite clicks_of_absent by done. lia.
  - rewrite bool_decide_false by done. by rewrite IH.
Qed.

Lemma clicks_of_filter code (m : list (string * Z)) (u : list string) :
  clicks_of code (filter (fun entry => entry.1 ∉ u) m)
  = if decide (code ∈ u) then 0 else clicks_of code m.
Proof.
  induction m as [|[c n] m IH]; [by case_decide|].
  destruct (decide (c ∈ u)) as [Hin|Hn].
  - rewrite filter_cons_False by (simpl; tauto). rewrite IH. cbn [clicks_of].
    case_decide; [done|]. rewrite decide_False by (intros ->; done). lia.
  - rewrite filter_cons_True by done. cbn [clicks_of]. rewrite IH.
    destruct (decide (code ∈ u)); [|lia]. rewrite decide_False by (intros ->; done). lia.
Qed.

(** The parts of a buffer that counting clicks does not touch. *)
Definition same_rest (b b' : buffer) : Prop :=
  timer b' = timer b /\ flushPromise b' = flushPromise b /\ closed b' = closed b.

Lemma restore_spec batch b :
  let b' := restore batch b in
  same_rest b b' /\ unmatchedAttempts b' = unmatchedAttempts b /\ dropped b' = dropped b
  /\ (well_keyed (pending b) -> well_keyed (pending b'))
  /\ pendingTotal b' - total (pending b') = pendingTotal b - total (pending b)
  /\ forall code, count_of (pending b') code = count_of (pending b) code + clicks_of code batch.
Proof.
  revert b; induction batch as [|[c n] batch IH]; intros b; cbv zeta; simpl.
  { split_and!; try done. intros code. lia. }
  destruct (IH (add_pending b c n)) as (H1 & H2 & H3 & H4 & H5 & H6).
  unfold restore in *. split_and!; try done.
  - intros Hw. apply H4. by apply set_well_keyed.
  - rewrite H5. unfold add_pending. cbn [pending pendingTotal with_pending]. rewrite total_add. lia.
  - intros code. rewrite H6. unfold add_pending. cbn [pending with_pending]. rewrite count_add. lia.
Qed.

Lemma forget_matched_spec batch u b :
  let b' := forget_matched batch u b in
  same_rest b b' /\ pending b' = pending b /\ pendingTotal b' = pendingTotal b /\ dropped b' = dropped b
  /\ (well_keyed (unmatchedAttempts b) -> well_keyed (unmatchedAttempts b')
      /\ forall code, get (unmatchedAttempts b') code
           = if bool_decide (code ∈ batch.*1 /\ code ∉ u) then None else get (unmatchedAttempts b) code).
Proof.
  revert b; induction batch as [|[c n] batch IH]; intros b; cbv zeta.
  { by split_and!. }
  unfold forget_matched. cbn [fold_left fst]. case_bool_decide as Hc.
  - destruct (IH b) as (H1 & H2 & H3 & H4 & H5). unfold forget_matched in *. split_and!; try done.
    intros Hw. destruct (H5 Hw) as [Hw' Hg]. split; [done|]. intros code. rewrite Hg.
    rewrite fmap_cons. simpl. erewrite bool_decide_ext; [done|]. set_solver.
  - destruct (IH (with_attempts b (remove (unmatchedAttempts b) c) (dropped b)))
      as (H1 & H2 & H3 & H4 & H5). unfold forget_matched in *. simpl in *. split_and!; try done.
    intros Hw. destruct (H5 (remove_well_keyed _ _ Hw)) as [Hw' Hg]. split; [done|].
    intros code. rewrite Hg, get_remove by done.
    destruct (decide (c = code)) as [->|Hne].
    + rewrite (bool_decide_true (code ∈ code :: _ /\ _)) by set_solver. by case_bool_decide.
    + erewrite bool_decide_ext; [done|]. set_solver.
Qed.

Definition attempts_ok (a : jsmap Z) : Prop :=
  well_keyed a /\ forall code n, get a code = Some n -> 1 <= n < maxUnmatchedAttempts cfg.

(** One unmatched code. *)
Lemma retry_one_spec batch code n b :
  attempts_ok (unmatchedAttempts b) -> get batch code = Some n ->
  let b' := retry_one batch b code in
  let gone := maxUnmatchedAttempts cfg <=? count_of (unmatchedAttempts b) code + 1 in
  same_rest b b' /\ attempts_ok (unmatchedAttempts b')
  /\ (forall c, c <> code -> get (unmatchedAttempts b') c = get (unmatchedAttempts b) c)
  /\ (well_keyed (pending b) -> well_keyed (pending b'))
  /\ pendingTotal b' - total (pending b') = pendingTotal b - total (pending b)
  /\ dropped b' = dropped b + (if gone then n else 0)
  /\ (forall c, count_of (pending b') c
       = count_of (pending b) c + (if decide (code = c) then if gone then 0 else n else 0))
  /\ (gone = false -> get (unmatchedAttempts b') code = Some (count_of (unmatchedAttempts b) code + 1))
  /\ (forall c, c ∈ (pending b').*1 -> c ∈ (pending b).*1 \/ (c = code /\ gone = false)).
Proof.
  intros [Hw Ha] Hn b' gone. unfold b', gone, retry_one. rewrite Hn.
  assert (Hatt : 0 <= count_of (unmatchedAttempts b) code).
  { unfold count_of. destruct (get (unmatchedAttempts b) code) as [m|] eqn:Hm; simpl; [|done]. apply Ha in Hm. lia. }
  destruct (Z.leb_spec (maxUnmatchedAttempts cfg) (count_of (unmatchedAttempts b) code + 1)) as [Hle|Hgt];
    simpl; split_and!; try done.
  - split; [by apply remove_well_keyed|].
    intros c m. rewrite get_remove by done. case_decide; [done|apply Ha].
  - intros c Hc. rewrite get_remove by done. by rewrite decide_False.
  - intros c. case_decide; lia.
  - intros c Hc. by left.
  - split; [by apply set_well_keyed|].
    intros c m. rewrite get_set. case_decide; [intros [= <-]; lia|apply Ha].
  - intros c Hc. rewrite get_set. by rewrite decide_False.
  - intros Hp. by apply set_well_keyed.
  - rewrite total_add. lia.
  - lia.
  - intros c. rewrite count_add. done.
  - intros _. rewrite get_set. by rewrite decide_True.
  - intros c. unfold add_count. rewrite set_keys. destruct (has_key _ _); [by left|].
    rewrite elem_of_app, list_elem_of_singleton. intros [|]; [by left|by right].
Qed.

Lemma given_up_cons batch a code u :
  given_up batch a (code :: u)
  = match get batch code with
    | Some n => if maxUnmatchedAttempts cfg <=? count_of a code + 1 then [(code, n)] else []
    | None => []
    end ++ given_up batch a u.
Proof. unfold given_up. simpl. destruct (get batch code); [|done]. by destruct (_ <=? _). Qed.

Lemma given_up_ext batch a a' u :
  (forall c, c ∈ u -> get a c = get a' c) -> given_up batch a u = given_up batch a' u.
Proof.
  induction u as [|c u IH]; intros Ha; [done|]. rewrite !given_up_cons. unfold count_of.
  rewrite (Ha c) by (by left). f_equal. apply IH. intros c' Hc'. apply Ha. by right.
Qed.

Lemma retry_spec batch u b :
  NoDup u -> attempts_ok (unmatchedAttempts b) ->
  let b' := retry batch u b in
  let gone := given_up batch (unmatchedAttempts b) u in
  same_rest b b' /\ attempts_ok (unmatchedAttempts b')
  /\ (well_keyed (pending b) -> well_keyed (pending b'))
  /\ pendingTotal b' - total (pending b') = pendingTotal b - total (pending b)
  /\ dropped b' = dropped b + total gone
  /\ (forall c, count_of (pending b') c + clicks_of c gone
       = count_of (pending b) c + (if decide (c ∈ u) then count_of batch c else 0))
  /\ (forall c, c ∉ u -> get (unmatchedAttempts b') c = get (unmatchedAttempts b) c)
  /\ (forall c, c ∈ (pending b').*1 -> c ∈ (pending b).*1
       \/ (c ∈ u /\ c ∈ batch.*1
           /\ get (unmatchedAttempts b') c = Some (count_of (unmatchedAttempts b) c + 1))).
Proof.
  intros Hnd. revert b; induction u as [|code u IH]; intros b Ha; cbv zeta.
  { simpl. split_and!; try done; try (by intros; left); lia. }
  apply NoDup_cons in Hnd as [Hcode Hnd]. 
  change (retry batch (code :: u) b) with (retry batch u (retry_one batch b code)).
  destruct (get batch code) as [n|] eqn:Hn.
  - pose proof (retry_one_spec batch code n b Ha Hn) as (H1 & H2 & H3 & H4 & H5 & H6 & H7 & H8 & H9).
    cbv zeta in H8. set (b1 := retry_one batch b code) in *.
    destruct (IH Hnd b1 H2) as (I1 & I2 & I3 & I4 & I5 & I6 & I8 & I7).
    assert (Hext : given_up batch (unmatchedAttempts b1) u = given_up batch (unmatchedAttempts b) u).
    { apply given_up_ext. intros c Hc. apply H3. intros ->. done. }
    rewrite Hext in I5, I6.
    assert (Hgone : given_up batch (unmatchedAttempts b) (code :: u)
      = (if maxUnmatchedAttempts cfg <=? count_of (unmatchedAttempts b) code + 1 then [(code, n)] else [])
        ++ given_up batch (unmatchedAttempts b) u).
    { by rewrite given_up_cons, Hn. }
    rewrite Hgone. split_and!.
    + unfold same_rest in *. intuition congruence.
    + done.
    + auto.
    + lia.
    + rewrite I5, H6, total_app. destruct (_ <=? _); simpl; lia.
    + intros c. rewrite clicks_of_app. specialize (I6 c). rewrite H7 in I6.
      destruct (decide (code = c)) as [<-|Hne].
      * rewrite (decide_True (P := code ∈ code :: u)) by (by left).
        rewrite (decide_False (P := code ∈ u)) in I6 by done.
        assert (Hcb : count_of batch code = n) by (unfold count_of; by rewrite Hn). rewrite Hcb.
        destruct (_ <=? _); simpl; [rewrite decide_True by done|]; lia.
      * assert (Hcl : clicks_of c (if maxUnmatchedAttempts cfg <=? count_of (unmatchedAttempts b) code + 1
          then [(code, n)] else []) = 0) by (destruct (_ <=? _); simpl; rewrite ?decide_False by done; lia).
        rewrite Hcl. destruct (decide (c ∈ u)); [rewrite decide_True by (by right)|rewrite decide_False]; try lia.
        rewrite not_elem_of_cons. split; congruence.
    + intros c [Hne Hc]%not_elem_of_cons. by rewrite I8, H3.
    + intros c Hc. destruct (I7 c Hc) as [Hin|(Hin & Hbatch & Hget)].
      * destruct (H9 c Hin) as [|[-> Hkeep]]; [by left|]. right.
        split_and!; [by left|by eapply get_some_key|].
        rewrite (I8 _ Hcode). apply H8, Hkeep.
      * right. split_and!; [by right|done|]. rewrite Hget. unfold count_of. rewrite H3; [done|]. congruence.
  - assert (Hb1 : retry_one batch b code = b) by (unfold retry_one; by rewrite Hn). rewrite Hb1.
    destruct (IH Hnd b Ha) as (I1 & I2 & I3 & I4 & I5 & I6 & I8 & I7).
    assert (Hgone : given_up batch (unmatchedAttempts b) (code :: u)
      = given_up batch (unmatchedAttempts b) u) by (by rewrite given_up_cons, Hn).
    rewrite Hgone. split_and!; try done.
    + intros c. rewrite I6. destruct (decide (code = c)) as [<-|Hne].
      * rewrite (decide_True (P := code ∈ code :: u)) by apply list_elem_of_here.
        rewrite (decide_False (P := code ∈ u)) by done. unfold count_of. rewrite Hn. done.
      * destruct (decide (c ∈ u)); [rewrite decide_True by (by right)|rewrite decide_False]; [done|done|].
        rewrite not_elem_of_cons. split; congruence.
    + intros c [Hne Hc]%not_elem_of_cons. by apply I8.
    + intros c Hc. destruct (I7 c Hc) as [Hin|[Hin Hrest]]; [by left|]. right. split; [by right|done].
Qed.
(** ** The invariant *)

Record coherent (b : buffer) : Prop := {
  coherent_pending : well_keyed (pending b);
  coherent_batch : well_keyed (in_flight b);
  coherent_total : pendingTotal b = total (pending b);
  coherent_attempts : attempts_ok (unmatchedAttempts b);
  coherent_awaited : forall code, code ∈ (unmatchedAttempts b).*1 ->
    code ∈ (pending b).*1 \/ code ∈ (in_flight b).*1
}.

Definition clicks_in (b : buffer) (code : string) : Z :=
  count_of (pending b) code + count_of (in_flight b) code.

Lemma set_key_elem (m : jsmap Z) k v c : c ∈ (set m k v).*1 <-> c = k \/ c ∈ m.*1.
Proof.
  rewrite set_keys. destruct (has_key m k) eqn:Hk.
  - split; [by right|]. intros [->|]; [|done]. unfold has_key in Hk.
    destruct (get m k) eqn:Hg; [|done]. by eapply get_some_key.
  - rewrite elem_of_app, list_elem_of_singleton. tauto.
Qed.

Lemma restore_keys batch b c :
  c ∈ (pending (restore batch b)).*1 <-> c ∈ (pending b).*1 \/ c ∈ batch.*1.
Proof.
  revert b; induction batch as [|[a n] batch IH]; intros b; unfold restore in *; cbn [fold_left].
  { split; [by left|]. intros [|H%not_elem_of_nil]; done. }
  rewrite IH, fmap_cons, elem_of_cons. unfold add_pending, add_count. cbn [pending with_pending fst].
  rewrite set_key_elem. cbn. tauto.
Qed.

(** A code with failed attempts is always counted again or in the batch. *)
Lemma retry_awaited batch u b :
  attempts_ok (unmatchedAttempts b) ->
  (forall c, c ∈ (unmatchedAttempts b).*1 -> c ∈ (pending b).*1 \/ (c ∈ u /\ c ∈ batch.*1)) ->
  forall c, c ∈ (unmatchedAttempts (retry batch u b)).*1 -> c ∈ (pending (retry batch u b)).*1.
Proof.
  revert b; induction u as [|code u IH]; intros b Ha Hb.
  { intros c Hc. by destruct (Hb c Hc) as [|[?%not_elem_of_nil _]]. }
  change (retry batch (code :: u) b) with (retry batch u (retry_one batch b code)).
  destruct (get batch code) as [n|] eqn:Hn.
  - apply IH; [by apply (retry_one_spec batch code n)|]. destruct Ha as [Hw _].
    intros c. unfold retry_one. rewrite Hn. destruct (_ <=? _); cbn [unmatchedAttempts pending with_attempts with_pending add_pending].
    + intros Hc. pose proof (key_get _ _ Hc) as Hg. rewrite get_remove in Hg by done. case_decide; [done|].
      destruct (Hb c (remove_keys_sub _ _ _ Hc)) as [|[[->|]%elem_of_cons ?]]; [by left|done|by right].
    + unfold add_count. rewrite !set_key_elem. intros [->|Hc]; [by left; left|].
      destruct (Hb c Hc) as [|[[->|]%elem_of_cons ?]]; [by left; right|by left; left|by right].
  - assert (Hb1 : retry_one batch b code = b) by (unfold retry_one; by rewrite Hn). rewrite Hb1.
    apply IH; [done|]. apply get_none in Hn.
    intros c Hc. destruct (Hb c Hc) as [|[[->|]%elem_of_cons ?]]; [by left|done|by right].
Qed.

Lemma finish_coherent batch answer b :
  coherent b -> flushPromise b = AwaitsSink batch -> answer_ok answer ->
  coherent (finishFlush batch answer b)
  /\ match answer with
     | Throw _ =>
         dropped (finishFlush batch answer b) = dropped b
         /\ forall c, count_of (pending (finishFlush batch answer b)) c = clicks_in b c
     | Return u =>
         let gone := given_up batch (unmatchedAttempts b) (default [] u) in
         dropped (finishFlush batch answer b) = dropped b + total gone
         /\ forall c, count_of (pending (finishFlush batch answer b)) c + clicks_of c gone
              + (if decide (c ∈ default [] u) then 0 else count_of batch c) = clicks_in b c
     end.
Proof.
  intros [Hp Hf Ht Ha Hk] Hfl Hok. unfold clicks_in, in_flight in *. rewrite Hfl in *.
  destruct answer as [u|e].
  - assert (Hnd : NoDup (default [] u)).
    { destruct u as [u|]; [by apply bool_decide_unpack in Hok|constructor]. }
    cbn [finishFlush]. set (l := default [] u) in *.
    destruct (forget_matched_spec batch l b) as (_ & F1 & F2 & F3 & F4). destruct Ha as [Hw Ha].
    destruct (F4 Hw) as [Hw1 Hg]. set (b1 := forget_matched batch l b) in *.
    assert (Ha1 : attempts_ok (unmatchedAttempts b1)).
    { split; [done|]. intros c n. rewrite Hg. case_bool_decide; [done|apply Ha]. }
    destruct (retry_spec batch l b1 Hnd Ha1) as (_ & R1 & R2 & R3 & R4 & R5 & _).
    rewrite (given_up_ext batch _ (unmatchedAttempts b)) in R4, R5
      by (intros c Hc; rewrite Hg, bool_decide_false by tauto; done).
    split; [split|]; cbn [with_flight pending pendingTotal unmatchedAttempts flushPromise dropped].
    + apply R2. by rewrite F1.
    + constructor.
    + rewrite F1, F2 in R3. lia.
    + done.
    + intros c Hc. left. apply retry_awaited; [done| |done]. clear c Hc. intros c Hc. rewrite F1.
      pose proof (key_get _ _ Hc) as Hgc. rewrite Hg in Hgc. case_bool_decide as Hb; [done|].
      destruct (get _ c) eqn:Hgc'; [|done]. destruct (decide (c ∈ l)); [|].
      * destruct (Hk c) as [|]; [by eapply get_some_key|by left|by right].
      * destruct (Hk c) as [|]; [by eapply get_some_key|by left|tauto].
    + split; [by rewrite R4, F3|]. intros c. specialize (R5 c). rewrite F1 in R5.
      case_decide; lia.
  - cbn [finishFlush]. destruct (restore_spec batch b) as (_ & R1 & R2 & R3 & R4 & R5).
    split; [split|]; cbn [with_flight pending pendingTotal unmatchedAttempts flushPromise dropped].
    + by apply R3.
    + constructor.
    + lia.
    + by rewrite R1.
    + intros c. rewrite R1, restore_keys. intros Hc. left. by apply Hk.
    + split; [done|]. intros c. rewrite R5. by rewrite clicks_of_map.
Qed.

Lemma flush_coherent b :
  coherent b ->
  coherent (flush b) /\ dropped (flush b) = dropped b /\ forall c, clicks_in (flush b) c = clicks_in b c.
Proof.
  intros Hb. unfold flush. destruct (flushPromise b) eqn:Hfl; [|by split_and!..].
  destruct Hb as [Hp Hf Ht Ha Hk]. unfold beginFlush, clicks_in, in_flight in *. rewrite Hfl in *.
  destruct (pending b) as [|p batch] eqn:Hpb.
  - split; [split|]; cbn; rewrite ?Hpb; done.
  - split; [split|split; [done|intros c; cbn; lia]]; cbn; try done; try (by constructor).
    intros c Hc. right. by destruct (Hk c Hc) as [|?%not_elem_of_nil].
Qed.

Lemma add_pending_coherent b code n :
  coherent b ->
  coherent (add_pending b code n)
  /\ forall c, clicks_in (add_pending b code n) c = clicks_in b c + (if decide (code = c) then n else 0).
Proof.
  intros [Hp Hf Ht Ha Hk]. split; [split|]; unfold clicks_in, in_flight in *; cbn [add_pending with_pending pending pendingTotal flushPromise unmatchedAttempts]; try done.
  - by apply set_well_keyed.
  - rewrite total_add. lia.
  - intros c Hc. unfold add_count. rewrite set_key_elem. destruct (Hk c Hc); tauto.
  - intros c. rewrite count_add. lia.
Qed.

Lemma record_coherent b code b' :
  coherent b -> record code b = Return b' ->
  coherent b' /\ dropped b' = dropped b
  /\ forall c, clicks_in b' c = clicks_in b c + (if decide (code = c) then 1 else 0).
Proof.
  intros Hb. unfold record. destruct (closed b); [done|]. case_bool_decide; [done|].
  cbv zeta. intros [= <-]. destruct (add_pending_coherent b code 1 Hb) as [Hadd Hc].
  destruct (_ <=? _); [|by split_and!]. destruct (flush_coherent _ Hadd) as (H1 & H2 & H3).
  split_and!; [done|done|]. intros c. by rewrite H3.
Qed.

(** Every event keeps the buffer coherent and accounts for every click. *)
Lemma step_coherent ev b b' :
  coherent b -> step ev b = Some b' ->
  coherent b' /\ dropped b' = dropped b + total (lost_by ev b)
  /\ forall c, clicks_in b c + clicks_of c (recorded_by ev b)
       = clicks_in b' c + clicks_of c (persisted_by ev b) + clicks_of c (lost_by ev b).
Proof.
  intros Hb. destruct ev as [code| |answer| | |]; cbn [step].
  - unfold recorded_by, persisted_by, lost_by. destruct (record code b) as [b1|] eqn:Hr; intros [= <-].
    + destruct (record_coherent _ _ _ Hb Hr) as (H1 & H2 & H3). split_and!; [done|simpl; lia|].
      intros c. rewrite H3. simpl. lia.
    + split_and!; [done|simpl; lia|simpl; lia].
  - intros [= <-]. destruct (flush_coherent b Hb) as (H1 & H2 & H3). split_and!; [done|simpl; lia|].
    intros c. rewrite H3. simpl. lia.
  - destruct (flushPromise b) as [|batch|] eqn:Hfl; [done| |done].
    destruct (answer_ok answer) eqn:Hok; [|done]. intros [= <-].
    destruct (finish_coherent batch answer b Hb Hfl) as [Hc Hrest]; [by rewrite Hok|].
    assert (Hif : in_flight (finishFlush batch answer b) = []) by (by destruct answer).
    unfold persisted_by, lost_by, recorded_by. rewrite Hfl.
    destruct answer as [u|e]; destruct Hrest as [Hd Hsum]; (split_and!; [done|rewrite Hd; unfold total; simpl; lia|]); intros c;
      specialize (Hsum c); unfold clicks_in in *; rewrite Hif in *.
    + rewrite clicks_of_filter. pose proof (coherent_batch _ Hb) as Hw. unfold in_flight in *.
      rewrite Hfl in *. rewrite (clicks_of_map c batch) by done. cbn [clicks_of].
      change (count_of [] c) with 0. case_decide; lia.
    + cbn [clicks_of]. change (count_of [] c) with 0. lia.
  - destruct (flushPromise b) as [|batch|] eqn:Hfl; [done..|]. intros [= <-].
    destruct Hb as [Hp Hf Ht Ha Hk]. unfold clicks_in, in_flight in *. rewrite Hfl in *.
    split_and!; [by split|simpl; lia|simpl; lia].
  - unfold start. destruct (closed b); [|destruct (timer b)]; intros [= <-];
      (split_and!; [by destruct Hb; split|simpl; lia|intros c; unfold clicks_in, in_flight; simpl; lia]).
  - unfold close. destruct (closed b); intros [= <-];
      (split_and!; [by destruct Hb; split|simpl; lia|intros c; unfold clicks_in, in_flight; simpl; lia]).
Qed.

(** Recorded clicks are persisted, given up, pending or in flight. *)
Definition accounted (b : buffer) (h : ledger) : Prop :=
  forall code, clicks_of code (recorded h)
    = clicks_of code (persisted h) + clicks_of code (lost h)
      + count_of (pending b) code + count_of (in_flight b) code.

Lemma reachable_invariant b h :
  reachable b h -> coherent b /\ accounted b h /\ droppedClicks b = total (lost h).
Proof.
  intros Hr. induction Hr as [|ev b b' h Hr (Hc & Hacc & Hd) Hstep].
  - split_and!; [|done..]. repeat split; try constructor; try done.
  - destruct (step_coherent ev b b' Hc Hstep) as (Hc' & Hd' & Hsum). split_and!; [done| |].
    + intros c. simpl. rewrite !clicks_of_app. specialize (Hsum c). specialize (Hacc c).
      unfold clicks_in in Hsum. lia.
    + unfold droppedClicks in *. simpl. rewrite total_app. lia.
Qed.

(** C10. Whatever the order of records, flushes, answers and failures of the
    sink and of closing: for every code, the clicks recorded are the clicks
    persisted, plus those given up and counted by [droppedClicks], plus those
    pending and those in the batch the sink is working on; [pendingClicks] is
    the number pending; and the table of failed attempts only holds codes that
    still wait, each with fewer attempts than the maximum. *)
Theorem clicks_accounted b h :
  reachable b h ->
  accounted b h
  /\ pendingClicks b = total (pending b) /\ droppedClicks b = total (lost h)
  /\ forall code n, get (unmatchedAttempts b) code = Some n ->
       1 <= n < maxUnmatchedAttempts cfg
       /\ (has_key (pending b) code || has_key (in_flight b) code).
Proof.
  intros Hr. destruct (reachable_invariant b h Hr) as ([Hp Hf Ht Ha Hk] & Hacc & Hd). split_and!; [done..|].
  intros code n Hn. split; [by eapply (proj2 Ha)|]. apply orb_True.
  destruct (Hk code (get_some_key _ _ _ Hn)); [left|right]; by apply has_key_elem.
Qed.

(** ** Closing *)

(** One turn of the loop: what is still pending has one more failed attempt. *)
Lemma turn_attempts batch u b :
  coherent b -> flushPromise b = AwaitsSink batch -> answer_ok (Return u) -> pending b = [] ->
  forall c, c ∈ (pending (finishFlush batch (Return u) b)).*1 ->
    count_of (unmatchedAttempts (finishFlush batch (Return u) b)) c = count_of (unmatchedAttempts b) c + 1
    /\ c ∈ batch.*1.
Proof.
  intros Hb Hfl Hok Hp c Hc. cbn [finishFlush] in *. set (l := default [] u) in *.
  cbn [with_flight pending unmatchedAttempts] in *.
  assert (Hnd : NoDup l) by (destruct u; [by apply bool_decide_unpack in Hok|constructor]).
  destruct (coherent_attempts _ Hb) as [Hw Ha].
  destruct (forget_matched_spec batch l b) as (_ & F1 & F2 & F3 & F4). destruct (F4 Hw) as [Hw1 Hg].
  set (b1 := forget_matched batch l b) in *.
  assert (Ha1 : attempts_ok (unmatchedAttempts b1)).
  { split; [done|]. intros c' n. rewrite Hg. case_bool_decide; [done|apply Ha]. }
  destruct (retry_spec batch l b1 Hnd Ha1) as (_ & R1 & R2 & R3 & R4 & R5 & R6 & R7).
  destruct (R7 c Hc) as [H|(Hcl & Hbatch & Hget)];
    [by rewrite F1, Hp in H; apply not_elem_of_nil in H|]. split; [|done].
  unfold count_of at 1. rewrite Hget. simpl. unfold count_of.
  by rewrite Hg, bool_decide_false by tauto.
Qed.

Lemma finish_reach batch answer b h :
  reachable b h -> flushPromise b = NoFlush -> pending b = batch -> batch <> [] -> answer_ok answer ->
  flushPromise (beginFlush b) = AwaitsSink batch
  /\ exists h', reachable (with_flight (finishFlush batch answer (beginFlush b)) NoFlush) h'
       /\ recorded h' = recorded h.
Proof.
  intros Hr Hfl Hp Hne Hok.
  assert (Hbegin : flushPromise (beginFlush b) = AwaitsSink batch).
  { unfold beginFlush. rewrite Hp. by destruct batch. }
  split; [done|].
  assert (H1 : step Flush b = Some (beginFlush b)) by (simpl; unfold flush; by rewrite Hfl).
  pose proof (reach_step _ _ _ _ Hr H1) as Hr1.
  assert (H2 : step (SinkAnswers answer) (beginFlush b) = Some (finishFlush batch answer (beginFlush b))).
  { cbn [step]. rewrite Hbegin. by destruct (answer_ok answer). }
  pose proof (reach_step _ _ _ _ Hr1 H2) as Hr2.
  assert (H3 : step FlushFinally (finishFlush batch answer (beginFlush b))
    = Some (with_flight (finishFlush batch answer (beginFlush b)) NoFlush)) by (by destruct answer).
  eexists. split; [exact (reach_step _ _ _ _ Hr2 H3)|done].
Qed.

Lemma closeLoop_ends sink fuel k b h :
  (forall k batch, answer_ok (sink k batch)) ->
  reachable b h -> flushPromise b = NoFlush ->
  1 <= maxUnmatchedAttempts cfg -> Z.of_nat fuel + Z.of_nat k = maxUnmatchedAttempts cfg ->
  (forall c, c ∈ (pending b).*1 -> Z.of_nat k <= count_of (unmatchedAttempts b) c) ->
  exists b' h' r, closeLoop sink fuel k b = Some (b', r)
    /\ reachable b' h' /\ recorded h' = recorded h /\ flushPromise b' = NoFlush
    /\ match r with
       | Return _ => pending b' = []
       | Throw e => exists k' batch, sink k' batch = Throw e
       end.
Proof.
  intros Hsink. revert k b h. induction fuel as [|fuel IH]; intros k b h Hr Hfl Hmax Hfuel Hk;
    cbn [closeLoop]; destruct (pending b) as [|p batch] eqn:Hp;
    try (exists b, h, (Return tt); by split_and!).
  - exfalso. destruct (reachable_invariant b h Hr) as ([_ _ _ [_ Ha] _] & _).
    assert (Hin : p.1 ∈ (p :: batch).*1) by (rewrite fmap_cons; by left).
    specialize (Hk _ Hin). unfold count_of in Hk.
    destruct (get _ p.1) as [n|] eqn:Hn; simpl in Hk; [apply Ha in Hn|]; lia.
  - destruct (finish_reach (p :: batch) (sink k (p :: batch)) b h) as (Hbegin & h1 & Hr1 & Hh1); [done..|].
    rewrite Hbegin. destruct (sink k (p :: batch)) as [u|e] eqn:Hs.
    + destruct (IH (S k) _ h1 Hr1) as (b' & h' & r & Hres); [done|done|lia| |].
      * cbn [with_flight pending unmatchedAttempts]. intros c Hc.
        assert (Hr0 : reachable (beginFlush b)
          {| recorded := [] ++ recorded h; persisted := [] ++ persisted h; lost := [] ++ lost h |}).
        { apply (reach_step Flush b); [done|]. simpl. unfold flush. by rewrite Hfl. }
        apply reachable_invariant in Hr0 as (Hc0 & _).
        destruct (turn_attempts (p :: batch) u (beginFlush b) Hc0 Hbegin) with (c := c) as [Hatt Hbatch];
          [by rewrite <- Hs|unfold beginFlush; by rewrite Hp|done|].
        rewrite Hatt. specialize (Hk c Hbatch).
        assert (unmatchedAttempts (beginFlush b) = unmatchedAttempts b) as ->
          by (unfold beginFlush; by rewrite Hp). lia.
      * exists b', h', r. by rewrite <- Hh1.
    + eexists _, h1, (Throw e). split_and!; [done|done|done|done|]. by exists k, (p :: batch).
Qed.

(** C26. Closing ends: however the sink answers, the loop of [close] needs at
    most [maxUnmatchedAttempts] flushes. If no flush fails it leaves nothing
    pending, so that every click ever recorded has been persisted or counted
    by [droppedClicks]; otherwise it rejects with the sink's error and the
    buffer still accounts for every click. *)
Theorem close_drains sink b h :
  1 <= maxUnmatchedAttempts cfg -> (forall k batch, answer_ok (sink k batch)) ->
  reachable b h -> flushPromise b = NoFlush ->
  exists b' h' r, closeLoop sink (Z.to_nat (maxUnmatchedAttempts cfg)) 0 b = Some (b', r)
    /\ accounted b' h' /\ recorded h' = recorded h
    /\ match r with
       | Return _ => pendingClicks b' = 0
           /\ forall c, clicks_of c (recorded h) = clicks_of c (persisted h') + clicks_of c (lost h')
       | Throw e => exists k batch, sink k batch = Throw e
       end.
Proof.
  intros Hmax Hsink Hr Hfl.
  destruct (closeLoop_ends sink (Z.to_nat (maxUnmatchedAttempts cfg)) 0 b h)
    as (b' & h' & r & Hl & Hr' & Hrec & Hfl' & Hcase); try done; [lia| |].
  { intros c _. destruct (reachable_invariant b h Hr) as ([_ _ _ [_ Ha] _] & _).
    unfold count_of. destruct (get _ c) as [n|] eqn:Hn; simpl; [apply Ha in Hn|]; lia. }
  destruct (reachable_invariant b' h' Hr') as (Hco & Hacc & _).
  exists b', h', r. split_and!; try done. destruct r as [|e]; [|done]. split.
  - unfold pendingClicks. by rewrite (coherent_total _ Hco), Hcase.
  - intros c. rewrite <- Hrec, (Hacc c). unfold in_flight. rewrite Hfl', Hcase.
    change (count_of [] c) with 0. lia.
Qed.
End Buffer.

(** ** Witnesses *)

(** The events of a run, and the ledger they leave. *)
Definition run_step (cfg : config) (ev : event) (s : buffer * ledger) : option (buffer * ledger) :=
  let '(b, h) := s in
  b' ← step cfg ev b;
  Some (b', {| recorded := recorded_by cfg ev b ++ recorded h;
               persisted := persisted_by ev b ++ persisted h;
               lost := lost_by cfg ev b ++ lost h |}).

Definition run_events (cfg : config) (evs : list event) (s : buffer * ledger) : option (buffer * ledger) :=
  fold_left (fun s ev => s ≫= run_step cfg ev) evs (Some s).

Lemma run_events_reachable cfg evs b h b' h' :
  reachable cfg b h -> run_events cfg evs (b, h) = Some (b', h') -> reachable cfg b' h'.
Proof.
  revert b h; induction evs as [|ev evs IH]; intros b h Hr; unfold run_events; simpl.
  { by intros [= <- <-]. }
  destruct (step cfg ev b) as [b1|] eqn:Hstep; simpl.
  - apply IH. by apply reach_step.
  - intros H. exfalso. revert H. clear. by induction evs.
Qed.

Definition small : config := {| flushIntervalMs := 1000; maxPendingClicks := 3; maxUnmatchedAttempts := 2 |}.

(** Three clicks fill the buffer; one click more is recorded while the sink
    works; the sink does not find code y, and the next flush fails. *)
Definition some_events : list event :=
  [Record_ "x"; Record_ "y"; Record_ "x"; Record_ "x"; SinkAnswers (Return (Some ["y"])); FlushFinally;
   Flush; SinkAnswers (Throw "connection lost"); FlushFinally].

Definition after_events : buffer :=
  {| pending := [("x", 1); ("y", 1)]; pendingTotal := 2; timer := false; flushPromise := NoFlush;
     closed := false; unmatchedAttempts := [("y", 1)]; dropped := 0 |}.

Definition some_ledger : ledger :=
  {| recorded := [("x", 1); ("x", 1); ("y", 1); ("x", 1)]; persisted := [("x", 2)]; lost := [] |}.

Lemma clicks_accounted_witness : accounted after_events some_ledger.
Proof.
  apply (clicks_accounted small after_events some_ledger).
  apply (run_events_reachable small some_events new_buffer {| recorded := []; persisted := []; lost := [] |});
    [constructor|reflexivity].
Defined.

Lemma close_drains_witness :
  exists b' h' r,
    closeLoop small (fun _ _ => Return (Some ["y"])) 2 0 after_events = Some (b', r)
    /\ recorded h' = recorded some_ledger.
Proof.
  destruct (close_drains small (fun _ _ => Return (Some ["y"])) after_events some_ledger)
    as (b' & h' & r & H1 & _ & H2 & _).
  - done.
  - intros _ _. reflexivity.
  - apply (run_events_reachable small some_events new_buffer {| recorded := []; persisted := []; lost := [] |});
      [constructor|reflexivity].
  - reflexivity.
  - exists b', h', r. by split.
Defined.
End ClickBuffer.
