(* ===== verification/Async.v ===== *)
(** * Asynchronous functions

    An [async] TypeScript function is a program over the effects its class
    depends on: it awaits a call, gets a value or an exception back, and
    continues. The same program is executed by [run] and reasoned about
    with [wp]. *)
From S2P Require Import Prelude.

Section IO.
Context {E : Type -> Type}.

Inductive io (A : Type) : Type :=
  | Done (a : A)
  | Await {X : Type} (e : E X) (k : result X -> io A).
Arguments Done {A} a.
Arguments Await {A X} e k.

Fixpoint io_bind {A B} (m : io A) (f : A -> io B) : io B :=
  match m with
  | Done a => f a
  | Await e k => Await e (fun r => io_bind (k r) f)
  end.

(** A promise of an [A]: it resolves or rejects. *)
Definition async (A : Type) : Type := io (result A).

Definition resolve {A} (a : A) : async A := Done (Return a).
Definition reject {A} (message : string) : async A := Done (Throw message).

(** [await e] of one external call. *)
Definition call {X} (e : E X) : async X := Await e Done.

Definition async_bind {A B} (m : async A) (f : A -> async B) : async B :=
  io_bind m (fun r => match r with Return a => f a | Throw e => reject e end).

(** [try { m } catch (e) { h }] and [try { m } finally { f }]. *)
Definition try_catch {A} (m : async A) (h : string -> async A) : async A :=
  io_bind m (fun r => match r with Return a => resolve a | Throw e => h e end).

Definition try_finally {A} (m : async A) (f : async unit) : async A :=
  io_bind m (fun r => io_bind f (fun q =>
    match q with Return _ => Done r | Throw e => reject e end)).

(** [Promise.all] of calls that each make one external call: they go out in
    order, and the first failure is reported. *)
Fixpoint promise_all {A} (ms : list (async A)) : async (list A) :=
  match ms with
  | [] => resolve []
  | m :: ms =>
      io_bind m (fun r => io_bind (promise_all ms) (fun rs =>
        Done (match r, rs with
              | Return a, Return l => Return (a :: l)
              | Throw e, _ => Throw e
              | _, Throw e => Throw e
              end)))
  end.

(** ** Execution against a state *)
Context {W : Type} (handle : forall X, E X -> W -> W * result X).

Fixpoint run {A} (m : io A) (w : W) : W * A :=
  match m with
  | Done a => (w, a)
  | Await e k => let '(w', r) := handle _ e w in run (k r) w'
  end.

Lemma run_bind {A B} (m : io A) (f : A -> io B) w :
  run (io_bind m f) w = let '(w', a) := run m w in run (f a) w'.
Proof.
  revert w; induction m as [a|X e k IH]; intros w; simpl; [done|].
  destruct (handle X e w) as [w' r]. apply IH.
Qed.

Lemma run_async_bind {A B} (m : async A) (f : A -> async B) w :
  run (async_bind m f) w
  = let '(w', r) := run m w in
    match r with Return a => run (f a) w' | Throw e => (w', Throw e) end.
Proof.
  unfold async_bind. rewrite run_bind. destruct (run m w) as [w' [a|e]]; done.
Qed.

Lemma run_try_catch {A} (m : async A) h w :
  run (try_catch m h) w
  = let '(w', r) := run m w in
    match r with Return a => (w', Return a) | Throw e => run (h e) w' end.
Proof.
  unfold try_catch. rewrite run_bind. destruct (run m w) as [w' [a|e]]; done.
Qed.

Lemma run_try_finally {A} (m : async A) f w :
  run (try_finally m f) w
  = let '(w', r) := run m w in
    let '(w'', q) := run f w' in
    match q with Return _ => (w'', r) | Throw e => (w'', Throw e) end.
Proof.
  unfold try_finally. rewrite run_bind. destruct (run m w) as [w' r].
  rewrite run_bind. destruct (run f w') as [w'' [u|e]]; done.
Qed.

Lemma run_call {X} (e : E X) w : run (call e) w = handle X e w.
Proof. simpl. by destruct (handle X e w). Qed.
End IO.

Arguments io E A : clear implicits.
Arguments async E A : clear implicits.
Arguments Done {E A} a.
Arguments Await {E A X} e k.

Notation "'await' x <- m ; f" := (async_bind m (fun x => f))
  (at level 90, x name, m at level 89, right associativity) : wraplink_scope.
Notation "'await' ' p <- m ; f" := (async_bind m (fun x => match x with p => f end))
  (at level 90, p pattern, m at level 89, right associativity) : wraplink_scope.
Notation "'await_' m ; f" := (async_bind m (fun _ => f))
  (at level 90, m at level 89, right associativity) : wraplink_scope.

(** A synchronous function that throws, called from an [async] one. *)
Definition lift {E A} (r : result A) : async E A := Done r.

Create Rewrite HintDb run.
#[export] Hint Rewrite @run_async_bind @run_try_catch @run_try_finally @run_call : run.

(** ** Invariants of interleaved execution

    [wp spec P m Q]: every call [m] makes is allowed in the ghost state it is
    made in, each answer moves the ghost state as [spec] says, and [m] ends in
    a ghost state satisfying [Q]. [spec g e r g'] relates the ghost state
    before and after call [e] answered by [r]. *)
Section WP.
Context {E : Type -> Type} {G : Type}.
Context (allowed : forall X, G -> E X -> Prop).
Context (answer : forall X, G -> E X -> result X -> G -> Prop).

Fixpoint wp {A} (m : io E A) (Q : G -> A -> Prop) (g : G) : Prop :=
  match m with
  | Done a => Q g a
  | Await e k =>
      allowed _ g e /\ forall r g', answer _ g e r g' -> wp (k r) Q g'
  end.

Lemma wp_bind {A B} (m : io E A) (f : A -> io E B) Q g :
  wp m (fun g' a => wp (f a) Q g') g -> wp (io_bind m f) Q g.
Proof.
  revert g; induction m as [a|X e k IH]; intros g; simpl; [done|].
  intros [Ha Hk]. split; [done|]. intros r g' Hans. by apply IH, Hk.
Qed.

Lemma wp_mono {A} (m : io E A) (P Q : G -> A -> Prop) g :
  (forall g' a, P g' a -> Q g' a) -> wp m P g -> wp m Q g.
Proof.
  intros HPQ. revert g; induction m as [a|X e k IH]; intros g; simpl; [by apply HPQ|].
  intros [Ha Hk]. split; [done|]. intros r g' Hans. by apply IH, Hk.
Qed.

Lemma wp_async_bind {A B} (m : async E A) (f : A -> async E B) Q g :
  wp m (fun g' r => match r with Return a => wp (f a) Q g' | Throw e => Q g' (Throw e) end) g ->
  wp (async_bind m f) Q g.
Proof. intros Hm. apply wp_bind. eapply wp_mono; [|exact Hm]. by intros g' [a|e]. Qed.

Lemma wp_call {X} (e : E X) Q g :
  allowed _ g e -> (forall r g', answer _ g e r g' -> Q g' r) -> wp (call e) Q g.
Proof. by split. Qed.
End WP.
