(* ===== verification/Redis.v ===== *)
(** * Redis

    Redis is not part of the repository. The programs below send it commands,
    one at a time or as atomic Lua scripts and transactions; the server is the
    parameter [execute] of the class [Redis], whose laws are the documented
    behaviour of each command on the keyspace. *)
From S2P Require Import Prelude JsNum JsString Async.
Open Scope Z_scope.

(** ** Keyspace, commands, replies *)

Inductive rvalue : Type :=
  | RString (s : string)
  | RHash (h : gmap string string)
  | RList (l : list string).

(** A key with its value and its remaining time to live in milliseconds. *)
Record rentry : Type := { value : rvalue; pttl : option Z }.

Abbreviation keyspace := (gmap string rentry).

Inductive command : Type :=
  | EXISTS (key : string)
  | DEL (key : string)
  | PTTL (key : string)
  | TTL (key : string)
  | PEXPIRE (key : string) (milliseconds : Z)
  | EXPIRE (key : string) (seconds : Z)
  | GET (key : string)
  | SET_NX_PX (key value : string) (milliseconds : Z)
  | INCR (key : string)
  | HGET (key field : string)
  | HGETALL (key : string)
  | HSET (key : string) (fields : list (string * string))
  | HDEL (key field : string)
  | HINCRBY (key field : string) (increment : Z)
  | PERSIST (key : string)
  | LLEN (key : string)
  | LRANGE (key : string) (start stop : Z)
  | LTRIM (key : string) (start stop : Z)
  | RPUSH (key element : string).

Definition command_key (c : command) : string :=
  match c with
  | EXISTS k | DEL k | PTTL k | TTL k | PEXPIRE k _ | EXPIRE k _ | GET k | SET_NX_PX k _ _
  | INCR k | HGET k _ | HGETALL k | HSET k _ | HDEL k _ | HINCRBY k _ _ | PERSIST k | LLEN k
  | LRANGE k _ _ | LTRIM k _ _ | RPUSH k _ => k
  end.

Inductive reply : Type :=
  | Nil
  | OK
  | Int (n : Z)
  | Bulk (s : string)
  | Elements (l : list string)
  | Fields (h : gmap string string).

#[export] Instance reply_eq_dec : EqDecision reply.
Proof. solve_decision. Defined.

Definition bulk (s : option string) : reply :=
  match s with Some s => Bulk s | None => Nil end.

(** ** Reading and writing typed keys *)

Definition WRONGTYPE : string :=
  "WRONGTYPE Operation against a key holding the wrong kind of value".

Definition string_at (ks : keyspace) (k : string) : result (option string) :=
  match value <$> ks !! k with
  | None => Return None
  | Some (RString s) => Return (Some s)
  | Some _ => Throw WRONGTYPE
  end.

Definition hash_at (ks : keyspace) (k : string) : result (gmap string string) :=
  match value <$> ks !! k with
  | None => Return ∅
  | Some (RHash h) => Return h
  | Some _ => Throw WRONGTYPE
  end.

Definition list_at (ks : keyspace) (k : string) : result (list string) :=
  match value <$> ks !! k with
  | None => Return []
  | Some (RList l) => Return l
  | Some _ => Throw WRONGTYPE
  end.

(** Writing a value keeps the time to live; an empty hash or list is removed. *)
Definition put (ks : keyspace) (k : string) (v : rvalue) : keyspace :=
  <[k := {| value := v; pttl := ks !! k ≫= pttl |}]> ks.

Definition put_hash (ks : keyspace) (k : string) (h : gmap string string) : keyspace :=
  if decide (h = ∅) then delete k ks else put ks k (RHash h).

Definition put_list (ks : keyspace) (k : string) (l : list string) : keyspace :=
  match l with [] => delete k ks | _ => put ks k (RList l) end.

Definition set_fields (h : gmap string string) (fields : list (string * string)) :
    gmap string string :=
  fold_left (fun h f => <[f.1 := f.2]> h) fields h.

(** List positions: negative ones count from the end. *)
Definition list_range (start stop : Z) (l : list string) : list string :=
  let len := Z.of_nat (List.length l) in
  let a := if start <? 0 then Z.max 0 (len + start) else start in
  let b := if stop <? 0 then len + stop else stop in
  take (Z.to_nat (b - a + 1)) (drop (Z.to_nat a) l).

Definition set_ttl (ks : keyspace) (k : string) (ms : Z) : keyspace :=
  match ks !! k with
  | None => ks
  | Some e => if ms <=? 0 then delete k ks else <[k := {| value := value e; pttl := Some ms |}]> ks
  end.

Definition flag (b : bool) : reply := Int (if b then 1 else 0).

Definition pttl_reply (e : option rentry) : Z :=
  match e with
  | None => -2
  | Some e => match pttl e with None => -1 | Some ms => ms end
  end.

Definition ttl_reply (e : option rentry) : Z :=
  match e with
  | None => -2
  | Some e => match pttl e with None => -1 | Some ms => (ms + 500) / 1000 end
  end.

(** Times to live the commands accept without overflowing their deadline. *)
Definition ttl_ok (ms : Z) : Prop := ms <= 2 ^ 53 * 1000.

Definition INT64_MAX : Z := 2 ^ 63 - 1.

Definition answer {A} (ks : keyspace) (m : result A) (f : A -> keyspace * reply) :
    keyspace * result reply :=
  match m with
  | Return a => let '(ks', r) := f a in (ks', Return r)
  | Throw e => (ks, Throw e)
  end.

(** ** The server *)

Class Redis : Type := {
  execute : keyspace -> command -> keyspace * result reply;
  (** Keys whose time to live is over disappear. *)
  elapse : Z -> keyspace -> keyspace;

  (** A command changes no key but its own. *)
  execute_frame ks c k : k <> command_key c -> (execute ks c).1 !! k = ks !! k;

  execute_EXISTS ks k :
    execute ks (EXISTS k) = (ks, Return (flag (bool_decide (is_Some (ks !! k)))));
  execute_DEL ks k :
    execute ks (DEL k) = (delete k ks, Return (flag (bool_decide (is_Some (ks !! k)))));
  execute_PTTL ks k : execute ks (PTTL k) = (ks, Return (Int (pttl_reply (ks !! k))));
  execute_TTL ks k : execute ks (TTL k) = (ks, Return (Int (ttl_reply (ks !! k))));
  execute_PEXPIRE ks k ms :
    ttl_ok ms ->
    execute ks (PEXPIRE k ms)
    = (set_ttl ks k ms, Return (flag (bool_decide (is_Some (ks !! k)))));
  (** Whatever the time, the value stays or the key goes. *)
  execute_PEXPIRE_value ks k ms :
    (execute ks (PEXPIRE k ms)).1 !! k = None
    \/ value <$> (execute ks (PEXPIRE k ms)).1 !! k = value <$> ks !! k;
  execute_EXPIRE ks k s :
    ttl_ok (s * 1000) ->
    execute ks (EXPIRE k s)
    = (set_ttl ks k (s * 1000), Return (flag (bool_decide (is_Some (ks !! k)))));
  execute_GET ks k :
    execute ks (GET k) = answer ks (string_at ks k) (fun s => (ks, bulk s));
  execute_SET_NX_PX ks k v ms :
    0 < ms -> ttl_ok ms ->
    execute ks (SET_NX_PX k v ms)
    = match ks !! k with
      | Some _ => (ks, Return Nil)
      | None => (<[k := {| value := RString v; pttl := Some ms |}]> ks, Return OK)
      end;
  execute_INCR ks k n :
    (string_at ks k = Return None /\ n = 0
     \/ exists s, string_at ks k = Return (Some s) /\ read_integer s = Some n) ->
    0 <= n < INT64_MAX ->
    execute ks (INCR k) = (put ks k (RString (js_String (n + 1))), Return (Int (n + 1)));
  execute_HGET ks k f :
    execute ks (HGET k f) = answer ks (hash_at ks k) (fun h => (ks, bulk (h !! f)));
  execute_HGETALL ks k :
    execute ks (HGETALL k) = answer ks (hash_at ks k) (fun h => (ks, Fields h));
  execute_HSET ks k fs :
    fs <> [] ->
    execute ks (HSET k fs)
    = answer ks (hash_at ks k) (fun h =>
        (put ks k (RHash (set_fields h fs)),
         Int (Z.of_nat (size (set_fields h fs)) - Z.of_nat (size h))));
  execute_HDEL ks k f :
    execute ks (HDEL k f)
    = answer ks (hash_at ks k) (fun h =>
        (put_hash ks k (delete f h), flag (bool_decide (is_Some (h !! f)))));
  execute_HINCRBY ks k f i h n :
    hash_at ks k = Return h ->
    (h !! f = None /\ n = 0 \/ exists s, h !! f = Some s /\ read_integer s = Some n) ->
    0 <= n -> 0 <= i -> n + i <= INT64_MAX ->
    execute ks (HINCRBY k f i)
    = (put ks k (RHash (<[f := js_String (n + i)]> h)), Return (Int (n + i)));
  (** Whatever the field holds, nothing else of the hash changes. *)
  execute_HINCRBY_fields ks k f i h :
    hash_at ks k = Return h ->
    exists h', hash_at (execute ks (HINCRBY k f i)).1 k = Return h'
      /\ forall f', f' <> f -> h' !! f' = h !! f';
  execute_HINCRBY_type ks k f i e :
    hash_at ks k = Throw e -> execute ks (HINCRBY k f i) = (ks, Throw e);
  execute_PERSIST ks k :
    execute ks (PERSIST k)
    = match ks !! k with
      | None => (ks, Return (Int 0))
      | Some e => (<[k := {| value := value e; pttl := None |}]> ks,
                   Return (flag (bool_decide (is_Some (pttl e)))))
      end;
  execute_LLEN ks k :
    execute ks (LLEN k)
    = answer ks (list_at ks k) (fun l => (ks, Int (Z.of_nat (List.length l))));
  execute_LRANGE ks k a b :
    execute ks (LRANGE k a b)
    = answer ks (list_at ks k) (fun l => (ks, Elements (list_range a b l)));
  execute_LTRIM ks k a b :
    execute ks (LTRIM k a b)
    = answer ks (list_at ks k) (fun l => (put_list ks k (list_range a b l), OK));
  execute_RPUSH ks k v :
    execute ks (RPUSH k v)
    = answer ks (list_at ks k) (fun l =>
        (put ks k (RList (l ++ [v])), Int (Z.of_nat (List.length l) + 1)));

  elapse_lookup d ks k :
    elapse d ks !! k
    = match ks !! k with
      | None => None
      | Some e =>
          match pttl e with
          | None => Some e
          | Some ms => if ms <=? d then None else Some {| value := value e; pttl := Some (ms - d) |}
          end
      end
}.

(** ** Scripts

    A Lua script runs atomically; [redis.call] raises the errors of the command
    and the script stops there, keeping the effects it has had. *)
Inductive lua : Type -> Type :=
  | redis_call (c : command) : lua reply.

Definition script (A : Type) : Type := async lua A.

Notation "'local' x <- c ; f" := (async_bind (call (redis_call c)) (fun x => f))
  (at level 90, x name, c at level 89, right associativity) : wraplink_scope.
Notation "'redis' c ; f" := (async_bind (call (redis_call c)) (fun _ => f))
  (at level 90, c at level 89, right associativity) : wraplink_scope.

(** [KEYS\[i\]] and [ARGV\[i\]], counted from 1, used as a command argument. *)
Definition entry (table : list string) (i : nat) : script string :=
  match table !! pred i with
  | Some s => resolve s
  | None => reject "ERR Lua redis lib command arguments must be strings or integers"
  end.

Notation "'arg' x <- table # i ; f" := (async_bind (entry table i) (fun x => f))
  (at level 90, x name, table at level 80, i at level 80, right associativity) : wraplink_scope.

(** [tonumber(s)] where the script goes on with an integer. *)
Definition tonumber (s : string) : script Z :=
  match read_integer s with
  | Some n => resolve n
  | None => reject "ERR value is not an integer or out of range"
  end.

(** A reply used as a number. *)
Definition as_number (r : reply) : script Z :=
  match r with
  | Int n => resolve n
  | _ => reject "ERR attempt to compare a number with another value"
  end.

(** [client.multi()...exec()]: every command runs, then the first error is
    reported. *)
Fixpoint multi (cs : list command) : script (list reply) :=
  match cs with
  | [] => resolve []
  | c :: cs =>
      io_bind (call (redis_call c)) (fun r => io_bind (multi cs) (fun rs =>
        Done (match r, rs with
              | Return a, Return l => Return (a :: l)
              | Throw e, _ => Throw e
              | _, Throw e => Throw e
              end)))
  end.

Section Scripts.
Context `{Redis}.

Definition on_server (X : Type) (c : lua X) (ks : keyspace) : keyspace * result X :=
  match c with redis_call c => execute ks c end.

Definition eval {A} (s : script A) (ks : keyspace) : keyspace * result A := run on_server s ks.

Lemma eval_call {A} c (f : reply -> script A) ks :
  eval (async_bind (call (redis_call c)) f) ks
  = let '(ks', r) := execute ks c in
    match r with Return a => eval (f a) ks' | Throw e => (ks', Throw e) end.
Proof. unfold eval. rewrite run_async_bind, run_call. done. Qed.

Lemma eval_entry {A} table i s (f : string -> script A) ks :
  table !! pred i = Some s -> eval (async_bind (entry table i) f) ks = eval (f s) ks.
Proof. intros Hs. unfold eval, entry. by rewrite run_async_bind, Hs. Qed.

Lemma eval_tonumber {A} n (f : Z -> script A) ks :
  eval (async_bind (tonumber (js_String n)) f) ks = eval (f n) ks.
Proof. unfold eval, tonumber. by rewrite run_async_bind, read_integer_String. Qed.

Lemma eval_bind {A B} (m : script A) (f : A -> script B) ks :
  eval (async_bind m f) ks
  = let '(ks', r) := eval m ks in
    match r with Return a => eval (f a) ks' | Throw e => (ks', Throw e) end.
Proof. apply run_async_bind. Qed.

Lemma eval_resolve {A} (a : A) ks : eval (resolve a) ks = (ks, Return a).
Proof. done. Qed.

(** The commands a script executes. *)
Fixpoint trace {A} (s : io lua A) (k : keyspace) : list command :=
  match s with
  | Done _ => []
  | @Await _ _ X e f =>
      match e in lua X return (result X -> io lua A) -> list command with
      | redis_call c => fun f => let '(k', r) := execute k c in c :: trace (f r) k'
      end f
  end.

(** Final keyspace, commands and result at once. *)
Definition logged {A} (s : script A) (k : keyspace) : keyspace * list command * result A :=
  let '(k', r) := eval s k in (k', trace s k, r).

Lemma trace_bind {A B} (m : io lua A) (f : A -> io lua B) k :
  trace (io_bind m f) k = trace m k ++ (let '(k', a) := run on_server m k in trace (f a) k').
Proof.
  revert k; induction m as [a|X e g IH]; intros k; simpl; [done|].
  destruct e. simpl. destruct (execute k c) as [k' r]. simpl. by rewrite IH.
Qed.

Lemma logged_bind {A B} (m : script A) (f : A -> script B) k :
  logged (async_bind m f) k
  = let '(k', cs, r) := logged m k in
    match r with
    | Return a => let '(k2, cs2, r2) := logged (f a) k' in (k2, cs ++ cs2, r2)
    | Throw e => (k', cs, Throw e)
    end.
Proof.
  unfold logged. rewrite eval_bind. unfold async_bind. rewrite trace_bind. unfold eval.
  destruct (run on_server m k) as [k' [a|e]]; simpl; [|by rewrite app_nil_r].
  by destruct (run on_server (f a) k').
Qed.

Lemma logged_call {A} c (f : reply -> script A) k :
  logged (async_bind (call (redis_call c)) f) k
  = let '(k', r) := execute k c in
    match r with
    | Return a => let '(k2, cs, r2) := logged (f a) k' in (k2, c :: cs, r2)
    | Throw e => (k', [c], Throw e)
    end.
Proof.
  rewrite logged_bind. unfold logged, eval. simpl. by destruct (execute k c) as [k' [a|e]].
Qed.

Lemma logged_single c k :
  logged (call (redis_call c)) k = let '(k', r) := execute k c in (k', [c], r).
Proof. unfold logged, eval. simpl. by destruct (execute k c). Qed.

Lemma logged_entry {A} table i s (f : string -> script A) k :
  table !! pred i = Some s -> logged (async_bind (entry table i) f) k = logged (f s) k.
Proof. intros Hs. rewrite logged_bind. unfold entry. rewrite Hs. simpl. by destruct (logged (f s) k) as [[??]?]. Qed.

Lemma logged_tonumber {A} s n (f : Z -> script A) k :
  read_integer s = Some n -> logged (async_bind (tonumber s) f) k = logged (f n) k.
Proof. intros Hs. rewrite logged_bind. unfold tonumber. rewrite Hs. simpl. by destruct (logged (f n) k) as [[??]?]. Qed.

Lemma logged_resolve {A} (a : A) k : logged (resolve a) k = (k, [], Return a).
Proof. done. Qed.
End Scripts.

(** ** Scripts that stay within a set of commands *)

Fixpoint only {A} (P : command -> Prop) (s : io lua A) : Prop :=
  match s with
  | Done _ => True
  | @Await _ _ X e f =>
      match e in lua X return (result X -> io lua A) -> Prop with
      | redis_call c => fun f => P c /\ forall r, only P (f r)
      end f
  end.

Lemma only_bind {A B} P (m : io lua A) (f : A -> io lua B) :
  only P m -> (forall a, only P (f a)) -> only P (io_bind m f).
Proof.
  induction m as [a|X e g IH]; simpl; [auto|]. destruct e. intros [Hc Hg] Hf.
  split; [done|]. intros r. by apply IH.
Qed.

Lemma only_async_bind {A B} P (m : script A) (f : A -> script B) :
  only P m -> (forall a, only P (f a)) -> only P (async_bind m f).
Proof. intros Hm Hf. apply only_bind; [done|]. by intros [a|e]. Qed.

Lemma only_call {A} (P : command -> Prop) c (f : reply -> script A) :
  P c -> (forall r, only P (f r)) -> only P (async_bind (call (redis_call c)) f).
Proof. intros Hc Hf. apply only_async_bind; [done|done]. Qed.

Lemma only_entry {A} P table i (f : string -> script A) :
  (forall s, table !! pred i = Some s -> only P (f s)) -> only P (async_bind (entry table i) f).
Proof. intros Hf. unfold entry. destruct (table !! pred i); [by apply Hf|done]. Qed.

Lemma only_tonumber {A} P s (f : Z -> script A) :
  (forall n, only P (f n)) -> only P (async_bind (tonumber s) f).
Proof. intros Hf. unfold tonumber. destruct (read_integer s); [by apply Hf|done]. Qed.

Lemma only_as_number {A} P r (f : Z -> script A) :
  (forall n, only P (f n)) -> only P (async_bind (as_number r) f).
Proof. intros Hf. destruct r; try done. by apply Hf. Qed.

Lemma only_mono {A} (P Q : command -> Prop) (s : io lua A) :
  (forall c, P c -> Q c) -> only P s -> only Q s.
Proof.
  intros HPQ. induction s as [a|X e g IH]; simpl; [done|]. destruct e. intros [Hc Hg].
  split; [auto|]. intros r. by apply IH.
Qed.

Section Only.
Context `{Redis}.

Lemma only_trace {A} P (s : io lua A) k : only P s -> Forall P (trace s k).
Proof.
  revert k; induction s as [a|X e g IH]; intros k; simpl; [constructor|]. destruct e.
  intros [Hc Hg]. destruct (execute k c) as [k' r]. constructor; [done|]. by apply IH.
Qed.

Lemma only_frame {A} P (s : io lua A) k key :
  only P s -> (forall c, P c -> command_key c <> key) -> (run on_server s k).1 !! key = k !! key.
Proof.
  intros Hs Hkey. revert k Hs; induction s as [a|X e g IH]; intros k; simpl; [done|]. destruct e.
  intros [Hc Hg]. simpl. pose proof (execute_frame k c key) as Hf.
  destruct (execute k c) as [k' r]. rewrite IH by done. apply Hf. intros Heq.
  by apply (Hkey c).
Qed.

Lemma logged_only {A} P (s : script A) k :
  only P s ->
  let '(k', cs, r) := logged s k in
  Forall P cs /\ forall key, (forall c, P c -> command_key c <> key) -> k' !! key = k !! key.
Proof.
  intros Hs. unfold logged. pose proof (only_trace P s k Hs) as Ht.
  destruct (eval s k) as [k' r] eqn:He. split; [done|]. intros key Hkey.
  pose proof (only_frame P s k key Hs Hkey) as Hf. unfold eval in He. by rewrite He in Hf.
Qed.
End Only.

(** ** Shape of the keyspace *)

Lemma put_lookup ks k v k' :
  put ks k v !! k' = if decide (k = k') then Some {| value := v; pttl := ks !! k ≫= pttl |} else ks !! k'.
Proof.
  unfold put. destruct (decide (k = k')) as [->|].
  - apply lookup_insert_eq.
  - by apply lookup_insert_ne.
Qed.

Lemma put_lookup_ne ks k v k' : k <> k' -> put ks k v !! k' = ks !! k'.
Proof. intros. rewrite put_lookup. by case_decide. Qed.

Lemma put_list_lookup_ne ks k l k' : k <> k' -> put_list ks k l !! k' = ks !! k'.
Proof.
  intros. destruct l; [|by apply put_lookup_ne]. unfold put_list. by rewrite lookup_delete_ne.
Qed.

Lemma put_hash_lookup_ne ks k h k' : k <> k' -> put_hash ks k h !! k' = ks !! k'.
Proof.
  intros. unfold put_hash. case_decide; [by rewrite lookup_delete_ne|by apply put_lookup_ne].
Qed.

Lemma set_ttl_lookup_ne ks k ms k' : k <> k' -> set_ttl ks k ms !! k' = ks !! k'.
Proof.
  intros. unfold set_ttl. destruct (ks !! k); [|done].
  destruct (_ <=? _); [by rewrite lookup_delete_ne|by rewrite lookup_insert_ne].
Qed.

Lemma list_at_put_list ks k l : list_at (put_list ks k l) k = Return l.
Proof.
  destruct l; unfold list_at, put_list; [by rewrite lookup_delete_eq|].
  unfold put. by rewrite lookup_insert_eq.
Qed.

Lemma list_at_put ks k l : list_at (put ks k (RList l)) k = Return l.
Proof. unfold list_at, put. by rewrite lookup_insert_eq. Qed.

Lemma hash_at_put ks k h : hash_at (put ks k (RHash h)) k = Return h.
Proof. unfold hash_at, put. by rewrite lookup_insert_eq. Qed.

Lemma list_at_ext ks ks' k : ks !! k = ks' !! k -> list_at ks k = list_at ks' k.
Proof. unfold list_at. by intros ->. Qed.

Lemma hash_at_ext ks ks' k : ks !! k = ks' !! k -> hash_at ks k = hash_at ks' k.
Proof. unfold hash_at. by intros ->. Qed.

Lemma string_at_ext ks ks' k : ks !! k = ks' !! k -> string_at ks k = string_at ks' k.
Proof. unfold string_at. by intros ->. Qed.

Lemma list_range_prefix n (l : list string) :
  0 < n -> list_range 0 (n - 1) l = take (Z.to_nat n) l.
Proof.
  intros Hn. unfold list_range. simpl. rewrite (proj2 (Z.ltb_ge _ 0)) by lia.
  rewrite drop_0. f_equal. lia.
Qed.

Lemma list_range_suffix n (l : list string) :
  0 <= n -> list_range n (-1) l = drop (Z.to_nat n) l.
Proof.
  intros Hn. unfold list_range. rewrite (proj2 (Z.ltb_ge n 0)) by lia. simpl.
  apply take_ge. rewrite length_drop. lia.
Qed.

(** ** A server with the documented behaviour, for concrete runs *)

Definition reference_execute (ks : keyspace) (c : command) : keyspace * result reply :=
  match c with
  | EXISTS k => (ks, Return (flag (bool_decide (is_Some (ks !! k)))))
  | DEL k => (delete k ks, Return (flag (bool_decide (is_Some (ks !! k)))))
  | PTTL k => (ks, Return (Int (pttl_reply (ks !! k))))
  | TTL k => (ks, Return (Int (ttl_reply (ks !! k))))
  | PEXPIRE k ms => (set_ttl ks k ms, Return (flag (bool_decide (is_Some (ks !! k)))))
  | EXPIRE k s => (set_ttl ks k (s * 1000), Return (flag (bool_decide (is_Some (ks !! k)))))
  | GET k => answer ks (string_at ks k) (fun s => (ks, bulk s))
  | SET_NX_PX k v ms =>
      match ks !! k with
      | Some _ => (ks, Return Nil)
      | None => (<[k := {| value := RString v; pttl := Some ms |}]> ks, Return OK)
      end
  | INCR k =>
      match string_at ks k with
      | Throw e => (ks, Throw e)
      | Return s =>
          match match s with None => Some 0 | Some s => read_integer s end with
          | Some n => (put ks k (RString (js_String (n + 1))), Return (Int (n + 1)))
          | None => (ks, Throw "ERR value is not an integer or out of range")
          end
      end
  | HGET k f => answer ks (hash_at ks k) (fun h => (ks, bulk (h !! f)))
  | HGETALL k => answer ks (hash_at ks k) (fun h => (ks, Fields h))
  | HSET k fs =>
      answer ks (hash_at ks k) (fun h =>
        (put ks k (RHash (set_fields h fs)),
         Int (Z.of_nat (size (set_fields h fs)) - Z.of_nat (size h))))
  | HDEL k f =>
      answer ks (hash_at ks k) (fun h =>
        (put_hash ks k (delete f h), flag (bool_decide (is_Some (h !! f)))))
  | HINCRBY k f i =>
      match hash_at ks k with
      | Throw e => (ks, Throw e)
      | Return h =>
          match match h !! f with None => Some 0 | Some s => read_integer s end with
          | Some n => (put ks k (RHash (<[f := js_String (n + i)]> h)), Return (Int (n + i)))
          | None => (ks, Throw "ERR hash value is not an integer")
          end
      end
  | PERSIST k =>
      match ks !! k with
      | None => (ks, Return (Int 0))
      | Some e => (<[k := {| value := value e; pttl := None |}]> ks,
                   Return (flag (bool_decide (is_Some (pttl e)))))
      end
  | LLEN k => answer ks (list_at ks k) (fun l => (ks, Int (Z.of_nat (List.length l))))
  | LRANGE k a b => answer ks (list_at ks k) (fun l => (ks, Elements (list_range a b l)))
  | LTRIM k a b => answer ks (list_at ks k) (fun l => (put_list ks k (list_range a b l), OK))
  | RPUSH k v =>
      answer ks (list_at ks k) (fun l =>
        (put ks k (RList (l ++ [v])), Int (Z.of_nat (List.length l) + 1)))
  end.

Lemma reference_frame ks c k : k <> command_key c -> (reference_execute ks c).1 !! k = ks !! k.
Proof.
  intros Hk. assert (Hans : forall A (m : result A) f, (forall a, (f a).1 !! k = ks !! k) ->
    (answer ks m f).1 !! k = ks !! k).
  { intros A m f Hf. destruct m as [a|e]; [|done]. simpl. specialize (Hf a). by destruct (f a). }
  destruct c; simpl in *; try done; try (apply Hans; intros ?; simpl); try reflexivity;
    try (by apply put_lookup_ne); try (by apply put_list_lookup_ne);
    try (by apply put_hash_lookup_ne); try (by apply set_ttl_lookup_ne);
    try (by apply lookup_delete_ne).
  - destruct (ks !! key); [done|]. by apply lookup_insert_ne.
  - destruct (string_at ks key) as [s|]; [|done]. destruct (match s with Some _ => _ | None => _ end);
      [by apply put_lookup_ne|done].
  - destruct (hash_at ks key) as [h|]; [|done]. destruct (match h !! field with Some _ => _ | None => _ end);
      [by apply put_lookup_ne|done].
  - destruct (ks !! key) eqn:He; [|done]. by apply lookup_insert_ne.
Qed.

Definition age (d : Z) (e : rentry) : option rentry :=
  match pttl e with
  | None => Some e
  | Some ms => if ms <=? d then None else Some {| value := value e; pttl := Some (ms - d) |}
  end.

Definition reference_redis : Redis.
Proof.
  refine {| execute := reference_execute; elapse := fun d ks => omap (age d) ks |};
    try (intros; reflexivity).
  - apply reference_frame.
  - intros ks k ms. simpl. unfold set_ttl. destruct (ks !! k) as [e|] eqn:He; [|right; by rewrite He].
    destruct (ms <=? 0); [left; apply lookup_delete_eq|right]. by rewrite lookup_insert_eq.
  - intros ks k n [[Hs ->]|(s & Hs & Hr)] Hn; simpl; rewrite Hs; [done|]. by rewrite Hr.
  - intros ks k f i h n Hh [[Hs ->]|(s & Hs & Hr)] Hn; simpl; rewrite Hh, Hs; [done|].
    intros. by rewrite Hr.
  - intros ks k f i h Hh. simpl. rewrite Hh.
    destruct (match h !! f with Some _ => _ | None => _ end) as [n|]; [|by exists h].
    exists (<[f := js_String (n + i)]> h). split; [apply hash_at_put|].
    intros f' Hf. by apply lookup_insert_ne.
  - intros ks k f i e He. simpl. by rewrite He.
  - intros d ks k. rewrite lookup_omap. by destruct (ks !! k).
Defined.
