(* ===== verification/Sql.v ===== *)
(** * PostgreSQL

    PostgreSQL and its driver are not part of the repository. Each SQL
    statement of the program is a constructor of [sql] carrying the values it
    sends and typed by the rows the driver gives back; the server is the
    parameter [query] of the class [Postgres], whose laws are the documented
    behaviour of these statements on the table that
    src/migrations/001_create_links.sql declares. *)
From stdpp Require Import sorting.
From S2P Require Import Prelude JsNum JsString JsDate Link.
Open Scope Z_scope.

(** ** The links table

    Timestamps are microseconds since the epoch. *)
Record row : Type := {
  target_url : string;
  created_at : Z;
  expires_at : option Z;
  row_clicks : Z
}.

(** The table and the next value of [link_code_block_seq]. *)
Record database : Type := { links : gmap string row; next_block : Z }.

Definition with_links (db : database) (l : gmap string row) : database :=
  {| links := l; next_block := next_block db |}.

(** [char_length]: code points of a UTF-8 text. *)
Fixpoint char_length (s : string) : Z :=
  match s with
  | EmptyString => 0
  | String c s =>
      let b := byte_of c in (if (128 <=? b) && (b <=? 191) then 0 else 1) + char_length s
  end.

(** The constraints of the table, and PostgreSQL's exclusion of the zero byte
    from text. *)
Definition row_ok (code : string) (r : row) : bool :=
  CODE_PATTERN code
  && (1 <=? char_length (target_url r)) && (char_length (target_url r) <=? 2048)
  && string_forallb (fun c => negb (byte_of c =? 0)) (target_url r)
  && (0 <=? row_clicks r).

(** ** Statements *)

(** A row as the driver returns it: [bigint] columns are text. *)
Record LinkRow : Type := {
  r_code : string;
  r_target_url : string;
  r_created_at : Z;
  r_expires_at : option Z;
  r_clicks : string
}.

Inductive sql : Type -> Type :=
  | InsertLink (code target : string) (expires : option Z) : sql (list LinkRow)
  | SelectLiveLink (code : string) : sql (list LinkRow)
  | AddClicks (code : string) (count : Z) : sql unit
  | AddClickBatch (codes : list string) (counts : list Z) : sql (list string)
  | InsertPending (codes targets created : list string) (expires : list (option string)) :
      sql (list string)
  | SelectExisting (codes : list string) : sql (list (string * (string * string)))
  | CountLinks : sql (list string)
  | EstimateLinks : sql (list string)
  | SelectOne : sql unit
  | NextBlock : sql (list (string * option string))
  | SelectPage (last : string) (count : Z) : sql (list LinkRow).

(** Milliseconds of a stored timestamp, as [EXTRACT(EPOCH ...) * 1000] cast to
    [bigint] rounds them (halves away from zero). *)
Definition epoch_ms (us : Z) : Z :=
  if us <? 0 then - ((- us + 500) / 1000) else (us + 500) / 1000.

(** Time values of the years 1 to 9999, which the driver and the server
    exchange exactly. *)
Definition sql_date (t : Z) : Prop := -62135596800000 <= t < 253402300800000.

Definition insert_row (l : gmap string row) (code : string) (r : row) : gmap string row :=
  match l !! code with Some _ => l | None => <[code := r]> l end.

(** [INSERT ... ON CONFLICT (code) DO NOTHING RETURNING code]. *)
Fixpoint insert_rows (l : gmap string row) (rows : list (string * row)) :
    gmap string row * list string :=
  match rows with
  | [] => (l, [])
  | (code, r) :: rows =>
      let '(l', returned) := insert_rows (insert_row l code r) rows in
      (l', match l !! code with Some _ => returned | None => code :: returned end)
  end.

Definition add_clicks (l : gmap string row) (code : string) (count : Z) : gmap string row :=
  match l !! code with
  | None => l
  | Some r =>
      <[code := {| target_url := target_url r; created_at := created_at r;
                   expires_at := expires_at r; row_clicks := row_clicks r + count |}]> l
  end.

Fixpoint add_click_batch (l : gmap string row) (clicks : list (string * Z)) : gmap string row :=
  match clicks with
  | [] => l
  | (code, count) :: clicks => add_click_batch (add_clicks l code count) clicks
  end.

Definition INT8_MAX : Z := 2 ^ 63 - 1.

Definition room_for (l : gmap string row) (clicks : list (string * Z)) : Prop :=
  forall code count r, In (code, count) clicks -> l !! code = Some r ->
  row_clicks r + count <= INT8_MAX.

(** The identity of a stored link: what no statement of the program changes. *)
Definition same_link (r r' : row) : Prop :=
  target_url r = target_url r' /\ created_at r = created_at r' /\ expires_at r = expires_at r'.

Definition is_live (now : Z) (r : row) : bool :=
  match expires_at r with None => true | Some e => now <? e end.

(** A live row as [SELECT] gives it, timestamps read by [date]. *)
Definition live_row (date : Z -> Z) (code : string) (r : row) : LinkRow :=
  {| r_code := code; r_target_url := target_url r; r_created_at := date (created_at r);
     r_expires_at := date <$> expires_at r; r_clicks := js_String (row_clicks r) |}.

(** The codes of the live rows that come after [last] in the order [R] of the
    server's collation. *)
Definition codes_after (R : string -> string -> Prop) `{!RelDecision R} (now : Z) (l : gmap string row)
    (last : string) : list string :=
  merge_sort R (filter (fun code => code <> last /\ R last code)
    (filter (fun p => is_live now p.2) (map_to_list l)).*1).

Definition rows_at (date : Z -> Z) (l : gmap string row) (codes : list string) : list LinkRow :=
  omap (fun code => live_row date code <$> l !! code) codes.

(** The rows a statement may add: a code with its target. *)
Definition adds {X} (s : sql X) (code target : string) : Prop :=
  match s with
  | InsertLink c t _ => c = code /\ t = target
  | InsertPending codes targets _ _ => exists i, codes !! i = Some code /\ targets !! i = Some target
  | _ => False
  end.

(** ** The server *)

Class Postgres : Type := {
  (** [query now db statement]: [now] is the server's clock, in microseconds. *)
  query : forall X, Z -> database -> sql X -> database * result X;
  (** Parsing of a [timestamptz] text, and the driver's conversion of a
      timestamp to a [Date]. *)
  parse_timestamp : string -> option Z;
  driver_date : Z -> Z;
  (** The order of the database's collation, under which only equal texts are
      equal and the empty text comes first. *)
  collate : string -> string -> Prop;
  collate_dec : RelDecision collate;
  collate_order : PartialOrder collate;
  collate_total : Total collate;
  collate_empty s : collate "" s;

  parse_timestamp_iso t s :
    sql_date t -> toISOString t = Return s -> parse_timestamp s = Some (1000 * t);
  driver_date_ms t : sql_date t -> driver_date (1000 * t) = t;

  (** A statement that fails has no effect. *)
  query_atomic X now db (s : sql X) e : (query X now db s).2 = Throw e -> (query X now db s).1 = db;

  (** No statement removes a row or changes anything of it but its clicks. *)
  query_keeps X now db (s : sql X) code r :
    links db !! code = Some r ->
    exists r', links (query X now db s).1 !! code = Some r' /\ same_link r r';

  (** A row appears only where a statement inserts it. *)
  query_new_row X now db (s : sql X) code r :
    links db !! code = None -> links (query X now db s).1 !! code = Some r -> adds s code (target_url r);

  query_InsertLink now db code target expires :
    from_option sql_date True expires ->
    let r := {| target_url := target; created_at := now;
                expires_at := Z.mul 1000 <$> expires; row_clicks := 0 |} in
    if row_ok code r
    then query _ now db (InsertLink code target expires)
         = match links db !! code with
           | Some _ => (db, Return [])
           | None => (with_links db (<[code := r]> (links db)),
                      Return [{| r_code := code; r_target_url := target;
                                 r_created_at := driver_date now; r_expires_at := expires;
                                 r_clicks := "0" |}])
           end
    else exists e, query _ now db (InsertLink code target expires) = (db, Throw e);

  query_SelectLiveLink now db code :
    query _ now db (SelectLiveLink code)
    = (db, Return
        match links db !! code with
        | Some r =>
            if is_live now r
            then [{| r_code := code; r_target_url := target_url r;
                     r_created_at := driver_date (created_at r);
                     r_expires_at := driver_date <$> expires_at r;
                     r_clicks := js_String (row_clicks r) |}]
            else []
        | None => []
        end);

  query_AddClicks now db code count :
    0 <= count -> room_for (links db) [(code, count)] ->
    query _ now db (AddClicks code count) = (with_links db (add_clicks (links db) code count), Return tt);

  query_AddClickBatch now db clicks :
    NoDup clicks.*1 -> Forall (fun p => 0 <= p.2) clicks -> room_for (links db) clicks ->
    exists returned,
      query _ now db (AddClickBatch clicks.*1 clicks.*2)
      = (with_links db (add_click_batch (links db) clicks), Return returned)
      /\ forall code, code ∈ returned <-> code ∈ clicks.*1 /\ is_Some (links db !! code);

  (** All rows parse and satisfy the constraints, or nothing is inserted. *)
  query_InsertPending now db codes targets created expires rows :
    Forall2 (fun code p => code = p.1) codes rows ->
    Forall2 (fun target p => target = target_url p.2) targets rows ->
    Forall2 (fun text p => parse_timestamp text = Some (created_at p.2)) created rows ->
    Forall2 (fun text p => match text with
                           | None => expires_at p.2 = None
                           | Some s => parse_timestamp s = expires_at p.2 /\ is_Some (expires_at p.2)
                           end) expires rows ->
    Forall (fun p => row_clicks p.2 = 0) rows ->
    if forallb (fun p => row_ok p.1 p.2) rows
    then exists returned,
      query _ now db (InsertPending codes targets created expires)
      = (with_links db (insert_rows (links db) rows).1, Return returned)
      /\ returned ≡ₚ (insert_rows (links db) rows).2
    else exists e, query _ now db (InsertPending codes targets created expires) = (db, Throw e);

  query_InsertPending_unparsed now db codes targets created expires :
    Exists (fun text => parse_timestamp text = None) created
    \/ Exists (fun text => match text with
                           | None => False
                           | Some s => parse_timestamp s = None
                           end) expires ->
    exists e, query _ now db (InsertPending codes targets created expires) = (db, Throw e);

  query_SelectExisting now db codes :
    exists rows,
      query _ now db (SelectExisting codes) = (db, Return rows)
      /\ NoDup rows.*1
      /\ forall code p, (code, p) ∈ rows <->
           code ∈ codes /\ exists r, links db !! code = Some r
             /\ p = (target_url r, js_String (epoch_ms (created_at r)));

  query_CountLinks now db :
    query _ now db CountLinks = (db, Return [js_String (Z.of_nat (size (links db)))]);
  query_EstimateLinks now db :
    exists n, 0 <= n /\ query _ now db EstimateLinks = (db, Return [js_String n]);
  query_SelectOne now db : query _ now db SelectOne = (db, Return tt);
  query_NextBlock now db size :
    (* the increment of migration 002 *)
    size = 10000 -> next_block db + size <= INT8_MAX ->
    query _ now db NextBlock
    = ({| links := links db; next_block := next_block db + size |},
       Return [(js_String (next_block db), Some (js_String size))]);
  query_SelectPage now db last count :
    0 <= count <= INT8_MAX ->
    query _ now db (SelectPage last count)
    = (db, Return (rows_at driver_date (links db)
        (take (Z.to_nat count) (codes_after collate now (links db) last))))
}.

#[export] Existing Instances collate_dec collate_order collate_total.

(** ** The table under these operations *)

Lemma insert_row_lookup l code r code' :
  insert_row l code r !! code'
  = match l !! code' with Some r' => Some r' | None => if decide (code = code') then Some r else None end.
Proof.
  unfold insert_row. destruct (l !! code) as [q|] eqn:Hq.
  - destruct (l !! code') eqn:Hc; [done|]. case_decide; [congruence|done].
  - destruct (decide (code = code')) as [->|Hne]; [by rewrite lookup_insert_eq, Hq|].
    rewrite lookup_insert_ne by done. by destruct (l !! code').
Qed.

Lemma insert_rows_keep l rows code r :
  l !! code = Some r -> (insert_rows l rows).1 !! code = Some r.
Proof.
  revert l; induction rows as [|[c q] rows IH]; intros l Hl; [done|]. simpl.
  specialize (IH (insert_row l c q)). destruct (insert_rows _ rows) as [l' ret]. simpl in *.
  apply IH. by rewrite insert_row_lookup, Hl.
Qed.

(** The first row given for a code that the table does not hold is inserted. *)
Lemma insert_rows_lookup l rows code :
  (insert_rows l rows).1 !! code
  = match l !! code with
    | Some r => Some r
    | None => snd <$> list_find (fun p => p.1 = code) rows ≫= fun p => Some p.2
    end.
Proof.
  revert l; induction rows as [|[c q] rows IH]; intros l; simpl; [by destruct (l !! code)|].
  specialize (IH (insert_row l c q)). destruct (insert_rows _ rows) as [l' ret]. simpl in *.
  rewrite IH, insert_row_lookup. destruct (l !! code) eqn:Hl; [done|].
  destruct (decide (c = code)) as [->|Hne]; [done|].
  by destruct (list_find _ rows) as [[i p]|].
Qed.

Lemma insert_rows_returned l rows code :
  NoDup rows.*1 ->
  (code ∈ (insert_rows l rows).2 <-> code ∈ rows.*1 /\ l !! code = None).
Proof.
  revert l; induction rows as [|[c q] rows IH]; intros l Hnd; simpl; [set_solver|].
  apply NoDup_cons in Hnd as [Hc Hnd]. specialize (IH (insert_row l c q) Hnd).
  destruct (insert_rows _ rows) as [l' ret]. simpl in *.
  rewrite insert_row_lookup in IH.
  assert (Hret : code ∈ ret <-> code ∈ rows.*1 /\ l !! code = None).
  { rewrite IH. split; intros [Hin Hnone]; (split; [done|]).
    - by destruct (l !! code).
    - rewrite Hnone. by rewrite decide_False by (intros ->; done). }
  destruct (l !! c) eqn:Hl; [rewrite Hret; set_solver|].
  rewrite elem_of_cons, Hret. set_solver.
Qed.

Lemma add_clicks_keep l code count code' r :
  l !! code' = Some r -> exists r', add_clicks l code count !! code' = Some r' /\ same_link r r'.
Proof.
  intros Hl. unfold add_clicks. destruct (l !! code) as [q|] eqn:Hq; [|by exists r].
  destruct (decide (code = code')) as [->|Hne].
  - rewrite lookup_insert_eq. rewrite Hl in Hq. injection Hq as <-. by eexists.
  - rewrite lookup_insert_ne by done. by exists r.
Qed.

Lemma same_link_trans r1 r2 r3 : same_link r1 r2 -> same_link r2 r3 -> same_link r1 r3.
Proof. unfold same_link. intuition congruence. Qed.

Lemma add_click_batch_keep l clicks code r :
  l !! code = Some r -> exists r', add_click_batch l clicks !! code = Some r' /\ same_link r r'.
Proof.
  revert l r; induction clicks as [|[c n] clicks IH]; intros l r Hl; simpl; [by exists r|].
  destruct (add_clicks_keep l c n code r Hl) as (r1 & H1 & S1).
  destruct (IH _ _ H1) as (r2 & H2 & S2). exists r2. eauto using same_link_trans.
Qed.

(** ** A server with the documented behaviour, for concrete runs *)

Definition parse_iso_timestamp (s : string) : option Z :=
  Z.mul 1000 <$> parseDate (fun _ => None) s.

Definition parse_optional (s : option string) : option (option Z) :=
  match s with None => Some None | Some s => Some <$> parse_iso_timestamp s end.

Fixpoint pending_rows (codes targets created : list string) (expires : list (option string)) :
    option (list (string * row)) :=
  match codes, targets, created, expires with
  | [], [], [], [] => Some []
  | c :: cs, t :: ts, d :: ds, e :: es =>
      match parse_iso_timestamp d, parse_optional e, pending_rows cs ts ds es with
      | Some d, Some e, Some rows =>
          Some ((c, {| target_url := t; created_at := d; expires_at := e; row_clicks := 0 |}) :: rows)
      | _, _, _ => None
      end
  | _, _, _, _ => None
  end.

Definition reference_insert (now : Z) (db : database) (code target : string) (expires : option Z) :
    database * result (list LinkRow) :=
  let r := {| target_url := target; created_at := now;
              expires_at := Z.mul 1000 <$> expires; row_clicks := 0 |} in
  if row_ok code r then
    match links db !! code with
    | Some _ => (db, Return [])
    | None => (with_links db (<[code := r]> (links db)),
               Return [{| r_code := code; r_target_url := target;
                          r_created_at := now / 1000; r_expires_at := expires; r_clicks := "0" |}])
    end
  else (db, Throw "violates check constraint").

Definition reference_live (now : Z) (db : database) (code : string) : list LinkRow :=
  match links db !! code with
  | Some r =>
      if is_live now r
      then [{| r_code := code; r_target_url := target_url r; r_created_at := created_at r / 1000;
               r_expires_at := (fun e => e / 1000) <$> expires_at r;
               r_clicks := js_String (row_clicks r) |}]
      else []
  | None => []
  end.

Definition reference_existing (db : database) (codes : list string) :
    list (string * (string * string)) :=
  omap (fun code => (fun r => (code, (target_url r, js_String (epoch_ms (created_at r)))))
                    <$> links db !! code) (remove_dups codes).

Definition reference_query (X : Type) (now : Z) (db : database) (s : sql X) : database * result X :=
  match s in sql X return database * result X with
  | InsertLink code target expires => reference_insert now db code target expires
  | SelectLiveLink code => (db, Return (reference_live now db code))
  | AddClicks code count => (with_links db (add_clicks (links db) code count), Return tt)
  | AddClickBatch codes counts =>
      (with_links db (add_click_batch (links db) (zip codes counts)),
       Return (filter (fun code => is_Some (links db !! code)) codes))
  | InsertPending codes targets created expires =>
      match pending_rows codes targets created expires with
      | Some rows =>
          if forallb (fun p => row_ok p.1 p.2) rows
          then let '(l, returned) := insert_rows (links db) rows in (with_links db l, Return returned)
          else (db, Throw "violates check constraint")
      | None => (db, Throw "invalid input syntax for type timestamp")
      end
  | SelectExisting codes => (db, Return (reference_existing db codes))
  | CountLinks => (db, Return [js_String (Z.of_nat (size (links db)))])
  | EstimateLinks => (db, Return [js_String 0])
  | SelectOne => (db, Return tt)
  | NextBlock =>
      ({| links := links db; next_block := next_block db + 10000 |},
       Return [(js_String (next_block db), Some (js_String 10000))])
  | SelectPage last count =>
      (db, Return (rows_at (fun us => us / 1000) (links db)
        (take (Z.to_nat count) (codes_after String.le now (links db) last))))
  end.

Lemma pending_rows_some codes targets created expires rows :
  Forall2 (fun code p => code = p.1) codes rows ->
  Forall2 (fun target p => target = target_url p.2) targets rows ->
  Forall2 (fun text p => parse_iso_timestamp text = Some (created_at p.2)) created rows ->
  Forall2 (fun text p => match text with
                         | None => expires_at p.2 = None
                         | Some s => parse_iso_timestamp s = expires_at p.2 /\ is_Some (expires_at p.2)
                         end) expires rows ->
  Forall (fun p => row_clicks p.2 = 0) rows ->
  pending_rows codes targets created expires = Some rows.
Proof.
  intros Hc Ht Hd He Hz. revert targets created expires Ht Hd He.
  induction Hc as [|code [c r] codes rows -> Hc IH]; intros targets created expires Ht Hd He.
  - inversion Ht; inversion Hd; inversion He; done.
  - inversion Ht as [|t ? targets' ? Ht1 Ht2]; inversion Hd as [|d ? created' ? Hd1 Hd2];
      inversion He as [|e ? expires' ? He1 He2]; inversion Hz as [|? ? Hz1 Hz2]; subst; simpl in *.
    rewrite Hd1, (IH Hz2 targets' created' expires' Ht2 Hd2 He2).
    destruct r as [u cr ex cl]; simpl in *; subst.
    destruct e as [e|]; simpl; [|by rewrite He1].
    destruct He1 as [He1 [x Hx]]. rewrite Hx in He1. by rewrite He1, Hx.
Qed.

Lemma pending_rows_none codes targets created expires :
  Exists (fun text => parse_iso_timestamp text = None) created
  \/ Exists (fun text => match text with
                         | None => False
                         | Some s => parse_iso_timestamp s = None
                         end) expires ->
  pending_rows codes targets created expires = None.
Proof.
  revert targets created expires; induction codes as [|c codes IH]; intros [|t ts] [|d ds] [|e es] H;
    simpl; try done; [destruct H as [H|H]; inversion H|].
  destruct (parse_iso_timestamp d) as [d'|] eqn:Hd; [|done].
  destruct (parse_optional e) as [e'|] eqn:He; [|done].
  rewrite IH; [done|]. destruct H as [H|H]; [left|right]; inversion H; subst; try done; [congruence|].
  destruct e as [e|]; [|done]. simpl in *. by rewrite H1 in He.
Qed.

Lemma reference_keeps X now db (s : sql X) code r :
  links db !! code = Some r ->
  exists r', links (reference_query X now db s).1 !! code = Some r' /\ same_link r r'.
Proof.
  intros Hl. assert (Hsame : exists r', links db !! code = Some r' /\ same_link r r') by by exists r.
  destruct s as [c t e|c|c n|cs ns|cs ts ds es|cs| | | | |last n]; simpl; try done.
  - unfold reference_insert. destruct (row_ok _ _); [|done].
    destruct (links db !! c) eqn:Hc; [done|]. exists r. simpl.
    rewrite lookup_insert_ne by congruence. done.
  - by apply add_clicks_keep.
  - by apply add_click_batch_keep.
  - destruct (pending_rows _ _ _ _) as [rows|]; [|done]. destruct (forallb _ _); [|done].
    pose proof (insert_rows_keep (links db) rows code r Hl) as Hk.
    destruct (insert_rows _ _) as [l ret]. by exists r.
Qed.

Lemma pending_rows_elem codes targets created expires rows code r :
  pending_rows codes targets created expires = Some rows -> (code, r) ∈ rows ->
  exists i, codes !! i = Some code /\ targets !! i = Some (target_url r).
Proof.
  revert targets created expires rows; induction codes as [|c codes IH]; intros [|t ts] [|d ds] [|e es] rows;
    simpl; try done; [by intros [= <-] ?%not_elem_of_nil|].
  destruct (parse_iso_timestamp d); [|done]. destruct (parse_optional e); [|done].
  destruct (pending_rows codes ts ds es) as [rows'|] eqn:Hrows; [|done]. intros [= <-].
  intros [[= -> ->]|Hin]%elem_of_cons; [by exists 0%nat|].
  destruct (IH _ _ _ _ Hrows Hin) as (i & Hi). by exists (S i).
Qed.

Lemma reference_new_row X now db (s : sql X) code r :
  links db !! code = None -> links (reference_query X now db s).1 !! code = Some r ->
  adds s code (target_url r).
Proof.
  intros Hn. destruct s as [c t e|c|c n|cs ns|cs ts ds es|cs| | | | |last n]; simpl; try congruence.
  - unfold reference_insert. destruct (row_ok _ _); [|simpl; congruence].
    destruct (links db !! c) eqn:Hc; simpl; [congruence|].
    destruct (decide (c = code)) as [->|Hne].
    + rewrite lookup_insert_eq. by intros [= <-].
    + rewrite lookup_insert_ne by done. congruence.
  - unfold add_clicks. destruct (links db !! c) eqn:Hc; [|congruence].
    rewrite lookup_insert_ne by congruence. congruence.
  - intros Hr. exfalso. revert Hn Hr. generalize (links db). induction (zip cs ns) as [|[c n] l IH];
      intros m Hn; simpl; [congruence|]. apply IH. unfold add_clicks. destruct (m !! c) eqn:Hc; [|done].
    by rewrite lookup_insert_ne by congruence.
  - destruct (pending_rows _ _ _ _) as [rows|] eqn:Hrows; [|simpl; congruence].
    destruct (forallb _ _); [|simpl; congruence].
    pose proof (insert_rows_lookup (links db) rows code) as Hl. rewrite Hn in Hl.
    destruct (insert_rows _ _) as [l ret]. simpl in *. rewrite Hl.
    destruct (list_find _ rows) as [[i [c q]]|] eqn:Hf; simpl; [|done]. intros [= <-].
    apply list_find_Some in Hf as (Hf & Heq & _). simpl in Heq. subst c.
    eapply pending_rows_elem; [done|]. by eapply list_elem_of_lookup_2.
Qed.

Lemma reference_existing_spec db codes :
  NoDup (reference_existing db codes).*1
  /\ forall code p, (code, p) ∈ reference_existing db codes <->
       code ∈ codes /\ exists r, links db !! code = Some r
         /\ p = (target_url r, js_String (epoch_ms (created_at r))).
Proof.
  unfold reference_existing. split.
  - generalize (NoDup_remove_dups codes). induction (remove_dups codes) as [|c cs IH]; [constructor|].
    intros [Hc Hnd]%NoDup_cons. simpl. destruct (links db !! c) as [r|]; simpl; [|by apply IH].
    constructor; [|by apply IH]. intros ([c' p] & -> & Hp)%list_elem_of_fmap.
    apply list_elem_of_omap in Hp as (d & Hin & Hp).
    destruct (links db !! d); simplify_eq/=. done.
  - intros code p. rewrite list_elem_of_omap. split.
    + intros (c & Hin & Hp). rewrite elem_of_remove_dups in Hin.
      destruct (links db !! c) as [r|] eqn:Hr; simplify_eq/=. split; [done|]. by exists r.
    + intros (Hin & r & Hr & ->). exists code. rewrite elem_of_remove_dups, Hr. done.
Qed.

Definition reference_postgres : Postgres.
Proof.
  refine {| query := reference_query; parse_timestamp := parse_iso_timestamp;
            driver_date := fun us => us / 1000; collate := String.le |}.
  - by intros [].
  - intros t s _ Hs. unfold parse_iso_timestamp. by rewrite (parseDate_toISOString _ _ _ Hs).
  - intros t _. rewrite Z.mul_comm. by apply Z.div_mul.
  - intros X now db s e. destruct s as [c t x|c|c n|cs ns|cs ts ds es|cs| | | | |last n]; simpl; try done.
    + unfold reference_insert. destruct (row_ok _ _); [|done]. by destruct (links db !! c).
    + destruct (pending_rows _ _ _ _) as [rows|]; [|done]. destruct (forallb _ _); [|done].
      by destruct (insert_rows _ _).
  - apply reference_keeps.
  - apply reference_new_row.
  - intros now db code target expires He r. simpl. unfold reference_insert. fold r.
    destruct (row_ok code r); [done|by eexists].
  - intros. simpl. unfold reference_live. by destruct (links db !! code).
  - done.
  - intros now db clicks _ _ _. simpl. rewrite zip_fst_snd.
    eexists; split; [reflexivity|]. intros code. rewrite list_elem_of_filter. tauto.
  - intros now db codes targets created expires rows H1 H2 H3 H4 H5. simpl.
    rewrite (pending_rows_some _ _ _ _ rows) by done.
    destruct (forallb _ rows); [|by eexists].
    destruct (insert_rows (links db) rows) as [l ret]. by exists ret.
  - intros now db codes targets created expires H. simpl.
    rewrite pending_rows_none by done. by eexists.
  - intros now db codes. exists (reference_existing db codes).
    destruct (reference_existing_spec db codes) as [Hnd Hspec]. by split_and!.
  - done.
  - intros. by exists 0.
  - done.
  - intros now db size -> _. done.
  - done.
Defined.
