(* ===== verification/World.v ===== *)
(** * The world the classes run in

    The effects an [async] method of the program has, and their meaning on
    Redis, PostgreSQL and the clocks. Everything the program cannot control
    about a call (does it reach the server, does its answer come back, how
    long does it take) is a [choice]; theorems quantify over all of them. *)
From S2P Require Import Prelude JsNum JsString Keys ClickBuffer Async Link Redis Sql.
Open Scope Z_scope.

Inductive effect : Type -> Type :=
  | RedisReady : effect bool                                  (* redis.isReady *)
  | RedisEval (A : Type) (s : script A) : effect A            (* one command, eval or multi *)
  | PgQuery (A : Type) (s : sql A) : effect A                 (* pool.query *)
  | DateNow : effect Z                                        (* new Date(), Date.now() *)
  | RandomUUID : effect string
  | BufferClick (cfg : ClickBuffer.config) (code : string) : effect unit  (* clickBuffer.record *)
  | Increment (name : string) (by_ : Z) : effect unit.        (* counters?.increment *)

Definition redis_eval {A} (s : script A) : async effect A := call (RedisEval A s).
Definition pg {A} (s : sql A) : async effect A := call (PgQuery A s).
Definition isReady : async effect bool := call RedisReady.
Definition now : async effect Z := call DateNow.
Definition bufferClick (cfg : ClickBuffer.config) (code : string) : async effect unit :=
  call (BufferClick cfg code).
Definition randomUUID : async effect string := call RandomUUID.
Definition increment (name : string) (by_ : Z) : async effect unit := call (Increment name by_).

(** What the environment decides for one effect. *)
Inductive fate : Type := Delivered | LostBefore | LostAfter.

Record choice : Type := { c_fate : fate; c_ready : bool; c_uuid : string; c_wait : Z }.

Definition smooth : choice := {| c_fate := Delivered; c_ready := true; c_uuid := ""; c_wait := 0 |}.

Record world : Type := {
  ks : keyspace;
  db : database;
  clock : Z;       (* of the application, in milliseconds *)
  pg_clock : Z;    (* of PostgreSQL, in microseconds *)
  counters : gmap string Z;
  buffer : ClickBuffer.buffer
}.

Definition with_ks (w : world) (k : keyspace) : world :=
  {| ks := k; db := db w; clock := clock w; pg_clock := pg_clock w; counters := counters w; buffer := buffer w |}.
Definition with_db (w : world) (d : database) : world :=
  {| ks := ks w; db := d; clock := clock w; pg_clock := pg_clock w; counters := counters w; buffer := buffer w |}.
Definition with_counter (w : world) (name : string) (n : Z) : world :=
  {| ks := ks w; db := db w; clock := clock w; pg_clock := pg_clock w;
     counters := <[name := default 0 (counters w !! name) + n]> (counters w);
     buffer := buffer w |}.
Definition with_buffer (w : world) (b : ClickBuffer.buffer) : world :=
  {| ks := ks w; db := db w; clock := clock w; pg_clock := pg_clock w; counters := counters w; buffer := b |}.

Definition DISCONNECTED : string := "Connection terminated unexpectedly".

(** The write-behind queue of a shard, oldest entry first. *)
Definition queue_of (k : keyspace) (shard : Z) : list string :=
  match list_at k (queue_key shard) with Return l => l | Throw _ => [] end.

(** The methods of a store; the class that implements it is chosen by the
    program's wiring. *)
Record LinkStore : Type := {
  store_create : CreateLinkInput -> async effect (option Link);
  store_find : string -> async effect (option Link);
  store_recordClick : string -> async effect unit;
  store_size : async effect Z;
  store_isHealthy : async effect bool
}.

Section World.
Context `{Redis} `{Postgres}.

Definition wait (ms : Z) (w : world) : world :=
  {| ks := elapse ms (ks w); db := db w; clock := clock w + ms;
     pg_clock := pg_clock w + 1000 * ms; counters := counters w; buffer := buffer w |}.

Definition deliver {X} (f : fate) (w : world) (outcome : world * result X) : world * result X :=
  match f with
  | Delivered => outcome
  | LostBefore => (w, Throw DISCONNECTED)
  | LostAfter => (outcome.1, Throw DISCONNECTED)
  end.

Definition on_redis {X} (s : script X) (w : world) : world * result X :=
  let '(k, r) := eval s (ks w) in (with_ks w k, r).

Definition on_pg {X} (s : sql X) (w : world) : world * result X :=
  let '(d, r) := query X (pg_clock w) (db w) s in (with_db w d, r).

(** One effect, under one choice, the time of the choice having passed. *)
Definition perform (c : choice) (X : Type) (e : effect X) (w : world) : world * result X :=
  match e in effect X return world * result X with
  | RedisReady => (w, Return (c_ready c))
  | RedisEval _ s => deliver (c_fate c) w (on_redis s w)
  | PgQuery _ s => deliver (c_fate c) w (on_pg s w)
  | DateNow => (w, Return (clock w))
  | RandomUUID => (w, Return (c_uuid c))
  | BufferClick cfg code =>
      match ClickBuffer.record cfg code (buffer w) with
      | Return b => (with_buffer w b, Return tt)
      | Throw e => (w, Throw e)
      end
  | Increment name n => (with_counter w name n, Return tt)
  end.

(** Execution along a list of choices; after its end everything is smooth. *)
Definition handle (X : Type) (e : effect X) (s : list choice * world) :
    (list choice * world) * result X :=
  let '(cs, w) := s in
  let c := default smooth (head cs) in
  let '(w', r) := perform c X e (wait (c_wait c) w) in
  ((tail cs, w'), r).

Definition exec {A} (m : async effect A) (cs : list choice) (w : world) : world * result A :=
  let '((_, w'), r) := run handle m (cs, w) in (w', r).

(** ** Execution with no disturbance *)

Lemma run_nil {A} (m : io effect A) w : (run handle m ([], w)).1.1 = [].
Proof.
  revert w; induction m as [a|X e k IH]; intros w; simpl; [done|].
  destruct (perform smooth X e (wait 0 w)) as [w' r]. apply IH.
Qed.

Lemma exec_bind {A B} (m : async effect A) (f : A -> async effect B) w :
  exec (async_bind m f) [] w
  = let '(w', r) := exec m [] w in
    match r with Return a => exec (f a) [] w' | Throw e => (w', Throw e) end.
Proof.
  unfold exec. rewrite run_async_bind. pose proof (run_nil m w) as Hnil.
  destruct (run handle m ([], w)) as [[cs w'] r]. simpl in Hnil. subst cs. by destruct r.
Qed.

Lemma exec_catch {A} (m : async effect A) (h : string -> async effect A) w :
  exec (try_catch m h) [] w
  = let '(w', r) := exec m [] w in
    match r with Return a => (w', Return a) | Throw e => exec (h e) [] w' end.
Proof.
  unfold exec. rewrite run_try_catch. pose proof (run_nil m w) as Hnil.
  destruct (run handle m ([], w)) as [[cs w'] r]. simpl in Hnil. subst cs. by destruct r.
Qed.

Lemma exec_lift {A} (r : result A) cs w : exec (lift r) cs w = (w, r).
Proof. done. Qed.

Lemma exec_resolve {A} (a : A) cs w : exec (resolve a) cs w = (w, Return a).
Proof. done. Qed.

Lemma exec_pg {A} (q : sql A) w : exec (pg q) [] w = on_pg q (wait 0 w).
Proof. unfold exec, pg. rewrite run_call. simpl. by destruct (on_pg q (wait 0 w)). Qed.

Lemma exec_redis {A} (s : script A) w : exec (redis_eval s) [] w = on_redis s (wait 0 w).
Proof. unfold exec, redis_eval. rewrite run_call. simpl. by destruct (on_redis s (wait 0 w)). Qed.

Lemma exec_effect {A} (e : effect A) w : exec (call e) [] w = perform smooth A e (wait 0 w).
Proof. unfold exec. rewrite run_call. simpl. by destruct (perform smooth A e (wait 0 w)). Qed.
End World.

(** An empty world for concrete runs. *)
Definition demo_world : world :=
  {| ks := ∅; db := {| links := ∅; next_block := 0 |}; clock := 1709164800123;
     pg_clock := 1709164800123000; counters := ∅; buffer := ClickBuffer.new_buffer |}.
