(* ===== verification/RateLimiter.v ===== *)
(** * The rate limiter

    [RedisRateLimiter] of src/src/security/rate-limiter.ts: a fixed window per
    identity, counted by a Lua script. SHA-256 is node's, a parameter. *)
From S2P Require Import Prelude JsNum JsString Keys Async Redis Sql World.
Open Scope Z_scope.

Definition CONSUME_RATE_LIMIT (KEYS ARGV : list string) : script (list Z) :=
  arg key <- KEYS # 1;
  local incremented <- INCR key;
  await current <- as_number incremented;
  await_ (if current =? 1
          then arg window <- ARGV # 1; await seconds <- tonumber window; redis EXPIRE key seconds; resolve tt
          else resolve tt);
  local left <- TTL key;
  await ttl <- as_number left;
  if ttl <? 0 then
    arg window <- ARGV # 1;
    await seconds <- tonumber window;
    redis EXPIRE key seconds;
    resolve [current; seconds]
  else resolve [current; ttl].

Record RateLimitResult : Type := {
  allowed : bool;
  limit : Z;
  remaining : Z;
  retryAfterSeconds : Z
}.

Record RedisRateLimiter : Type := { maximum : Z; windowSeconds : Z; prefix : string }.

Definition new (maximum windowSeconds : Z) (prefix : string) : result RedisRateLimiter :=
  if negb (isSafeInteger maximum) || (maximum <? 1) then
    Throw "Rate-limit maximum must be a positive integer"
  else if negb (isSafeInteger windowSeconds) || (windowSeconds <? 1) then
    Throw "Rate-limit window must be a positive integer"
  else Return {| maximum := maximum; windowSeconds := windowSeconds; prefix := prefix |}.

Section Limiter.
(** [createHash("sha256").update(identity).digest("hex")]. *)
Context (sha256 : string -> string) (self : RedisRateLimiter).

Definition key (identity : string) : string := prefix self +:+ ":" +:+ sha256 identity.

(** Integer replies arrive as JavaScript numbers. *)
Definition consume (identity : string) : async effect RateLimitResult :=
  await ready <- isReady;
  if negb ready then reject "Redis is unavailable"
  else
    await result <- redis_eval (CONSUME_RATE_LIMIT [key identity] [js_String (windowSeconds self)]);
    match result with
    | [first; second] =>
        let count := to_double first in
        let ttl := to_double second in
        if negb (isSafeInteger count) || negb (isSafeInteger ttl)
        then reject "Redis returned invalid rate-limit values"
        else resolve {| allowed := count <=? maximum self; limit := maximum self;
                        remaining := Z.max 0 (maximum self - count);
                        retryAfterSeconds := Z.max 1 ttl |}
    | _ => reject "Redis returned an invalid rate-limit result"
    end.
End Limiter.

(** ** The window as data

    What is stored under a key: how often it was consumed and the milliseconds
    its window has left. *)
Definition window : Type := option (Z * Z).

(** The specification: one consumption, and the passing of time. *)
Definition spend (seconds : Z) (b : window) : Z * Z :=
  match b with None => (1, seconds * 1000) | Some (n, ms) => (n + 1, ms) end.

Definition pass (d : Z) (b : window) : window :=
  match b with
  | Some (n, ms) => if ms <=? d then None else Some (n, ms - d)
  | None => None
  end.

(** What the caller is told. *)
Definition verdict (self : RedisRateLimiter) (b : Z * Z) : RateLimitResult :=
  {| allowed := b.1 <=? maximum self; limit := maximum self; remaining := Z.max 0 (maximum self - b.1);
     retryAfterSeconds := Z.max 1 ((b.2 + 500) / 1000) |}.

Definition stored (b : window) : option rentry :=
  (fun b => {| value := RString (js_String b.1); pttl := Some b.2 |}) <$> b.

Section Script.
Context `{Redis} `{Postgres}.

Lemma eval_as_number {A} n (f : Z -> script A) k :
  eval (async_bind (as_number (Int n)) f) k = eval (f n) k.
Proof. done. Qed.

Lemma stored_INCR k ky b seconds :
  k !! ky = stored b -> 0 <= (spend seconds b).1 - 1 < INT64_MAX ->
  execute k (INCR ky)
  = (put k ky (RString (js_String (spend seconds b).1)), Return (Int (spend seconds b).1)).
Proof.
  intros Hk Hn. destruct b as [[n ms]|]; simpl in *.
  - apply execute_INCR; [|lia]. right. exists (js_String n). unfold string_at. rewrite Hk. simpl.
    split; [done|apply read_integer_String].
  - apply (execute_INCR _ _ 0); [|lia]. left. unfold string_at. by rewrite Hk.
Qed.

(** The window a script meets: not stored, running, or stored without its time
    to live, which the script gives back. *)
Lemma consume_script k ky b seconds ARGV :
  k !! ky = stored b -> 0 <= (spend seconds b).1 - 1 < INT64_MAX ->
  (forall n ms, b = Some (n, ms) -> 1 <= n /\ 0 < ms) -> 0 < seconds -> ttl_ok (seconds * 1000) ->
  ARGV !! 0%nat = Some (js_String seconds) ->
  exists k', eval (CONSUME_RATE_LIMIT [ky] ARGV) k
    = (k', Return [(spend seconds b).1; ((spend seconds b).2 + 500) / 1000])
    /\ k' !! ky = stored (Some (spend seconds b))
    /\ forall ky', ky' <> ky -> k' !! ky' = k !! ky'.
Proof.
  intros Hk Hn Hpos Hsec Httl Harg. unfold CONSUME_RATE_LIMIT.
  rewrite (eval_entry _ _ ky) by done. rewrite eval_call, (stored_INCR _ _ b seconds) by done.
  cbv beta iota zeta. rewrite eval_as_number.
  assert (Hput : put k ky (RString (js_String (spend seconds b).1)) !! ky
    = Some {| value := RString (js_String (spend seconds b).1); pttl := k !! ky ≫= pttl |}).
  { unfold put. apply lookup_insert_eq. }
  destruct b as [[n ms]|]; cbn [spend fst snd] in *.
  - destruct (Hpos n ms eq_refl) as [Hn1 Hms]. rewrite (proj2 (Z.eqb_neq (n + 1) 1)) by lia.
    rewrite eval_bind, eval_resolve, eval_call, execute_TTL, Hput, Hk. simpl ttl_reply.
    cbv beta iota zeta. rewrite eval_as_number.
    assert (Hge : 0 <= (ms + 500) / 1000) by (apply Z.div_pos; lia).
    rewrite (proj2 (Z.ltb_ge ((ms + 500) / 1000) 0)) by lia. rewrite eval_resolve.
    eexists. split; [done|]. rewrite Hput, Hk. split; [done|].
    intros ky' Hne. by rewrite put_lookup_ne by congruence.
  - rewrite Z.eqb_refl. rewrite eval_bind, (eval_entry _ _ (js_String seconds)) by done.
    rewrite eval_tonumber, eval_call, execute_EXPIRE by done. cbv beta iota zeta. rewrite eval_resolve.
    rewrite eval_call, execute_TTL. unfold set_ttl. rewrite Hput.
    rewrite (proj2 (Z.leb_gt (seconds * 1000) 0)) by lia. rewrite lookup_insert_eq. simpl ttl_reply.
    cbv beta iota zeta. rewrite eval_as_number.
    assert (Hge : 0 <= (seconds * 1000 + 500) / 1000) by (apply Z.div_pos; lia).
    rewrite (proj2 (Z.ltb_ge _ 0)) by lia. rewrite eval_resolve.
    eexists. split; [done|]. rewrite lookup_insert_eq. split; [done|].
    intros ky' Hne. rewrite lookup_insert_ne by done. by rewrite put_lookup_ne by congruence.
Qed.

(** ** Consumptions in a row *)
Context (sha256 : string -> string) (self : RedisRateLimiter).
Context (seconds_ok : 0 < windowSeconds self <= MAX_SAFE_INTEGER).

Definition holds (w : world) (identity : string) (b : window) : Prop :=
  ks w !! key sha256 self identity = stored b
  /\ forall n ms, b = Some (n, ms) -> 1 <= n /\ 0 < ms <= windowSeconds self * 1000.

Lemma window_wait d w identity b : 0 <= d -> holds w identity b -> holds (wait d w) identity (pass d b).
Proof using Type.
  intros Hd [Hk Hb]. unfold holds. simpl. rewrite elapse_lookup, Hk. destruct b as [[n ms]|]; simpl; [|done].
  destruct (Hb n ms eq_refl). destruct (Z.leb_spec ms d); simpl; (split; [done|]); intros ?? [= <- <-]. lia.
Qed.

Lemma exec_isReady {A} (f : bool -> async effect A) w :
  exec (await b <- isReady; f b) [] w = exec (f true) [] (wait 0 w).
Proof using Type. rewrite exec_bind. unfold isReady. by rewrite exec_effect. Qed.

Lemma pass_0 b : (forall n ms, b = Some (n, ms) -> 1 <= n /\ 0 < ms) -> pass 0 b = b.
Proof using Type.
  intros Hb. destruct b as [[n ms]|]; [|done]. destruct (Hb n ms eq_refl). simpl.
  rewrite (proj2 (Z.leb_gt ms 0)) by lia. by rewrite Z.sub_0_r.
Qed.

Lemma consume_exec w identity b :
  holds w identity b -> (spend (windowSeconds self) b).1 <= MAX_SAFE_INTEGER ->
  exists w', exec (consume sha256 self identity) [] w
      = (w', Return (verdict self (spend (windowSeconds self) b)))
    /\ holds w' identity (Some (spend (windowSeconds self) b)).
Proof using seconds_ok.
  intros Hw Hn. unfold consume. rewrite exec_isReady. cbn [negb]. rewrite exec_bind, exec_redis.
  unfold on_redis. assert (Hb : forall n ms, b = Some (n, ms) -> 1 <= n /\ 0 < ms)
    by (intros n ms Heq; destruct (proj2 Hw n ms Heq); lia).
  pose proof (window_wait 0 _ _ _ ltac:(done) (window_wait 0 _ _ _ ltac:(done) Hw)) as Hw2.
  rewrite !(pass_0 _ Hb) in Hw2. destruct Hw2 as [Hk Hms].
  assert (Hrange : 1 <= (spend (windowSeconds self) b).1
    /\ 0 < (spend (windowSeconds self) b).2 <= windowSeconds self * 1000).
  { destruct b as [[n ms]|]; simpl; [destruct (Hms n ms eq_refl)|]; lia. }
  destruct (consume_script (ks (wait 0 (wait 0 w))) (key sha256 self identity) b (windowSeconds self)
    [js_String (windowSeconds self)]) as (k' & He & Hk' & _); [done| |done|lia| |done|].
  { unfold MAX_SAFE_INTEGER, INT64_MAX in *. lia. }
  { unfold ttl_ok, MAX_SAFE_INTEGER in *. lia. }
  rewrite He. cbn [result_bind].
  assert (Hsmall : 0 <= ((spend (windowSeconds self) b).2 + 500) / 1000 <= MAX_SAFE_INTEGER)
    by (Z.div_mod_to_equations; lia).
  assert (Hsafe : forall z, 0 <= z <= MAX_SAFE_INTEGER -> to_double z = z /\ isSafeInteger z = true).
  { intros z Hz. split; [apply to_double_exact; unfold MAX_SAFE_INTEGER in *; lia|].
    unfold isSafeInteger. apply andb_true_iff. rewrite !Z.leb_le. lia. }
  destruct (Hsafe (spend (windowSeconds self) b).1) as [-> ->]; [lia|].
  destruct (Hsafe (((spend (windowSeconds self) b).2 + 500) / 1000)) as [-> ->]; [lia|].
  cbn [negb orb]. eexists. split; [by rewrite exec_resolve|]. split; [exact Hk'|].
  intros n ms [= Hsp]. rewrite Hsp in Hrange. simpl in *. lia.
Qed.

(** Consumptions, each after a wait. *)
Fixpoint consumes (identity : string) (waits : list Z) (w : world) : world * list (result RateLimitResult) :=
  match waits with
  | [] => (w, [])
  | d :: waits =>
      let '(w, r) := exec (consume sha256 self identity) [] (wait d w) in
      let '(w, rs) := consumes identity waits w in (w, r :: rs)
  end.

Fixpoint spends (waits : list Z) (b : window) : window * list (Z * Z) :=
  match waits with
  | [] => (b, [])
  | d :: waits =>
      let s := spend (windowSeconds self) (pass d b) in
      let '(b, l) := spends waits (Some s) in (b, s :: l)
  end.

Lemma spend_positive b seconds :
  (forall n ms, b = Some (n, ms) -> 1 <= n) -> 1 <= (spend seconds b).1.
Proof using Type. intros Hb. destruct b as [[n ms]|]; simpl; [|lia]. specialize (Hb n ms eq_refl). lia. Qed.

Lemma pass_count d b : (pass d b = None) \/ exists n ms, b = Some (n, ms) /\ pass d b = Some (n, ms - d).
Proof using Type. destruct b as [[n ms]|]; [|by left]. simpl. destruct (_ <=? _); [by left|right]. by exists n, ms. Qed.

(** The store refines the window. *)
Lemma consumes_spec identity waits w b n0 :
  holds w identity b -> Forall (fun d => 0 <= d) waits ->
  (forall n ms, b = Some (n, ms) -> n <= n0) -> 0 <= n0 ->
  n0 + Z.of_nat (List.length waits) <= MAX_SAFE_INTEGER ->
  exists w', consumes identity waits w
      = (w', (fun s => Return (verdict self s)) <$> (spends waits b).2)
    /\ holds w' identity (spends waits b).1.
Proof using seconds_ok.
  revert w b n0; induction waits as [|d waits IH]; intros w b n0 Hw Hds Hn Hn0 Hlen; [by exists w|].
  apply Forall_cons in Hds as [Hd Hds]. cbn [consumes spends]. rewrite length_cons in Hlen.
  apply (window_wait d) in Hw; [|done].
  assert (Hcount : (spend (windowSeconds self) (pass d b)).1 <= n0 + 1).
  { destruct (pass_count d b) as [->|(n & ms & -> & ->)]; simpl; [lia|]. specialize (Hn n ms eq_refl). lia. }
  destruct (consume_exec _ _ _ Hw) as (w1 & Hx & Hw1); [lia|]. rewrite Hx.
  destruct (IH w1 _ (n0 + 1) Hw1 Hds) as (w2 & Hx2 & Hw2); [|lia|lia|].
  { intros n ms [= Hsp]. rewrite Hsp in Hcount. done. }
  rewrite Hx2. exists w2. destruct (spends waits _) as [b' l]. done.
Qed.

Definition total_wait (waits : list Z) : Z := foldr Z.add 0 waits.

(** Within one window the counts go up one by one. *)
Lemma spends_running waits n ms :
  Forall (fun d => 0 <= d) waits -> total_wait waits < ms ->
  spends waits (Some (n, ms))
  = (Some (n + Z.of_nat (List.length waits), ms - total_wait waits),
     imap (fun i _ => (n + Z.of_nat i + 1, ms - total_wait (take (S i) waits))) waits).
Proof using Type.
  revert n ms; induction waits as [|d waits IH]; intros n ms Hds Hms.
  { simpl. by rewrite Z.add_0_r, Z.sub_0_r. }
  apply Forall_cons in Hds as [Hd Hds]. cbn [spends]. unfold total_wait in Hms. cbn [foldr] in Hms.
  fold (total_wait waits) in Hms.
  assert (Hge : 0 <= total_wait waits) by (clear -Hds; induction Hds; simpl; lia).
  assert (Hp : pass d (Some (n, ms)) = Some (n, ms - d))
    by (simpl; by rewrite (proj2 (Z.leb_gt ms d)) by lia).
  rewrite Hp. cbn [spend]. rewrite IH by (done || lia). rewrite imap_cons, length_cons.
  assert (Hcons : forall l, total_wait (d :: l) = d + total_wait l) by done.
  rewrite !firstn_cons, !Hcons, firstn_O. change (total_wait []) with 0.
  apply pair_equal_spec. split; [|f_equal].
  - apply (f_equal Some). apply pair_equal_spec. lia.
  - apply pair_equal_spec. lia.
  - apply imap_ext. intros i x Hx. unfold compose. rewrite firstn_cons, Hcons. apply pair_equal_spec. lia.
Qed.
End Script.

Lemma verdict_at self i n ms :
  n = Z.of_nat i + 1 ->
  verdict self (n, ms)
  = {| allowed := bool_decide (Z.of_nat i < maximum self); limit := maximum self;
       remaining := Z.max 0 (maximum self - (Z.of_nat i + 1));
       retryAfterSeconds := Z.max 1 ((ms + 500) / 1000) |}.
Proof.
  intros ->. unfold verdict. simpl. f_equal. apply eq_true_iff_eq.
  rewrite Z.leb_le, bool_decide_eq_true. lia.
Qed.

(** C17. The rate limit over one window. For an identity with no window
    running, consumptions spread over less than the window's length are
    answered 1, 2, 3, ... : the first [maximum] are allowed and no other is,
    [remaining] counts down to zero and [retryAfterSeconds] is what the window
    has left, at least a second; once the window is over, the next consumption
    begins a new one. *)
Theorem rate_limit_window `{Redis} `{Postgres} sha256 self identity w d0 waits :
  0 < windowSeconds self <= MAX_SAFE_INTEGER -> ks w !! key sha256 self identity = None ->
  0 <= d0 -> Forall (fun d => 0 <= d) waits -> total_wait waits < windowSeconds self * 1000 ->
  1 + Z.of_nat (List.length waits) < MAX_SAFE_INTEGER ->
  exists w', consumes sha256 self identity (d0 :: waits) w
    = (w', imap (fun i _ => Return
             {| allowed := bool_decide (Z.of_nat i < maximum self); limit := maximum self;
                remaining := Z.max 0 (maximum self - (Z.of_nat i + 1));
                retryAfterSeconds :=
                  Z.max 1 ((windowSeconds self * 1000 - total_wait (take i waits) + 500) / 1000) |})
           (d0 :: waits))
    /\ forall d, windowSeconds self * 1000 - total_wait waits <= d ->
        exists w'', exec (consume sha256 self identity) [] (wait d w')
          = (w'', Return {| allowed := 1 <=? maximum self; limit := maximum self;
                            remaining := Z.max 0 (maximum self - 1);
                            retryAfterSeconds := windowSeconds self |}).
Proof.
  intros Hsec Hk Hd0 Hds Htot Hlen.
  assert (Hw : holds sha256 self w identity None) by (split; [exact Hk|done]).
  assert (Hwaits : Forall (fun d => 0 <= d) (d0 :: waits)) by (by constructor).
  destruct (consumes_spec sha256 self Hsec identity (d0 :: waits) w None 0 Hw Hwaits) as (w' & Hx & Hw');
    [done|lia|rewrite length_cons; lia|].
  exists w'. rewrite Hx. cbn [spends pass spend] in *.
  rewrite spends_running in * by done. cbn [fst snd] in *. split.
  - f_equal. rewrite imap_cons, fmap_cons. f_equal.
    + rewrite (verdict_at _ 0) by lia. unfold total_wait. simpl. by rewrite Z.sub_0_r.
    + rewrite fmap_imap. apply imap_ext. intros i x Hin. unfold compose. f_equal. apply verdict_at. lia.
  - intros d Hd. pose proof (window_wait sha256 self d _ _ _ ltac:(lia) Hw') as Hw2.
    cbn [pass] in Hw2. rewrite (proj2 (Z.leb_le _ d)) in Hw2 by lia.
    destruct (consume_exec sha256 self Hsec _ _ _ Hw2) as (w2 & H2 & _); [simpl; unfold MAX_SAFE_INTEGER; lia|].
    exists w2. rewrite H2. unfold verdict. cbn [spend fst snd]. do 3 f_equal. 
    Z.div_mod_to_equations. lia.
Qed.

(** No identity is blocked for ever: a counter whose time to live was
    lost, whatever its value, gets a whole window back at its next consumption,
    which is reported as the time to wait; and no other key is touched. *)
Theorem rate_limit_heals `{Redis} k ky n seconds ARGV :
  k !! ky = Some {| value := RString (js_String n); pttl := None |} ->
  0 <= n < INT64_MAX -> 0 < seconds -> ttl_ok (seconds * 1000) ->
  ARGV !! 0%nat = Some (js_String seconds) ->
  exists k', eval (CONSUME_RATE_LIMIT [ky] ARGV) k = (k', Return [n + 1; seconds])
    /\ k' !! ky = Some {| value := RString (js_String (n + 1)); pttl := Some (seconds * 1000) |}
    /\ forall ky', ky' <> ky -> k' !! ky' = k !! ky'.
Proof.
  intros Hk Hn Hsec Httl Harg. unfold CONSUME_RATE_LIMIT.
  rewrite (eval_entry _ _ ky), eval_call by done.
  rewrite (execute_INCR k ky n); [|right; exists (js_String n); unfold string_at; rewrite Hk;
    split; [done|apply read_integer_String]|lia].
  cbv beta iota zeta. rewrite eval_as_number.
  assert (Hput : put k ky (RString (js_String (n + 1))) !! ky
    = Some {| value := RString (js_String (n + 1)); pttl := None |}).
  { unfold put. rewrite lookup_insert_eq, Hk. done. }
  assert (Hround : (seconds * 1000 + 500) / 1000 = seconds) by (Z.div_mod_to_equations; lia).
  assert (Hset : forall v ks, ks !! ky = Some {| value := v; pttl := None |} ->
    set_ttl ks ky (seconds * 1000) = <[ky := {| value := v; pttl := Some (seconds * 1000) |}]> ks).
  { intros v ks Hv. unfold set_ttl. rewrite Hv. by rewrite (proj2 (Z.leb_gt (seconds * 1000) 0)) by lia. }
  assert (Hother : forall e ky', ky' <> ky ->
    <[ky := e]> (put k ky (RString (js_String (n + 1)))) !! ky' = k !! ky').
  { intros e ky' Hne. rewrite lookup_insert_ne by done. by rewrite put_lookup_ne by congruence. }
  destruct (Z.eqb_spec (n + 1) 1) as [Hn1|Hn1].
  - rewrite eval_bind, (eval_entry _ _ (js_String seconds)), eval_tonumber, eval_call, execute_EXPIRE by done.
    cbv beta iota zeta. rewrite eval_resolve, eval_call, execute_TTL, (Hset _ _ Hput), lookup_insert_eq.
    simpl ttl_reply. cbv beta iota zeta. rewrite eval_as_number, Hround.
    rewrite (proj2 (Z.ltb_ge seconds 0)) by lia. rewrite eval_resolve.
    eexists. split; [done|]. split; [apply lookup_insert_eq|apply Hother].
  - rewrite eval_bind, eval_resolve, eval_call, execute_TTL, Hput. simpl ttl_reply. cbv beta iota zeta.
    rewrite eval_as_number. change (-1 <? 0) with true. cbv beta iota.
    rewrite (eval_entry _ _ (js_String seconds)), eval_tonumber, eval_call, execute_EXPIRE by done.
    cbv beta iota zeta. rewrite eval_resolve, (Hset _ _ Hput).
    eexists. split; [done|]. split; [apply lookup_insert_eq|apply Hother].
Qed.

(** ** Witnesses *)
Definition demo_limiter : RedisRateLimiter :=
  {| maximum := 2; windowSeconds := 60; prefix := "wraplink:rate:create" |}.

Definition no_sha (identity : string) : string := identity.

Lemma rate_limit_window_witness :
  (@consumes reference_redis reference_postgres no_sha demo_limiter "10.0.0.1" [5; 1000; 30000] demo_world).2
  = [Return {| allowed := true; limit := 2; remaining := 1; retryAfterSeconds := 60 |};
     Return {| allowed := true; limit := 2; remaining := 0; retryAfterSeconds := 59 |};
     Return {| allowed := false; limit := 2; remaining := 0; retryAfterSeconds := 29 |}].
Proof.
  destruct (@rate_limit_window reference_redis reference_postgres no_sha demo_limiter "10.0.0.1" demo_world 5
    [1000; 30000]) as (w' & H & _).
  - split; [reflexivity|discriminate].
  - reflexivity.
  - discriminate.
  - repeat constructor; discriminate.
  - reflexivity.
  - reflexivity.
  - rewrite H. vm_compute. reflexivity.
Defined.

Lemma rate_limit_heals_witness :
  exists k', @eval reference_redis _ (CONSUME_RATE_LIMIT ["k"] ["60"])
      {["k" := {| value := RString "7"; pttl := None |}]} = (k', Return [8; 60]).
Proof.
  destruct (@rate_limit_heals reference_redis {["k" := {| value := RString "7"; pttl := None |}]} "k" 7 60 ["60"])
    as (k' & H & _).
  - reflexivity.
  - split; [discriminate|reflexivity].
  - reflexivity.
  - discriminate.
  - reflexivity.
  - exists k'. exact H.
Defined.
