(* ===== verification/Interleave.v ===== *)
(** * Interleaved execution

    Several [async] methods run at the same time, in several processes: between
    two effects of one, any of the others may run. [safe] is a rely-guarantee
    reading of a program: whatever the others do within [rely], each effect of
    the program stays within [guar] and its result satisfies [Q]. *)
From S2P Require Import Prelude ClickBuffer Async Redis Sql World.
Open Scope Z_scope.

(** The world and the list of commands Redis has executed so far. *)
Definition state : Type := world * list command.

Section Logged.
Context `{Redis} `{Postgres}.

Definition commands_of {X} (c : choice) (e : effect X) (w : world) : list command :=
  match e with
  | RedisEval _ s => match c_fate c with LostBefore => [] | _ => trace s (ks w) end
  | _ => []
  end.

Definition perform_logged {X} (c : choice) (e : effect X) (s : state) : state * result X :=
  let '(w, r) := perform c X e s.1 in ((w, s.2 ++ commands_of c e s.1), r).

Section Rely.
Context (choice_ok : choice -> Prop) (rely guar : state -> state -> Prop).

Fixpoint safe {A} (m : io effect A) (Q : state -> A -> Prop) (s : state) : Prop :=
  match m with
  | Done a => forall s', rely s s' -> Q s' a
  | Await e k =>
      forall c s1, choice_ok c -> rely s s1 ->
      let '(s2, r) := perform_logged c e s1 in guar s1 s2 /\ safe (k r) Q s2
  end.

Context (rely_refl : forall s, rely s s) (rely_trans : forall a b c, rely a b -> rely b c -> rely a c).

Lemma safe_mono {A} (m : io effect A) (P Q : state -> A -> Prop) s :
  (forall s' a, P s' a -> Q s' a) -> safe m P s -> safe m Q s.
Proof.
  intros HPQ. revert s; induction m as [a|X e k IH]; intros s Hm; simpl in *; [by auto|].
  intros c s1 Hc Hr. specialize (Hm c s1 Hc Hr). destruct (perform_logged c e s1) as [s2 r].
  destruct Hm. split; [done|by apply IH].
Qed.

Lemma safe_rely {A} (m : io effect A) Q s s' : rely s s' -> safe m Q s -> safe m Q s'.
Proof. intros Hr Hm. destruct m as [a|X e k]; simpl in *; [by eauto|].
  intros c s1 Hc H1. apply Hm; [done|by eapply rely_trans]. Qed.

Lemma safe_bind {A B} (m : io effect A) (f : A -> io effect B) Q s :
  safe m (fun s' a => safe (f a) Q s') s -> safe (io_bind m f) Q s.
Proof.
  revert s; induction m as [a|X e k IH]; intros s Hm; simpl in *; [by auto|].
  intros c s1 Hc Hr. specialize (Hm c s1 Hc Hr). destruct (perform_logged c e s1) as [s2 r].
  destruct Hm. split; [done|by apply IH].
Qed.

Lemma safe_done {A} (a : A) (Q : state -> A -> Prop) s :
  (forall s', rely s s' -> Q s' a) -> safe (Done a) Q s.
Proof. done. Qed.

Lemma safe_async_bind {A B} (m : async effect A) (f : A -> async effect B) Q s :
  safe m (fun s' r => match r with Return a => safe (f a) Q s'
                      | Throw e => safe (reject e) Q s' end) s ->
  safe (async_bind m f) Q s.
Proof. intros Hm. apply safe_bind. eapply safe_mono; [|exact Hm]. by intros s' [a|e]. Qed.

Lemma safe_try_catch {A} (m : async effect A) h Q s :
  safe m (fun s' r => match r with Return a => safe (resolve a) Q s'
                      | Throw e => safe (h e) Q s' end) s ->
  safe (try_catch m h) Q s.
Proof. intros Hm. apply safe_bind. eapply safe_mono; [|exact Hm]. by intros s' [a|e]. Qed.

(** A caller that continues whatever the result, after a stable fact [P]. *)
Lemma safe_then {A B} (m : async effect A) (f : A -> async effect B) P Q s :
  safe m P s ->
  (forall s' a, P s' (Return a) -> safe (f a) Q s') ->
  (forall s' e, P s' (Throw e) -> safe (reject e) Q s') ->
  safe (async_bind m f) Q s.
Proof.
  intros Hm Hf He. apply safe_async_bind. eapply safe_mono; [|exact Hm].
  intros s' [a|e]; eauto.
Qed.

Lemma safe_call {X} (e : effect X) Q s :
  (forall c s1, choice_ok c -> rely s s1 ->
     let '(s2, r) := perform_logged c e s1 in
     guar s1 s2 /\ forall s3, rely s2 s3 -> Q s3 r) ->
  safe (call e) Q s.
Proof.
  intros Hc c s1 Hok Hr. specialize (Hc c s1 Hok Hr). by destruct (perform_logged c e s1).
Qed.
(** One Redis call: executed and answered, executed with the answer lost, or
    lost on its way. *)
Definition after (s : state) (k : keyspace) (cs : list command) : state :=
  (with_ks s.1 k, s.2 ++ cs).

Lemma safe_redis {X} (sc : script X) Q s :
  (forall s1, rely s s1 -> guar s1 s1) ->
  (forall s1, rely s s1 ->
     let '(k, cs, r) := logged sc (ks s1.1) in
     guar s1 (after s1 k cs) /\ forall s2, rely (after s1 k cs) s2 -> Q s2 r) ->
  (forall s1, Q s1 (Throw DISCONNECTED)) ->
  safe (redis_eval sc) Q s.
Proof.
  intros Hrefl Hr Hlost. apply safe_call. intros c s1 _ H1. specialize (Hr s1 H1).
  unfold perform_logged, perform, on_redis, deliver, commands_of.
  unfold logged in Hr. destruct (eval sc (ks s1.1)) as [k r]. destruct Hr as [Hg HQ].
  destruct (c_fate c); simpl; (split; [try done|intros s3 H3; auto]).
  rewrite app_nil_r. replace (s1.1, s1.2) with s1 by by destruct s1. auto.
Qed.

Lemma perform_redis {X} (sc : script X) c s :
  c_fate c = Delivered ->
  perform_logged c (RedisEval X sc) s = let '(k, cs, r) := logged sc (ks s.1) in (after s k cs, r).
Proof.
  intros Hd. unfold perform_logged, perform, on_redis, deliver, commands_of, logged. rewrite Hd.
  by destruct (eval sc (ks s.1)).
Qed.

(** No command is unlogged. *)
Definition log_grows (s s' : state) : Prop := s.2 `prefix_of` s'.2.

(** Steps that change neither the keyspace nor the table, and queue nothing. *)
Definition quiet (s s' : state) : Prop :=
  ks s'.1 = ks s.1 /\ db s'.1 = db s.1
  /\ exists cs, s'.2 = s.2 ++ cs /\ forall q x, RPUSH q x ∉ cs.

Lemma quiet_refl s : quiet s s.
Proof. split; [done|]. split; [done|]. exists []. rewrite app_nil_r. split; [done|].
  intros q x. apply not_elem_of_nil. Qed.

Lemma quiet_after s cs :
  (forall q x, RPUSH q x ∉ cs) -> quiet s (after s (ks s.1) cs).
Proof. intros Hcs. split; [done|]. split; [done|]. by exists cs. Qed.

Definition is_local {X} (e : effect X) : bool :=
  match e with RedisEval _ _ | PgQuery _ _ => false | _ => true end.

Lemma perform_local {X} c (e : effect X) w :
  is_local e = true -> ks (perform c X e w).1 = ks w /\ db (perform c X e w).1 = db w.
Proof using Type. by destruct e; simpl; try destruct (ClickBuffer.record _ _ _). Qed.

Lemma safe_local {X} (e : effect X) Q s :
  is_local e = true -> (forall s1 s2, quiet s1 s2 -> guar s1 s2) ->
  (forall s1 s2 s3 c, rely s s1 -> quiet s1 s2 -> rely s2 s3 -> choice_ok c ->
     Q s3 (perform c X e s1.1).2) ->
  safe (call e) Q s.
Proof using Type.
  intros He Hg HQ. apply safe_call. intros c s1 Hc H1. unfold perform_logged.
  specialize (HQ s1). 
  assert (Hs : quiet s1 ((perform c X e s1.1).1, s1.2 ++ commands_of c e s1.1)).
  { assert (Hnil : commands_of c e s1.1 = []) by by destruct e.
    rewrite Hnil. pose proof (perform_local c e s1.1 He) as [Hk Hd]. split; [done|]. split; [done|].
    exists []. split; [done|]. intros q x. apply not_elem_of_nil. }
  destruct (perform c X e s1.1) as [w r] eqn:Hp. simpl in *. split; [by apply Hg|].
  intros s3 H3. specialize (HQ _ s3 c H1 Hs H3 Hc). by rewrite Hp in HQ.
Qed.
End Rely.

(** ** Sequential execution is one interleaving *)

Lemma safe_run (choice_ok : choice -> Prop) (rely guar : state -> state -> Prop) {A}
    (m : io effect A) Q cs w log :
  (forall s, rely s s) -> (forall ms w log, rely (w, log) (wait ms w, log)) ->
  choice_ok smooth -> Forall choice_ok cs ->
  safe choice_ok rely guar m Q (w, log) ->
  let '((_, w'), r) := run handle m (cs, w) in exists log', Q (w', log') r.
Proof.
  intros Hrefl Hwait Hsmooth. revert cs w log.
  induction m as [a|X e k IH]; intros cs w log Hcs Hm; simpl.
  - exists log. by apply Hm.
  - set (c := default smooth (head cs)).
    assert (Hc : choice_ok c) by (destruct cs; [done|by inversion Hcs]).
    specialize (Hm c (wait (c_wait c) w, log) Hc (Hwait _ _ _)). unfold perform_logged in Hm.
    cbn [fst snd] in Hm. destruct (perform c X e (wait (c_wait c) w)) as [w' r]. destruct Hm as [_ Hk].
    eapply (IH r (tail cs) w' _); [|exact Hk]. destruct cs; [constructor|by inversion Hcs].
Qed.
(** A fact [P] that the steps of the others and of the program preserve holds
    at the end. *)
Lemma safe_frame (choice_ok : choice -> Prop) (rely guar : state -> state -> Prop)
    (P : state -> Prop) {A} (m : io effect A) (Q : state -> A -> Prop) s :
  (forall s s', rely s s' -> P s -> P s') ->
  safe choice_ok rely (fun s s' => guar s s' /\ (P s -> P s')) m Q s -> P s ->
  safe choice_ok rely guar m (fun s' a => Q s' a /\ P s') s.
Proof.
  intros Hrely. revert s; induction m as [a|X e k IH]; intros s Hm HP; simpl in *.
  - intros s' Hr. split; [by apply Hm|by eapply Hrely].
  - intros c s1 Hc Hr. specialize (Hm c s1 Hc Hr). destruct (perform_logged c e s1) as [s2 r].
    destruct Hm as [[Hg HP2] Hk]. split; [done|]. apply IH; [done|]. apply HP2.
    by eapply Hrely.
Qed.

Lemma safe_guar (choice_ok : choice -> Prop) (rely guar guar' : state -> state -> Prop) {A}
    (m : io effect A) (Q : state -> A -> Prop) s :
  (forall s s', guar s s' -> guar' s s') -> safe choice_ok rely guar m Q s ->
  safe choice_ok rely guar' m Q s.
Proof.
  intros Hg. revert s; induction m as [a|X e k IH]; intros s Hm; simpl in *; [done|].
  intros c s1 Hc Hr. specialize (Hm c s1 Hc Hr). destruct (perform_logged c e s1) as [s2 r].
  destruct Hm. split; [by apply Hg|by apply IH].
Qed.

Lemma safe_weaken (choice_ok : choice -> Prop) (rely rely' guar : state -> state -> Prop) {A}
    (m : io effect A) (Q : state -> A -> Prop) s :
  (forall s s', rely' s s' -> rely s s') -> safe choice_ok rely guar m Q s -> safe choice_ok rely' guar m Q s.
Proof.
  intros Hr. revert s; induction m as [a|X e k IH]; intros s Hm; simpl in *; [by auto|].
  intros c s1 Hc H1. specialize (Hm c s1 Hc (Hr _ _ H1)). destruct (perform_logged c e s1) as [s2 r].
  destruct Hm. split; [done|by apply IH].
Qed.

Lemma safe_choices (choice_ok choice_ok' : choice -> Prop) (rely guar : state -> state -> Prop) {A}
    (m : io effect A) (Q : state -> A -> Prop) s :
  (forall c, choice_ok' c -> choice_ok c) -> safe choice_ok rely guar m Q s -> safe choice_ok' rely guar m Q s.
Proof.
  intros HC. revert s; induction m as [a|X e k IH]; intros s Hm; simpl in *; [done|].
  intros c s1 Hc H1. specialize (Hm c s1 (HC _ Hc) H1). destruct (perform_logged c e s1) as [s2 r].
  destruct Hm. split; [done|by apply IH].
Qed.

(** Two readings of one program hold together. *)
Lemma safe_both (C c1 c2 : choice -> Prop) (R r1 r2 g1 g2 : state -> state -> Prop) {A}
    (m : io effect A) (Q1 Q2 : state -> A -> Prop) s :
  (forall c, C c -> c1 c /\ c2 c) -> (forall a b, R a b -> r1 a b /\ r2 a b) ->
  safe c1 r1 g1 m Q1 s -> safe c2 r2 g2 m Q2 s ->
  safe C R (fun a b => g1 a b /\ g2 a b) m (fun s' a => Q1 s' a /\ Q2 s' a) s.
Proof.
  intros HC HR. revert s; induction m as [a|X e k IH]; intros s H1 H2; simpl in *.
  - intros s' [? ?]%HR. split; auto.
  - intros c s1 [Hc1 Hc2]%HC [Hr1 Hr2]%HR. specialize (H1 c s1 Hc1 Hr1). specialize (H2 c s1 Hc2 Hr2).
    destruct (perform_logged c e s1) as [s2 r]. destruct H1 as [? ?], H2 as [? ?]. split; [done|]. by apply IH.
Qed.

(** What every single step does may be added to the guarantee. *)
Lemma safe_steps (choice_ok : choice -> Prop) (rely guar own : state -> state -> Prop) {A}
    (m : io effect A) (Q : state -> A -> Prop) s :
  (forall X c (e : effect X) s, own s (perform_logged c e s).1) ->
  safe choice_ok rely guar m Q s -> safe choice_ok rely (fun s s' => guar s s' /\ own s s') m Q s.
Proof.
  intros Hown. revert s; induction m as [a|X e k IH]; intros s Hm; simpl in *; [done|].
  intros c s1 Hc H1. specialize (Hm c s1 Hc H1). pose proof (Hown X c e s1) as Ho.
  destruct (perform_logged c e s1) as [s2 r]. destruct Hm. split; [done|by apply IH].
Qed.

Lemma perform_clock {X} c (e : effect X) w : clock (perform c X e w).1 = clock w.
Proof.
  destruct e as [|A s|A q| | | |]; simpl; try done; unfold on_redis, on_pg, deliver.
  - destruct (eval s (ks w)), (c_fate c); done.
  - destruct (query A (pg_clock w) (db w) q), (c_fate c); done.
  - by destruct (ClickBuffer.record _ _ _).
Qed.

(** ** The statements a program sends

    [sends okq m Q]: whatever its calls answer, [m] sends PostgreSQL only
    statements [okq], and its result satisfies [Q]. *)
Section Sends.
Context (okq : forall X, sql X -> Prop).

Fixpoint sends {A} (m : io effect A) (Q : A -> Prop) : Prop :=
  match m with
  | Done a => Q a
  | Await e k =>
      match e with PgQuery X q => okq X q | _ => True end /\ forall r, sends (k r) Q
  end.

Lemma sends_mono {A} (m : io effect A) (P Q : A -> Prop) : (forall a, P a -> Q a) -> sends m P -> sends m Q.
Proof. intros HPQ. induction m as [a|X e k IH]; simpl; [apply HPQ|]. intros [He Hk]. split; [done|]. eauto. Qed.

Lemma sends_bind {A B} (m : io effect A) (f : A -> io effect B) Q :
  sends m (fun a => sends (f a) Q) -> sends (io_bind m f) Q.
Proof. induction m as [a|X e k IH]; simpl; [done|]. intros [He Hk]. split; [done|]. eauto. Qed.

Lemma sends_then {A B} (m : async effect A) (f : A -> async effect B) P (Q : result B -> Prop) :
  sends m (fun r => match r with Return a => P a | Throw _ => True end) ->
  (forall a, P a -> sends (f a) Q) -> (forall e, Q (Throw e)) -> sends (async_bind m f) Q.
Proof.
  intros Hm Hf He. apply sends_bind. eapply sends_mono; [|exact Hm]. intros [a|e] Ha; [by apply Hf|apply He].
Qed.

Lemma sends_catch {A} (m : async effect A) h (Q : result A -> Prop) :
  sends m (fun r => match r with Return a => Q (Return a) | Throw e => sends (h e) Q end) ->
  sends (try_catch m h) Q.
Proof. intros Hm. apply sends_bind. eapply sends_mono; [|exact Hm]. by intros [a|e]. Qed.

(** A property of the table that these statements keep is kept by the program. *)
Lemma safe_sends (P : database -> Prop) (choice_ok : choice -> Prop) (rely guar : state -> state -> Prop) {A}
    (m : io effect A) (Q : state -> A -> Prop) (Q2 : A -> Prop) s :
  (forall X now d (q : sql X), okq X q -> P d -> P (query X now d q).1) ->
  safe choice_ok rely guar m Q s -> sends m Q2 ->
  safe choice_ok rely (fun s s' => guar s s' /\ (P (db s.1) -> P (db s'.1))) m (fun s' a => Q s' a /\ Q2 a) s.
Proof.
  intros HP. revert s; induction m as [a|X e k IH]; intros s Hm Hs; simpl in *.
  - intros s' Hr. split; [by apply Hm|done].
  - intros c s1 Hc Hr. specialize (Hm c s1 Hc Hr). destruct Hs as [He Hk].
    assert (Hdb : P (db s1.1) -> P (db (perform c X e s1.1).1)).
    { destruct e as [|B sc|B q| | | |]; try done.
      - simpl. unfold on_redis, deliver. by destruct (eval sc (ks s1.1)), (c_fate c).
      - simpl. unfold on_pg, deliver. pose proof (HP B (pg_clock s1.1) (db s1.1) q He) as Hq.
        destruct (query B (pg_clock s1.1) (db s1.1) q), (c_fate c); simpl in *; auto.
      - simpl. by destruct (ClickBuffer.record _ _ _). }
    unfold perform_logged in *. destruct (perform c X e s1.1) as [w r]. destruct Hm as [Hg Hm].
    split; [split; [done|exact Hdb]|]. by apply IH.
Qed.
End Sends.
End Logged.
