(* ===== verification/PostgresStore.v ===== *)
(** * The PostgreSQL store

    [PostgresLinkStore] of src/src/store/postgres-link-store.ts and
    [PostgresIdBlockSource] of src/src/store/postgres-id-block-source.ts. *)
From S2P Require Import Prelude BlockAllocator JsNum JsString JsDate Link Async Redis Sql World Interleave.
Open Scope Z_scope.

(** ** JavaScript sets and maps, in insertion order *)

Definition set_add (l : list string) (x : string) : list string :=
  if bool_decide (x ∈ l) then l else l ++ [x].

Definition new_Set (l : list string) : list string := fold_left set_add l [].

Definition has (l : list string) (x : string) : bool := bool_decide (x ∈ l).

(** [Number(text)] of a [bigint] column. The driver's text is always an
    integer; the value is rounded to a double. *)
Definition Number (text : string) : Z := to_double (default 0 (read_integer text)).

Record PendingLinkBatchResult : Type := { persisted : list string; conflicts : list PendingLink }.

Definition mapLink (row : LinkRow) : Link :=
  {| code := r_code row; targetUrl := r_target_url row; createdAt := r_created_at row;
     expiresAt := r_expires_at row; clicks := Number (r_clicks row) |}.

Module PostgresLinkStore.

Definition create (input : CreateLinkInput) : async effect (option Link) :=
  await rows <- pg (InsertLink (in_code input) (in_targetUrl input) (in_expiresAt input));
  resolve (mapLink <$> head rows).

Definition find (code : string) : async effect (option Link) :=
  await rows <- pg (SelectLiveLink code);
  resolve (mapLink <$> head rows).

Definition count_ok (count : Z) : bool := isSafeInteger count && (1 <=? count).

Definition COUNT_ERROR : string := "click count must be a positive integer".

Definition recordClicks (code : string) (count : Z) : async effect unit :=
  if negb (count_ok count) then reject COUNT_ERROR
  else await_ pg (AddClicks code count); resolve tt.

Definition recordClick (code : string) : async effect unit := recordClicks code 1.

(** [clicks] is a [Map]: its entries in insertion order, with distinct keys. *)
Definition recordClickBatch (clicks : list (string * Z)) : async effect (list string) :=
  if (List.length clicks =? 0)%nat then resolve []
  else if negb (forallb (fun entry => count_ok entry.2) clicks) then reject COUNT_ERROR
  else
    let codes := clicks.*1 in
    let counts := clicks.*2 in
    await rows <- pg (AddClickBatch codes counts);
    let matched := new_Set rows in
    resolve (new_Set (filter (fun code => negb (has matched code)) codes)).

(** The first occurrence of each code. *)
Fixpoint unique_by_code (seen : list string) (links : list PendingLink) : list PendingLink :=
  match links with
  | [] => []
  | link :: links =>
      if has seen (p_code link) then unique_by_code seen links
      else link :: unique_by_code (seen ++ [p_code link]) links
  end.

Definition existing_row (rows : list (string * (string * string))) (code : string) :
    option (string * string) :=
  (list_to_map (reverse rows) : gmap string (string * string)) !! code.

Definition isReplay (rows : list (string * (string * string))) (link : PendingLink) : bool :=
  match existing_row rows (p_code link) with
  | Some (target_url, created_ms) =>
      bool_decide (target_url = p_targetUrl link) && (Number created_ms =? p_createdAt link)
  | None => false
  end.

(** The loop over the rows that were not inserted. *)
Fixpoint settle (rows : list (string * (string * string))) (notInserted : list PendingLink)
    (acc : PendingLinkBatchResult) : PendingLinkBatchResult :=
  match notInserted with
  | [] => acc
  | link :: rest =>
      settle rows rest
        (if isReplay rows link
         then {| persisted := set_add (persisted acc) (p_code link); conflicts := conflicts acc |}
         else {| persisted := persisted acc; conflicts := conflicts acc ++ [link] |})
  end.

Definition insertPendingBatch (links : list PendingLink) : async effect PendingLinkBatchResult :=
  if (List.length links =? 0)%nat then resolve {| persisted := []; conflicts := [] |}
  else
    let batch := unique_by_code [] links in
    await created <- lift (map_result (fun link => toISOString (p_createdAt link)) batch);
    await expires <- lift (map_result (fun link => isoOrNull (p_expiresAt link)) batch);
    await inserted <- pg (InsertPending (p_code <$> batch) (p_targetUrl <$> batch) created expires);
    let persisted := new_Set inserted in
    let notInserted := filter (fun link => negb (has persisted (p_code link))) batch in
    if (List.length notInserted =? 0)%nat
    then resolve {| persisted := persisted; conflicts := [] |}
    else
      await rows <- pg (SelectExisting (p_code <$> notInserted));
      resolve (settle rows notInserted {| persisted := persisted; conflicts := [] |}).

Definition size : async effect Z :=
  await rows <- pg CountLinks;
  resolve (match head rows with Some count => Number count | None => 0 end).

Definition estimatedSize : async effect Z :=
  await rows <- pg EstimateLinks;
  resolve (match head rows with Some estimate => Number estimate | None => 0 end).

Definition isHealthy : async effect bool :=
  try_catch (await_ pg SelectOne; resolve true) (fun _ => resolve false).

Definition store : LinkStore :=
  {| store_create := create; store_find := find; store_recordClick := recordClick;
     store_size := size; store_isHealthy := isHealthy |}.
End PostgresLinkStore.

(** [PostgresIdBlockSource.reserveBlock]. *)
Definition reserveBlock : async effect IdBlock :=
  await rows <- pg NextBlock;
  match head rows with
  | Some (start, Some size) =>
      resolve {| start := default 0 (read_integer start); size := Number size |}
  | _ => reject "link_code_block_seq is missing; run npm run db:migrate"
  end.

(** ** JavaScript sets *)

Lemma set_add_elem l x y : y ∈ set_add l x <-> y ∈ l \/ y = x.
Proof.
  unfold set_add. case_bool_decide as Hx; [|set_solver].
  split; [by left|]. by intros [H| ->].
Qed.

Lemma set_add_NoDup l x : NoDup l -> NoDup (set_add l x).
Proof.
  unfold set_add. case_bool_decide as Hx; [done|]. intros Hl.
  apply list.NoDup_app. split; [done|]. split; [set_solver|]. apply NoDup_singleton.
Qed.

Lemma fold_set_add l acc y : y ∈ fold_left set_add l acc <-> y ∈ acc \/ y ∈ l.
Proof.
  revert acc; induction l as [|x l IH]; intros acc; simpl; [set_solver|].
  rewrite IH, set_add_elem. set_solver.
Qed.

Lemma new_Set_elem l y : y ∈ new_Set l <-> y ∈ l.
Proof. unfold new_Set. rewrite fold_set_add. set_solver. Qed.

Lemma new_Set_NoDup l : NoDup (new_Set l).
Proof.
  unfold new_Set. assert (Hg : forall acc, NoDup acc -> NoDup (fold_left set_add l acc)).
  { induction l as [|x l IH]; intros acc Hacc; [done|]. simpl. by apply IH, set_add_NoDup. }
  apply Hg. constructor.
Qed.

Lemma has_spec l x : has l x = true <-> x ∈ l.
Proof. apply bool_decide_eq_true. Qed.

Lemma has_false l x : has l x = false <-> x ∉ l.
Proof. apply bool_decide_eq_false. Qed.

(** ** Batches *)

Lemma unique_by_code_elem seen links link :
  link ∈ PostgresLinkStore.unique_by_code seen links -> link ∈ links /\ p_code link ∉ seen.
Proof.
  revert seen; induction links as [|l links IH]; intros seen; simpl; [set_solver|].
  destruct (has seen (p_code l)) eqn:Hs.
  - intros [Hin Hn]%IH. split; [set_solver|done].
  - apply has_false in Hs. rewrite elem_of_cons. intros [->|[Hin Hn]%IH]; set_solver.
Qed.

(** Every code of the list is represented, by its first occurrence. *)
Lemma unique_by_code_covers seen links link :
  link ∈ links -> p_code link ∉ seen ->
  exists i, links !! i ≫= (fun l => Some (p_code l)) = Some (p_code link)
    /\ (forall j l, (j < i)%nat -> links !! j = Some l -> p_code l <> p_code link)
    /\ exists l, links !! i = Some l /\ l ∈ PostgresLinkStore.unique_by_code seen links.
Proof.
  revert seen; induction links as [|l links IH]; intros seen Hin Hseen; [set_solver|].
  destruct (decide (p_code l = p_code link)) as [Heq|Hne].
  - exists 0%nat. simpl. rewrite Heq. split; [done|]. split; [lia|]. exists l. split; [done|].
    rewrite (proj2 (has_false seen _) Hseen). set_solver.
  - assert (Hin' : link ∈ links) by (apply elem_of_cons in Hin as [->|]; done).
    simpl. destruct (has seen (p_code l)) eqn:Hs.
    + destruct (IH seen Hin' Hseen) as (i & Hi & Hf & l' & Hl & Hu).
      exists (S i). split; [done|]. split; [|by exists l'].
      intros [|j] l0 Hj; simpl; [by intros [= <-]|]. apply Hf. lia.
    + destruct (IH (seen ++ [p_code l])) as (i & Hi & Hf & l' & Hl & Hu); [done|set_solver|].
      exists (S i). split; [done|]. split; [|exists l'; split; [done|set_solver]].
      intros [|j] l0 Hj; simpl; [by intros [= <-]|]. apply Hf. lia.
Qed.

Lemma unique_by_code_NoDup seen links :
  NoDup (p_code <$> PostgresLinkStore.unique_by_code seen links).
Proof.
  revert seen; induction links as [|l links IH]; intros seen; simpl; [constructor|].
  destruct (has seen (p_code l)); [apply IH|]. simpl. constructor; [|apply IH].
  intros (k & Hk & Hin)%list_elem_of_fmap. apply unique_by_code_elem in Hin as [_ Hn].
  rewrite Hk in Hn. set_solver.
Qed.

(** The record is the first of the list for its code. *)
Definition first_record (links : list PendingLink) (link : PendingLink) : Prop :=
  exists i, links !! i = Some link /\ forall j l, (j < i)%nat -> links !! j = Some l -> p_code l <> p_code link.

Lemma first_record_nil link : ~ first_record [] link.
Proof. intros (i & Hi & _). by rewrite lookup_nil in Hi. Qed.

Lemma first_record_cons l links link :
  first_record (l :: links) link <-> l = link \/ p_code l <> p_code link /\ first_record links link.
Proof.
  split.
  - intros ([|i] & Hi & Hf); [injection Hi; by left|]. right. split; [by apply (Hf 0%nat); [lia|]|].
    exists i. split; [done|]. intros j l' Hj Hl'. apply (Hf (S j)); [lia|done].
  - intros [->|(Hne & i & Hi & Hf)]; [exists 0%nat; split; [done|lia]|]. exists (S i). split; [done|].
    intros [|j] l' Hj Hl'; [by injection Hl' as <-|]. apply (Hf j); [lia|done].
Qed.

Lemma unique_by_code_first seen links link :
  link ∈ PostgresLinkStore.unique_by_code seen links <-> (p_code link ∉ seen) /\ first_record links link.
Proof.
  revert seen; induction links as [|l links IH]; intros seen.
  - cbn. rewrite elem_of_nil. split; [done|]. by intros [_ ?%first_record_nil].
  - rewrite first_record_cons. cbn [PostgresLinkStore.unique_by_code].
    destruct (has seen (p_code l)) eqn:Hs; [apply has_spec in Hs|apply has_false in Hs].
    + rewrite IH. split; [intros [Hn Hf]; split; [done|right; split; [congruence|done]]|].
      intros [Hn [->|[_ Hf]]]; done.
    + rewrite elem_of_cons, IH. split; [intros [->|[Hn Hf]]|intros [Hn [->|[Hne Hf]]]].
      * by split; [|left].
      * split; [set_solver|]. right. split; [set_solver|done].
      * by left.
      * right. split; [set_solver|done].
Qed.

Lemma unique_first links link : link ∈ PostgresLinkStore.unique_by_code [] links <-> first_record links link.
Proof. rewrite unique_by_code_first. split; [by intros [_ ?]|]. split; [apply not_elem_of_nil|done]. Qed.

Lemma unique_by_code_inj seen links a b :
  a ∈ PostgresLinkStore.unique_by_code seen links -> b ∈ PostgresLinkStore.unique_by_code seen links ->
  p_code a = p_code b -> a = b.
Proof.
  intros [i Hi]%list_elem_of_lookup [j Hj]%list_elem_of_lookup Hc. assert (i = j) as ->; [|congruence].
  apply (NoDup_lookup _ i j (p_code a) (unique_by_code_NoDup seen links));
    rewrite list_lookup_fmap; [by rewrite Hi|rewrite Hj; simpl; by rewrite Hc].
Qed.

(** ** Reading a batch back *)

(** The stored row is the link of the record. *)
Definition ownb (link : PendingLink) (r : row) : bool :=
  bool_decide (target_url r = p_targetUrl link) && (epoch_ms (created_at r) =? p_createdAt link).

Definition owned (w : world) (link : PendingLink) : Prop :=
  exists r, links (db w) !! p_code link = Some r /\ ownb link r = true.

(** The stored row of the code is another link. *)
Definition taken (w : world) (link : PendingLink) : Prop :=
  exists r, links (db w) !! p_code link = Some r /\ ownb link r = false.

(** Another process may insert rows and count clicks; nothing removes a row. *)
Definition rows_kept (w w' : world) : Prop :=
  forall code r, links (db w) !! code = Some r ->
  exists r', links (db w') !! code = Some r' /\ same_link r r'.

Lemma rows_kept_refl w : rows_kept w w.
Proof. intros code r Hr. by exists r. Qed.

Lemma rows_kept_trans a b c : rows_kept a b -> rows_kept b c -> rows_kept a c.
Proof.
  intros H1 H2 code r Hr. destruct (H1 _ _ Hr) as (r1 & Hr1 & S1).
  destruct (H2 _ _ Hr1) as (r2 & Hr2 & S2). exists r2. eauto using same_link_trans.
Qed.

Lemma ownb_same link r r' : same_link r r' -> ownb link r' = ownb link r.
Proof. intros (H1 & H2 & _). unfold ownb. by rewrite H1, H2. Qed.

Lemma owned_kept w w' link : rows_kept w w' -> owned w link -> owned w' link.
Proof.
  intros Hk (r & Hr & Ho). destruct (Hk _ _ Hr) as (r' & Hr' & Hs).
  exists r'. by rewrite (ownb_same _ _ _ Hs).
Qed.

Lemma taken_kept w w' link : rows_kept w w' -> taken w link -> taken w' link.
Proof.
  intros Hk (r & Hr & Ho). destruct (Hk _ _ Hr) as (r' & Hr' & Hs).
  exists r'. by rewrite (ownb_same _ _ _ Hs).
Qed.

Lemma isReplay_spec rows (link : PendingLink) (r : row) :
  NoDup rows.*1 -> Z.abs (p_createdAt link) < 2 ^ 53 ->
  (p_code link, (target_url r, js_String (epoch_ms (created_at r)))) ∈ rows ->
  PostgresLinkStore.isReplay rows link = ownb link r.
Proof.
  intros Hnd Ht Hin. unfold PostgresLinkStore.isReplay, PostgresLinkStore.existing_row.
  assert (Hmap : (list_to_map (reverse rows) : gmap string (string * string)) !! p_code link
    = Some (target_url r, js_String (epoch_ms (created_at r)))).
  { apply elem_of_list_to_map_1; [by rewrite fmap_reverse, reverse_Permutation|by rewrite reverse_Permutation]. }
  rewrite Hmap. unfold ownb. f_equal. unfold Number. rewrite read_integer_String. simpl.
  destruct (Z.eqb_spec (epoch_ms (created_at r)) (p_createdAt link)) as [He|He].
  - rewrite He, to_double_exact by lia. apply Z.eqb_refl.
  - apply Z.eqb_neq. intros Hd. apply He. by apply to_double_small.
Qed.

Lemma settle_spec rows ni acc :
  let res := PostgresLinkStore.settle rows ni acc in
  conflicts res = conflicts acc ++ filter (fun l => negb (PostgresLinkStore.isReplay rows l)) ni
  /\ forall code, code ∈ persisted res <->
       code ∈ persisted acc
       \/ exists l, l ∈ ni /\ PostgresLinkStore.isReplay rows l = true /\ code = p_code l.
Proof.
  revert acc; induction ni as [|l ni IH]; intros acc; cbv zeta; simpl.
  { rewrite app_nil_r. split; [done|].
    intros code. split; [by left|]. intros [|(l & Hl & _)]; [done|by apply not_elem_of_nil in Hl]. }
  destruct (PostgresLinkStore.isReplay rows l) eqn:Hr.
  - destruct (IH {| persisted := set_add (persisted acc) (p_code l); conflicts := conflicts acc |})
      as [Hc Hp]. simpl in *. rewrite filter_cons_False by (by rewrite Hr; intros []).
    split; [done|]. intros code. rewrite Hp, set_add_elem. setoid_rewrite elem_of_cons. split.
    + intros [[?| ->]|(l' & ? & ? & ->)]; eauto 6.
    + intros [?|(l' & [->|?] & ? & ->)]; eauto 6.
  - destruct (IH {| persisted := persisted acc; conflicts := conflicts acc ++ [l] |}) as [Hc Hp].
    simpl in *. rewrite filter_cons_True by (by rewrite Hr). rewrite Hc, <- app_assoc.
    split; [done|]. intros code. rewrite Hp. setoid_rewrite elem_of_cons. split.
    + intros [?|(l' & ? & ? & ->)]; eauto 6.
    + intros [?|(l' & [->|?] & ? & ->)]; [by left|congruence|eauto 6].
Qed.

Section Batch.
Context `{Redis} `{Postgres}.

(** The row a record asks for, when its dates can be exchanged exactly. *)
Definition row_of (link : PendingLink) : row :=
  {| target_url := p_targetUrl link; created_at := 1000 * p_createdAt link;
     expires_at := Z.mul 1000 <$> p_expiresAt link; row_clicks := 0 |}.

Definition row_for (link : PendingLink) (p : string * row) : Prop :=
  p.1 = p_code link /\ target_url p.2 = p_targetUrl link
  /\ (sql_date (p_createdAt link) -> created_at p.2 = 1000 * p_createdAt link)
  /\ (from_option sql_date True (p_expiresAt link) ->
      expires_at p.2 = Z.mul 1000 <$> p_expiresAt link).

Definition unparsed (created : list string) (expires : list (option string)) : Prop :=
  Exists (fun text => parse_timestamp text = None) created
  \/ Exists (fun text => match text with
                         | None => False
                         | Some s => parse_timestamp s = None
                         end) expires.

(** What the driver sends for a batch describes a row for each record. *)
Lemma batch_rows batch created expires :
  map_result (fun link => toISOString (p_createdAt link)) batch = Return created ->
  map_result (fun link => isoOrNull (p_expiresAt link)) batch = Return expires ->
  unparsed created expires
  \/ exists rows,
       Forall2 (fun code p => code = p.1) (p_code <$> batch) rows
       /\ Forall2 (fun target p => target = target_url p.2) (p_targetUrl <$> batch) rows
       /\ Forall2 (fun text p => parse_timestamp text = Some (created_at p.2)) created rows
       /\ Forall2 (fun text p => match text with
                           | None => expires_at p.2 = None
                           | Some s => parse_timestamp s = expires_at p.2 /\ is_Some (expires_at p.2)
                           end) expires rows
       /\ Forall (fun p => row_clicks p.2 = 0) rows
       /\ Forall2 row_for batch rows.
Proof.
  intros Hc%map_result_Forall2 He%map_result_Forall2. revert expires He.
  induction Hc as [|link text batch created Ht Hc IH]; intros expires He.
  { inversion He; subst. right. exists []. repeat split; constructor. }
  inversion He as [|? et ? expires' Hx Hxs]; subst.
  destruct (IH _ Hxs) as [[Hu|Hu]|(rows & H1 & H2 & H3 & H4 & H5 & H6)].
  { left. left. by apply Exists_cons_tl. }
  { left. right. by apply Exists_cons_tl. }
  destruct (parse_timestamp text) as [us|] eqn:Hp; [|left; left; by apply Exists_cons_hd].
  assert (Hus : sql_date (p_createdAt link) -> us = 1000 * p_createdAt link).
  { intros Hd. rewrite (parse_timestamp_iso _ _ Hd Ht) in Hp. by injection Hp. }
  destruct (p_expiresAt link) as [e|] eqn:Hpe; simpl in Hx.
  - destruct (toISOString e) as [es|] eqn:Hes; [|done]. injection Hx as <-.
    destruct (parse_timestamp es) as [eu|] eqn:Hpes; [|left; right; by apply Exists_cons_hd].
    right. exists ((p_code link, {| target_url := p_targetUrl link; created_at := us;
      expires_at := Some eu; row_clicks := 0 |}) :: rows).
    repeat split; simpl; constructor; simpl; eauto. repeat split; simpl; try done.
    rewrite Hpe. simpl. intros Hd. rewrite (parse_timestamp_iso _ _ Hd Hes) in Hpes. congruence.
  - injection Hx as <-.
    right. exists ((p_code link, {| target_url := p_targetUrl link; created_at := us;
      expires_at := None; row_clicks := 0 |}) :: rows).
    repeat split; simpl; constructor; simpl; eauto. repeat split; simpl; try done. by rewrite Hpe.
Qed.

Lemma row_for_codes batch rows : Forall2 row_for batch rows -> rows.*1 = p_code <$> batch.
Proof. induction 1 as [|l p batch rows Hp _ IH]; [done|]. rewrite !fmap_cons, IH. by destruct Hp as [-> _]. Qed.

Lemma epoch_ms_exact t : epoch_ms (1000 * t) = t.
Proof. unfold epoch_ms. destruct (Z.ltb_spec (1000 * t) 0); Z.div_mod_to_equations; lia. Qed.

Lemma row_for_own link p : row_for link p -> sql_date (p_createdAt link) -> ownb link p.2 = true.
Proof.
  intros (_ & Hu & Hc & _) Hd. unfold ownb. rewrite Hu, bool_decide_true by done.
  rewrite Hc, epoch_ms_exact by done. apply Z.eqb_refl.
Qed.

(** A code that the statement inserted holds the row of its record. *)
Lemma inserted_row l batch rows code :
  NoDup (p_code <$> batch) -> Forall2 row_for batch rows -> code ∈ (insert_rows l rows).2 ->
  exists link p, link ∈ batch /\ p_code link = code /\ row_for link p
    /\ (insert_rows l rows).1 !! code = Some p.2.
Proof.
  intros Hnd Hf Hret. rewrite <- (row_for_codes _ _ Hf) in Hnd.
  apply insert_rows_returned in Hret as [Hin Hnone]; [|done].
  rewrite insert_rows_lookup, Hnone. clear Hnd.
  induction Hf as [|link p batch rows Hp Hf IH]; simpl in *; [by apply not_elem_of_nil in Hin|].
  destruct (decide (p.1 = code)) as [Heq|Hne].
  - exists link, p. assert (p_code link = code) by (destruct Hp; congruence).
    split; [apply elem_of_cons; by left|]. by split.
  - apply elem_of_cons in Hin as [|Hin]; [congruence|].
    destruct (IH Hin) as (link' & p' & Hl & Hcode & Hr & Hfind).
    exists link', p'. split; [apply elem_of_cons; by right|]. split; [done|]. split; [done|].
    destruct (list_find _ rows) as [[i q]|]; done.
Qed.

Lemma present_row l rows (code : string) :
  NoDup rows.*1 -> code ∈ rows.*1 -> code ∉ (insert_rows l rows).2 ->
  exists r, l !! code = Some r.
Proof.
  intros Hnd Hin Hnot. destruct (l !! code) as [r|] eqn:Hl; [by exists r|].
  exfalso. apply Hnot. by apply insert_rows_returned.
Qed.
End Batch.

(** ** Under interference *)
Section Interference.
Context `{Redis} `{Postgres}.
Context (choice_ok : choice -> Prop) (rely guar : state -> state -> Prop).
Context (rely_refl : forall s, rely s s) (rely_trans : forall a b c, rely a b -> rely b c -> rely a c).
(** The others keep the rows; the program may do anything to the table that
    keeps the rows. *)
Context (rely_rows : forall s s', rely s s' -> rows_kept s.1 s'.1).
Context (guar_rows : forall s s', ks s'.1 = ks s.1 -> s'.2 = s.2 -> rows_kept s.1 s'.1 -> guar s s').

Lemma safe_pg {X} (q : sql X) Q s :
  (forall s1 s2 s3 a, rely s s1 ->
     query X (pg_clock s1.1) (db s1.1) q = (db s2.1, Return a) -> rely s2 s3 -> Q s3 (Return a)) ->
  (forall s1 e, Q s1 (Throw e)) ->
  safe choice_ok rely guar (pg q) Q s.
Proof.
  intros Hret Hthrow. apply safe_call. intros c s1 _ Hr.
  unfold perform_logged, perform, on_pg, deliver, commands_of. rewrite app_nil_r.
  assert (Hk : forall code r, links (db s1.1) !! code = Some r -> exists r',
    links (query X (pg_clock s1.1) (db s1.1) q).1 !! code = Some r' /\ same_link r r')
    by (intros; by apply query_keeps).
  destruct (query X (pg_clock s1.1) (db s1.1) q) as [d r] eqn:Hq. simpl in Hk.
  destruct (c_fate c); simpl; (split; [apply guar_rows; try done|]).
  - intros s3 Hr3. destruct r as [a|e]; [|done]. eapply Hret; [exact Hr| |exact Hr3]. exact Hq.
  - by apply rows_kept_refl.
  - done.
  - done.
Qed.

(** The stored row is the link of the record, as far as its dates can be
    exchanged exactly. *)
Definition durable (w : world) (link : PendingLink) : Prop :=
  exists r, links (db w) !! p_code link = Some r /\ target_url r = p_targetUrl link
    /\ (sql_date (p_createdAt link) -> ownb link r = true).

Lemma durable_kept w w' link : rows_kept w w' -> durable w link -> durable w' link.
Proof.
  intros Hk (r & Hr & Hu & Ho). destruct (Hk _ _ Hr) as (r' & Hr' & Hs).
  exists r'. rewrite (ownb_same _ _ _ Hs). destruct Hs as (<- & _). done.
Qed.

(** What the result of a batch tells, of the records of the input: a code that is
    reported persisted is stored, for the first record that has it; a conflict is
    the first record of its code, which the table holds for another link; nothing
    is reported both ways; and of every record either its code is reported
    persisted, or it is reported as a conflict, or an earlier record has its
    code. *)
Record batch_settled (links : list PendingLink) (w : world) (res : PendingLinkBatchResult) : Prop := {
  persisted_durable code : code ∈ persisted res ->
    exists link, first_record links link /\ p_code link = code /\ durable w link;
  conflicts_taken link : link ∈ conflicts res -> first_record links link /\ taken w link;
  conflicts_apart link : link ∈ conflicts res -> p_code link ∉ persisted res;
  all_settled i link : links !! i = Some link ->
    p_code link ∈ persisted res \/ link ∈ conflicts res
    \/ exists j first, (j < i)%nat /\ links !! j = Some first /\ p_code first = p_code link
}.

(** The first of a list to satisfy a predicate. *)
Lemma earlier_or_first links i link : links !! i = Some link ->
  first_record links link \/ exists j first, (j < i)%nat /\ links !! j = Some first /\ p_code first = p_code link.
Proof.
  intros Hi. destruct (decide (Exists (fun l => p_code l = p_code link) (take i links))) as [Hex|Hno].
  - right. apply Exists_exists in Hex as (l & [j Hj]%list_elem_of_lookup & Hl).
    assert (j < i)%nat by (apply lookup_lt_Some in Hj; rewrite length_take in Hj; lia).
    exists j, l. rewrite lookup_take_lt in Hj by done. done.
  - left. exists i. split; [done|]. intros j l Hj Hl Hc. apply Hno, Exists_exists. exists l. split; [|done].
    apply (list_elem_of_lookup_2 _ j). by rewrite lookup_take_lt.
Qed.

Lemma batch_settled_first links w res link :
  batch_settled links w res -> first_record links link -> p_code link ∈ persisted res \/ link ∈ conflicts res.
Proof.
  intros Hb (i & Hi & Hf). destruct (all_settled _ _ _ Hb i link Hi) as [|[|(j & l & Hj & Hl & Hc)]]; [by left|by right|].
  by destruct (Hf j l Hj Hl).
Qed.

(** It is enough that every first record is in one of the lists. *)
Lemma batch_settled_intro links w res :
  (forall code, code ∈ persisted res ->
     exists link, link ∈ PostgresLinkStore.unique_by_code [] links /\ p_code link = code /\ durable w link) ->
  (forall link, link ∈ conflicts res -> link ∈ PostgresLinkStore.unique_by_code [] links /\ taken w link
     /\ p_code link ∉ persisted res) ->
  (forall link, link ∈ PostgresLinkStore.unique_by_code [] links -> p_code link ∈ persisted res \/ link ∈ conflicts res) ->
  batch_settled links w res.
Proof.
  intros Hp Hc Ha. split.
  - intros code Hin. destruct (Hp _ Hin) as (link & Hl & Hcode & Hd). apply unique_first in Hl. by exists link.
  - intros link Hin. destruct (Hc _ Hin) as (Hl & Ht & _). by apply unique_first in Hl.
  - intros link Hin. by apply Hc.
  - intros i link Hi. destruct (earlier_or_first links i link Hi) as [Hf|He]; [|by right; right].
    apply unique_first in Hf. destruct (Ha _ Hf); [by left|by right; left].
Qed.

Lemma batch_settled_kept links w w' res :
  rows_kept w w' -> batch_settled links w res -> batch_settled links w' res.
Proof.
  intros Hk [Hp Hc Hx Ha]. split; [| |done|done].
  - intros code Hin. destruct (Hp _ Hin) as (l & Hl & Hcode & Hd). eauto using durable_kept.
  - intros link Hin. destruct (Hc _ Hin). eauto using taken_kept.
Qed.

Lemma owned_durable w link : owned w link -> durable w link.
Proof.
  intros (r & Hr & Ho). exists r. split; [done|]. split; [|done].
  unfold ownb in Ho. apply andb_true_iff in Ho as [Hu _]. by apply bool_decide_eq_true in Hu.
Qed.

(** The second half: what the SELECT tells about the rows not inserted. *)
Lemma settle_settled links batch s2 s3 rows inserted :
  batch = PostgresLinkStore.unique_by_code [] links ->
  (forall code, code ∈ inserted ->
     exists link, link ∈ batch /\ p_code link = code /\ durable s2 link) ->
  (forall link, link ∈ batch -> p_code link ∉ inserted ->
     exists r, Sql.links (db s2) !! p_code link = Some r) ->
  (forall link, link ∈ batch -> Z.abs (p_createdAt link) < 2 ^ 53) ->
  rows_kept s2 s3 ->
  let ni := filter (fun link => negb (has inserted (p_code link))) batch in
  NoDup rows.*1 ->
  (forall code p, (code, p) ∈ rows <->
     code ∈ (p_code <$> ni) /\ exists r, Sql.links (db s3) !! code = Some r
       /\ p = (target_url r, js_String (epoch_ms (created_at r)))) ->
  batch_settled links s3
    (PostgresLinkStore.settle rows ni {| persisted := inserted; conflicts := [] |}).
Proof.
  intros Hb Hins Hpres Hdate Hk ni Hnd Hrows.
  assert (Hni : forall link, link ∈ ni <-> link ∈ batch /\ p_code link ∉ inserted).
  { intros link. unfold ni. rewrite list_elem_of_filter.
    destruct (has inserted (p_code link)) eqn:Hh; [apply has_spec in Hh|apply has_false in Hh]; simpl; naive_solver. }
  assert (Hreplay : forall link, link ∈ ni -> exists r,
    Sql.links (db s3) !! p_code link = Some r
    /\ PostgresLinkStore.isReplay rows link = ownb link r).
  { intros link Hl0. pose proof Hl0 as [Hl Hn]%Hni. destruct (Hpres _ Hl Hn) as (r & Hr).
    destruct (Hk _ _ Hr) as (r' & Hr' & _). exists r'. split; [done|].
    apply isReplay_spec; [done|by apply Hdate|]. apply Hrows. split; [|by exists r'].
    apply list_elem_of_fmap. by exists link. }
  destruct (settle_spec rows ni {| persisted := inserted; conflicts := [] |}) as [Hc Hp].
  cbv zeta in Hc, Hp. simpl in Hc, Hp. apply batch_settled_intro.
  - intros code Hin. apply Hp in Hin as [Hin|(l & Hl & Hr & ->)].
    + destruct (Hins _ Hin) as (link & Hl & Hcode & Hd). exists link. rewrite <- Hb.
      eauto using durable_kept.
    + destruct (Hreplay _ Hl) as (r & Hlook & Hown). exists l.
      apply Hni in Hl as [Hl _]. rewrite <- Hb. split; [done|]. split; [done|].
      apply owned_durable. exists r. split; [done|congruence].
  - intros link Hin. rewrite Hc in Hin. apply list_elem_of_filter in Hin as [Hneg Hl].
    destruct (Hreplay _ Hl) as (r & Hlook & Hown). pose proof Hl as [Hlb Hn]%Hni. rewrite <- Hb.
    assert (Hr : PostgresLinkStore.isReplay rows link = false) by by destruct (PostgresLinkStore.isReplay rows link).
    split_and!; [done|exists r; split; [done|congruence]|].
    rewrite Hp. intros [|(l & [Hl' _]%Hni & Hrl & Hcode)]; [done|].
    rewrite Hb in Hlb, Hl'. rewrite (unique_by_code_inj _ _ _ _ Hlb Hl' Hcode) in Hr. congruence.
  - intros link Hl. rewrite <- Hb in Hl. rewrite Hp.
    destruct (decide (p_code link ∈ inserted)) as [|Hn]; [by left; left|].
    destruct (PostgresLinkStore.isReplay rows link) eqn:Hr.
    + left. right. exists link. rewrite Hni. done.
    + right. rewrite Hc. apply list_elem_of_filter. rewrite Hr, Hni. done.
Qed.

Lemma batch_dates batch created link :
  map_result (fun link => toISOString (p_createdAt link)) batch = Return created ->
  link ∈ batch -> Z.abs (p_createdAt link) < 2 ^ 53.
Proof.
  intros Hc%map_result_Forall2 Hin. revert Hin. induction Hc as [|l t batch created Ht _ IH].
  - by intros Hin%not_elem_of_nil.
  - rewrite elem_of_cons. intros [->|Hin]; [|by apply IH].
    unfold toISOString in Ht. destruct (valid_time (p_createdAt l)) eqn:Hv; [|done].
    unfold valid_time, MAX_TIME in Hv. bool_to_prop. lia.
Qed.

(** What a successful INSERT of a batch has done, on the table it ran on. *)
Lemma insert_returned links now d d' created expires inserted :
  let batch := PostgresLinkStore.unique_by_code [] links in
  map_result (fun link => toISOString (p_createdAt link)) batch = Return created ->
  map_result (fun link => isoOrNull (p_expiresAt link)) batch = Return expires ->
  query _ now d (InsertPending (p_code <$> batch) (p_targetUrl <$> batch) created expires)
  = (d', Return inserted) ->
  (forall code, code ∈ inserted -> exists link, link ∈ batch /\ p_code link = code
     /\ exists r, Sql.links d' !! code = Some r /\ target_url r = p_targetUrl link
        /\ (sql_date (p_createdAt link) -> ownb link r = true))
  /\ (forall link, link ∈ batch -> p_code link ∉ inserted ->
      exists r, Sql.links d' !! p_code link = Some r).
Proof.
  intros batch Hc He Hq.
  destruct (batch_rows batch created expires Hc He) as [Hu|(rows & H1 & H2 & H3 & H4 & H5 & H6)].
  { destruct (query_InsertPending_unparsed now d (p_code <$> batch) (p_targetUrl <$> batch)
      created expires Hu) as [e Hthrow]. by rewrite Hthrow in Hq. }
  pose proof (query_InsertPending now d _ _ _ _ rows H1 H2 H3 H4 H5) as Hlaw.
  destruct (forallb _ rows); [|destruct Hlaw as [e Hthrow]; by rewrite Hthrow in Hq].
  destruct Hlaw as (returned & Hlaw & Hperm). rewrite Hlaw in Hq. injection Hq as <- <-.
  assert (Hnd : NoDup (p_code <$> batch)) by apply unique_by_code_NoDup. split.
  - intros code Hin. rewrite Hperm in Hin.
    destruct (inserted_row (Sql.links d) batch rows code Hnd H6 Hin) as (link & p & Hl & Hcode & Hr & Hlook).
    exists link. split; [done|]. split; [done|]. exists p.2. split; [done|].
    split; [by destruct Hr as (_ & ? & _)|]. by apply row_for_own.
  - intros link Hl Hn. rewrite Hperm in Hn. rewrite <- (row_for_codes _ _ H6) in Hnd.
    destruct (present_row (Sql.links d) rows (p_code link) Hnd) as [r Hr]; [|done|].
    { rewrite (row_for_codes _ _ H6). apply list_elem_of_fmap. by exists link. }
    exists r. by apply insert_rows_keep.
Qed.

Lemma unique_nil links : PostgresLinkStore.unique_by_code [] links = [] -> links = [].
Proof. destruct links as [|l links]; [done|]. simpl. done. Qed.

Lemma insertPendingBatch_safe links s :
  safe choice_ok rely guar (PostgresLinkStore.insertPendingBatch links)
    (fun s' r => match r with Return res => batch_settled links s'.1 res | Throw _ => True end) s.
Proof.
  unfold PostgresLinkStore.insertPendingBatch. destruct (List.length links =? 0)%nat eqn:Hlen.
  { apply Nat.eqb_eq, nil_length_inv in Hlen as ->. apply safe_done. intros s' _.
    apply batch_settled_intro; simpl; set_solver. }
  cbv zeta. set (batch := PostgresLinkStore.unique_by_code [] links).
  apply safe_async_bind; [done..|]. apply safe_done. intros s1 _.
  destruct (map_result (fun link => toISOString _) batch) as [created|] eqn:Hc; [|by apply safe_done].
  apply safe_async_bind; [done..|]. apply safe_done. intros s2 _.
  destruct (map_result (fun link => isoOrNull _) batch) as [expires|] eqn:He; [|by apply safe_done].
  apply safe_async_bind; [done..|]. apply safe_pg; [|intros; by apply safe_done].
  intros s3 s4 s5 inserted _ Hq Hr45.
  destruct (insert_returned links _ _ _ created expires inserted Hc He Hq) as [Hins Hpres].
  assert (Hins5 : forall code, code ∈ new_Set inserted -> exists link, link ∈ batch
    /\ p_code link = code /\ durable s5.1 link).
  { intros code Hin. rewrite new_Set_elem in Hin. destruct (Hins _ Hin) as (link & Hl & Hcode & r & Hr & Hu & Ho).
    exists link. split; [done|]. split; [done|]. eapply durable_kept; [by apply rely_rows|].
    exists r. by rewrite Hcode. }
  assert (Hpres5 : forall link, link ∈ batch -> p_code link ∉ new_Set inserted ->
    exists r, Sql.links (db s5.1) !! p_code link = Some r).
  { intros link Hl Hn. destruct (Hpres link Hl) as [r Hr]; [by rewrite new_Set_elem in Hn|].
    destruct (rely_rows _ _ Hr45 _ _ Hr) as (r' & Hr' & _). by exists r'. }
  clear Hlen. case_match eqn:Hni.
  - apply safe_done. intros s6 Hr56.
    apply (batch_settled_kept links s5.1); [by apply rely_rows|].
    apply Nat.eqb_eq, nil_length_inv in Hni. apply batch_settled_intro; simpl.
    + intros code Hin. exact (Hins5 code Hin).
    + by intros link Hin%not_elem_of_nil.
    + intros link Hl. left. apply dec_stable. intros Hn. eapply not_elem_of_nil. rewrite <- Hni.
      apply list_elem_of_filter. split; [|exact Hl]. by rewrite (proj2 (has_false _ _) Hn).
  - apply safe_async_bind; [done..|]. apply safe_pg; [|intros; by apply safe_done].
    intros s6 s7 s8 rows Hr56 Hsel Hr78.
    destruct (query_SelectExisting (pg_clock s6.1) (db s6.1)
      (p_code <$> filter (fun link => negb (has (new_Set inserted) (p_code link))) batch))
      as (rows' & Hsel' & Hnd & Hrows).
    rewrite Hsel' in Hsel. injection Hsel as Hdb <-.
    apply safe_done. intros s9 Hr89.
    apply (batch_settled_kept links s7.1).
    { eapply rows_kept_trans; apply rely_rows; [exact Hr78|exact Hr89]. }
    eapply (settle_settled links batch s5.1 s7.1 rows'); try done.
    + intros link Hl. by apply (batch_dates batch created).
    + intros code r Hr. rewrite <- Hdb. by apply (rely_rows _ _ Hr56).
    + intros code p. rewrite <- Hdb. apply Hrows.
Qed.
End Interference.

(** ** A batch on its own, on responsive servers *)
Section Sequential.
Context `{Redis} `{Postgres}.

Record acceptable (link : PendingLink) : Prop := {
  acc_row : row_ok (p_code link) (row_of link) = true;
  acc_created : sql_date (p_createdAt link);
  acc_expires : from_option sql_date True (p_expiresAt link)
}.

Definition rows_of (links : list PendingLink) : list (string * row) :=
  (fun link => (p_code link, row_of link)) <$> PostgresLinkStore.unique_by_code [] links.

(** The result of a batch, given the table it leaves. *)
Definition reports (table : gmap string row) (links : list PendingLink)
    (res : PendingLinkBatchResult) : Prop :=
  let own link := from_option (ownb link) false (table !! p_code link) in
  conflicts res = filter (fun link => negb (own link)) (PostgresLinkStore.unique_by_code [] links)
  /\ forall code, code ∈ persisted res <->
       exists link, link ∈ PostgresLinkStore.unique_by_code [] links
         /\ code = p_code link /\ own link = true.

Lemma sql_date_iso t : sql_date t -> returns (toISOString t).
Proof.
  intros Ht. unfold toISOString. replace (valid_time t) with true; [by eexists|].
  symmetry. unfold sql_date in Ht. unfold valid_time, MAX_TIME.
  apply andb_true_iff. rewrite !Z.leb_le. lia.
Qed.

Lemma acceptable_texts batch :
  Forall acceptable batch ->
  exists created expires,
    map_result (fun link => toISOString (p_createdAt link)) batch = Return created
    /\ map_result (fun link => isoOrNull (p_expiresAt link)) batch = Return expires
    /\ Forall2 (fun text link => parse_timestamp text = Some (created_at (row_of link))) created batch
    /\ Forall2 (fun text link => match text with
                     | None => expires_at (row_of link) = None
                     | Some s => parse_timestamp s = expires_at (row_of link)
                                 /\ is_Some (expires_at (row_of link))
                     end) expires batch.
Proof.
  induction 1 as [|link batch [Hrow Hc He] _ (cs & es & Hcs & Hes & H1 & H2)].
  { exists [], []. repeat split; constructor. }
  destruct (sql_date_iso _ Hc) as [ct Hct].
  assert (exists et, isoOrNull (p_expiresAt link) = Return et
    /\ match et with
       | None => expires_at (row_of link) = None
       | Some s => parse_timestamp s = expires_at (row_of link) /\ is_Some (expires_at (row_of link))
       end) as (et & Het & Hpe).
  { unfold row_of. simpl. destruct (p_expiresAt link) as [e|]; simpl in *; [|by exists None].
    destruct (sql_date_iso _ He) as [es' Hes']. exists (Some es'). rewrite Hes'. split; [done|].
    split; [by apply parse_timestamp_iso|by eexists]. }
  exists (ct :: cs), (et :: es). simpl. rewrite Hct, Hcs, Het, Hes.
  repeat split; constructor; try done. simpl. by apply parse_timestamp_iso.
Qed.

Lemma acceptable_insert now d links :
  Forall acceptable links ->
  let batch := PostgresLinkStore.unique_by_code [] links in
  exists created expires inserted,
    map_result (fun link => toISOString (p_createdAt link)) batch = Return created
    /\ map_result (fun link => isoOrNull (p_expiresAt link)) batch = Return expires
    /\ query _ now d (InsertPending (p_code <$> batch) (p_targetUrl <$> batch) created expires)
       = (with_links d (insert_rows (Sql.links d) (rows_of links)).1, Return inserted)
    /\ inserted ≡ₚ (insert_rows (Sql.links d) (rows_of links)).2.
Proof.
  intros Hacc batch.
  assert (Hb : Forall acceptable batch).
  { apply Forall_forall. intros l [Hl _]%unique_by_code_elem. by eapply Forall_forall. }
  destruct (acceptable_texts batch Hb) as (created & expires & Hc & He & H1 & H2).
  exists created, expires.
  assert (Hlaw := query_InsertPending now d (p_code <$> batch) (p_targetUrl <$> batch)
    created expires (rows_of links)). unfold rows_of in Hlaw. fold batch in Hlaw.
  rewrite !Forall2_fmap_l, !Forall2_fmap_r in Hlaw. simpl in Hlaw.
  assert (Hok : forallb (fun p => row_ok p.1 p.2)
    ((fun link => (p_code link, row_of link)) <$> batch) = true).
  { apply Is_true_true, forallb_True, Forall_fmap. eapply Forall_impl; [exact Hb|].
    intros l [Hrow _ _]. simpl. by rewrite Hrow. }
  rewrite Hok in Hlaw.
  destruct Hlaw as (inserted & Hq & Hp); try done.
  - by apply Forall_Forall2_diag, Forall_true.
  - by apply Forall_Forall2_diag, Forall_true.
  - by apply Forall_fmap, Forall_true.
  - exists inserted. done.
Qed.

Lemma rows_of_codes links : (rows_of links).*1 = p_code <$> PostgresLinkStore.unique_by_code [] links.
Proof. unfold rows_of. by rewrite <- list_fmap_compose. Qed.

Lemma acceptable_own link : acceptable link -> ownb link (row_of link) = true.
Proof.
  intros [_ _ _]. unfold ownb, row_of. simpl. rewrite bool_decide_true by done.
  rewrite epoch_ms_exact. apply Z.eqb_refl.
Qed.

Lemma rows_of_find links link :
  link ∈ PostgresLinkStore.unique_by_code [] links ->
  snd <$> list_find (fun p => p.1 = p_code link) (rows_of links) ≫= (fun p => Some p.2)
  = Some (row_of link).
Proof.
  unfold rows_of. generalize (unique_by_code_NoDup [] links).
  induction (PostgresLinkStore.unique_by_code [] links) as [|l batch IH]; intros Hnd Hin;
    [by apply not_elem_of_nil in Hin|].
  apply NoDup_cons in Hnd as [Hl Hnd]. simpl. apply elem_of_cons in Hin as [->|Hin].
  - by rewrite decide_True.
  - rewrite decide_False.
    + specialize (IH Hnd Hin). simpl in IH. by destruct (list_find _ _) as [[i p]|].
    + intros Heq. apply Hl. rewrite Heq. apply list_elem_of_fmap. by exists link.
Qed.

(** The row of a batched code after the INSERT: the one that was there, or the
    record's own. *)
Lemma after_insert table links link :
  link ∈ PostgresLinkStore.unique_by_code [] links ->
  (insert_rows table (rows_of links)).1 !! p_code link
  = Some (default (row_of link) (table !! p_code link)).
Proof.
  intros Hl. rewrite insert_rows_lookup. destruct (table !! p_code link); [done|].
  simpl. by apply rows_of_find.
Qed.

(** The codes the INSERT returns are those the table did not hold. *)
Lemma inserted_spec table links inserted :
  inserted ≡ₚ (insert_rows table (rows_of links)).2 ->
  forall code, code ∈ new_Set inserted <->
    exists link, link ∈ PostgresLinkStore.unique_by_code [] links /\ code = p_code link
      /\ table !! code = None.
Proof.
  intros Hperm code. rewrite new_Set_elem, Hperm, insert_rows_returned, rows_of_codes.
  - rewrite list_elem_of_fmap. naive_solver.
  - rewrite rows_of_codes. apply unique_by_code_NoDup.
Qed.

Lemma filter_filter_ext {A} (P Q R : A -> bool) (l : list A) :
  (forall x, x ∈ l -> R x = P x && Q x) ->
  filter (fun x => P x) (filter (fun x => Q x) l) = filter (fun x => R x) l.
Proof.
  induction l as [|x l IH]; intros Hext; [done|].
  assert (IHl := IH (fun y Hy => Hext y (proj2 (elem_of_cons l y x) (or_intror Hy)))).
  specialize (Hext x (proj2 (elem_of_cons l x x) (or_introl eq_refl))).
  destruct (Q x) eqn:HQ, (P x) eqn:HP, (R x) eqn:HR; try done;
    repeat first [rewrite filter_cons_True by (rewrite ?HP, ?HQ, ?HR; done)
                 |rewrite filter_cons_False by (rewrite ?HP, ?HQ, ?HR; intros [])];
    by rewrite IHl.
Qed.

(** Records whose row the INSERT created, then records whose row the SELECT
    has found: together they are the report on the table. *)
Lemma settle_reports table0 links inserted rows :
  let table := (insert_rows table0 (rows_of links)).1 in
  let ni := filter (fun link => negb (has (new_Set inserted) (p_code link)))
              (PostgresLinkStore.unique_by_code [] links) in
  Forall acceptable links ->
  inserted ≡ₚ (insert_rows table0 (rows_of links)).2 ->
  (forall link, link ∈ ni ->
     PostgresLinkStore.isReplay rows link = from_option (ownb link) false (table !! p_code link)) ->
  reports table links
    (PostgresLinkStore.settle rows ni {| persisted := new_Set inserted; conflicts := [] |}).
Proof.
  intros table ni Hacc Hperm Hreplay. pose proof (inserted_spec _ _ _ Hperm) as Hins.
  set (batch := PostgresLinkStore.unique_by_code [] links) in *.
  assert (Hnew : forall l, l ∈ batch -> p_code l ∈ new_Set inserted ->
    from_option (ownb l) false (table !! p_code l) = true).
  { intros l Hl Hin. unfold table. rewrite after_insert by done.
    apply Hins in Hin as (_ & _ & _ & ->). simpl. apply acceptable_own.
    apply unique_by_code_elem in Hl as [Hl _]. by eapply Forall_forall. }
  assert (Hni : forall l, l ∈ ni <-> l ∈ batch /\ p_code l ∉ new_Set inserted).
  { intros l. unfold ni. rewrite list_elem_of_filter.
    destruct (has (new_Set inserted) (p_code l)) eqn:Hh; [apply has_spec in Hh|apply has_false in Hh];
      simpl; naive_solver. }
  destruct (settle_spec rows ni {| persisted := new_Set inserted; conflicts := [] |}) as [Hc Hp].
  cbv zeta in Hc, Hp. simpl in Hc, Hp. split.
  - rewrite Hc. apply filter_filter_ext. intros l Hl.
    destruct (has (new_Set inserted) (p_code l)) eqn:Hh.
    + apply has_spec in Hh. rewrite (Hnew l Hl Hh). by rewrite andb_false_r.
    + apply has_false in Hh. rewrite Hreplay by by apply Hni. by rewrite andb_true_r.
  - intros code. rewrite Hp. split.
    + intros [Hin|(l & Hl & Hr & ->)].
      * pose proof Hin as (l & Hl & -> & _)%Hins. exists l. by rewrite Hnew.
      * rewrite Hreplay in Hr by done. apply Hni in Hl as [Hl _]. by exists l.
    + intros (l & Hl & -> & Hown). destruct (decide (p_code l ∈ new_Set inserted)) as [|Hn];
        [by left|]. right. exists l. rewrite Hni, Hreplay by by apply Hni. done.
Qed.

(** Without disturbance, an acceptable batch is stored, each code by its first
    record unless the table held it, and the report says which. *)
Lemma insertPendingBatch_smooth links w :
  Forall acceptable links ->
  exists w' res,
    exec (PostgresLinkStore.insertPendingBatch links) [] w = (w', Return res)
    /\ db w' = with_links (db w) (insert_rows (Sql.links (db w)) (rows_of links)).1
    /\ reports (Sql.links (db w')) links res.
Proof.
  intros Hacc. unfold PostgresLinkStore.insertPendingBatch.
  destruct (List.length links =? 0)%nat eqn:Hlen.
  { apply Nat.eqb_eq, nil_length_inv in Hlen as ->. eexists _, _. split; [apply exec_resolve|].
    split; [by destruct w as [? [] ? ? ?]|]. split; [done|]. intros code. simpl. set_solver. }
  cbv zeta. clear Hlen.
  destruct (acceptable_insert (pg_clock (wait 0 w)) (db w) links Hacc)
    as (created & expires & inserted & Hc & He & Hq & Hperm).
  pose proof (settle_reports (Sql.links (db w)) links inserted) as Hset. cbv zeta in Hset.
  set (batch := PostgresLinkStore.unique_by_code [] links) in *.
  set (table := (insert_rows (Sql.links (db w)) (rows_of links)).1) in *.
  rewrite exec_bind, exec_lift, Hc, exec_bind, exec_lift, He, exec_bind, exec_pg.
  unfold on_pg. simpl (db (wait 0 w)). rewrite Hq.
  set (ni := filter (fun link => negb (has (new_Set inserted) (p_code link))) batch) in *.
  case_match eqn:Hempty.
  - apply Nat.eqb_eq, nil_length_inv in Hempty. eexists _, _. split; [apply exec_resolve|].
    split; [done|]. specialize (Hset [] Hacc Hperm). rewrite Hempty in Hset. apply Hset.
    by intros l Hl%not_elem_of_nil.
  - rewrite exec_bind, exec_pg. unfold on_pg. simpl.
    destruct (query_SelectExisting (pg_clock w + 1000 * 0 + 1000 * 0) (with_links (db w) table)
      (p_code <$> ni)) as (rows & Hsel & Hnd & Hrows).
    rewrite Hsel. eexists _, _. split; [apply exec_resolve|]. split; [done|]. simpl.
    apply Hset; [done|done|]. intros l Hl.
    assert (Hlb : l ∈ batch) by (unfold ni in Hl; by apply list_elem_of_filter in Hl as [_ Hl]).
    pose proof (after_insert (Sql.links (db w)) links l Hlb) as Hrow. fold table in Hrow.
    rewrite Hrow. simpl. apply isReplay_spec; [done| |].
    + by apply (batch_dates batch created).
    + apply Hrows. split; [apply list_elem_of_fmap; by exists l|]. simpl. eauto.
Qed.

Lemma insert_rows_present table rows :
  (forall code, code ∈ rows.*1 -> is_Some (table !! code)) -> (insert_rows table rows).1 = table.
Proof.
  revert table; induction rows as [|[c r] rows IH]; intros table Hp; [done|]. simpl.
  assert (Hrow : insert_row table c r = table).
  { unfold insert_row. destruct (Hp c) as [q ->]; [simpl; set_solver|done]. }
  rewrite Hrow. specialize (IH table). destruct (insert_rows table rows) as [t ret]. simpl in *.
  apply IH. intros code Hin. apply Hp. set_solver.
Qed.
End Sequential.

(** ** Properties *)

(** Whatever the other processes do to the table meanwhile. *)
Definition others_keep_rows (s s' : state) : Prop := rows_kept s.1 s'.1.

(** C8. A batch insert that reports, reports the truth, whatever other
    processes insert or count between its two statements and whichever of its
    calls fail. Every code it calls persisted is stored with the target (and the
    creation instant) of the first record of the batch with that code; every
    conflict is the first record with its code, and PostgreSQL holds the code for
    another link; no code is reported both ways. Every record of the batch is
    accounted for: its code is among the persisted, or it is among the conflicts,
    or an earlier record of the batch has the same code. A record of the last
    kind is dropped: it is not reported on its own, even when its target is
    another. The batch's own statements remove no row and change no link. *)
Theorem insertPendingBatch_settles `{Redis} `{Postgres} links s :
  safe (fun _ => True) others_keep_rows others_keep_rows
    (PostgresLinkStore.insertPendingBatch links)
    (fun s' r => match r with Return res => batch_settled links s'.1 res | Throw _ => True end) s.
Proof.
  apply insertPendingBatch_safe; unfold others_keep_rows.
  - intros. apply rows_kept_refl.
  - intros a b c. apply rows_kept_trans.
  - done.
  - done.
Qed.

(** Replaying a batch is idempotent: on responsive servers the batch is
    stored (each code by its first record unless the table already held it),
    and running it again, as a worker does that crashed before acknowledging
    its queue, changes nothing in the table and reports the same codes as
    persisted and the same conflicts. *)
Theorem insertPendingBatch_replay `{Redis} `{Postgres} links w :
  Forall acceptable links ->
  exists w1 w2 res1 res2,
    exec (PostgresLinkStore.insertPendingBatch links) [] w = (w1, Return res1)
    /\ db w1 = with_links (db w) (insert_rows (Sql.links (db w)) (rows_of links)).1
    /\ exec (PostgresLinkStore.insertPendingBatch links) [] w1 = (w2, Return res2)
    /\ db w2 = db w1
    /\ conflicts res2 = conflicts res1
    /\ forall code, code ∈ persisted res2 <-> code ∈ persisted res1.
Proof.
  intros Hacc. destruct (insertPendingBatch_smooth links w Hacc) as (w1 & res1 & H1 & Hdb1 & Hc1 & Hp1).
  destruct (insertPendingBatch_smooth links w1 Hacc) as (w2 & res2 & H2 & Hdb2 & Hc2 & Hp2).
  assert (Hsame : db w2 = db w1).
  { rewrite Hdb2, insert_rows_present; [by destruct (db w1)|].
    intros code Hin. rewrite rows_of_codes in Hin. apply list_elem_of_fmap in Hin as (l & -> & Hl).
    rewrite Hdb1. simpl. rewrite after_insert by done. by eexists. }
  exists w1, w2, res1, res2. rewrite Hsame in Hc2, Hp2. split_and!; try done.
  - by rewrite Hc2, Hc1.
  - intros code. by rewrite Hp2, Hp1.
Qed.

Section Store.
Context `{Redis} `{Postgres}.

(** The row [create] asks for, and the link it answers with. *)
Definition new_row (input : CreateLinkInput) (at_ : Z) : row :=
  {| target_url := in_targetUrl input; created_at := at_;
     expires_at := Z.mul 1000 <$> in_expiresAt input; row_clicks := 0 |}.

Definition new_link (input : CreateLinkInput) (at_ : Z) : Link :=
  {| code := in_code input; targetUrl := in_targetUrl input; createdAt := driver_date at_;
     expiresAt := in_expiresAt input; clicks := 0 |}.

Lemma create_smooth input w :
  from_option sql_date True (in_expiresAt input) ->
  row_ok (in_code input) (new_row input (pg_clock w)) = true ->
  exists w', exec (PostgresLinkStore.create input) [] w
    = (w', Return (match Sql.links (db w) !! in_code input with
                   | Some _ => None
                   | None => Some (new_link input (pg_clock w))
                   end))
    /\ Sql.links (db w') = insert_row (Sql.links (db w)) (in_code input) (new_row input (pg_clock w))
    /\ pg_clock w' = pg_clock w.
Proof.
  intros He Hok. unfold PostgresLinkStore.create. rewrite exec_bind, exec_pg. unfold on_pg. simpl.
  pose proof (query_InsertLink (pg_clock w + 1000 * 0) (db w) (in_code input) (in_targetUrl input)
    (in_expiresAt input) He) as Hlaw.
  replace (pg_clock w + 1000 * 0) with (pg_clock w) in * by lia.
  cbv zeta in Hlaw. fold (new_row input (pg_clock w)) in Hlaw. rewrite Hok in Hlaw.
  rewrite Hlaw. unfold insert_row. destruct (Sql.links (db w) !! in_code input) eqn:Hl.
  - eexists. split; [apply exec_resolve|]. simpl. split; [done|lia].
  - eexists. split; [apply exec_resolve|]. simpl. split; [done|lia].
Qed.

Definition read_link (code : string) (r : row) : Link :=
  {| code := code; targetUrl := target_url r; createdAt := driver_date (created_at r);
     expiresAt := driver_date <$> expires_at r; clicks := to_double (row_clicks r) |}.

Lemma find_smooth code w :
  exists w', exec (PostgresLinkStore.find code) [] w
    = (w', Return (match Sql.links (db w) !! code with
                   | Some r => if is_live (pg_clock w) r then Some (read_link code r) else None
                   | None => None
                   end))
    /\ db w' = db w.
Proof.
  unfold PostgresLinkStore.find. rewrite exec_bind, exec_pg. unfold on_pg. simpl.
  rewrite query_SelectLiveLink. replace (pg_clock w + 1000 * 0) with (pg_clock w) by lia.
  exists (with_db (wait 0 w) (db w)). split; [|done]. rewrite exec_resolve. do 2 f_equal.
  destruct (Sql.links (db w) !! code) as [r|]; [|done]. destruct (is_live _ r); [|done].
  unfold mapLink, read_link, Number. simpl. by rewrite read_integer_String.
Qed.
End Store.

Definition with_clicks (link : Link) (n : Z) : Link :=
  {| code := code link; targetUrl := targetUrl link; createdAt := createdAt link;
     expiresAt := expiresAt link; clicks := n |}.

(** Creating and finding in PostgreSQL: the first [create] of a code
    answers with the link; from then on, whatever other processes do, [find]
    reads the same link back (its clicks may have grown) until it expires and
    never afterwards, and every later [create] of the code answers null and
    leaves the stored link as it is. *)
Theorem create_then_find `{Redis} `{Postgres} input w :
  from_option sql_date True (in_expiresAt input) ->
  row_ok (in_code input) (new_row input (pg_clock w)) = true ->
  Sql.links (db w) !! in_code input = None ->
  exists w1,
    exec (PostgresLinkStore.create input) [] w = (w1, Return (Some (new_link input (pg_clock w))))
    /\ forall w2, rows_kept w1 w2 ->
        (exists w3 n, exec (PostgresLinkStore.find (in_code input)) [] w2
           = (w3, Return (if is_live (pg_clock w2) (new_row input (pg_clock w))
                          then Some (with_clicks (new_link input (pg_clock w)) n) else None)))
        /\ forall later, in_code later = in_code input ->
            from_option sql_date True (in_expiresAt later) ->
            row_ok (in_code later) (new_row later (pg_clock w2)) = true ->
            exists w3, exec (PostgresLinkStore.create later) [] w2 = (w3, Return None)
              /\ Sql.links (db w3) = Sql.links (db w2).
Proof.
  intros He Hok Hfree. destruct (create_smooth input w He Hok) as (w1 & H1 & Hdb1 & _).
  exists w1. rewrite Hfree in H1. split; [exact H1|]. intros w2 Hk.
  destruct (Hk (in_code input) (new_row input (pg_clock w))) as (r & Hr & Hu & Hc & Hx).
  { rewrite Hdb1, insert_row_lookup, Hfree. by rewrite decide_True. }
  split.
  - destruct (find_smooth (in_code input) w2) as (w3 & H3 & _).
    exists w3, (to_double (row_clicks r)). rewrite H3, Hr.
    replace (is_live (pg_clock w2) r) with (is_live (pg_clock w2) (new_row input (pg_clock w)))
      by (unfold is_live; by rewrite Hx).
    destruct (is_live _ _); [|done].
    do 3 f_equal. unfold read_link, with_clicks, new_link. simpl in *. rewrite <- Hu, <- Hc, <- Hx.
    f_equal. destruct (in_expiresAt input) as [e|]; [|done]. simpl. f_equal. by apply driver_date_ms.
  - intros later Hcode Hel Hokl. destruct (create_smooth later w2 Hel Hokl) as (w3 & H3 & Hdb3 & _).
    rewrite Hcode, Hr in H3. exists w3. split; [exact H3|]. rewrite Hdb3, Hcode. unfold insert_row.
    by rewrite Hr.
Qed.

Lemma add_click_batch_lookup l clicks code :
  NoDup clicks.*1 ->
  add_click_batch l clicks !! code
  = match l !! code with
    | None => None
    | Some r => Some {| target_url := target_url r; created_at := created_at r;
                        expires_at := expires_at r;
                        row_clicks := row_clicks r
                          + default 0 ((list_to_map clicks : gmap string Z) !! code) |}
    end.
Proof.
  revert l; induction clicks as [|[c n] clicks IH]; intros l Hnd.
  { simpl. rewrite lookup_empty. simpl. destruct (l !! code) as [[]|]; [|done].
    by rewrite Z.add_0_r. }
  apply NoDup_cons in Hnd as [Hc Hnd]. simpl. rewrite IH by done. unfold add_clicks.
  destruct (decide (c = code)) as [->|Hne].
  - rewrite lookup_insert_eq. rewrite (not_elem_of_list_to_map_1 clicks code) by done.
    destruct (l !! code) as [r|] eqn:Hl; [|by rewrite Hl]. rewrite lookup_insert_eq. simpl.
    by rewrite Z.add_0_r.
  - rewrite (lookup_insert_ne _ c) by done.
    destruct (l !! c) eqn:Hl; [by rewrite lookup_insert_ne|done].
Qed.

(** C36. A click batch is applied exactly: each stored link's counter grows by
    the batch's count for its code and nothing else of the table changes, and
    the codes reported are exactly those with no stored link. A batch with a
    count that is not a positive safe integer is refused as a whole, before
    anything is sent. *)
Theorem recordClickBatch_exact `{Redis} `{Postgres} batch w :
  NoDup batch.*1 -> room_for (Sql.links (db w)) batch ->
  exists w' r, exec (PostgresLinkStore.recordClickBatch batch) [] w = (w', r)
  /\ if forallb (fun entry => PostgresLinkStore.count_ok entry.2) batch
     then (exists unmatched, r = Return unmatched /\ NoDup unmatched
           /\ forall code, code ∈ unmatched <-> code ∈ batch.*1 /\ Sql.links (db w) !! code = None)
       /\ forall code, Sql.links (db w') !! code
          = (fun r => {| target_url := target_url r; created_at := created_at r;
                         expires_at := expires_at r;
                         row_clicks := row_clicks r
                           + default 0 ((list_to_map batch : gmap string Z) !! code) |})
            <$> Sql.links (db w) !! code
     else r = Throw PostgresLinkStore.COUNT_ERROR /\ w' = w.
Proof.
  intros Hnd Hroom. unfold PostgresLinkStore.recordClickBatch.
  destruct batch as [|entry batch0] eqn:Hb.
  { exists w, (Return []). split; [done|]. simpl. split.
    - exists []. split; [done|]. split; [constructor|]. set_solver.
    - intros code. rewrite lookup_empty. simpl. destruct (Sql.links (db w) !! code) as [[]|]; [|done].
      simpl. by rewrite Z.add_0_r. }
  rewrite <- Hb in *. replace (List.length batch =? 0)%nat with false by by rewrite Hb.
  clear Hb. destruct (forallb _ batch) eqn:Hall; simpl; [|by exists w, (Throw PostgresLinkStore.COUNT_ERROR)].
  assert (Hpos : Forall (fun p : string * Z => 0 <= p.2) batch).
  { apply Forall_forall. intros p Hp. rewrite forallb_forall in Hall.
    specialize (Hall p (proj1 (list_elem_of_In _ _) Hp)).
    unfold PostgresLinkStore.count_ok in Hall. bool_to_prop. lia. }
  destruct (query_AddClickBatch (pg_clock w + 1000 * 0) (db w) batch Hnd Hpos Hroom)
    as (returned & Hq & Hret).
  rewrite exec_bind, exec_pg. unfold on_pg. simpl. rewrite Hq. rewrite exec_resolve.
  eexists _, _. split; [reflexivity|]. split.
  - eexists. split; [reflexivity|]. split; [apply new_Set_NoDup|]. intros code.
    rewrite new_Set_elem, list_elem_of_filter, negb_True.
    setoid_rewrite Is_true_true. unfold has. rewrite bool_decide_eq_true, new_Set_elem, Hret.
    destruct (Sql.links (db w) !! code); naive_solver.
  - intros code. simpl. rewrite add_click_batch_lookup by done.
    by destruct (Sql.links (db w) !! code).
Qed.

(** [reserveBlock] hands out consecutive blocks of the sequence: whatever
    happens to the call, a block that is returned starts where the sequence
    stood and the sequence has moved past it; a call that fails may lose a
    block but never leaves the sequence where it would be handed out again
    after having been returned. *)
Theorem reserveBlock_sequence `{Redis} `{Postgres} cs w :
  next_block (db w) + 10000 <= INT8_MAX ->
  let '(w', r) := exec reserveBlock cs w in
  Sql.links (db w') = Sql.links (db w)
  /\ match r with
     | Return block =>
         start block = next_block (db w) /\ size block = 10000
         /\ next_block (db w') = start block + size block
     | Throw e =>
         e = DISCONNECTED
         /\ (next_block (db w') = next_block (db w) \/ next_block (db w') = next_block (db w) + 10000)
     end.
Proof.
  intros Hroom. unfold exec, reserveBlock, pg. rewrite run_async_bind, run_call. simpl.
  unfold on_pg. simpl. rewrite (query_NextBlock _ _ 10000) by done.
  unfold deliver. destruct (c_fate _); simpl.
  - rewrite !read_integer_String. unfold Number. rewrite read_integer_String. done.
  - split; [done|]. split; [done|]. by left.
  - split; [done|]. split; [done|]. by right.
Qed.

(** ** Witnesses *)

Definition demo_input : CreateLinkInput :=
  {| in_code := "docs"; in_targetUrl := "https://example.com/"; in_expiresAt := Some 1709168400123;
     in_codeSource := None |}.

Lemma demo_acceptable : Forall acceptable [demo_pending].
Proof.
  constructor; [|constructor].
  split; [vm_compute; reflexivity| |]; unfold sql_date; simpl; lia.
Qed.

Lemma insertPendingBatch_replay_witness :
  exists w1 w2 res1 res2,
    @exec reference_redis reference_postgres _
      (PostgresLinkStore.insertPendingBatch [demo_pending]) [] demo_world = (w1, Return res1)
    /\ @exec reference_redis reference_postgres _
      (PostgresLinkStore.insertPendingBatch [demo_pending]) [] w1 = (w2, Return res2)
    /\ db w2 = db w1.
Proof.
  destruct (@insertPendingBatch_replay reference_redis reference_postgres [demo_pending] demo_world
    demo_acceptable) as (w1 & w2 & res1 & res2 & H1 & _ & H2 & H3 & _).
  exists w1, w2, res1, res2. split; [exact H1|]. split; [exact H2|exact H3].
Defined.

Lemma create_then_find_witness :
  exists w1, @exec reference_redis reference_postgres _ (PostgresLinkStore.create demo_input) []
    demo_world
    = (w1, Return (Some (@new_link reference_postgres demo_input 1709164800123000))).
Proof.
  destruct (@create_then_find reference_redis reference_postgres demo_input demo_world)
    as (w1 & H1 & _).
  - simpl. unfold sql_date. lia.
  - vm_compute. reflexivity.
  - reflexivity.
  - exists w1. exact H1.
Defined.

Definition stored_world : world :=
  with_db demo_world (with_links (db demo_world)
    (<["docs" := {| target_url := "https://example.com/"; created_at := 1709164800123000;
                    expires_at := None; row_clicks := 5 |}]> ∅)).

Lemma recordClickBatch_exact_witness :
  exists w' unmatched, @exec reference_redis reference_postgres _
    (PostgresLinkStore.recordClickBatch [("docs", 2); ("gone", 1)]) [] stored_world
    = (w', Return unmatched)
    /\ ("gone" ∈ unmatched) /\ (row_clicks <$> Sql.links (db w') !! "docs") = Some 7.
Proof.
  destruct (@recordClickBatch_exact reference_redis reference_postgres [("docs", 2); ("gone", 1)]
    stored_world) as (w' & r & He & Hr).
  - apply (bool_decide_unpack (NoDup ["docs"; "gone"])). vm_compute. exact I.
  - intros code count r Hin Hl. simpl in Hin.
    destruct Hin as [[= <- <-]|[[= <- <-]|[]]]; vm_compute in Hl; [|discriminate Hl].
    injection Hl as <-. unfold INT8_MAX. simpl. lia.
  - destruct Hr as [(unmatched & -> & _ & Hun) Hrows]. exists w', unmatched.
    split; [exact He|]. split.
    + apply Hun. split; [apply (bool_decide_unpack ("gone" ∈ ["docs"; "gone"])); vm_compute; exact I|].
      vm_compute. reflexivity.
    + rewrite (Hrows "docs"). vm_compute. reflexivity.
Defined.

Lemma reserveBlock_sequence_witness :
  match @exec reference_redis reference_postgres _ reserveBlock [] demo_world with
  | (w', Return block) => start block = 0 /\ size block = 10000
  | _ => False
  end.
Proof.
  assert (Hroom : next_block (db demo_world) + 10000 <= INT8_MAX)
    by (unfold INT8_MAX, demo_world, next_block, db; lia).
  pose proof (@reserveBlock_sequence reference_redis reference_postgres [] demo_world Hroom) as H.
  destruct (@exec reference_redis reference_postgres _ reserveBlock [] demo_world) as [w' [b|e]] eqn:He.
  - destruct H as (_ & Hs & Hz & _). split; [exact Hs|exact Hz].
  - vm_compute in He. discriminate He.
Defined.
