(* ===== verification/Migrate.v ===== *)
(** * Migrations

    [migrate] of src/src/database/migrate.ts, run by any number of processes
    against one PostgreSQL server: advisory lock, one transaction per migration
    file, connections that break and processes that crash. *)
From stdpp Require Import sorting functions.
From S2P Require Import Prelude JsString Async PostgresStore.
Open Scope Z_scope.

(** ** Names of files *)

(** JavaScript orders strings by UTF-16 code units. On UTF-8 that is the order of
    the bytes, except that U+E000 to U+FFFF (first bytes EE and EF) come after the
    supplementary characters. *)
Definition unit_weight (c : ascii) : N :=
  let n := N_of_ascii c in
  if (n =? 238)%N || (n =? 239)%N then (1000 + n)%N else n.

Fixpoint js_le (s t : string) : bool :=
  match s, t with
  | EmptyString, _ => true
  | String _ _, EmptyString => false
  | String c s, String d t =>
      if (unit_weight c <? unit_weight d)%N then true
      else if (unit_weight c =? unit_weight d)%N then js_le s t else false
  end.

#[global] Instance js_le_dec : RelDecision js_le.
Proof. intros s t. apply Is_true_dec. Defined.

(** [endsWith]. *)
Definition endsWith (s suffix : string) : bool :=
  (String.length suffix <=? String.length s)%nat
  && String.eqb (String.substring (String.length s - String.length suffix) (String.length suffix) s) suffix.

(** [.filter((filename) => filename.endsWith(".sql")).sort()]. *)
Definition migrationFiles (names : list string) : list string :=
  merge_sort js_le (filter (fun filename => endsWith filename ".sql") names).

Lemma unit_weight_inj c d : unit_weight c = unit_weight d -> c = d.
Proof.
  intros He. apply (f_equal ascii_of_N) in He as He'. rewrite <- (ascii_N_embedding c), <- (ascii_N_embedding d).
  unfold unit_weight in He. pose proof (N_ascii_bounded c). pose proof (N_ascii_bounded d). clear He'.
  f_equal. destruct (N.eqb_spec (N_of_ascii c) 238), (N.eqb_spec (N_of_ascii c) 239), (N.eqb_spec (N_of_ascii d) 238),
    (N.eqb_spec (N_of_ascii d) 239); cbn [orb] in He; lia.
Qed.

Lemma js_le_cons c s d t :
  js_le (String c s) (String d t) <-> (unit_weight c < unit_weight d)%N \/ c = d /\ js_le s t.
Proof.
  cbn [js_le]. destruct (N.ltb_spec (unit_weight c) (unit_weight d)); [naive_solver|].
  destruct (N.eqb_spec (unit_weight c) (unit_weight d)) as [He%unit_weight_inj|Hne].
  - subst. split; [by right|]. intros [|[_ ?]]; [lia|done].
  - split; [done|]. intros [|[-> _]]; lia.
Qed.

#[global] Instance js_le_total : Total js_le.
Proof.
  intros s; induction s as [|c s IH]; intros [|d t]; [by left|by left|by right|]. rewrite !js_le_cons.
  destruct (N.lt_total (unit_weight c) (unit_weight d)) as [|[He%unit_weight_inj|]]; [by left; left| |by right; left].
  destruct (IH t); [left|right]; by right.
Qed.

#[global] Instance js_le_trans : Transitive js_le.
Proof.
  intros s; induction s as [|c s IH]; intros [|d t] [|e u]; try done. rewrite !js_le_cons.
  intros [H1|[-> H1]] [H2|[-> H2]]; [left; lia|by left|by left|]. right. split; [done|by eapply IH].
Qed.

#[global] Instance js_le_antisymm : AntiSymm (=) js_le.
Proof.
  intros s; induction s as [|c s IH]; intros [|d t]; try done. rewrite !js_le_cons.
  intros [H1|[-> H1]] [H2|[He H2]]; [lia|subst; lia|lia|]. f_equal. by apply IH.
Qed.

(** The directory decides the list, whatever order it is read in. *)
Lemma migrationFiles_perm l l' : l ≡ₚ l' -> migrationFiles l = migrationFiles l'.
Proof.
  intros Hp. unfold migrationFiles. apply (StronglySorted_unique js_le).
  - apply StronglySorted_merge_sort; tc_solve.
  - apply StronglySorted_merge_sort; tc_solve.
  - rewrite !merge_sort_Permutation. by rewrite Hp.
Qed.

Lemma migrationFiles_elem names f : f ∈ migrationFiles names <-> f ∈ names /\ endsWith f ".sql".
Proof. unfold migrationFiles. rewrite merge_sort_Permutation, list_elem_of_filter. tauto. Qed.

Lemma migrationFiles_NoDup names : NoDup names -> NoDup (migrationFiles names).
Proof. intros Hn. unfold migrationFiles. rewrite merge_sort_Permutation. by apply NoDup_filter. Qed.

Lemma filter_same {A} (P Q : A -> Prop) `{!forall x, Decision (P x), !forall x, Decision (Q x)} (l : list A) :
  (forall x, x ∈ l -> P x <-> Q x) -> filter P l = filter Q l.
Proof.
  induction l as [|x l IH]; intros HPQ; [done|]. rewrite !filter_cons.
  rewrite (IH (fun y Hy => HPQ y (list_elem_of_further _ _ _ Hy))). pose proof (HPQ x ltac:(left)).
  destruct (decide (P x)), (decide (Q x)); tauto.
Qed.

(** ** The program *)

Inductive statement : Type -> Type :=
  | AdvisoryLock : statement unit              (* SELECT pg_advisory_lock(...) *)
  | AdvisoryUnlock : statement unit            (* SELECT pg_advisory_unlock(...) *)
  | CreateSchemaMigrations : statement unit    (* CREATE TABLE IF NOT EXISTS schema_migrations *)
  | SelectApplied : statement (list string)    (* SELECT filename FROM schema_migrations *)
  | Begin : statement unit
  | Sql (text : string) : statement unit       (* the text of a migration file *)
  | InsertApplied (filename : string) : statement unit
  | Commit : statement unit
  | Rollback : statement unit.

Inductive migration : Type -> Type :=
  | Connect : migration unit
  | Query (X : Type) (s : statement X) : migration X
  | ReadDirectory : migration (list string)
  | ReadFile (filename : string) : migration string
  | End : migration unit.

Definition query {X} (s : statement X) : async migration X := call (Query X s).

(** The body of the loop: one migration. *)
Definition applyMigration (filename : string) : async migration unit :=
  await sql <- call (ReadFile filename);
  await_ query Begin;
  try_catch
    (await_ query (Sql sql);
     await_ query (InsertApplied filename);
     query Commit)
    (fun error => await_ query Rollback; reject error).

Fixpoint applyMigrations (appliedMigrations files : list string) : async migration unit :=
  match files with
  | [] => resolve tt
  | filename :: files =>
      if has appliedMigrations filename then applyMigrations appliedMigrations files
      else
        await_ applyMigration filename;
        applyMigrations appliedMigrations files
  end.

Definition migrate : async migration unit :=
  await_ call Connect;
  await_ query AdvisoryLock;
  try_finally
    (await_ query CreateSchemaMigrations;
     await names <- call ReadDirectory;
     let files := migrationFiles names in
     await rows <- query SelectApplied;
     applyMigrations (new_Set rows) files)
    (await_ query AdvisoryUnlock;
     call End).

(** ** The server *)
Section Server.

(** A schema is what migration texts act on; the text of a file either applies to a
    schema or is an error. Nothing else of the program changes the schema. *)
Context {S : Type} (apply : string -> S -> option S) (error : string).

Record database : Type := {
  recorded : option (list string);   (* the rows of schema_migrations, if it exists *)
  schema : S
}.

Definition names (d : database) : list string := default [] (recorded d).

(** The transaction of a connection; [base] is the database it began on. *)
Inductive transaction : Type :=
  | Idle
  | Active (base work : database)
  | Aborted.

Definition visible (d : database) (t : transaction) : database :=
  match t with Active _ work => work | _ => d end.

Definition write (d : database) (t : transaction) (v : database) : database * transaction :=
  match t with Active base _ => (d, Active base v) | _ => (v, Idle) end.

(** An error aborts the transaction; after a failed [COMMIT] there is none. *)
Definition failing {X} (s : statement X) (t : transaction) : transaction :=
  match s with
  | Commit => Idle
  | _ => match t with Active _ _ => Aborted | _ => t end
  end.

(** What the server does with a statement it does not fail on its own. Other
    connections may have committed since [base]; what then becomes of the
    transaction is left open. *)
Definition succeeds {X} (s : statement X) (d : database) (t : transaction) (d' : database) (t' : transaction) :
    result X -> Prop :=
  match s in statement X return (result X -> Prop) with
  | AdvisoryLock | AdvisoryUnlock => fun r => t <> Aborted /\ d' = d /\ t' = t /\ r = Return tt
  | CreateSchemaMigrations => fun r =>
      t <> Aborted /\ r = Return tt
      /\ (d', t') = write d t {| recorded := Some (names (visible d t)); schema := schema (visible d t) |}
  | SelectApplied => fun r =>
      t <> Aborted /\ d' = d /\ t' = t
      /\ exists rows l, recorded (visible d t) = Some l /\ rows ≡ₚ l /\ r = Return rows
  | Begin => fun r =>
      t <> Aborted /\ d' = d /\ t' = match t with Idle => Active d d | _ => t end /\ r = Return tt
  | Sql text => fun r =>
      t <> Aborted /\ r = Return tt
      /\ exists changed, apply text (schema (visible d t)) = Some changed
         /\ (d', t') = write d t {| recorded := recorded (visible d t); schema := changed |}
  | InsertApplied filename => fun r =>
      t <> Aborted /\ r = Return tt
      /\ exists l, recorded (visible d t) = Some l /\ (filename ∉ l)
         /\ (d', t') = write d t {| recorded := Some (l ++ [filename]); schema := schema (visible d t) |}
  | Commit => fun r =>
      t' = Idle /\ r = Return tt
      /\ match t with Active base work => (base = d -> d' = work) | _ => d' = d end
  | Rollback => fun r => d' = d /\ t' = Idle /\ r = Return tt
  end.

(** Any statement may also fail: for its own reasons, in an aborted transaction,
    or because the server says so. *)
Definition executes {X} (s : statement X) d t d' t' (r : result X) : Prop :=
  succeeds s d t d' t' r \/ d' = d /\ t' = failing s t /\ exists e, r = Throw e.

(** *** Connections and processes *)

Inductive sent : Type := Sent (X : Type) (s : statement X).

(** A connection breaks with or without a statement the server has yet to take. *)
Inductive connection : Type :=
  | Unconnected
  | Open
  | Broken (pending : option sent)
  | Closed.

Record system : Type := {
  committed : database;
  holder : option nat;                             (* of the advisory lock *)
  connections : nat -> connection;
  transactions : nat -> transaction;
  programs : nat -> io migration (result unit)     (* what each process still does *)
}.

Definition with_program (p : nat) (m : io migration (result unit)) (s : system) : system :=
  {| committed := committed s; holder := holder s; connections := connections s;
     transactions := transactions s; programs := <[p := m]> (programs s) |}.

Definition with_connection (p : nat) (c : connection) (s : system) : system :=
  {| committed := committed s; holder := holder s; connections := <[p := c]> (connections s);
     transactions := transactions s; programs := programs s |}.

(** The server ends a session: its transaction and its lock go. *)
Definition ended (p : nat) (s : system) : system :=
  {| committed := committed s; holder := if decide (holder s = Some p) then None else holder s;
     connections := <[p := Closed]> (connections s); transactions := <[p := Idle]> (transactions s);
     programs := programs s |}.

(** Whether the server takes the statement now: a lock is waited for. *)
Definition taken {X} (s : statement X) (p : nat) (held : option nat) : Prop :=
  match s with AdvisoryLock => held = None \/ held = Some p | _ => True end.

Definition holder_after {X} (s : statement X) (r : result X) (p : nat) (held : option nat) : option nat :=
  match s, r with
  | AdvisoryLock, Return _ => Some p
  | AdvisoryUnlock, Return _ => if decide (held = Some p) then None else held
  | _, _ => held
  end.

Definition after_statement {X} (st : statement X) (r : result X) (p : nat) d' t' (s : system) : system :=
  {| committed := d'; holder := holder_after st r p (holder s); connections := connections s;
     transactions := <[p := t']> (transactions s); programs := programs s |}.

(** The files of this deployment of each process; a migration file never changes. *)
Context (directory : nat -> list string) (contents : string -> string).

Inductive step : system -> system -> Prop :=
  | step_connect s p k r :
      programs s p = Await Connect k -> connections s p = Unconnected ->
      step s (with_program p (k r)
               (with_connection p (match r with Return _ => Open | Throw _ => Closed end) s))
  | step_reconnect s p k e :
      programs s p = Await Connect k -> connections s p <> Unconnected ->
      step s (with_program p (k (Throw e)) s)
  | step_query s p X (st : statement X) k d' t' r :
      programs s p = Await (Query X st) k -> connections s p = Open -> taken st p (holder s) ->
      executes st (committed s) (transactions s p) d' t' r ->
      step s (with_program p (k r) (after_statement st r p d' t' s))
  | step_break s p X (st : statement X) k pending e :
      programs s p = Await (Query X st) k -> connections s p = Open ->
      pending = None \/ pending = Some (Sent X st) ->
      step s (with_program p (k (Throw e)) (with_connection p (Broken pending) s))
  | step_unsent s p X (st : statement X) k e :
      programs s p = Await (Query X st) k -> connections s p <> Open ->
      step s (with_program p (k (Throw e)) s)
  | step_pending s p X (st : statement X) d' t' r :
      connections s p = Broken (Some (Sent X st)) -> taken st p (holder s) ->
      executes st (committed s) (transactions s p) d' t' r ->
      step s (with_connection p (Broken None) (after_statement st r p d' t' s))
  | step_notice s p pending :
      connections s p = Broken pending -> step s (ended p s)
  | step_directory s p k r :
      programs s p = Await ReadDirectory k ->
      (forall l, r = Return l -> l ≡ₚ directory p) ->
      step s (with_program p (k r) s)
  | step_file s p filename k r :
      programs s p = Await (ReadFile filename) k ->
      (forall text, r = Return text -> text = contents filename) ->
      step s (with_program p (k r) s)
  | step_end s p k r :
      programs s p = Await End k ->
      step s (with_program p (k r) (match connections s p with Open => ended p s | _ => s end))
  | step_end_lost s p k r :
      programs s p = Await End k -> connections s p = Open ->
      step s (with_program p (k r) (with_connection p (Broken None) s))
  | step_crash s p pending :
      pending = None \/ (exists X (st : statement X) k, programs s p = Await (Query X st) k /\ pending = Some (Sent X st)) ->
      step s (with_program p (Done (Throw error))
               (match connections s p with Open => with_connection p (Broken pending) s | _ => s end)).

(** Before anyone migrates. *)
Definition fresh (d : database) : system :=
  {| committed := d; holder := None; connections := fun _ => Unconnected; transactions := fun _ => Idle;
     programs := fun _ => migrate |}.

Inductive reachable (d : database) : system -> Prop :=
  | reachable_fresh : reachable d (fresh d)
  | reachable_step s s' : reachable d s -> step s s' -> reachable d s'.

(** ** One process, as it may see the server *)

(** [replay l]: the schema after the migrations of [l], from [empty]. *)
Context (empty : S).

Definition replay (l : list string) : option S :=
  fold_left (fun s filename => s ≫= apply (contents filename)) l (Some empty).

(** All processes have the same files. *)
Definition same_files (files : list string) : Prop := forall p, migrationFiles (directory p) = files.

(** The schema is what the recorded migrations make, in their order, each once;
    with the same files everywhere they are the first of these. *)
Record sound (d : database) : Prop := {
  sound_schema : replay (names d) = Some (schema d);
  sound_once : NoDup (names d);
  sound_order files : same_files files -> names d `prefix_of` files
}.

Definition grows (d d' : database) : Prop := sound d' /\ names d `prefix_of` names d'.

(** What a process knows: the names recorded when it last looked, and the database
    while it holds the lock. *)
Inductive view : Type :=
  | Before
  | Waiting (low : list string)
  | Holding (d : database) (t : transaction)
  | Gone (low : list string).

Definition allowed (X : Type) (v : view) (e : migration X) : Prop :=
  match v, e with
  | Gone _, _ => True
  | _, ReadDirectory | _, ReadFile _ => True
  | Before, Connect => True
  | Waiting _, Query _ AdvisoryLock => True
  | Waiting _, End => True
  | Holding d t, Query _ s =>
      match s with
      | AdvisoryLock => False
      | AdvisoryUnlock => forall base work, t <> Active base work
      | _ => forall d' t' r, executes s d t d' t' r -> grows d d'
      end
  | _, _ => False
  end.

Definition view_after {X} (s : statement X) (r : result X) (d' : database) (t' : transaction) : view :=
  match s, r with
  | AdvisoryUnlock, Return _ => Waiting (names d')
  | _, _ => Holding d' t'
  end.

Definition low (v : view) : list string :=
  match v with Before => [] | Waiting l | Gone l => l | Holding d _ => names d end.

Definition answer (p : nat) (X : Type) (v : view) (e : migration X) (r : result X) (v' : view) : Prop :=
  match e in migration X return (result X -> Prop) with
  | ReadDirectory => fun r => v' = v /\ forall l, r = Return l -> l ≡ₚ directory p
  | ReadFile filename => fun r => v' = v /\ forall text, r = Return text -> text = contents filename
  | Connect => fun r => v' = match v, r with Before, Return _ => Waiting [] | _, _ => Gone (low v) end
  | End => fun _ => v' = Gone (low v)
  | Query X s => fun r =>
      (exists e, r = Throw e /\ v' = Gone (low v))
      \/ match v with
         | Waiting l =>
             match r with
             | Return _ => exists d, sound d /\ l `prefix_of` names d /\ v' = Holding d Idle
             | Throw _ => v' = v
             end
         | Holding d t => exists d' t', executes s d t d' t' r /\ v' = view_after s r d' t'
         | _ => False
         end
  end r.

Abbreviation knows p := (wp allowed (answer p)).

(** A process that returned knows its files recorded. *)
Definition told (p : nat) (v : view) (r : result unit) : Prop :=
  r = Return tt -> forall f, f ∈ migrationFiles (directory p) -> f ∈ low v.

Lemma grows_refl d : sound d -> grows d d.
Proof. by split. Qed.

Lemma knows_query p {X} (s : statement X) Q v :
  allowed X v (Query X s) ->
  (forall e, Q (Gone (low v)) (Throw e)) ->
  match v with
  | Waiting l =>
      (forall e, Q v (Throw e)) /\ (forall a d, sound d -> l `prefix_of` names d -> Q (Holding d Idle) (Return a))
  | Holding d t => forall d' t' r, executes s d t d' t' r -> Q (view_after s r d' t') r
  | _ => True
  end ->
  knows p (query s) Q v.
Proof.
  intros Ha Hgone Hv. apply wp_call; [done|]. intros r v' [(e & -> & ->)|Hr]; [done|]. destruct v; try done.
  - destruct Hv as [Ht Hd]. destruct r; [|by subst]. destruct Hr as (d & Hs & Hl & ->). by apply Hd.
  - destruct Hr as (d' & t' & He & ->). by apply Hv.
Qed.

Definition calm (t : transaction) : Prop := forall base work, t <> Active base work.

(** Nothing is left half done. *)
Definition between (v : view) : Prop :=
  match v with Gone _ => True | Holding d t => sound d /\ calm t | _ => False end.

(** The rollback of a failed migration. *)
Lemma rollback_knows p d t e Q :
  sound d -> (forall v e, between v -> Q v (Throw e)) ->
  knows p (await_ query Rollback; reject (A := unit) e) Q (Holding d t).
Proof.
  intros Hs HQ. apply wp_async_bind, knows_query.
  - intros d' t' r [(-> & _)|(-> & _)]; by apply grows_refl.
  - intros e'. by apply HQ.
  - intros d' t' r [(-> & -> & ->)|(-> & -> & e' & ->)]; [by apply HQ|]. apply HQ. split; [done|]. by destruct t.
Qed.

Lemma replay_snoc l f : replay (l ++ [f]) = replay l ≫= apply (contents f).
Proof. unfold replay. by rewrite fold_left_app. Qed.

(** The database with one more migration. *)
Definition migrated (d : database) (f : string) (changed : S) : database :=
  {| recorded := Some (names d ++ [f]); schema := changed |}.

Definition in_order (l : list string) : Prop := forall files, same_files files -> l `prefix_of` files.

Lemma migrated_grows d f changed :
  sound d -> f ∉ names d -> in_order (names d ++ [f]) -> apply (contents f) (schema d) = Some changed ->
  grows d (migrated d f changed).
Proof.
  intros [Hr Hn _] Hf Ho Hc. split; [|by exists [f]].
  split; change (names (migrated d f changed)) with (names d ++ [f]); [by rewrite replay_snoc, Hr| |done].
  apply NoDup_app. split_and!; [done|by intros ? ? ->%list_elem_of_singleton|apply NoDup_singleton].
Qed.

Lemma applyMigration_knows p d f l Q :
  sound d -> recorded d = Some l -> f ∉ names d -> in_order (names d ++ [f]) ->
  (forall v e, between v -> Q v (Throw e)) ->
  (forall changed, grows d (migrated d f changed) -> Q (Holding (migrated d f changed) Idle) (Return tt)) ->
  knows p (applyMigration f) Q (Holding d Idle).
Proof.
  intros Hs Hl Hf Ho Hfail Hdone. unfold applyMigration.
  apply wp_async_bind, wp_call; [done|]. intros r v [-> Hr]. destruct r as [sql|e]; [|by apply Hfail]. specialize (Hr sql eq_refl) as ->.
  apply wp_async_bind, knows_query.
  { intros d' t' r [(_ & -> & _)|(-> & _)]; by apply grows_refl. }
  { intros e. by apply Hfail. }
  intros d' t' r [(_ & -> & -> & ->)|(-> & -> & e & ->)]; [|by apply Hfail]. cbn [view_after].
  unfold try_catch. apply wp_bind.
  assert (Hback : forall t e, wp allowed (answer p) (await_ query Rollback; reject (A := unit) e) Q (Holding d t)).
  { intros t e. by apply rollback_knows. }
  assert (Hgone : forall e, wp allowed (answer p) (await_ query Rollback; reject (A := unit) e) Q (Gone (names d))).
  { intros e. apply wp_async_bind, knows_query; [done| |done]. intros e'. by apply Hfail. }
  apply wp_async_bind, knows_query.
  { intros d' t' r [(_ & _ & changed & _ & [= -> _])|(-> & _)]; by apply grows_refl. }
  { intros e. apply Hgone. }
  intros d' t' r [(_ & -> & changed & Hc & [= -> ->])|(-> & -> & e & ->)]; [|apply Hback]. cbn [view_after visible write] in *.
  apply wp_async_bind, knows_query.
  { intros d' t' r [(_ & _ & l' & _ & _ & [= -> _])|(-> & _)]; by apply grows_refl. }
  { intros e. apply Hgone. }
  intros d' t' r [(_ & -> & l' & Hl' & _ & [= -> ->])|(-> & -> & e & ->)]; [|apply Hback]. cbn [view_after visible recorded schema] in *.
  assert (l' = names d) as -> by (unfold names; rewrite Hl in Hl' |- *; by injection Hl').
  pose proof (migrated_grows d f changed Hs Hf Ho Hc) as Hg. fold (migrated d f changed). apply knows_query.
  { intros d' t' r [(_ & _ & Hw)|(-> & _)]; [by rewrite (Hw eq_refl)|by apply grows_refl]. }
  { intros e. apply Hgone. }
  intros d' t' r [(-> & -> & Hw)|(-> & -> & e & ->)]; [|apply Hback]. rewrite (Hw eq_refl). by apply Hdone.
Qed.

(** The loop, after the files [past]. *)
Record at_file (p : nat) (applied past rest : list string) (d : database) : Prop := {
  at_sound : sound d;
  at_recorded : is_Some (recorded d);
  at_files : migrationFiles (directory p) = past ++ rest;
  at_past f : f ∈ past -> f ∈ names d;
  at_rest f : f ∈ rest -> f ∈ applied <-> f ∈ names d;
  at_order files : same_files files -> past `prefix_of` names d
}.

(** Where all have the same files, the next one comes next. *)
Lemma next_in_order p applied past f rest d files :
  at_file p applied past (f :: rest) d -> same_files files ->
  names d = past \/ past ++ [f] `prefix_of` names d.
Proof.
  intros [[_ _ Ho] _ Hf _ _ Hp] Hsame. destruct (Hp _ Hsame) as [x Hx]. destruct (Ho _ Hsame) as [y Hy].
  rewrite <- (Hsame p), Hf, Hx, <- app_assoc in Hy. apply (inj (app past)) in Hy. destruct x as [|g x].
  - left. by rewrite app_nil_r in Hx.
  - right. injection Hy as <- _. exists x. by rewrite Hx, <- app_assoc.
Qed.

Lemma applied_file p applied past f rest d :
  NoDup (directory p) -> at_file p applied past (f :: rest) d -> f ∈ applied -> at_file p applied (past ++ [f]) rest d.
Proof.
  intros Hd Hat Hin. pose proof Hat as [Hs Hr Hf Hp Hrest Ho]. assert (Hnames : f ∈ names d) by (apply Hrest; [left|done]).
  split; [done|done| | | |].
  - by rewrite <- app_assoc.
  - intros g [Hg| ->%list_elem_of_singleton]%elem_of_app; [by apply Hp|done].
  - intros g Hg. apply Hrest. by right.
  - intros files Hsame. destruct (next_in_order _ _ _ _ _ _ _ Hat Hsame) as [He|]; [|done]. exfalso.
    apply (migrationFiles_NoDup _) in Hd. rewrite Hf, NoDup_app in Hd. destruct Hd as (_ & Hd & _).
    apply (Hd f); [by rewrite <- He|left].
Qed.

Lemma migrated_file p applied past f rest d changed :
  NoDup (directory p) -> at_file p applied past (f :: rest) d -> f ∉ applied -> grows d (migrated d f changed) ->
  at_file p applied (past ++ [f]) rest (migrated d f changed).
Proof.
  intros Hd Hat Hin [Hs' _]. pose proof Hat as [Hs Hr Hf Hp Hrest Ho].
  assert (Hnames : f ∉ names d) by (intros Hn; apply Hin, Hrest; [left|done]).
  change (names (migrated d f changed)) with (names d ++ [f]). split; [done|by eexists| | | |];
    try change (names (migrated d f changed)) with (names d ++ [f]).
  - by rewrite <- app_assoc.
  - intros g [Hg|Hg]%elem_of_app; apply elem_of_app; [left; by apply Hp|by right].
  - intros g Hg. rewrite elem_of_app, list_elem_of_singleton, Hrest by (by right). split; [by left|].
    intros [|He]; [done|]. subst g. exfalso. apply (migrationFiles_NoDup _) in Hd. rewrite Hf, NoDup_app in Hd.
    destruct Hd as (_ & _ & Hd). by apply NoDup_cons in Hd as [? _].
  - intros files Hsame. destruct (next_in_order _ _ _ _ _ _ _ Hat Hsame) as [<-|[x Hx]]; [done|]. exfalso. apply Hnames.
    rewrite Hx. set_solver.
Qed.

Lemma file_in_order p applied past f rest d :
  at_file p applied past (f :: rest) d -> f ∉ names d -> in_order (names d ++ [f]).
Proof.
  intros Hat Hf files Hsame. destruct (next_in_order _ _ _ _ _ _ _ Hat Hsame) as [->|[x Hx]].
  - exists rest. rewrite <- (Hsame p), (at_files _ _ _ _ _ Hat). by rewrite <- app_assoc.
  - exfalso. apply Hf. rewrite Hx. set_solver.
Qed.

Lemma applyMigrations_knows p applied past rest d Q :
  NoDup (directory p) -> at_file p applied past rest d ->
  (forall v e, between v -> Q v (Throw e)) ->
  (forall d', at_file p applied (migrationFiles (directory p)) [] d' -> Q (Holding d' Idle) (Return tt)) ->
  knows p (applyMigrations applied rest) Q (Holding d Idle).
Proof.
  intros Hd Hat Hfail Hdone. revert past d Hat; induction rest as [|f rest IH]; intros past d Hat; cbn [applyMigrations].
  { apply Hdone. pose proof (at_files _ _ _ _ _ Hat) as Hf. rewrite app_nil_r in Hf. by rewrite Hf. }
  unfold has. case_bool_decide as Hin; [by apply (IH (past ++ [f])), applied_file|].
  assert (Hnames : f ∉ names d) by (intros Hn; apply Hin, (at_rest _ _ _ _ _ Hat); [left|done]).
  destruct (at_recorded _ _ _ _ _ Hat) as [l Hl]. apply wp_async_bind, (applyMigration_knows p d f l).
  - apply Hat.
  - done.
  - done.
  - by eapply file_in_order.
  - done.
  - intros changed Hg. by apply (IH (past ++ [f])), migrated_file.
Qed.

(** The end of the [try] block, and its [finally]. *)
Definition over (p : nat) (v : view) (r : result unit) : Prop := between v /\ told p v r.

Lemma cleanup_knows p v r :
  over p v r ->
  knows p (io_bind (await_ query AdvisoryUnlock; call End) (fun q =>
    match q with Return _ => Done r | Throw e => reject e end)) (told p) v.
Proof.
  intros [Hb Ht]. apply wp_bind, wp_async_bind, knows_query.
  - destruct v; try done. apply Hb.
  - by intros e ?.
  - destruct v as [|l|d t|l]; try done. destruct Hb as [Hs Hcalm].
    intros d' t' q [(_ & -> & -> & ->)|(-> & _ & e & ->)]; [|by intros ?]. cbn [view_after].
    apply wp_call; [done|]. intros [u|e] v' ->; [exact Ht|by intros ?].
Qed.

Lemma migrate_knows p : NoDup (directory p) -> knows p migrate (told p) Before.
Proof.
  intros Hd. unfold migrate. apply wp_async_bind, wp_call; [done|]. intros r v ->. destruct r as [u|e]; [|by intros ?].
  apply wp_async_bind, knows_query; [done|by intros e ?|]. split; [by intros e ?|]. intros _ d Hs _.
  apply wp_bind. eapply wp_mono with (P := over p); [intros v r; apply cleanup_knows|].
  assert (Hfail : forall v e, between v -> over p v (Throw e)) by (intros v e Hb; by split).
  apply wp_async_bind, knows_query.
  { intros d' t' r [(_ & _ & [= -> _])|(-> & _)]; [|by apply grows_refl]. split; [|done]. by destruct Hs. }
  { intros e. by apply Hfail. }
  intros d' t' r [(_ & -> & [= -> ->])|(-> & -> & e & ->)]; [|by apply Hfail]. cbn [view_after visible].
  set (created := {| recorded := Some (names d); schema := schema d |}).
  assert (Hs' : sound created) by by destruct Hs.
  apply wp_async_bind, wp_call; [done|]. intros r v [-> Hr]. destruct r as [l|e]; [|by apply Hfail]. specialize (Hr l eq_refl).
  cbv zeta. rewrite (migrationFiles_perm l (directory p)) by done. apply wp_async_bind, knows_query.
  { intros d' t' r [(_ & -> & _)|(-> & _)]; by apply grows_refl. }
  { intros e. by apply Hfail. }
  intros d' t' r [(_ & -> & -> & rows & l' & Hl' & Hrows & ->)|(-> & -> & e & ->)]; [|by apply Hfail].
  cbn [visible recorded created] in Hl'. injection Hl' as <-. cbn [view_after].
  apply (applyMigrations_knows _ _ []); [done| |done|].
  - split; try done; [by intros f ?%not_elem_of_nil| |].
    + intros f _. rewrite new_Set_elem. by rewrite Hrows.
    + intros files _. apply prefix_nil.
  - intros d' [Hsd _ _ Hpast _ _]. split; [by split|]. intros _ f Hf. by apply Hpast.
Qed.

(** ** All of them *)

(** A statement a broken connection left behind does no harm. *)
Definition harmless (p : nat) (s : system) (pending : option sent) : Prop :=
  match pending with
  | None => True
  | Some (Sent X st) =>
      if decide (holder s = Some p)
      then (forall d' t' r, executes st (committed s) (transactions s p) d' t' r -> grows (committed s) d')
           /\ match st with AdvisoryUnlock => calm (transactions s p) | _ => True end
      else match st with AdvisoryLock => True | _ => False end
  end.

(** How the server stands with a process of this view. *)
Definition stands (p : nat) (s : system) (v : view) : Prop :=
  low v `prefix_of` names (committed s)
  /\ match v with
     | Before => connections s p = Unconnected /\ holder s <> Some p /\ transactions s p = Idle
     | Waiting _ => connections s p = Open /\ holder s <> Some p /\ transactions s p = Idle
     | Holding d t => connections s p = Open /\ holder s = Some p /\ d = committed s /\ t = transactions s p
     | Gone _ =>
         (holder s <> Some p -> calm (transactions s p))
         /\ match connections s p with
            | Closed => holder s <> Some p
            | Broken pending => harmless p s pending
            | _ => False
            end
     end.

Definition invariant (s : system) : Prop :=
  sound (committed s) /\ forall p, exists v, stands p s v /\ knows p (programs s p) (told p) v.

(** What a step of [p] leaves to the others. *)
Record leaves (p : nat) (s s' : system) : Prop := {
  leaves_connection q : q <> p -> connections s' q = connections s q;
  leaves_transaction q : q <> p -> transactions s' q = transactions s q;
  leaves_program q : q <> p -> programs s' q = programs s q;
  leaves_holder q : q <> p -> holder s' = Some q <-> holder s = Some q;
  leaves_committed q : q <> p -> holder s = Some q -> committed s' = committed s;
  leaves_names : names (committed s) `prefix_of` names (committed s')
}.

Lemma stands_other p q s s' v : leaves p s s' -> q <> p -> stands q s v -> stands q s' v.
Proof.
  intros [Hc Ht _ Hh Hd Hn] Hne [Hl Hv]. specialize (Hc q Hne). specialize (Ht q Hne). specialize (Hh q Hne). specialize (Hd q Hne).
  split; [by etrans|]. destruct v as [| |d t|]; rewrite ?Hc, ?Ht, ?Hh; try done.
  - destruct Hv as (H1 & H2 & H3 & H4). by rewrite (Hd H2).
  - destruct Hv as [H1 H2]. split; [done|]. destruct (connections s q) as [| |[[X st]|]|]; try done; [|by rewrite Hh].
    unfold harmless in *. rewrite Ht. destruct (decide (holder s = Some q)) as [He|He].
    + rewrite decide_True by (by apply Hh). by rewrite (Hd He).
    + rewrite decide_False by (by rewrite Hh). done.
Qed.

Definition later (s s' : system) : Prop := invariant s' /\ names (committed s) `prefix_of` names (committed s').

Lemma invariant_step p s s' v :
  invariant s -> leaves p s s' -> sound (committed s') -> stands p s' v -> knows p (programs s' p) (told p) v ->
  later s s'.
Proof.
  intros [_ Hall] Hleaves Hs Hv Hk. split; [|apply Hleaves]. split; [done|]. intros q. destruct (decide (q = p)) as [->|Hne]; [by exists v|].
  destruct (Hall q) as (w & Hw & Hkq). exists w. split; [by eapply stands_other|].
  by rewrite (leaves_program _ _ _ Hleaves q Hne).
Qed.

Lemma leaves_refl p s : leaves p s s.
Proof. by split. Qed.

Lemma leaves_with_program p m s s' : leaves p s s' -> leaves p s (with_program p m s').
Proof. intros [Hc Ht Hp Hh Hd Hn]. split; try done. intros q Hq. cbn. rewrite fn_lookup_insert_ne by done. by apply Hp. Qed.

Lemma leaves_with_connection p c s s' : leaves p s s' -> leaves p s (with_connection p c s').
Proof. intros [Hc Ht Hp Hh Hd Hn]. split; try done. intros q Hq. cbn. rewrite fn_lookup_insert_ne by done. by apply Hc. Qed.

Lemma leaves_ended p s : leaves p s (ended p s).
Proof.
  split; try done; intros q Hq; cbn; rewrite ?fn_lookup_insert_ne by done; try done.
  destruct (decide (holder s = Some p)) as [->|]; [|done]. split; [done|]. by intros [= ->].
Qed.

Lemma leaves_statement p s {X} (st : statement X) r d' t' :
  taken st p (holder s) -> holder s = Some p \/ d' = committed s -> names (committed s) `prefix_of` names d' ->
  leaves p s (after_statement st r p d' t' s).
Proof.
  intros Ht Hd Hn. split; try done; intros q Hq; cbn; rewrite ?fn_lookup_insert_ne by done; try done.
  - destruct st, r; cbn in *; try done.
    + destruct Ht as [->| ->]; split; try done; by intros [= ->].
    + destruct (decide (holder s = Some p)) as [->|]; [|done]. split; [done|]. by intros [= ->].
  - intros Hh. destruct Hd as [Hp|]; [|done]. congruence.
Qed.

Lemma calm_failing {X} (st : statement X) t : calm t -> calm (failing st t).
Proof. intros Hc. by destruct st, t. Qed.

Lemma lock_executes d t d' t' r : executes AdvisoryLock d t d' t' r -> d' = d /\ (t' = t \/ t' = failing AdvisoryLock t).
Proof. intros [(_ & -> & -> & _)|(-> & -> & _)]; auto. Qed.

Lemma unlock_executes d t d' t' r :
  executes AdvisoryUnlock d t d' t' r -> d' = d /\ (r = Return tt /\ t' = t /\ t <> Aborted \/ exists e, r = Throw e /\ t' = failing AdvisoryUnlock t).
Proof. intros [(? & -> & -> & ->)|(-> & -> & e & ->)]; naive_solver. Qed.

(** A statement sent is harmless. *)
Lemma sent_harmless p s v {X} (st : statement X) :
  sound (committed s) -> stands p s v -> connections s p = Open -> allowed X v (Query X st) -> harmless p s (Some (Sent X st)).
Proof.
  intros Hs [_ Hv] Hopen Ha. unfold harmless. destruct v as [|l|d t|l].
  - done.
  - destruct Hv as (_ & Hh & _). rewrite decide_False by done. by destruct st.
  - destruct Hv as (_ & Hh & -> & ->). rewrite decide_True by done. destruct st; try done; split; try done.
    intros d' t' r [-> _]%unlock_executes. by apply grows_refl.
  - destruct Hv as [_ Hv]. by rewrite Hopen in Hv.
Qed.

Lemma gone_stands p s v pending :
  stands p s v -> connections s p = Open -> harmless p s pending ->
  stands p (with_connection p (Broken pending) s) (Gone (low v)).
Proof.
  intros [Hl Hv] Hopen Hh. split; [exact Hl|]. cbn. rewrite fn_lookup_insert. split; [|exact Hh].
  destruct v as [|l|d t|l]; cbn in Hv; rewrite Hopen in Hv; try done.
  - by destruct Hv.
  - by destruct Hv as (_ & _ & ->).
  - by destruct Hv as (_ & -> & _).
  - by destruct Hv.
Qed.

Lemma ended_stands p s l : l `prefix_of` names (committed s) -> stands p (ended p s) (Gone l).
Proof.
  intros Hl. split; [exact Hl|]. cbn. rewrite !fn_lookup_insert. split; [by intros _ ? ?|].
  by destruct (decide (holder s = Some p)).
Qed.

(** A statement of the holder, executed. *)
Lemma holder_executes p s {X} (st : statement X) d' t' r :
  sound (committed s) -> stands p s (Holding (committed s) (transactions s p)) ->
  allowed X (Holding (committed s) (transactions s p)) (Query X st) ->
  executes st (committed s) (transactions s p) d' t' r ->
  grows (committed s) d' /\ stands p (after_statement st r p d' t' s) (view_after st r d' t').
Proof.
  intros Hs [_ (Hopen & Hh & _ & _)] Ha He.
  assert (Hg : grows (committed s) d').
  { destruct st; try (by apply (Ha _ _ _ He)); [done|]. apply unlock_executes in He as [-> _]. by apply grows_refl. }
  split; [done|]. destruct st, r; try done; (split; [done|]); cbn; rewrite ?fn_lookup_insert; try done.
  split; [done|]. rewrite Hh, decide_True by done. split; [done|].
  apply unlock_executes in He as [_ [(_ & -> & Ht)|(e & ? & _)]]; [|done]. cbn in Ha.
  destruct (transactions s p) as [|base work|]; [done|by destruct (Ha base work)|done].
Qed.

Lemma query_kept p s X (st : statement X) k d' t' r :
  invariant s -> programs s p = Await (Query X st) k -> connections s p = Open -> taken st p (holder s) ->
  executes st (committed s) (transactions s p) d' t' r ->
  later s (with_program p (k r) (after_statement st r p d' t' s)).
Proof.
  intros Hi Hp Hopen Ht He. pose proof Hi as [Hs Hall]. destruct (Hall p) as (v & Hv & Hk). rewrite Hp in Hk. destruct Hk as [Ha Hk].
  destruct v as [|l|d t|l].
  - done.
  - destruct Hv as [Hl (_ & Hh & Hidle)]. destruct st; try done. rewrite Hidle in He.
    assert (Hd : d' = committed s /\ t' = Idle) by (apply lock_executes in He as [-> [-> | ->]]; done). destruct Hd as [-> ->].
    destruct r as [u|e].
    + apply (invariant_step p s _ (Holding (committed s) Idle)); [done| |done| |].
      * apply leaves_with_program, leaves_statement; auto.
      * split; [done|]. cbn. by rewrite fn_lookup_insert.
      * cbn. rewrite fn_lookup_insert. apply Hk. right. by eexists.
    + apply (invariant_step p s _ (Waiting l)); [done| |done| |].
      * apply leaves_with_program, leaves_statement; auto.
      * split; [done|]. cbn. by rewrite fn_lookup_insert.
      * cbn. rewrite fn_lookup_insert. apply Hk. by right.
  - pose proof Hv as [_ (_ & Hh & -> & ->)]. destruct (holder_executes p s st d' t' r Hs Hv Ha He) as [[Hs' Hg] Hv'].
    apply (invariant_step p s _ (view_after st r d' t')); [done| |done|exact Hv'|].
    + apply leaves_with_program, leaves_statement; auto.
    + cbn. rewrite fn_lookup_insert. apply Hk. right. by exists d', t'.
  - destruct Hv as [_ [_ Hv]]. by rewrite Hopen in Hv.
Qed.

Lemma pending_kept p s X (st : statement X) d' t' r :
  invariant s -> connections s p = Broken (Some (Sent X st)) -> taken st p (holder s) ->
  executes st (committed s) (transactions s p) d' t' r ->
  later s (with_connection p (Broken None) (after_statement st r p d' t' s)).
Proof.
  intros Hi Hb Ht He. pose proof Hi as [Hs Hall]. destruct (Hall p) as (v & Hv & Hk). pose proof Hv as [Hl Hc].
  destruct v as [|l|d t|l]; rewrite Hb in Hc; [by destruct Hc..|]. destruct Hc as [Hcalm Hh]. unfold harmless in Hh.
  assert (Hgrow : grows (committed s) d' /\ (holder s = Some p \/ d' = committed s)
    /\ (holder_after st r p (holder s) <> Some p -> calm t')).
  { destruct (decide (holder s = Some p)) as [Hp|Hp].
    - destruct Hh as [Hg Hun]. split; [by eapply Hg|]. split; [by left|]. intros Hn. destruct st, r; try done.
      apply unlock_executes in He as [_ [(_ & -> & _)|(e & ? & _)]]; done.
    - destruct st; try done. apply lock_executes in He as [-> Ht']. split; [by apply grows_refl|]. split; [by right|].
      intros _. destruct Ht' as [-> | ->]; [|apply calm_failing]; auto. }
  destruct Hgrow as ([Hs' Hg] & Hheld & Hcalm'). apply (invariant_step p s _ (Gone l)); [done| |done| |exact Hk].
  - by apply leaves_with_connection, leaves_statement.
  - split; [by etrans|]. cbn. rewrite !fn_lookup_insert. by split.
Qed.

(** A process whose program moves on, the server untouched. *)
Lemma program_kept p s m v : invariant s -> stands p s v -> knows p m (told p) v -> later s (with_program p m s).
Proof.
  intros Hi Hv Hk. apply (invariant_step p s _ v); [done| |apply Hi|exact Hv|].
  - apply leaves_with_program, leaves_refl.
  - cbn. by rewrite fn_lookup_insert.
Qed.

(** A connection that breaks. *)
Lemma break_kept p s m v pending :
  invariant s -> stands p s v -> connections s p = Open -> harmless p s pending -> knows p m (told p) (Gone (low v)) ->
  later s (with_program p m (with_connection p (Broken pending) s)).
Proof.
  intros Hi Hv Hopen Hh Hk. apply (invariant_step p s _ (Gone (low v))); [done| |apply Hi| |].
  - apply leaves_with_program, leaves_with_connection, leaves_refl.
  - by apply gone_stands.
  - cbn. by rewrite fn_lookup_insert.
Qed.

Lemma not_open p s v : stands p s v -> connections s p <> Open -> connections s p <> Unconnected -> exists l, v = Gone l.
Proof. intros [_ Hv] Hno Hnu. destruct v as [|l|d t|l]; try (by destruct Hv); [by exists l]. Qed.

Lemma connected p s v X (e : migration X) k :
  stands p s v -> knows p (Await e k) (told p) v -> match e with Query _ _ | End => connections s p <> Unconnected | _ => True end.
Proof. intros [_ Hv] [Ha _]. destruct e; try done; destruct v as [|l|d t|l]; try done; intros Hu; rewrite Hu in Hv; by destruct Hv. Qed.

Lemma crash_kept p s pending :
  invariant s ->
  pending = None \/ (exists X (st : statement X) k, programs s p = Await (Query X st) k /\ pending = Some (Sent X st)) ->
  later s (with_program p (Done (Throw error))
    (match connections s p with Open => with_connection p (Broken pending) s | _ => s end)).
Proof.
  intros Hi Hpending. pose proof Hi as [Hs Hall]. destruct (Hall p) as (v & Hv & Hk).
  destruct (connections s p) eqn:Hc; try (by apply (program_kept p s _ v)).
  apply (break_kept p s _ v); try done. destruct Hpending as [->|(X & st & k & Hp & ->)]; [done|].
  rewrite Hp in Hk. by apply (sent_harmless p s v); [| | |apply Hk].
Qed.

Lemma step_kept s s' : invariant s -> step s s' -> later s s'.
Proof.
  intros Hi Hstep. pose proof Hi as [Hs Hall]. destruct Hstep as [s p k r Hp Hc|s p k e Hp Hc|s p X st k d' t' r Hp Hc Ht He
    |s p X st k pending e Hp Hc Hpe|s p X st k e Hp Hc|s p X st d' t' r Hc Ht He|s p pending Hc|s p k r Hp Hr|s p f k r Hp Hr
    |s p k r Hp|s p k r Hp Hc|s p pending Hpe].
  - destruct (Hall p) as (v & Hv & Hk). rewrite Hp in Hk. destruct Hk as [Ha Hk]. pose proof Hv as [Hl Hst].
    destruct v as [|l|d t|l]; rewrite Hc in Hst; try (by destruct Hst). destruct Hst as (_ & Hh & Hidle).
    apply (invariant_step p s _ (match r with Return _ => Waiting [] | Throw _ => Gone [] end)); [done| |done| |].
    + apply leaves_with_program, leaves_with_connection, leaves_refl.
    + destruct r; (split; [apply prefix_nil|]); cbn; rewrite fn_lookup_insert; [done|]. by rewrite Hidle.
    + cbn. rewrite fn_lookup_insert. apply Hk. by destruct r.
  - destruct (Hall p) as (v & Hv & Hk). rewrite Hp in Hk. destruct Hk as [Ha Hk]. pose proof Hv as [_ Hst].
    destruct v as [|l|d t|l]; try done; [by destruct Hst|]. apply (program_kept p s _ (Gone l)); try done. by apply Hk.
  - by apply query_kept.
  - destruct (Hall p) as (v & Hv & Hk). rewrite Hp in Hk. destruct Hk as [Ha Hk]. apply (break_kept p s _ v); try done.
    + destruct Hpe as [-> | ->]; [done|]. by apply (sent_harmless p s v).
    + apply Hk. left. by exists e.
  - destruct (Hall p) as (v & Hv & Hk). rewrite Hp in Hk. destruct (not_open p s v Hv Hc) as [l ->].
    { by apply (connected p s v _ _ _ Hv Hk). }
    apply (program_kept p s _ (Gone l)); try done. apply Hk. left. by exists e.
  - by eapply pending_kept.
  - destruct (Hall p) as (v & Hv & Hk). destruct (not_open p s v Hv) as [l ->]; [by rewrite Hc..|].
    apply (invariant_step p s _ (Gone l)); [done|apply leaves_ended|done|apply ended_stands, Hv|exact Hk].
  - destruct (Hall p) as (v & Hv & Hk). rewrite Hp in Hk. apply (program_kept p s _ v); try done. by apply Hk.
  - destruct (Hall p) as (v & Hv & Hk). rewrite Hp in Hk. apply (program_kept p s _ v); try done. by apply Hk.
  - destruct (Hall p) as (v & Hv & Hk). rewrite Hp in Hk. pose proof (connected p s v _ _ _ Hv Hk) as Hun. cbn in Hun.
    assert (Hgone : knows p (k r) (told p) (Gone (low v))) by by apply Hk.
    destruct (connections s p) eqn:Hc; try done; [|(destruct (not_open p s v Hv) as [l ->]; [by rewrite Hc..|]; by apply (program_kept p s _ (Gone l)))..].
    apply (invariant_step p s _ (Gone (low v))); [done|apply leaves_with_program, leaves_ended|done|apply ended_stands, Hv|].
    cbn. by rewrite fn_lookup_insert.
  - destruct (Hall p) as (v & Hv & Hk). rewrite Hp in Hk. apply (break_kept p s _ v); try done. by apply Hk.
  - by apply crash_kept.
Qed.

Lemma reachable_kept d s :
  (forall p, NoDup (directory p)) -> sound d -> reachable d s -> invariant s /\ names d `prefix_of` names (committed s).
Proof.
  intros Hdir Hd. induction 1 as [|s s' _ [IH Hpre] Hstep].
  - split; [|done]. split; [done|]. intros p. exists Before. split; [by split; [apply prefix_nil|]|]. by apply migrate_knows.
  - destruct (step_kept s s' IH Hstep) as [Hi Hp]. split; [done|by etrans].
Qed.

(** ** One process alone *)

(** What the server does with a statement when nothing goes wrong. *)
Definition perform {X} (s : statement X) (d : database) (t : transaction) : database * transaction * result X :=
  match s in statement X return database * transaction * result X with
  | AdvisoryLock | AdvisoryUnlock =>
      match t with Aborted => (d, t, Throw error) | _ => (d, t, Return tt) end
  | Begin =>
      match t with
      | Aborted => (d, t, Throw error)
      | Idle => (d, Active d d, Return tt)
      | Active _ _ => (d, t, Return tt)
      end
  | CreateSchemaMigrations =>
      match t with
      | Aborted => (d, t, Throw error)
      | _ => (write d t {| recorded := Some (names (visible d t)); schema := schema (visible d t) |}, Return tt)
      end
  | SelectApplied =>
      match t, recorded (visible d t) with
      | Idle, Some l | Active _ _, Some l => (d, t, Return l)
      | _, _ => (d, failing SelectApplied t, Throw error)
      end
  | Sql text =>
      match t, apply text (schema (visible d t)) with
      | Idle, Some changed | Active _ _, Some changed =>
          (write d t {| recorded := recorded (visible d t); schema := changed |}, Return tt)
      | _, _ => (d, failing (Sql text) t, Throw error)
      end
  | InsertApplied filename =>
      match t, recorded (visible d t) with
      | Idle, Some l | Active _ _, Some l =>
          if decide (filename ∈ l) then (d, failing (InsertApplied filename) t, Throw error)
          else (write d t {| recorded := Some (l ++ [filename]); schema := schema (visible d t) |}, Return tt)
      | _, _ => (d, failing (InsertApplied filename) t, Throw error)
      end
  | Commit => (match t with Active _ work => work | _ => d end, Idle, Return tt)
  | Rollback => (d, Idle, Return tt)
  end.

Lemma perform_executes {X} (s : statement X) d t :
  let '(d', t', r) := perform s d t in executes s d t d' t' r.
Proof.
  unfold executes. destruct s, t; simpl; try (left; by eauto 10); try (right; by eauto);
    repeat (case_match; simpl); simplify_eq; try (right; by eauto); left; eauto 12.
Qed.
#[local] Instance taken_dec {X} (st : statement X) p held : Decision (taken st p held).
Proof. destruct st; cbn; tc_solve. Defined.

(** A process to which every call answers; only a lock held elsewhere would end in
    a broken connection. *)
Definition alone (p : nat) (X : Type) (e : migration X) (s : system) : system * result X :=
  match e in migration X return system * result X with
  | Connect =>
      match connections s p with Unconnected => (with_connection p Open s, Return tt) | _ => (s, Throw error) end
  | Query X st =>
      match connections s p with
      | Open =>
          if decide (taken st p (holder s)) then
            let '(d', t', r) := perform st (committed s) (transactions s p) in (after_statement st r p d' t' s, r)
          else (with_connection p (Broken None) s, Throw error)
      | _ => (s, Throw error)
      end
  | ReadDirectory => (s, Return (directory p))
  | ReadFile filename => (s, Return (contents filename))
  | End => (match connections s p with Open => ended p s | _ => s end, Return tt)
  end.

(** It runs to its end, with [Q]. *)
Definition ends (p : nat) {A} (m : io migration A) (Q : system -> A -> Prop) (s : system) : Prop :=
  let '(s', a) := run (alone p) m s in Q s' a.

Lemma ends_bind p {A B} (m : io migration A) (f : A -> io migration B) Q s :
  ends p m (fun s' a => ends p (f a) Q s') s -> ends p (io_bind m f) Q s.
Proof. unfold ends. rewrite run_bind. by destruct (run (alone p) m s). Qed.

Lemma ends_async_bind p {A B} (m : async migration A) (f : A -> async migration B) Q s :
  ends p m (fun s' r => match r with Return a => ends p (f a) Q s' | Throw e => Q s' (Throw e) end) s ->
  ends p (async_bind m f) Q s.
Proof. unfold ends. rewrite run_async_bind. by destruct (run (alone p) m s) as [s' [a|e]]. Qed.

Lemma ends_mono p {A} (m : io migration A) (P Q : system -> A -> Prop) s :
  (forall s' a, P s' a -> Q s' a) -> ends p m P s -> ends p m Q s.
Proof. unfold ends. destruct (run (alone p) m s). auto. Qed.

(** A connection and its transaction. *)
Record session (p : nat) (d : database) (held : option nat) (t : transaction) (s : system) : Prop := {
  se_committed : committed s = d;
  se_holder : holder s = held;
  se_open : connections s p = Open;
  se_transaction : transactions s p = t
}.

Lemma ends_query p {X} (st : statement X) d held t Q s :
  session p d held t s -> taken st p held ->
  (forall s', let '(d', t', r) := perform st d t in session p d' (holder_after st r p held) t' s' -> Q s' r) ->
  ends p (query st) Q s.
Proof.
  intros [<- <- Ho <-] Ht HQ. unfold ends, query. rewrite run_call. cbn [alone]. rewrite Ho, decide_True by done.
  specialize (HQ (after_statement st (perform st (committed s) (transactions s p)).2 p
    (perform st (committed s) (transactions s p)).1.1 (perform st (committed s) (transactions s p)).1.2 s)).
  destruct (perform st (committed s) (transactions s p)) as [[d' t'] r]. apply HQ. split; cbn; try done. apply fn_lookup_insert.
Qed.

Lemma ends_held p {X} (st : statement X) d t Q s :
  session p d (Some p) t s ->
  (forall s', let '(d', t', r) := perform st d t in session p d' (holder_after st r p (Some p)) t' s' -> Q s' r) ->
  ends p (query st) Q s.
Proof. intros Hs. apply (ends_query _ _ _ _ _ _ _ Hs). destruct st; cbn; auto. Qed.

Lemma ends_call p {X} (e : migration X) Q s : (let '(s', r) := alone p X e s in Q s' r) -> ends p (call e) Q s.
Proof. unfold ends. by rewrite run_call. Qed.

(** One migration: applied and recorded, or rolled back. *)
Lemma applyMigration_alone p d f s Q :
  session p d (Some p) Idle s -> recorded d = Some (names d) -> f ∉ names d ->
  (forall s' changed, apply (contents f) (schema d) = Some changed ->
     session p (migrated d f changed) (Some p) Idle s' -> Q s' (Return tt)) ->
  (forall s', apply (contents f) (schema d) = None -> session p d (Some p) Idle s' -> Q s' (Throw error)) ->
  ends p (applyMigration f) Q s.
Proof.
  intros Hs Hd Hf Hdone Hfail. unfold applyMigration. apply ends_async_bind, ends_call. cbn [alone].
  apply ends_async_bind, (ends_held _ _ _ _ _ _ Hs). intros s1 Hs1. unfold try_catch. apply ends_bind, ends_async_bind,
    (ends_held _ _ _ _ _ _ Hs1). intros s2. cbn [perform visible]. destruct (apply (contents f) (schema d)) as [changed|] eqn:Hc; cbn [write].
  - intros Hs2. apply ends_async_bind, (ends_held _ _ _ _ _ _ Hs2). intros s3. cbn [perform visible recorded schema].
    rewrite Hd, decide_False by done. cbn [write]. intros Hs3. apply (ends_held _ _ _ _ _ _ Hs3). intros s4 Hs4.
    by apply (Hdone s4 changed).
  - intros Hs2. apply ends_async_bind, (ends_held _ _ _ _ _ _ Hs2). intros s3 Hs3. by apply Hfail.
Qed.

(** What migrating should do: the files in turn, up to the first that fails. *)
Fixpoint apply_all (d : database) (files : list string) : database * result unit :=
  match files with
  | [] => (d, Return tt)
  | f :: files =>
      match apply (contents f) (schema d) with
      | Some changed => apply_all (migrated d f changed) files
      | None => (d, Throw error)
      end
  end.

Lemma applyMigrations_alone p applied d files s Q :
  session p d (Some p) Idle s -> recorded d = Some (names d) -> NoDup files ->
  (forall f, f ∈ files -> f ∈ applied <-> f ∈ names d) ->
  (forall s', session p (apply_all d (filter (fun f => f ∉ names d) files)).1 (Some p) Idle s' ->
     Q s' (apply_all d (filter (fun f => f ∉ names d) files)).2) ->
  ends p (applyMigrations applied files) Q s.
Proof.
  revert d s; induction files as [|f files IH]; intros d s Hs Hd Hnd Hin HQ; cbn [applyMigrations]; [by apply HQ|].
  apply NoDup_cons in Hnd as [Hf Hnd]. unfold has. assert (Hfile : f ∈ applied <-> f ∈ names d) by (apply Hin; left).
  revert HQ. rewrite !filter_cons. case_bool_decide as Happ; [rewrite decide_False by tauto|rewrite decide_True by tauto];
    intros HQ; [apply (IH d); try done; intros g Hg; apply Hin; by right|]. cbn [apply_all] in HQ.
  apply ends_async_bind, (applyMigration_alone p d f); [done|done|tauto| |].
  - intros s' changed Hc Hs'. rewrite Hc in HQ. assert (Hne : forall g, g ∈ files -> g ∈ names (migrated d f changed) <-> g ∈ names d).
    { intros g Hg. unfold names, migrated. cbn. rewrite elem_of_app, list_elem_of_singleton. split; [|by left].
      intros [|He]; [done|]. by subst g. }
    assert (Hfl : filter (fun g => g ∉ names (migrated d f changed)) files = filter (fun g => g ∉ names d) files).
    { apply filter_same. intros g Hg. by rewrite Hne. }
    apply (IH (migrated d f changed)); try done.
    + intros g Hg. rewrite Hne by done. apply Hin. by right.
    + by rewrite Hfl.
  - intros s' Hc Hs'. rewrite Hc in HQ. by apply HQ.
Qed.

(** The run is one of those of the whole system. *)
Record alike (p : nat) (s s' : system) : Prop := {
  al_committed : committed s' = committed s;
  al_holder : holder s' = holder s;
  al_connection : connections s' p = connections s p;
  al_transaction : transactions s' p = transactions s p
}.

Lemma alike_program p m s s1 : alike p s s1 -> alike p s (with_program p m s1).
Proof. by intros [Hd Hh Hc Ht]. Qed.

Lemma alone_step d p s s1 X (e : migration X) k :
  reachable d s1 -> programs s1 p = Await e k -> alike p s s1 ->
  let '(s', r) := alone p X e s in exists s2, reachable d s2 /\ programs s2 p = k r /\ alike p s' s2.
Proof.
  intros Hr Hp Ha. pose proof Ha as [Hd Hh Hc Ht]. destruct e; cbn [alone].
  - destruct (connections s p) eqn:Hconn.
    { eexists. split; [eapply reachable_step; [done|]; by eapply step_connect with (r := Return tt)|].
      split; [apply fn_lookup_insert|]. split; cbn; rewrite ?fn_lookup_insert; congruence. }
    all: eexists; split; [eapply reachable_step; [done|]; eapply step_reconnect with (e := error); [done|by rewrite Hc]|].
    all: by split; [apply fn_lookup_insert|apply alike_program].
  - destruct (connections s p) eqn:Hconn.
    1, 3, 4: eexists; split; [eapply reachable_step; [done|]; eapply step_unsent with (e := error); [done|by rewrite Hc]|].
    1, 2, 3: by split; [apply fn_lookup_insert|apply alike_program].
    destruct (decide _) as [Htk|Htk].
    + pose proof (perform_executes s0 (committed s) (transactions s p)) as He.
      destruct (perform s0 (committed s) (transactions s p)) as [[d' t'] r]. eexists. split; [eapply reachable_step; [done|]|].
      * eapply step_query; [done|done|by rewrite Hh|by rewrite Hd, Ht].
      * split; [apply fn_lookup_insert|]. split; cbn; rewrite ?fn_lookup_insert, ?Hh; congruence.
    + eexists. split; [eapply reachable_step; [done|]; eapply step_break with (e := error); [done|done|by left]|].
      split; [apply fn_lookup_insert|]. split; cbn; rewrite ?fn_lookup_insert; congruence.
  - eexists. split; [eapply reachable_step; [done|]; eapply step_directory with (r := Return (directory p)); [done|by intros l [= <-]]|].
    by split; [apply fn_lookup_insert|apply alike_program].
  - eexists. split; [eapply reachable_step; [done|]; eapply step_file with (r := Return (contents filename)); [done|by intros l [= <-]]|].
    by split; [apply fn_lookup_insert|apply alike_program].
  - eexists. split; [eapply reachable_step; [done|]; by eapply step_end with (r := Return tt)|]. rewrite Hc.
    split; [apply fn_lookup_insert|]. destruct (connections s p); try by apply alike_program.
    split; cbn; rewrite ?fn_lookup_insert, ?Hh; congruence.
Qed.

Lemma alone_reachable d p (m : io migration (result unit)) s s1 :
  reachable d s1 -> programs s1 p = m -> alike p s s1 ->
  ends p m (fun s' r => exists s2, reachable d s2 /\ programs s2 p = Done r /\ alike p s' s2) s.
Proof.
  unfold ends. revert s s1; induction m as [r|X e k IH]; intros s s1 Hr Hp Ha; cbn [run]; [by exists s1|].
  pose proof (alone_step d p s s1 X e k Hr Hp Ha) as Hs. destruct (alone p X e s) as [s' r].
  destruct Hs as (s2 & Hr2 & Hp2 & Ha2). by eapply IH.
Qed.

Lemma alone_end d p s :
  reachable d s ->
  exists s2, reachable d s2 /\ programs s2 p = Done (run (alone p) (programs s p) s).2
    /\ alike p (run (alone p) (programs s p) s).1 s2.
Proof.
  intros Hr. assert (Ha : alike p s s) by by split. pose proof (alone_reachable d p _ s s Hr eq_refl Ha) as H.
  unfold ends in H. by destruct (run (alone p) (programs s p) s).
Qed.

Lemma apply_all_recorded d files d' : NoDup files -> apply_all d files = (d', Return tt) -> forall f, f ∈ files \/ f ∈ names d -> f ∈ names d'.
Proof.
  revert d; induction files as [|f files IH]; intros d Hnd; cbn [apply_all].
  { intros [= <-] f [Hf%not_elem_of_nil|]; done. }
  apply NoDup_cons in Hnd as [_ Hnd]. destruct (apply _ _) as [changed|]; [|done]. intros Hrun g Hg.
  eapply IH; [done|done|]. change (names (migrated d f changed)) with (names d ++ [f]). set_solver.
Qed.

(** ** Properties *)

(** C4. Migrations happen once, whole and in order. Let any number of processes
    migrate one server, each with its own files of which no two disagree on a text,
    while statements fail, connections break before or after a statement is taken and
    processes crash, in any interleaving. The schema is then always what the recorded
    migrations make of the empty one, applied one after the other, none twice; recorded
    migrations stay recorded; where all processes have the same files the recorded ones
    are the first of them in the order of their names; and a process that returned
    leaves every file it has recorded. *)
Theorem migrations_once d s :
  (forall p, NoDup (directory p)) -> sound d -> reachable d s ->
  replay (names (committed s)) = Some (schema (committed s))
  /\ NoDup (names (committed s))
  /\ names d `prefix_of` names (committed s)
  /\ (forall files, same_files files -> names (committed s) `prefix_of` files)
  /\ (forall p, programs s p = Done (Return tt) ->
      forall f, f ∈ migrationFiles (directory p) -> f ∈ names (committed s)).
Proof.
  intros Hdir Hd Hr. destruct (reachable_kept d s Hdir Hd Hr) as [[[H1 H2 H3] Hall] Hp]. split_and!; try done.
  intros p Hdone f Hf. destruct (Hall p) as (v & [Hl _] & Hk). rewrite Hdone in Hk.
  specialize (Hk eq_refl f Hf). by eapply elem_of_prefix.
Qed.

(** C28. What one run does. A process that migrates while the lock is free and its
    calls are answered creates the table of migrations if it is missing and applies
    the files not recorded there, in the order of their names, up to the first whose
    text is an error: that one is rolled back and not recorded, and its error is what
    [migrate] reports. Either way the lock is free again and the connection closed, and
    after a run without error there is nothing left to apply, so that another run
    changes nothing. *)
Theorem migrate_alone d p s s' r d' r' :
  NoDup (directory p) -> reachable d s -> programs s p = migrate ->
  connections s p = Unconnected -> transactions s p = Idle -> holder s = None ->
  apply_all {| recorded := Some (names (committed s)); schema := schema (committed s) |}
    (filter (fun f => f ∉ names (committed s)) (migrationFiles (directory p))) = (d', r) ->
  run (alone p) migrate s = (s', r') ->
  r' = r /\ committed s' = d' /\ holder s' = None /\ connections s' p = Closed
  /\ (r = Return tt -> filter (fun f => f ∉ names d') (migrationFiles (directory p)) = [])
  /\ exists s2, reachable d s2 /\ programs s2 p = Done r /\ alike p s' s2.
Proof.
  intros Hdir Hr Hp Hc Ht Hh Hall Hrun. set (start := {| recorded := _; schema := _ |}) in Hall.
  destruct (alone_end d p s Hr) as (last & Hreach). rewrite Hp, Hrun in Hreach. cbn [fst snd] in Hreach.
  assert (Hends : ends p migrate (fun s' r' => r' = r /\ committed s' = d' /\ holder s' = None /\ connections s' p = Closed) s).
  2: { unfold ends in Hends. rewrite Hrun in Hends. destruct Hends as (-> & H1 & H2 & H3).
       split_and!; try done; [|by exists last]. intros ->. apply elem_of_nil_inv. intros f [Hno Hf]%list_elem_of_filter.
       destruct (decide (f ∈ names (committed s))) as [Hin|Hout]; apply Hno;
         (eapply apply_all_recorded; [|exact Hall|]); [by apply NoDup_filter, migrationFiles_NoDup|by right
           |by apply NoDup_filter, migrationFiles_NoDup|left; by apply list_elem_of_filter]. }
  unfold migrate. apply ends_async_bind, ends_call. cbn [alone]. rewrite Hc.
  assert (Hs : session p (committed s) None Idle (with_connection p Open s)).
  { split; cbn; rewrite ?fn_lookup_insert; done. }
  apply ends_async_bind, (ends_query _ _ _ _ _ _ _ Hs); [by left|]. intros s1 Hs1. cbn [perform holder_after] in Hs1.
  unfold try_finally. apply ends_bind, ends_async_bind, (ends_held _ _ _ _ _ _ Hs1). intros s2 Hs2.
  cbn [perform write visible] in Hs2. fold start in Hs2. apply ends_async_bind, ends_call. cbn [alone].
  apply ends_async_bind, (ends_held _ _ _ _ _ _ Hs2). intros s3 Hs3. cbn [perform visible recorded start] in Hs3.
  apply (applyMigrations_alone _ _ start); [exact Hs3|done|by apply migrationFiles_NoDup|intros f _; apply new_Set_elem|].
  change (names start) with (names (committed s)). rewrite Hall. intros s4 Hs4. cbn [fst snd] in *.
  apply ends_bind, ends_async_bind, (ends_held _ _ _ _ _ _ Hs4). intros s5 Hs5. cbn [perform holder_after] in Hs5.
  rewrite decide_True in Hs5 by done. apply ends_call. cbn [alone]. rewrite (se_open _ _ _ _ _ Hs5).
  unfold ends. cbn. rewrite (se_holder _ _ _ _ _ Hs5). split_and!; [done|apply Hs5|done|apply fn_lookup_insert].
Qed.
End Server.

(** ** Witnesses *)

(** A schema is the list of texts applied; a text that is empty is an error. *)
Definition toy_apply (text : string) (schema : list string) : option (list string) :=
  if String.eqb text "" then None else Some (schema ++ [text]).

Definition toy_contents (filename : string) : string :=
  if String.eqb filename "003_broken.sql" then "" else "-- " +:+ filename.

Definition demo_directory (p : nat) : list string :=
  ["002_create_code_block_sequence.sql"; "README.md"; "003_broken.sql"; "001_create_links.sql"].

Definition two_files (p : nat) : list string := ["002_create_code_block_sequence.sql"; "001_create_links.sql"].

Definition no_schema : @database (list string) := {| recorded := None; schema := [] |}.

Lemma no_schema_sound directory : sound toy_apply directory toy_contents [] no_schema.
Proof. split; [done|apply NoDup_nil_2|intros files _; apply prefix_nil]. Qed.

Definition demo_end (directory : nat -> list string) (p : nat) : system * result unit :=
  run (alone toy_apply "broken" directory toy_contents p) migrate (fresh no_schema).

Definition both_names : list string := ["001_create_links.sql"; "002_create_code_block_sequence.sql"].

Lemma two_files_run : (demo_end two_files 7).2 = Return tt /\ names (committed (demo_end two_files 7).1) = both_names.
Proof. lazy. split; reflexivity. Qed.

Lemma two_files_end : exists s, reachable toy_apply "broken" two_files toy_contents no_schema s
  /\ programs s 7 = Done (demo_end two_files 7).2 /\ alike 7 (demo_end two_files 7).1 s.
Proof.
  exact (alone_end toy_apply "broken" two_files toy_contents no_schema 7 (fresh no_schema) (reachable_fresh _ _ _ _ _)).
Qed.

Lemma two_files_distinct p : NoDup (two_files p).
Proof. apply NoDup_cons. split; [|apply NoDup_singleton]. by intros ?%list_elem_of_singleton. Qed.

Lemma migrations_once_witness :
  exists s, reachable toy_apply "broken" two_files toy_contents no_schema s
  /\ programs s 7 = Done (Return tt) /\ names (committed s) = both_names
  /\ replay toy_apply toy_contents [] (names (committed s)) = Some (schema (committed s)).
Proof.
  destruct two_files_end as (s & Hs & Hp & Ha). destruct two_files_run as [Hr Hn]. exists s. split; [exact Hs|].
  split; [by rewrite Hp, Hr|]. split; [by rewrite (al_committed _ _ _ Ha)|].
  apply (migrations_once toy_apply "broken" two_files toy_contents [] no_schema s two_files_distinct); [apply no_schema_sound|exact Hs].
Defined.

(** The files of [demo_directory] but the broken one are applied. *)
Definition demo_expected : @database (list string) * result unit :=
  ({| recorded := Some both_names; schema := ["-- 001_create_links.sql"; "-- 002_create_code_block_sequence.sql"] |}, Throw "broken").

Lemma demo_distinct : NoDup (demo_directory 0).
Proof. apply (bool_decide_unpack _). vm_compute. exact I. Qed.

Lemma demo_applied :
  apply_all toy_apply "broken" toy_contents
    {| recorded := Some (names (committed (fresh no_schema))); schema := schema (committed (fresh no_schema)) |}
    (filter (fun f => f ∉ names (committed (fresh no_schema))) (migrationFiles (demo_directory 0))) = demo_expected.
Proof. lazy. reflexivity. Qed.

Lemma migrate_alone_witness :
  (demo_end demo_directory 0).2 = Throw "broken" /\ names (committed (demo_end demo_directory 0).1) = both_names
  /\ holder (demo_end demo_directory 0).1 = None.
Proof.
  pose proof (migrate_alone toy_apply "broken" demo_directory toy_contents no_schema 0 (fresh no_schema) (demo_end demo_directory 0).1
    demo_expected.2 demo_expected.1 (demo_end demo_directory 0).2 demo_distinct (reachable_fresh _ _ _ _ _) eq_refl eq_refl eq_refl eq_refl
    demo_applied (surjective_pairing _)) as (-> & -> & -> & _). done.
Defined.
