(* ===== verification/CachedStore.v ===== *)
(** * The cached store

    [CachedLinkStore] of src/src/store/cached-link-store.ts: a read-through
    cache of links in Redis in front of another store. *)
From S2P Require Import Prelude JsNum JsString JsDate Keys ClickBuffer Async Link Redis Sql World Interleave PostgresStore.
Open Scope Z_scope.

Definition INCREMENT_CACHED_CLICK (KEYS ARGV : list string) : script reply :=
  arg key <- KEYS # 1;
  local exists_ <- EXISTS key;
  if bool_decide (exists_ = Int 1) then call (redis_call (HINCRBY key "clicks" 1))
  else resolve (Int 0).

(** The constructor's arguments; the click buffer is the one of the world. *)
Record CachedLinkStore : Type := {
  source : LinkStore;
  ttlSeconds : Z;
  clickBuffer : option ClickBuffer.config
}.

Section Store.
(** [new Date(text)] and [Number(text)] of texts the program does not write;
    [otherNumber] gives no result where [Number] gives no safe integer. *)
Context (otherDate : string -> option Z) (otherNumber : string -> option Z).

Definition numberOf (text : string) : option Z :=
  match read_integer text with
  | Some n => Some (to_double n)
  | None => otherNumber text
  end.

(** [!values.field]: absent or empty. *)
Definition truthy (text : option string) : bool :=
  match text with None | Some "" => false | Some _ => true end.

(** [expiresAtValue ? new Date(expiresAtValue) : null]; [None] is an invalid date. *)
Definition expiresOf (text : option string) : option (option Z) :=
  match text with
  | None | Some "" => Some None
  | Some text => Some <$> parseDate otherDate text
  end.

(** The link a hash stands for, or nothing when the entry is to be deleted. *)
Definition linkOf (values : gmap string string) : option Link :=
  if negb (truthy (values !! "code")) || negb (truthy (values !! "targetUrl"))
     || negb (truthy (values !! "createdAt")) || bool_decide (values !! "clicks" = None)
  then None
  else
    match parseDate otherDate (default "" (values !! "createdAt")), expiresOf (values !! "expiresAt"),
          numberOf (default "" (values !! "clicks")) with
    | Some createdAt, Some expiresAt, Some clicks =>
        if negb (isSafeInteger clicks) || (clicks <? 0) then None
        else Some {| code := default "" (values !! "code"); targetUrl := default "" (values !! "targetUrl");
                     createdAt := createdAt; expiresAt := expiresAt; clicks := clicks |}
    | _, _, _ => None
    end.

Context (self : CachedLinkStore).

Definition forget (key : string) : async effect (option Link) :=
  await_ redis_eval (call (redis_call (DEL key)));
  resolve None.

Definition readSafely (code : string) : async effect (option Link) :=
  await ready <- isReady;
  if negb ready then resolve None
  else
    try_catch
      (await key <- lift (linkKey code);
       await values <- redis_eval (call (redis_call (HGETALL key)));
       match values with
       | Fields values =>
           if bool_decide (values = ∅) then resolve None
           else
             match linkOf values with
             | None => forget key
             | Some link =>
                 match expiresAt link with
                 | None => resolve (Some link)
                 | Some expires =>
                     await t <- now;
                     if expires <=? t then forget key else resolve (Some link)
                 end
             end
       | _ => reject "unexpected reply"
       end)
      (fun _ => resolve None).

(** [expiresAt?.toISOString() ?? ""]. *)
Definition isoOr (date : option Z) : result string :=
  match date with Some t => toISOString t | None => Return "" end.

(** The transaction; its arguments are computed before it is sent. *)
Definition cacheFields (link : Link) (ttl : Z) : async effect unit :=
  await key <- lift (linkKey (code link));
  await created <- lift (toISOString (createdAt link));
  await expires <- lift (isoOr (expiresAt link));
  await_ redis_eval (multi
    [HSET key [("code", code link); ("targetUrl", targetUrl link); ("createdAt", created);
               ("expiresAt", expires); ("clicks", js_String (clicks link))];
     EXPIRE key ttl]);
  resolve tt.

Definition cache (link : Link) : async effect unit :=
  match expiresAt link with
  | None => cacheFields link (ttlSeconds self)
  | Some expires =>
      await t <- now;
      let remainingSeconds := (expires - t) / 1000 in
      if remainingSeconds <=? 0 then
        await key <- lift (linkKey (code link));
        await_ redis_eval (call (redis_call (DEL key)));
        resolve tt
      else cacheFields link (Z.min (ttlSeconds self) remainingSeconds)
  end.

Definition cacheSafely (link : Link) : async effect unit :=
  await ready <- isReady;
  if negb ready then resolve tt else try_catch (cache link) (fun _ => resolve tt).

Definition cached (link : option Link) : async effect (option Link) :=
  match link with
  | Some l => await_ cacheSafely l; resolve link
  | None => resolve link
  end.

Definition create (input : CreateLinkInput) : async effect (option Link) :=
  await link <- store_create (source self) input;
  cached link.

Definition find (code : string) : async effect (option Link) :=
  await hit <- readSafely code;
  match hit with
  | Some link => resolve (Some link)
  | None => await link <- store_find (source self) code; cached link
  end.

(** Where the click is counted: the buffer, or the source without one. *)
Definition countClick (code : string) : async effect unit :=
  match clickBuffer self with
  | Some cfg => bufferClick cfg code
  | None => store_recordClick (source self) code
  end.

Definition recordClick (code : string) : async effect unit :=
  await_ countClick code;
  await ready <- isReady;
  if negb ready then resolve tt
  else
    try_catch
      (await key <- lift (linkKey code);
       await_ redis_eval (INCREMENT_CACHED_CLICK [key] []);
       resolve tt)
      (fun _ => resolve tt).

Definition store : LinkStore :=
  {| store_create := create; store_find := find; store_recordClick := recordClick;
     store_size := store_size (source self); store_isHealthy := store_isHealthy (source self) |}.
End Store.

(** ** What the cache may answer

    The rows of the table are the truth: they are never removed, and nothing
    of them but their clicks changes. In write-behind mode there is more of it,
    the links whose queue record Redis has taken and PostgreSQL does not have
    yet: Redis has them in the cache from the start. *)
Class Backlog : Type := {
  admissible : string -> Prop;   (* the targets of links that may be pending *)
  pending : state -> string -> Link -> Prop;
  pending_code s c link : pending s c link -> code link = c;
  pending_clicks s c link n : pending s c link -> pending s c (with_clicks link n);
  pending_grows s s' c link : log_grows s s' -> pending s c link -> pending s' c link
}.

(** In synchronous mode nothing is pending. *)
Definition no_backlog : Backlog.
Proof. refine {| admissible _ := True; pending _ _ _ := False |}; done. Defined.

(** The queue record of a link. *)
Definition record_of (link : Link) : PendingLink :=
  {| p_code := code link; p_targetUrl := targetUrl link; p_createdAt := createdAt link; p_expiresAt := expiresAt link |}.

(** In write-behind mode: links whose record was appended to a queue, and among
    them those with a target in [P]. *)
Definition queued_link (P : string -> Prop) (s : state) (c : string) (link : Link) : Prop :=
  code link = c /\ P (targetUrl link)
  /\ exists shard record, RPUSH (queue_key shard) record ∈ s.2 /\ serializePendingLink (record_of link) = Return record.

Definition queue_backlog (P : string -> Prop) : Backlog.
Proof.
  refine {| admissible := P; pending := queued_link P |}.
  - by intros s c link [? _].
  - by intros s c [] n (? & ? & ?).
  - intros s s' c link [tl Htl] (Hc & Ht & shard & record & Hin & Hr). split_and!; [done..|].
    exists shard, record. split; [|done]. rewrite Htl. apply elem_of_app. by left.
Defined.

Section Honesty.
Context `{Redis} `{Postgres} {Bl : Backlog}.
Context (otherDate : string -> option Z) (otherNumber : string -> option Z).

Definition serves (w : world) (c : string) (link : Link) : Prop :=
  exists r, Sql.links (db w) !! c = Some r
    /\ link = with_clicks (read_link c r) (clicks link).

Lemma serves_kept w w' c link : rows_kept w w' -> serves w c link -> serves w' c link.
Proof.
  intros Hk (r & Hr & ->). destruct (Hk _ _ Hr) as (r' & Hr' & Hu & Hc & He).
  exists r'. split; [done|]. unfold with_clicks, read_link; simpl. by rewrite Hu, Hc, He.
Qed.

(** The link is in the table, or it is still to come there. *)
Definition vouched (s : state) (c : string) (link : Link) : Prop := serves s.1 c link \/ pending s c link.

Lemma vouched_kept s s' c link : rows_kept s.1 s'.1 -> log_grows s s' -> vouched s c link -> vouched s' c link.
Proof. intros Hr Hl [Hs|Hp]; [left; by eapply serves_kept|right; by eapply pending_grows]. Qed.

(** The link a hash stands for, but for its clicks. *)
Definition identity (h : gmap string string) : option Link :=
  if truthy (h !! "code") && truthy (h !! "targetUrl") && truthy (h !! "createdAt") then
    match parseDate otherDate (default "" (h !! "createdAt")), expiresOf otherDate (h !! "expiresAt") with
    | Some createdAt, Some expiresAt =>
        Some {| code := default "" (h !! "code"); targetUrl := default "" (h !! "targetUrl");
                createdAt := createdAt; expiresAt := expiresAt; clicks := 0 |}
    | _, _ => None
    end
  else None.

Lemma linkOf_identity h link :
  linkOf otherDate otherNumber h = Some link -> identity h = Some (with_clicks link 0).
Proof.
  unfold linkOf, identity. destruct (truthy (h !! "code")), (truthy (h !! "targetUrl")),
    (truthy (h !! "createdAt")); try done; simpl.
  case_bool_decide; [done|]. destruct (parseDate _ _); [|done]. destruct (expiresOf _ _); [|done].
  destruct (numberOf _ _); [|done]. destruct (_ || _); [done|]. by intros [= <-].
Qed.

Lemma identity_ext h h' : (forall f, f <> "clicks" -> h' !! f = h !! f) -> identity h' = identity h.
Proof. intros Hf. unfold identity. by rewrite !Hf. Qed.

(** Every cached hash stands for a link of its code, stored or pending. *)
Definition coherent (s : state) : Prop :=
  forall c h link, hash_at (ks s.1) (link_key c) = Return h -> identity h = Some link -> vouched s c link.

(** What every process keeps: the rows, the record of what Redis took, and a
    coherent cache. *)
Definition keeps (s s' : state) : Prop :=
  rows_kept s.1 s'.1 /\ log_grows s s' /\ (coherent s -> coherent s').

Lemma keeps_refl s : keeps s s.
Proof. split_and!; [apply rows_kept_refl|by unfold log_grows|done]. Qed.

Lemma keeps_trans a b c : keeps a b -> keeps b c -> keeps a c.
Proof.
  intros (H1 & L1 & C1) (H2 & L2 & C2). split_and!; [by eapply rows_kept_trans|unfold log_grows in *; by etrans|auto].
Qed.

Lemma keeps_vouched s s' c link : keeps s s' -> vouched s c link -> vouched s' c link.
Proof. intros (Hr & Hl & _). by apply vouched_kept. Qed.

Lemma keeps_serves s s' c link : keeps s s' -> serves s.1 c link -> serves s'.1 c link.
Proof. intros (Hr & _). by apply serves_kept. Qed.

Lemma coherent_same s s' : ks s'.1 = ks s.1 -> rows_kept s.1 s'.1 -> log_grows s s' -> coherent s -> coherent s'.
Proof.
  intros Hks Hr Hl Hc c h link Hh Hi. rewrite Hks in Hh. eapply vouched_kept; [done..|]. by eapply Hc.
Qed.

Lemma keeps_rows s s' : ks s'.1 = ks s.1 -> s'.2 = s.2 -> rows_kept s.1 s'.1 -> keeps s s'.
Proof.
  intros Hks Hlog Hr. assert (log_grows s s') by (unfold log_grows; by rewrite Hlog).
  split_and!; [done..|]. by apply coherent_same.
Qed.

Lemma keeps_quiet s s' : quiet s s' -> keeps s s'.
Proof.
  intros (Hks & Hdb & cs & Hlog & _). assert (Hr : rows_kept s.1 s'.1) by (intros c r Hr; exists r; by rewrite Hdb).
  assert (log_grows s s') by by exists cs. split_and!; [done..|]. by apply coherent_same.
Qed.

(** A step of Redis that writes at most one hash, and a truthful one. *)
Lemma keeps_redis s k cs :
  (forall c h link, hash_at k (link_key c) = Return h -> identity h = Some link ->
     (exists h', hash_at (ks s.1) (link_key c) = Return h' /\ identity h' = Some link)
     \/ vouched (after s k cs) c link) ->
  keeps s (after s k cs).
Proof.
  intros Hk. assert (Hr : rows_kept s.1 (after s k cs).1) by by intros c r Hr; exists r.
  assert (Hl : log_grows s (after s k cs)) by by exists cs. split_and!; [done..|]. intros Hc c h link Hh Hi.
  destruct (Hk c h link Hh Hi) as [(h' & Hh' & Hi')|Hs]; [|exact Hs].
  eapply vouched_kept; [done..|]. exact (Hc c h' link Hh' Hi').
Qed.

Lemma keeps_frame s k cs c0 :
  (forall key, key <> link_key c0 -> k !! key = ks s.1 !! key) ->
  (forall h link, hash_at k (link_key c0) = Return h -> identity h = Some link ->
     (exists h', hash_at (ks s.1) (link_key c0) = Return h' /\ identity h' = Some link)
     \/ vouched (after s k cs) c0 link) ->
  keeps s (after s k cs).
Proof.
  intros Hf Hc0. apply keeps_redis. intros c h link Hh Hi.
  destruct (decide (c = c0)) as [->|Hne]; [by eapply Hc0|]. left. exists h. split; [|done].
  rewrite <- Hh. apply hash_at_ext. symmetry. apply Hf. by intros ?%link_key_inj.
Qed.

Lemma identity_empty : identity ∅ = None.
Proof. unfold identity. by rewrite lookup_empty. Qed.

Lemma keeps_delete s cs c : keeps s (after s (delete (link_key c) (ks s.1)) cs).
Proof.
  apply (keeps_frame _ _ _ c).
  - intros key Hne. by apply lookup_delete_ne.
  - intros h link. unfold hash_at. rewrite lookup_delete_eq. intros [= <-]. by rewrite identity_empty.
Qed.

(** ** Each operation *)

Abbreviation any_choice := (fun _ : choice => True).
Abbreviation safely := (safe any_choice keeps keeps).

Lemma safely_redis {X} (sc : script X) Q s :
  (forall s1, keeps s s1 ->
     let '(k, cs, r) := logged sc (ks s1.1) in
     keeps s1 (after s1 k cs) /\ forall s2, keeps (after s1 k cs) s2 -> Q s2 r) ->
  (forall s1, Q s1 (Throw DISCONNECTED)) ->
  safely (redis_eval sc) Q s.
Proof. intros Hr Hl. apply safe_redis; [intros; apply keeps_refl|done|done]. Qed.

Lemma safely_local {X} (e : effect X) Q s :
  is_local e = true ->
  (forall s1 s2 c, keeps s s1 -> keeps s s2 -> Q s2 (perform c X e s1.1).2) ->
  safely (call e) Q s.
Proof.
  intros He HQ. apply safe_local; [done|by apply keeps_quiet|].
  intros s1 s2 s3 c H1 H2 H3 _. apply HQ; [done|].
  eapply keeps_trans; [exact H1|]. eapply keeps_trans; [by apply keeps_quiet|exact H3].
Qed.

(** The continuation of a call that only matters by its result. *)
Lemma safely_then {A B} (m : async effect A) (f : A -> async effect B) P (Q : state -> result B -> Prop) s :
  safely m (fun s' r => match r with Return a => P s' a | Throw _ => True end) s ->
  (forall s' a, P s' a -> safely (f a) Q s') ->
  (forall s' e, Q s' (Throw e)) ->
  safely (async_bind m f) Q s.
Proof.
  intros Hm Hf He. eapply (safe_then _ _ _ keeps_refl); [exact Hm|exact Hf|]. intros s' e _ s'' _. apply He.
Qed.

Lemma safely_lift {A B} (a : A) (f : A -> async effect B) Q s :
  safely (f a) Q s -> safely (async_bind (lift (Return a)) f) Q s.
Proof. done. Qed.

Definition answers (c : string) (s : state) (r : result (option Link)) : Prop :=
  match r with Return (Some link) => vouched s c link | _ => True end.

Lemma answers_kept c s s' r : keeps s s' -> answers c s r -> answers c s' r.
Proof. intros Hk. destruct r as [[link|]|]; [|done..]. by apply keeps_vouched. Qed.

Lemma safely_resolve {A} (a : A) (Q : state -> result A -> Prop) s :
  (forall s', keeps s s' -> Q s' (Return a)) -> safely (resolve a) Q s.
Proof. done. Qed.

Lemma forget_safely c s (Q : state -> result (option Link) -> Prop) :
  (forall s', Q s' (Return None)) -> (forall s' e, Q s' (Throw e)) ->
  safely (forget (link_key c)) Q s.
Proof.
  intros HN HT. apply (safely_then _ _ (fun _ _ => True)); [|by intros; apply safely_resolve|done].
  apply safely_redis; [|done]. intros s1 _. rewrite logged_single, execute_DEL.
  split; [apply keeps_delete|done].
Qed.

Definition reads (c : string) (s : state) (r : result (option Link)) : Prop :=
  match r with Return (Some link) => vouched s c link | Return None => True | Throw _ => False end.

Lemma reads_kept c s s' r : keeps s s' -> reads c s r -> reads c s' r.
Proof. intros Hk. destruct r as [[link|]|]; [|done..]. by apply keeps_vouched. Qed.

(** A caught error is no answer at all. *)
Lemma safely_catch {A} (m : async effect A) a (Q : state -> result A -> Prop) s :
  safely m (fun s' r => match r with Return b => forall s'', keeps s' s'' -> Q s'' (Return b)
                        | Throw _ => True end) s ->
  (forall s', Q s' (Return a)) ->
  safely (try_catch m (fun _ => resolve a)) Q s.
Proof.
  intros Hm Ha. apply safe_try_catch; [apply keeps_refl|]. eapply safe_mono; [|exact Hm].
  intros s' [b|e] HQ; [exact HQ|]. intros s'' _. apply Ha.
Qed.

Lemma HGETALL_logged k key :
  logged (call (redis_call (HGETALL key))) k
  = (k, [HGETALL key], match hash_at k key with Return h => Return (Fields h) | Throw e => Throw e end).
Proof. rewrite logged_single, execute_HGETALL. by destruct (hash_at k key). Qed.

(** [isReady], [Date.now()] and [String] conversions never fail. *)
Lemma safely_ready {A} (f : bool -> async effect A) Q s :
  (forall s' b, keeps s s' -> safely (f b) Q s') -> safely (await b <- isReady; f b) Q s.
Proof.
  intros Hf. apply (safe_then _ _ _ keeps_refl _ _ (fun s' r => keeps s s' /\ exists b, r = Return b)).
  - apply safely_local; [done|]. intros s1 s2 c H1 H2. simpl. eauto.
  - intros s' b [Hk _]. by apply Hf.
  - by intros s' e [_ [b [=]]].
Qed.

Lemma safely_now {A} (f : Z -> async effect A) Q s :
  (forall s' t, keeps s s' -> safely (f t) Q s') -> safely (await t <- now; f t) Q s.
Proof.
  intros Hf. apply (safe_then _ _ _ keeps_refl _ _ (fun s' r => keeps s s' /\ exists b, r = Return b)).
  - apply safely_local; [done|]. intros s1 s2 c H1 H2. simpl. eauto.
  - intros s' b [Hk _]. by apply Hf.
  - by intros s' e [_ [b [=]]].
Qed.

Lemma keeps_coherent s s' : keeps s s' -> coherent s -> coherent s'.
Proof. by intros (_ & _ & Hk). Qed.

Lemma keeps_read s cs : keeps s (after s (ks s.1) cs).
Proof. apply keeps_redis. intros c h link Hh Hi. left. by exists h. Qed.

Lemma vouched_with s c link n : vouched s c link -> vouched s c (with_clicks link n).
Proof. intros [(r & Hr & ->)|Hp]; [left; by exists r|right; by apply pending_clicks]. Qed.

Lemma vouched_code s c link : vouched s c link -> code link = c.
Proof. intros [(r & _ & ->)|Hp]; [done|by eapply pending_code]. Qed.

Lemma readSafely_safely c s :
  coherent s -> safely (readSafely otherDate otherNumber c) (reads c) s.
Proof.
  intros Hco. unfold readSafely. apply safely_ready. intros s1 ready H1.
  apply (keeps_coherent _ _ H1) in Hco. destruct ready; cbn [negb]; [|by apply safely_resolve].
  apply safely_catch; [|done]. rewrite linkKey_ok.
  apply (safely_then (redis_eval (call (redis_call (HGETALL (link_key c))))) _
    (fun s' r => forall h, r = Fields h -> forall link, identity h = Some link -> vouched s' c link));
    [| |done].
  { apply safely_redis; [|done]. intros s2 H2. rewrite HGETALL_logged. split; [apply keeps_read|].
    intros s3 H3. destruct (hash_at (ks s2.1) (link_key c)) as [h|e] eqn:Hh; [|done].
    intros h' [= <-] link Hi. eapply keeps_vouched; [exact H3|]. eapply keeps_vouched; [apply keeps_read|].
    by apply (keeps_coherent _ _ H2 Hco c h). }
  intros s2 values Hv. destruct values as [| | | | |h]; try done.
  case_bool_decide; [done|].
  destruct (linkOf otherDate otherNumber h) as [link|] eqn:Hl; [|by apply forget_safely].
  assert (Hs : vouched s2 c link).
  { pose proof (vouched_with _ _ _ (clicks link) (Hv h eq_refl _ (linkOf_identity _ _ Hl))) as Hw. by destruct link. }
  assert (Hend : forall s3 s4 s5, keeps s2 s3 -> keeps s3 s4 -> keeps s4 s5 -> vouched s5 c link).
  { intros s3 s4 s5 H3 H4 H5. by do 3 (eapply keeps_vouched; [eassumption|]). }
  destruct (expiresAt link) as [e|].
  - apply safely_now. intros s3 t H3. destruct (_ <=? _); [by apply forget_safely|].
    apply safely_resolve. intros s4 H4 s5 H5. by eapply Hend.
  - apply safely_resolve. intros s4 H4 s5 H5. eapply Hend; [apply keeps_refl|done..].
Qed.

(** *** Writing *)

Lemma logged_multi2 c1 c2 k :
  logged (multi [c1; c2]) k
  = let '(k1, r1) := execute k c1 in
    let '(k2, r2) := execute k1 c2 in
    (k2, [c1; c2], match r1, r2 with
                   | Return a, Return b => Return [a; b]
                   | Throw e, _ => Throw e
                   | _, Throw e => Throw e
                   end).
Proof.
  unfold logged, eval. simpl. destruct (execute k c1) as [k1 r1]. simpl.
  destruct (execute k1 c2) as [k2 r2]. simpl. by destruct r1, r2.
Qed.

Lemma set_ttl_hash k key ms h :
  hash_at (set_ttl k key ms) key = Return h -> h = ∅ \/ hash_at k key = Return h.
Proof.
  unfold set_ttl. destruct (k !! key) as [e|] eqn:He; [|by right].
  destruct (_ <=? _); unfold hash_at.
  - rewrite lookup_delete_eq. intros [= <-]. by left.
  - rewrite lookup_insert_eq, He. simpl. by right.
Qed.

Lemma set_fields_lookup h code target created expires clicks :
  let h' := set_fields h [("code", code); ("targetUrl", target); ("createdAt", created);
                          ("expiresAt", expires); ("clicks", clicks)] in
  h' !! "code" = Some code /\ h' !! "targetUrl" = Some target /\ h' !! "createdAt" = Some created
  /\ h' !! "expiresAt" = Some expires.
Proof.
  cbv zeta. unfold set_fields. cbn [fold_left fst snd].
  repeat split; repeat (rewrite lookup_insert_ne by done); by rewrite lookup_insert_eq.
Qed.

Lemma iso_nonempty t s : toISOString t = Return s -> s <> "".
Proof.
  unfold toISOString. destruct (valid_time t) eqn:Ht; [|done]. intros [= <-] He.
  pose proof (read_iso_string t Ht) as Hr. by rewrite He in Hr.
Qed.

Lemma expires_written date expires :
  isoOr date = Return expires -> expiresOf otherDate (Some expires) = Some date.
Proof.
  destruct date as [t|]; simpl; [|by intros [= <-]]. intros He.
  pose proof (iso_nonempty _ _ He). unfold expiresOf.
  rewrite (parseDate_toISOString otherDate _ _ He). by destruct expires.
Qed.

(** What is written reads back as the link. *)
Lemma written_identity h link created expires clicks l :
  toISOString (createdAt link) = Return created -> isoOr (expiresAt link) = Return expires ->
  identity (set_fields h [("code", code link); ("targetUrl", targetUrl link); ("createdAt", created);
                          ("expiresAt", expires); ("clicks", clicks)]) = Some l ->
  l = with_clicks link 0.
Proof.
  intros Hc He. destruct (set_fields_lookup h (code link) (targetUrl link) created expires clicks)
    as (L1 & L2 & L3 & L4). unfold identity. rewrite L1, L2, L3, L4.
  destruct (_ && _); [|done]. cbn [default]. rewrite (parseDate_toISOString _ _ _ Hc).
  rewrite (expires_written _ _ He). by intros [= <-].
Qed.

Context (self : CachedLinkStore) (ttl_small : ttl_ok (ttlSeconds self * 1000)).

Definition settled_tt (s : state) (r : result unit) : Prop := True.

Lemma cacheFields_safely c link ttl s :
  vouched s c link -> ttl_ok (ttl * 1000) -> safely (cacheFields link ttl) settled_tt s.
Proof.
  intros Hs Ht. pose proof (vouched_code _ _ _ Hs) as Hc. subst c. unfold cacheFields. rewrite linkKey_ok.
  destruct (toISOString (createdAt link)) as [created|] eqn:Hcr; [|done].
  destruct (isoOr (expiresAt link)) as [expires|] eqn:Hex; [|done].
  do 3 apply safely_lift. apply (safely_then _ _ (fun _ _ => True)); [|by intros; apply safely_resolve|done].
  apply safely_redis; [|done]. intros s1 H1. rewrite logged_multi2.
  rewrite execute_HSET by done. unfold answer.
  set (fields := [_; _; _; _; _]). destruct (hash_at (ks s1.1) (link_key (code link))) as [h|e] eqn:Hh;
    cbv beta iota zeta; rewrite execute_EXPIRE by done; (split; [|done]); apply (keeps_frame _ _ _ (code link)).
  - intros key Hne. by rewrite set_ttl_lookup_ne, put_lookup_ne by congruence.
  - intros h' l [->|Hh']%set_ttl_hash; [by rewrite identity_empty|].
    rewrite hash_at_put in Hh'. injection Hh' as <-. intros Hi. apply (written_identity h link created expires) in Hi; [|done|done]. subst l.
    right. apply vouched_with, (vouched_kept s1); [by intros ? r ?; exists r|by eexists|].
    by eapply keeps_vouched.
  - intros key Hne. by rewrite set_ttl_lookup_ne by congruence.
  - intros h' l [->|Hh']%set_ttl_hash; [by rewrite identity_empty|]. congruence.
Qed.

Lemma cacheSafely_safely c link s :
  vouched s c link -> safely (cacheSafely self link) (fun _ r => r = Return tt) s.
Proof.
  intros Hs. unfold cacheSafely. apply safely_ready. intros s1 ready H1.
  apply (keeps_vouched _ _ _ _ H1) in Hs. destruct ready; cbn [negb]; [|by apply safely_resolve].
  apply safely_catch; [|done]. eapply safe_mono with (P := settled_tt).
  { by intros s' [[]|e] _. }
  unfold cache. destruct (expiresAt link) as [e|]; [|by apply (cacheFields_safely c)].
  apply safely_now. intros s2 t H2. cbv zeta. destruct (_ <=? 0) eqn:Hrem.
  - rewrite linkKey_ok. apply safely_lift. apply (safely_then _ _ (fun _ _ => True)); [|by intros; apply safely_resolve|done].
    apply safely_redis; [|done]. intros s3 H3. rewrite logged_single, execute_DEL.
    split; [apply keeps_delete|done].
  - apply (cacheFields_safely c); [by eapply keeps_vouched|].
    unfold ttl_ok in *. lia.
Qed.

(** A fact every process keeps is a fact at the end. *)
Lemma safely_frame (P : state -> Prop) {A} (m : async effect A) Q s :
  (forall s s', keeps s s' -> P s -> P s') -> safely m Q s -> P s ->
  safely m (fun s' r => Q s' r /\ P s') s.
Proof.
  intros HP Hm Hs. apply safe_frame; [done| |done]. eapply safe_guar; [|exact Hm].
  intros s1 s2 Hk. split; [done|by apply HP].
Qed.

Lemma cached_safely c o s :
  (forall link, o = Some link -> vouched s c link) ->
  safely (cached self o) (fun s' r => reads c s' r /\ r = Return o) s.
Proof.
  intros Ho. destruct o as [link|]; [|by apply safely_resolve]. specialize (Ho link eq_refl).
  unfold cached. apply (safe_then _ _ _ keeps_refl _ _ (fun s' r => r = Return tt /\ vouched s' c link)).
  - apply (safely_frame (fun s => vouched s c link)); [|by apply (cacheSafely_safely c)|done].
    intros s1 s2 Hk. by apply keeps_vouched.
  - intros s' [] [_ Hs]. apply safely_resolve. intros s2 Hk. split; [|done]. by eapply keeps_vouched.
  - by intros s' e [[=] _].
Qed.

(** Counting a click changes no more than the clicks of the hash. *)
Lemma increment_keeps c s :
  let '(k, cs, r) := logged (INCREMENT_CACHED_CLICK [link_key c] []) (ks s.1) in
  keeps s (after s k cs).
Proof.
  unfold INCREMENT_CACHED_CLICK. rewrite (logged_entry _ _ (link_key c)) by done.
  rewrite logged_call, execute_EXISTS. cbv beta iota zeta.
  destruct (bool_decide (flag _ = Int 1)).
  - rewrite logged_single. pose proof (execute_frame (ks s.1) (HINCRBY (link_key c) "clicks" 1)) as Hf.
    destruct (hash_at (ks s.1) (link_key c)) as [h|e] eqn:Hh.
    + destruct (execute_HINCRBY_fields (ks s.1) (link_key c) "clicks" 1 h Hh) as (h' & Hh' & Hfields).
      destruct (execute _ _) as [k r]. simpl in *. apply (keeps_frame _ _ _ c); [done|].
      intros h2 link Hh2 Hi. left. exists h. split; [done|].
      rewrite Hh' in Hh2. injection Hh2 as <-. by rewrite <- (identity_ext h h').
    + rewrite (execute_HINCRBY_type _ _ _ _ _ Hh). apply keeps_read.
  - rewrite logged_resolve. apply keeps_read.
Qed.

(** ** The contract of a store, and that the cache keeps it *)

Definition input_ok (input : CreateLinkInput) : Prop := from_option sql_date True (in_expiresAt input).

(** A store that answers only with stored or pending links, and whose every
    effect keeps the rows and the cache coherent, whatever fails. *)
Definition creates (input : CreateLinkInput) (s : state) (r : result (option Link)) : Prop :=
  match r with
  | Return (Some link) => vouched s (in_code input) link /\ targetUrl link = in_targetUrl input
  | _ => True
  end.

Class HonestStore (st : LinkStore) : Prop := {
  honest_create input s : input_ok input -> admissible (in_targetUrl input) -> coherent s ->
    safely (store_create st input) (creates input) s;
  honest_find c s : coherent s -> safely (store_find st c) (answers c) s;
  honest_recordClick c s : coherent s -> safely (store_recordClick st c) settled_tt s
}.

Lemma safely_answers {B} c (m : async effect (option Link)) (f : option Link -> async effect B) Q s :
  safely m (answers c) s ->
  (forall s' o, (forall link, o = Some link -> vouched s' c link) -> safely (f o) Q s') ->
  (forall s' e, Q s' (Throw e)) ->
  safely (async_bind m f) Q s.
Proof.
  intros Hm Hf He. apply (safely_then _ _ (fun s' o => forall link, o = Some link -> vouched s' c link));
    [|done|done].
  eapply safe_mono; [|exact Hm]. intros s' [[link|]|e] HQ; [|done..]. by intros ? [= <-].
Qed.

#[export] Instance cached_honest : HonestStore (source self) -> HonestStore (store otherDate otherNumber self).
Proof.
  intros Hsrc. split.
  - intros input s Hi Had Hco. cbn [store store_create]. unfold create.
    apply (safely_then _ _ (fun s' o => forall link, o = Some link ->
      vouched s' (in_code input) link /\ targetUrl link = in_targetUrl input)); [| |done].
    + eapply safe_mono; [|by apply honest_create]. intros s' [[link|]|e] HQ; [|done..]. by intros ? [= <-].
    + intros s' o Ho. eapply safe_mono; [|apply (cached_safely (in_code input)); intros link Hl; by apply Ho].
      intros s2 r [Hr ->]. destruct o as [link|]; [|done]. split; [exact Hr|by apply Ho].
  - intros c s Hco. cbn [store store_find]. unfold find.
    apply (safely_then _ _ (fun s' o => (forall link, o = Some link -> vouched s' c link)
      /\ coherent s')); [| |done].
    + eapply safe_mono; [|apply (safely_frame (fun s => coherent s)); [|by apply readSafely_safely|done]].
      * intros s' [[link|]|e] [HQ Hc]; [|done..]. split; [by intros ? [= <-]|done].
      * intros s1 s2. apply keeps_coherent.
    + intros s' [link|] [Ho Hc].
      * apply safely_resolve. intros s2 Hk. simpl. eapply keeps_vouched; [exact Hk|by apply Ho].
      * eapply safely_answers; [by apply honest_find| |done]. intros s2 o Ho'.
        eapply safe_mono; [|by apply cached_safely]. by intros s3 [[link|]|e] [Hr _].
  - intros c s Hco. cbn [store store_recordClick]. unfold recordClick.
    apply (safely_then _ _ (fun _ _ => True)); [| |done].
    { unfold countClick. destruct (clickBuffer self) as [cfg|].
      - apply safely_local; [done|]. intros s1 s2 ch _ _. by destruct (perform _ _ _ _).2.
      - eapply safe_mono; [|by apply honest_recordClick]. by intros s' [a|e] _. }
    intros s1 _ _. apply safely_ready. intros s2 [|] _; cbn [negb]; [|by apply safely_resolve].
    apply safely_catch; [|done]. rewrite linkKey_ok. apply safely_lift.
    apply (safely_then _ _ (fun _ _ => True)); [|by intros; apply safely_resolve|done].
    apply safely_redis; [|done]. intros s3 _. pose proof (increment_keeps c s3) as Hk.
    destruct (logged _ _) as [[k cs] r].
    split; [done|]. by destruct r.
Qed.

(** PostgreSQL itself. *)
Lemma pg_honest {X} (q : sql X) (Q : state -> result X -> Prop) s :
  (forall (s1 s2 s3 : state) a, query X (pg_clock s1.1) (db s1.1) q = (db s2.1, Return a) -> keeps s2 s3 ->
     Q s3 (Return a)) ->
  (forall s1 e, Q s1 (Throw e)) -> safely (pg q) Q s.
Proof.
  intros Hq He. apply safe_pg; [apply keeps_rows| |done]. intros s1 s2 s3 a _. apply Hq.
Qed.

Lemma postgres_create input s : input_ok input ->
  safely (PostgresLinkStore.create input) (fun s' r => forall link, r = Return (Some link) ->
    serves s'.1 (in_code input) link /\ targetUrl link = in_targetUrl input) s.
Proof.
  intros Hi. unfold input_ok in Hi. unfold PostgresLinkStore.create.
  apply (safely_then _ _ (fun s' rows => forall r, head rows = Some r ->
      serves s'.1 (in_code input) (mapLink r) /\ r_target_url r = in_targetUrl input));
    [|intros s' rows Hr; apply safely_resolve; intros s2 Hk|done].
  - apply pg_honest; [|done]. intros s1 s2 s3 rows Hq Hk r Hr.
    pose proof (query_InsertLink (pg_clock s1.1) (db s1.1) (in_code input) (in_targetUrl input) _ Hi) as Hlaw.
    cbv zeta in Hlaw. destruct (row_ok _ _); [|destruct Hlaw as [e Hlaw]; congruence].
    rewrite Hlaw in Hq. destruct (Sql.links (db s1.1) !! in_code input); [by simplify_eq|].
    injection Hq as Hdb <-. injection Hr as <-. split; [|done]. eapply keeps_serves; [exact Hk|].
    eexists. rewrite <- Hdb. split; [apply lookup_insert_eq|].
    unfold mapLink, with_clicks, read_link; simpl. f_equal.
    destruct (in_expiresAt input) as [e|]; simpl; [|done]. f_equal. symmetry. by apply driver_date_ms.
  - simpl. intros link [= Hl]. destruct (head rows) as [r|] eqn:Hh; simpl in Hl; [|done]. injection Hl as <-.
    destruct (Hr r eq_refl) as [Hs Ht]. split; [|done]. by eapply keeps_serves.
Qed.

(** What the cache adds changes nothing in the answer. *)
Lemma create_serves input s : source self = PostgresLinkStore.store -> input_ok input ->
  safely (create self input) (fun s' r => forall link, r = Return (Some link) -> serves s'.1 (in_code input) link) s.
Proof.
  intros Hsrc Hi. unfold create. rewrite Hsrc. cbn [PostgresLinkStore.store store_create].
  apply (safely_then _ _ (fun s' o => forall link, o = Some link -> serves s'.1 (in_code input) link)); [| |done].
  { eapply safe_mono; [|by apply postgres_create]. intros s' [o|e] Ho; [|done]. intros link ->. by apply Ho. }
  intros s' o Ho. eapply safe_mono; [|apply (safely_frame (fun s => forall link, o = Some link -> serves s.1 (in_code input) link));
    [|apply (cached_safely (in_code input)); intros link Hl; left; by apply Ho|exact Ho]].
  - intros s2 r [[_ ->] Hs] link [= ->]. by apply Hs.
  - intros s2 s3 Hk Hs link Hl. eapply keeps_serves; [exact Hk|by apply Hs].
Qed.

#[export] Instance postgres_honest : HonestStore PostgresLinkStore.store.
Proof.
  split.
  - intros input s Hi _ _. cbn [PostgresLinkStore.store store_create]. eapply safe_mono; [|by apply postgres_create].
    intros s' [[link|]|e] Hr; [|done..]. destruct (Hr link eq_refl). split; [by left|done].
  - intros c s _. cbn [PostgresLinkStore.store store_find]. unfold PostgresLinkStore.find.
    apply (safely_then _ _ (fun s' rows => forall r, head rows = Some r -> serves s'.1 c (mapLink r)));
      [|intros s' rows Hr; apply safely_resolve; intros s2 Hk|done].
    + apply pg_honest; [|done]. intros s1 s2 s3 rows Hq Hk r Hr. rewrite query_SelectLiveLink in Hq.
      destruct (Sql.links (db s1.1) !! c) as [row|] eqn:Hrow; [|by simplify_eq].
      destruct (is_live _ row); [|by simplify_eq]. injection Hq as Hdb <-. injection Hr as <-.
      eapply keeps_serves; [exact Hk|]. exists row. split; [by rewrite <- Hdb|done].
    + simpl. destruct (head rows) as [r|] eqn:Hh; simpl; [|done].
      left. eapply keeps_serves; [exact Hk|by apply Hr].
  - intros c s _. cbn [PostgresLinkStore.store store_recordClick].
    unfold PostgresLinkStore.recordClick, PostgresLinkStore.recordClicks.
    apply (safely_then _ _ (fun _ _ => True)); [|by intros; apply safely_resolve|done].
    by apply pg_honest.
Qed.
End Honesty.

(** C9. The cache never lies. With PostgreSQL behind it, whatever is lost or
    interrupted, and whatever other processes do meanwhile as long as they keep the
    rows and the coherence of the cache. In synchronous mode, where the cache is
    coherent when every cached hash stands for the row of its code, [find] answers
    with no link but the one the table holds for that very code, its click count
    apart. In write-behind mode, where a cached hash may also stand for a link whose
    record was appended to a sync queue and is not in the table yet, [find] answers
    with no link but the one of the table or of such a record, for that very code.
    In both modes [create] answers with no link but the row of the table, and every
    effect of [find], [create] and [recordClick] keeps the cache coherent. *)
Theorem cache_serves_the_table `{Redis} `{Postgres} otherDate otherNumber self s :
  source self = PostgresLinkStore.store -> ttl_ok (ttlSeconds self * 1000) ->
  let safely (Bl : Backlog) {A} (m : async effect A) Q := safe (fun _ => True) (keeps otherDate) (keeps otherDate) m Q s in
  (coherent (Bl := no_backlog) otherDate s ->
   forall c, safely no_backlog (find otherDate otherNumber self c)
     (fun s' r => forall link, r = Return (Some link) -> serves s'.1 c link))
  /\ (coherent (Bl := queue_backlog (fun _ => True)) otherDate s ->
      forall c, safely (queue_backlog (fun _ => True)) (find otherDate otherNumber self c)
        (fun s' r => forall link, r = Return (Some link) ->
           serves s'.1 c link
           \/ code link = c /\ exists shard record, RPUSH (queue_key shard) record ∈ s'.2
                /\ serializePendingLink (record_of link) = Return record))
  /\ (forall Bl : Backlog, coherent otherDate s ->
      (forall input, input_ok input -> safely Bl (create self input)
         (fun s' r => forall link, r = Return (Some link) -> serves s'.1 (in_code input) link))
      /\ forall c, safely Bl (recordClick self c) (fun _ _ => True)).
Proof.
  intros Hsrc Httl. cbv zeta.
  assert (Hh : forall Bl : Backlog, HonestStore otherDate (store otherDate otherNumber self)).
  { intros Bl. apply cached_honest; [done|]. rewrite Hsrc. apply postgres_honest. }
  split_and!.
  - intros Hco c. eapply safe_mono; [|exact (honest_find otherDate c s Hco)].
    intros s' r Hr link ->. by destruct Hr.
  - intros Hco c. eapply safe_mono; [|exact (honest_find otherDate c s Hco)].
    intros s' r Hr link ->. destruct Hr as [Hs|(Hc & _ & Hq)]; [by left|by right].
  - intros Bl Hco. split; [intros input Hi; by apply create_serves|].
    intros c. eapply safe_mono; [|exact (honest_recordClick otherDate c s Hco)]. done.
Qed.

(** ** Failures of Redis *)
Lemma run_isReady `{Redis} `{Postgres} {A} (f : bool -> async effect A) s :
  exists b s', run handle (await b <- isReady; f b) s = run handle (f b) s'.
Proof.
  rewrite run_async_bind. unfold isReady. rewrite run_call. destruct s as [cs w]. simpl. eauto.
Qed.

Ltac run_ready b s' :=
  match goal with
  | |- context [run handle (async_bind isReady ?f) ?s] => destruct (run_isReady f s) as (b & s' & ->)
  end.

Lemma run_catch_all `{Redis} `{Postgres} {A} (m : async effect A) a s :
  exists s' b, run handle (try_catch m (fun _ => resolve a)) s = (s', Return b).
Proof. rewrite run_try_catch. destruct (run handle m s) as [s' [b|e]]; simpl; eauto. Qed.

Section Transparency.
Context `{Redis} `{Postgres}.
Context (otherDate : string -> option Z) (otherNumber : string -> option Z) (self : CachedLinkStore).

Lemma cacheSafely_returns link s : exists s', run handle (cacheSafely self link) s = (s', Return tt).
Proof.
  unfold cacheSafely. run_ready b s1.
  destruct b; simpl; [|by eauto]. destruct (run_catch_all (cache self link) tt s1) as (s2 & [] & ->). eauto.
Qed.

Lemma cached_returns o s : exists s', run handle (cached self o) s = (s', Return o).
Proof.
  destruct o as [link|]; [|by exists s]. unfold cached. rewrite run_async_bind.
  destruct (cacheSafely_returns link s) as (s' & ->). simpl. eauto.
Qed.

Lemma readSafely_returns c s :
  exists s' o, run handle (readSafely otherDate otherNumber c) s = (s', Return o).
Proof.
  unfold readSafely. run_ready b s1.
  destruct b; simpl; [|by eauto]. apply run_catch_all.
Qed.
End Transparency.

(** C30. Redis is optional. Whatever the source store is and whatever fails,
    [create] gives exactly the result the source gives; [find] gives a cached
    link or exactly the result of the source; and [recordClick] fails only as
    the click buffer, or without one the source, fails. *)
Theorem redis_failures_hidden `{Redis} `{Postgres} otherDate otherNumber self s :
  (forall input, (run handle (create self input) s).2
     = (run handle (store_create (source self) input) s).2)
  /\ (forall c, exists s1 hit, run handle (readSafely otherDate otherNumber c) s = (s1, Return hit)
       /\ (run handle (find otherDate otherNumber self c) s).2
          = match hit with
            | Some link => Return (Some link)
            | None => (run handle (store_find (source self) c) s1).2
            end)
  /\ (forall c, (run handle (recordClick self c) s).2
       = (run handle (countClick self c) s).2).
Proof.
  split_and!.
  - intros input. unfold create. rewrite run_async_bind.
    destruct (run handle (store_create _ _) s) as [s1 [o|e]]; [|done].
    by destruct (cached_returns self o s1) as (s2 & ->).
  - intros c. destruct (readSafely_returns otherDate otherNumber c s) as (s1 & hit & Hread).
    exists s1, hit. split; [done|]. unfold find. rewrite run_async_bind, Hread.
    destruct hit as [link|]; [done|]. rewrite run_async_bind.
    destruct (run handle (store_find _ _) s1) as [s2 [o|e]]; [|done].
    by destruct (cached_returns self o s2) as (s3 & ->).
  - intros c. unfold recordClick.
    generalize (countClick self c). intros m. rewrite run_async_bind.
    destruct (run handle m s) as [s1 [[]|e]]; [|done]. run_ready b s2.
    destruct b; simpl; [|done].
    match goal with |- context [run handle (try_catch ?m _) _] =>
      destruct (run_catch_all m tt s2) as (s3 & [] & ->) end. done.
Qed.

(** ** Hits and misses *)
Section Hits.
Context `{Redis} `{Postgres}.
Context (otherDate : string -> option Z) (otherNumber : string -> option Z) (self : CachedLinkStore).

Lemma exec_ready {A} (f : bool -> async effect A) w :
  exec (await b <- isReady; f b) [] w = exec (f true) [] (wait 0 w).
Proof. rewrite exec_bind. unfold isReady. by rewrite exec_effect. Qed.

Lemma exec_now {A} (f : Z -> async effect A) w :
  exec (await t <- now; f t) [] w = exec (f (clock w)) [] (wait 0 w).
Proof. rewrite exec_bind. unfold now. rewrite exec_effect. simpl. by rewrite Z.add_0_r. Qed.

Lemma exec_given {A B} (a : A) (f : A -> async effect B) w :
  exec (async_bind (lift (Return a)) f) [] w = exec (f a) [] w.
Proof. done. Qed.

Lemma exec_script {A B} (sc : script A) (f : A -> async effect B) w :
  exec (await x <- redis_eval sc; f x) [] w
  = let '(k, r) := eval sc (ks (wait 0 w)) in
    match r with Return a => exec (f a) [] (with_ks (wait 0 w) k) | Throw e => (with_ks (wait 0 w) k, Throw e) end.
Proof. rewrite exec_bind, exec_redis. unfold on_redis. by destruct (eval sc _). Qed.

(** The hash of [key] and the milliseconds it has left. *)
Definition holds (w : world) (key : string) (h : gmap string string) (ms : Z) : Prop :=
  ks w !! key = Some {| value := RHash h; pttl := Some ms |}.

Lemma holds_wait d w key h ms : holds w key h ms -> d < ms -> holds (wait d w) key h (ms - d).
Proof.
  unfold holds. intros Hw Hd. simpl. rewrite elapse_lookup, Hw. simpl.
  by rewrite (proj2 (Z.leb_gt _ _)) by lia.
Qed.

Lemma holds_gone d w key h ms : holds w key h ms -> ms <= d -> ks (wait d w) !! key = None.
Proof.
  unfold holds. intros Hw Hd. simpl. rewrite elapse_lookup, Hw. simpl.
  by rewrite (proj2 (Z.leb_le _ _)) by lia.
Qed.

Lemma gone_wait d w key : ks w !! key = None -> ks (wait d w) !! key = None.
Proof. intros Hw. simpl. by rewrite elapse_lookup, Hw. Qed.

Lemma hash_at_wait d w key h : hash_at (ks w) key = Return h -> exists h', hash_at (ks (wait d w)) key = Return h'.
Proof.
  unfold hash_at. simpl. rewrite elapse_lookup. destruct (ks w !! key) as [[v [ms|]]|]; simpl; eauto.
  destruct (ms <=? d); simpl; eauto.
Qed.

Lemma miss_exec c w :
  ks w !! link_key c = None ->
  exists w', exec (readSafely otherDate otherNumber c) [] w = (w', Return None).
Proof.
  intros Hw. unfold readSafely. rewrite exec_ready. cbn [negb]. rewrite exec_catch, linkKey_ok.
  rewrite exec_given, exec_script. unfold eval. rewrite run_call. cbn [on_server].
  rewrite execute_HGETALL. unfold hash_at. rewrite (gone_wait 0 _ _ (gone_wait 0 _ _ Hw)). simpl. eauto.
Qed.

(** A hash that stands for the link. *)
Definition stands_for (h : gmap string string) (link : Link) : Prop :=
  h <> ∅ /\ linkOf otherDate otherNumber h = Some link.

Lemma hit_exec c w h link ms :
  holds w (link_key c) h ms -> 0 < ms -> stands_for h link ->
  from_option (fun e => clock w < e) True (expiresAt link) ->
  exists w', exec (readSafely otherDate otherNumber c) [] w = (w', Return (Some link)).
Proof.
  intros Hw Hms [Hne Hl] He. unfold readSafely. rewrite exec_ready. cbn [negb].
  rewrite exec_catch, linkKey_ok, exec_given, exec_script. unfold eval. rewrite run_call. cbn [on_server].
  rewrite execute_HGETALL. pose proof (holds_wait 0 _ _ _ _ (holds_wait 0 _ _ _ _ Hw Hms) ltac:(lia)) as Hw2.
  unfold hash_at. rewrite Hw2. cbn [fmap option_fmap option_map value answer].
  rewrite bool_decide_false by done. rewrite Hl.
  destruct (expiresAt link) as [e|]; simpl in He.
  - rewrite exec_now. cbn [wait with_ks clock]. rewrite (proj2 (Z.leb_gt _ _)) by lia.
    rewrite exec_resolve. eauto.
  - rewrite exec_resolve. eauto.
Qed.

(** What [cache] writes stands for the link. *)
Definition cacheable (link : Link) : Prop :=
  code link <> "" /\ targetUrl link <> "" /\ 0 <= clicks link <= MAX_SAFE_INTEGER
  /\ (exists created, toISOString (createdAt link) = Return created)
  /\ (exists expires, isoOr (expiresAt link) = Return expires).

Lemma written_stands h link created expires :
  cacheable link -> toISOString (createdAt link) = Return created -> isoOr (expiresAt link) = Return expires ->
  stands_for (set_fields h [("code", code link); ("targetUrl", targetUrl link); ("createdAt", created);
    ("expiresAt", expires); ("clicks", js_String (clicks link))]) link.
Proof.
  intros (Hc & Hu & Hn & _ & _) Hcr Hex.
  set (h' := set_fields _ _).
  assert (L5 : h' !! "clicks" = Some (js_String (clicks link))) by apply lookup_insert_eq.
  destruct (set_fields_lookup h (code link) (targetUrl link) created expires (js_String (clicks link)))
    as (L1 & L2 & L3 & L4). fold h' in L1, L2, L3, L4.
  split; [intros He; by rewrite He in L1|].
  unfold linkOf. rewrite L1, L2, L3, L4, L5.
  assert (Htruthy : forall t, t <> "" -> truthy (Some t) = true) by by intros [].
  pose proof (iso_nonempty _ _ Hcr) as Hcreated.
  rewrite !Htruthy, bool_decide_false by done. cbn [negb orb default from_option].
  rewrite (parseDate_toISOString _ _ _ Hcr), (expires_written _ _ _ Hex).
  unfold numberOf, id. rewrite read_integer_String, to_double_exact by (unfold MAX_SAFE_INTEGER in Hn; lia).
  assert (Hsafe : isSafeInteger (clicks link) = true)
    by (unfold isSafeInteger; apply andb_true_iff; rewrite !Z.leb_le; unfold MAX_SAFE_INTEGER in *; lia).
  rewrite Hsafe, (proj2 (Z.ltb_ge _ _)) by lia. cbn [negb orb]. by destruct link.
Qed.

(** How long the link is cached, in seconds. *)
Definition lifetime (link : Link) (now : Z) : Z :=
  match expiresAt link with
  | None => ttlSeconds self
  | Some e => Z.min (ttlSeconds self) ((e - now) / 1000)
  end.

Lemma cacheFields_exec link ttl w h0 :
  cacheable link -> 0 < ttl -> ttl_ok (ttl * 1000) ->
  hash_at (ks w) (link_key (code link)) = Return h0 ->
  exists w' h, exec (cacheFields link ttl) [] w = (w', Return tt)
    /\ holds w' (link_key (code link)) h (ttl * 1000) /\ stands_for h link /\ clock w' = clock w.
Proof.
  intros Hca Ht Hok Hh. pose proof Hca as (_ & _ & _ & (created & Hcr) & (expires & Hex)).
  unfold cacheFields. rewrite linkKey_ok, Hcr, Hex, !exec_given, exec_script.
  destruct (hash_at_wait 0 w _ _ Hh) as [h1 Hh1]. unfold eval. cbn [multi io_bind run call on_server].
  rewrite execute_HSET, Hh1 by done. unfold answer. cbv beta iota zeta. cbn [run on_server].
  rewrite execute_EXPIRE by done. cbn [run].
  do 2 eexists. split; [apply exec_resolve|]. split; [|split; [by apply written_stands|simpl; lia]].
  unfold holds, set_ttl. cbn [with_ks ks]. rewrite put_lookup, decide_True by done.
  rewrite (proj2 (Z.leb_gt _ _)) by lia. by rewrite lookup_insert_eq.
Qed.
End Hits.

(** A cached link is served for exactly as long as it should be. When a
    link is cached at a given time with nothing failing, a read within its
    lifetime - the configured one, cut to the whole seconds the link has left -
    gives the same link back, to the last field; a read after that misses; and
    a link with less than a second left is not cached at all, so that no
    expired link is ever served from the cache. *)
Theorem cache_lifetime `{Redis} `{Postgres} otherDate otherNumber self link w h0 d :
  cacheable link -> 0 < ttlSeconds self -> ttl_ok (ttlSeconds self * 1000) ->
  hash_at (ks w) (link_key (code link)) = Return h0 -> 0 <= d ->
  exists w1 w2,
    exec (cacheSafely self link) [] w = (w1, Return tt)
    /\ exec (readSafely otherDate otherNumber (code link)) [] (wait d w1)
       = (w2, Return (if d <? lifetime self link (clock w) * 1000 then Some link else None)).
Proof.
  intros Hca Hpos Httl Hh Hd. unfold cacheSafely. rewrite exec_ready. cbn [negb]. rewrite exec_catch.
  destruct (hash_at_wait 0 w _ _ Hh) as [h1 Hh1].
  assert (Hlive : forall ttl w0 h2, 0 < ttl <= ttlSeconds self ->
    hash_at (ks w0) (link_key (code link)) = Return h2 -> clock w0 = clock w ->
    from_option (fun e => clock w + ttl * 1000 <= e) True (expiresAt link) ->
    exists w1 w2, (let '(w', r) := exec (cacheFields link ttl) [] w0 in
        match r with Return a => (w', Return a) | Throw _ => exec (resolve tt) [] w' end) = (w1, Return tt)
      /\ exec (readSafely otherDate otherNumber (code link)) [] (wait d w1)
         = (w2, Return (if d <? ttl * 1000 then Some link else None))).
  { intros ttl w0 h2 Ht Hh2 Hcl He. destruct (cacheFields_exec otherDate otherNumber link ttl w0 h2) as (w1 & h & Hx & Hw & Hs & Hc);
      [done|lia|unfold ttl_ok in *; lia|done|].
    rewrite Hx. destruct (Z.ltb_spec d (ttl * 1000)) as [Hlt|Hge].
    - edestruct (hit_exec otherDate otherNumber (code link) (wait d w1)) as (w2 & H2);
        [by apply (holds_wait d)|lia|done| |by exists w1, w2].
      destruct (expiresAt link); simpl in *; [lia|done].
    - edestruct (miss_exec otherDate otherNumber (code link) (wait d w1)) as (w2 & H2);
        [by eapply holds_gone|by exists w1, w2]. }
  unfold cache, lifetime. destruct (expiresAt link) as [e|] eqn:He.
  - rewrite exec_now. assert (Hck : clock (wait 0 w) = clock w) by (simpl; lia). rewrite Hck.
    cbv zeta. destruct (Z.leb_spec ((e - clock w) / 1000) 0) as [Hrem|Hrem].
    + rewrite linkKey_ok, exec_given, exec_script. unfold eval. rewrite run_call. cbn [on_server].
      rewrite execute_DEL. rewrite exec_resolve. rewrite (proj2 (Z.ltb_ge d _)) by lia.
      edestruct (miss_exec otherDate otherNumber (code link)) as (w2 & H2); [|by do 2 eexists].
      apply gone_wait. apply lookup_delete_eq.
    + destruct (hash_at_wait 0 (wait 0 w) _ _ Hh1) as [h2 Hh2].
      apply (Hlive _ _ h2); [lia|done|simpl; lia|]. simpl. Z.div_mod_to_equations. lia.
  - by apply (Hlive _ _ h1); [lia|done|simpl; lia|].
Qed.

(** ** Witnesses *)
Definition demo_cached : CachedLinkStore :=
  {| source := PostgresLinkStore.store; ttlSeconds := 3600; clickBuffer := None |}.

Definition cached_link : Link :=
  {| code := "docs"; targetUrl := "https://example.com/"; createdAt := 1709164800000;
     expiresAt := Some 1709164810500; clicks := 3 |}.

(** Nothing is stored yet; one link waits in a queue and in the cache. *)
Definition pending_link : Link :=
  {| code := "docs"; targetUrl := "https://example.com/"; createdAt := 1709164800123; expiresAt := None; clicks := 0 |}.

Definition pending_hash : gmap string string :=
  set_fields ∅ [("code", "docs"); ("targetUrl", "https://example.com/"); ("createdAt", "2024-02-29T00:00:00.123Z");
                ("expiresAt", ""); ("clicks", "0"); ("pending", "1")].

Definition pending_record : string :=
  Eval vm_compute in match serializePendingLink (record_of pending_link) with Return r => r | Throw _ => "" end.

Definition pending_state : state :=
  (with_ks demo_world {[link_key "docs" := {| value := RHash pending_hash; pttl := None |}]},
   [RPUSH (queue_key 0) pending_record]).

Lemma pending_state_coherent `{Postgres} :
  coherent (Bl := queue_backlog (fun _ => True)) no_other_date pending_state.
Proof.
  intros c h link Hh Hi. right. unfold hash_at in Hh. cbn [pending_state fst with_ks ks] in Hh.
  destruct (decide (link_key "docs" = link_key c)) as [<-%link_key_inj|Hne].
  - rewrite lookup_singleton_eq in Hh. injection Hh as <-.
    assert (link = pending_link) as -> by (vm_compute in Hi; by injection Hi).
    split_and!; [done..|]. exists 0, pending_record. split; [by left|]. by vm_compute.
  - rewrite lookup_singleton_ne in Hh by done. injection Hh as <-. by rewrite identity_empty in Hi.
Qed.

Lemma cache_serves_the_table_witness :
  @safe reference_redis reference_postgres (fun _ => True)
    (@keeps reference_postgres (queue_backlog (fun _ => True)) no_other_date)
    (@keeps reference_postgres (queue_backlog (fun _ => True)) no_other_date)
    _ (find no_other_date no_other_date demo_cached "docs")
    (fun s' r => forall link, r = Return (Some link) ->
       @serves reference_postgres s'.1 "docs" link
       \/ code link = "docs" /\ exists shard record, RPUSH (queue_key shard) record ∈ s'.2
            /\ serializePendingLink (record_of link) = Return record) pending_state.
Proof.
  refine (proj1 (proj2 (@cache_serves_the_table reference_redis reference_postgres no_other_date no_other_date
    demo_cached pending_state _ _)) _ "docs").
  - reflexivity.
  - discriminate.
  - apply pending_state_coherent.
Defined.

Lemma cache_lifetime_witness :
  exists w1 w2,
    @exec reference_redis reference_postgres _ (cacheSafely demo_cached cached_link) [] demo_world = (w1, Return tt)
    /\ @exec reference_redis reference_postgres _ (readSafely no_other_date no_other_date "docs") []
         (@wait reference_redis 9999 w1) = (w2, Return (Some cached_link)).
Proof.
  destruct (@cache_lifetime reference_redis reference_postgres no_other_date no_other_date demo_cached
    cached_link demo_world ∅ 9999) as (w1 & w2 & H1 & H2).
  - split_and!; try discriminate; eexists; reflexivity.
  - reflexivity.
  - discriminate.
  - reflexivity.
  - discriminate.
  - exists w1, w2. split; [exact H1|exact H2].
Defined.
