(* ===== verification/WriteBehind.v ===== *)
(** * Write-behind link creation

    [WriteBehindLinkStore] of src/src/store/write-behind-link-store.ts and its
    Lua script. *)
From S2P Require Import Prelude JsNum JsString JsDate Keys Link Async Redis Sql World Interleave.
Open Scope Z_scope.

(** ** The script

    Each [redis.call] of [ENQUEUE_LINK] in the order of the text. *)
Definition ENQUEUE_LINK (KEYS ARGV : list string) : script Z :=
  arg link <- KEYS # 1;
  local exists_ <- EXISTS link;
  if bool_decide (exists_ = Int 1) then resolve 0
  else
    arg queue <- KEYS # 2;
    local length <- LLEN queue;
    await waiting <- as_number length;
    arg limit <- ARGV # 1;
    await maximum <- tonumber limit;
    if maximum <=? waiting then resolve (-1)
    else
      arg code <- ARGV # 3;
      arg targetUrl <- ARGV # 4;
      arg createdAt <- ARGV # 5;
      arg expiresAt <- ARGV # 6;
      redis HSET link [("code", code); ("targetUrl", targetUrl); ("createdAt", createdAt);
                       ("expiresAt", expiresAt); ("clicks", "0"); ("pending", "1")];
      arg ttl <- ARGV # 7;
      await_ (if bool_decide (ttl <> "0")
              then await ms <- tonumber ttl; redis PEXPIRE link ms; resolve tt
              else resolve tt);
      arg record <- ARGV # 2;
      redis RPUSH queue record;
      resolve 1.

(** ** The store *)

Record WriteBehindLinkStore : Type := { synchronous : LinkStore; maxPendingPerShard : Z }.

Definition MAX_PENDING_ERROR : string := "maxPendingLinks must be a positive integer".

(** The constructor. Dividing by 1,024 is exact on doubles, so [Math.ceil] is
    the integer ceiling. *)
Definition new (synchronous : LinkStore) (maxPendingLinks : Z) : result WriteBehindLinkStore :=
  if negb (isSafeInteger maxPendingLinks) || (maxPendingLinks <? 1) then Throw MAX_PENDING_ERROR
  else Return {| synchronous := synchronous;
                 maxPendingPerShard :=
                   Z.max 1 ((maxPendingLinks + (LINK_KEY_SHARDS - 1)) / LINK_KEY_SHARDS) |}.

Section Store.
Context (self : WriteBehindLinkStore).

Definition createCustom (input : CreateLinkInput) : async effect (option Link) :=
  await ready <- isReady;
  if ready then
    await refused <-
      try_catch
        (await key <- lift (linkKey (in_code input));
         await pendingFlag <- redis_eval (call (redis_call (HGET key "pending")));
         resolve (bool_decide (pendingFlag = Bulk "1")))
        (fun _ => resolve false);
    if refused then resolve None else store_create (synchronous self) input
  else store_create (synchronous self) input.

(** [input.expiresAt?.toISOString() ?? ""] and the relative time to live. *)
Definition isoOrEmpty (date : option Z) : result string :=
  match date with Some t => toISOString t | None => Return "" end.

Definition ttlArgument (expiresAt : option Z) (createdAt : Z) : string :=
  match expiresAt with
  | Some e => js_String (Z.max 1 (e - createdAt))
  | None => "0"
  end.

(** Keys and arguments of the script. *)
Definition enqueueCall (input : CreateLinkInput) (createdAt : Z) :
    result (list string * list string) :=
  let pending := {| p_code := in_code input; p_targetUrl := in_targetUrl input;
                    p_createdAt := createdAt; p_expiresAt := in_expiresAt input |} in
  try link <- linkKey (in_code input);
  try queue <- syncQueueKey (shardOf (in_code input));
  try record <- serializePendingLink pending;
  try created <- toISOString createdAt;
  try expires <- isoOrEmpty (in_expiresAt input);
  Return ([link; queue],
          [js_String (maxPendingPerShard self); record; in_code input; in_targetUrl input; created;
           expires; ttlArgument (in_expiresAt input) createdAt]).

(** The [try] block of [create]: the outcome of the script, or nothing when
    anything in it throws. *)
Definition tryEnqueue (input : CreateLinkInput) (createdAt : Z) : async effect (option Z) :=
  try_catch
    (await ' (keys, arguments) <- lift (enqueueCall input createdAt);
     await result <- redis_eval (ENQUEUE_LINK keys arguments);
     resolve (Some result))
    (fun _ => resolve None).

Definition concludeCreate (input : CreateLinkInput) (createdAt : Z) (outcome : option Z) :
    async effect (option Link) :=
  match outcome with
  | None =>
      await_ increment "write_behind_fallbacks" 1;
      store_create (synchronous self) input
  | Some outcome =>
      if outcome =? 1 then
        await_ increment "links_queued" 1;
        resolve (Some {| code := in_code input; targetUrl := in_targetUrl input;
                         createdAt := createdAt; expiresAt := in_expiresAt input; clicks := 0 |})
      else if outcome =? 0 then resolve None
      else
        await_ increment "write_behind_backpressure" 1;
        store_create (synchronous self) input
  end.

Definition create (input : CreateLinkInput) : async effect (option Link) :=
  if bool_decide (in_codeSource input = Some Custom) then createCustom input
  else
    await ready <- isReady;
    if negb ready then
      await_ increment "write_behind_fallbacks" 1;
      store_create (synchronous self) input
    else
      await createdAt <- now;
      await outcome <- tryEnqueue input createdAt;
      concludeCreate input createdAt outcome.

Definition store : LinkStore :=
  {| store_create := create;
     store_find := store_find (synchronous self);
     store_recordClick := store_recordClick (synchronous self);
     store_size := store_size (synchronous self);
     store_isHealthy := store_isHealthy (synchronous self) |}.
End Store.

(** ** The script on the keyspace *)

Definition cached_fields (code targetUrl createdAt expiresAt : string) : list (string * string) :=
  [("code", code); ("targetUrl", targetUrl); ("createdAt", createdAt);
   ("expiresAt", expiresAt); ("clicks", "0"); ("pending", "1")].

(** What an accepted link leaves in Redis: its hash, with its time to live, and
    its record at the tail of its queue. *)
Definition enqueued (k : keyspace) (link queue : string) (l : list string)
    (fields : list (string * string)) (ttl : option Z) (record : string) : keyspace :=
  <[queue := {| value := RList (l ++ [record]); pttl := k !! queue ≫= pttl |}]>
    (<[link := {| value := RHash (set_fields ∅ fields); pttl := ttl |}]> k).

Section Script.
Context `{Redis}.

Lemma as_number_Int {A} n (f : Z -> script A) : async_bind (as_number (Int n)) f = f n.
Proof. done. Qed.

Lemma flag_one b : bool_decide (flag b = Int 1) = b.
Proof. by destruct b. Qed.

Lemma logged_ttl link ms k :
  k !! link <> None -> 0 < ms -> ttl_ok ms ->
  logged (await ms <- tonumber (js_String ms); redis PEXPIRE link ms; resolve tt) k
  = (set_ttl k link ms, [PEXPIRE link ms], Return tt).
Proof.
  intros Hk Hms Hok. rewrite (logged_tonumber _ ms) by apply read_integer_String.
  rewrite logged_call, execute_PEXPIRE by done. by rewrite logged_resolve.
Qed.

(** The three outcomes, each in one atomic step; in the first two nothing
    changes. *)
Lemma ENQUEUE_LINK_spec k link queue l limit record code url created expires (ttl : option Z) :
  link <> queue -> list_at k queue = Return l ->
  from_option (fun ms => 0 < ms /\ ttl_ok ms) True ttl ->
  let ttl_text := match ttl with Some ms => js_String ms | None => "0" end in
  logged (ENQUEUE_LINK [link; queue] [js_String limit; record; code; url; created; expires; ttl_text]) k
  = match k !! link with
    | Some _ => (k, [EXISTS link], Return 0)
    | None =>
        if limit <=? Z.of_nat (List.length l)
        then (k, [EXISTS link; LLEN queue], Return (-1))
        else (enqueued k link queue l (cached_fields code url created expires) ttl record,
              [EXISTS link; LLEN queue; HSET link (cached_fields code url created expires)]
              ++ match ttl with Some ms => [PEXPIRE link ms] | None => [] end
              ++ [RPUSH queue record], Return 1)
    end.
Proof.
  intros Hne Hl Httl ttl_text. unfold ENQUEUE_LINK.
  rewrite (logged_entry _ _ link) by done. rewrite logged_call, execute_EXISTS, flag_one.
  destruct (k !! link) as [e|] eqn:Hlink.
  { rewrite bool_decide_true by by eexists. by rewrite logged_resolve. }
  rewrite bool_decide_false by by intros []. rewrite (logged_entry _ _ queue) by done.
  rewrite logged_call, execute_LLEN, Hl. unfold answer. cbv beta iota zeta. rewrite as_number_Int.
  rewrite (logged_entry _ _ (js_String limit)), (logged_tonumber _ limit) by first
    [done|apply read_integer_String].
  destruct (limit <=? _); [by rewrite logged_resolve|].
  rewrite (logged_entry _ _ code), (logged_entry _ _ url), (logged_entry _ _ created),
    (logged_entry _ _ expires) by done.
  rewrite logged_call, execute_HSET by done.
  assert (Hh : hash_at k link = Return ∅) by (unfold hash_at; by rewrite Hlink).
  rewrite Hh. unfold answer. cbv beta iota zeta. rewrite (logged_entry _ _ ttl_text) by done.
  fold (cached_fields code url created expires).
  set (k1 := put k link (RHash (set_fields ∅ (cached_fields code url created expires)))).
  assert (Hk1 : k1 = <[link := {| value := RHash (set_fields ∅ (cached_fields code url created expires));
    pttl := None |}]> k) by (unfold k1, put; by rewrite Hlink).
  assert (Hpush : forall k2, list_at k2 queue = Return l -> forall cs,
    (let '(k3, cs2, r) := logged (arg record <- [js_String limit; record; code; url; created; expires; ttl_text] # 2;
       redis RPUSH queue record; resolve 1) k2 in (k3, cs ++ cs2, r))
    = (put k2 queue (RList (l ++ [record])), cs ++ [RPUSH queue record], Return 1)).
  { intros k2 Hk2 cs. rewrite (logged_entry _ _ record) by done.
    rewrite logged_call, execute_RPUSH, Hk2. unfold answer. cbv beta iota zeta. by rewrite logged_resolve. }
  rewrite logged_bind. destruct ttl as [ms|]; subst ttl_text; simpl in Httl.
  - destruct Httl as [Hms Hok]. rewrite bool_decide_true.
    2: { intros Heq. change "0" with (js_String 0) in Heq. apply js_String_inj in Heq. lia. }
    rewrite logged_ttl; [|by rewrite Hk1, lookup_insert_eq|done|done].
    cbv iota zeta. rewrite Hpush.
    + unfold enqueued, put. unfold set_ttl. rewrite Hk1, lookup_insert_eq.
      rewrite (proj2 (Z.leb_gt ms 0)) by lia. rewrite insert_insert_eq, lookup_insert_ne by done. done.
    + rewrite <- Hl. apply list_at_ext. rewrite set_ttl_lookup_ne by done. rewrite Hk1.
      by rewrite lookup_insert_ne.
  - rewrite bool_decide_false by by intros []. rewrite logged_resolve. cbv iota zeta.
    rewrite Hpush.
    + unfold enqueued, put. rewrite Hk1, lookup_insert_ne by done. done.
    + rewrite <- Hl. apply list_at_ext. rewrite Hk1. by rewrite lookup_insert_ne.
Qed.
End Script.

(** ** The calls of the store *)
Section Calls.
Context `{Redis}.

Definition pending_of (input : CreateLinkInput) (createdAt : Z) : PendingLink :=
  {| p_code := in_code input; p_targetUrl := in_targetUrl input; p_createdAt := createdAt;
     p_expiresAt := in_expiresAt input |}.

Definition ttl_of (input : CreateLinkInput) (createdAt : Z) : option Z :=
  (fun e => Z.max 1 (e - createdAt)) <$> in_expiresAt input.

Lemma valid_iso t s : toISOString t = Return s -> Z.abs t <= MAX_TIME.
Proof.
  unfold toISOString. destruct (valid_time t) eqn:Hv; [|done]. intros _.
  unfold valid_time in Hv. bool_to_prop. lia.
Qed.

Lemma enqueueCall_spec self input createdAt keys arguments :
  enqueueCall self input createdAt = Return (keys, arguments) ->
  exists record created expires,
    serializePendingLink (pending_of input createdAt) = Return record
    /\ toISOString createdAt = Return created
    /\ isoOrEmpty (in_expiresAt input) = Return expires
    /\ keys = [link_key (in_code input); queue_key (shardOf (in_code input))]
    /\ arguments = [js_String (maxPendingPerShard self); record; in_code input; in_targetUrl input;
         created; expires;
         match ttl_of input createdAt with Some ms => js_String ms | None => "0" end]
    /\ from_option (fun ms => 0 < ms /\ ttl_ok ms) True (ttl_of input createdAt).
Proof.
  unfold enqueueCall. rewrite linkKey_ok, syncQueueKey_eq by apply shardOf_range.
  cbn [result_bind]. fold (pending_of input createdAt).
  destruct (serializePendingLink _) as [record|] eqn:Hr; [|done]. cbn [result_bind].
  destruct (toISOString createdAt) as [created|] eqn:Hc; [|done]. cbn [result_bind].
  destruct (isoOrEmpty (in_expiresAt input)) as [expires|] eqn:He; [|done]. cbn [result_bind].
  intros [= <- <-]. exists record, created, expires. split_and!; try done.
  - unfold ttlArgument, ttl_of. by destruct (in_expiresAt input).
  - unfold ttl_of, isoOrEmpty in *. destruct (in_expiresAt input) as [e|]; [|done]. simpl.
    apply valid_iso in Hc, He. unfold ttl_ok, MAX_TIME in *. split; lia.
Qed.

(** One call of the script by [create]. *)
Lemma enqueue_logged self input createdAt keys arguments k l :
  enqueueCall self input createdAt = Return (keys, arguments) ->
  list_at k (queue_key (shardOf (in_code input))) = Return l ->
  exists record created expires,
    serializePendingLink (pending_of input createdAt) = Return record
    /\ toISOString createdAt = Return created /\ isoOrEmpty (in_expiresAt input) = Return expires
    /\ logged (ENQUEUE_LINK keys arguments) k
    = let link := link_key (in_code input) in
      let q := queue_key (shardOf (in_code input)) in
      let fields := cached_fields (in_code input) (in_targetUrl input) created expires in
      match k !! link with
      | Some _ => (k, [EXISTS link], Return 0)
      | None =>
          if maxPendingPerShard self <=? Z.of_nat (List.length l)
          then (k, [EXISTS link; LLEN q], Return (-1))
          else (enqueued k link q l fields (ttl_of input createdAt) record,
                [EXISTS link; LLEN q; HSET link fields]
                ++ match ttl_of input createdAt with Some ms => [PEXPIRE link ms] | None => [] end
                ++ [RPUSH q record], Return 1)
      end.
Proof.
  intros (record & created & expires & Hr & Hc & He & -> & -> & Httl)%enqueueCall_spec Hl.
  exists record, created, expires. split_and!; [done..|].
  apply (ENQUEUE_LINK_spec k _ _ l _ record (in_code input) (in_targetUrl input) created expires
    (ttl_of input createdAt)); [apply link_queue_ne|done|done].
Qed.

(** When the queue's key holds something else the script stops there. *)
Lemma enqueue_logged_wrongtype self input createdAt keys arguments k e :
  enqueueCall self input createdAt = Return (keys, arguments) ->
  list_at k (queue_key (shardOf (in_code input))) = Throw e ->
  exists cs r, logged (ENQUEUE_LINK keys arguments) k = (k, cs, r)
    /\ r <> Return 1 /\ forall q x, RPUSH q x ∉ cs.
Proof.
  intros (record & created & expires & Hr & _ & _ & -> & -> & Httl)%enqueueCall_spec Hl.
  unfold ENQUEUE_LINK. rewrite (logged_entry _ _ (link_key (in_code input))) by done.
  rewrite logged_call, execute_EXISTS, flag_one. destruct (bool_decide _).
  { eexists _, _. split; [by rewrite logged_resolve|]. split; [done|]. set_solver. }
  rewrite (logged_entry _ _ (queue_key (shardOf (in_code input)))) by done.
  rewrite logged_call, execute_LLEN, Hl. unfold answer. cbv beta iota zeta.
  eexists _, _. split; [done|]. split; [done|]. set_solver.
Qed.

Lemma queue_at k shard l : list_at k (queue_key shard) = Return l -> queue_of k shard = l.
Proof. unfold queue_of. by intros ->. Qed.

Lemma enqueued_queue k link shard l fields ttl record :
  link <> queue_key shard ->
  list_at (enqueued k link (queue_key shard) l fields ttl record) (queue_key shard)
  = Return (l ++ [record]).
Proof. intros Hne. unfold list_at, enqueued. by rewrite lookup_insert_eq. Qed.

Lemma enqueued_other k link q l fields ttl record key :
  key <> link -> key <> q -> enqueued k link q l fields ttl record !! key = k !! key.
Proof. intros H1 H2. unfold enqueued. by rewrite !lookup_insert_ne by done. Qed.

Lemma enqueued_queue_other k code shard shard' l fields ttl record :
  0 <= shard < LINK_KEY_SHARDS -> 0 <= shard' < LINK_KEY_SHARDS -> shard <> shard' ->
  list_at (enqueued k (link_key code) (queue_key shard) l fields ttl record) (queue_key shard')
  = list_at k (queue_key shard').
Proof.
  intros H1 H2 Hne. apply list_at_ext, enqueued_other.
  - auto with wraplink.
  - intros Heq. apply Hne. symmetry. by apply (key_of_inj "sync:queue").
Qed.
End Calls.

(** ** Properties *)

(** C14. Write-behind acceptance is atomic. On a keyspace where the shard's
    queue is [l], one execution of the script, with the keys and arguments
    [create] gives it, has exactly one of three outcomes: 0 and nothing changed
    when the code is already cached; -1 and nothing changed when the queue is
    full; otherwise 1, the cache entry with its fields and time to live and the
    record at the tail of the queue, nothing else changed, and that record
    reads back as the link. *)
Theorem enqueue_outcomes `{Redis} otherDate self input createdAt keys arguments k l :
  pending_ok (pending_of input createdAt) ->
  enqueueCall self input createdAt = Return (keys, arguments) ->
  list_at k (queue_key (shardOf (in_code input))) = Return l ->
  let link := link_key (in_code input) in
  (eval (ENQUEUE_LINK keys arguments) k = (k, Return 0) /\ is_Some (k !! link))
  \/ (eval (ENQUEUE_LINK keys arguments) k = (k, Return (-1)) /\ k !! link = None
      /\ maxPendingPerShard self <= Z.of_nat (List.length l))
  \/ exists k' record created expires,
      eval (ENQUEUE_LINK keys arguments) k = (k', Return 1) /\ k !! link = None
      /\ Z.of_nat (List.length l) < maxPendingPerShard self
      /\ list_at k' (queue_key (shardOf (in_code input))) = Return (l ++ [record])
      /\ parsePendingLink otherDate record = Some (pending_of input createdAt)
      /\ k' !! link = Some {| value := RHash (set_fields ∅
           (cached_fields (in_code input) (in_targetUrl input) created expires));
           pttl := ttl_of input createdAt |}
      /\ toISOString createdAt = Return created
      /\ (forall key, key <> link -> key <> queue_key (shardOf (in_code input)) -> k' !! key = k !! key).
Proof.
  intros Hok Hcall Hl link.
  pose proof (enqueueCall_spec _ _ _ _ _ Hcall) as (record' & created' & expires' & Hr' & Hc' & _ &
    Hkeys & Hargs & Httl).
  assert (Hspec := ENQUEUE_LINK_spec k link (queue_key (shardOf (in_code input))) l
    (maxPendingPerShard self) record' (in_code input) (in_targetUrl input) created' expires'
    (ttl_of input createdAt) (link_queue_ne _ _) Hl Httl). cbv zeta in Hspec.
  fold link in Hkeys. rewrite <- Hkeys, <- Hargs in Hspec. unfold logged in Hspec.
  destruct (eval (ENQUEUE_LINK keys arguments) k) as [k' r] eqn:He.
  destruct (k !! link) as [x|] eqn:Hlink.
  { left. injection Hspec as <- _ <-. split; [done|by eexists]. }
  right. destruct (Z.leb_spec (maxPendingPerShard self) (Z.of_nat (List.length l))).
  { left. injection Hspec as <- _ <-. done. }
  right. injection Hspec as -> _ ->.
  eexists _, record', created', expires'. split_and!; try done.
  - apply enqueued_queue, link_queue_ne.
  - by apply pending_roundtrip.
  - unfold enqueued. rewrite lookup_insert_ne by auto with wraplink. by rewrite lookup_insert_eq.
  - intros key H1 H2. by apply enqueued_other.
Qed.

(** The backlog of every shard is within its share. *)
Definition within_bound (self : WriteBehindLinkStore) (k : keyspace) : Prop :=
  forall shard, 0 <= shard < LINK_KEY_SHARDS ->
  Z.of_nat (List.length (queue_of k shard)) <= maxPendingPerShard self.

Definition keeps_bound (self : WriteBehindLinkStore) (s s' : state) : Prop :=
  within_bound self (ks s.1) -> within_bound self (ks s'.1).

(** The step of a process that accepts a link. *)
Definition accepts (self : WriteBehindLinkStore) (input : CreateLinkInput) (createdAt : Z)
    (s s' : state) : Prop :=
  let link := link_key (in_code input) in
  let q := queue_key (shardOf (in_code input)) in
  exists l record fields cs,
    list_at (ks s.1) q = Return l /\ ks s.1 !! link = None
    /\ Z.of_nat (List.length l) < maxPendingPerShard self
    /\ serializePendingLink (pending_of input createdAt) = Return record
    /\ (forall q x, RPUSH q x ∉ cs)
    /\ (exists created expires, toISOString createdAt = Return created /\ isoOrEmpty (in_expiresAt input) = Return expires
          /\ fields = cached_fields (in_code input) (in_targetUrl input) created expires)
    /\ s' = after s (enqueued (ks s.1) link q l fields (ttl_of input createdAt) record)
              (cs ++ [RPUSH q record]).

Definition accepted_link (input : CreateLinkInput) (createdAt : Z) : Link :=
  {| code := in_code input; targetUrl := in_targetUrl input; createdAt := createdAt;
     expiresAt := in_expiresAt input; clicks := 0 |}.

Section Interference.
Context `{Redis} `{Postgres}.
Context (choice_ok : choice -> Prop) (rely guar : state -> state -> Prop).
Context (rely_refl : forall s, rely s s) (rely_trans : forall a b c, rely a b -> rely b c -> rely a c).
Context (guar_quiet : forall s s', quiet s s' -> guar s s').
Context (self : WriteBehindLinkStore) (Q : state -> result (option Link) -> Prop).
Context (Q_throw : forall s e, Q s (Throw e)) (Q_none : forall s, Q s (Return None)).
(** An invariant of the state, and what the synchronous store promises in it. *)
Context (I : state -> Prop) (I_rely : forall s s', rely s s' -> I s -> I s') (I_guar : forall s s', guar s s' -> I s -> I s').
Context (input : CreateLinkInput).
Context (Hsync : forall s, I s -> safe choice_ok rely guar (store_create (synchronous self) input) Q s).

Lemma safe_increment name n {A} (f : async effect A) (P : state -> result A -> Prop) s :
  (forall s', rely s s' -> safe choice_ok rely guar f P s') ->
  (forall s' s'', quiet s' s'' -> rely s' s'') ->
  safe choice_ok rely guar (await_ increment name n; f) P s.
Proof.
  intros Hf Hq. apply safe_async_bind; [done..|]. apply safe_local; [done|done|].
  intros s1 s2 s3 c H1 H2 H3 _. simpl. apply Hf. eauto.
Qed.

Context (rely_quiet : forall s s', quiet s s' -> rely s s').

Lemma safe_I {A} (m : io effect A) s :
  I s -> safe choice_ok rely guar m (fun _ _ => True) s -> safe choice_ok rely guar m (fun s' _ => I s') s.
Proof.
  intros Hs Hm. eapply safe_mono; [|apply (safe_frame _ _ guar I m (fun _ _ => True)); [exact I_rely| |exact Hs]].
  - by intros s' a [_ ?].
  - eapply safe_guar; [|exact Hm]. eauto.
Qed.

Lemma createCustom_safe s : I s -> safe choice_ok rely guar (createCustom self input) Q s.
Proof.
  intros Hs. unfold createCustom. apply safe_async_bind; [done..|]. apply safe_local; [done|done|].
  intros s1 s2 s3 c H1 H2 H3 _. simpl.
  assert (Hs3 : I s3) by (eapply I_rely; [exact H3|]; eapply I_guar; [by apply guar_quiet|]; by eapply I_rely).
  destruct (c_ready c); [|by apply Hsync].
  apply safe_async_bind; [done..|]. apply safe_try_catch; [done..|].
  assert (Hf : forall b s', I s' -> safe choice_ok rely guar (resolve b)
    (fun s' r => match r with
                 | Return refused => safe choice_ok rely guar
                     (if refused : bool then resolve None else store_create (synchronous self) input) Q s'
                 | Throw e => safe choice_ok rely guar (reject e) Q s'
                 end) s').
  { intros b s' Hs'. apply safe_done. intros s'' H''. destruct b; [by apply safe_done|]. apply Hsync. by eapply I_rely. }
  apply safe_async_bind; [done..|]. apply safe_done. intros s4 H4. rewrite linkKey_ok.
  apply safe_async_bind; [done..|].
  apply (safe_mono _ _ _ _ (fun s' _ => I s')).
  { intros s' [b|e] Hs'; apply safe_done; intros s'' H''; apply Hf; by eapply I_rely. }
  apply (safe_I (redis_eval _) s4); [by eapply I_rely|]. apply safe_redis; [intros; apply guar_quiet, quiet_refl| |done].
  intros s5 _. rewrite logged_single, execute_HGET. unfold answer.
  destruct (hash_at (ks s5.1) _) as [h|e]; cbv beta iota zeta; split; try done; apply guar_quiet, quiet_after; set_solver.
Qed.

Context (guar_accepts : forall at_ s s', accepts self input at_ s s' -> guar s s').
Context (Q_accepts : forall at_ s s' s'',
  accepts self input at_ s s' -> rely s' s'' -> Q s'' (Return (Some (accepted_link input at_)))).

Lemma concludeCreate_safe at_ (outcome : option Z) s :
  I s -> (outcome = Some 1 -> forall s', rely s s' -> Q s' (Return (Some (accepted_link input at_)))) ->
  safe choice_ok rely guar (concludeCreate self input at_ outcome) Q s.
Proof.
  intros Hs Hq. unfold concludeCreate. fold (accepted_link input at_).
  assert (Hstep : forall s', rely s s' -> I s') by (intros s' Hs'; by eapply I_rely).
  destruct outcome as [o|]; [|apply safe_increment; [intros; by apply Hsync, Hstep|done]].
  destruct (Z.eqb_spec o 1) as [->|].
  - apply safe_increment; [|done]. intros s' Hs'. apply safe_done. intros s'' Hs''. eauto.
  - destruct (o =? 0); [by apply safe_done|]. apply safe_increment; [intros; by apply Hsync, Hstep|done].
Qed.

(** One execution of the script, whatever the keyspace. *)
Lemma enqueue_step at_ keys arguments s :
  enqueueCall self input at_ = Return (keys, arguments) ->
  let '(k, cs, r) := logged (ENQUEUE_LINK keys arguments) (ks s.1) in
  (quiet s (after s k cs) /\ r <> Return 1)
  \/ (accepts self input at_ s (after s k cs) /\ r = Return 1).
Proof.
  intros Hcall. destruct (list_at (ks s.1) (queue_key (shardOf (in_code input)))) as [l|e] eqn:Hl.
  - destruct (enqueue_logged self input at_ keys arguments _ l Hcall Hl)
      as (record & created & expires & Hr & Hc & He & ->). cbv zeta.
    destruct (ks s.1 !! link_key (in_code input)) eqn:Hlink.
    { left. split; [apply quiet_after; set_solver|done]. }
    destruct (Z.leb_spec (maxPendingPerShard self) (Z.of_nat (List.length l))).
    { left. split; [apply quiet_after; set_solver|done]. }
    right. split; [|done]. unfold accepts.
    eexists l, record, _, _. split_and!; [done..| |by eexists created, expires|by rewrite app_assoc].
    intros q x. destruct (ttl_of input at_); set_solver.
  - destruct (enqueue_logged_wrongtype self input at_ keys arguments _ e Hcall Hl)
      as (cs & r & -> & Hr & Hcs). left. split; [by apply quiet_after|done].
Qed.

Lemma tryEnqueue_safe at_ s :
  safe choice_ok rely guar (tryEnqueue self input at_)
    (fun s' r => match r with
     | Return outcome => outcome = Some 1 -> forall s'', rely s' s'' ->
         Q s'' (Return (Some (accepted_link input at_)))
     | Throw _ => False end) s.
Proof.
  unfold tryEnqueue. apply safe_try_catch; [done..|].
  apply safe_async_bind; [done..|]. apply safe_done. intros s1 _.
  destruct (enqueueCall self input at_) as [[keys arguments]|e] eqn:Hcall;
    [|apply safe_done; intros; by apply safe_done].
  apply safe_async_bind; [done..|]. apply safe_redis.
  - intros s2 _. apply guar_quiet, quiet_refl.
  - intros s2 _. pose proof (enqueue_step at_ keys arguments s2 Hcall) as Hstep.
    destruct (logged _ (ks s2.1)) as [[k cs] r]. destruct Hstep as [[Hquiet Hr]|[Hacc ->]].
    + split; [by apply guar_quiet|]. intros s3 _. destruct r as [o|e]; apply safe_done; intros s4 _;
        apply safe_done; intros s5 _; [|done]. intros [= ->]. done.
    + split; [by eapply guar_accepts|]. intros s3 H3. apply safe_done. intros s4 H4.
      apply safe_done. intros s5 H5 _ s6 H6. eapply Q_accepts; [exact Hacc|]. eauto.
  - intros s2. apply safe_done. intros s3 _. by apply safe_done.
Qed.

Lemma create_safe s : I s -> safe choice_ok rely guar (create self input) Q s.
Proof.
  intros Hs. assert (Hlocal : forall s s1 s2 s3, I s -> rely s s1 -> quiet s1 s2 -> rely s2 s3 -> I s3).
  { intros s0 s1 s2 s3 Ha Hb Hc Hd. eapply I_rely; [exact Hd|]. eapply I_guar; [by apply guar_quiet|]. by eapply I_rely. }
  unfold create. case_bool_decide as Hcustom; [by apply createCustom_safe|].
  apply safe_async_bind; [done..|]. apply safe_local; [done|done|].
  intros s1 s2 s3 c H1 H2 H3 _. cbn [perform snd]. assert (Hs3 : I s3) by by eapply Hlocal. destruct (c_ready c); cbn [negb];
    [|apply safe_increment; [intros; apply Hsync; by eapply I_rely|done]].
  apply safe_async_bind; [done..|]. apply safe_local; [done|done|].
  intros s4 s5 s6 c' H4 H5 H6 _. cbn [perform snd]. assert (Hs6 : I s6) by by eapply Hlocal.
  apply safe_async_bind; [done..|].
  eapply safe_mono; [|apply (safe_frame _ _ guar I); [exact I_rely| |exact Hs6]].
  2: { eapply safe_guar; [|apply (tryEnqueue_safe (clock s4.1))]. eauto. }
  intros s7 [outcome|e] [HQ Hs7]; [|done]. by apply concludeCreate_safe.
Qed.
End Interference.

Lemma keeps_bound_accepts self input at_ s s' : accepts self input at_ s s' -> keeps_bound self s s'.
Proof.
  intros (l & record & fields & cs & Hl & Hlink & Hlen & _ & _ & _ & ->) Hb shard Hshard.
  destruct (decide (shard = shardOf (in_code input))) as [->|Hne].
  - rewrite (queue_at _ _ (l ++ [record])) by (apply enqueued_queue, link_queue_ne).
    rewrite length_app. simpl. lia.
  - specialize (Hb shard Hshard). unfold queue_of in *. simpl.
    rewrite enqueued_queue_other; [exact Hb|apply shardOf_range|done|done].
Qed.

Definition total_backlog (k : keyspace) : Z :=
  foldr (fun shard acc => Z.of_nat (List.length (queue_of k shard)) + acc) 0 (seqZ 0 LINK_KEY_SHARDS).

Lemma total_within k cap shards :
  (forall shard, shard ∈ shards -> Z.of_nat (List.length (queue_of k shard)) <= cap) ->
  foldr (fun shard acc => Z.of_nat (List.length (queue_of k shard)) + acc) 0 shards
  <= cap * Z.of_nat (List.length shards).
Proof.
  induction shards as [|x shards IH]; intros Hb; simpl; [lia|].
  pose proof (Hb x ltac:(set_solver)). specialize (IH ltac:(set_solver)). lia.
Qed.

(** C24. Backpressure. Whatever other processes do within the same bound and
    whatever happens to the calls, [create] never takes a shard's queue beyond
    [maxPendingPerShard]; so all the queues together stay below
    [maxPendingLinks + 1024] (each shard's share is rounded up). *)
Theorem backlog_bounded `{Redis} `{Postgres} sync maxPendingLinks self input s :
  new sync maxPendingLinks = Return self ->
  (forall input s, safe (fun _ => True) (keeps_bound self) (keeps_bound self)
     (store_create sync input) (fun _ _ => True) s) ->
  safe (fun _ => True) (keeps_bound self) (keeps_bound self) (create self input) (fun _ _ => True) s
  /\ forall k, within_bound self k -> total_backlog k < maxPendingLinks + LINK_KEY_SHARDS.
Proof.
  unfold new. destruct (_ || _) eqn:Hg; [done|]. intros [= <-] Hsync. split.
  - assert (Hq : forall s s', quiet s s' -> keeps_bound
      {| synchronous := sync; maxPendingPerShard :=
         Z.max 1 ((maxPendingLinks + (LINK_KEY_SHARDS - 1)) / LINK_KEY_SHARDS) |} s s').
    { intros s1 s2 (Hk & _) Hb. by rewrite Hk. }
    apply (create_safe _ _ _ ) with (I := fun _ => True); try done.
    + by intros s1 Hs1.
    + intros a b c Hab Hbc Ha. by apply Hbc, Hab.
    + intros. by eapply keeps_bound_accepts.
  - intros k Hb. unfold total_backlog.
    apply Z.le_lt_trans with (1 := total_within k _ (seqZ 0 LINK_KEY_SHARDS)
      (fun shard Hin => Hb shard ltac:(apply elem_of_seqZ in Hin; lia))).
    rewrite length_seqZ. simpl. bool_to_prop. unfold LINK_KEY_SHARDS.
    Z.div_mod_to_equations. lia.
Qed.

(** The record of a link has been appended to the queue of its shard. *)
Definition queued (s : state) (link : Link) : Prop :=
  exists record,
    RPUSH (queue_key (shardOf (code link))) record ∈ s.2
    /\ serializePendingLink {| p_code := code link; p_targetUrl := targetUrl link;
         p_createdAt := createdAt link; p_expiresAt := expiresAt link |} = Return record.

(** C2. Nothing is acknowledged before it is durable: when [create] answers
    with a link, either Redis has appended exactly that link's record to the
    queue of its shard, or the synchronous store has answered with that link
    (so its own promise [P] holds). This covers a closed connection, lost
    requests, lost replies, full queues and custom codes, and any behaviour of
    the other processes. *)
Theorem create_acknowledged `{Redis} `{Postgres} self input s (P : state -> Link -> Prop) :
  (forall input s, safe (fun _ => True) log_grows (fun _ _ => True)
     (store_create (synchronous self) input)
     (fun s r => match r with Return (Some link) => P s link | _ => True end) s) ->
  safe (fun _ => True) log_grows (fun _ _ => True) (create self input)
    (fun s r => match r with Return (Some link) => queued s link \/ P s link | _ => True end) s.
Proof.
  intros Hsync. apply (create_safe _ _ _) with (I := fun _ => True); try done.
  - by intros s1; unfold log_grows.
  - by intros a b c; unfold log_grows; etrans.
  - intros s' _. eapply safe_mono; [|apply Hsync]. intros s2 [[link|]|e]; auto.
  - intros s1 s2 (_ & _ & cs & Hcs & _). exists cs. done.
  - intros at_ s1 s2 s3 (l & record & fields & cs & _ & _ & _ & Hr & _ & _ & ->) [tl Htl].
    left. exists record. split; [|exact Hr]. simpl in Htl. rewrite Htl. set_solver.
Qed.

(** ** Witnesses *)

(** A synchronous store that refuses everything. *)
Definition refusing_store : LinkStore :=
  {| store_create := fun _ => resolve None; store_find := fun _ => resolve None;
     store_recordClick := fun _ => resolve tt; store_size := resolve 0;
     store_isHealthy := resolve true |}.

Definition demo_store : WriteBehindLinkStore :=
  {| synchronous := refusing_store; maxPendingPerShard := 98 |}.

Definition wb_input : CreateLinkInput :=
  {| in_code := "docs"; in_targetUrl := "https://example.com/"; in_expiresAt := Some 1709168400123;
     in_codeSource := Some Generated |}.

Definition demo_call : list string * list string :=
  Eval vm_compute in
    match enqueueCall demo_store wb_input 1709164800123 with Return c => c | Throw _ => ([], []) end.

Lemma enqueue_outcomes_witness :
  exists k', @eval reference_redis _ (ENQUEUE_LINK demo_call.1 demo_call.2) ∅ = (k', Return 1)
    /\ list_at k' (queue_key (shardOf "docs")) = Return [demo_call.2 !!! 1%nat].
Proof.
  assert (Hok : pending_ok (pending_of wb_input 1709164800123)).
  { split; vm_compute; [reflexivity|split; [reflexivity|discriminate]]. }
  assert (Hcall : enqueueCall demo_store wb_input 1709164800123 = Return (demo_call.1, demo_call.2))
    by (vm_compute; reflexivity).
  assert (Hl : list_at ∅ (queue_key (shardOf (in_code wb_input))) = Return [])
    by (vm_compute; reflexivity).
  assert (Hone : (@eval reference_redis _ (ENQUEUE_LINK demo_call.1 demo_call.2) ∅).2 = Return 1)
    by (vm_compute; reflexivity).
  destruct (@enqueue_outcomes reference_redis no_other_date demo_store wb_input 1709164800123
    demo_call.1 demo_call.2 ∅ [] Hok Hcall Hl)
    as [[He _]|[[He _]|(k' & record & created & expires & He & _ & _ & Hq & Hp & _)]].
  - rewrite He in Hone. discriminate Hone.
  - rewrite He in Hone. discriminate Hone.
  - exists k'. split; [exact He|].
    assert (Hk : k' = (@eval reference_redis _ (ENQUEUE_LINK demo_call.1 demo_call.2) ∅).1)
      by (rewrite He; reflexivity).
    rewrite Hk. vm_compute. reflexivity.
Defined.

Lemma backlog_bounded_witness :
  new refusing_store 100000 = Return demo_store
  /\ forall k, within_bound demo_store k -> total_backlog k < 100000 + 1024.
Proof.
  assert (Hnew : new refusing_store 100000 = Return demo_store) by (vm_compute; reflexivity).
  split; [exact Hnew|].
  apply (@backlog_bounded reference_redis reference_postgres refusing_store 100000 demo_store
    wb_input (demo_world, []) Hnew).
  intros input s. simpl. intros s' _. exact I.
Defined.

Lemma create_acknowledged_witness :
  @safe reference_redis reference_postgres (fun _ => True) log_grows (fun _ _ => True) _
    (create demo_store wb_input)
    (fun s r => match r with Return (Some link) => queued s link \/ False | _ => True end)
    (demo_world, []).
Proof.
  apply (@create_acknowledged reference_redis reference_postgres demo_store wb_input
    (demo_world, []) (fun _ _ => False)).
  intros input s. simpl. intros s' _. exact I.
Defined.

(** A concrete run: accepted, then refused as a duplicate. *)
Example enqueue_twice :
  let run := @eval reference_redis _ (ENQUEUE_LINK demo_call.1 demo_call.2) in
  (run ∅).2 = Return 1 /\ (run (run ∅).1).2 = Return 0.
Proof. split; vm_compute; reflexivity. Qed.
