(* ===== verification/Deferred.v ===== *)
(** * The write-behind store over the cached one

    In write-behind mode src/src/server.ts puts a [WriteBehindLinkStore]
    (WriteBehind.v) in front of the [CachedLinkStore] (CachedStore.v). It keeps
    the contract of a store: it answers only with links that are stored or
    pending, and what it puts in the cache is a link it has queued. *)
From S2P Require Import Prelude JsNum JsString JsDate Keys Link Async Redis Sql World Interleave.
From S2P Require Import PostgresStore CachedStore WriteBehind.
Open Scope Z_scope.

Section Deferred.
Context `{Redis} `{Postgres} (otherDate : string -> option Z) (P : string -> Prop).

Local Instance queues : Backlog := queue_backlog P.

(** The link of a hash depends on four of its fields. *)
Lemma identity_fields (h h' : gmap string string) :
  (forall f, f ∈ ["code"; "targetUrl"; "createdAt"; "expiresAt"] -> h' !! f = h !! f) ->
  identity otherDate h' = identity otherDate h.
Proof. intros Hf. unfold identity. by rewrite !Hf by set_solver. Qed.

(** The hash of an accepted link stands for that link. *)
Lemma accepted_identity input at_ created expires l :
  toISOString at_ = Return created -> isoOrEmpty (in_expiresAt input) = Return expires ->
  identity otherDate (set_fields ∅ (cached_fields (in_code input) (in_targetUrl input) created expires)) = Some l ->
  l = accepted_link input at_.
Proof.
  intros Hc He. set (link := accepted_link input at_).
  rewrite (identity_fields (set_fields ∅ [("code", code link); ("targetUrl", targetUrl link); ("createdAt", created);
    ("expiresAt", expires); ("clicks", "0")])).
  - by apply (written_identity otherDate ∅ link created expires "0").
  - intros f Hf. unfold cached_fields, set_fields. cbn [fold_left fst snd link accepted_link code targetUrl].
    rewrite lookup_insert_ne; [done|]. intros <-. set_solver.
Qed.

(** Accepting a link keeps the cache coherent: its hash and its record appear
    together. *)
Lemma accepts_keeps self input at_ s s' :
  P (in_targetUrl input) -> accepts self input at_ s s' ->
  keeps otherDate s s' /\ vouched s' (in_code input) (accepted_link input at_).
Proof.
  intros Ht (l & record & fields & cs & Hl & Hlink & Hlen & Hrec & Hcs & (created & expires & Hc & He & ->) & ->).
  set (k := enqueued _ _ _ _ _ _ _). set (s' := after s k _).
  assert (Hv : vouched s' (in_code input) (accepted_link input at_)).
  { right. split_and!; [done..|]. exists (shardOf (in_code input)), record. split; [|done].
    simpl. rewrite !elem_of_app. do 2 right. by apply list_elem_of_singleton. }
  split; [|done]. apply keeps_redis. intros c h link Hh Hi.
  destruct (decide (c = in_code input)) as [->|Hne].
  - right. unfold hash_at, k, enqueued in Hh. rewrite lookup_insert_ne in Hh by auto with wraplink.
    rewrite lookup_insert_eq in Hh. injection Hh as <-.
    by rewrite (accepted_identity input at_ created expires link Hc He Hi).
  - left. exists h. split; [|done]. rewrite <- Hh. apply hash_at_ext. symmetry.
    apply enqueued_other; [|auto with wraplink]. by intros ?%link_key_inj.
Qed.

#[export] Instance write_behind_honest self :
  HonestStore otherDate (synchronous self) -> HonestStore otherDate (WriteBehind.store self).
Proof.
  intros [Hcreate Hfind Hclick]. split; [|exact Hfind|exact Hclick].
  intros input s Hi Ht Hco. cbn [WriteBehind.store store_create].
  apply (WriteBehind.create_safe _ _ _) with (I := coherent otherDate); try done.
  - apply keeps_refl.
  - apply keeps_trans.
  - apply keeps_quiet.
  - intros s1 s2. apply keeps_coherent.
  - intros s1 s2. apply keeps_coherent.
  - intros s1 Hs1. by apply Hcreate.
  - apply keeps_quiet.
  - intros at_ s1 s2 Ha. by eapply accepts_keeps.
  - intros at_ s1 s2 s3 Ha Hk. split; [|done]. eapply keeps_vouched; [exact Hk|]. by eapply accepts_keeps.
Qed.
End Deferred.
