(* ===== verification/SyncQueue.v ===== *)
(** * The queues of the link sync worker

    The [SyncQueue] interface of src/src/store/link-sync-worker.ts, its Redis
    implementation [RedisSyncQueue] and the two Lua scripts. *)
From S2P Require Import Prelude JsNum JsString Keys Async Redis Sql World.
Open Scope Z_scope.

Record SyncCompletion : Type := {
  consumed : Z;
  sc_persisted : list string;
  sc_conflicts : list string;
  deadLetters : list string;
  cacheTtlSeconds : Z
}.

(** What the worker needs of a queue. *)
Record SyncQueue : Type := {
  length : Z -> async effect Z;
  acquire : Z -> string -> Z -> async effect bool;
  peek : Z -> Z -> async effect (list string);
  complete : Z -> string -> SyncCompletion -> async effect bool;
  release : Z -> string -> async effect unit
}.

(** ** The scripts *)

(** [for index = 1, n do body(index) end], from [index]. *)
Fixpoint lua_for (n : nat) (index : nat) (body : nat -> script unit) : script unit :=
  match n with
  | O => resolve tt
  | S n => await_ body index; lua_for n (S index) body
  end.

(** The three loops of [COMPLETE_SYNC]. *)
Definition finalizeEntry (KEYS : list string) (ttlMs : Z) (index : nat) : script unit :=
  arg key <- KEYS # (3 + index);
  local pending <- HGET key "pending";
  if bool_decide (pending = Bulk "1") then
    redis HDEL key "pending";
    local reply <- PTTL key;
    await current <- as_number reply;
    if (current =? -1) || (ttlMs <? current) then redis PEXPIRE key ttlMs; resolve tt
    else resolve tt
  else resolve tt.

Definition dropEntry (KEYS : list string) (persisted : nat) (index : nat) : script unit :=
  arg key <- KEYS # (3 + persisted + index);
  local pending <- HGET key "pending";
  if bool_decide (pending = Bulk "1") then redis DEL key; resolve tt
  else resolve tt.

Definition pushDeadLetter (KEYS ARGV : list string) (index : nat) : script unit :=
  arg key <- KEYS # 3;
  arg letter <- ARGV # (6 + index);
  redis RPUSH key letter;
  resolve tt.

(** The script between the test of the lock and the trimming of the queue. *)
Definition settleEntries (KEYS ARGV : list string) (persisted conflicts dead ttlMs : Z) : script unit :=
  await_ lua_for (Z.to_nat persisted) 1 (finalizeEntry KEYS ttlMs);
  await_ lua_for (Z.to_nat conflicts) 1 (dropEntry KEYS (Z.to_nat persisted));
  await_ lua_for (Z.to_nat dead) 1 (pushDeadLetter KEYS ARGV);
  if 0 <? dead then
    arg key <- KEYS # 3;
    redis LTRIM key (-10000) (-1);
    resolve tt
  else resolve tt.

Definition COMPLETE_SYNC (KEYS ARGV : list string) : script Z :=
  arg lock <- KEYS # 2;
  local owner <- GET lock;
  arg token <- ARGV # 1;
  if negb (bool_decide (owner = Bulk token)) then resolve 0
  else
    arg persistedText <- ARGV # 3;
    await persisted <- tonumber persistedText;
    arg conflictsText <- ARGV # 4;
    await conflicts <- tonumber conflictsText;
    arg deadText <- ARGV # 5;
    await dead <- tonumber deadText;
    arg ttlText <- ARGV # 6;
    await ttlSeconds <- tonumber ttlText;
    await_ settleEntries KEYS ARGV persisted conflicts dead (ttlSeconds * 1000);
    arg queue <- KEYS # 1;
    arg consumedText <- ARGV # 2;
    await consumed <- tonumber consumedText;
    redis LTRIM queue consumed (-1);
    redis DEL lock;
    resolve 1.

Definition RELEASE_LOCK (KEYS ARGV : list string) : script Z :=
  arg lock <- KEYS # 1;
  local owner <- GET lock;
  arg token <- ARGV # 1;
  if bool_decide (owner = Bulk token) then
    local reply <- DEL lock;
    as_number reply
  else resolve 0.

(** ** [RedisSyncQueue] *)
Module RedisSyncQueue.

Definition length (shard : Z) : async effect Z :=
  await key <- lift (syncQueueKey shard);
  redis_eval (local reply <- LLEN key; as_number reply).

Definition acquire (shard : Z) (token : string) (ttlMs : Z) : async effect bool :=
  await key <- lift (syncLockKey shard);
  await result <- redis_eval (call (redis_call (SET_NX_PX key token ttlMs)));
  resolve (bool_decide (result = OK)).

Definition as_elements (r : reply) : script (list string) :=
  match r with
  | Elements l => resolve l
  | _ => reject "unexpected reply"
  end.

Definition peek (shard count : Z) : async effect (list string) :=
  await key <- lift (syncQueueKey shard);
  redis_eval (local reply <- LRANGE key 0 (count - 1); as_elements reply).

(** Keys and arguments of the completion script. *)
Definition completeCall (shard : Z) (token : string) (completion : SyncCompletion) :
    result (list string * list string) :=
  try queue <- syncQueueKey shard;
  try lock <- syncLockKey shard;
  try dead <- syncDeadLetterKey shard;
  try persistedKeys <- map_result linkKey (sc_persisted completion);
  try conflictKeys <- map_result linkKey (sc_conflicts completion);
  Return ([queue; lock; dead] ++ persistedKeys ++ conflictKeys,
          [token; js_String (consumed completion);
           js_String (Z.of_nat (List.length (sc_persisted completion)));
           js_String (Z.of_nat (List.length (sc_conflicts completion)));
           js_String (Z.of_nat (List.length (deadLetters completion)));
           js_String (cacheTtlSeconds completion)]
          ++ deadLetters completion).

Definition complete (shard : Z) (token : string) (completion : SyncCompletion) : async effect bool :=
  await ' (keys, arguments) <- lift (completeCall shard token completion);
  await result <- redis_eval (COMPLETE_SYNC keys arguments);
  resolve (result =? 1).

Definition release (shard : Z) (token : string) : async effect unit :=
  await key <- lift (syncLockKey shard);
  await_ redis_eval (RELEASE_LOCK [key] [token]);
  resolve tt.

Definition queue : SyncQueue :=
  {| SyncQueue.length := length; SyncQueue.acquire := acquire; SyncQueue.peek := peek;
     SyncQueue.complete := complete; SyncQueue.release := release |}.
End RedisSyncQueue.

(** ** The scripts on the keyspace *)

(** Who holds the lock of a shard. *)
Definition lock_holder (k : keyspace) (shard : Z) : option string :=
  match string_at k (lock_key shard) with Return owner => owner | Throw _ => None end.

Lemma lua_for_only P n index body :
  (forall i, (index <= i < index + n)%nat -> only P (body i)) -> only P (lua_for n index body).
Proof.
  revert index; induction n as [|n IH]; intros index Hb; [done|].
  apply only_async_bind; [apply Hb; lia|]. intros _. apply IH. intros i Hi. apply Hb. lia.
Qed.

(** Commands of [settleEntries]: on link entries, or additions to the
    dead-letter list. *)
Definition settling (links : list string) (dead : string) (c : command) : Prop :=
  command_key c ∈ links \/ command_key c = dead.

Lemma settleEntries_only q lock dead links rest ARGV p c d ttl :
  only (settling links dead)
    (settleEntries ([q; lock; dead] ++ links ++ rest) ARGV p c d ttl)
  \/ (List.length links < Z.to_nat p + Z.to_nat c)%nat.
Proof.
  destruct (decide (Z.to_nat p + Z.to_nat c <= List.length links)%nat) as [Hle|Hgt]; [left|right; lia].
  assert (Hkey : forall i s, (1 <= i <= Z.to_nat p + Z.to_nat c)%nat ->
    ([q; lock; dead] ++ links ++ rest) !! pred (3 + i) = Some s -> s ∈ links).
  { intros i s Hi Hs. replace (pred (3 + i)) with (3 + (i - 1))%nat in Hs by lia.
    rewrite lookup_app_r in Hs by (simpl; lia). rewrite lookup_app_l in Hs by (simpl; lia).
    by apply list_elem_of_lookup_2 in Hs. }
  unfold settleEntries. apply only_async_bind.
  { apply lua_for_only. intros i Hi. apply only_entry. intros s Hs.
    assert (Hin : s ∈ links) by (apply (Hkey i s); [lia|done]).
    apply only_call; [by left|]. intros r. case_bool_decide; [|done].
    apply only_call; [by left|]. intros _. apply only_call; [by left|]. intros rep.
    apply only_as_number. intros n. destruct (_ || _); [by apply only_call; [left|]|done]. }
  intros _. apply only_async_bind.
  { apply lua_for_only. intros i Hi. apply only_entry. intros s Hs.
    assert (Hin : s ∈ links).
    { apply (Hkey (Z.to_nat p + i)%nat s); [lia|]. by rewrite <- Hs. }
    apply only_call; [by left|]. intros r. case_bool_decide; [|done].
    apply only_call; [by left|done]. }
  intros _. apply only_async_bind.
  { apply lua_for_only. intros i Hi. apply only_entry. intros s [= <-].
    apply only_entry. intros letter _. apply only_call; [by right|done]. }
  intros _. destruct (0 <? d); [|done]. apply only_entry. intros s [= <-].
  apply only_call; [by right|done].
Qed.

Section OnKeyspace.
Context `{Redis}.

(** Every dead letter has been pushed when the loop returns. *)
Lemma pushDeadLetters_logged KEYS ARGV dead n index k :
  KEYS !! 2%nat = Some dead ->
  let '(k', cs, r) := logged (lua_for n index (pushDeadLetter KEYS ARGV)) k in
  r = Return tt ->
  forall i letter, (index <= i < index + n)%nat -> ARGV !! pred (6 + i) = Some letter ->
  RPUSH dead letter ∈ cs.
Proof.
  intros Hdead. revert index k; induction n as [|n IH]; intros index k.
  { simpl. unfold logged, eval. simpl. intros _ i letter Hi. lia. }
  simpl lua_for. rewrite logged_bind.
  assert (Hbody : forall letter, ARGV !! pred (6 + index) = Some letter ->
    (logged (pushDeadLetter KEYS ARGV index) k).1.2 = [RPUSH dead letter]).
  { intros letter Hletter. unfold pushDeadLetter. rewrite (logged_entry _ _ dead) by done.
    rewrite (logged_entry _ _ letter) by done. rewrite logged_call.
    destruct (execute k (RPUSH dead letter)) as [k' [a|e]]; [by rewrite logged_resolve|done]. }
  destruct (logged (pushDeadLetter KEYS ARGV index) k) as [[k1 cs1] [u|e]]; [|done].
  specialize (IH (S index) k1). destruct (logged (lua_for n (S index) _) k1) as [[k2 cs2] r2].
  intros Hr i letter Hi Hletter. rewrite elem_of_app.
  destruct (decide (i = index)) as [->|Hne].
  - left. simpl in Hbody. rewrite (Hbody letter Hletter). set_solver.
  - right. apply (IH Hr i); [lia|done].
Qed.

(** The same for the whole of [settleEntries]. *)
Lemma settleEntries_pushes KEYS ARGV dead p c d ttl k :
  KEYS !! 2%nat = Some dead ->
  let '(k', cs, r) := logged (settleEntries KEYS ARGV p c d ttl) k in
  r = Return tt ->
  forall i letter, (1 <= i <= Z.to_nat d)%nat -> ARGV !! pred (6 + i) = Some letter ->
  RPUSH dead letter ∈ cs.
Proof.
  intros Hdead. unfold settleEntries. rewrite logged_bind.
  destruct (logged (lua_for (Z.to_nat p) 1 _) k) as [[k1 cs1] [u1|e]]; [|done].
  rewrite logged_bind.
  destruct (logged (lua_for (Z.to_nat c) 1 _) k1) as [[k2 cs2] [u2|e]]; [|done].
  rewrite logged_bind.
  pose proof (pushDeadLetters_logged KEYS ARGV dead (Z.to_nat d) 1 k2 Hdead) as Hpush.
  destruct (logged (lua_for (Z.to_nat d) 1 _) k2) as [[k3 cs3] [u3|e]]; [|done].
  destruct (logged _ k3) as [[k4 cs4] r4].
  intros _ i letter Hi Hletter. destruct u3. rewrite !elem_of_app. right. right. left.
  apply (Hpush eq_refl i); [lia|done].
Qed.

Lemma put_list_pttl k key l :
  k !! key ≫= pttl = None -> put_list k key l !! key ≫= pttl = None.
Proof.
  intros Hk. destruct l as [|x l]; unfold put_list; [by rewrite lookup_delete_eq|].
  rewrite put_lookup, decide_True by done. done.
Qed.
End OnKeyspace.

Lemma map_linkKey codes : map_result linkKey codes = Return (link_key <$> codes).
Proof. induction codes as [|c codes IH]; [done|]. simpl. by rewrite linkKey_ok, IH. Qed.

Lemma completeCall_spec shard token completion :
  0 <= shard < LINK_KEY_SHARDS ->
  RedisSyncQueue.completeCall shard token completion
  = Return ([queue_key shard; lock_key shard; dead_key shard]
            ++ (link_key <$> sc_persisted completion) ++ (link_key <$> sc_conflicts completion),
       [token; js_String (consumed completion);
        js_String (Z.of_nat (List.length (sc_persisted completion)));
        js_String (Z.of_nat (List.length (sc_conflicts completion)));
        js_String (Z.of_nat (List.length (deadLetters completion)));
        js_String (cacheTtlSeconds completion)] ++ deadLetters completion).
Proof.
  intros Hs. unfold RedisSyncQueue.completeCall.
  rewrite syncQueueKey_eq, syncLockKey_eq, syncDeadLetterKey_eq by done. cbn [result_bind].
  by rewrite !map_linkKey.
Qed.

Section Complete.
Context `{Redis}.

(** What an execution of the completion script may do to the queues: nothing at
    all, or, for the holder of the lock, the whole completion. *)
Record left_alone (k k' : keyspace) (cs : list command) : Prop := {
  alone_queue s : k' !! queue_key s = k !! queue_key s;
  alone_lock s : k' !! lock_key s = k !! lock_key s;
  alone_log s x : RPUSH (queue_key s) x ∉ cs
}.

Record completed_by (shard : Z) (token : string) (completion : SyncCompletion)
    (k k' : keyspace) (cs : list command) : Prop := {
  done_holder : lock_holder k shard = Some token;
  done_queue : queue_of k' shard = drop (Z.to_nat (consumed completion)) (queue_of k shard);
  done_typed : exists l, list_at k' (queue_key shard) = Return l;
  done_ttl : k !! queue_key shard ≫= pttl = None -> k' !! queue_key shard ≫= pttl = None;
  done_lock : k' !! lock_key shard = None;
  done_others s : 0 <= s < LINK_KEY_SHARDS -> s <> shard ->
    k' !! queue_key s = k !! queue_key s /\ k' !! lock_key s = k !! lock_key s;
  done_letters letter : letter ∈ deadLetters completion -> RPUSH (dead_key shard) letter ∈ cs;
  done_log s x : RPUSH (queue_key s) x ∉ cs
}.

Lemma left_alone_refl k cs : (forall s x, RPUSH (queue_key s) x ∉ cs) -> left_alone k k cs.
Proof. by split. Qed.

Lemma settling_other links dead shard c :
  dead = dead_key shard -> settling (link_key <$> links) dead c ->
  (forall s, command_key c <> queue_key s) /\ forall s, command_key c <> lock_key s.
Proof.
  intros -> [Hin|Hdead].
  - apply list_elem_of_fmap in Hin as (code & -> & _). auto with wraplink.
  - rewrite Hdead. auto with wraplink.
Qed.

Lemma settling_no_push links dead shard cs s x :
  dead = dead_key shard -> Forall (settling (link_key <$> links) dead) cs ->
  RPUSH (queue_key s) x ∉ cs.
Proof.
  intros Hd Hall Hin. rewrite Forall_forall in Hall. specialize (Hall _ Hin).
  destruct (settling_other _ _ _ _ Hd Hall) as [Hq _]. by apply (Hq s).
Qed.

(** [settleEntries], as the completion script calls it, touches no queue and
    no lock. *)
Lemma settle_logged shard token completion k ttl :
  let keys := [queue_key shard; lock_key shard; dead_key shard]
    ++ (link_key <$> sc_persisted completion) ++ (link_key <$> sc_conflicts completion) in
  let arguments :=
       [token; js_String (consumed completion);
        js_String (Z.of_nat (List.length (sc_persisted completion)));
        js_String (Z.of_nat (List.length (sc_conflicts completion)));
        js_String (Z.of_nat (List.length (deadLetters completion)));
        js_String (cacheTtlSeconds completion)] ++ deadLetters completion in
  let '(k', cs, r) := logged (settleEntries keys arguments
    (Z.of_nat (List.length (sc_persisted completion)))
    (Z.of_nat (List.length (sc_conflicts completion)))
    (Z.of_nat (List.length (deadLetters completion))) ttl) k in
  left_alone k k' cs
  /\ (r = Return tt -> forall letter, letter ∈ deadLetters completion ->
      RPUSH (dead_key shard) letter ∈ cs).
Proof.
  intros keys arguments.
  set (links := sc_persisted completion ++ sc_conflicts completion).
  assert (Honly : only (settling (link_key <$> links) (dead_key shard))
    (settleEntries keys arguments (Z.of_nat (List.length (sc_persisted completion)))
      (Z.of_nat (List.length (sc_conflicts completion)))
      (Z.of_nat (List.length (deadLetters completion))) ttl)).
  { destruct (settleEntries_only (queue_key shard) (lock_key shard) (dead_key shard)
      (link_key <$> links) [] arguments (Z.of_nat (List.length (sc_persisted completion)))
      (Z.of_nat (List.length (sc_conflicts completion)))
      (Z.of_nat (List.length (deadLetters completion))) ttl) as [Ho|Hlen].
    - unfold links in Ho. rewrite fmap_app, app_nil_r in Ho. unfold links. rewrite fmap_app. exact Ho.
    - exfalso. unfold links in Hlen. rewrite length_fmap, length_app in Hlen. lia. }
  pose proof (logged_only _ _ k Honly) as Hlog.
  pose proof (settleEntries_pushes keys arguments (dead_key shard)
    (Z.of_nat (List.length (sc_persisted completion)))
    (Z.of_nat (List.length (sc_conflicts completion)))
    (Z.of_nat (List.length (deadLetters completion))) ttl k eq_refl) as Hpush.
  destruct (logged _ k) as [[k' cs] r]. destruct Hlog as [Hall Hframe]. split.
  - split.
    + intros s. apply Hframe. intros c Hc. by apply (settling_other _ _ _ _ eq_refl Hc).
    + intros s. apply Hframe. intros c Hc. by apply (settling_other _ _ _ _ eq_refl Hc).
    + intros s x. by apply (settling_no_push _ _ _ _ _ _ eq_refl Hall).
  - intros Hr letter Hin. apply list_elem_of_lookup in Hin as [i Hi].
    apply (Hpush Hr (S i)); [apply lookup_lt_Some in Hi; lia|].
    unfold arguments. replace (pred (6 + S i)) with (6 + i)%nat by lia.
    rewrite lookup_app_r by (simpl; lia). simpl. by rewrite Nat.sub_0_r.
Qed.

(** The lines after [settleEntries]. *)
Lemma trim_logged (shard n : Z) KEYS ARGV k1 l :
  KEYS !! 0%nat = Some (queue_key shard) -> ARGV !! 1%nat = Some (js_String n) ->
  0 <= n -> list_at k1 (queue_key shard) = Return l ->
  logged (arg queue <- KEYS # 1; arg consumedText <- ARGV # 2;
          await consumed <- tonumber consumedText;
          redis LTRIM queue consumed (-1); redis DEL (lock_key shard); resolve 1) k1
  = (delete (lock_key shard) (put_list k1 (queue_key shard) (drop (Z.to_nat n) l)),
     [LTRIM (queue_key shard) n (-1); DEL (lock_key shard)], Return 1).
Proof.
  intros Hq Hn Hpos Hl. rewrite (logged_entry _ _ (queue_key shard)) by done.
  rewrite (logged_entry _ _ (js_String n)), (logged_tonumber _ n) by
    first [done|apply read_integer_String].
  rewrite logged_call, execute_LTRIM, Hl. unfold answer. cbv beta iota zeta.
  rewrite list_range_suffix by done. by rewrite logged_call, execute_DEL.
Qed.

Lemma queue_of_ext k k' s : k' !! queue_key s = k !! queue_key s -> queue_of k' s = queue_of k s.
Proof. intros Hk. unfold queue_of. by rewrite (list_at_ext k' k). Qed.

Lemma lock_holder_ext k k' s : k' !! lock_key s = k !! lock_key s -> lock_holder k' s = lock_holder k s.
Proof. intros Hk. unfold lock_holder. by rewrite (string_at_ext k' k). Qed.

(** The completion script, whoever calls it and whatever the keyspace: all or
    nothing of the queue and the lock. *)
Lemma COMPLETE_SYNC_spec shard token completion keys arguments k l :
  0 <= shard < LINK_KEY_SHARDS -> 0 <= consumed completion ->
  list_at k (queue_key shard) = Return l ->
  RedisSyncQueue.completeCall shard token completion = Return (keys, arguments) ->
  let '(k', cs, r) := logged (COMPLETE_SYNC keys arguments) k in
  (r <> Return 1 /\ left_alone k k' cs)
  \/ (r = Return 1 /\ completed_by shard token completion k k' cs).
Proof.
  intros Hs Hn Hl. rewrite completeCall_spec by done. intros Hcall%Return_inj.
  pose proof (f_equal fst Hcall) as Hkeys. pose proof (f_equal snd Hcall) as Hargs.
  cbn [fst snd] in Hkeys, Hargs. clear Hcall.
  pose proof (fun k1 => settle_logged shard token completion k1 (cacheTtlSeconds completion * 1000))
    as Hsettle. cbv zeta in Hsettle. rewrite Hkeys, Hargs in Hsettle.
  assert (HK1 : keys !! 0%nat = Some (queue_key shard)) by by subst keys.
  assert (HK2 : keys !! 1%nat = Some (lock_key shard)) by by subst keys.
  assert (HA2 : arguments !! 1%nat = Some (js_String (consumed completion))) by by subst arguments.
  unfold COMPLETE_SYNC. rewrite (logged_entry _ _ (lock_key shard)) by done.
  rewrite logged_call, execute_GET. unfold answer.
  destruct (string_at k (lock_key shard)) as [owner|e] eqn:Howner; cbv beta iota zeta.
  2: { left. split; [done|]. apply left_alone_refl. set_solver. }
  rewrite (logged_entry _ _ token) by by subst arguments.
  destruct (decide (owner = Some token)) as [->|Hne].
  2: { rewrite bool_decide_false; [|destruct owner; simpl; congruence]. cbn [negb].
       rewrite logged_resolve. left. split; [done|]. apply left_alone_refl. set_solver. }
  rewrite bool_decide_true by done. cbn [negb].
  rewrite (logged_entry _ _ (js_String (Z.of_nat (List.length (sc_persisted completion)))))
    by by subst arguments.
  rewrite (logged_tonumber _ _ _ _ (read_integer_String _)).
  rewrite (logged_entry _ _ (js_String (Z.of_nat (List.length (sc_conflicts completion)))))
    by by subst arguments.
  rewrite (logged_tonumber _ _ _ _ (read_integer_String _)).
  rewrite (logged_entry _ _ (js_String (Z.of_nat (List.length (deadLetters completion)))))
    by by subst arguments.
  rewrite (logged_tonumber _ _ _ _ (read_integer_String _)).
  rewrite (logged_entry _ _ (js_String (cacheTtlSeconds completion))) by by subst arguments.
  rewrite (logged_tonumber _ _ _ _ (read_integer_String _)).
  rewrite logged_bind. specialize (Hsettle k).
  destruct (logged (settleEntries _ _ _ _ _ _) k) as [[k1 cs1] [u|e]]; destruct Hsettle as [Halone Hpush].
  2: { left. split; [done|]. destruct Halone as [Hq Hk Hlog]. split; try done. set_solver. }
  assert (Hl1 : list_at k1 (queue_key shard) = Return l).
  { rewrite <- Hl. apply list_at_ext, Halone. }
  rewrite (trim_logged shard (consumed completion) keys arguments k1 l) by done.
  right. split; [done|]. destruct u. destruct Halone as [Hq Hk Hlog]. split.
  - unfold lock_holder. by rewrite Howner.
  - unfold queue_of. rewrite (list_at_ext _ (put_list k1 (queue_key shard)
      (drop (Z.to_nat (consumed completion)) l))) by (rewrite lookup_delete_ne by auto with wraplink; done).
    by rewrite list_at_put_list, Hl.
  - eexists. rewrite (list_at_ext _ (put_list k1 (queue_key shard)
      (drop (Z.to_nat (consumed completion)) l))) by (rewrite lookup_delete_ne by auto with wraplink; done).
    apply list_at_put_list.
  - intros Hnone. rewrite lookup_delete_ne by auto with wraplink.
    apply put_list_pttl. by rewrite Hq.
  - apply lookup_delete_eq.
  - intros s Hs' Hne. rewrite !lookup_delete_ne, !put_list_lookup_ne; [by rewrite Hq, Hk|..];
      auto with wraplink; intros Heq; apply Hne.
    + symmetry. by apply (key_of_inj "sync:queue").
    + symmetry. by apply (key_of_inj "sync:lock").
  - intros letter Hin. apply elem_of_cons. right. apply elem_of_app. left. by apply Hpush.
  - intros s x Hin. apply (Hlog s x). set_solver.
Qed.

(** Releasing removes the caller's own lock or nothing. *)
Lemma RELEASE_LOCK_spec shard token k :
  let '(k', cs, r) := logged (RELEASE_LOCK [lock_key shard] [token]) k in
  (forall q x, RPUSH q x ∉ cs)
  /\ (k' = k \/ (k' = delete (lock_key shard) k /\ lock_holder k shard = Some token)).
Proof.
  unfold RELEASE_LOCK. rewrite (logged_entry _ _ (lock_key shard)) by done.
  rewrite logged_call, execute_GET. unfold answer.
  destruct (string_at k (lock_key shard)) as [owner|e] eqn:Howner; cbv beta iota zeta.
  2: { split; [set_solver|by left]. }
  rewrite (logged_entry _ _ token) by done. case_bool_decide as Hown.
  2: { rewrite logged_resolve. split; [set_solver|by left]. }
  rewrite logged_call, execute_DEL. unfold flag. unfold as_number. rewrite logged_resolve.
  split; [set_solver|]. right. split; [done|]. unfold lock_holder. rewrite Howner.
  destruct owner; simpl in Hown; congruence.
Qed.
End Complete.
