(* ===== verification/MapShards.v ===== *)
(** * Bounded concurrency over the shards

    [LinkSyncWorker.mapShards] of src/src/store/link-sync-worker.ts: a fixed
    number of lanes take the shards one after the other and store each task's
    value at the shard's position. A lane runs without interruption from the
    end of one task to the start of the next, so the lanes interleave at the
    ends of tasks. A task that rejects ends its lane, the first one rejects the
    call, and the other lanes go on. *)
From S2P Require Import Prelude.

Section Lanes.
Context {T : Type}.

Record lanes : Type := {
  next : nat;
  working : list (option nat);   (* per lane: the index of its task *)
  results : list (option T)
}.

(** The loop test of a lane and its next task. *)
Definition take_next (count : nat) (lane : nat) (s : lanes) : lanes :=
  if next s <? count
  then {| next := S (next s); working := <[lane := Some (next s)]> (working s); results := results s |}
  else {| next := next s; working := <[lane := None]> (working s); results := results s |}.

(** [Math.min(this.concurrency, shards.length)] lanes; a length that is not
    positive gives none. *)
Definition lane_count (concurrency : Z) (count : nat) : nat :=
  Z.to_nat (Z.min concurrency (Z.of_nat count)).

(** [Array.from] starts the lanes in order. *)
Definition start_lanes (count lanes_ : nat) : lanes :=
  fold_left (fun s lane => take_next count lane s) (seq 0 lanes_)
    {| next := 0; working := replicate lanes_ None; results := replicate count None |}.

Definition mapShards (concurrency : Z) (count : nat) : lanes :=
  start_lanes count (lane_count concurrency count).

(** The task of [lane] ends with [value]. *)
Definition task_done (count lane : nat) (value : T) (s : lanes) : option lanes :=
  match working s !! lane with
  | Some (Some index) =>
      Some (take_next count lane
        {| next := next s; working := working s; results := <[index := Some value]> (results s) |})
  | _ => None
  end.

(** The task of [lane] rejects: the [await] throws and the lane is over. *)
Definition task_rejected (lane : nat) (s : lanes) : option lanes :=
  match working s !! lane with
  | Some (Some _) => Some {| next := next s; working := <[lane := None]> (working s); results := results s |}
  | _ => None
  end.

Definition finished (s : lanes) : Prop := Forall (fun w => w = None) (working s).

#[export] Instance finished_dec s : Decision (finished s).
Proof. unfold finished. apply _. Defined.

(** [await Promise.all(lanes)]; [failed]: the rejections so far, in order. *)
Inductive call : Type := Pending | Rejected (error : string) | Fulfilled (values : list (option T)).

Definition outcome (s : lanes) (failed : list (nat * string)) : call :=
  match failed with
  | (_, error) :: _ => Rejected error
  | [] => if decide (finished s) then Fulfilled (results s) else Pending
  end.

(** Executions, with the values delivered so far, the rejections so far and the
    tasks they belong to. *)
Inductive running (concurrency : Z) (count : nat) : lanes -> list (nat * T) -> list (nat * string) -> Prop :=
  | running_start : running concurrency count (mapShards concurrency count) [] []
  | running_done s s' lane index value done_ failed :
      running concurrency count s done_ failed ->
      working s !! lane = Some (Some index) -> task_done count lane value s = Some s' ->
      running concurrency count s' ((index, value) :: done_) failed
  | running_rejected s s' lane index error done_ failed :
      running concurrency count s done_ failed ->
      working s !! lane = Some (Some index) -> task_rejected lane s = Some s' ->
      running concurrency count s' done_ (failed ++ [(index, error)]).

Definition in_flight (s : lanes) : list nat := omap id (working s).

Record lanes_ok (count lanes_ : nat) (s : lanes) (done_ : list (nat * T)) (failed : list (nat * string)) : Prop := {
  ok_next : (next s <= count)%nat;
  ok_lanes : List.length (working s) = lanes_;
  ok_taken : done_.*1 ++ failed.*1 ++ in_flight s ≡ₚ seq 0 (next s);
  ok_idle : failed = [] -> None ∈ working s -> next s = count;
  ok_length : List.length (results s) = count;
  ok_results i : (i < count)%nat -> results s !! i = Some ((list_to_map done_ : gmap nat T) !! i)
}.

(** While no task has rejected. *)
Lemma ok_fulfilled count lanes_ s done_ :
  lanes_ok count lanes_ s done_ [] -> done_.*1 ++ in_flight s ≡ₚ seq 0 (next s).
Proof. apply ok_taken. Qed.

Lemma in_flight_insert (w : list (option nat)) lane old new :
  w !! lane = Some old ->
  omap id (<[lane := new]> w) ++ option_list old ≡ₚ omap id w ++ option_list new.
Proof.
  revert lane; induction w as [|x w IH]; intros [|lane] Hl; simplify_eq/=.
  - destruct old as [o|], new as [n|]; simpl; rewrite ?app_nil_r; try done;
      solve_Permutation || (rewrite Permutation_app_comm; simpl; try done;
        rewrite (Permutation_app_comm (omap id w)); simpl; by rewrite Permutation_swap).
  - specialize (IH lane Hl). destruct x as [x|]; simpl; [|done]. by rewrite IH.
Qed.

Lemma in_flight_none lanes_ : omap id (replicate lanes_ None : list (option nat)) = [].
Proof. by induction lanes_. Qed.

Lemma start_lanes_spec count lanes_ k :
  (k <= lanes_ <= count)%nat ->
  fold_left (fun s lane => take_next count lane s) (seq 0 k)
    {| next := 0; working := replicate lanes_ None; results := replicate count None |}
  = {| next := k; working := (Some <$> seq 0 k) ++ replicate (lanes_ - k) None;
       results := replicate count None |}.
Proof.
  induction k as [|k IH]; intros Hk; [by rewrite Nat.sub_0_r|].
  rewrite seq_S, fold_left_app, IH by lia. simpl. unfold take_next. simpl.
  replace (k <? count) with true by (symmetry; apply Nat.ltb_lt; lia).
  rewrite fmap_app, <- app_assoc. f_equal.
  rewrite insert_app_r_alt by (rewrite length_fmap, length_seq; lia).
  rewrite length_fmap, length_seq, Nat.sub_diag.
  by replace (lanes_ - k) with (S (lanes_ - S k)) by lia.
Qed.

Lemma lanes_ok_start concurrency count :
  lanes_ok count (lane_count concurrency count) (mapShards concurrency count) [] [].
Proof.
  unfold mapShards, start_lanes. assert (Hl : (lane_count concurrency count <= count)%nat)
    by (unfold lane_count; lia).
  set (l := lane_count concurrency count) in *. rewrite start_lanes_spec, Nat.sub_diag, app_nil_r by lia.
  split; simpl.
  - done.
  - by rewrite length_fmap, length_seq.
  - unfold in_flight. simpl. rewrite <- (list_fmap_id (seq 0 l)) at 2.
    clear Hl. generalize 0. induction l as [|l IH]; intros a; [done|]. simpl. by rewrite IH.
  - intros _ (x & Hx & _)%list_elem_of_fmap. done.
  - apply length_replicate.
  - intros i Hi. by rewrite lookup_replicate_2.
Qed.

Lemma working_in_flight s lane index : working s !! lane = Some (Some index) -> index ∈ in_flight s.
Proof.
  intros Hw. apply list_elem_of_omap. exists (Some index). split; [by eapply list_elem_of_lookup_2|done].
Qed.

(** No lane becomes idle but the given one. *)
Lemma idle_insert (w : list (option nat)) lane index new :
  w !! lane = Some (Some index) -> None ∈ <[lane := Some new]> w -> None ∈ w.
Proof.
  intros Hw [j Hj]%list_elem_of_lookup. destruct (decide (lane = j)) as [->|Hne].
  - rewrite list_lookup_insert_eq in Hj by by eapply lookup_lt_Some. done.
  - rewrite list_lookup_insert_ne in Hj by done. by eapply list_elem_of_lookup_2.
Qed.

Lemma lanes_ok_step count lanes_ lane index value s s' done_ failed :
  lanes_ok count lanes_ s done_ failed -> working s !! lane = Some (Some index) ->
  task_done count lane value s = Some s' -> lanes_ok count lanes_ s' ((index, value) :: done_) failed.
Proof.
  intros [Hn Hl Ht Hi Hlen Hr] Hw. unfold task_done. rewrite Hw. intros [= <-].
  assert (Hflight : forall new, omap id (<[lane := new]> (working s)) ++ [index]
    ≡ₚ in_flight s ++ option_list new).
  { intros new. exact (in_flight_insert (working s) lane (Some index) new Hw). }
  assert (Hin : index ∈ seq 0 (next s)).
  { rewrite <- Ht. apply elem_of_app. right. apply elem_of_app. right. by eapply working_in_flight. }
  apply elem_of_seq in Hin.
  assert (Hresults : forall i, (i < count)%nat -> <[index := Some value]> (results s) !! i
    = Some ((list_to_map ((index, value) :: done_) : gmap nat T) !! i)).
  { intros i Hi'. simpl. destruct (decide (index = i)) as [->|Hne].
    - rewrite list_lookup_insert_eq by (rewrite Hlen; lia). by rewrite lookup_insert_eq.
    - rewrite list_lookup_insert_ne by done. rewrite Hr by done. by rewrite lookup_insert_ne. }
  unfold take_next. simpl. destruct (Nat.ltb_spec (next s) count) as [Hlt|Hge]; split; cbn [next working results];
    rewrite ?length_insert; try done; try lia.
  - rewrite fmap_cons, seq_S, Nat.add_0_l, <- Ht. unfold in_flight at 1. cbn [working fst].
    rewrite <- !app_assoc. fold (in_flight s). rewrite <- (Hflight (Some (next s))).
    by rewrite !app_assoc, <- Permutation_cons_append.
  - intros Hf Hidle%(idle_insert _ _ _ _ Hw). specialize (Hi Hf Hidle). lia.
  - rewrite fmap_cons, <- Ht. unfold in_flight at 1. cbn [working fst]. specialize (Hflight None). simpl in Hflight.
    rewrite app_nil_r in Hflight. by rewrite <- Hflight, !app_assoc, <- Permutation_cons_append.
Qed.

Lemma lanes_ok_rejected count lanes_ lane index error s s' done_ failed :
  lanes_ok count lanes_ s done_ failed -> working s !! lane = Some (Some index) ->
  task_rejected lane s = Some s' -> lanes_ok count lanes_ s' done_ (failed ++ [(index, error)]).
Proof.
  intros [Hn Hl Ht Hi Hlen Hr] Hw. unfold task_rejected. rewrite Hw. intros [= <-].
  pose proof (in_flight_insert (working s) lane (Some index) None Hw) as Hflight. simpl in Hflight.
  rewrite app_nil_r in Hflight. split; cbn [next working results]; rewrite ?length_insert; try done.
  - rewrite <- Ht. unfold in_flight at 1. cbn [working]. rewrite fmap_app, <- app_assoc.
    change ([(index, error)].*1) with [index]. by rewrite (Permutation_app_comm [index]), Hflight.
  - by intros [_ ?]%app_nil.
Qed.

Lemma running_ok concurrency count s done_ failed :
  running concurrency count s done_ failed -> lanes_ok count (lane_count concurrency count) s done_ failed.
Proof.
  induction 1 as [|s s' lane index value done_ failed _ IH Hw Hd|s s' lane index error done_ failed _ IH Hw Hd];
    [apply lanes_ok_start|by eapply lanes_ok_step|by eapply lanes_ok_rejected].
Qed.

Lemma in_flight_bound s : (List.length (in_flight s) <= List.length (working s))%nat.
Proof. unfold in_flight. induction (working s) as [|[x|] w IH]; cbn; lia. Qed.

Lemma finished_no_flight s : finished s -> in_flight s = [].
Proof.
  unfold finished, in_flight. induction (working s) as [|x w IH]; [done|].
  intros [-> Hw]%Forall_cons. by apply IH.
Qed.
Lemma busy_in_flight s : ~ finished s -> in_flight s <> [].
Proof.
  intros Hf He. apply Hf. apply Forall_forall. intros [x|] Hx; [|done].
  assert (x ∈ in_flight s) as Hin by (apply list_elem_of_omap; by exists (Some x)).
  rewrite He in Hin. by apply not_elem_of_nil in Hin.
Qed.

Lemma finished_all concurrency count s done_ :
  (1 <= concurrency)%Z -> lanes_ok count (lane_count concurrency count) s done_ [] ->
  finished s -> done_.*1 ≡ₚ seq 0 count.
Proof.
  intros Hc [Hn Hl Ht Hi Hlen Hr] Hf. rewrite (finished_no_flight _ Hf), !app_nil_r in Ht. rewrite Ht.
  destruct (working s) as [|w ws] eqn:Hw.
  - simpl in Hl. unfold lane_count in Hl. assert (count = 0)%nat as -> by lia.
    by replace (next s) with 0%nat by lia.
  - rewrite Hi; [done|done|]. unfold finished in Hf. rewrite Hw in Hf.
    apply Forall_cons in Hf as [-> _]. apply elem_of_cons. by left.
Qed.
End Lanes.

(** C25. Every shard is processed exactly once per call, at most [concurrency]
    at a time: however the tasks of the lanes interleave, and whichever of them
    reject, no shard's task is started twice and a call with a busy lane has a
    task in flight. The call rejects exactly when a task has, with the error of
    the first one. While none has, the call is over exactly when every shard's
    task has ended, and then it fulfils with the tasks' values at their shards'
    positions. *)
Theorem mapShards_exactly_once {T : Type} concurrency count (s : @lanes T) done_ failed :
  (1 <= concurrency)%Z -> running concurrency count s done_ failed ->
  NoDup (done_.*1 ++ failed.*1 ++ in_flight s)
  /\ (Z.of_nat (List.length (in_flight s)) <= concurrency)%Z
  /\ (~ finished s -> in_flight s <> [])
  /\ (forall error, outcome s failed = Rejected error <-> snd <$> head failed = Some error)
  /\ (failed = [] -> (finished s <-> List.length done_ = count)
       /\ (finished s -> results s = (fun i => (list_to_map done_ : gmap nat T) !! i) <$> seq 0 count
                         /\ done_.*1 ≡ₚ seq 0 count))
  /\ (forall values, outcome s failed = Fulfilled values <-> failed = [] /\ finished s /\ values = results s).
Proof.
  intros Hc Hrun. destruct (running_ok _ _ _ _ _ Hrun) as [Hn Hl Ht Hi Hlen Hr].
  assert (Hnone : ~ finished s -> in_flight s <> []) by apply busy_in_flight.
  split_and!; try done.
  - rewrite Ht. apply NoDup_seq.
  - pose proof (in_flight_bound s). rewrite Hl in *. unfold lane_count in *. lia.
  - intros error. unfold outcome. destruct failed as [|[i e] failed]; cbn; [|split; congruence].
    destruct (decide (finished s)); done.
  - intros ->. assert (Hall : finished s -> done_.*1 ≡ₚ seq 0 count)
      by (apply (finished_all concurrency); [done|by apply (running_ok _ _ _ _ _ Hrun)]). split.
    + split.
      * intros Hf. rewrite <- (length_fmap fst), (Hall Hf). apply length_seq.
      * intros Hd. destruct (decide (finished s)) as [|Hnf]; [done|]. exfalso.
        pose proof (Permutation_length Ht) as Hp. rewrite length_app, length_fmap, length_seq in Hp. simpl in Hp.
        destruct (in_flight s) eqn:He; [by apply Hnone|]. simpl in Hp. lia.
    + intros Hf. split; [|by apply Hall]. apply list_eq. intros i. destruct (decide (i < count)%nat) as [Hlt|Hge].
      * rewrite Hr by done. by rewrite list_lookup_fmap, lookup_seq_lt by done.
      * rewrite lookup_ge_None_2 by lia. symmetry. apply lookup_ge_None_2. rewrite length_fmap, length_seq. lia.
  - intros values. unfold outcome. destruct failed as [|[i e] failed]; [|split; [done|by intros [? _]]].
    destruct (decide (finished s)); split; [by intros [= <-]|by intros (_ & _ & ->)|done|by intros (_ & ? & _)].
Qed.

(** Three shards on two lanes; the second lane ends first. *)
Definition lanes_after (deliveries : list (nat * nat)) : @lanes nat :=
  fold_left (fun s d => default s (task_done 3 d.1 d.2 s)) deliveries (mapShards 2 3).

Lemma mapShards_exactly_once_witness :
  running 2 3 (lanes_after [(1, 11); (0, 10); (1, 12)]%nat) [(2, 12); (0, 10); (1, 11)]%nat []
  /\ results (lanes_after [(1, 11); (0, 10); (1, 12)]%nat) = [Some 10; Some 11; Some 12]%nat.
Proof.
  assert (Hrun : running 2 3 (lanes_after [(1, 11); (0, 10); (1, 12)]%nat)
    [(2, 12); (0, 10); (1, 11)]%nat []).
  { apply (running_done 2 3 (lanes_after [(1, 11); (0, 10)]%nat) _ 1 2 12); [|reflexivity|reflexivity].
    apply (running_done 2 3 (lanes_after [(1, 11)]%nat) _ 0 0 10); [|reflexivity|reflexivity].
    apply (running_done 2 3 (lanes_after []) _ 1 1 11); [apply running_start|reflexivity|reflexivity]. }
  split; [exact Hrun|].
  destruct (mapShards_exactly_once 2 3 _ _ _ ltac:(lia) Hrun) as (_ & _ & _ & _ & Hr & _).
  destruct (Hr eq_refl) as [[_ Hf] Hr']. destruct (Hr' (Hf eq_refl)) as [-> _]. vm_compute. reflexivity.
Defined.
