(* ===== verification/Parallel.v ===== *)
(** * Tasks on lanes

    [LinkSyncWorker.mapShards] (MapShards.v) runs one asynchronous task per
    shard on a bounded number of lanes. Here are all the programs this amounts
    to, one for every way the event loop may take the effects of the tasks in
    turn, and what such a program guarantees when its tasks do not get in each
    other's way. *)
From S2P Require Import Prelude Async MapShards Redis Sql World Interleave.

(** ** Schedules *)
Section Schedules.
Context {T : Type} (concurrency : Z) (count : nat) (tasks : nat -> io effect T).
(** What [randomUUID()], which is synchronous, answers to each task. *)
Context (uuids : nat -> string).

(** The rest of the program of each task in flight. *)
Abbreviation programs := (gmap nat (io effect T)).

(** A lane calls its next task, if it has one. *)
Definition call_task (s : @lanes T) (lane : nat) (ps : programs) : programs :=
  match working s !! lane with Some (Some index) => <[index := tasks index]> ps | _ => ps end.

Definition is_uuid {X} (e : effect X) : bool := match e with RandomUUID => true | _ => false end.

Inductive schedule : @lanes T -> programs -> io effect (list (option T)) -> Prop :=
  | schedule_end s ps : finished s -> schedule s ps (Done (results s))
  | schedule_effect s ps index X (e : effect X) k f :
      ps !! index = Some (Await e k) -> is_uuid e = false ->
      (forall r, schedule s (<[index := k r]> ps) (f r)) -> schedule s ps (Await e f)
  | schedule_uuid s ps index k m :
      ps !! index = Some (Await RandomUUID k) ->
      schedule s (<[index := k (Return (uuids index))]> ps) m -> schedule s ps m
  | schedule_next s s' ps lane index value m :
      working s !! lane = Some (Some index) -> ps !! index = Some (Done value) ->
      task_done count lane value s = Some s' ->
      schedule s' (call_task s' lane (delete index ps)) m -> schedule s ps m.

Definition first_calls (s : @lanes T) : programs :=
  foldr (fun index => <[index := tasks index]>) ∅ (in_flight s).

(** [await this.mapShards(task)]. *)
Definition map_tasks (m : io effect (list (option T))) : Prop :=
  let s := mapShards concurrency count in schedule s (first_calls s) m.

(** *** One of them: a task after the other *)

Fixpoint supply (u : string) (p : io effect T) : io effect T :=
  match p with
  | Done v => Done v
  | @Await _ _ X e k =>
      match e in effect X return (result X -> io effect T) -> (result X -> io effect T) -> io effect T with
      | RandomUUID => fun _ rest => rest (Return u)
      | e => fun _ rest => Await e rest
      end k (fun r => supply u (k r))
  end.

Fixpoint busy_from (lane : nat) (w : list (option nat)) : option (nat * nat) :=
  match w with
  | [] => None
  | Some index :: _ => Some (lane, index)
  | None :: w => busy_from (S lane) w
  end.

Fixpoint one_by_one (fuel : nat) (s : @lanes T) (ps : programs) : io effect (list (option T)) :=
  match fuel with
  | O => Done (results s)
  | S fuel =>
      match busy_from 0 (working s) with
      | None => Done (results s)
      | Some (lane, index) =>
          match ps !! index with
          | None => Done (results s)
          | Some p =>
              io_bind (supply (uuids index) p) (fun value =>
                match task_done count lane value s with
                | None => Done (results s)
                | Some s' => one_by_one fuel s' (call_task s' lane (delete index ps))
                end)
          end
      end
  end.

Lemma busy_from_Some lane w l index :
  busy_from lane w = Some (l, index) -> exists j, l = (lane + j)%nat /\ w !! j = Some (Some index).
Proof.
  revert lane; induction w as [|[x|] w IH]; intros lane; simpl; [done| |].
  - intros [= <- <-]. exists 0%nat. by rewrite Nat.add_0_r.
  - intros (j & -> & Hj)%IH. exists (S j). split; [lia|done].
Qed.

Lemma busy_from_None lane w : busy_from lane w = None -> Forall (fun x => x = None) w.
Proof.
  revert lane; induction w as [|[x|] w IH]; intros lane; simpl; [constructor|done|].
  intros Hw. constructor; [done|by eapply IH].
Qed.

(** The tasks in flight are those with a program. *)
Definition programs_ok (s : @lanes T) (ps : programs) : Prop :=
  forall index, index ∈ in_flight s <-> is_Some (ps !! index).

Lemma in_flight_elem (s : @lanes T) index :
  index ∈ in_flight s <-> exists lane, working s !! lane = Some (Some index).
Proof.
  unfold in_flight. rewrite list_elem_of_omap. split.
  - intros (x & Hx & Hid). cbn in Hid. subst x. by apply list_elem_of_lookup in Hx.
  - intros [lane Hl]. exists (Some index). split; [by eapply list_elem_of_lookup_2|done].
Qed.

Lemma first_calls_lookup s index :
  first_calls s !! index = if decide (index ∈ in_flight s) then Some (tasks index) else None.
Proof using Type.
  unfold first_calls. induction (in_flight s) as [|i l IH]; cbn [foldr].
  - by rewrite lookup_empty.
  - destruct (decide (i = index)) as [->|Hne].
    + rewrite lookup_insert_eq. by destruct (decide (index ∈ index :: l)) as [|[]%not_elem_of_cons].
    + rewrite lookup_insert_ne, IH by done.
      destruct (decide (index ∈ l)) as [Hl|Hl], (decide (index ∈ i :: l)) as [Hi|Hi]; try done;
        exfalso; clear -Hne Hl Hi; set_solver.
Qed.

Lemma first_calls_ok s : programs_ok s (first_calls s).
Proof using Type. intros index. rewrite first_calls_lookup. case_decide; [|by rewrite is_Some_alt]. split; [by eexists|done]. Qed.

Lemma in_flight_lane (w : list (option nat)) a b index :
  NoDup (omap id w) -> w !! a = Some (Some index) -> w !! b = Some (Some index) -> a = b.
Proof.
  revert a b; induction w as [|x w IH]; intros a b Hnd Ha Hb; [done|].
  assert (Hin : forall c, w !! c = Some (Some index) -> index ∈ omap id w).
  { intros c Hc. apply list_elem_of_omap. exists (Some index). split; [by eapply list_elem_of_lookup_2|done]. }
  destruct a as [|a], b as [|b]; simpl in *; simplify_eq/=; try done.
  - apply NoDup_cons in Hnd as [Hx _]. by destruct Hx; eapply Hin.
  - apply NoDup_cons in Hnd as [Hx _]. by destruct Hx; eapply Hin.
  - f_equal. apply IH; [|done|done]. destruct x; [by apply NoDup_cons in Hnd as [_ ?]|done].
Qed.

Lemma task_done_lanes (s s' : @lanes T) lane index value :
  working s !! lane = Some (Some index) -> task_done count lane value s = Some s' ->
  exists new, working s' = <[lane := new]> (working s)
    /\ (new = None \/ new = Some (next s) /\ (next s < count)%nat)
    /\ next s' = match new with Some _ => S (next s) | None => next s end.
Proof.
  intros Hw. unfold task_done. rewrite Hw. intros [= <-]. unfold take_next. cbn [next working].
  destruct (Nat.ltb_spec (next s) count); [exists (Some (next s))|exists None]; cbn; auto.
Qed.

Lemma call_task_ok s s' ps lane index value :
  NoDup (in_flight s) -> programs_ok s ps ->
  working s !! lane = Some (Some index) -> task_done count lane value s = Some s' ->
  programs_ok s' (call_task s' lane (delete index ps)).
Proof.
  intros Hnd Hps Hw Hd j. destruct (task_done_lanes _ _ _ _ _ Hw Hd) as (new & Hw' & _).
  pose proof (lookup_lt_Some _ _ _ Hw) as Hlt. unfold call_task.
  assert (Hlane : working s' !! lane = Some new) by (rewrite Hw'; by apply list_lookup_insert_eq).
  assert (Hold : j ∈ in_flight s' <-> new = Some j \/ j <> index /\ j ∈ in_flight s).
  { rewrite !in_flight_elem. split.
    - intros [l Hl]. destruct (decide (lane = l)) as [<-|Hne]; [left; congruence|right].
      rewrite Hw', list_lookup_insert_ne in Hl by done. split; [|by exists l].
      intros ->. apply Hne. by eapply (in_flight_lane (working s)).
    - intros [->|[Hne [l Hl]]]; [by exists lane|]. exists l. rewrite Hw', list_lookup_insert_ne; [done|]. congruence. }
  rewrite Hold, Hlane. rewrite (Hps j). destruct new as [i|].
  - destruct (decide (i = j)) as [->|Hne].
    + rewrite lookup_insert_eq. split; [by eexists|by left].
    + rewrite lookup_insert_ne by done. destruct (decide (index = j)) as [->|Hij].
      * rewrite lookup_delete_eq. split; [intros [[= ->]|[? _]]; done|intros [? [=]]].
      * rewrite lookup_delete_ne by done. split; [intros [[= ->]|[_ ?]]; done|by right].
  - destruct (decide (index = j)) as [->|Hij].
    + rewrite lookup_delete_eq. split; [intros [[=]|[? _]]; done|intros [? [=]]].
    + rewrite lookup_delete_ne by done. split; [intros [[=]|[_ ?]]; done|by right].
Qed.

Lemma schedule_supply s ps index p (f : T -> io effect (list (option T))) :
  ps !! index = Some p ->
  (forall value, schedule s (<[index := Done value]> ps) (f value)) ->
  schedule s ps (io_bind (supply (uuids index) p) f).
Proof.
  intros Hp Hf. revert ps Hp Hf; induction p as [v|X e k IH]; intros ps Hp Hf.
  - simpl. rewrite <- (insert_id ps index (Done v)) by done. apply Hf.
  - destruct (is_uuid e) eqn:He.
    + destruct e; try done. cbn [supply]. eapply schedule_uuid; [done|]. apply IH; [apply lookup_insert_eq|].
      intros value. rewrite insert_insert_eq. apply Hf.
    + assert (Hsup : supply (uuids index) (Await e k) = Await e (fun r => supply (uuids index) (k r))) by by destruct e.
      rewrite Hsup. cbn [io_bind]. eapply schedule_effect; [done|done|]. intros r. apply IH; [apply lookup_insert_eq|].
      intros value. rewrite insert_insert_eq. apply Hf.
Qed.
Lemma idle_finished (s : @lanes T) : in_flight s = [] -> finished s.
Proof.
  intros Hs. apply Forall_forall. intros [index|] Hin; [|done]. apply list_elem_of_lookup in Hin.
  assert (index ∈ in_flight s) as Hi by by apply in_flight_elem. rewrite Hs in Hi. by apply not_elem_of_nil in Hi.
Qed.

Lemma lanes_NoDup lanes_ s (done_ : list (nat * T)) : lanes_ok count lanes_ s done_ [] -> NoDup (in_flight s).
Proof.
  intros Hok. pose proof (NoDup_seq 0 (next s)) as Hnd. rewrite <- (ok_fulfilled _ _ _ _ Hok) in Hnd.
  by apply NoDup_app in Hnd as (_ & _ & ?).
Qed.

Lemma in_flight_count (s s' : @lanes T) lane index value :
  working s !! lane = Some (Some index) -> task_done count lane value s = Some s' ->
  (count - next s' + List.length (in_flight s') < count - next s + List.length (in_flight s))%nat.
Proof.
  intros Hw Hd. destruct (task_done_lanes _ _ _ _ _ Hw Hd) as (new & Hw' & Hnew & Hnext).
  pose proof (in_flight_insert (working s) lane (Some index) new Hw) as Hp. apply Permutation_length in Hp.
  rewrite !length_app in Hp. unfold in_flight. rewrite Hw', Hnext. simpl in Hp.
  destruct new as [n|]; simpl in *; [destruct Hnew as [|[_ ?]]; [done|lia]|lia].
Qed.

Lemma one_by_one_schedule fuel s ps lanes_ done_ :
  lanes_ok count lanes_ s done_ [] -> programs_ok s ps ->
  (count - next s + List.length (in_flight s) <= fuel)%nat -> schedule s ps (one_by_one fuel s ps).
Proof.
  revert s ps done_; induction fuel as [|fuel IH]; intros s ps done_ Hok Hps Hfuel; cbn [one_by_one].
  { apply schedule_end, idle_finished, nil_length_inv. lia. }
  destruct (busy_from 0 (working s)) as [[lane index]|] eqn:Hbusy.
  2: { by apply schedule_end, (busy_from_None 0). }
  apply busy_from_Some in Hbusy as (j & -> & Hw). simpl in *.
  assert (is_Some (ps !! index)) as [p Hp] by (apply Hps, in_flight_elem; by exists j). rewrite Hp.
  apply schedule_supply; [done|]. intros value. destruct (task_done count j value s) as [s'|] eqn:Hd.
  2: { unfold task_done in Hd. by rewrite Hw in Hd. }
  eapply schedule_next; [done|apply lookup_insert_eq|done|]. rewrite delete_insert_eq.
  eapply IH; [by eapply lanes_ok_step| |].
  - by eapply call_task_ok; [eapply lanes_NoDup| | |].
  - pose proof (in_flight_count _ _ _ _ _ Hw Hd). lia.
Qed.

(** There is a program. *)
Definition sequentially : io effect (list (option T)) :=
  one_by_one (count + count) (mapShards concurrency count) (first_calls (mapShards concurrency count)).

Lemma sequentially_map_tasks : map_tasks sequentially.
Proof.
  pose proof (lanes_ok_start (T := T) concurrency count) as Hok. eapply one_by_one_schedule; [done|apply first_calls_ok|].
  pose proof (in_flight_bound (mapShards (T := T) concurrency count)). rewrite (ok_lanes _ _ _ _ _ Hok) in *.
  unfold lane_count in *. lia.
Qed.
End Schedules.

(** ** What they guarantee *)
Section Together.
Context `{Redis} `{Postgres} {T : Type} (concurrency : Z) (count : nat) (tasks : nat -> io effect T) (uuids : nat -> string).
Context (Hlanes : (1 <= concurrency)%Z).

(** The choices the environment makes, [randomUUID()] apart. *)
Context (C : choice -> Prop) (c0 : choice) (C_some : C c0).
Definition with_uuid (c : choice) (u : string) : choice :=
  {| c_fate := c_fate c; c_ready := c_ready c; c_uuid := u; c_wait := c_wait c |}.
Context (C_uuid : forall c u, C c -> C (with_uuid c u)).

(** Each task has its rely, its guarantee, what it starts from and what it ends
    with; the rest of the world is in [R]. *)
Context (R G : state -> state -> Prop) (Rs Gs : nat -> state -> state -> Prop).
Context (P : nat -> state -> Prop) (Q : nat -> state -> T -> Prop).
Context (R_in : forall i a b, (i < count)%nat -> R a b -> Rs i a b) (Rs_refl : forall i s, Rs i s s)
  (Rs_trans : forall i a b c, Rs i a b -> Rs i b c -> Rs i a c).
Context (Gs_other : forall i j a b, (i < count)%nat -> (j < count)%nat -> i <> j -> Gs i a b -> Rs j a b)
  (Gs_in : forall i a b, (i < count)%nat -> Gs i a b -> G a b).
Context (P_stable : forall i a b, Rs i a b -> P i a -> P i b) (Q_stable : forall i v a b, Rs i a b -> Q i a v -> Q i b v).

Definition drawing (i : nat) (c : choice) : Prop := C c /\ c_uuid c = uuids i.

Context (task_safe : forall i s, (i < count)%nat -> P i s -> safe (drawing i) (Rs i) (Gs i) (tasks i) (Q i) s).
Record together (st : state) (s : @lanes T) (ps : gmap nat (io effect T)) (done_ : list (nat * T)) : Prop := {
  tg_lanes : lanes_ok count (lane_count concurrency count) s done_ [];
  tg_programs : programs_ok s ps;
  tg_flight i p : ps !! i = Some p -> safe (drawing i) (Rs i) (Gs i) p (Q i) st;
  tg_waiting i : (next s <= i < count)%nat -> P i st;
  tg_done i v : (i, v) ∈ done_ -> Q i st v
}.

Lemma taken_bound (s : @lanes T) (done_ : list (nat * T)) i : lanes_ok count (lane_count concurrency count) s done_ [] ->
  i ∈ done_.*1 ++ in_flight s -> (i < next s <= count)%nat.
Proof.
  intros Hok Hin. pose proof (ok_next _ _ _ _ _ Hok). rewrite (ok_fulfilled _ _ _ _ Hok) in Hin.
  apply elem_of_seq in Hin. lia.
Qed.

Lemma flight_bound st s ps done_ i : together st s ps done_ -> is_Some (ps !! i) -> (i < count)%nat.
Proof.
  intros Ht Hp. apply (tg_programs _ _ _ _ Ht) in Hp.
  assert (Hb : (i < next s <= count)%nat) by (eapply taken_bound; [apply Ht|by apply elem_of_app; right]). lia.
Qed.

Lemma together_rely st st' s ps done_ :
  (forall i, (i < count)%nat -> Rs i st st') -> together st s ps done_ -> together st' s ps done_.
Proof.
  intros HR Ht. pose proof Ht as [Hl Hp Hf Hw Hd]. split; try done.
  - intros i p Hi. eapply safe_rely; [apply Rs_trans|apply HR; eapply flight_bound; [exact Ht|by eexists]|by apply Hf].
  - intros i Hi. eapply P_stable; [apply HR; lia|by apply Hw].
  - intros i v Hi. eapply Q_stable; [apply HR|by apply Hd].
    assert (Hn : (i < next s <= count)%nat) by (eapply taken_bound; [done|]; apply elem_of_app; left;
      by apply (list_elem_of_fmap_2 fst _ (i, v))). lia.
Qed.

(** One effect of the program of task [i]. *)
Lemma together_effect st st' s ps done_ i p p' :
  Gs i st st' -> ps !! i = Some p -> safe (drawing i) (Rs i) (Gs i) p' (Q i) st' ->
  together st s ps done_ -> together st' s (<[i := p']> ps) done_.
Proof.
  intros HG Hi Hsafe Ht. assert (Hlt : (i < count)%nat) by (eapply flight_bound; [done|by eexists]).
  assert (Hflight : i ∈ in_flight s) by (apply (tg_programs _ _ _ _ Ht); by eexists).
  pose proof (ok_fulfilled _ _ _ _ (tg_lanes _ _ _ _ Ht)) as Htaken.
  pose proof (NoDup_seq 0 (next s)) as Hnd. rewrite <- Htaken in Hnd. apply NoDup_app in Hnd as (_ & Hdis & _).
  assert (Hin : (i < next s <= count)%nat) by (eapply taken_bound; [apply Ht|by apply elem_of_app; right]).
  pose proof Ht as [Hl Hp Hf Hw Hd]. split; try done.
  - intros j. destruct (decide (i = j)) as [->|Hne]; [|by rewrite lookup_insert_ne by done; apply Hp].
    rewrite lookup_insert_eq. split; [by eexists|done].
  - intros j q. destruct (decide (i = j)) as [->|Hne].
    + rewrite lookup_insert_eq. by intros [= <-].
    + rewrite lookup_insert_ne by done. intros Hj. eapply safe_rely; [apply Rs_trans| |by apply Hf].
      apply (Gs_other i j); [done|eapply flight_bound; [done|by eexists]|done|done].
  - intros j Hj. eapply P_stable; [|by apply Hw]. apply (Gs_other i j); [done|lia|lia|done].
  - intros j v Hj. assert (Hj1 : j ∈ done_.*1) by by apply (list_elem_of_fmap_2 fst _ (j, v)).
    assert (Hb : (j < next s <= count)%nat) by (eapply taken_bound; [done|by apply elem_of_app; left]).
    eapply Q_stable; [|by apply Hd]. apply (Gs_other i j); [done|lia| |done]. intros ->. by apply (Hdis j).
Qed.

Lemma together_next st s s' ps done_ lane i v :
  working s !! lane = Some (Some i) -> ps !! i = Some (Done v) -> task_done count lane v s = Some s' ->
  together st s ps done_ -> together st s' (call_task tasks s' lane (delete i ps)) ((i, v) :: done_).
Proof.
  intros Hw Hi Hd Ht. pose proof Ht as [Hl Hp Hf Hwait Hdone].
  destruct (task_done_lanes _ _ _ _ _ _ Hw Hd) as (new & Hw' & Hnew & Hnext).
  assert (Hlane : working s' !! lane = Some new) by (rewrite Hw'; by apply list_lookup_insert_eq, (lookup_lt_Some _ _ _ Hw)).
  split.
  - by eapply lanes_ok_step.
  - by eapply call_task_ok; [eapply lanes_NoDup| | |].
  - intros j p. unfold call_task. rewrite Hlane.
    assert (Hold : delete i ps !! j = Some p -> safe (drawing j) (Rs j) (Gs j) p (Q j) st).
    { intros [_ Hj]%lookup_delete_Some. by apply Hf. }
    destruct new as [n|]; [|exact Hold]. destruct Hnew as [|[[= ->] Hlt]]; [done|].
    destruct (decide (next s = j)) as [<-|Hne]; [|by rewrite lookup_insert_ne by done].
    rewrite lookup_insert_eq. intros [= <-]. apply task_safe; [done|]. apply Hwait. lia.
  - intros j Hj. apply Hwait. destruct new; rewrite Hnext in Hj; lia.
  - intros j w [[= -> ->]|Hj]%elem_of_cons; [|by apply Hdone]. exact (Hf _ _ Hi st (Rs_refl _ _)).
Qed.

(** Every task has ended well. *)
Definition all_done (st : state) (rs : list (option T)) : Prop :=
  List.length rs = count /\ forall i, (i < count)%nat -> exists v, rs !! i = Some (Some v) /\ Q i st v.

Lemma together_finished st s ps done_ : finished s -> together st s ps done_ -> all_done st (results s).
Proof.
  intros Hfin [Hl Hp Hf Hw Hd]. pose proof Hl as [Hn Hlen Htaken Hidle Hres Hr]. split; [done|]. intros i Hi.
  rewrite finished_no_flight, !app_nil_r in Htaken by done. cbn [fmap list_fmap] in Htaken.
  assert (Hall : next s = count).
  { destruct (working s) as [|w ws] eqn:Hws; [|].
    - unfold lane_count in Hlen. simpl in Hlen. lia.
    - apply Hidle; [done|]. unfold finished in Hfin. rewrite Hws in Hfin. apply Forall_cons in Hfin as [-> _].
      apply elem_of_cons. by left. }
  assert (Hin : i ∈ done_.*1) by (rewrite Htaken; apply elem_of_seq; lia).
  apply list_elem_of_fmap in Hin as ([j v] & -> & Hin). cbn [fst] in *. exists v. split; [|by apply Hd].
  rewrite Hr by done. do 2 f_equal. apply elem_of_list_to_map_1; [|done]. rewrite Htaken. apply NoDup_seq.
Qed.

Lemma perform_uuid {X} c u (e : effect X) w : is_uuid e = false -> perform (with_uuid c u) X e w = perform c X e w.
Proof. by destruct e. Qed.

Lemma schedule_safe s ps m : schedule count tasks uuids s ps m ->
  forall st done_, together st s ps done_ -> safe C R G m all_done st.
Proof.
  induction 1 as [s ps Hfin|s ps i X e k f Hi He _ IH|s ps i k m Hi _ IH|s s' ps lane i v m Hw Hi Hd _ IH]; intros st done_ Ht.
  - intros st' HR. eapply together_finished; [done|]. eapply together_rely; [|done]. intros j Hj. by apply R_in.
  - intros c st1 Hc HR. apply (together_rely _ st1) in Ht; [|intros j Hj; by apply R_in].
    pose proof (tg_flight _ _ _ _ Ht _ _ Hi (with_uuid c (uuids i)) st1 (conj (C_uuid _ _ Hc) eq_refl) (Rs_refl _ _)) as Hstep.
    unfold perform_logged, commands_of in *. rewrite perform_uuid in Hstep by done. cbn [c_fate with_uuid] in Hstep.
    destruct (perform c X e st1.1) as [w r]. destruct Hstep as [HG Hk].
    split; [eapply Gs_in; [eapply flight_bound; [exact Ht|by eexists]|exact HG]|].
    eapply IH. eapply together_effect; [exact HG|exact Hi|exact Hk|exact Ht].
  - pose proof (tg_flight _ _ _ _ Ht _ _ Hi (with_uuid c0 (uuids i)) st (conj (C_uuid _ _ C_some) eq_refl) (Rs_refl _ _)) as Hstep.
    unfold perform_logged, commands_of in Hstep. cbn [perform c_uuid with_uuid] in Hstep. rewrite app_nil_r in Hstep.
    replace (st.1, st.2) with st in Hstep by by destruct st. destruct Hstep as [HG Hk].
    eapply IH. eapply together_effect; [exact HG|exact Hi|exact Hk|exact Ht].
  - eapply IH. by eapply together_next.
Qed.

(** Tasks that are safe on their own are safe together. *)
Theorem map_tasks_safe m st :
  map_tasks concurrency count tasks uuids m -> (forall i, (i < count)%nat -> P i st) -> safe C R G m all_done st.
Proof.
  intros Hm HP. eapply (schedule_safe _ _ _ Hm st []). pose proof (lanes_ok_start (T := T) concurrency count) as Hl.
  split.
  - done.
  - apply first_calls_ok.
  - intros i p Hp. rewrite first_calls_lookup in Hp. destruct (decide _) as [Hin|]; [|done]. injection Hp as <-.
    assert (Hi : (i < count)%nat).
    { pose proof (taken_bound _ _ i Hl) as Hb. cbn [fmap list_fmap app] in Hb. specialize (Hb Hin). lia. }
    apply task_safe; [done|by apply HP].
  - intros i Hi. apply HP. lia.
  - intros i v Hin. by apply not_elem_of_nil in Hin.
Qed.
End Together.
