(* ===== verification/SyncWorker.v ===== *)
(** * The link sync worker

    [LinkSyncWorker] of src/src/store/link-sync-worker.ts: one shard's batch
    loop, a tick over the shards, [drain], [syncBacklog], [close], against the
    interfaces [SyncQueue] and [PendingLinkSink]. *)
From S2P Require Import Prelude JsNum JsString JsDate Json Keys Link Async Redis Sql World SyncQueue.
From S2P Require Import PostgresStore.
Open Scope Z_scope.

(** [PendingLinkSink.insertPendingBatch]. *)
Definition PendingLinkSink : Type := list PendingLink -> async effect PendingLinkBatchResult.

Record SyncResult : Type := { synced : Z; conflicted : Z; poison : Z }.

Definition emptyResult : SyncResult := {| synced := 0; conflicted := 0; poison := 0 |}.

Definition addResult (target source : SyncResult) : SyncResult :=
  {| synced := synced target + synced source;
     conflicted := conflicted target + conflicted source;
     poison := poison target + poison source |}.

Definition deadLetterText (reason payload at_ : string) : string :=
  stringify_object [("reason", Some reason); ("payload", Some payload); ("at", Some at_)].

Definition deadLetter (reason payload : string) : async effect string :=
  await time <- now;
  await at_ <- lift (toISOString time);
  resolve (deadLetterText reason payload at_).

Record LinkSyncOptions : Type := {
  shards : list Z;
  intervalMs : Z;
  batchSize : Z;
  opt_cacheTtlSeconds : Z;
  opt_lockTtlMs : option Z;
  opt_maxBatchesPerShard : option Z;
  opt_concurrency : option Z;
  isAvailable : option (async effect bool)
}.

Record LinkSyncWorker : Type := {
  queue : SyncQueue;
  sink : PendingLinkSink;
  options : LinkSyncOptions;
  lockTtlMs : Z;
  maxBatchesPerShard : Z;
  concurrency : Z
}.

(** The constructor's checks, in the order of its list. *)
Fixpoint check_positive (fields : list (string * Z)) : result unit :=
  match fields with
  | [] => Return tt
  | (name, value) :: fields =>
      if negb (isSafeInteger value) || (value <? 1)
      then Throw (name +:+ " must be a positive integer")
      else check_positive fields
  end.

Definition new (queue : SyncQueue) (sink : PendingLinkSink) (options : LinkSyncOptions) :
    result LinkSyncWorker :=
  try _ <- check_positive [("intervalMs", intervalMs options); ("batchSize", batchSize options);
                           ("cacheTtlSeconds", opt_cacheTtlSeconds options)];
  Return {| queue := queue; sink := sink; options := options;
            lockTtlMs := default 30000 (opt_lockTtlMs options);
            maxBatchesPerShard := default 10 (opt_maxBatchesPerShard options);
            concurrency := default 64 (opt_concurrency options) |}.

Section Worker.
Context (otherDate : string -> option Z) (self : LinkSyncWorker).

(** The loop that sorts the raw entries of a batch. *)
Fixpoint sortEntries (raw : list string) (valid : list PendingLink) (letters : list string) :
    async effect (list PendingLink * list string) :=
  match raw with
  | [] => resolve (valid, letters)
  | entry :: raw =>
      match parsePendingLink otherDate entry with
      | Some link => sortEntries raw (valid ++ [link]) letters
      | None =>
          await letter <- deadLetter "invalid" entry;
          sortEntries raw valid (letters ++ [letter])
      end
  end.

(** The loop that records the conflicts. *)
Fixpoint recordConflicts (conflicts : list PendingLink) (letters : list string) :
    async effect (list string) :=
  match conflicts with
  | [] => resolve letters
  | conflict :: conflicts =>
      await payload <- lift (serializePendingLink conflict);
      await letter <- deadLetter "conflict" payload;
      recordConflicts conflicts (letters ++ [letter])
  end.

(** What one batch did. *)
Inductive batchOutcome : Type :=
  | NothingLeft
  | LockLost
  | Completed (taken : nat) (counts : SyncResult).

(** One iteration of the batch loop, after its lock is held: [peek] to
    [complete]. *)
Definition processBatch (shard : Z) (token : string) : async effect batchOutcome :=
  await raw <- peek (queue self) shard (batchSize (options self));
  if (List.length raw =? 0)%nat then resolve NothingLeft
  else
    await ' (valid, invalid) <- sortEntries raw [] [];
    await inserted <-
      (if (0 <? List.length valid)%nat then sink self valid
       else resolve {| persisted := []; conflicts := [] |});
    await letters <- recordConflicts (conflicts inserted) invalid;
    await completed <- complete (queue self) shard token
      {| consumed := Z.of_nat (List.length raw);
         sc_persisted := persisted inserted;
         sc_conflicts := p_code <$> conflicts inserted;
         deadLetters := letters;
         cacheTtlSeconds := opt_cacheTtlSeconds (options self) |};
    if negb completed then
      await_ increment "link_sync_lock_lost" 1;
      resolve LockLost
    else
      let counts := {| synced := Z.of_nat (List.length (persisted inserted));
                       conflicted := Z.of_nat (List.length (conflicts inserted));
                       poison := Z.of_nat (List.length invalid) |} in
      await_ increment "links_synced" (synced counts);
      await_ increment "link_sync_conflicts" (conflicted counts);
      await_ increment "link_sync_poison" (poison counts);
      resolve (Completed (List.length raw) counts).

(** The [for] loop of [syncShard]. It ends with the value of [held] and with
    the result or the exception that leaves the [try] block: an exception
    thrown while a batch is processed leaves [held] true, one thrown by a later
    [acquire] leaves it false. *)
Fixpoint batchLoop (n : nat) (held : bool) (shard : Z) (token : string) (total : SyncResult) :
    io effect (bool * result SyncResult) :=
  match n with
  | O => Done (held, Return total)
  | S n =>
      let iterate :=
        io_bind (processBatch shard token) (fun r =>
          match r with
          | Throw e => Done (true, Throw e)
          | Return NothingLeft => Done (true, Return total)
          | Return LockLost => Done (false, Return total)
          | Return (Completed taken counts) =>
              if Z.of_nat taken <? batchSize (options self)
              then Done (false, Return (addResult total counts))
              else batchLoop n false shard token (addResult total counts)
          end) in
      if held then iterate
      else
        io_bind (acquire (queue self) shard token (lockTtlMs self)) (fun r =>
          match r with
          | Throw e => Done (false, Throw e)
          | Return false => Done (false, Return total)
          | Return true => iterate
          end)
  end.

Definition syncShard (shard : Z) : async effect SyncResult :=
  await waiting <- length (queue self) shard;
  if waiting =? 0 then resolve emptyResult
  else
    await token <- randomUUID;
    await acquired <- acquire (queue self) shard token (lockTtlMs self);
    if negb acquired then resolve emptyResult
    else
      io_bind (batchLoop (Z.to_nat (maxBatchesPerShard self)) true shard token emptyResult)
        (fun end_ =>
           let '(held, r) := end_ in
           if held
           then io_bind (release (queue self) shard token) (fun _ => Done r)
           else Done r).
End Worker.

(** ** A tick over the shards *)

(** The outcome of a shard: one that throws counts as failed and as an empty
    result. *)
Definition shard_result (outcome : result SyncResult) : SyncResult :=
  match outcome with Return r => r | Throw _ => emptyResult end.

Definition failed (outcome : result SyncResult) : bool :=
  match outcome with Return _ => false | Throw _ => true end.

(** The callback [processShards] gives to [mapShards]; [index] is a position in
    [shards]. *)
Definition shardTask (otherDate : string -> option Z) (self : LinkSyncWorker) (index : nat) :
    async effect SyncResult :=
  match shards (options self) !! index with
  | Some shard => syncShard otherDate self shard
  | None => resolve emptyResult
  end.

(** [mapped] is the call of [mapShards] (Parallel.v), which ends with the
    outcome of every shard. *)
Definition processShards (self : LinkSyncWorker) (mapped : io effect (list (option (result SyncResult)))) :
    async effect SyncResult :=
  await available <- match isAvailable (options self) with
                     | Some check => check
                     | None => resolve true
                     end;
  if negb available then resolve emptyResult
  else
    io_bind mapped (fun outcomes =>
      let outcomes := omap id outcomes in
      let failedShards := Z.of_nat (List.length (filter (fun o => failed o) outcomes)) in
      await_ (if 0 <? failedShards then increment "link_sync_errors" failedShards else resolve tt);
      resolve (fold_left (fun total o => addResult total (shard_result o)) outcomes emptyResult)).

(** [drain]: ticks until one has nothing to do; [tick n] is the [n]th. *)
Fixpoint drain_loop (tick : nat -> async effect SyncResult) (n ticks : nat) (total : SyncResult) :
    async effect SyncResult :=
  match ticks with
  | O => resolve total
  | S ticks =>
      await result <- tick n;
      let total := addResult total result in
      if synced result + conflicted result + poison result =? 0 then resolve total
      else drain_loop tick (S n) ticks total
  end.

Definition drain (tick : nat -> async effect SyncResult) (maxTicks : Z) : async effect SyncResult :=
  drain_loop tick 0 (Z.to_nat maxTicks) emptyResult.

(** The sum of the lengths the shards report. *)
Definition backlog (lengths : list Z) : Z := fold_left Z.add lengths 0.

Definition syncBacklog (queue : SyncQueue) (shards : list Z) : async effect Z :=
  await lengths <- promise_all (length queue <$> shards);
  resolve (backlog lengths).

(** ** Start, ticks and close

    The fields [timer], [running] and [closed], the methods that use them and
    the callbacks that resume them. Operations (calls of [processShards]) are
    numbered as they start. The operations in flight are kept apart from the
    field [running]: what runs is what was started and has not settled, whatever
    the field says, so that two of them could run at once. *)
Module Lifecycle.

(** Where the call of [close] that closed the worker stands: its promise is
    resolved in [CloseReturned], after the given last operation. *)
Inductive closing : Type :=
  | NotClosing
  | AwaitsRunning (operation : nat)
  | FinalTick (operation : nat)
  | CloseReturned (operation : nat).

Record life : Type := {
  timer : bool;
  running : option nat;
  closed : bool;
  started : nat;             (* operations started so far *)
  in_flight : list nat;      (* those that have not settled *)
  started_at_close : nat;
  phase : closing
}.

Definition new_life : life :=
  {| timer := false; running := None; closed := false; started := 0; in_flight := []; started_at_close := 0;
     phase := NotClosing |}.

Definition start (l : life) : result life :=
  if closed l then Throw "link sync worker is closed"
  else if timer l then Return l
  else Return {| timer := true; running := running l; closed := closed l; started := started l;
                 in_flight := in_flight l; started_at_close := started_at_close l; phase := phase l |}.

(** [tick] joins the running operation or starts one; the result is the
    operation whose promise it returns. *)
Definition tick (l : life) : life * nat :=
  match running l with
  | Some operation => (l, operation)
  | None =>
      ({| timer := timer l; running := Some (started l); closed := closed l; started := S (started l);
          in_flight := in_flight l ++ [started l]; started_at_close := started_at_close l; phase := phase l |},
       started l)
  end.

(** The interval's callback. *)
Definition interval (l : life) : life :=
  match running l with Some _ => l | None => (tick l).1 end.

(** An operation in flight settles; its [finally] clears the field. *)
Definition settle (operation : nat) (l : life) : life :=
  {| timer := timer l; running := None; closed := closed l; started := started l;
     in_flight := filter (fun o => o <> operation) (in_flight l); started_at_close := started_at_close l;
     phase := phase l |}.

Definition with_phase (l : life) (p : closing) : life :=
  {| timer := timer l; running := running l; closed := closed l; started := started l; in_flight := in_flight l;
     started_at_close := started_at_close l; phase := p |}.

(** The last statement of [close]: [await this.tick()]. *)
Definition final_tick (l : life) : life :=
  let '(l', operation) := tick l in with_phase l' (FinalTick operation).

Definition close (l : life) : life :=
  if closed l then l
  else
    let l := {| timer := false; running := running l; closed := true; started := started l;
                in_flight := in_flight l; started_at_close := started l; phase := phase l |} in
    match running l with
    | Some operation => with_phase l (AwaitsRunning operation)
    | None => final_tick l
    end.

(** An awaited operation lets [close] go on once it has settled. *)
Definition close_resumes (l : life) : option life :=
  match phase l with
  | AwaitsRunning operation => if decide (operation ∈ in_flight l) then None else Some (final_tick l)
  | FinalTick operation =>
      if decide (operation ∈ in_flight l) then None else Some (with_phase l (CloseReturned operation))
  | _ => None
  end.

Inductive event : Type := Start | Interval | Tick | Settle (operation : nat) | Close | CloseResumes.

Definition step (ev : event) (l : life) : option life :=
  match ev with
  | Start => match start l with Return l' => Some l' | Throw _ => Some l end
  | Interval => if timer l then Some (interval l) else None
  | Tick => Some (tick l).1
  | Settle operation => if decide (operation ∈ in_flight l) then Some (settle operation l) else None
  | Close => Some (close l)
  | CloseResumes => close_resumes l
  end.

Inductive reachable : life -> Prop :=
  | reach_new : reachable new_life
  | reach_step ev l l' : reachable l -> step ev l = Some l' -> reachable l'.

(** *** The invariant *)

(** The operations in flight are the one of the field, and it is the last one. *)
Record ops_ok (l : life) : Prop := {
  in_flight_running : in_flight l = match running l with Some op => [op] | None => [] end;
  running_last op : running l = Some op -> S op = started l;
  at_close : (started_at_close l <= started l)%nat
}.

(** What the phase of [close] says. *)
Definition phase_ok (l : life) : Prop :=
  match phase l with
  | NotClosing => closed l = false
  | AwaitsRunning op => closed l = true /\ S op = started_at_close l
  | FinalTick op => closed l = true /\ (started_at_close l <= op < started l)%nat
  | CloseReturned op =>
      closed l = true /\ (started_at_close l <= op < started l)%nat
      /\ forall o, (o <= op)%nat -> o ∉ in_flight l
  end.

Record life_ok (l : life) : Prop := {
  life_ops : ops_ok l;
  life_timer : closed l = true -> timer l = false;
  life_phase : phase_ok l
}.

Lemma tick_ops l : ops_ok l -> ops_ok (tick l).1.
Proof.
  intros [Hf Hr Ha]. unfold tick. destruct (running l) as [op|] eqn:Hrun; [by split; cbn; rewrite ?Hrun|].
  split; cbn; [by rewrite Hf|by intros op [= <-]|lia].
Qed.

(** [tick] returns an operation in flight, the last one. *)
Lemma tick_last l : ops_ok l -> (tick l).2 ∈ in_flight (tick l).1 /\ S (tick l).2 = started (tick l).1.
Proof.
  intros [Hf Hr Ha]. unfold tick. destruct (running l) as [op|] eqn:Hrun; cbn.
  - rewrite Hf. split; [by apply list_elem_of_singleton|by apply Hr].
  - split; [|done]. apply elem_of_app. right. by apply list_elem_of_singleton.
Qed.

Lemma tick_phase l : ops_ok l -> phase_ok l -> phase_ok (tick l).1.
Proof.
  intros [Hf Hr Ha]. unfold phase_ok, tick. destruct (running l) as [op|] eqn:Hrun; cbn; [done|].
  destruct (phase l); try done.
  - intros (? & ?). split; [done|lia].
  - intros (? & ? & Hn). split_and!; [done|lia..|]. intros o Ho [Hi|Hi%list_elem_of_singleton]%elem_of_app; [by eapply Hn|lia].
Qed.

Lemma tick_same l : closed (tick l).1 = closed l /\ timer (tick l).1 = timer l
  /\ started_at_close (tick l).1 = started_at_close l /\ (started l <= started (tick l).1)%nat.
Proof. unfold tick. destruct (running l); cbn; split_and!; done || lia. Qed.

Lemma tick_ok l : life_ok l -> life_ok (tick l).1.
Proof.
  intros [Ho Ht Hp]. destruct (tick_same l) as (Hc & Htm & _ & _).
  split; [by apply tick_ops|by rewrite Hc, Htm|by apply tick_phase].
Qed.

(** The final tick of a closed worker, once nothing from before [close] runs. *)
Lemma final_tick_ok l :
  ops_ok l -> closed l = true -> timer l = false -> (forall op, running l = Some op -> (started_at_close l <= op)%nat) ->
  life_ok (final_tick l).
Proof.
  intros Ho Hc Ht Hnew. pose proof (tick_ops l Ho) as Hops. pose proof (tick_last l Ho) as [_ Hlast].
  destruct (tick_same l) as (Hc' & Ht' & Hs & Hle).
  assert (Hop : (started_at_close l <= (tick l).2)%nat).
  { unfold tick. destruct (running l) as [op|] eqn:Hrun; [by apply Hnew|]. apply Ho. }
  unfold final_tick. destruct (tick l) as [l' op]. cbn [fst snd] in *. destruct Hops as [H1 H2 H3].
  split; [by split|cbn; congruence|]. unfold phase_ok. cbn. split; [congruence|lia].
Qed.

Lemma close_ok l : life_ok l -> life_ok (close l).
Proof.
  intros Hok. unfold close. destruct (closed l) eqn:Hc; [done|]. cbn [running].
  destruct Hok as [[Hf Hr Ha] Ht Hp]. destruct (running l) as [op|] eqn:Hrun.
  - split; [split; cbn; done|done|]. unfold phase_ok. cbn. split; [done|]. by apply Hr.
  - apply final_tick_ok; [split; cbn; done|done..].
Qed.

Lemma settle_ok op l : life_ok l -> op ∈ in_flight l -> life_ok (settle op l).
Proof.
  intros [[Hf Hr Ha] Ht Hp] Hin. assert (Hnone : filter (fun o => o <> op) (in_flight l) = []).
  { rewrite Hf in Hin |- *. destruct (running l) as [op'|]; [|by apply elem_of_nil in Hin].
    apply list_elem_of_singleton in Hin as ->. rewrite filter_cons_False by tauto. done. }
  split; [by split|done|]. unfold phase_ok in *. cbn. destruct (phase l); try done.
  destruct Hp as (? & ? & _). split_and!; [done|lia..|]. rewrite Hnone. intros o _. apply not_elem_of_nil.
Qed.

Lemma close_resumes_ok l l' : life_ok l -> close_resumes l = Some l' -> life_ok l'.
Proof.
  unfold close_resumes. intros [Ho Ht Hp]. pose proof Ho as [Hf Hr Ha]. unfold phase_ok in Hp.
  destruct (phase l) as [|op|op|op] eqn:Hph; try done; destruct (decide _) as [|Hout]; try done; intros [= <-].
  - destruct Hp as [Hc Hop]. apply final_tick_ok; [done|done|by apply Ht|]. intros op' Hop'.
    specialize (Hr op' Hop'). rewrite Hf, Hop' in Hout. assert (op' <> op); [|lia].
    intros ->. apply Hout. by apply list_elem_of_singleton.
  - destruct Hp as [Hc Hop]. split; [by split|done|]. unfold phase_ok. cbn. split_and!; [done|lia..|].
    intros o Ho' Hin. rewrite Hf in Hin, Hout. destruct (running l) as [op'|]; [|by apply elem_of_nil in Hin].
    apply list_elem_of_singleton in Hin as ->. specialize (Hr op' eq_refl). apply Hout, list_elem_of_singleton. lia.
Qed.

Lemma step_ok ev l l' : life_ok l -> step ev l = Some l' -> life_ok l'.
Proof.
  intros Hok. destruct ev; cbn [step].
  - unfold start. destruct (closed l) eqn:Hc; [by intros [= <-]|].
    destruct (timer l); [by intros [= <-]|]. intros [= <-].
    destruct Hok as [[Hf Hr Ha] Ht Hp]. split; [by split|cbn; congruence|].
    unfold phase_ok in *. cbn. rewrite Hc in Hp. by destruct (phase l).
  - destruct (timer l); [|done]. intros [= <-]. unfold interval.
    destruct (running l); [done|by apply tick_ok].
  - intros [= <-]. by apply tick_ok.
  - destruct (decide _); [|done]. intros [= <-]. by apply settle_ok.
  - intros [= <-]. by apply close_ok.
  - by apply close_resumes_ok.
Qed.

Lemma reachable_ok l : reachable l -> life_ok l.
Proof. induction 1 as [|ev l l' _ IH Hs]; [|by eapply step_ok]. split; [by split|done|done]. Qed.

Lemma step_closed ev l l' : closed l = true -> step ev l = Some l' -> closed l' = true.
Proof.
  intros Hc Hs. destruct ev; cbn [step] in Hs; unfold start, interval, close, close_resumes, final_tick, tick in Hs;
    repeat case_match; simplify_eq/=; done.
Qed.

Fixpoint run_events (evs : list event) (l : life) : option life :=
  match evs with
  | [] => Some l
  | ev :: evs => match step ev l with Some l' => run_events evs l' | None => None end
  end.

Lemma run_reachable evs l l' : reachable l -> run_events evs l = Some l' -> reachable l'.
Proof.
  revert l; induction evs as [|ev evs IH]; intros l Hr; cbn [run_events]; [by intros [= <-]|].
  destruct (step ev l) as [l1|] eqn:Hs; [|done]. apply IH. by eapply reach_step.
Qed.
End Lifecycle.

(** C22. The worker's life, whatever the order of [start], timer callbacks,
    explicit ticks, [close] calls and ends of operations. Of the operations that
    were started at most one has not settled, it is the one the field [running]
    names, and a tick returns the promise of one that has not settled. A closed
    worker has no timer, cannot be started again and stays closed. The last
    operation [close] waits for was started no earlier than the call of [close],
    so it sees everything that was queued before it; and once [close] has
    returned, it and every operation before it are over. *)
Theorem lifecycle_correct l :
  Lifecycle.reachable l ->
  (List.length (Lifecycle.in_flight l) <= 1)%nat
  /\ (forall op, op ∈ Lifecycle.in_flight l <-> Lifecycle.running l = Some op)
  /\ (Lifecycle.tick l).2 ∈ Lifecycle.in_flight (Lifecycle.tick l).1
  /\ (Lifecycle.closed l = true ->
       Lifecycle.timer l = false /\ Lifecycle.start l = Throw "link sync worker is closed"
       /\ forall ev l', Lifecycle.step ev l = Some l' -> Lifecycle.closed l' = true)
  /\ (forall op, Lifecycle.phase l = Lifecycle.FinalTick op -> (Lifecycle.started_at_close l <= op)%nat)
  /\ (forall op, Lifecycle.phase l = Lifecycle.CloseReturned op ->
       (Lifecycle.started_at_close l <= op)%nat
       /\ forall o, (o <= op)%nat -> o ∉ Lifecycle.in_flight l).
Proof.
  intros [Hops Ht Hp]%Lifecycle.reachable_ok. pose proof (Lifecycle.in_flight_running _ Hops) as Hf.
  split_and!; [| |by apply Lifecycle.tick_last| | |].
  - rewrite Hf. destruct (Lifecycle.running l); cbn; lia.
  - intros op. rewrite Hf. destruct (Lifecycle.running l); rewrite ?list_elem_of_singleton; [|by rewrite elem_of_nil].
    split; [by intros ->|congruence].
  - intros Hc. split_and!; [by apply Ht| |by intros; eapply Lifecycle.step_closed].
    unfold Lifecycle.start. by rewrite Hc.
  - intros op Hph. unfold Lifecycle.phase_ok in Hp. rewrite Hph in Hp. lia.
  - intros op Hph. unfold Lifecycle.phase_ok in Hp. rewrite Hph in Hp. destruct Hp as (_ & ? & Hn). split; [lia|done].
Qed.

(** A close during an operation: the final tick is a new one. *)
Definition demo_events : list Lifecycle.event :=
  [Lifecycle.Start; Lifecycle.Interval; Lifecycle.Tick; Lifecycle.Close; Lifecycle.Settle 0; Lifecycle.CloseResumes;
   Lifecycle.Settle 1; Lifecycle.CloseResumes].

Definition demo_life : Lifecycle.life :=
  Eval vm_compute in
    default Lifecycle.new_life (Lifecycle.run_events demo_events Lifecycle.new_life).

Lemma lifecycle_correct_witness :
  Lifecycle.reachable demo_life /\ Lifecycle.closed demo_life = true
  /\ Lifecycle.phase demo_life = Lifecycle.CloseReturned 1
  /\ (Lifecycle.started_at_close demo_life <= 1)%nat.
Proof.
  assert (Hr : Lifecycle.reachable demo_life).
  { apply (Lifecycle.run_reachable demo_events Lifecycle.new_life demo_life Lifecycle.reach_new).
    reflexivity. }
  split; [exact Hr|]. split; [reflexivity|]. split; [reflexivity|].
  destruct (lifecycle_correct demo_life Hr) as (_ & _ & _ & _ & _ & H).
  exact (proj1 (H 1%nat eq_refl)).
Defined.
