(* ===== verification/Durability.v ===== *)
(** * No acknowledged link is lost

    All the processes of a deployment together: requests that create links,
    sync workers that drain the queues (any number, on the same shards),
    everything else the program does, crashes, lost calls and expiring locks.
    The state is the world and the log of Redis commands; the theorem is an
    invariant of every reachable state. *)
From S2P Require Import Prelude JsNum JsString JsDate Json Keys Link Async Redis Sql World Interleave.
From S2P Require Import PostgresStore CachedStore WriteBehind SyncQueue SyncWorker.
Open Scope Z_scope.

Definition valid_shard (shard : Z) : Prop := 0 <= shard < LINK_KEY_SHARDS.

Section Durability.
Context `{Redis} `{Postgres} (otherDate : string -> option Z).

(** ** What has become of a queue record *)

Definition dead_lettered (s : state) (shard : Z) (reason payload : string) : Prop :=
  exists at_, RPUSH (dead_key shard) (deadLetterText reason payload at_) ∈ s.2.

(** Another record of the same queue had the same code. *)
Definition superseded (s : state) (shard : Z) (link : PendingLink) : Prop :=
  exists y link', RPUSH (queue_key shard) y ∈ s.2 /\ parsePendingLink otherDate y = Some link'
    /\ p_code link' = p_code link /\ link' <> link.

(** A record is settled when its link is in PostgreSQL, or its code is another
    link's there and the record is dead-lettered, or another record took its
    place; text that is no record is dead-lettered. *)
Definition settled (s : state) (shard : Z) (x : string) : Prop :=
  match parsePendingLink otherDate x with
  | None => dead_lettered s shard "invalid" x
  | Some link =>
      durable s.1 link
      \/ (taken s.1 link /\ exists record, serializePendingLink link = Return record
          /\ dead_lettered s shard "conflict" record)
      \/ superseded s shard link
  end.

Lemma settled_later s s' shard x :
  rows_kept s.1 s'.1 -> log_grows s s' -> settled s shard x -> settled s' shard x.
Proof.
  intros Hr [tl Hl]. unfold settled, dead_lettered, superseded.
  assert (Hin : forall c, c ∈ s.2 -> c ∈ s'.2) by (intros c Hc; rewrite Hl; set_solver).
  destruct (parsePendingLink otherDate x) as [link|].
  - intros [Hd|[[Ht (record & Hs & at_ & Hd)]|(y & l & Hy & Hrest)]].
    + left. by eapply durable_kept.
    + right. left. split; [by eapply taken_kept|]. exists record. split; [done|]. exists at_. auto.
    + right. right. exists y, l. split; [auto|done].
  - intros [at_ Hd]. exists at_. auto.
Qed.

(** ** The invariant *)

Record consistent (s : state) : Prop := {
  queue_typed shard : valid_shard shard -> exists l, list_at (ks s.1) (queue_key shard) = Return l;
  queue_lasting shard : valid_shard shard -> ks s.1 !! queue_key shard ≫= pttl = None;
  queue_logged shard x : valid_shard shard -> x ∈ queue_of (ks s.1) shard ->
    RPUSH (queue_key shard) x ∈ s.2;
  all_accounted shard x : valid_shard shard -> RPUSH (queue_key shard) x ∈ s.2 ->
    x ∈ queue_of (ks s.1) shard \/ settled s shard x
}.

(** What the holders of the tokens in [who] may rely on: the others keep the
    rows, the log and the invariant, take no lock in their name, and while they
    hold a lock only append to its queue. *)
Definition moves (who : string -> Prop) (s s' : state) : Prop :=
  rows_kept s.1 s'.1 /\ log_grows s s' /\ (consistent s -> consistent s')
  /\ forall token shard, who token -> valid_shard shard ->
     lock_holder (ks s'.1) shard = Some token ->
     lock_holder (ks s.1) shard = Some token
     /\ queue_of (ks s.1) shard `prefix_of` queue_of (ks s'.1) shard.

Definition others (token : string) : state -> state -> Prop := moves (fun t => t = token).
Definition own (token : string) : state -> state -> Prop := moves (fun t => t <> token).
Definition everyone : state -> state -> Prop := moves (fun _ => True).

Lemma moves_refl who s : moves who s s.
Proof. split; [apply rows_kept_refl|]. split; [by unfold log_grows|]. split; [done|]. done. Qed.

Lemma moves_trans who a b c : moves who a b -> moves who b c -> moves who a c.
Proof.
  intros (R1 & L1 & C1 & H1) (R2 & L2 & C2 & H2). split; [by eapply rows_kept_trans|].
  split; [unfold log_grows in *; by etrans|]. split; [auto|].
  intros token shard Hw Hs Hh. destruct (H2 _ _ Hw Hs Hh) as [Hb P2].
  destruct (H1 _ _ Hw Hs Hb) as [Ha P1]. split; [done|by etrans].
Qed.

Lemma moves_weaken (P Q : string -> Prop) s s' : (forall t, Q t -> P t) -> moves P s s' -> moves Q s s'.
Proof. intros HPQ (Hr & Hl & Hc & Hh). split; [done|]. split; [done|]. split; [done|]. eauto. Qed.

(** A step that changes neither queues nor locks and queues nothing. *)
Lemma consistent_still s s' :
  rows_kept s.1 s'.1 -> log_grows s s' ->
  (forall shard x, RPUSH (queue_key shard) x ∈ s'.2 -> RPUSH (queue_key shard) x ∈ s.2) ->
  (forall shard, valid_shard shard -> ks s'.1 !! queue_key shard = ks s.1 !! queue_key shard) ->
  consistent s -> consistent s'.
Proof.
  intros Hr Hl Hlog Hq [Ht Hlast Hlogged Hacc].
  assert (Hqo : forall shard, valid_shard shard -> queue_of (ks s'.1) shard = queue_of (ks s.1) shard)
    by (intros shard Hs; by apply queue_of_ext, Hq).
  split.
  - intros shard Hs. destruct (Ht shard Hs) as [l Hl']. exists l.
    by rewrite (list_at_ext _ (ks s.1)) by by apply Hq.
  - intros shard Hs. rewrite Hq by done. by apply Hlast.
  - intros shard x Hs. rewrite Hqo by done. intros Hin. destruct Hl as [tl ->].
    apply elem_of_app. left. by apply Hlogged.
  - intros shard x Hs Hin. rewrite Hqo by done.
    destruct (Hacc shard x Hs (Hlog _ _ Hin)) as [|Hset]; [by left|right]. by eapply settled_later.
Qed.

Lemma moves_still who s s' :
  rows_kept s.1 s'.1 -> log_grows s s' ->
  (forall shard x, RPUSH (queue_key shard) x ∈ s'.2 -> RPUSH (queue_key shard) x ∈ s.2) ->
  (forall shard, valid_shard shard -> ks s'.1 !! queue_key shard = ks s.1 !! queue_key shard
    /\ (lock_holder (ks s'.1) shard = lock_holder (ks s.1) shard
        \/ forall t, who t -> lock_holder (ks s'.1) shard <> Some t)) ->
  moves who s s'.
Proof.
  intros Hr Hl Hlog Hk. split; [done|]. split; [done|]. split.
  - apply consistent_still; try done. intros shard Hs. by apply Hk.
  - intros token shard Hw Hs Hh. destruct (Hk shard Hs) as [Hq [Hlock|Hno]].
    + rewrite <- Hlock. split; [done|]. by rewrite (queue_of_ext (ks s.1) (ks s'.1) shard Hq).
    + by destruct (Hno token Hw).
Qed.

Lemma moves_quiet who s s' : quiet s s' -> moves who s s'.
Proof.
  intros (Hk & Hd & cs & Hcs & Hno). apply moves_still.
  - intros code r. rewrite Hd. intros Hr. by exists r.
  - by exists cs.
  - intros shard x. rewrite Hcs, elem_of_app. intros [|Hin]; [done|]. by destruct (Hno _ _ Hin).
  - intros shard _. rewrite Hk. split; [done|by left].
Qed.

(** A PostgreSQL step. *)
Lemma moves_pg who s s' :
  ks s'.1 = ks s.1 -> s'.2 = s.2 -> rows_kept s.1 s'.1 -> moves who s s'.
Proof.
  intros Hk Hl Hr. apply moves_still; [done| | |].
  - unfold log_grows. by rewrite Hl.
  - intros shard x. by rewrite Hl.
  - intros shard _. rewrite Hk. split; [done|by left].
Qed.

(** Accepting a link appends to one queue. *)
Lemma moves_accepts who self input at_ s s' : accepts self input at_ s s' -> moves who s s'.
Proof.
  intros (l & record & fields & cs & Hl & Hlink & Hlen & Hrec & Hcs & _ & ->).
  set (home := shardOf (in_code input)) in *.
  assert (Hhome : valid_shard home) by apply shardOf_range.
  set (k' := enqueued _ _ _ _ _ _ _).
  assert (Hqh : queue_of k' home = l ++ [record])
    by (unfold queue_of, k'; by rewrite enqueued_queue by apply link_queue_ne).
  assert (Hqo : queue_of (ks s.1) home = l) by (unfold queue_of; by rewrite Hl).
  assert (Hother : forall shard, valid_shard shard -> shard <> home ->
    k' !! queue_key shard = ks s.1 !! queue_key shard).
  { intros shard Hs Hne. apply enqueued_other; [auto with wraplink|].
    intros Heq. apply Hne. by apply (key_of_inj "sync:queue"). }
  assert (Hlog : forall shard x, RPUSH (queue_key shard) x ∈ (s.2 ++ cs ++ [RPUSH (queue_key home) record]) ->
    RPUSH (queue_key shard) x ∈ s.2 \/ (queue_key shard = queue_key home /\ x = record)).
  { intros shard x. rewrite !elem_of_app, list_elem_of_singleton.
    intros [|[Hin|Heq]]; [by left|by destruct (Hcs _ _ Hin)|right].
    split; [exact (f_equal command_key Heq)|].
    exact (f_equal (fun c => match c with RPUSH _ y => y | _ => x end) Heq). }
  assert (Hgrow : log_grows s (after s k' (cs ++ [RPUSH (queue_key home) record]))) by by eexists.
  assert (Hrows : rows_kept s.1 (with_ks s.1 k')) by (intros code r Hr; by exists r).
  split; [done|]. split; [done|]. split.
  - intros [Ht Hlast Hlogged Hacc]. split; simpl.
    + intros shard Hs. destruct (decide (shard = home)) as [->|Hne].
      * exists (l ++ [record]). apply enqueued_queue, link_queue_ne.
      * destruct (Ht shard Hs) as [l' Hl']. exists l'. by rewrite (list_at_ext _ (ks s.1)) by auto.
    + intros shard Hs. destruct (decide (shard = home)) as [->|Hne].
      * unfold k', enqueued. rewrite lookup_insert_eq. by apply Hlast.
      * rewrite Hother by done. by apply Hlast.
    + intros shard x Hs Hin. rewrite !elem_of_app, list_elem_of_singleton.
      destruct (decide (shard = home)) as [->|Hne].
      * rewrite Hqh in Hin. apply elem_of_app in Hin as [Hin|Hin%list_elem_of_singleton].
        -- left. apply Hlogged; [done|by rewrite Hqo].
        -- subst x. by right; right.
      * left. apply Hlogged; [done|]. by rewrite <- (queue_of_ext (ks s.1) _ shard (Hother _ Hs Hne)).
    + intros shard x Hs Hin. destruct (Hlog _ _ Hin) as [Hold|[Hk ->]].
      * destruct (Hacc shard x Hs Hold) as [Hq|Hset]; [left|right; by eapply settled_later].
        destruct (decide (shard = home)) as [->|Hne].
        -- rewrite Hqh, elem_of_app. left. by rewrite <- Hqo.
        -- by rewrite (queue_of_ext (ks s.1) k' shard) by auto.
      * apply (key_of_inj "sync:queue") in Hk as ->; [|done..]. left. rewrite Hqh. set_solver.
  - intros token shard _ Hs. simpl. intros Hh. split.
    + rewrite <- Hh. symmetry. apply lock_holder_ext, enqueued_other; auto with wraplink.
    + destruct (decide (shard = home)) as [->|Hne].
      * rewrite Hqh, Hqo. by eexists.
      * by rewrite (queue_of_ext (ks s.1) k' shard) by auto.
Qed.

(** ** The queue operations of a worker *)
Section Operations.
Context (token : string) (shard : Z) (Hshard : valid_shard shard).

Definition mine (c : choice) : Prop := c_uuid c = token.

Lemma own_trans a b c : own token a b -> own token b c -> own token a c.
Proof. apply moves_trans. Qed.

Lemma others_refl s : others token s s.
Proof. apply moves_refl. Qed.

Lemma others_trans a b c : others token a b -> others token b c -> others token a c.
Proof. apply moves_trans. Qed.

Lemma others_consistent s s' : others token s s' -> consistent s -> consistent s'.
Proof. by intros (_ & _ & Hc & _). Qed.

Lemma length_safe s :
  safe mine (others token) (own token) (RedisSyncQueue.length shard) (fun _ _ => True) s.
Proof.
  unfold RedisSyncQueue.length. apply safe_async_bind; [apply others_refl|]. apply safe_done.
  intros s1 _. rewrite syncQueueKey_eq by done. apply safe_redis; [|..].
  - intros s2 _. apply moves_refl.
  - intros s2 _. rewrite logged_call, execute_LLEN. unfold answer.
    destruct (list_at _ _) as [l|e]; cbv beta iota zeta.
    + unfold as_number. rewrite logged_resolve. split; [|done].
      apply moves_quiet, quiet_after. set_solver.
    + split; [|done]. apply moves_quiet, quiet_after. set_solver.
  - done.
Qed.

Lemma acquire_safe ttlMs s :
  0 < ttlMs -> ttl_ok ttlMs ->
  safe mine (others token) (own token) (RedisSyncQueue.acquire shard token ttlMs) (fun _ _ => True) s.
Proof.
  intros Hpos Hok. unfold RedisSyncQueue.acquire.
  apply safe_async_bind; [apply others_refl|]. apply safe_done.
  intros s1 _. rewrite syncLockKey_eq by done.
  apply safe_async_bind; [apply others_refl|]. apply safe_redis.
  - intros s2 _. apply moves_refl.
  - intros s2 _. rewrite logged_single, execute_SET_NX_PX by done. fold (lock_key shard).
    destruct (ks s2.1 !! lock_key shard) as [e|] eqn:Hfree.
    + split; [apply moves_quiet, quiet_after; set_solver|]. intros s3 _. by apply safe_done.
    + split; [|intros s3 _; by apply safe_done]. apply moves_still; simpl.
      * intros code r Hr. by exists r.
      * by eexists.
      * intros sh x. rewrite elem_of_app, list_elem_of_singleton. by intros [|].
      * intros sh Hsh. rewrite lookup_insert_ne by auto with wraplink. split; [done|].
        destruct (decide (sh = shard)) as [->|Hne].
        -- right. intros t Ht. unfold lock_holder, string_at. rewrite lookup_insert_eq. simpl. congruence.
        -- left. apply lock_holder_ext, lookup_insert_ne. intros Heq. apply Hne. symmetry.
           by apply (key_of_inj "sync:lock").
  - intros s2. by apply safe_done.
Qed.

(** What a worker knows of the batch it has read: as long as it holds the lock
    the batch is still at the head of the queue. *)
Definition batch_read (raw : list string) (s : state) : Prop :=
  (lock_holder (ks s.1) shard = Some token -> raw `prefix_of` queue_of (ks s.1) shard)
  /\ forall x, x ∈ raw -> RPUSH (queue_key shard) x ∈ s.2.

Lemma batch_read_stable raw s s' : others token s s' -> batch_read raw s -> batch_read raw s'.
Proof.
  intros (_ & [tl Hl] & _ & Hh) [Hp Hin]. split.
  - intros Hhold. destruct (Hh token shard eq_refl Hshard Hhold) as [Hb Hpre]. etrans; [by apply Hp|done].
  - intros x Hx. rewrite Hl, elem_of_app. left. auto.
Qed.

Lemma batch_read_same_ks raw s s' :
  ks s'.1 = ks s.1 -> log_grows s s' -> batch_read raw s -> batch_read raw s'.
Proof.
  intros Hk [tl Hl] [Hp Hin]. split; [by rewrite Hk|]. intros x Hx. rewrite Hl, elem_of_app. auto.
Qed.

Lemma peek_safe count s :
  0 < count -> consistent s ->
  safe mine (others token) (own token) (RedisSyncQueue.peek shard count)
    (fun s' r => consistent s' /\
       match r with Return raw => batch_read raw s' | Throw _ => True end) s.
Proof.
  intros Hcount Hs. unfold RedisSyncQueue.peek. apply safe_async_bind; [apply others_refl|].
  apply safe_done. intros s1 H1. rewrite syncQueueKey_eq by done. fold (queue_key shard).
  pose proof (others_consistent _ _ H1 Hs) as Hs1.
  eapply (safe_mono _ _ _ _ (fun s' r => match r with Return raw => batch_read raw s' | Throw _ => True end
    /\ consistent s')); [by intros s' a [? ?]|].
  apply safe_frame; [by apply others_consistent| |done].
  apply safe_redis.
  - intros s2 _. split; [apply moves_refl|done].
  - intros s2 H2. rewrite logged_call, execute_LRANGE. unfold answer.
    assert (Hq : forall k cs, k = ks s2.1 -> (forall q x, RPUSH q x ∉ cs) -> own token s2 (after s2 k cs)
      /\ (consistent s2 -> consistent (after s2 k cs))).
    { intros k cs -> Hcs. split; [by apply moves_quiet, quiet_after|].
      apply (moves_quiet (fun _ => True)). by apply quiet_after. }
    destruct (list_at (ks s2.1) (queue_key shard)) as [l|e] eqn:Hl; cbv beta iota zeta.
    + unfold RedisSyncQueue.as_elements. rewrite logged_resolve.
      split; [apply Hq; [done|set_solver]|]. intros s3 H3.
      eapply batch_read_stable; [exact H3|]. rewrite list_range_prefix by done.
      assert (Hqo : queue_of (ks s2.1) shard = l) by (unfold queue_of; by rewrite Hl). split; simpl.
      * intros _. rewrite Hqo. apply prefix_take.
      * intros x Hx. apply elem_of_app. left.
        apply (queue_logged s2); [|done|rewrite Hqo; apply elem_of_take in Hx as (i & Hi & _); by eapply list_elem_of_lookup_2].
        by eapply others_consistent.
    + split; [apply Hq; [done|set_solver]|done].
  - done.
Qed.

Lemma release_safe s :
  safe mine (others token) (own token) (RedisSyncQueue.release shard token) (fun _ _ => True) s.
Proof.
  unfold RedisSyncQueue.release. apply safe_async_bind; [apply others_refl|]. apply safe_done.
  intros s1 _. rewrite syncLockKey_eq by done. fold (lock_key shard).
  apply safe_async_bind; [apply others_refl|]. apply safe_redis.
  - intros s2 _. apply moves_refl.
  - intros s2 _. pose proof (RELEASE_LOCK_spec shard token (ks s2.1)) as Hrel.
    destruct (logged _ (ks s2.1)) as [[k cs] r]. destruct Hrel as [Hcs [->|[-> Hh]]].
    + split; [by apply moves_quiet, quiet_after|]. intros s3 _. destruct r; by apply safe_done.
    + split; [|intros s3 _; destruct r; by apply safe_done]. apply moves_still; simpl.
      * intros code q Hq. by exists q.
      * by eexists.
      * intros sh x. rewrite elem_of_app. intros [|Hin]; [done|]. by destruct (Hcs _ _ Hin).
      * intros sh Hsh. rewrite lookup_delete_ne by auto with wraplink. split; [done|].
        destruct (decide (sh = shard)) as [->|Hne].
        -- right. intros t Ht. unfold lock_holder, string_at. by rewrite lookup_delete_eq.
        -- left. apply lock_holder_ext, lookup_delete_ne. intros Heq. apply Hne. symmetry.
           by apply (key_of_inj "sync:lock").
  - intros s2. by apply safe_done.
Qed.

(** ** One batch *)

Lemma deadLetter_safe (guar : state -> state -> Prop) reason payload s :
  (forall s s', quiet s s' -> guar s s') ->
  safe mine (others token) guar (deadLetter reason payload)
    (fun _ r => match r with
                | Return letter => exists at_, letter = deadLetterText reason payload at_
                | Throw _ => True end) s.
Proof.
  intros Hq. unfold deadLetter. apply safe_async_bind; [apply others_refl|].
  apply safe_local; [done|done|]. intros s1 s2 s3 c _ _ _ _. cbn [perform snd].
  apply safe_async_bind; [apply others_refl|]. apply safe_done. intros s4 _.
  destruct (toISOString _) as [at_|e]; [|by apply safe_done].
  apply safe_done. intros s5 _. by exists at_.
Qed.

Definition sorted_from (raw : list string) (valid : list PendingLink) (letters : list string) : Prop :=
  valid = omap (parsePendingLink otherDate) raw
  /\ forall x, x ∈ raw -> parsePendingLink otherDate x = None ->
     exists at_, deadLetterText "invalid" x at_ ∈ letters.

Lemma sortEntries_safe (guar : state -> state -> Prop) raw seen valid letters s :
  (forall s s', quiet s s' -> guar s s') -> sorted_from seen valid letters ->
  safe mine (others token) guar (sortEntries otherDate raw valid letters)
    (fun _ r => match r with
                | Return (valid', letters') => sorted_from (seen ++ raw) valid' letters'
                | Throw _ => True end) s.
Proof.
  intros Hq. revert seen valid letters s; induction raw as [|x raw IH]; intros seen valid letters s Hs.
  { simpl. intros s' _. by rewrite app_nil_r. }
  simpl. destruct (parsePendingLink otherDate x) as [link|] eqn:Hx.
  - replace (seen ++ x :: raw) with ((seen ++ [x]) ++ raw) by by rewrite <- app_assoc.
    apply IH. destruct Hs as [-> Hl]. split.
    + by rewrite omap_app; simpl; rewrite Hx.
    + intros y [Hy| ->%list_elem_of_singleton]%elem_of_app Hp; [by apply Hl|congruence].
  - eapply safe_then; [apply others_refl|by apply (deadLetter_safe guar "invalid" x)| |].
    + intros s' letter [at_ ->].
      replace (seen ++ x :: raw) with ((seen ++ [x]) ++ raw) by by rewrite <- app_assoc.
      apply IH. destruct Hs as [-> Hl]. split.
      * by rewrite omap_app; simpl; rewrite Hx, app_nil_r.
      * intros y [Hy| ->%list_elem_of_singleton]%elem_of_app Hp.
        -- destruct (Hl y Hy Hp) as [b Hb]. exists b. apply elem_of_app. by left.
        -- exists at_. apply elem_of_app. right. by apply list_elem_of_singleton.
    + intros s' e _. by apply safe_done.
Qed.

Definition conflicts_lettered (conflicts : list PendingLink) (letters : list string) : Prop :=
  forall link, link ∈ conflicts -> exists record at_,
    serializePendingLink link = Return record /\ deadLetterText "conflict" record at_ ∈ letters.

Lemma recordConflicts_safe (guar : state -> state -> Prop) todo seen letters0 letters s :
  (forall s s', quiet s s' -> guar s s') -> conflicts_lettered seen letters -> letters0 ⊆ letters ->
  safe mine (others token) guar (recordConflicts todo letters)
    (fun _ r => match r with
                | Return letters' => conflicts_lettered (seen ++ todo) letters' /\ letters0 ⊆ letters'
                | Throw _ => True end) s.
Proof.
  intros Hq. revert seen letters s; induction todo as [|c todo IH]; intros seen letters s Hs Hsub.
  { simpl. intros s' _. by rewrite app_nil_r. }
  cbn [recordConflicts]. apply safe_async_bind; [apply others_refl|]. apply safe_done. intros s1 _.
  destruct (serializePendingLink c) as [record|e] eqn:Hc; [|by apply safe_done].
  eapply safe_then; [apply others_refl|by apply (deadLetter_safe guar "conflict" record)| |].
  - intros s' letter [at_ ->].
    replace (seen ++ c :: todo) with ((seen ++ [c]) ++ todo) by by rewrite <- app_assoc.
    apply IH.
    + intros link [Hl| ->%list_elem_of_singleton]%elem_of_app.
      * destruct (Hs _ Hl) as (r & b & Hr & Hb). exists r, b. split; [done|].
        apply elem_of_app. by left.
      * exists record, at_. split; [done|]. apply elem_of_app. right. by apply list_elem_of_singleton.
    + intros y Hy. apply elem_of_app. left. by apply Hsub.
  - intros s' e _. by apply safe_done.
Qed.

(** Once the letters of a batch are pushed, each of its entries is settled. *)
Lemma batch_entries_settled s raw valid invalid letters res x :
  sorted_from raw valid invalid -> invalid ⊆ letters ->
  batch_settled valid s.1 res -> conflicts_lettered (conflicts res) letters ->
  (forall y, y ∈ raw -> RPUSH (queue_key shard) y ∈ s.2) ->
  (forall letter, letter ∈ letters -> RPUSH (dead_key shard) letter ∈ s.2) ->
  x ∈ raw -> settled s shard x.
Proof.
  intros [Hv Hinv] Hsub Hset Hconf Hlog Hpush Hx. unfold settled.
  destruct (parsePendingLink otherDate x) as [link|] eqn:Hparse.
  2: { destruct (Hinv x Hx Hparse) as [at_ Hin]. exists at_. by apply Hpush, Hsub. }
  assert (Hlv : link ∈ valid) by (rewrite Hv; apply list_elem_of_omap; eauto).
  destruct (unique_by_code_covers [] valid link Hlv) as (i & Hi & _ & l & Hli & Hlu); [set_solver|].
  rewrite Hli in Hi. simpl in Hi. injection Hi as Hcode.
  destruct (decide (l = link)) as [->|Hne].
  - destruct (batch_settled_first _ _ _ link Hset) as [Hpers|Hconfl]; [by apply unique_first| |].
    + left. destruct (persisted_durable _ _ _ Hset _ Hpers) as (link' & Hl'%unique_first & Hc' & Hd).
      by rewrite <- (unique_by_code_inj _ _ _ _ Hl' Hlu Hc').
    + right. left. destruct (conflicts_taken _ _ _ Hset _ Hconfl) as [_ Ht]. split; [done|].
      destruct (Hconf _ Hconfl) as (record & at_ & Hr & Hin). exists record. split; [done|].
      exists at_. by apply Hpush.
  - right. right. apply list_elem_of_lookup_2 in Hli. rewrite Hv in Hli.
    apply list_elem_of_omap in Hli as (y & Hy & Hpy). exists y, l. auto.
Qed.

(** The completion of a batch, by a worker that may have lost its lock. *)
Lemma complete_safe raw valid invalid letters res ttl s :
  sorted_from raw valid invalid -> invalid ⊆ letters ->
  conflicts_lettered (conflicts res) letters ->
  consistent s -> batch_read raw s -> batch_settled valid s.1 res ->
  safe mine (others token) (own token)
    (RedisSyncQueue.complete shard token
       {| consumed := Z.of_nat (List.length raw); sc_persisted := persisted res;
          sc_conflicts := p_code <$> conflicts res; deadLetters := letters; cacheTtlSeconds := ttl |})
    (fun _ _ => True) s.
Proof.
  intros Hsort Hsub Hconf Hs Hread Hset. unfold RedisSyncQueue.complete.
  apply safe_async_bind; [apply others_refl|]. apply safe_done. intros s1 H1.
  set (completion := {| consumed := _ |}).
  destruct (RedisSyncQueue.completeCall shard token completion) as [[keys arguments]|e] eqn:Hcall;
    [|by apply safe_done].
  apply safe_async_bind; [apply others_refl|]. apply safe_redis.
  - intros s2 _. apply moves_refl.
  - intros s2 H2. assert (H02 : others token s s2) by by eapply others_trans.
    pose proof (others_consistent _ _ H02 Hs) as Hs2.
    pose proof (batch_read_stable _ _ _ H02 Hread) as [Hprefix Hlogged].
    assert (Hset2 : batch_settled valid s2.1 res) by (eapply batch_settled_kept; [apply H02|done]).
    destruct (queue_typed _ Hs2 shard Hshard) as [l Hl].
    pose proof (COMPLETE_SYNC_spec shard token completion keys arguments (ks s2.1) l Hshard
      ltac:(simpl; lia) Hl Hcall) as Hspec.
    destruct (logged (COMPLETE_SYNC keys arguments) (ks s2.1)) as [[k cs] r].
    split; [|intros s3 _; destruct r; by apply safe_done].
    assert (Hrows : rows_kept s2.1 (after s2 k cs).1) by (intros code q Hq; by exists q).
    assert (Hgrow : log_grows s2 (after s2 k cs)) by by eexists.
    destruct Hspec as [[_ [Hq Hk Hlog]]|[_ Hdone]].
    { apply moves_still; [done|done| |]; simpl.
      - intros sh x. rewrite elem_of_app. intros [|Hin]; [done|]. by destruct (Hlog _ _ Hin).
      - intros sh _. split; [apply Hq|]. left. apply lock_holder_ext, Hk. }
    destruct Hdone as [Hholder Hqueue Htyped Httl Hlock Hothers Hletters Hlog].
    simpl in Hqueue, Hletters. rewrite Nat2Z.id in Hqueue.
    destruct (Hprefix Hholder) as [rest Hrest]. rewrite Hrest, drop_app_length in Hqueue.
    assert (Holdlog : forall sh x, RPUSH (queue_key sh) x ∈ s2.2 ++ cs -> RPUSH (queue_key sh) x ∈ s2.2).
    { intros sh x. rewrite elem_of_app. intros [|Hin]; [done|]. by destruct (Hlog _ _ Hin). }
    assert (Hentries : forall x, x ∈ raw -> settled (after s2 k cs) shard x).
    { intros x. apply (batch_entries_settled _ raw valid invalid letters res); try done.
      - by eapply batch_settled_kept.
      - intros y Hy. simpl. apply elem_of_app. left. by apply Hlogged.
      - intros letter Hin. simpl. apply elem_of_app. right. by apply Hletters. }
    split; [done|]. split; [done|]. split.
    + intros _. destruct Hs2 as [Ht Hlast Hlg Hacc]. split; simpl.
      * intros sh Hsh. destruct (decide (sh = shard)) as [->|Hne]; [done|].
        destruct (Ht sh Hsh) as [l' Hl']. exists l'.
        destruct (Hothers sh Hsh Hne) as [Hq _]. by rewrite (list_at_ext _ _ _ Hq).
      * intros sh Hsh. destruct (decide (sh = shard)) as [->|Hne]; [by apply Httl, Hlast|].
        destruct (Hothers sh Hsh Hne) as [-> _]. by apply Hlast.
      * intros sh x Hsh Hin. apply elem_of_app. left. apply Hlg; [done|].
        destruct (decide (sh = shard)) as [->|Hne].
        -- rewrite Hqueue in Hin. rewrite Hrest. apply elem_of_app. by right.
        -- destruct (Hothers sh Hsh Hne) as [Hq _].
           by rewrite <- (queue_of_ext (ks s2.1) k sh Hq).
      * intros sh x Hsh Hin. destruct (Hacc sh x Hsh (Holdlog _ _ Hin)) as [Hold|Hold].
        2: { right. by eapply (settled_later s2). }
        destruct (decide (sh = shard)) as [->|Hne].
        -- rewrite Hrest in Hold. apply elem_of_app in Hold as [Hraw|Hr].
           ++ right. by apply Hentries.
           ++ left. by rewrite Hqueue.
        -- left. destruct (Hothers sh Hsh Hne) as [Hq _]. by rewrite (queue_of_ext (ks s2.1) k sh Hq).
    + intros t sh Ht Hsh. simpl. intros Hh. destruct (decide (sh = shard)) as [->|Hne].
      * unfold lock_holder, string_at in Hh. by rewrite Hlock in Hh.
      * destruct (Hothers sh Hsh Hne) as [Hq Hk].
        rewrite (lock_holder_ext _ _ _ Hk) in Hh. split; [done|].
        by rewrite (queue_of_ext (ks s2.1) k sh Hq).
  - intros s2. by apply safe_done.
Qed.

(** ** A worker on a shard *)
Section Shard.
Context (self : LinkSyncWorker).
Context (Hqueue : SyncWorker.queue self = RedisSyncQueue.queue)
  (Hsink : sink self = PostgresLinkStore.insertPendingBatch)
  (Hbatch : 0 < batchSize (options self)) (Hlock : 0 < lockTtlMs self /\ ttl_ok (lockTtlMs self)).

Lemma safe_consistent {A} (m : io effect A) Q s :
  safe mine (others token) (own token) m Q s -> consistent s ->
  safe mine (others token) (own token) m (fun s' a => Q s' a /\ consistent s') s.
Proof.
  intros Hm Hs. apply safe_frame; [by apply others_consistent| |done].
  eapply safe_guar; [|exact Hm]. intros s1 s2 Hown. split; [done|]. by destruct Hown as (_ & _ & Hc & _).
Qed.

(** What is known while a batch is worked on. *)
Definition working (raw : list string) (s : state) : Prop := consistent s /\ batch_read raw s.

Lemma working_stable raw s s' : others token s s' -> working raw s -> working raw s'.
Proof. intros Ho [Hc Hb]. split; [by eapply others_consistent|by eapply batch_read_stable]. Qed.

Lemma working_quiet raw s s' :
  quiet s s' -> own token s s' /\ (working raw s -> working raw s').
Proof.
  intros Hq. assert (Hm : moves (fun _ => True) s s') by by apply moves_quiet.
  split; [by eapply moves_weaken; [|exact Hm]|]. intros [Hc Hb].
  destruct Hm as (_ & Hl & Hcc & _). split; [auto|].
  eapply batch_read_same_ks; [|done|done]. by destruct Hq.
Qed.

Lemma working_pg raw s s' :
  ks s'.1 = ks s.1 -> s'.2 = s.2 -> rows_kept s.1 s'.1 ->
  own token s s' /\ (working raw s -> working raw s').
Proof.
  intros Hk Hl Hr. assert (Hm : moves (fun _ => True) s s') by by apply moves_pg.
  split; [by eapply moves_weaken; [|exact Hm]|]. intros [Hc Hb].
  destruct Hm as (_ & Hg & Hcc & _). split; [auto|]. by eapply batch_read_same_ks.
Qed.

Lemma sort_step raw s :
  working raw s ->
  safe mine (others token) (own token) (sortEntries otherDate raw [] [])
    (fun s' r => match r with Return (valid, letters) => sorted_from raw valid letters | Throw _ => True end
       /\ working raw s') s.
Proof.
  intros Hw. apply safe_frame; [apply working_stable| |done].
  apply (sortEntries_safe _ raw [] [] []); [apply working_quiet|]. split; [done|].
  by intros x Hx%not_elem_of_nil.
Qed.

Lemma insert_step raw valid s :
  working raw s ->
  safe mine (others token) (own token)
    (if (0 <? List.length valid)%nat then sink self valid
     else resolve {| persisted := []; conflicts := [] |})
    (fun s' r => match r with Return res => batch_settled valid s'.1 res | Throw _ => True end
       /\ working raw s') s.
Proof.
  intros Hw. destruct (0 <? List.length valid)%nat eqn:Hlen.
  - rewrite Hsink. apply safe_frame; [apply working_stable| |done].
    apply insertPendingBatch_safe; [apply others_refl|apply others_trans|by intros ?? (? & _)|].
    intros s1 s2. apply working_pg.
  - apply safe_done. intros s' Hs'. split; [|by eapply working_stable].
    destruct valid; [|done]. split; simpl.
    + by intros code Hin%not_elem_of_nil.
    + by intros link Hin%not_elem_of_nil.
    + by intros link Hin%not_elem_of_nil.
    + intros i link Hi. by rewrite lookup_nil in Hi.
Qed.

Lemma conflict_step raw valid res invalid s :
  working raw s -> batch_settled valid s.1 res ->
  safe mine (others token) (own token) (recordConflicts (conflicts res) invalid)
    (fun s' r => match r with
        | Return letters => conflicts_lettered (conflicts res) letters /\ invalid ⊆ letters
        | Throw _ => True end
       /\ (working raw s' /\ batch_settled valid s'.1 res)) s.
Proof.
  intros Hw Hset. apply (safe_frame _ _ _ (fun s => working raw s /\ batch_settled valid s.1 res)); [| |done].
  - intros s1 s2 Ho [H1 H2]. split; [by eapply working_stable|].
    eapply batch_settled_kept; [apply Ho|done].
  - apply (recordConflicts_safe _ (conflicts res) [] invalid invalid); [|by intros l Hl%not_elem_of_nil|done].
    intros s1 s2 Hq. destruct (working_quiet raw s1 s2 Hq) as [Hown Hwork]. split; [done|].
    intros [H1 H2]. split; [auto|]. eapply batch_settled_kept; [|done]. apply Hown.
Qed.

Lemma safe_counter name n {A} (f : async effect A) Q s :
  (forall s', safe mine (others token) (own token) f Q s') ->
  safe mine (others token) (own token) (await_ increment name n; f) Q s.
Proof.
  intros Hf. apply safe_async_bind; [apply others_refl|]. apply safe_local; [done| |].
  - intros. by apply moves_quiet.
  - intros s1 s2 s3 c _ _ _ _. cbn [perform snd]. apply Hf.
Qed.

Lemma processBatch_safe s :
  consistent s ->
  safe mine (others token) (own token) (processBatch otherDate self shard token) (fun _ _ => True) s.
Proof.
  intros Hs. unfold processBatch. rewrite Hqueue. cbn [peek complete RedisSyncQueue.queue].
  apply safe_async_bind; [apply others_refl|]. eapply safe_mono; [|by apply peek_safe].
  intros s1 [raw|e] [Hs1 Hread]; [|by apply safe_done].
  case_match; [by apply safe_done|].
  apply safe_async_bind; [apply others_refl|]. eapply safe_mono; [|by apply (sort_step raw)].
  intros s2 [[valid invalid]|e] [Hsort Hw2]; [|by apply safe_done].
  apply safe_async_bind; [apply others_refl|]. eapply safe_mono; [|by apply (insert_step raw valid)].
  intros s3 [res|e] [Hset Hw3]; [|by apply safe_done].
  apply safe_async_bind; [apply others_refl|].
  eapply safe_mono; [|by apply (conflict_step raw valid res invalid)].
  intros s4 [letters|e] [Hlet [[Hs4 Hread4] Hset4]]; [|by apply safe_done].
  destruct Hlet as [Hconf Hsub].
  eapply safe_then; [apply others_refl|by apply (complete_safe raw valid invalid)| |].
  - intros s5 completed _. destruct completed; cbn [negb].
    + repeat (apply safe_counter; intros ?). by apply safe_done.
    + apply safe_counter. intros s6. by apply safe_done.
  - intros s5 e _. by apply safe_done.
Qed.

Lemma batchLoop_safe n held total s :
  consistent s ->
  safe mine (others token) (own token) (batchLoop otherDate self n held shard token total)
    (fun _ _ => True) s.
Proof.
  revert held total s; induction n as [|n IH]; intros held total s Hs; [by apply safe_done|].
  cbn [batchLoop].
  assert (Hiter : forall s, consistent s -> safe mine (others token) (own token)
    (io_bind (processBatch otherDate self shard token) (fun r =>
          match r with
          | Throw e => Done (true, Throw e)
          | Return NothingLeft => Done (true, Return total)
          | Return LockLost => Done (false, Return total)
          | Return (Completed taken counts) =>
              if Z.of_nat taken <? batchSize (options self)
              then Done (false, Return (addResult total counts))
              else batchLoop otherDate self n false shard token (addResult total counts)
          end)) (fun _ _ => True) s).
  { intros s0 Hs0. apply safe_bind; [apply others_refl|].
    eapply safe_mono; [|apply safe_consistent; [by apply processBatch_safe|done]].
    intros s1 [o|e] [_ Hs1]; [|by apply safe_done].
    destruct o as [| |taken counts]; [by apply safe_done..|].
    destruct (_ <? _); [by apply safe_done|by apply IH]. }
  destruct held; [by apply Hiter|]. rewrite Hqueue. cbn [acquire RedisSyncQueue.queue].
  apply safe_bind; [apply others_refl|]. destruct Hlock.
  eapply safe_mono; [|apply safe_consistent; [by apply acquire_safe|done]].
  intros s1 [[]|e] [_ Hs1]; [by apply Hiter|by apply safe_done..].
Qed.

Lemma syncShard_safe s :
  consistent s ->
  safe mine (others token) (own token) (syncShard otherDate self shard) (fun _ _ => True) s.
Proof.
  intros Hs. unfold syncShard. rewrite Hqueue. cbn [length acquire release RedisSyncQueue.queue].
  apply safe_async_bind; [apply others_refl|].
  eapply safe_mono; [|apply safe_consistent; [apply length_safe|done]].
  intros s1 [waiting|e] [_ Hs1]; [|by apply safe_done].
  destruct (waiting =? 0); [by apply safe_done|].
  apply safe_async_bind; [apply others_refl|].
  apply safe_local; [done|intros; by apply moves_quiet|].
  intros s2 s3 s4 c H12 H23 H34 Hmine. cbn [perform snd]. rewrite Hmine.
  assert (Hs4 : consistent s4).
  { apply (others_consistent s3); [done|].
    destruct (moves_quiet (fun _ => True) _ _ H23) as (_ & _ & Hc & _). apply Hc.
    by apply (others_consistent s1). }
  apply safe_async_bind; [apply others_refl|]. destruct Hlock.
  eapply safe_mono; [|apply safe_consistent; [by apply acquire_safe|done]].
  intros s5 [[]|e] [_ Hs5]; cbn [negb]; [|by apply safe_done..].
  apply safe_bind; [apply others_refl|]. eapply safe_mono; [|by apply batchLoop_safe].
  intros s6 [[] r] _; [|by apply safe_done].
  apply safe_bind; [apply others_refl|]. eapply safe_mono; [|apply release_safe].
  intros s7 a _. by apply safe_done.
Qed.
End Shard.
End Operations.

(** ** A request that creates a link *)

(** Programs whose only keys in Redis are those of cached links. *)
Fixpoint on_links {A} (m : io effect A) : Prop :=
  match m with
  | Done _ => True
  | Await e k =>
      match e with
      | RedisEval _ sc => only (fun c => exists code, command_key c = link_key code) sc
      | _ => True
      end /\ forall r, on_links (k r)
  end.

Lemma on_links_bind {A B} (m : io effect A) (f : A -> io effect B) :
  on_links m -> (forall a, on_links (f a)) -> on_links (io_bind m f).
Proof. intros Hm Hf. induction m as [a|X e k IH]; simpl; [done|]. destruct Hm as [He Hk]. by split; [|auto]. Qed.

Lemma on_links_then {A B} (m : async effect A) (f : A -> async effect B) :
  on_links m -> (forall a, on_links (f a)) -> on_links (async_bind m f).
Proof. intros Hm Hf. apply on_links_bind; [done|]. by intros []. Qed.

Lemma on_links_given {A B} (a : A) (f : A -> async effect B) : on_links (f a) -> on_links (async_bind (lift (Return a)) f).
Proof. done. Qed.

Lemma on_links_catch {A} (m : async effect A) h : on_links m -> (forall e, on_links (h e)) -> on_links (try_catch m h).
Proof. intros Hm Hh. apply on_links_bind; [done|]. by intros []. Qed.

Lemma on_links_redis {A} (sc : script A) :
  only (fun c => exists code, command_key c = link_key code) sc -> on_links (redis_eval sc).
Proof. by split. Qed.

(** One call: a script on cached links, a statement, or a local effect. *)
Lemma on_links_call token {X} (e : effect X) s :
  match e with RedisEval _ sc => only (fun c => exists code, command_key c = link_key code) sc | _ => True end ->
  safe (mine token) (others token) (own token) (call e) (fun _ _ => True) s.
Proof.
  intros He. destruct (is_local e) eqn:Hlocal; [apply safe_local; [done|apply moves_quiet|done]|].
  destruct e as [|B sc|B q| | | |]; try done; [|apply safe_pg; [intros s1 s2; apply moves_pg|done|done]].
  apply safe_redis; [intros; apply moves_refl| |done]. intros s1 _.
  pose proof (logged_only _ sc (ks s1.1) He) as Hf. destruct (logged sc (ks s1.1)) as [[k cs] r].
  destruct Hf as [Hcs Hf]. split; [|done].
  apply moves_still; [by intros code r0 Hr; exists r0|by eexists| |].
  - intros shard x. simpl. rewrite elem_of_app. intros [|Hin]; [done|]. rewrite Forall_forall in Hcs.
    destruct (Hcs _ Hin) as [code Hc]. by destruct (link_queue_ne code shard).
  - intros shard _. simpl. assert (Hout : forall key, (forall code, key <> link_key code) -> k !! key = ks s1.1 !! key).
    { intros key Hkey. apply Hf. intros c [code Hc]. rewrite Hc. by apply not_eq_sym. }
    split; [apply Hout; auto with wraplink|left; apply lock_holder_ext, Hout; auto with wraplink].
Qed.

Lemma on_links_safe token {A} (m : io effect A) s :
  on_links m -> safe (mine token) (others token) (own token) m (fun _ _ => True) s.
Proof.
  revert s; induction m as [a|X e k IH]; intros s; [done|]. intros [He Hk].
  change (Await e k) with (io_bind (call e : io effect (result X)) k). apply safe_bind; [apply others_refl|].
  eapply safe_mono; [|by apply on_links_call]. intros s' r _. by apply IH.
Qed.

(** The stores a request may create its link in synchronously: PostgreSQL's, or
    as in server.ts the cached one over it. *)
Definition backed (st : LinkStore) : Prop :=
  st = PostgresLinkStore.store
  \/ exists otherNumber cached, st = CachedStore.store otherDate otherNumber cached /\ source cached = PostgresLinkStore.store.

Lemma backed_create st input : backed st -> on_links (store_create st input).
Proof.
  assert (Hpg : on_links (PostgresLinkStore.create input)) by by apply on_links_then.
  intros [->|(otherNumber & cached & -> & Hsrc)]; [exact Hpg|]. cbn [CachedStore.store store_create].
  unfold CachedStore.create. rewrite Hsrc. apply on_links_then; [exact Hpg|].
  intros [link|]; [|done]. unfold CachedStore.cached. apply on_links_then; [|done]. unfold cacheSafely.
  apply on_links_then; [done|]. intros ready. destruct (negb ready); [done|]. apply on_links_catch; [|done].
  assert (Hfields : forall ttl, on_links (cacheFields link ttl)).
  { intros ttl. unfold cacheFields. rewrite linkKey_ok. apply on_links_given.
    do 2 (apply on_links_then; [done|]; intros ?). apply on_links_then; [|done]. apply on_links_redis. cbn.
    split; [by eexists|]. intros r1. split; [by eexists|]. intros r2. by destruct r1, r2. }
  unfold cache. destruct (expiresAt link) as [e|]; [|apply Hfields]. apply on_links_then; [done|]. intros t. cbv zeta.
  destruct (_ <=? 0); [|apply Hfields]. rewrite linkKey_ok. apply on_links_given, on_links_then; [|done].
  apply on_links_redis. cbn. split; [by eexists|]. by intros [].
Qed.

Lemma create_safe_here token store input s :
  backed (synchronous store) ->
  safe (mine token) (others token) (own token) (WriteBehind.create store input) (fun _ _ => True) s.
Proof.
  intros Hsync. apply (WriteBehind.create_safe _ _ _) with (I := fun _ => True); try done.
  - intros s1. apply moves_refl.
  - intros a b c. apply moves_trans.
  - intros s1 s2. apply moves_quiet.
  - intros s1 _. by apply on_links_safe, backed_create.
  - intros s1 s2. apply moves_quiet.
  - intros at_ s1 s2. apply moves_accepts.
Qed.

(** ** The deployment *)

Record thread : Type := { t_token : string; t_prog : io effect unit }.

Definition forget {A} (m : io effect A) : io effect unit := io_bind m (fun _ => Done tt).

(** Workers the constructor accepts, on Redis and PostgreSQL, with a usable
    lock time. *)
Record configured (worker : LinkSyncWorker) : Prop := {
  conf_queue : SyncWorker.queue worker = RedisSyncQueue.queue;
  conf_sink : sink worker = PostgresLinkStore.insertPendingBatch;
  conf_batch : 0 < batchSize (options worker);
  conf_lock : 0 < lockTtlMs worker /\ ttl_ok (lockTtlMs worker)
}.

Inductive program : io effect unit -> Prop :=
  | a_request store input :
      backed (synchronous store) ->
      program (forget (WriteBehind.create store input))
  | a_shard_sync worker shard :
      configured worker -> valid_shard shard ->
      program (forget (syncShard otherDate worker shard)).

(** Time passes (keys expire), or something else runs: redirects, cache and
    rate-limit updates, click batches, synchronous inserts, an operator
    releasing a lock. It touches no queue and inserts or updates rows only. *)
Inductive environment (s : state) : state -> Prop :=
  | env_time ms : 0 <= ms -> environment s (wait ms s.1, s.2)
  | env_other w cs :
      rows_kept s.1 w -> (forall shard x, RPUSH (queue_key shard) x ∉ cs) ->
      (forall shard, valid_shard shard -> ks w !! queue_key shard = ks s.1 !! queue_key shard
         /\ (ks w !! lock_key shard = ks s.1 !! lock_key shard \/ ks w !! lock_key shard = None)) ->
      environment s (w, s.2 ++ cs).

Record sys : Type := { shared : state; threads : list thread }.

Inductive sys_step : sys -> sys -> Prop :=
  | step_effect y i t X (e : effect X) k c s' r :
      threads y !! i = Some {| t_token := t; t_prog := Await e k |} ->
      c_uuid c = t -> perform_logged c e (shared y) = (s', r) ->
      sys_step y {| shared := s'; threads := <[i := {| t_token := t; t_prog := k r |}]> (threads y) |}
  | step_start y t m :
      t ∉ t_token <$> threads y -> program m ->
      sys_step y {| shared := shared y; threads := threads y ++ [{| t_token := t; t_prog := m |}] |}
  | step_environment y s' :
      environment (shared y) s' -> sys_step y {| shared := s'; threads := threads y |}.

Inductive reachable (s0 : state) : sys -> Prop :=
  | reach_start : reachable s0 {| shared := s0; threads := [] |}
  | reach_step y y' : reachable s0 y -> sys_step y y' -> reachable s0 y'.

Lemma lock_after_time ms k shard :
  lock_holder (elapse ms k) shard = lock_holder k shard \/ lock_holder (elapse ms k) shard = None.
Proof.
  unfold lock_holder, string_at. rewrite elapse_lookup.
  destruct (k !! lock_key shard) as [e|]; [|by left]. destruct (pttl e) as [t|]; [|by left].
  destruct (t <=? ms); [by right|]. left. done.
Qed.

Lemma environment_moves s s' : consistent s -> environment s s' -> everyone s s'.
Proof.
  intros Hs [ms Hms|w cs Hr Hcs Hk].
  - assert (Hq : forall shard, valid_shard shard ->
      elapse ms (ks s.1) !! queue_key shard = ks s.1 !! queue_key shard).
    { intros shard Hsh. rewrite elapse_lookup. pose proof (queue_lasting _ Hs shard Hsh) as Ht.
      destruct (ks s.1 !! queue_key shard) as [e|]; [|done]. simpl in Ht. by rewrite Ht. }
    assert (Hrows : rows_kept s.1 (wait ms s.1)) by (intros code r Hr; by exists r).
    split; [done|]. split; [by unfold log_grows|]. split.
    + apply consistent_still; [done|by unfold log_grows|done|exact Hq].
    + intros t shard _ Hsh Hh. simpl in Hh. simpl.
      destruct (lock_after_time ms (ks s.1) shard) as [Heq|Hnone]; [|by rewrite Hnone in Hh].
      rewrite Heq in Hh. split; [done|].
      by rewrite (queue_of_ext (ks s.1) (elapse ms (ks s.1)) shard (Hq shard Hsh)).
  - split; [done|]. split; [by eexists|]. split.
    + apply consistent_still; [done|by eexists| |].
      * intros shard x. simpl. rewrite elem_of_app. intros [|Hin]; [done|]. by destruct (Hcs shard x).
      * intros shard Hsh. by destruct (Hk shard Hsh).
    + intros t shard _ Hsh Hh. simpl in *. destruct (Hk shard Hsh) as [Hq [Hl|Hl]].
      * rewrite (lock_holder_ext (ks s.1) (ks w) shard Hl) in Hh. split; [done|].
        by rewrite (queue_of_ext (ks s.1) (ks w) shard Hq).
      * unfold lock_holder, string_at in Hh. by rewrite Hl in Hh.
Qed.

Definition thread_safe (s : state) (th : thread) : Prop :=
  safe (mine (t_token th)) (others (t_token th)) (own (t_token th)) (t_prog th) (fun _ _ => True) s.

Record sys_ok (y : sys) : Prop := {
  ok_consistent : consistent (shared y);
  ok_tokens : NoDup (t_token <$> threads y);
  ok_threads : Forall (thread_safe (shared y)) (threads y)
}.

Lemma thread_safe_others s s' th : others (t_token th) s s' -> thread_safe s th -> thread_safe s' th.
Proof. intros Ho. apply safe_rely; [intros a b c; apply moves_trans|done]. Qed.

Lemma program_safe t m s :
  consistent s -> program m -> thread_safe s {| t_token := t; t_prog := m |}.
Proof.
  intros Hs Hm. unfold thread_safe, forget in *. simpl.
  destruct Hm as [store input Hsync|worker shard [H1 H2 H3 H4] Hsh]; apply safe_bind;
    try apply moves_refl; (eapply safe_mono; [by intros; apply safe_done|]).
  - by apply create_safe_here.
  - by apply syncShard_safe.
Qed.

Lemma sys_step_ok y y' : sys_ok y -> sys_step y y' -> sys_ok y'.
Proof.
  intros [Hc Hn Ht] Hstep.
  destruct Hstep as [y i t X e k c s' r Hi Hu Hp|y t m Hfresh Hm|y s' He].
  - pose proof (Forall_lookup_1 _ _ _ _ Ht Hi) as Hsafe. unfold thread_safe in Hsafe. simpl in Hsafe.
    specialize (Hsafe c (shared y) Hu (moves_refl _ _)). rewrite Hp in Hsafe.
    destruct Hsafe as [Hown Hk]. split; simpl.
    + by destruct Hown as (_ & _ & Hcc & _); auto.
    + rewrite list_fmap_insert. simpl. rewrite list_insert_id; [done|].
      by rewrite list_lookup_fmap, Hi.
    + apply Forall_forall. intros th [j Hj]%list_elem_of_lookup.
      destruct (decide (i = j)) as [<-|Hne].
      * rewrite list_lookup_insert_eq in Hj by by eapply lookup_lt_Some. by injection Hj as <-.
      * rewrite list_lookup_insert_ne in Hj by done. apply (thread_safe_others (shared y)).
        -- eapply moves_weaken; [|exact Hown]. simpl. intros t' -> Heq. apply Hne.
           eapply (NoDup_lookup _ i j t Hn); rewrite list_lookup_fmap; [by rewrite Hi|].
           rewrite Hj. simpl. congruence.
        -- by eapply Forall_lookup_1.
  - split; simpl; [done| |].
    + rewrite fmap_app. apply list.NoDup_app. split; [done|]. split; [|apply NoDup_singleton].
      intros x Hx Hx'. simpl in Hx'. apply list_elem_of_singleton in Hx' as ->. done.
    + apply Forall_app. split; [done|]. constructor; [by apply program_safe|done].
  - pose proof (environment_moves _ _ Hc He) as Hmove. split; simpl; [|done|].
    + by destruct Hmove as (_ & _ & Hcc & _); auto.
    + eapply Forall_impl; [exact Ht|]. intros th. apply thread_safe_others.
      by eapply moves_weaken; [|exact Hmove].
Qed.

Lemma reachable_sys_ok s0 y : consistent s0 -> reachable s0 y -> sys_ok y.
Proof.
  intros Hs. induction 1 as [|y y' _ IH Hstep]; [|by eapply sys_step_ok].
  split; simpl; [done|constructor|constructor].
Qed.
End Durability.

(** ** Properties *)

(** C1. No acknowledged link is lost. In every reachable state of a deployment
    (any number of requests and of sync workers, also several on one shard;
    any interleaving of their effects; crashes; calls lost before or after they
    took effect; locks that expire while a batch is being written) a link that
    [create] acknowledged through the queue is still in its shard's queue, or is
    stored in PostgreSQL, or its code belongs to another link there and its
    record has been dead-lettered, or another record queued for the same code
    took its place. *)
Theorem no_acknowledged_link_lost `{Redis} `{Postgres} otherDate s0 y link :
  consistent otherDate s0 -> reachable otherDate s0 y -> queued (shared y) link ->
  let pending := {| p_code := code link; p_targetUrl := targetUrl link;
                    p_createdAt := createdAt link; p_expiresAt := expiresAt link |} in
  pending_ok pending ->
  exists record, serializePendingLink pending = Return record
  /\ (record ∈ queue_of (ks (shared y).1) (shardOf (code link))
      \/ durable (shared y).1 pending
      \/ (taken (shared y).1 pending
          /\ dead_lettered (shared y) (shardOf (code link)) "conflict" record)
      \/ superseded otherDate (shared y) (shardOf (code link)) pending).
Proof.
  intros Hs0 Hreach (record & Hpush & Hser) pending Hok. fold pending in Hser. exists record.
  split; [done|]. destruct (reachable_sys_ok otherDate s0 y Hs0 Hreach) as [Hcons _ _].
  destruct (all_accounted _ _ Hcons _ _ (shardOf_range _) Hpush) as [|Hset]; [by left|right].
  unfold settled in Hset. rewrite (pending_roundtrip otherDate _ _ Hok Hser) in Hset.
  destruct Hset as [|[[Ht (r & Hr & Hd)]|]]; [by left| |by right; right].
  right. left. rewrite Hser in Hr. injection Hr as <-. done.
Qed.

(** ** Witness: one request, run to its acknowledgement *)
Section Run.
Context `{Redis} `{Postgres} (otherDate : string -> option Z) (t : string).

Definition own_choice : choice :=
  {| c_fate := Delivered; c_ready := true; c_uuid := t; c_wait := 0 |}.

Definition thread_effect (y : state * io effect unit) : state * io effect unit :=
  match y.2 with
  | Done _ => y
  | Await e k => let '(s', r) := perform_logged own_choice e y.1 in (s', k r)
  end.

Definition alone (y : state * io effect unit) : sys :=
  {| shared := y.1; threads := [{| t_token := t; t_prog := y.2 |}] |}.

Lemma thread_effect_reachable s0 y :
  reachable otherDate s0 (alone y) -> reachable otherDate s0 (alone (thread_effect y)).
Proof.
  intros Hr. destruct y as [s [u|X e k]]; [done|]. unfold thread_effect. simpl.
  destruct (perform_logged own_choice e s) as [s' r] eqn:Hp.
  eapply reach_step; [exact Hr|].
  exact (step_effect otherDate (alone (s, Await e k)) 0%nat t X e k own_choice s' r eq_refl eq_refl Hp).
Qed.

Lemma thread_run_reachable s0 m n :
  program otherDate m -> reachable otherDate s0 (alone (Nat.iter n thread_effect (s0, m))).
Proof.
  intros Hm. induction n as [|n IH]; simpl; [|by apply thread_effect_reachable].
  eapply reach_step; [apply reach_start|].
  apply (step_start otherDate {| shared := s0; threads := [] |} t m); [apply not_elem_of_nil|done].
Qed.
End Run.

Lemma empty_consistent `{Redis} `{Postgres} otherDate w :
  ks w = ∅ -> consistent otherDate (w, []).
Proof.
  intros Hk. assert (Hl : forall key, list_at (ks w) key = Return [])
    by (intros key; unfold list_at; by rewrite Hk, lookup_empty).
  split; simpl.
  - intros shard _. exists []. apply Hl.
  - intros shard _. by rewrite Hk, lookup_empty.
  - intros shard x _. unfold queue_of. by rewrite Hl, elem_of_nil.
  - intros shard x _. by rewrite elem_of_nil.
Qed.

Definition deployed_store : WriteBehindLinkStore :=
  {| synchronous := CachedStore.store no_other_date no_other_date demo_cached; maxPendingPerShard := 98 |}.

Definition deployed : sys :=
  alone "t1" (Nat.iter 4 (@thread_effect reference_redis reference_postgres "t1")
    ((demo_world, []), forget (WriteBehind.create deployed_store wb_input))).

Definition deployed_link : Link := accepted_link wb_input 1709164800123.

Lemma deployed_queued : queued (shared deployed) deployed_link.
Proof.
  exists (demo_call.2 !!! 1%nat). split.
  - assert (Hlog : (shared deployed).2 !! 4%nat
      = Some (RPUSH (queue_key (shardOf "docs")) (demo_call.2 !!! 1%nat))) by (vm_compute; reflexivity).
    exact (list_elem_of_lookup_2 _ _ _ Hlog).
  - vm_compute. reflexivity.
Qed.

Lemma no_acknowledged_link_lost_witness :
  exists record, (record ∈ queue_of (ks (shared deployed).1) (shardOf "docs"))
    \/ durable (shared deployed).1 (pending_of wb_input 1709164800123)
    \/ (taken (shared deployed).1 (pending_of wb_input 1709164800123)
        /\ dead_lettered (shared deployed) (shardOf "docs") "conflict" record)
    \/ superseded no_other_date (shared deployed) (shardOf "docs")
         (pending_of wb_input 1709164800123).
Proof.
  assert (Hok : pending_ok (pending_of wb_input 1709164800123)).
  { split; vm_compute; [reflexivity|split; [reflexivity|discriminate]]. }
  assert (Hreach : @reachable reference_redis reference_postgres no_other_date (demo_world, []) deployed).
  { apply thread_run_reachable. apply a_request. right. exists no_other_date, demo_cached. by split. }
  destruct (@no_acknowledged_link_lost reference_redis reference_postgres no_other_date
    (demo_world, []) deployed deployed_link
    (@empty_consistent reference_redis reference_postgres no_other_date demo_world eq_refl)
    Hreach deployed_queued Hok) as (record & _ & Hrecord).
  exists record. exact Hrecord.
Defined.
