(* ===== verification/Draining.v ===== *)
(** * The queues drain

    Durability.v shows that an acknowledged link stays accounted for; here it
    gets out of the queue. While nobody else touches a shard's queue and lock and
    its calls are answered, one [syncShard] empties the queue and gives the lock
    back. SyncJob.v takes this to all the shards of a worker. *)
From S2P Require Import Prelude JsNum JsString JsDate Json Keys Link Async Redis Sql World Interleave.
From S2P Require Import PostgresStore WriteBehind SyncQueue SyncWorker Durability.
Open Scope Z_scope.

(** ** Scripts that cannot fail *)

Section Sound.
Context `{Redis}.

(** From keyspaces with [T], the script returns a value with [Q] and keeps [T]. *)
Definition sound {A} (T : keyspace -> Prop) (m : script A) (Q : A -> Prop) : Prop :=
  forall k, T k -> let '(k', _, r) := logged m k in T k' /\ exists a, r = Return a /\ Q a.

Context (T : keyspace -> Prop).

Lemma sound_bind {A B} (m : script A) (f : A -> script B) P Q :
  sound T m P -> (forall a, P a -> sound T (f a) Q) -> sound T (async_bind m f) Q.
Proof.
  intros Hm Hf k Hk. rewrite logged_bind. specialize (Hm k Hk). destruct (logged m k) as [[k1 cs1] r1].
  destruct Hm as (Hk1 & a & -> & Ha). specialize (Hf a Ha k1 Hk1). by destruct (logged (f a) k1) as [[k2 cs2] r2].
Qed.

Lemma sound_resolve {A} (a : A) (Q : A -> Prop) : Q a -> sound T (resolve a) Q.
Proof. intros Ha k Hk. rewrite logged_resolve. by eauto. Qed.

Lemma sound_entry {A} table i s (f : string -> script A) Q :
  table !! pred i = Some s -> sound T (f s) Q -> sound T (async_bind (entry table i) f) Q.
Proof. intros Hs Hf k Hk. rewrite (logged_entry _ _ s) by done. by apply Hf. Qed.

Lemma sound_call {A} c (f : reply -> script A) P Q :
  (forall k, T k -> T (execute k c).1 /\ exists a, (execute k c).2 = Return a /\ P a) ->
  (forall a, P a -> sound T (f a) Q) -> sound T (async_bind (call (redis_call c)) f) Q.
Proof.
  intros Hc Hf k Hk. rewrite logged_call. specialize (Hc k Hk). destruct (execute k c) as [k1 r1].
  destruct Hc as (Hk1 & a & Hr & Ha). simpl in Hr, Hk1. subst r1. specialize (Hf a Ha k1 Hk1).
  by destruct (logged (f a) k1) as [[k2 cs2] r2].
Qed.

Lemma sound_for n index body :
  (forall i, (index <= i < index + n)%nat -> sound T (body i) (fun _ => True)) ->
  sound T (lua_for n index body) (fun _ => True).
Proof.
  revert index; induction n as [|n IH]; intros index Hb; cbn [lua_for]; [by apply sound_resolve|].
  eapply sound_bind; [apply Hb; lia|]. intros _ _. apply IH. intros i Hi. apply Hb. lia.
Qed.
End Sound.

Section Draining.
Context `{Redis} `{Postgres} (otherDate : string -> option Z) (token : string) (shard : Z).
Context (Hshard : valid_shard shard).

(** ** The state of the shard *)

(** The keys the completion touches hold what the program puts there. *)
Record typed (k : keyspace) : Prop := {
  typed_links code : returns (hash_at k (link_key code));
  typed_dead : returns (list_at k (dead_key shard))
}.

Record shard_keys (q : list string) (owner : option string) (k : keyspace) : Prop := {
  sk_queue : list_at k (queue_key shard) = Return q;
  sk_lock : value <$> k !! lock_key shard = RString <$> owner;
  sk_typed : typed k
}.

(** A command on an entry or on the dead letters keeps the rest. *)
Lemma keys_step q owner k c :
  (exists code, command_key c = link_key code) \/ command_key c = dead_key shard ->
  ((exists code, command_key c = link_key code) -> returns (hash_at (execute k c).1 (command_key c))) ->
  (command_key c = dead_key shard -> returns (list_at (execute k c).1 (command_key c))) ->
  shard_keys q owner k -> shard_keys q owner (execute k c).1.
Proof.
  intros Hkey Hhash Hlist [Hq Hl [Ht Hd]].
  assert (Hne : command_key c <> queue_key shard /\ command_key c <> lock_key shard).
  { destruct Hkey as [[code ->]| ->]; auto with wraplink. }
  destruct Hne as [Hne1 Hne2]. split; [|by rewrite execute_frame by auto|split].
  - rewrite <- Hq. apply list_at_ext, execute_frame; auto.
  - intros code. destruct (decide (link_key code = command_key c)) as [He|Hne].
    + rewrite He. apply Hhash. by exists code.
    + rewrite (hash_at_ext _ k); [apply Ht|by apply execute_frame].
  - destruct (decide (dead_key shard = command_key c)) as [He|Hne].
    + rewrite He. by apply Hlist.
    + rewrite (list_at_ext _ k); [apply Hd|by apply execute_frame].
Qed.

Lemma link_step q owner k c code :
  command_key c = link_key code -> returns (hash_at (execute k c).1 (link_key code)) ->
  shard_keys q owner k -> shard_keys q owner (execute k c).1.
Proof.
  intros Hc Hh. apply keys_step.
  - left. by exists code.
  - by rewrite Hc.
  - rewrite Hc. intros He. by destruct (link_dead_ne code shard).
Qed.

Lemma dead_step q owner k c :
  command_key c = dead_key shard -> returns (list_at (execute k c).1 (dead_key shard)) ->
  shard_keys q owner k -> shard_keys q owner (execute k c).1.
Proof.
  intros Hc Hh. apply keys_step.
  - by right.
  - rewrite Hc. intros [code He]. by destruct (link_dead_ne code shard).
  - by rewrite Hc.
Qed.

Lemma hash_at_put_hash k key h : returns (hash_at (put_hash k key h) key).
Proof.
  unfold put_hash. destruct (decide (h = ∅)).
  - exists ∅. unfold hash_at. by rewrite lookup_delete_eq.
  - exists h. apply hash_at_put.
Qed.

Lemma hash_at_set_ttl k key ms : returns (hash_at k key) -> returns (hash_at (set_ttl k key ms) key).
Proof.
  intros [h Hh]. unfold set_ttl. destruct (k !! key) as [e|] eqn:He; [|by exists h].
  destruct (ms <=? 0).
  - exists ∅. unfold hash_at. by rewrite lookup_delete_eq.
  - exists h. rewrite <- Hh. unfold hash_at. by rewrite lookup_insert_eq, He.
Qed.

Lemma shard_link q owner k code : shard_keys q owner k -> returns (hash_at k (link_key code)).
Proof. intros [_ _ [Ht _]]. apply Ht. Qed.

Section Script.
Context (q : list string) (owner : option string).

Abbreviation T := (shard_keys q owner).

Lemma HGET_sound code f :
  forall k, T k -> T (execute k (HGET (link_key code) f)).1
    /\ exists a, (execute k (HGET (link_key code) f)).2 = Return a /\ True.
Proof.
  intros k Hk. destruct (shard_link _ _ _ code Hk) as [h Hh]. rewrite execute_HGET, Hh. simpl. by eauto.
Qed.

Lemma HDEL_sound code f :
  forall k, T k -> T (execute k (HDEL (link_key code) f)).1
    /\ exists a, (execute k (HDEL (link_key code) f)).2 = Return a /\ True.
Proof.
  intros k Hk. destruct (shard_link _ _ _ code Hk) as [h Hh]. split.
  - apply (link_step _ _ _ _ code); [done| |done]. rewrite execute_HDEL, Hh. apply hash_at_put_hash.
  - rewrite execute_HDEL, Hh. simpl. by eauto.
Qed.

Lemma DEL_sound code :
  forall k, T k -> T (execute k (DEL (link_key code))).1
    /\ exists a, (execute k (DEL (link_key code))).2 = Return a /\ True.
Proof.
  intros k Hk. split; [|rewrite execute_DEL; by eauto].
  apply (link_step _ _ _ _ code); [done| |done]. rewrite execute_DEL. exists ∅. unfold hash_at. simpl.
  by rewrite lookup_delete_eq.
Qed.

Lemma PTTL_sound code :
  forall k, T k -> T (execute k (PTTL (link_key code))).1
    /\ exists a, (execute k (PTTL (link_key code))).2 = Return a /\ exists n, a = Int n.
Proof. intros k Hk. rewrite execute_PTTL. split; [done|]. eexists. split; [done|by eexists]. Qed.

Lemma PEXPIRE_sound code ms :
  ttl_ok ms -> forall k, T k -> T (execute k (PEXPIRE (link_key code) ms)).1
    /\ exists a, (execute k (PEXPIRE (link_key code) ms)).2 = Return a /\ True.
Proof.
  intros Hms k Hk. split; [|rewrite execute_PEXPIRE by done; by eauto].
  apply (link_step _ _ _ _ code); [done| |done]. rewrite execute_PEXPIRE by done.
  apply hash_at_set_ttl, (shard_link _ _ _ code Hk).
Qed.

Lemma RPUSH_sound letter :
  forall k, T k -> T (execute k (RPUSH (dead_key shard) letter)).1
    /\ exists a, (execute k (RPUSH (dead_key shard) letter)).2 = Return a /\ True.
Proof.
  intros k Hk. pose proof (typed_dead _ (sk_typed _ _ _ Hk)) as [l Hl]. split.
  - apply dead_step; [done| |done]. rewrite execute_RPUSH, Hl. simpl. eexists. apply list_at_put.
  - rewrite execute_RPUSH, Hl. simpl. by eauto.
Qed.

Lemma LTRIM_sound a b :
  forall k, T k -> T (execute k (LTRIM (dead_key shard) a b)).1
    /\ exists r, (execute k (LTRIM (dead_key shard) a b)).2 = Return r /\ True.
Proof.
  intros k Hk. pose proof (typed_dead _ (sk_typed _ _ _ Hk)) as [l Hl]. split.
  - apply dead_step; [done| |done]. rewrite execute_LTRIM, Hl. simpl. eexists. apply list_at_put_list.
  - rewrite execute_LTRIM, Hl. simpl. by eauto.
Qed.

Lemma finalize_sound KEYS ttlMs index code :
  KEYS !! pred (3 + index) = Some (link_key code) -> ttl_ok ttlMs ->
  sound T (finalizeEntry KEYS ttlMs index) (fun _ => True).
Proof.
  intros Hk Hms. apply (sound_entry _ _ _ (link_key code)); [done|].
  eapply sound_call; [apply HGET_sound|]. intros r _. case_bool_decide; [|by apply sound_resolve].
  eapply sound_call; [apply HDEL_sound|]. intros _ _. eapply sound_call; [apply PTTL_sound|]. intros _ [n ->].
  unfold as_number. apply (sound_bind _ _ _ (fun _ => True)); [by apply sound_resolve|]. intros current _.
  destruct (_ || _); [|by apply sound_resolve].
  eapply sound_call; [by apply PEXPIRE_sound|]. intros _ _. by apply sound_resolve.
Qed.

Lemma drop_sound KEYS persisted index code :
  KEYS !! pred (3 + persisted + index) = Some (link_key code) ->
  sound T (dropEntry KEYS persisted index) (fun _ => True).
Proof.
  intros Hk. apply (sound_entry _ _ _ (link_key code)); [done|].
  eapply sound_call; [apply HGET_sound|]. intros r _. case_bool_decide; [|by apply sound_resolve].
  eapply sound_call; [apply DEL_sound|]. intros _ _. by apply sound_resolve.
Qed.

Lemma letter_sound KEYS ARGV index letter :
  KEYS !! 2%nat = Some (dead_key shard) -> ARGV !! pred (6 + index) = Some letter ->
  sound T (pushDeadLetter KEYS ARGV index) (fun _ => True).
Proof.
  intros Hk Ha. apply (sound_entry _ _ _ (dead_key shard)); [done|]. apply (sound_entry _ _ _ letter); [done|].
  eapply sound_call; [apply RPUSH_sound|]. intros _ _. by apply sound_resolve.
Qed.
End Script.

(** ** The completion of a batch *)

Definition completion_keys (completion : SyncCompletion) : list string :=
  [queue_key shard; lock_key shard; dead_key shard]
  ++ (link_key <$> sc_persisted completion) ++ (link_key <$> sc_conflicts completion).

Definition completion_arguments (completion : SyncCompletion) : list string :=
  [token; js_String (consumed completion);
   js_String (Z.of_nat (List.length (sc_persisted completion)));
   js_String (Z.of_nat (List.length (sc_conflicts completion)));
   js_String (Z.of_nat (List.length (deadLetters completion)));
   js_String (cacheTtlSeconds completion)] ++ deadLetters completion.

Lemma persisted_key completion i :
  (1 <= i <= List.length (sc_persisted completion))%nat ->
  exists code, completion_keys completion !! pred (3 + i) = Some (link_key code).
Proof.
  intros Hi. destruct (lookup_lt_is_Some_2 (sc_persisted completion) (i - 1)) as [code Hc]; [lia|]. exists code.
  unfold completion_keys. rewrite lookup_app_r by (simpl; lia). replace (pred (3 + i) - _)%nat with (i - 1)%nat by (simpl; lia).
  rewrite lookup_app_l by (rewrite length_fmap; lia). by rewrite list_lookup_fmap, Hc.
Qed.

Lemma conflict_key completion i :
  (1 <= i <= List.length (sc_conflicts completion))%nat ->
  exists code, completion_keys completion !! pred (3 + List.length (sc_persisted completion) + i) = Some (link_key code).
Proof.
  intros Hi. destruct (lookup_lt_is_Some_2 (sc_conflicts completion) (i - 1)) as [code Hc]; [lia|]. exists code.
  unfold completion_keys. rewrite lookup_app_r by (simpl; lia).
  rewrite lookup_app_r by (rewrite length_fmap; simpl; lia). rewrite length_fmap.
  replace (pred (3 + List.length (sc_persisted completion) + i) - _ - _)%nat with (i - 1)%nat by (simpl; lia).
  by rewrite list_lookup_fmap, Hc.
Qed.

Lemma settle_sound q owner completion ttlMs :
  ttl_ok ttlMs ->
  sound (shard_keys q owner)
    (settleEntries (completion_keys completion) (completion_arguments completion)
      (Z.of_nat (List.length (sc_persisted completion))) (Z.of_nat (List.length (sc_conflicts completion)))
      (Z.of_nat (List.length (deadLetters completion))) ttlMs) (fun _ => True).
Proof.
  intros Hms. unfold settleEntries. rewrite !Nat2Z.id. eapply sound_bind; [|intros _ _; eapply sound_bind;
    [|intros _ _; eapply sound_bind; [|intros _ _]]].
  - apply sound_for. intros i Hi. destruct (persisted_key completion i) as [code Hc]; [lia|]. by eapply finalize_sound.
  - apply sound_for. intros i Hi. destruct (conflict_key completion i) as [code Hc]; [lia|]. by eapply drop_sound.
  - apply sound_for. intros i Hi. destruct (lookup_lt_is_Some_2 (deadLetters completion) (i - 1)) as [letter Hl]; [lia|].
    apply (letter_sound _ _ _ _ _ letter); [done|]. unfold completion_arguments.
    rewrite lookup_app_r by (simpl; lia). by replace (pred (6 + i) - _)%nat with (i - 1)%nat by (simpl; lia).
  - case_match; [|by apply sound_resolve]. apply (sound_entry _ _ _ (dead_key shard)); [done|].
    eapply sound_call; [apply LTRIM_sound|]. intros _ _. by apply sound_resolve.
Qed.

Lemma shard_owner q owner k : shard_keys q owner k -> string_at k (lock_key shard) = Return owner.
Proof. intros [_ Hl _]. unfold string_at. rewrite Hl. by destruct owner. Qed.

(** The holder's completion succeeds: its records leave the queue, and the lock
    is free. *)
Lemma complete_script q completion k :
  ttl_ok (cacheTtlSeconds completion * 1000) -> 0 <= consumed completion -> shard_keys q (Some token) k ->
  let '(k', _, r) := logged (COMPLETE_SYNC (completion_keys completion) (completion_arguments completion)) k in
  r = Return 1 /\ shard_keys (drop (Z.to_nat (consumed completion)) q) None k'.
Proof.
  intros Hms Hn Hk. unfold COMPLETE_SYNC. rewrite (logged_entry _ _ (lock_key shard)) by done.
  rewrite logged_call, execute_GET, (shard_owner _ _ _ Hk). unfold answer. cbv beta iota zeta.
  rewrite (logged_entry _ _ token) by done. rewrite bool_decide_true by done. cbn [negb].
  rewrite (logged_entry _ _ (js_String (Z.of_nat (List.length (sc_persisted completion))))) by done.
  rewrite (logged_tonumber _ _ _ _ (read_integer_String _)).
  rewrite (logged_entry _ _ (js_String (Z.of_nat (List.length (sc_conflicts completion))))) by done.
  rewrite (logged_tonumber _ _ _ _ (read_integer_String _)).
  rewrite (logged_entry _ _ (js_String (Z.of_nat (List.length (deadLetters completion))))) by done.
  rewrite (logged_tonumber _ _ _ _ (read_integer_String _)).
  rewrite (logged_entry _ _ (js_String (cacheTtlSeconds completion))) by done.
  rewrite (logged_tonumber _ _ _ _ (read_integer_String _)).
  rewrite logged_bind. pose proof (settle_sound q (Some token) completion _ Hms k Hk) as Hs.
  destruct (logged (settleEntries _ _ _ _ _ _) k) as [[k1 cs1] r1]. destruct Hs as (Hk1 & a & -> & _).
  rewrite (trim_logged shard (consumed completion) _ _ k1 q) by first [done|apply Hk1].
  split; [done|]. destruct Hk1 as [Hq Hl [Ht Hd]]. split; [|by rewrite lookup_delete_eq|split].
  - rewrite (list_at_ext _ (put_list k1 (queue_key shard) (drop (Z.to_nat (consumed completion)) q)))
      by (rewrite lookup_delete_ne by auto with wraplink; done). apply list_at_put_list.
  - intros code. rewrite (hash_at_ext _ k1); [apply Ht|].
    rewrite lookup_delete_ne by auto with wraplink. by apply put_list_lookup_ne; auto with wraplink.
  - rewrite (list_at_ext _ k1); [exact Hd|].
    rewrite lookup_delete_ne by auto with wraplink. by apply put_list_lookup_ne; auto with wraplink.
Qed.

(** ** Undisturbed programs *)

(** The calls are answered; the worker drew [token]. *)
Definition responsive (c : choice) : Prop := c_fate c = Delivered /\ c_uuid c = token.

Record shard_state (q : list string) (owner : option string) (s : state) : Prop := {
  ss_keys : shard_keys q owner (ks s.1);
  ss_clock : valid_time (clock s.1) = true
}.

(** What the others do meanwhile, and time: not the shard's queue, nor its lock. *)
Definition undisturbed (s s' : state) : Prop :=
  forall q owner, shard_state q owner s -> shard_state q owner s'.

Lemma undisturbed_refl s : undisturbed s s.
Proof. by intros q owner. Qed.

Lemma undisturbed_trans a b c : undisturbed a b -> undisturbed b c -> undisturbed a c.
Proof. intros H1 H2 q owner Hs. by apply H2, H1. Qed.

(** The program returns, with [P]. *)
Definition calmly {A} (m : async effect A) (P : A -> state -> Prop) (s : state) : Prop :=
  safe responsive undisturbed (fun _ _ => True) m (fun s' r => exists a, r = Return a /\ P a s') s.

Lemma calmly_bind {A B} (m : async effect A) (f : A -> async effect B) P Q s :
  calmly m P s -> (forall a s', P a s' -> calmly (f a) Q s') -> calmly (async_bind m f) Q s.
Proof.
  intros Hm Hf. apply safe_async_bind; [apply undisturbed_refl|]. eapply safe_mono; [|exact Hm].
  intros s' r (a & -> & Ha). by apply Hf.
Qed.

Lemma calmly_io {A B} (m : async effect A) (f : result A -> io effect B) P (Q : state -> B -> Prop) s :
  calmly m P s ->
  (forall a s', P a s' -> safe responsive undisturbed (fun _ _ => True) (f (Return a)) Q s') ->
  safe responsive undisturbed (fun _ _ => True) (io_bind m f) Q s.
Proof.
  intros Hm Hf. apply safe_bind; [apply undisturbed_refl|]. eapply safe_mono; [|exact Hm].
  intros s' r (a & -> & Ha). by apply Hf.
Qed.

Lemma calmly_resolve {A} (a : A) (P : A -> state -> Prop) s :
  (forall s', undisturbed s s' -> P a s') -> calmly (resolve a) P s.
Proof. intros HP s' Hs. exists a. split; [done|by apply HP]. Qed.

(** The usual case: a value, in an unchanged shard. *)
Lemma calmly_lift {A} (r : result A) a q owner s :
  r = Return a -> shard_state q owner s ->
  calmly (lift r) (fun x s' => x = a /\ shard_state q owner s') s.
Proof. intros -> Hs. apply calmly_resolve. intros s' Hu. split; [done|by apply Hu]. Qed.

Lemma calmly_redis {A} (sc : script A) P s :
  (forall s1, undisturbed s s1 ->
     let '(k, cs, r) := logged sc (ks s1.1) in
     exists a, r = Return a /\ forall s2, undisturbed (after s1 k cs) s2 -> P a s2) ->
  calmly (redis_eval sc) P s.
Proof.
  intros Hsc. apply safe_call. intros c s1 [Hd _] Hs1. specialize (Hsc s1 Hs1). unfold perform_logged, perform, on_redis,
    deliver, commands_of. unfold logged in Hsc. rewrite Hd. destruct (eval sc (ks s1.1)) as [k r].
  destruct Hsc as (a & -> & Ha). split; [done|]. intros s3 H3. exists a. split; [done|by apply Ha].
Qed.

Lemma state_after q owner q' owner' s k cs :
  shard_state q owner s -> shard_keys q' owner' k -> shard_state q' owner' (after s k cs).
Proof. intros [_ Hc] Hk. split; [exact Hk|exact Hc]. Qed.

(** Effects that touch no server. *)
Lemma calmly_local {X} (e : effect X) (P : X -> state -> Prop) q owner s :
  is_local e = true -> shard_state q owner s ->
  (forall c s1 s2, responsive c -> shard_state q owner s1 -> shard_state q owner s2 ->
     exists a, (perform c X e s1.1).2 = Return a /\ P a s2) ->
  calmly (call e) P s.
Proof.
  intros He Hs HP. apply safe_call. intros c s1 Hc Hs1. unfold perform_logged.
  destruct (perform_local c e s1.1 He) as [Hk _]. pose proof (perform_clock c e s1.1) as Hclock.
  specialize (HP c s1). destruct (perform c X e s1.1) as [w r]. simpl in Hk, Hclock. split; [done|]. intros s3 Hs3.
  assert (H1 : shard_state q owner s1) by by apply Hs1.
  assert (H3 : shard_state q owner s3).
  { apply Hs3. destruct H1 as [Hkeys Hcl]. split; simpl; [by rewrite Hk|by rewrite Hclock]. }
  destruct (HP s3 Hc H1 H3) as (a & Ha & HPa). exists a. by split.
Qed.

Lemma calmly_counter name n {A} (f : async effect A) P q owner s :
  shard_state q owner s -> (forall s', shard_state q owner s' -> calmly f P s') ->
  calmly (await_ increment name n; f) P s.
Proof.
  intros Hs Hf. eapply calmly_bind; [apply (calmly_local _ (fun _ s' => shard_state q owner s') q owner); [done|done|]|].
  - intros c s1 s2 _ _ H2. by exists tt.
  - intros [] s' Hs'. by apply Hf.
Qed.

(** ** The queue operations *)

Lemma length_calm q owner s :
  shard_state q owner s ->
  calmly (RedisSyncQueue.length shard) (fun n s' => n = Z.of_nat (List.length q) /\ shard_state q owner s') s.
Proof.
  intros Hs. unfold RedisSyncQueue.length. eapply calmly_bind; [by eapply calmly_lift; [apply syncQueueKey_eq|]|].
  intros key s1 [-> Hs1]. apply calmly_redis. intros s2 Hu. apply Hu in Hs1. fold (queue_key shard).
  rewrite logged_call, execute_LLEN, (sk_queue _ _ _ (ss_keys _ _ _ Hs1)). unfold answer, as_number.
  rewrite logged_resolve. eexists. split; [done|]. intros s3 Hu3. split; [done|]. apply Hu3.
  eapply state_after; [done|apply Hs1].
Qed.

Lemma acquire_calm q ttlMs s :
  0 < ttlMs -> ttl_ok ttlMs -> shard_state q None s ->
  calmly (RedisSyncQueue.acquire shard token ttlMs) (fun b s' => b = true /\ shard_state q (Some token) s') s.
Proof.
  intros Hpos Hok Hs. unfold RedisSyncQueue.acquire.
  eapply calmly_bind; [by eapply calmly_lift; [apply syncLockKey_eq|]|]. intros key s1 [-> Hs1].
  eapply calmly_bind; [apply (calmly_redis _ (fun r s' => r = OK /\ shard_state q (Some token) s'))|].
  - intros s2 Hu. apply Hu in Hs1. fold (lock_key shard). rewrite logged_single, execute_SET_NX_PX by done.
    destruct Hs1 as [[Hq Hl [Ht Hd]] Hc]. destruct (ks s2.1 !! lock_key shard) as [e|] eqn:He; [done|].
    eexists. split; [done|]. intros s3 Hu3. split; [done|]. apply Hu3. split; [|done]. split.
    + rewrite <- Hq. apply list_at_ext, lookup_insert_ne. auto with wraplink.
    + simpl. by rewrite lookup_insert_eq.
    + split; [intros code; rewrite (hash_at_ext _ (ks s2.1)); [apply Ht|apply lookup_insert_ne; auto with wraplink]|].
      rewrite (list_at_ext _ (ks s2.1)); [exact Hd|apply lookup_insert_ne; auto with wraplink].
  - intros r s2 [-> Hs2]. apply calmly_resolve. intros s3 Hu. split; [done|by apply Hu].
Qed.

Lemma peek_calm q owner count s :
  0 < count -> shard_state q owner s ->
  calmly (RedisSyncQueue.peek shard count) (fun raw s' => raw = take (Z.to_nat count) q /\ shard_state q owner s') s.
Proof.
  intros Hcount Hs. unfold RedisSyncQueue.peek.
  eapply calmly_bind; [by eapply calmly_lift; [apply syncQueueKey_eq|]|]. intros key s1 [-> Hs1].
  apply calmly_redis. intros s2 Hu. apply Hu in Hs1. fold (queue_key shard).
  rewrite logged_call, execute_LRANGE, (sk_queue _ _ _ (ss_keys _ _ _ Hs1)). unfold answer, RedisSyncQueue.as_elements.
  rewrite logged_resolve, list_range_prefix by done. eexists. split; [done|]. intros s3 Hu3. split; [done|]. apply Hu3.
  eapply state_after; [done|apply Hs1].
Qed.

Lemma release_calm q s :
  shard_state q (Some token) s ->
  calmly (RedisSyncQueue.release shard token) (fun _ s' => shard_state q None s') s.
Proof.
  intros Hs. unfold RedisSyncQueue.release.
  eapply calmly_bind; [by eapply calmly_lift; [apply syncLockKey_eq|]|]. intros key s1 [-> Hs1].
  eapply calmly_bind; [apply (calmly_redis _ (fun _ s' => shard_state q None s'))|].
  - intros s2 Hu. apply Hu in Hs1. fold (lock_key shard). unfold RELEASE_LOCK.
    rewrite (logged_entry _ _ (lock_key shard)) by done.
    rewrite logged_call, execute_GET, (shard_owner _ _ _ (ss_keys _ _ _ Hs1)). unfold answer. cbv beta iota zeta.
    rewrite (logged_entry _ _ token) by done. rewrite bool_decide_true by done. rewrite logged_call, execute_DEL.
    unfold as_number, flag. rewrite logged_resolve. eexists. split; [done|]. intros s3 Hu3. apply Hu3.
    eapply state_after; [done|]. destruct Hs1 as [[Hq Hl [Ht Hd]] Hc].
    split; [|by rewrite lookup_delete_eq|split].
    + rewrite <- Hq. apply list_at_ext, lookup_delete_ne. auto with wraplink.
    + intros code. rewrite (hash_at_ext _ (ks s2.1)); [apply Ht|apply lookup_delete_ne; auto with wraplink].
    + rewrite (list_at_ext _ (ks s2.1)); [exact Hd|apply lookup_delete_ne; auto with wraplink].
  - intros ? s2 Hs2. apply calmly_resolve. intros s3 Hu. by apply Hu.
Qed.

Lemma complete_calm q completion s :
  ttl_ok (cacheTtlSeconds completion * 1000) -> 0 <= consumed completion -> shard_state q (Some token) s ->
  calmly (RedisSyncQueue.complete shard token completion)
    (fun b s' => b = true /\ shard_state (drop (Z.to_nat (consumed completion)) q) None s') s.
Proof.
  intros Hms Hn Hs. unfold RedisSyncQueue.complete.
  eapply calmly_bind; [by eapply calmly_lift; [apply completeCall_spec|]|]. intros p s1 [-> Hs1].
  eapply calmly_bind; [apply (calmly_redis _ (fun r s' => r = 1
    /\ shard_state (drop (Z.to_nat (consumed completion)) q) None s'))|].
  - intros s2 Hu. apply Hu in Hs1. pose proof (complete_script q completion _ Hms Hn (ss_keys _ _ _ Hs1)) as Hc.
    unfold completion_keys, completion_arguments in Hc. destruct (logged _ (ks s2.1)) as [[k cs] r].
    destruct Hc as [-> Hk]. eexists. split; [done|]. intros s3 Hu3. split; [done|]. apply Hu3. by eapply state_after.
  - intros r s2 [-> Hs2]. apply calmly_resolve. intros s3 Hu. split; [done|by apply Hu].
Qed.

(** ** One batch *)

Lemma deadLetter_calm q owner reason payload s :
  shard_state q owner s -> calmly (deadLetter reason payload) (fun _ s' => shard_state q owner s') s.
Proof.
  intros Hs. unfold deadLetter. eapply calmly_bind;
    [apply (calmly_local _ (fun t s' => valid_time t = true /\ shard_state q owner s') q owner); [done|done|]|].
  - intros c s1 s2 _ H1 H2. eexists. split; [done|]. split; [apply H1|done].
  - intros t s1 [Ht Hs1]. eapply calmly_bind; [eapply calmly_lift; [|done]|].
    + unfold toISOString. by rewrite Ht.
    + intros at_ s2 [_ Hs2]. apply calmly_resolve. intros s3 Hu. by apply Hu.
Qed.

Lemma sort_calm q owner raw valid letters s :
  shard_state q owner s ->
  calmly (sortEntries otherDate raw valid letters)
    (fun p s' => p.1 = valid ++ omap (parsePendingLink otherDate) raw /\ shard_state q owner s') s.
Proof.
  revert valid letters s; induction raw as [|x raw IH]; intros valid letters s Hs; cbn [sortEntries].
  { apply calmly_resolve. intros s' Hu. split; [by rewrite app_nil_r|by apply Hu]. }
  destruct (parsePendingLink otherDate x) as [link|] eqn:Hx.
  - eapply safe_mono; [|by apply (IH (valid ++ [link]) letters)].
    intros s' r (a & -> & Ha & Hs'). exists a. split; [done|]. split; [|done]. rewrite Ha. simpl. rewrite Hx.
    by rewrite <- app_assoc.
  - eapply calmly_bind; [by apply deadLetter_calm|]. intros letter s1 Hs1.
    eapply safe_mono; [|by apply (IH valid (letters ++ [letter]))].
    intros s' r (a & -> & Ha & Hs'). exists a. split; [done|]. split; [|done]. rewrite Ha. simpl. by rewrite Hx.
Qed.

Lemma conflicts_calm q owner links letters s :
  Forall acceptable links -> shard_state q owner s ->
  calmly (recordConflicts links letters) (fun _ s' => shard_state q owner s') s.
Proof.
  intros Hl. revert letters s; induction Hl as [|link links [_ Hc He] _ IH]; intros letters s Hs; cbn [recordConflicts].
  { apply calmly_resolve. intros s' Hu. by apply Hu. }
  assert (exists record, serializePendingLink link = Return record) as [record Hr].
  { unfold serializePendingLink. destruct (sql_date_iso _ Hc) as [created ->]. cbn [result_bind].
    unfold isoOrNull. destruct (p_expiresAt link) as [e|]; [|by eexists]. destruct (sql_date_iso _ He) as [expires ->].
    by eexists. }
  eapply calmly_bind; [by eapply calmly_lift|]. intros payload s1 [-> Hs1].
  eapply calmly_bind; [by apply deadLetter_calm|]. intros letter s2 Hs2. by apply IH.
Qed.

(** A statement that cannot fail. *)
Lemma calmly_pg {X} (stmt : sql X) (P : X -> Prop) q owner s :
  (forall now d, exists d' a, query X now d stmt = (d', Return a) /\ P a) -> shard_state q owner s ->
  calmly (pg stmt) (fun a s' => P a /\ shard_state q owner s') s.
Proof.
  intros Hq Hs. apply safe_call. intros c s1 [Hd _] Hu. unfold perform_logged, perform, on_pg, deliver, commands_of.
  rewrite Hd. destruct (Hq (pg_clock s1.1) (db s1.1)) as (d' & a & -> & Ha). split; [done|]. intros s3 Hu3.
  exists a. split; [done|]. split; [done|]. apply Hu3. apply Hu in Hs as [Hk Hc]. by split.
Qed.

Lemma insert_calm q owner links s :
  Forall acceptable links -> shard_state q owner s ->
  calmly (PostgresLinkStore.insertPendingBatch links)
    (fun res s' => Forall acceptable (conflicts res) /\ shard_state q owner s') s.
Proof.
  intros Hl Hs. unfold PostgresLinkStore.insertPendingBatch. case_match.
  { apply calmly_resolve. intros s' Hu. split; [apply Forall_nil_2|by apply Hu]. }
  cbv zeta. set (batch := PostgresLinkStore.unique_by_code [] links).
  destruct (acceptable_insert 0 (db s.1) links Hl) as (created & expires & _ & Hc & He & _).
  eapply calmly_bind; [by eapply calmly_lift; [apply Hc|]|]. intros ? s1 [-> Hs1].
  eapply calmly_bind; [by eapply calmly_lift; [apply He|]|]. intros ? s2 [-> Hs2].
  eapply calmly_bind; [apply (calmly_pg _ (fun _ => True) q owner); [|done]|].
  { intros now d. destruct (acceptable_insert now d links Hl) as (c' & e' & inserted & Hc' & He' & Hq & _).
    rewrite Hc in Hc'. injection Hc' as <-. rewrite He in He'. injection He' as <-. eauto. }
  intros inserted s3 [_ Hs3]. case_match.
  { apply calmly_resolve. intros s' Hu. split; [apply Forall_nil_2|by apply Hu]. }
  eapply calmly_bind; [apply (calmly_pg _ (fun _ => True) q owner); [|done]|].
  { intros now d. destruct (query_SelectExisting now d (p_code <$>
      filter (fun link => negb (has (new_Set inserted) (p_code link))) batch)) as (rows & Hq & _). eauto. }
  intros rows s4 [_ Hs4]. apply calmly_resolve. intros s5 Hu. split; [|by apply Hu].
  destruct (settle_spec rows (filter (fun link => negb (has (new_Set inserted) (p_code link))) batch)
    {| persisted := new_Set inserted; conflicts := [] |}) as [-> _].
  apply Forall_forall. intros link. cbn [conflicts app]. intros [_ [_ Hin]%list_elem_of_filter]%list_elem_of_filter.
  apply unique_by_code_elem in Hin as [Hin _]. by eapply Forall_forall.
Qed.

(** ** A worker on the shard *)
Section Worker.
Context (self : LinkSyncWorker).
Context (Hqueue : SyncWorker.queue self = RedisSyncQueue.queue)
  (Hsink : sink self = PostgresLinkStore.insertPendingBatch)
  (Hbatch : 0 < batchSize (options self)) (Hlock : 0 < lockTtlMs self /\ ttl_ok (lockTtlMs self))
  (Httl : ttl_ok (opt_cacheTtlSeconds (options self) * 1000)).

(** A queue entry that is no record, or a record PostgreSQL can hold. *)
Definition fine_entry (x : string) : Prop := from_option acceptable True (parsePendingLink otherDate x).

Lemma fine_records raw : Forall fine_entry raw -> Forall acceptable (omap (parsePendingLink otherDate) raw).
Proof.
  induction 1 as [|x raw Hx _ IH]; [apply Forall_nil_2|]. simpl. unfold fine_entry in Hx.
  destruct (parsePendingLink otherDate x); [by apply Forall_cons|done].
Qed.

(** Either nothing was left, or the batch is complete and the lock given back. *)
Definition batch_done (q : list string) (o : batchOutcome) (s : state) : Prop :=
  match o with
  | NothingLeft => q = [] /\ shard_state [] (Some token) s
  | LockLost => False
  | Completed taken counts =>
      taken = List.length (take (Z.to_nat (batchSize (options self))) q)
      /\ shard_state (drop (Z.to_nat (batchSize (options self))) q) None s
  end.

Lemma batch_calm q s :
  Forall fine_entry q -> shard_state q (Some token) s ->
  calmly (processBatch otherDate self shard token) (batch_done q) s.
Proof.
  intros Hq Hs. unfold processBatch. rewrite Hqueue, Hsink. cbn [peek complete RedisSyncQueue.queue].
  set (B := batchSize (options self)) in *. eapply calmly_bind; [by apply peek_calm|]. intros raw s1 [Hraw Hs1].
  destruct (Nat.eqb_spec (List.length raw) 0) as [Hnil|Hne].
  { apply calmly_resolve. intros s2 Hu. apply Hu in Hs1. assert (q = []) as ->; [|by split].
    subst raw. rewrite length_take in Hnil. destruct q; [done|]. simpl in Hnil. lia. }
  assert (Hfine : Forall fine_entry raw) by (subst raw; by apply Forall_take).
  eapply calmly_bind; [by apply sort_calm|]. intros [valid invalid] s2 [Hvalid Hs2]. cbn [fst app] in Hvalid.
  eapply (calmly_bind _ _ (fun res s' => Forall acceptable (conflicts res) /\ shard_state q (Some token) s')).
  { destruct (0 <? List.length valid)%nat.
    - apply insert_calm; [|done]. rewrite Hvalid. by apply fine_records.
    - apply calmly_resolve. intros s3 Hu. split; [apply Forall_nil_2|by apply Hu]. }
  intros res s3 [Hres Hs3]. eapply calmly_bind; [by apply conflicts_calm|]. intros letters s4 Hs4.
  eapply calmly_bind; [by apply (complete_calm q); [exact Httl|simpl; lia|]|]. intros completed s5 [-> Hs5].
  cbn [negb consumed] in *. rewrite Nat2Z.id in Hs5. cbn [synced conflicted poison].
  eapply calmly_counter; [done|]. intros s6 Hs6. eapply calmly_counter; [done|]. intros s7 Hs7.
  eapply calmly_counter; [done|]. intros s8 Hs8. apply calmly_resolve. intros s9 Hu. apply Hu in Hs8.
  split; [by rewrite Hraw|]. fold B. replace (drop (Z.to_nat B) q) with (drop (List.length raw) q); [done|].
  subst raw. rewrite length_take. destruct (Nat.le_ge_cases (Z.to_nat B) (List.length q)).
  - by rewrite Nat.min_l.
  - rewrite Nat.min_r by done. by rewrite !drop_ge.
Qed.

(** The lock, by the value of [held]. *)
Definition owned_by (held : bool) : option string := if held then Some token else None.

Lemma loop_calm n q held total s :
  Forall fine_entry q -> Z.of_nat (List.length q) <= Z.of_nat n * batchSize (options self) ->
  shard_state q (owned_by held) s ->
  safe responsive undisturbed (fun _ _ => True) (batchLoop otherDate self n held shard token total)
    (fun s' end_ => (exists counts, end_.2 = Return counts) /\ shard_state [] (owned_by end_.1) s') s.
Proof.
  revert q held total s; induction n as [|n IH]; intros q held total s Hq Hn Hs; cbn [batchLoop].
  { intros s' Hu. split; [by eexists|]. destruct q; [by apply Hu|simpl in Hn; lia]. }
  set (iterate := io_bind (processBatch otherDate self shard token) _).
  assert (Hiter : forall s, shard_state q (Some token) s ->
    safe responsive undisturbed (fun _ _ => True) iterate
      (fun s' end_ => (exists counts, end_.2 = Return counts) /\ shard_state [] (owned_by end_.1) s') s).
  { clear s Hs. intros s Hs. unfold iterate. eapply calmly_io; [by apply (batch_calm q)|].
    intros [| |taken counts] s1 Hd; cbn [batch_done] in Hd; [|done|].
    - destruct Hd as [-> Hs1]. intros s2 Hu. split; [by eexists|]. by apply Hu.
    - destruct Hd as [-> Hs1]. rewrite length_take. destruct (Z.ltb_spec (Z.of_nat (Nat.min (Z.to_nat (batchSize (options self)))
        (List.length q))) (batchSize (options self))) as [Hlt|Hge].
      + intros s2 Hu. split; [by eexists|]. rewrite drop_ge in Hs1 by lia. by apply Hu.
      + apply (IH (drop (Z.to_nat (batchSize (options self))) q)); [by apply Forall_drop| |done].
        rewrite length_drop. lia. }
  destruct held; [by apply Hiter|]. rewrite Hqueue. cbn [acquire RedisSyncQueue.queue]. destruct Hlock.
  eapply calmly_io; [by apply acquire_calm|]. intros b s1 [-> Hs1]. by apply Hiter.
Qed.

Lemma shard_calm q s :
  Forall fine_entry q ->
  Z.of_nat (List.length q) <= Z.max 0 (maxBatchesPerShard self) * batchSize (options self) ->
  shard_state q None s ->
  calmly (syncShard otherDate self shard) (fun _ s' => shard_state [] None s') s.
Proof.
  intros Hq Hn Hs. unfold syncShard. rewrite Hqueue. cbn [length acquire release RedisSyncQueue.queue]. destruct Hlock.
  eapply calmly_bind; [by apply length_calm|]. intros waiting s1 [-> Hs1].
  destruct (Z.eqb_spec (Z.of_nat (List.length q)) 0) as [Hnil|_].
  { apply calmly_resolve. intros s2 Hu. destruct q; [by apply Hu|done]. }
  eapply calmly_bind; [apply (calmly_local _ (fun t s' => t = token /\ shard_state q None s') q None); [done|done|]|].
  { intros c s2 s3 [_ Hc] _ H3. exists token. cbn [perform snd]. by rewrite Hc. }
  intros t s2 [-> Hs2]. eapply calmly_bind; [by apply acquire_calm|]. intros b s3 [-> Hs3]. cbn [negb].
  apply safe_bind; [apply undisturbed_refl|]. eapply safe_mono; [|apply (loop_calm _ q true); [done| |done]].
  2: { lia. }
  intros s4 [held r] [[counts Hr] Hs4]. cbn [fst snd] in *. subst r. destruct held; cbn [owned_by] in Hs4.
  - eapply calmly_io; [by apply (release_calm [])|]. intros [] s5 Hs5. intros s6 Hu. exists counts. split; [done|by apply Hu].
  - intros s5 Hu. exists counts. split; [done|by apply Hu].
Qed.
End Worker.
End Draining.

(** A worker over the Redis queues and the PostgreSQL store, with times to live
    Redis accepts. *)
Record ready_worker (self : LinkSyncWorker) : Prop := {
  rw_queue : SyncWorker.queue self = RedisSyncQueue.queue;
  rw_sink : sink self = PostgresLinkStore.insertPendingBatch;
  rw_batch : 0 < batchSize (options self);
  rw_lock : 0 < lockTtlMs self /\ ttl_ok (lockTtlMs self);
  rw_ttl : ttl_ok (opt_cacheTtlSeconds (options self) * 1000)
}.

(** ** An example *)

Definition demo_shard : Z := shardOf "docs".

(** One record waits in its queue, nothing else is in Redis. *)
Definition queued_state : state :=
  (with_ks demo_world {[queue_key demo_shard := {| value := RList [demo_record]; pttl := None |}]},
   [RPUSH (queue_key demo_shard) demo_record]).

Definition draining_worker : LinkSyncWorker :=
  {| queue := RedisSyncQueue.queue; sink := PostgresLinkStore.insertPendingBatch;
     options := {| shards := [demo_shard]; intervalMs := 250; batchSize := 1000; opt_cacheTtlSeconds := 300;
                   opt_lockTtlMs := None; opt_maxBatchesPerShard := None; opt_concurrency := None; isAvailable := None |};
     lockTtlMs := 30000; maxBatchesPerShard := 10; concurrency := 64 |}.

Lemma draining_ready : ready_worker draining_worker.
Proof. split; try done; unfold ttl_ok; simpl; lia. Qed.

Lemma queued_other key : key <> queue_key demo_shard -> ks queued_state.1 !! key = None.
Proof. intros Hk. apply lookup_singleton_ne. auto. Qed.

Lemma queued_here : list_at (ks queued_state.1) (queue_key demo_shard) = Return [demo_record].
Proof. unfold list_at, queued_state. cbn [fst with_ks ks]. by rewrite lookup_singleton_eq. Qed.

Lemma demo_shard_valid : valid_shard demo_shard.
Proof. apply shardOf_range. Qed.

Lemma queued_consistent : consistent no_other_date queued_state.
Proof.
  assert (Hother : forall sh, valid_shard sh -> sh <> demo_shard -> ks queued_state.1 !! queue_key sh = None).
  { intros sh Hsh Hne. apply queued_other. intros He. apply Hne. by apply (key_of_inj "sync:queue");
      [|apply demo_shard_valid|]. }
  split.
  - intros sh Hsh. destruct (decide (sh = demo_shard)) as [->|Hne]; [exists [demo_record]; apply queued_here|].
    exists []. unfold list_at. by rewrite Hother.
  - intros sh Hsh. destruct (decide (sh = demo_shard)) as [->|Hne]; [|by rewrite Hother].
    unfold queued_state. cbn [fst with_ks ks]. by rewrite lookup_singleton_eq.
  - intros sh x Hsh. unfold queue_of. destruct (decide (sh = demo_shard)) as [->|Hne].
    + rewrite queued_here. intros ->%list_elem_of_singleton. by apply list_elem_of_singleton.
    + unfold list_at. rewrite Hother by done. by intros Hx%not_elem_of_nil.
  - intros sh x Hsh Hin%list_elem_of_singleton. left.
    pose proof (f_equal command_key Hin) as Hk. apply (key_of_inj "sync:queue") in Hk as ->; [|done|apply demo_shard_valid].
    pose proof (f_equal (fun c => match c with RPUSH _ y => y | _ => x end) Hin) as Hx. cbn in Hx. subst x.
    unfold queue_of. rewrite queued_here. by apply list_elem_of_singleton.
Qed.

Lemma queued_shard_state : shard_state demo_shard [demo_record] None queued_state.
Proof.
  split; [|reflexivity]. split.
  - apply queued_here.
  - rewrite queued_other by auto with wraplink. done.
  - split.
    + intros code. exists ∅. unfold hash_at. by rewrite queued_other by auto with wraplink.
    + exists []. unfold list_at. by rewrite queued_other by auto with wraplink.
Qed.

Lemma queued_fine : Forall (fine_entry no_other_date) [demo_record].
Proof.
  apply Forall_cons. split; [|apply Forall_nil_2]. unfold fine_entry.
  assert (parsePendingLink no_other_date demo_record = Some demo_pending) as -> by (vm_compute; reflexivity).
  pose proof demo_acceptable as Ha. by rewrite Forall_cons in Ha.
Qed.
