(* ===== verification/Footprint.v ===== *)
(** * What a shard's synchronization leaves alone

    [syncShard] (SyncWorker.v) works on the queue, the lock and the dead letters
    of its shard and on cached links. On every path, whatever fails, the other
    shards' queues and locks stay as they are. *)
From S2P Require Import Prelude JsNum JsString Keys Link ClickBuffer Async Redis Sql World Interleave PostgresStore.
From S2P Require Import SyncQueue SyncWorker Durability Draining.
Open Scope Z_scope.

(** ** Programs that send certain commands only *)

Fixpoint runs_only (allowed : command -> Prop) {A} (m : io effect A) : Prop :=
  match m with
  | Done _ => True
  | Await e k =>
      match e with RedisEval _ s => only allowed s | _ => True end /\ forall r, runs_only allowed (k r)
  end.

Section RunsOnly.
Context (allowed : command -> Prop).

Lemma runs_only_io_bind {A B} (m : io effect A) (f : A -> io effect B) :
  runs_only allowed m -> (forall a, runs_only allowed (f a)) -> runs_only allowed (io_bind m f).
Proof. intros Hm Hf. induction m as [a|X e k IH]; simpl in *; [done|]. destruct Hm. split; [done|auto]. Qed.

Lemma runs_only_bind {A B} (m : async effect A) (f : A -> async effect B) :
  runs_only allowed m -> (forall a, runs_only allowed (f a)) -> runs_only allowed (async_bind m f).
Proof. intros Hm Hf. apply runs_only_io_bind; [done|]. by intros [a|e]. Qed.

Lemma runs_only_redis {A} (s : script A) : only allowed s -> runs_only allowed (redis_eval s).
Proof. by split. Qed.

Lemma runs_only_pg {A} (q : sql A) : runs_only allowed (pg q).
Proof. by split. Qed.

Lemma runs_only_local {A} (e : effect A) : is_local e = true -> runs_only allowed (call e).
Proof. by destruct e. Qed.

(** What the commands keep, the program keeps. *)
Lemma only_keeps `{Redis} (I : keyspace -> Prop) {A} (s : io lua A) k :
  (forall k c, allowed c -> I k -> I (execute k c).1) -> only allowed s -> I k -> I (run on_server s k).1.
Proof.
  intros HI. revert k; induction s as [a|X e f IH]; intros k; simpl; [done|]. destruct e as [c]. intros [Hc Hf] Hk.
  specialize (HI k c Hc Hk). cbn [on_server]. destruct (execute k c) as [k' r]. by apply IH.
Qed.

Lemma runs_only_safe `{Redis} `{Postgres} {J} (I : J -> keyspace -> Prop) (choice_ok : choice -> Prop)
    (rely : state -> state -> Prop) {A} (m : io effect A) s :
  (forall j k c, allowed c -> I j k -> I j (execute k c).1) -> runs_only allowed m ->
  safe choice_ok rely (fun s s' => (forall j, I j (ks s.1) -> I j (ks s'.1)) /\ clock s'.1 = clock s.1) m (fun _ _ => True) s.
Proof.
  intros HI. revert s; induction m as [a|X e k IH]; intros s; simpl; [done|]. intros [He Hk] c s1 _ _.
  unfold perform_logged. pose proof (perform_clock c e s1.1) as Hclock.
  assert (Hks : forall j, I j (ks s1.1) -> I j (ks (perform c X e s1.1).1)).
  { intros j. destruct e as [|B sc|B q| | | |]; simpl; try done.
    - unfold on_redis, eval. pose proof (only_keeps (I j) sc (ks s1.1) (HI j) He) as Hkeep.
      destruct (run on_server sc (ks s1.1)) as [k' r]. destruct (c_fate c); simpl in *; auto.
    - unfold on_pg. destruct (query _ _ _ _). by destruct (c_fate c).
    - by destruct (ClickBuffer.record _ _ _). }
  destruct (perform c X e s1.1) as [w r]. split; [by split|]. by apply IH.
Qed.
End RunsOnly.

(** ** The commands of a shard *)
Section Shard.
Context `{Redis} `{Postgres} (otherDate : string -> option Z) (shard : Z) (Hshard : valid_shard shard).

Definition shard_keys_of : list string := [queue_key shard; lock_key shard; dead_key shard].

(** Commands that read the queue of the shard or take its head away, those on its
    lock and its dead letters, and those on cached links that drop them or their
    mark of being pending. *)
Definition shard_command (c : command) : Prop :=
  (command_key c = queue_key shard /\ match c with LLEN _ | LRANGE _ _ _ | LTRIM _ _ _ => True | _ => False end)
  \/ command_key c ∈ [lock_key shard; dead_key shard]
  \/ exists code, command_key c = link_key code
     /\ match c with
        | HGET _ _ | DEL _ | PTTL _ | PEXPIRE _ _ => True
        | HDEL _ field => field = "pending"
        | _ => False
        end.

Lemma shard_command_key c :
  shard_command c -> command_key c ∈ shard_keys_of
  \/ exists code, command_key c = link_key code
     /\ match c with HGET _ _ | HDEL _ _ | DEL _ | PTTL _ | PEXPIRE _ _ => True | _ => False end.
Proof.
  unfold shard_keys_of. intros [[-> _]|[Hkey|(code & Hkey & Hc)]].
  - left. by left.
  - left. by right.
  - right. exists code. split; [done|]. by destruct c.
Qed.

Lemma shard_link_keeps c code k :
  command_key c = link_key code ->
  match c with HGET _ _ | HDEL _ _ | DEL _ | PTTL _ | PEXPIRE _ _ => True | _ => False end ->
  returns (hash_at k (link_key code)) -> returns (hash_at (execute k c).1 (link_key code)).
Proof.
  intros Hkey Hc [h Hh]. destruct c; try done; cbn [command_key] in Hkey; subst.
  - rewrite execute_DEL. exists ∅. unfold hash_at. simpl. by rewrite lookup_delete_eq.
  - rewrite execute_PTTL. by exists h.
  - destruct (execute_PEXPIRE_value k (link_key code) milliseconds) as [Hn|Hv].
    + exists ∅. unfold hash_at. by rewrite Hn.
    + exists h. rewrite <- Hh. unfold hash_at. by rewrite Hv.
  - rewrite execute_HGET, Hh. by exists h.
  - rewrite execute_HDEL, Hh. apply hash_at_put_hash.
Qed.

Lemma other_keys other : valid_shard other -> other <> shard ->
  forall key, key ∈ shard_keys_of ->
  key <> queue_key other /\ key <> lock_key other /\ key <> dead_key other /\ forall code, key <> link_key code.
Proof.
  intros Hother Hne key. unfold shard_keys_of. rewrite !elem_of_cons.
  intros [->|[->|[->|[]%elem_of_nil]]]; split_and!; intros; auto with wraplink;
    intros He; apply Hne; (symmetry; eapply key_of_inj; [exact Hshard|exact Hother|exact He]).
Qed.

Lemma shard_command_keeps other q owner k c :
  valid_shard other -> other <> shard -> shard_command c ->
  shard_keys other q owner k -> shard_keys other q owner (execute k c).1.
Proof.
  intros Hother Hne [Hkey|(code & Hkey & Hc)]%shard_command_key Hk.
  - destruct (other_keys other Hother Hne _ Hkey) as (H1 & H2 & H3 & H4). destruct Hk as [Hq Hl [Ht Hd]].
    split; [|by rewrite execute_frame by auto|split].
    + rewrite <- Hq. apply list_at_ext, execute_frame. auto.
    + intros code. rewrite (hash_at_ext _ k); [apply Ht|apply execute_frame; auto].
    + rewrite (list_at_ext _ k); [apply Hd|apply execute_frame; auto].
  - apply (link_step other _ _ _ _ code); [done| |done]. apply shard_link_keeps; [done..|]. by eapply shard_link.
Qed.

(** *** The scripts *)

Lemma completion_only completion token :
  let keys := shard_keys_of ++ (link_key <$> sc_persisted completion) ++ (link_key <$> sc_conflicts completion) in
  only shard_command (COMPLETE_SYNC keys (completion_arguments token completion)).
Proof.
  cbv zeta. set (keys := shard_keys_of ++ _).
  assert (Hqueue : keys !! 0%nat = Some (queue_key shard)) by done.
  assert (Hlock : keys !! 1%nat = Some (lock_key shard)) by done.
  assert (Hdead : keys !! 2%nat = Some (dead_key shard)) by done.
  assert (Hown : forall c s, keys !! 1%nat = Some s \/ keys !! 2%nat = Some s -> command_key c = s -> shard_command c).
  { intros c s Hs Hc. right. left. rewrite Hlock, Hdead in Hs. rewrite Hc, !elem_of_cons. destruct Hs as [[= <-]|[= <-]]; auto. }
  assert (Hlinks : forall i s, keys !! pred (3 + i) = Some s -> (1 <= i)%nat -> exists code, s = link_key code).
  { intros i s Hs Hi. unfold keys in Hs. rewrite lookup_app_r in Hs by (simpl; lia).
    rewrite <- fmap_app in Hs. apply list_lookup_fmap_Some in Hs as (code & -> & _). by exists code. }
  clearbody keys. set (args := completion_arguments _ _). clearbody args.
  unfold COMPLETE_SYNC. apply only_entry. intros lock Hl. apply only_call; [by eapply Hown; [left|]|].
  intros owner. apply only_entry. intros t _. destruct (negb _); [done|].
  do 4 (apply only_entry; intros ? _; apply only_tonumber; intros ?).
  apply only_async_bind; [|intros _].
  { unfold settleEntries. apply only_async_bind; [|intros _; apply only_async_bind; [|intros _; apply only_async_bind; [|intros _]]].
    - apply lua_for_only. intros i Hi. apply only_entry. intros key Hs.
      destruct (Hlinks i key Hs) as [code ->]; [lia|]. apply only_call; [do 2 right; by exists code|]. intros r.
      case_bool_decide; [|done]. do 2 (apply only_call; [do 2 right; by exists code|intros ?]).
      apply only_as_number. intros m. destruct (_ || _); [|done]. by apply only_call; [do 2 right; exists code|].
    - apply lua_for_only. intros i Hi. apply only_entry. intros key Hs.
      rewrite <- Nat.add_assoc in Hs. destruct (Hlinks _ key Hs) as [code ->]; [lia|].
      apply only_call; [do 2 right; by exists code|]. intros r. case_bool_decide; [|done].
      by apply only_call; [do 2 right; exists code|].
    - apply lua_for_only. intros i Hi. apply only_entry. intros key Hs. apply only_entry. intros letter _.
      apply only_call; [by eapply Hown; [right|]|done].
    - destruct (0 <? _); [|done]. apply only_entry. intros key Hs.
      apply only_call; [by eapply Hown; [right|]|done]. }
  apply only_entry. intros queue Hq. apply only_entry. intros ? _. apply only_tonumber. intros taken.
  apply only_call; [left; split; [|done]; cbn in Hq |- *; congruence|]. intros _.
  apply only_call; [by eapply Hown; [left|]|done].
Qed.

(** *** The worker *)
Context (self : LinkSyncWorker) (Hqueue : SyncWorker.queue self = RedisSyncQueue.queue)
  (Hsink : sink self = PostgresLinkStore.insertPendingBatch).

Abbreviation within := (runs_only shard_command).

Ltac own_key := first [by left | right; left; cbn [command_key]; rewrite !elem_of_cons; tauto].

(** One call at a time. *)
Ltac within :=
  repeat first
    [ done
    | apply runs_only_bind
    | apply runs_only_io_bind
    | apply runs_only_pg
    | by apply runs_only_local
    | progress intros
    | case_match ].

Lemma increment_within name n : within (increment name n).
Proof. by apply runs_only_local. Qed.

Lemma deadLetter_within reason payload : within (deadLetter reason payload).
Proof. unfold deadLetter, now. within. Qed.

Lemma sortEntries_within raw valid letters : within (sortEntries otherDate raw valid letters).
Proof.
  revert valid letters; induction raw as [|x raw IH]; intros valid letters; cbn [sortEntries]; [done|].
  destruct (parsePendingLink otherDate x); [apply IH|]. apply runs_only_bind; [apply deadLetter_within|]. intros. apply IH.
Qed.

Lemma recordConflicts_within links letters : within (recordConflicts links letters).
Proof.
  revert letters; induction links as [|link links IH]; intros letters; cbn [recordConflicts]; [done|].
  apply runs_only_bind; [done|]. intros payload. apply runs_only_bind; [apply deadLetter_within|]. intros. apply IH.
Qed.

Lemma insert_within links : within (PostgresLinkStore.insertPendingBatch links).
Proof. unfold PostgresLinkStore.insertPendingBatch. within. Qed.

Lemma runs_only_given {A B} (a : A) (f : A -> async effect B) :
  within (f a) -> within (async_bind (lift (Return a)) f).
Proof. done. Qed.

Lemma length_within : within (RedisSyncQueue.length shard).
Proof.
  unfold RedisSyncQueue.length. rewrite syncQueueKey_eq by done. apply runs_only_given, runs_only_redis.
  apply only_call; [own_key|]. by intros [].
Qed.

Lemma acquire_within token ttlMs : within (RedisSyncQueue.acquire shard token ttlMs).
Proof.
  unfold RedisSyncQueue.acquire. rewrite syncLockKey_eq by done. apply runs_only_given, runs_only_bind; [|done].
  apply runs_only_redis. split; [own_key|done].
Qed.

Lemma peek_within count : within (RedisSyncQueue.peek shard count).
Proof.
  unfold RedisSyncQueue.peek. rewrite syncQueueKey_eq by done. apply runs_only_given, runs_only_redis.
  apply only_call; [own_key|]. by intros [].
Qed.

Lemma complete_within token completion : within (RedisSyncQueue.complete shard token completion).
Proof.
  unfold RedisSyncQueue.complete. rewrite completeCall_spec by done. apply runs_only_given, runs_only_bind; [|done].
  apply runs_only_redis, completion_only.
Qed.

Lemma release_within token : within (RedisSyncQueue.release shard token).
Proof.
  unfold RedisSyncQueue.release. rewrite syncLockKey_eq by done. apply runs_only_given, runs_only_bind; [|done].
  apply runs_only_redis. unfold RELEASE_LOCK. apply only_entry. intros lock [= <-]. apply only_call; [own_key|]. intros owner.
  apply only_entry. intros t _. case_bool_decide; [|done]. apply only_call; [own_key|]. by intros [].
Qed.

Lemma processBatch_within token : within (processBatch otherDate self shard token).
Proof.
  unfold processBatch. rewrite Hqueue, Hsink. apply runs_only_bind; [apply peek_within|]. intros raw.
  destruct (_ =? _)%nat; [done|]. apply runs_only_bind; [apply sortEntries_within|]. intros [valid invalid].
  apply runs_only_bind; [destruct (0 <? _)%nat; [apply insert_within|done]|]. intros inserted.
  apply runs_only_bind; [apply recordConflicts_within|]. intros letters.
  apply runs_only_bind; [apply complete_within|]. intros [|]; cbn [negb];
    repeat (apply runs_only_bind; [apply increment_within|intros _]); done.
Qed.

Lemma batchLoop_within n held token total : within (batchLoop otherDate self n held shard token total).
Proof.
  revert held total; induction n as [|n IH]; intros held total; cbn [batchLoop]; [done|].
  set (iterate := io_bind (processBatch otherDate self shard token) _).
  assert (Hiter : within iterate).
  { apply runs_only_io_bind; [apply processBatch_within|]. intros [[]|]; try done. by destruct (_ <? _). }
  destruct held; [done|]. rewrite Hqueue. apply runs_only_io_bind; [apply acquire_within|]. by intros [[]|].
Qed.

Lemma syncShard_within : within (syncShard otherDate self shard).
Proof.
  unfold syncShard. rewrite Hqueue. apply runs_only_bind; [apply length_within|]. intros waiting.
  destruct (_ =? _); [done|]. apply runs_only_bind; [by apply runs_only_local|]. intros token.
  apply runs_only_bind; [apply acquire_within|]. intros [|]; cbn [negb]; [|done].
  apply runs_only_io_bind; [apply batchLoop_within|]. intros [[] r]; [|done].
  apply runs_only_io_bind; [apply release_within|done].
Qed.

(** Whatever happens to the program, each of its effects leaves the others
    undisturbed. *)
Definition leaves_others (s s' : state) : Prop :=
  forall other, valid_shard other -> other <> shard -> undisturbed other s s'.

Lemma syncShard_leaves choice_ok rely s :
  safe choice_ok rely leaves_others (syncShard otherDate self shard) (fun _ _ => True) s.
Proof.
  eapply safe_guar; [|apply (runs_only_safe shard_command (fun (j : Z * list string * option string) k =>
    let '(other, q, owner) := j in valid_shard other -> other <> shard -> shard_keys other q owner k));
    [|apply syncShard_within]].
  - intros s1 s2 [Hk Hc] other Hother Hne q owner [Hkeys Hclock]. split; [by apply (Hk (other, q, owner))|by rewrite Hc].
  - intros [[other q] owner] k c Hc Hk Hother Hne. apply shard_command_keeps; auto.
Qed.
End Shard.
