(* ===== verification/App.v ===== *)
(** * The HTTP application

    The handlers [buildApp] of src/src/app.ts registers, as programs from a
    request to a response. Fastify (routing, bodies, sending) is not part of
    the repository; a handler that throws is its status 500. *)
From S2P Require Import Prelude JsNum JsString JsDate Json Async Link World RateLimiter.
Open Scope Z_scope.

(** ** Requests and responses *)

(** The properties of a JSON body, [Undefined] where absent. *)
Record CreateBody : Type := { url : unknown; customCode : unknown; expiresInSeconds : unknown }.

Record request : Type := {
  ip : string;
  x_api_key : unknown;
  x_request_id : unknown;
  body : option CreateBody    (* [None]: no body, or null *)
}.

Record response : Type := {
  status : Z;
  headers : list (string * string);
  payload : json
}.

(** [reply.headers(h).code(n).send({ error })]. *)
Definition failure (n : Z) (h : list (string * string)) (message : string) : response :=
  {| status := n; headers := h; payload := JObject [("error", JString message)] |}.

Definition REQUEST_ID_PATTERN (s : string) : bool :=
  string_forallb (fun c => is_alnum c || existsb (Ascii.eqb c) ["."%char; "_"%char; ":"%char; "-"%char]) s
  && (1 <=? String.length s)%nat && (String.length s <=? 128)%nat.

Definition requestId (r : request) : async effect string :=
  match x_request_id r with
  | Text supplied => if REQUEST_ID_PATTERN supplied then resolve supplied else randomUUID
  | _ => randomUUID
  end.

(** The [onSend] hook. *)
Definition onSend (id : string) (r : response) : response :=
  {| status := status r;
     headers := headers r ++
       [("x-request-id", id); ("content-security-policy", "default-src 'none'");
        ("permissions-policy", "camera=(), microphone=(), geolocation=()");
        ("referrer-policy", "no-referrer"); ("x-content-type-options", "nosniff");
        ("x-frame-options", "DENY")];
     payload := payload r |}.

(** ** The application *)

(** The arguments of [buildApp]: the other components, by their methods.
    [codeGenerator] is the option, or the random codes of [generateCode]. *)
Record App : Type := {
  baseUrl : string;
  store : LinkStore;
  rateLimiter : option (string -> async effect RateLimitResult);
  apiKeyAuthenticator : option (unknown -> result bool);
  urlPolicy : option (unknown -> async effect (option string));
  codeGenerator : async effect string;
  renderMetrics : async effect string;
  extraMetrics : option (async effect string)
}.

Section Handlers.
(** [new URL(value)]: protocol and href. *)
Context (parseURL : string -> option (string * string)) (app : App).

Definition validHttpUrl (value : unknown) : option string :=
  match value with
  | Text value =>
      if 2048 <? js_length value then None
      else
        match parseURL value with
        | Some (protocol, href) =>
            if String.eqb protocol "http:" || String.eqb protocol "https:" then Some href else None
        | None => None
        end
  | _ => None
  end.

(** [metrics.created()], [metrics.miss()] and [metrics.redirect()]: the three
    built-in counters are kept among the named ones. *)
Definition created : async effect unit := increment "created" 1.
Definition miss : async effect unit := increment "misses" 1.
Definition redirected : async effect unit := increment "redirects" 1.

Definition UNAVAILABLE : string := "link creation is temporarily unavailable".

Definition quota (r : RateLimitResult) : list (string * string) :=
  [("rate-limit-limit", js_String (limit r)); ("rate-limit-remaining", js_String (remaining r));
   ("rate-limit-reset", js_String (retryAfterSeconds r))].

(** The first block of the handler: a response, or the headers set so far. *)
Definition admission (req : request) : async effect (list (string * string) + response) :=
  match rateLimiter app with
  | None => resolve (inl [])
  | Some consume =>
      try_catch
        (await result <- consume (ip req);
         resolve (if allowed result then inl (quota result)
                  else inr (failure 429 (quota result ++ [("retry-after", js_String (retryAfterSeconds result))])
                                    "link creation rate limit exceeded")))
        (fun _ => resolve (inr (failure 503 [] UNAVAILABLE)))
  end.

Definition authenticated (req : request) : result bool :=
  match apiKeyAuthenticator app with
  | None => Return true
  | Some authenticate => authenticate (x_api_key req)
  end.

Definition validateUrl (value : unknown) : async effect (option string) :=
  match urlPolicy app with
  | Some validate => validate value
  | None => resolve (validHttpUrl value)
  end.

(** [customCode] absent, well formed, or not. *)
Definition customOf (value : unknown) : option (option string) :=
  match value with
  | Undefined => Some None
  | Text custom => if CODE_PATTERN custom then Some (Some custom) else None
  | _ => None
  end.

Definition ttlOf (value : unknown) : option (option Z) :=
  match value with
  | Undefined => Some None
  | Integer ttl => if isSafeInteger ttl && (1 <=? ttl) && (ttl <=? 31536000) then Some (Some ttl) else None
  | _ => None
  end.

Definition expiryOf (ttl : option Z) : async effect (option Z) :=
  match ttl with
  | None => resolve None
  | Some ttl => await t <- now; resolve (Some (t + ttl * 1000))
  end.

(** The code of one attempt, or nothing when the generator fails. *)
Definition attemptCode (custom : option string) : async effect (option string) :=
  match custom with
  | Some code => resolve (Some code)
  | None => try_catch (await code <- codeGenerator app; resolve (Some code)) (fun _ => resolve None)
  end.

Definition linkInput (custom : option string) (code target : string) (expires : option Z) : CreateLinkInput :=
  {| in_code := code; in_targetUrl := target; in_expiresAt := expires;
     in_codeSource := Some (match custom with Some _ => Custom | None => Generated end) |}.

Definition shortUrl (code : string) : string := baseUrl app +:+ "/" +:+ code.

Definition createdResponse (h : list (string * string)) (code target : string) (expires : option Z) :
    result response :=
  try iso <- isoOrNull expires;
  Return {| status := 201; headers := h;
            payload := JObject [("code", JString code); ("shortUrl", JString (shortUrl code));
                                ("targetUrl", JString target); ("expiresAt", json_of iso)] |}.

(** The loop: at most five attempts. *)
Fixpoint allocate (attempts : nat) (h : list (string * string)) (custom : option string) (target : string)
    (expires : option Z) : async effect response :=
  match attempts with
  | O => resolve (failure 503 h "could not allocate a unique code")
  | S attempts =>
      await attempt <- attemptCode custom;
      match attempt with
      | None => resolve (failure 503 h UNAVAILABLE)
      | Some code =>
          await link <- store_create (store app) (linkInput custom code target expires);
          match link with
          | Some _ => await_ created; lift (createdResponse h code target expires)
          | None =>
              match custom with
              | Some _ => resolve (failure 409 h "customCode is already in use")
              | None => allocate attempts h custom target expires
              end
          end
      end
  end.

Definition URL_ERROR : string := "url must be a valid and publicly reachable http or https URL".

(** The rest of the handler once the caller is admitted. *)
Definition createFor (h : list (string * string)) (req : request) : async effect response :=
  await target <- validateUrl (match body req with Some b => url b | None => Undefined end);
  match target with
  | None | Some "" => resolve (failure 400 h URL_ERROR)
  | Some target =>
      match body req with
      | None => reject "Cannot read properties of undefined (reading 'customCode')"
      | Some b =>
          match customOf (customCode b) with
          | None => resolve (failure 400 h "customCode must be 4-32 URL-safe characters")
          | Some custom =>
              match ttlOf (expiresInSeconds b) with
              | None => resolve (failure 400 h "expiresInSeconds must be an integer from 1 to 31536000")
              | Some ttl =>
                  await expires <- expiryOf ttl;
                  allocate 5 h custom target expires
              end
          end
      end
  end.

Definition createLink (req : request) : async effect response :=
  await gate <- admission req;
  match gate with
  | inr refusal => resolve refusal
  | inl h =>
      await ok <- lift (authenticated req);
      if negb ok then
        resolve (failure 401 (h ++ [("www-authenticate", "ApiKey realm=" +:+ chr DQUOTE +:+ "link-creation" +:+ chr DQUOTE)])
                         "valid API key required")
      else createFor h req
  end.

Definition NOT_FOUND : response := failure 404 [] "link not found".

Definition redirectLink (code : string) : async effect response :=
  if negb (CODE_PATTERN code) then await_ miss; resolve NOT_FOUND
  else
    await link <- store_find (store app) code;
    match link with
    | None => await_ miss; resolve NOT_FOUND
    | Some link =>
        await_ store_recordClick (store app) (Link.code link);
        await_ redirected;
        resolve {| status := 302; headers := [("location", targetUrl link)]; payload := JNull |}
    end.

Definition linkStats (code : string) : async effect response :=
  await link <- store_find (store app) code;
  match link with
  | None => resolve NOT_FOUND
  | Some link =>
      await createdAt <- lift (toISOString (createdAt link));
      await expiresAt <- lift (isoOrNull (expiresAt link));
      resolve {| status := 200; headers := [];
                 payload := JObject
                   [("code", JString (Link.code link)); ("targetUrl", JString (targetUrl link));
                    ("shortUrl", JString (shortUrl (Link.code link)));
                    ("clicks", JNumber (js_String (clicks link)));
                    ("createdAt", JString createdAt); ("expiresAt", json_of expiresAt)] |}
  end.

Definition health : response :=
  {| status := 200; headers := []; payload := JObject [("status", JString "ok")] |}.

Definition ready : async effect response :=
  await healthy <- store_isHealthy (store app);
  resolve (if healthy
           then {| status := 200; headers := []; payload := JObject [("status", JString "ready")] |}
           else {| status := 503; headers := []; payload := JObject [("status", JString "not_ready")] |}).

Definition metricsText : async effect response :=
  await text <- renderMetrics app;
  await extra <- match extraMetrics app with
                 | None => resolve ""
                 | Some extra => try_catch extra (fun _ => resolve "")
                 end;
  resolve {| status := 200; headers := [("content-type", "text/plain; version=0.0.4")];
             payload := JString (text +:+ extra) |}.
End Handlers.
