(* ===== verification/Policed.v ===== *)
(** * Policed targets

    The state of the system as the URL policy wants it: every target in the
    table, and every target of a record that waits in a sync queue, is one it
    has let through. Here is that no program of the service breaks this: the
    stores of both write modes, and the sync worker that moves records from the
    queues to the table. *)
From S2P Require Import Prelude JsNum JsString JsDate Json Keys ClickBuffer Async Link Redis Sql World Interleave PostgresStore CachedStore.
From S2P Require Import WriteBehind SyncQueue SyncWorker Durability Draining Footprint.
Open Scope Z_scope.

Section Policed.
Context `{Redis} `{Postgres} {Bl : Backlog}.
Context (otherDate otherNumber : string -> option Z).
(** What the URL policy lets through. *)
Context (P : string -> Prop).

Definition rows_policed (d : database) : Prop :=
  forall c r, Sql.links d !! c = Some r -> P (target_url r).

Definition queues_policed (k : keyspace) : Prop :=
  forall shard x p, valid_shard shard -> x ∈ queue_of k shard -> parsePendingLink otherDate x = Some p ->
  P (p_targetUrl p).

Definition policed (s : state) : Prop := rows_policed (db s.1) /\ queues_policed (ks s.1).

(** Time values the database and its driver exchange exactly, with a year of
    room for a link's lifetime. *)
Definition clock_ok (w : world) : Prop := -62135596800000 <= clock w < 253402300800000 - 31536000000.

(** What every step of every process keeps. *)
Record lawful (s s' : state) : Prop := {
  lawful_keeps : keeps otherDate s s';
  lawful_clock : clock_ok s.1 -> clock_ok s'.1;
  lawful_policed : policed s -> policed s'
}.

Lemma lawful_refl s : lawful s s.
Proof. split; [apply keeps_refl|done|done]. Qed.

Lemma lawful_trans a b c : lawful a b -> lawful b c -> lawful a c.
Proof. intros [? ? ?] [? ? ?]. split; [by eapply keeps_trans|auto|auto]. Qed.

Abbreviation any := (fun _ : choice => True).
Abbreviation lawfully := (safe any lawful lawful).

(** ** Programs by their commands and statements *)

Definition inserts_policed (X : Type) (q : sql X) : Prop :=
  forall code target, adds q code target -> P target.

Lemma rows_policed_query X now d (q : sql X) : inserts_policed X q -> rows_policed d -> rows_policed (query X now d q).1.
Proof.
  intros Hq Hd c r Hr. destruct (Sql.links d !! c) as [r0|] eqn:Hold.
  - destruct (query_keeps X now d q c r0 Hold) as (r' & Hr' & Hu & _). rewrite Hr in Hr'. injection Hr' as <-.
    rewrite <- Hu. by apply (Hd c).
  - apply (Hq c). by eapply query_new_row.
Qed.

(** A program that sends Redis only commands [allowed] and PostgreSQL only
    inserts of policed targets. *)
Record confined (allowed : command -> Prop) {A} (m : io effect A) : Prop := {
  confined_commands : runs_only allowed m;
  confined_statements : sends inserts_policed m (fun _ => True)
}.

Lemma confined_done allowed {A} (a : A) : confined allowed (Done a).
Proof. done. Qed.

Lemma confined_io_bind allowed {A B} (m : io effect A) (f : A -> io effect B) :
  confined allowed m -> (forall a, confined allowed (f a)) -> confined allowed (io_bind m f).
Proof.
  intros [Hm1 Hm2] Hf. split; [apply runs_only_io_bind; [done|]; intros a; apply Hf|].
  apply sends_bind. eapply sends_mono; [|exact Hm2]. intros a _. apply Hf.
Qed.

Lemma confined_bind allowed {A B} (m : async effect A) (f : A -> async effect B) :
  confined allowed m -> (forall a, confined allowed (f a)) -> confined allowed (async_bind m f).
Proof. intros Hm Hf. apply confined_io_bind; [done|]. by intros [a|e]. Qed.

Lemma confined_catch allowed {A} (m : async effect A) h :
  confined allowed m -> (forall e, confined allowed (h e)) -> confined allowed (try_catch m h).
Proof. intros Hm Hh. apply confined_io_bind; [done|]. by intros [a|e]. Qed.

Lemma confined_redis (allowed : command -> Prop) {A} (sc : script A) : only allowed sc -> confined allowed (redis_eval sc).
Proof. by split. Qed.

Lemma confined_pg allowed {A} (q : sql A) : inserts_policed A q -> confined allowed (pg q).
Proof. by split. Qed.

Lemma confined_local allowed {A} (e : effect A) : is_local e = true -> confined allowed (call e).
Proof. by destruct e. Qed.

(** *** What such a program keeps *)

(** Every hash of a link stands for a link that [V] knows. *)
Definition hashes_in (V : string -> Link -> Prop) (k : keyspace) : Prop :=
  forall c h link, hash_at k (link_key c) = Return h -> identity otherDate h = Some link -> V c link.

Lemma perform_rows {X} c (e : effect X) w : rows_kept w (perform c X e w).1.
Proof.
  intros code r Hr. destruct e as [|A sc|A q| | | |]; simpl; try by exists r.
  - unfold on_redis, deliver. destruct (eval sc (ks w)), (c_fate c); by exists r.
  - unfold on_pg, deliver. pose proof (query_keeps A (pg_clock w) (db w) q code r Hr) as Hk.
    destruct (query A (pg_clock w) (db w) q), (c_fate c); simpl in *; try done; by exists r.
  - destruct (ClickBuffer.record _ _ _); by exists r.
Qed.

Lemma perform_rows_policed {X} c (e : effect X) w :
  match e with PgQuery Y q => inserts_policed Y q | _ => True end ->
  rows_policed (db w) -> rows_policed (db (perform c X e w).1).
Proof.
  intros He Hp. destruct e as [|A sc|A q| | | |]; try done.
  - simpl. unfold on_redis, deliver. by destruct (eval sc (ks w)), (c_fate c).
  - simpl. unfold on_pg, deliver. pose proof (rows_policed_query A (pg_clock w) (db w) q He) as Hq.
    destruct (query A (pg_clock w) (db w) q), (c_fate c); simpl in *; auto.
  - simpl. by destruct (ClickBuffer.record _ _ _).
Qed.

(** What the commands keep of the keyspace, the effect keeps. *)
Lemma perform_keyspace (allowed : command -> Prop) (I : keyspace -> Prop) {X} c (e : effect X) w :
  (forall k cmd, allowed cmd -> I k -> I (execute k cmd).1) ->
  match e with RedisEval _ s => only allowed s | _ => True end ->
  I (ks w) -> I (ks (perform c X e w).1).
Proof.
  intros HI He Hk. destruct e as [|A sc|A q| | | |]; simpl; try done.
  - unfold on_redis, eval. pose proof (only_keeps allowed I sc (ks w) HI He Hk) as Hkeep.
    destruct (run on_server sc (ks w)) as [k' r]. destruct (c_fate c); simpl in *; auto.
  - unfold on_pg. destruct (query _ _ _ _). by destruct (c_fate c).
  - by destruct (ClickBuffer.record _ _ _).
Qed.

Lemma confined_polices allowed {A} (m : io effect A) rely s :
  (forall k c, allowed c -> queues_policed k -> queues_policed (execute k c).1) -> confined allowed m ->
  safe any rely (fun s s' => policed s -> policed s') m (fun _ _ => True) s.
Proof.
  intros HQ [Hc Hs]. revert s Hc Hs; induction m as [a|X e k IH]; intros s; simpl; [done|]. intros [Hc Hck] [Hs Hsk] c s1 _ _.
  unfold perform_logged. pose proof (perform_rows_policed c e s1.1 Hs) as Hrows.
  pose proof (perform_keyspace allowed queues_policed c e s1.1 HQ Hc) as Hqueues.
  destruct (perform c X e s1.1) as [w r]. split; [|by apply IH].
  intros [H1 H2]. split; [by apply Hrows|by apply Hqueues].
Qed.

Lemma confined_lawful allowed {A} (m : io effect A) rely s :
  (forall k c, allowed c -> queues_policed k -> queues_policed (execute k c).1) ->
  (forall V k c, allowed c -> hashes_in V k -> hashes_in V (execute k c).1) -> confined allowed m ->
  safe any rely lawful m (fun _ _ => True) s.
Proof.
  intros HQ HV [Hc Hs]. revert s Hc Hs; induction m as [a|X e k IH]; intros s; simpl; [done|]. intros [Hc Hck] [Hs Hsk] c s1 _ _.
  unfold perform_logged. pose proof (perform_rows_policed c e s1.1 Hs) as Hrows. pose proof (perform_rows c e s1.1) as Hkept.
  pose proof (perform_keyspace allowed queues_policed c e s1.1 HQ Hc) as Hqueues.
  pose proof (perform_keyspace allowed _ c e s1.1 (HV (vouched s1)) Hc) as Hhashes. pose proof (perform_clock c e s1.1) as Hclock.
  destruct (perform c X e s1.1) as [w r]. split; [|by apply IH].
  assert (Hlog : log_grows s1 (w, s1.2 ++ commands_of c e s1.1)) by by eexists.
  split; [split_and!; [done..|]| |].
  - intros Hco code h link Hh Hi. eapply vouched_kept; [exact Hkept|exact Hlog|]. by apply (Hhashes Hco code h link).
  - unfold clock_ok. simpl in *. by rewrite Hclock.
  - intros [H1 H2]. split; [by apply Hrows|by apply Hqueues].
Qed.

(** ** Commands that put nothing in a queue *)

Definition off_queues (c : command) : Prop := forall shard, valid_shard shard -> command_key c <> queue_key shard.

Lemma off_queues_policed k c : off_queues c -> queues_policed k -> queues_policed (execute k c).1.
Proof.
  intros Hc Hk shard x p Hs Hx. apply (Hk shard); [done|]. unfold queue_of in *.
  erewrite <- list_at_ext; [exact Hx|]. apply execute_frame. apply not_eq_sym. by apply Hc.
Qed.

(** Commands on keys that are neither a link's nor a queue's. *)
Definition elsewhere (c : command) : Prop := off_queues c /\ forall code, command_key c <> link_key code.

Lemma elsewhere_hashes V k c : elsewhere c -> hashes_in V k -> hashes_in V (execute k c).1.
Proof.
  intros [_ Hc] Hk code h link Hh. apply (Hk code). rewrite <- Hh. apply hash_at_ext. symmetry.
  apply execute_frame. apply not_eq_sym. apply Hc.
Qed.

Lemma range_elements start stop (l : list string) x : x ∈ list_range start stop l -> x ∈ l.
Proof.
  unfold list_range. intros Hx. apply elem_of_take in Hx as (i & Hx & _). rewrite lookup_drop in Hx.
  by eapply list_elem_of_lookup_2.
Qed.

(** What the sync worker sends for its shard. *)
Lemma shard_queues_policed shard k c : valid_shard shard -> shard_command shard c ->
  queues_policed k -> queues_policed (execute k c).1.
Proof.
  intros Hv [[Hkey Hc]|Hc] Hk.
  - intros other x p Ho Hx. apply (Hk other); [done|]. revert Hx. destruct (decide (other = shard)) as [->|Hne].
    2: { unfold queue_of. rewrite (list_at_ext _ k); [done|]. apply execute_frame. rewrite Hkey. intros He.
         apply Hne. by apply (key_of_inj "sync:queue"). }
    unfold queue_of. destruct c; try done; cbn [command_key] in Hkey; subst.
    + rewrite execute_LLEN. destruct (list_at k _) eqn:Hl; cbn [answer fst]; by rewrite Hl.
    + rewrite execute_LRANGE. destruct (list_at k _) eqn:Hl; cbn [answer fst]; by rewrite Hl.
    + rewrite execute_LTRIM. destruct (list_at k _) as [l|e] eqn:Hl; cbn [answer fst]; [|by rewrite Hl].
      rewrite list_at_put_list. apply range_elements.
  - apply off_queues_policed; [|done]. intros other Ho. destruct Hc as [Hc|(code & -> & _)]; [|apply link_queue_ne].
    rewrite !elem_of_cons in Hc. destruct Hc as [->|[->|[]%elem_of_nil]]; auto with wraplink.
Qed.

Lemma hash_put_hash k key h : hash_at (put_hash k key h) key = Return h.
Proof.
  unfold put_hash. case_decide as Hh; [|apply hash_at_put]. unfold hash_at. rewrite lookup_delete_eq. simpl. by rewrite Hh.
Qed.

(** The fields a link is read from do not include the mark of being pending. *)
Lemma identity_unmarked h : identity otherDate (delete "pending" h) = identity otherDate h.
Proof. unfold identity. by rewrite !lookup_delete_ne. Qed.

Lemma shard_hashes shard V k c : valid_shard shard -> shard_command shard c -> hashes_in V k -> hashes_in V (execute k c).1.
Proof.
  intros Hv Hc Hk. assert (Hoff : forall keys, keys = queue_key shard \/ keys = lock_key shard \/ keys = dead_key shard ->
    command_key c = keys -> hashes_in V (execute k c).1).
  { intros key Hkey Hck code h link Hh. apply (Hk code). rewrite <- Hh. apply hash_at_ext. symmetry. apply execute_frame.
    rewrite Hck. destruct Hkey as [->|[->| ->]]; auto with wraplink. }
  destruct Hc as [[Hkey _]|[Hkey|(code & Hkey & Hc)]]; [by apply (Hoff (queue_key shard)); [left|]| |].
  { rewrite !elem_of_cons in Hkey. destruct Hkey as [Hkey|[Hkey|[]%elem_of_nil]];
      [apply (Hoff (lock_key shard))|apply (Hoff (dead_key shard))]; tauto. }
  clear Hoff. intros c0 h link Hh Hi. destruct (decide (c0 = code)) as [->|Hne].
  2: { apply (Hk c0 h); [|done]. rewrite <- Hh. apply hash_at_ext. symmetry. apply execute_frame. rewrite Hkey.
       by intros ?%link_key_inj. }
  specialize (Hk code). destruct c; try done; cbn [command_key] in Hkey; subst.
  - rewrite execute_DEL in Hh. unfold hash_at in Hh. cbn [fst] in Hh. rewrite lookup_delete_eq in Hh. injection Hh as <-.
    by rewrite identity_empty in Hi.
  - rewrite execute_PTTL in Hh. by eapply Hk.
  - destruct (execute_PEXPIRE_value k (link_key code) milliseconds) as [Hn|Hval]; unfold hash_at in Hh.
    + rewrite Hn in Hh. injection Hh as <-. by rewrite identity_empty in Hi.
    + rewrite Hval in Hh. by eapply Hk.
  - rewrite execute_HGET in Hh. destruct (hash_at k _) as [h0|e] eqn:Hh0; cbn [answer fst] in Hh; rewrite Hh0 in Hh; [|done].
    injection Hh as <-. by eapply Hk.
  - rewrite execute_HDEL in Hh. destruct (hash_at k _) as [h0|e] eqn:Hh0; cbn [answer fst] in Hh; [|congruence].
    rewrite hash_put_hash in Hh. injection Hh as <-. apply (Hk _ _ eq_refl). by rewrite <- identity_unmarked.
Qed.

(** ** The stores

    A store that is asked for policed targets only keeps the state policed. *)

Definition obeys {A} (m : io effect A) : Prop :=
  forall s, safe any (fun _ _ => True) (fun s s' => policed s -> policed s') m (fun _ _ => True) s.

Lemma confined_obeys {A} (m : io effect A) : confined off_queues m -> obeys m.
Proof. intros Hm s. eapply confined_polices; [|exact Hm]. intros k c. apply off_queues_policed. Qed.

Lemma obeys_bind {A B} (m : async effect A) (f : A -> async effect B) :
  obeys m -> (forall a, obeys (f a)) -> obeys (async_bind m f).
Proof.
  intros Hm Hf s. apply safe_async_bind; [done|]. eapply safe_mono; [|apply Hm]. intros s' [a|e] _; [apply Hf|done].
Qed.

(** What keeps the rows and the cache, and is obedient, is lawful. *)
Lemma lawful_both {A} (m : io effect A) (Q : state -> A -> Prop) s :
  safe any (keeps otherDate) (keeps otherDate) m Q s -> obeys m -> lawfully m Q s.
Proof.
  intros Hm Ho. pose proof (safe_both any any any lawful (keeps otherDate) (fun _ _ => True) _ _ m Q (fun _ _ => True) s
    (fun _ H => conj H H) (fun a b Hab => conj (lawful_keeps a b Hab) I) Hm (Ho s)) as Hb.
  eapply safe_mono; [|eapply safe_guar; [|eapply (safe_steps _ _ _ (fun s s' => clock_ok s.1 -> clock_ok s'.1)); [|exact Hb]]].
  - by intros s' a [HQ _].
  - by intros s1 s2 [[Hk Hp] Hc].
  - intros X c e s1. unfold perform_logged, clock_ok. pose proof (perform_clock c e s1.1) as Hc.
    destruct (perform c X e s1.1) as [w r]. simpl in *. by rewrite Hc.
Qed.

Class ObedientStore (st : LinkStore) : Prop := {
  obedient_create input : P (in_targetUrl input) -> obeys (store_create st input);
  obedient_find c : obeys (store_find st c);
  obedient_recordClick c : obeys (store_recordClick st c)
}.

Ltac confined :=
  repeat first
    [ apply confined_done
    | apply confined_bind
    | apply confined_io_bind
    | apply confined_catch
    | apply confined_local; done
    | progress intros
    | case_match ].

#[export] Instance postgres_obedient : ObedientStore PostgresLinkStore.store.
Proof.
  split; intros; apply confined_obeys, confined_bind; intros; try apply confined_done; apply confined_pg; try by intros ? ? [].
  by intros code target [_ <-].
Qed.

Lemma off_link code c : command_key c = link_key code -> off_queues c.
Proof. intros Hc shard _. rewrite Hc. apply link_queue_ne. Qed.

(** The calls of the cache: each on one key of a link. *)
Lemma confined_command {B} code c (f : reply -> async effect B) :
  command_key c = link_key code -> (forall r, confined off_queues (f r)) ->
  confined off_queues (await r <- redis_eval (call (redis_call c)); f r).
Proof.
  intros Hc Hf. apply confined_bind; [|done]. apply confined_redis. split; [by eapply off_link|done].
Qed.

Lemma forget_confined c : confined off_queues (CachedStore.forget (link_key c)).
Proof. by apply (confined_command c). Qed.

Lemma readSafely_confined c : confined off_queues (readSafely otherDate otherNumber c).
Proof.
  unfold readSafely. apply confined_bind; [by apply confined_local|]. intros [|]; cbn [negb]; [|apply confined_done].
  apply confined_catch; [|intros; apply confined_done]. rewrite linkKey_ok. apply (confined_command c); [done|].
  intros values. destruct values; try done. case_bool_decide; [done|].
  destruct (linkOf _ _ _) as [link|]; [|apply forget_confined]. destruct (expiresAt link); [|done].
  apply confined_bind; [by apply confined_local|]. intros t. destruct (_ <=? t); [apply forget_confined|done].
Qed.

Lemma cached_confined self o : confined off_queues (cached self o).
Proof.
  assert (Hf : forall link ttl, confined off_queues (cacheFields link ttl)).
  { intros link ttl. unfold cacheFields. rewrite linkKey_ok. destruct (toISOString _); [|done]. destruct (isoOr _); [|done].
    apply (confined_bind off_queues (redis_eval _)); [|done]. apply confined_redis.
    split; [by eapply off_link|]. intros r. split; [by eapply off_link|]. by intros r2. }
  destruct o as [link|]; [|done]. apply confined_bind; [|done]. unfold cacheSafely.
  apply confined_bind; [by apply confined_local|]. intros [|]; cbn [negb]; [|done]. apply confined_catch; [|done].
  unfold cache. destruct (expiresAt link); [|apply Hf]. apply confined_bind; [by apply confined_local|]. intros t.
  cbv zeta. destruct (_ <=? 0); [|apply Hf]. rewrite linkKey_ok. by apply (confined_command (code link)).
Qed.

#[export] Instance cached_obedient self :
  ObedientStore (source self) -> ObedientStore (CachedStore.store otherDate otherNumber self).
Proof.
  intros [Hc Hf Hr]. split.
  - intros input Hin. apply obeys_bind; [by apply Hc|]. intros o. apply confined_obeys, cached_confined.
  - intros c. apply obeys_bind; [apply confined_obeys, readSafely_confined|]. intros [link|]; [by apply confined_obeys|].
    apply obeys_bind; [apply Hf|]. intros o. apply confined_obeys, cached_confined.
  - intros c. apply obeys_bind.
    { unfold countClick. destruct (clickBuffer self); [by apply confined_obeys, confined_local|apply Hr]. }
    intros _. apply confined_obeys, confined_bind; [by apply confined_local|]. intros [|]; cbn [negb]; [|done].
    apply confined_catch; [|done]. rewrite linkKey_ok. apply (confined_bind off_queues (redis_eval _)); [|done].
    apply confined_redis. unfold INCREMENT_CACHED_CLICK. apply only_entry. intros ? [= <-].
    apply only_call; [by eapply off_link|]. intros r. case_bool_decide; [|done]. split; [by eapply off_link|done].
Qed.

(** *** Enqueueing *)

(** The record of a link reads back as the link, or not at all. *)
Lemma record_reads p record p' :
  serializePendingLink p = Return record -> parsePendingLink otherDate record = Some p' -> p' = p.
Proof.
  intros Hs Hp. enough (Hok : pending_ok p) by (rewrite (pending_roundtrip otherDate p record Hok Hs) in Hp; by injection Hp).
  pose proof (parse_pending_ok otherDate _ _ Hp) as [Hcode Hurl].
  apply serialize_members in Hs as (created & expires & _ & _ & Hm). unfold parsePendingLink in Hp. rewrite Hm in Hp.
  unfold pendingOfMembers in Hp. cbn -[CODE_PATTERN js_length parseDate Z.eqb Z.ltb] in Hp.
  destruct (_ || _); [done|]. destruct (parseDate otherDate created); [|done].
  destruct expires as [e|]; cbn in Hp; [destruct (parseDate otherDate e); [|done]|]; injection Hp as <-; by split.
Qed.

Lemma accepts_policed self input at_ s s' :
  P (in_targetUrl input) -> accepts self input at_ s s' -> policed s -> policed s'.
Proof.
  intros Ht (l & record & fields & cs & Hl & _ & _ & Hrec & _ & _ & ->) [Hrows Hqueues]. split; [done|].
  intros shard x p Hs Hx Hp. cbn [after with_ks fst ks] in Hx. destruct (decide (shard = shardOf (in_code input))) as [->|Hne].
  - erewrite queue_at in Hx by (apply enqueued_queue, link_queue_ne). rewrite elem_of_app, list_elem_of_singleton in Hx.
    destruct Hx as [Hx|Hx].
    + apply (Hqueues (shardOf (in_code input)) x p); [apply shardOf_range| |done]. by rewrite (queue_at _ _ _ Hl).
    + subst x. by rewrite (record_reads _ _ _ Hrec Hp).
  - apply (Hqueues shard x p); [done| |done]. revert Hx. unfold queue_of.
    rewrite enqueued_queue_other; [done|apply shardOf_range|done|done].
Qed.

#[export] Instance write_behind_obedient self :
  ObedientStore (synchronous self) -> ObedientStore (WriteBehind.store self).
Proof.
  intros [Hcreate Hfind Hclick]. split; [|exact Hfind|exact Hclick]. intros input Ht s.
  apply (WriteBehind.create_safe _ _ _) with (I := fun _ => True); try done.
  - intros s1 s2 (Hk & Hd & _) [H1 H2]. split; [by rewrite Hd|by rewrite Hk].
  - intros s1 _. by apply Hcreate.
  - intros at_ s1 s2. by apply accepts_policed.
Qed.

(** ** The sync worker

    What it inserts it has read from a queue, whose records are policed. *)
Section Worker.
Context (shard : Z) (Hshard : valid_shard shard).
Context (self : LinkSyncWorker) (Hqueue : SyncWorker.queue self = RedisSyncQueue.queue)
  (Hsink : sink self = PostgresLinkStore.insertPendingBatch).

Abbreviation shardly := (confined (shard_command shard)).

Lemma shardly_safe {A} (m : io effect A) s : shardly m -> lawfully m (fun _ _ => True) s.
Proof.
  apply confined_lawful; [intros k c; by apply shard_queues_policed|intros V k c; by apply shard_hashes].
Qed.

(** Every process keeps a policed state policed. *)
Lemma policed_framed {A} (m : io effect A) Q s :
  lawfully m Q s -> policed s -> lawfully m (fun s' a => Q s' a /\ policed s') s.
Proof.
  intros Hm Hs. apply safe_frame; [apply lawful_policed| |done]. eapply safe_guar; [|exact Hm].
  intros s1 s2 Hl. split; [done|by apply Hl].
Qed.

Lemma length_shardly : shardly (RedisSyncQueue.length shard).
Proof. split; [by apply length_within|]. unfold RedisSyncQueue.length. by rewrite syncQueueKey_eq. Qed.

Lemma acquire_shardly token ttlMs : shardly (RedisSyncQueue.acquire shard token ttlMs).
Proof. 
  split; [by apply acquire_within|]. unfold RedisSyncQueue.acquire. rewrite syncLockKey_eq by done.
  apply (sends_bind _ (redis_eval _)). split; [done|]. by intros [].
Qed.

Lemma complete_shardly token completion : shardly (RedisSyncQueue.complete shard token completion).
Proof.
  split; [by apply complete_within|]. unfold RedisSyncQueue.complete. rewrite completeCall_spec by done.
  apply (sends_bind _ (redis_eval _)). split; [done|]. by intros [].
Qed.

Lemma release_shardly token : shardly (RedisSyncQueue.release shard token).
Proof.
  split; [by apply release_within|]. unfold RedisSyncQueue.release. rewrite syncLockKey_eq by done.
  apply (sends_bind _ (redis_eval _)). split; [done|]. by intros [].
Qed.

Lemma deadLetter_shardly reason payload : shardly (deadLetter reason payload).
Proof. unfold deadLetter, now. confined. Qed.

(** What [sortEntries] lets through has been read from the entries. *)
Lemma sortEntries_sends raw valid letters :
  Forall (fun x => forall p, parsePendingLink otherDate x = Some p -> P (p_targetUrl p)) raw ->
  Forall (fun p => P (p_targetUrl p)) valid ->
  sends inserts_policed (sortEntries otherDate raw valid letters)
    (fun r => match r with Return a => Forall (fun p => P (p_targetUrl p)) a.1 | Throw _ => True end).
Proof.
  revert valid letters; induction raw as [|x raw IH]; intros valid letters Hraw Hvalid; cbn [sortEntries]; [done|].
  apply Forall_cons in Hraw as [Hx Hraw]. destruct (parsePendingLink otherDate x) as [p|] eqn:Hp.
  - apply IH; [done|]. apply Forall_app_2; [done|]. apply Forall_cons_2; [by apply Hx|by apply Forall_nil_2].
  - apply (sends_then _ _ _ (fun _ => True)); [|by intros; apply IH|done].
    eapply sends_mono; [|apply (confined_statements _ _ (deadLetter_shardly "invalid" x))]. by intros [].
Qed.

Lemma recordConflicts_shardly links letters : shardly (recordConflicts links letters).
Proof.
  revert letters; induction links as [|link links IH]; intros letters; cbn [recordConflicts]; [done|].
  apply confined_bind; [done|]. intros payload. apply confined_bind; [apply deadLetter_shardly|]. intros. apply IH.
Qed.

Lemma insert_shardly links :
  Forall (fun p => P (p_targetUrl p)) links -> shardly (PostgresLinkStore.insertPendingBatch links).
Proof.
  intros Hl. unfold PostgresLinkStore.insertPendingBatch. destruct (_ =? _)%nat; [done|]. cbv zeta.
  apply confined_bind; [done|]. intros created. apply confined_bind; [done|]. intros expires.
  apply confined_bind; [|intros inserted; destruct (_ =? _)%nat; [done|];
    apply confined_bind; [by apply confined_pg; intros ? ? []|done]].
  apply confined_pg. intros code target (i & _ & Ht). apply list_lookup_fmap_Some in Ht as (p & -> & Hp).
  apply list_elem_of_lookup_2, unique_by_code_elem in Hp as [Hp _]. by eapply Forall_forall in Hp; [|exact Hl].
Qed.

Definition entries_policed (raw : list string) : Prop :=
  Forall (fun x => forall p, parsePendingLink otherDate x = Some p -> P (p_targetUrl p)) raw.

Lemma peek_policed count s : policed s ->
  lawfully (RedisSyncQueue.peek shard count)
    (fun s' r => match r with Return raw => entries_policed raw | Throw _ => True end) s.
Proof.
  intros Hs. unfold RedisSyncQueue.peek. rewrite syncQueueKey_eq by done.
  apply safe_redis; [intros; apply lawful_refl| |done]. intros s1 H1. destruct (lawful_policed _ _ H1 Hs) as [_ Hq].
  rewrite logged_call, execute_LRANGE. unfold answer. change (key_of "sync:queue" shard) with (queue_key shard).
  destruct (list_at (ks s1.1) (queue_key shard)) as [l|e] eqn:Hl; cbv beta iota zeta.
  - unfold RedisSyncQueue.as_elements. rewrite logged_resolve. split; [split; [apply keeps_read|done|done]|].
    intros s2 _. apply Forall_forall. intros x Hx p Hp. apply (Hq shard x p); [done| |done].
    rewrite (queue_at _ _ _ Hl). by eapply range_elements.
  - split; [split; [apply keeps_read|done|done]|done].
Qed.

Lemma sends_shardly {A B} (m : async effect A) (f : A -> async effect B) :
  shardly m -> (forall a, sends inserts_policed (f a) (fun _ => True)) -> sends inserts_policed (async_bind m f) (fun _ => True).
Proof.
  intros [_ Hm] Hf. apply (sends_then _ _ _ (fun _ => True)); [|by intros a _; apply Hf|done].
  eapply sends_mono; [|exact Hm]. by intros [].
Qed.

Lemma increment_shardly name n : shardly (increment name n).
Proof. by apply confined_local. Qed.

Lemma policed_after {A} (m : io effect A) s : shardly m -> policed s -> lawfully m (fun s' _ => policed s') s.
Proof.
  intros Hm Hs. eapply safe_mono; [|apply (policed_framed m (fun _ _ => True)); [by apply shardly_safe|exact Hs]].
  by intros s' a [_ Hp].
Qed.

Lemma processBatch_lawful token s : policed s ->
  lawfully (processBatch otherDate self shard token) (fun s' _ => policed s') s.
Proof.
  intros Hs. pose proof (processBatch_within otherDate shard Hshard self Hqueue Hsink token) as Hw. revert Hw.
  unfold processBatch. rewrite Hqueue, Hsink. cbn [RedisSyncQueue.queue peek complete]. intros Hw.
  apply safe_async_bind; [apply lawful_refl|]. eapply safe_mono; [|apply policed_framed; [by apply peek_policed|done]].
  intros s1 [raw|e] [Hraw Hp]; [|intros s2 Hl; by eapply lawful_policed].
  apply policed_after; [|done]. split.
  { unfold RedisSyncQueue.peek in Hw. rewrite syncQueueKey_eq in Hw by done. exact (proj2 Hw (Return raw)). }
  destruct (_ =? _)%nat; [done|]. eapply sends_then; [by apply sortEntries_sends| |done]. intros [valid letters] Hvalid.
  apply sends_shardly; [destruct (0 <? _)%nat; [by apply insert_shardly|done]|]. intros inserted.
  apply sends_shardly; [apply recordConflicts_shardly|]. intros all.
  apply sends_shardly; [apply complete_shardly|]. intros [|]; cbn [negb];
    repeat (apply sends_shardly; [apply increment_shardly|intros _]); done.
Qed.

Lemma batchLoop_lawful n held token total s : policed s ->
  lawfully (batchLoop otherDate self n held shard token total) (fun s' _ => policed s') s.
Proof.
  revert held total s; induction n as [|n IH]; intros held total s Hs; cbn [batchLoop].
  { intros s2 Hl. by eapply lawful_policed. }
  set (iterate := io_bind (processBatch otherDate self shard token) _).
  assert (Hiter : forall s, policed s -> lawfully iterate (fun s' _ => policed s') s).
  { intros s1 H1. apply safe_bind; [apply lawful_refl|]. eapply safe_mono; [|by apply processBatch_lawful].
    assert (Hend : forall s2 (r : bool * result SyncResult), policed s2 -> lawfully (Done r) (fun s' _ => policed s') s2)
      by (intros s2 r H2 s3 Hl; by eapply lawful_policed).
    intros s2 [[]|e] H2; try by apply Hend. destruct (_ <? _); [by apply Hend|by apply IH]. }
  destruct held; [by apply Hiter|]. rewrite Hqueue. apply safe_bind; [apply lawful_refl|].
  eapply safe_mono; [|apply policed_after; [apply acquire_shardly|done]].
  intros s2 [[]|e] H2; [by apply Hiter|intros s3 Hl; by eapply lawful_policed..].
Qed.

(** One shard's synchronization moves policed targets only, whatever fails and
    whatever lawful steps come in between. *)
Lemma syncShard_lawful s : policed s ->
  lawfully (syncShard otherDate self shard) (fun s' _ => policed s') s.
Proof.
  intros Hs. unfold syncShard. rewrite Hqueue.
  assert (Hend : forall s2 (r : result SyncResult), policed s2 -> lawfully (Done r) (fun s' _ => policed s') s2)
    by (intros s2 r H2 s3 Hl; by eapply lawful_policed).
  assert (Hstep : forall A (m : async effect A) (f : A -> async effect SyncResult) s, shardly m -> policed s ->
    (forall a s, policed s -> lawfully (f a) (fun s' _ => policed s') s) ->
    lawfully (async_bind m f) (fun s' _ => policed s') s).
  { intros A m f s1 Hm H1 Hf. apply safe_async_bind; [apply lawful_refl|]. eapply safe_mono; [|by apply policed_after].
    intros s2 [a|e] H2; [by apply Hf|by apply Hend]. }
  apply Hstep; [apply length_shardly|done|]. intros waiting s1 H1. destruct (_ =? _); [by apply Hend|].
  apply Hstep; [by apply confined_local|done|]. intros token s2 H2.
  apply Hstep; [apply acquire_shardly|done|]. intros [|] s3 H3; cbn [negb]; [|by apply Hend].
  apply safe_bind; [apply lawful_refl|]. eapply safe_mono; [|by apply batchLoop_lawful]. intros s4 [[] r] H4; [|by apply Hend].
  apply safe_bind; [apply lawful_refl|]. eapply safe_mono; [|apply policed_after; [apply release_shardly|done]]. intros s5 a H5. by apply Hend.
Qed.
End Worker.
End Policed.

(** ** Programs that write no link *)

(** Neither in the table, nor in the cache, nor in a queue. *)
Record inert {A} (m : io effect A) : Prop := {
  inert_commands : runs_only elsewhere m;
  inert_statements : sends (fun X q => forall code target, ~ adds q code target) m (fun _ => True)
}.

Lemma sends_weaken (okq okq' : forall X, sql X -> Prop) {A} (m : io effect A) Q :
  (forall X q, okq X q -> okq' X q) -> sends okq m Q -> sends okq' m Q.
Proof.
  intros Hq. induction m as [a|X e k IH]; simpl; [done|]. intros [He Hk]. split; [|auto]. destruct e; auto.
Qed.

Lemma inert_lawful `{Redis} `{Postgres} {Bl : Backlog} otherDate P {A} (m : io effect A) rely s :
  inert m -> safe (fun _ => True) rely (lawful otherDate P) m (fun _ _ => True) s.
Proof.
  intros [Hc Hs]. apply (confined_lawful otherDate P elsewhere).
  - intros k c [Hk _]. by apply off_queues_policed.
  - intros V k c. apply elsewhere_hashes.
  - split; [done|]. eapply sends_weaken; [|exact Hs]. intros X q Hq code target Ha. by destruct (Hq code target).
Qed.

Lemma inert_done {A} (a : A) : inert (Done a).
Proof. done. Qed.

Lemma inert_bind {A B} (m : async effect A) (f : A -> async effect B) :
  inert m -> (forall a, inert (f a)) -> inert (async_bind m f).
Proof.
  intros [Hm1 Hm2] Hf. split; [apply runs_only_bind; [done|]; intros a; apply Hf|].
  apply (sends_then _ _ _ (fun _ => True)); [|by intros a _; apply Hf|done].
  eapply sends_mono; [|exact Hm2]. by intros [].
Qed.

Lemma inert_local {A} (e : effect A) : is_local e = true -> inert (call e).
Proof. by destruct e. Qed.

Lemma inert_pg {A} (q : sql A) : (forall code target, ~ adds q code target) -> inert (pg q).
Proof. by split. Qed.

Lemma inert_redis {A} (sc : script A) : only elsewhere sc -> inert (redis_eval sc).
Proof. by split. Qed.

(** Reserving a block of ids. *)
Lemma reserveBlock_inert : inert reserveBlock.
Proof.
  apply inert_bind; [by apply inert_pg; intros ? ? []|]. intros rows. destruct (head rows) as [[start [size|]]|]; apply inert_done.
Qed.
