(* ===== verification/AppSafety.v ===== *)
(** * The application over its stores

    What src/src/app.ts guarantees when it runs, as src/src/server.ts wires it:
    in synchronous mode over the cached PostgreSQL store, in write-behind mode
    over the queueing store in front of it, with the sync worker moving what was
    queued to the table. Every redirect goes to a destination the URL policy has
    let through, and a created link is the one that was asked for. *)
From S2P Require Import Prelude JsNum JsString JsDate Json Keys ClickBuffer Async Link Redis Sql World RateLimiter Interleave PostgresStore CachedStore.
From S2P Require Import WriteBehind Deferred SyncQueue SyncWorker Durability Footprint Policed UrlPolicy CodeAllocator App.
Open Scope Z_scope.

Section Running.
Context `{Redis} `{Postgres} {Bl : Backlog}.
Context (otherDate : string -> option Z) (P : string -> Prop).

(** ** Running under interference *)

Definition inv (s : state) : Prop := coherent otherDate s /\ clock_ok s.1.

Abbreviation law := (lawful otherDate P).
Abbreviation lawfully := (safe (fun _ : choice => True) law law).

Lemma law_inv s s' : law s s' -> inv s -> inv s'.
Proof. intros [Hk Hc _] [H1 H2]. split; [by apply (keeps_coherent otherDate s)|by apply Hc]. Qed.

Lemma law_vouched s s' c link : law s s' -> vouched s c link -> vouched s' c link.
Proof. intros [Hk _ _]. by apply (keeps_vouched otherDate). Qed.

(** [m] runs in any state of the invariant, keeps it, and returns what [Post] says. *)
Definition ends_in {A} (Post : state -> A -> Prop) (s : state) (r : result A) : Prop :=
  (forall a, r = Return a -> Post s a) /\ inv s.

Definition leads {A} (m : async effect A) (Post : state -> A -> Prop) : Prop :=
  forall s, inv s -> lawfully m (ends_in Post) s.

Definition runs {A} (m : async effect A) (Post : A -> Prop) : Prop := leads m (fun _ => Post).

(** What every process keeps holds at the end. *)
Lemma lawfully_framed {A} (F : state -> Prop) (m : io effect A) Q s :
  (forall s s', law s s' -> F s -> F s') -> lawfully m Q s -> F s ->
  lawfully m (fun s' r => Q s' r /\ F s') s.
Proof.
  intros HF Hm Hs. apply safe_frame; [done| |done]. eapply safe_guar; [|exact Hm].
  intros s1 s2 Hl. split; [done|by eapply HF].
Qed.

Lemma leads_of {A} (m : async effect A) (Post : state -> A -> Prop) :
  (forall s, inv s -> lawfully m (fun s' r => forall a, r = Return a -> Post s' a) s) -> leads m Post.
Proof. intros Hm s Hs. apply (lawfully_framed inv); [apply law_inv|by apply Hm|done]. Qed.

Lemma leads_bind {A B} (m : async effect A) (f : A -> async effect B) P1 P2 :
  leads m P1 -> (forall s a, inv s -> P1 s a -> lawfully (f a) (ends_in P2) s) -> leads (async_bind m f) P2.
Proof.
  intros Hm Hf s Hs. apply safe_async_bind; [apply lawful_refl|]. eapply safe_mono; [|by apply Hm].
  intros s' [a|e] [HP Hi]; [by apply Hf; [|apply HP]|].
  intros s2 HK. split; [done|by eapply law_inv].
Qed.

Lemma runs_then {A B} (m : async effect A) (f : A -> async effect B) P1 P2 :
  runs m P1 -> (forall a, P1 a -> leads (f a) P2) -> leads (async_bind m f) P2.
Proof. intros Hm Hf. eapply leads_bind; [exact Hm|]. intros s a Hs Ha. by apply Hf. Qed.

Lemma runs_bind {A B} (m : async effect A) (f : A -> async effect B) P1 P2 :
  runs m P1 -> (forall a, P1 a -> runs (f a) P2) -> runs (async_bind m f) P2.
Proof. intros Hm Hf. by eapply runs_then. Qed.

Lemma runs_catch {A} (m : async effect A) h P1 :
  runs m P1 -> (forall e, runs (h e) P1) -> runs (try_catch m h) P1.
Proof.
  intros Hm Hh s Hs. apply safe_try_catch; [apply lawful_refl|]. eapply safe_mono; [|by apply Hm].
  intros s' [a|e] [HP Hi]; [|by apply Hh]. intros s2 HK. split; [|by eapply law_inv].
  intros b [= <-]. by apply HP.
Qed.

Lemma leads_done {A} (r : result A) P1 : (forall s a, r = Return a -> P1 s a) -> leads (Done r) P1.
Proof. intros Hr s Hs s2 HK. split; [auto|by eapply law_inv]. Qed.

Lemma runs_done {A} (r : result A) (P1 : A -> Prop) : (forall a, r = Return a -> P1 a) -> runs (Done r) P1.
Proof. intros Hr s Hs s2 HK. split; [done|by eapply law_inv]. Qed.

Lemma runs_inert {A} (m : async effect A) : inert m -> runs m (fun _ => True).
Proof. intros Hm. apply leads_of. intros s _. eapply safe_mono; [|by apply inert_lawful]. done. Qed.

Lemma runs_now : runs now (fun t => -62135596800000 <= t < 253402300800000 - 31536000000).
Proof.
  apply leads_of. intros s Hs. apply safe_call. intros c s1 _ H1. apply (law_inv _ _ H1) in Hs as [_ Hclock].
  unfold perform_logged. cbn [perform commands_of]. split; [|by intros s3 _ a [= <-]].
  split; [apply keeps_rows; [done|by rewrite app_nil_r|apply rows_kept_refl]|done|done].
Qed.

(** ** The handlers

    Over a store that keeps the contract, and other components that write no
    link. *)
Context (parseURL : string -> option (string * string)) (app : App).
Context (admits : forall consume c, rateLimiter app = Some consume -> inert (consume c)).
Context (checks : forall v, runs (validateUrl parseURL app v) (fun o => forall u, o = Some u -> P u)).
Context (generates : inert (codeGenerator app)).
Context `{!HonestStore otherDate (App.store app)} `{!ObedientStore otherDate P (App.store app)}.
Context (admitted : forall t, P t -> admissible t) (pending_policed : forall s c link, pending s c link -> P (targetUrl link)).

(** A 201 names a link that is stored or pending, by its code and target. *)
Definition created_as (s : state) (resp : response) : Prop :=
  status resp = 201 -> exists code expires link,
    payload resp = JObject [("code", JString code); ("shortUrl", JString (shortUrl app code));
                            ("targetUrl", JString (targetUrl link)); ("expiresAt", expires)]
    /\ vouched s code link.

Lemma refused_as n h message : n <> 201 -> leads (resolve (failure n h message)) created_as.
Proof. intros Hn. apply leads_done. intros s a [= <-] Hs. by simpl in Hs. Qed.

Lemma store_create_leads input :
  input_ok input -> P (in_targetUrl input) -> leads (store_create (App.store app) input) (fun s o => forall link, o = Some link ->
    vouched s (in_code input) link /\ targetUrl link = in_targetUrl input).
Proof.
  intros Hi Hp. apply leads_of. intros s [Hs _]. apply lawful_both; [|by apply (obedient_create otherDate P)].
  eapply safe_mono; [|apply (honest_create otherDate); auto].
  intros s' [[link|]|e] Hr o; [|by intros [= <-]|done]. intros [= <-] l [= <-]. exact Hr.
Qed.

Lemma allocate_leads n h custom target expires :
  P target -> from_option sql_date True expires ->
  leads (allocate app n h custom target expires) created_as.
Proof.
  intros Hp He. induction n as [|n IH]; cbn [allocate]; [by apply refused_as|].
  apply (runs_then _ _ (fun _ => True)).
  { destruct custom; [by apply runs_done|]. apply runs_catch; [|intros; by apply runs_done].
    eapply runs_bind; [by apply runs_inert|]. intros; by apply runs_done. }
  intros [code|] _; [|by apply refused_as].
  eapply leads_bind; [by apply store_create_leads|]. intros s [link|] Hs Hlink; cbn beta.
  2: { destruct custom; [by apply refused_as|by apply IH]. }
  destruct (Hlink link eq_refl) as [Hv Ht]. cbn [linkInput in_code in_targetUrl] in *.
  apply safe_async_bind; [apply lawful_refl|]. eapply safe_mono; [|eapply (lawfully_framed (fun s => vouched s code link));
    [intros s1 s2; apply law_vouched|eapply (runs_inert (increment "created" 1)); [by apply inert_local|exact Hs]|exact Hv]].
  intros s1 [u|e] [[_ Hs1] Hv1]; [|intros s2 HK; split; [done|by eapply law_inv]].
  intros s2 HK. split; [|by eapply law_inv]. intros resp Hresp _.
  unfold createdResponse in Hresp. destruct (isoOrNull expires) as [iso|]; [|done]. injection Hresp as <-.
  do 3 eexists. rewrite Ht. split; [done|]. by eapply law_vouched.
Qed.

Lemma createLink_leads req : leads (createLink parseURL app req) created_as.
Proof.
  unfold createLink. apply (runs_then _ _ (fun r => forall resp, r = inr resp -> status resp <> 201)).
  { unfold admission. destruct (rateLimiter app) as [consume|] eqn:Hl; [|by apply runs_done; intros ? [= <-]].
    apply runs_catch; [|intros; by apply runs_done; intros ? [= <-] ? [= <-]].
    eapply runs_bind; [by apply runs_inert, admits|]. intros r _. apply runs_done. intros a [= <-] resp.
    by destruct (allowed r); intros [= <-]. }
  intros [h|refusal] Hgate.
  2: { apply leads_done. intros s a [= <-] H201. by destruct (Hgate refusal eq_refl). }
  apply (runs_then _ _ (fun _ => True)); [by apply runs_done|]. intros [] _; [|by apply refused_as].
  unfold createFor. eapply runs_then; [apply checks|]. intros [target|] Ht; [|by apply refused_as].
  specialize (Ht target eq_refl). destruct target as [|ch target]; [by apply refused_as|].
  destruct (body req) as [b|]; [|by apply leads_done].
  destruct (customOf _) as [custom|]; [|by apply refused_as].
  destruct (ttlOf _) as [ttl|] eqn:Httl; [|by apply refused_as].
  apply (runs_then _ _ (from_option sql_date True)).
  { unfold expiryOf. destruct ttl as [ttl|]; [|by apply runs_done; intros a [= <-]].
    eapply runs_bind; [apply runs_now|]. intros t Hr. apply runs_done. intros a [= <-]. simpl. unfold sql_date.
    unfold ttlOf in Httl. destruct (expiresInSeconds b); try done.
    destruct (_ && _) eqn:Hok; [|done]. injection Httl as ->.
    apply andb_true_iff in Hok as [[_ Hlo%Z.leb_le]%andb_true_iff Hhi%Z.leb_le]. cbv beta in Hr. lia. }
  intros expires He. by apply allocate_leads.
Qed.

(** A redirect goes to the target of a link that is stored or pending. *)
Definition redirects_as (c : string) (s : state) (resp : response) : Prop :=
  status resp = 302 -> exists link, vouched s c link /\ headers resp = [("location", targetUrl link)].

Lemma missed_leads c : leads (await_ miss; resolve NOT_FOUND) (redirects_as c).
Proof.
  eapply (runs_then _ _ (fun _ => True)); [by apply runs_inert, inert_local|]. intros _ _.
  apply leads_done. by intros s a [= <-] Hs.
Qed.

Lemma redirectLink_leads c : leads (redirectLink app c) (redirects_as c).
Proof.
  unfold redirectLink. destruct (negb _); [apply missed_leads|].
  apply (leads_bind _ _ (fun s o => forall link, o = Some link -> vouched s c link)).
  { apply leads_of. intros s [Hs _]. apply lawful_both; [|by apply (obedient_find otherDate P)].
    eapply safe_mono; [|by apply (honest_find otherDate)]. intros s' [[link|]|e] Hr o; [|by intros [= <-]|done].
    by intros [= <-] l [= <-]. }
  intros s [link|] Hs Hl; [|by apply missed_leads]. specialize (Hl link eq_refl).
  assert (Hclick : runs (store_recordClick (App.store app) (Link.code link)) (fun _ => True)).
  { apply leads_of. intros s1 [Hs1 _]. apply lawful_both; [|by apply (obedient_recordClick otherDate P)].
    eapply safe_mono; [|by apply (honest_recordClick otherDate)]. done. }
  assert (Hstep : forall (m : async effect unit) (f : unit -> async effect response) s, runs m (fun _ => True) ->
    inv s /\ vouched s c link ->
    (forall s, inv s /\ vouched s c link -> lawfully (f tt) (ends_in (redirects_as c)) s) ->
    lawfully (async_bind m f) (ends_in (redirects_as c)) s).
  { intros m f s1 Hm [H1 Hv] Hf. apply safe_async_bind; [apply lawful_refl|].
    eapply safe_mono; [|apply (lawfully_framed (fun s => vouched s c link)); [intros s2 s3; apply law_vouched|by apply Hm|exact Hv]].
    intros s2 [[]|e] [[_ H2] Hv2]; [by apply Hf|]. intros s3 HK. split; [done|by eapply law_inv]. }
  apply Hstep; [done..|]. intros s1 H1. apply Hstep; [by apply runs_inert, inert_local|done|].
  intros s2 [H2 Hv] s3 HK. split; [|by eapply law_inv]. intros resp [= <-] _. exists link. split; [by eapply law_vouched|done].
Qed.

(** The target of a link that is stored or pending is policed. *)
Lemma vouched_policed s c link : policed otherDate P s -> vouched s c link -> P (targetUrl link).
Proof. intros [Hrows _] [(row & Hrow & ->)|Hp]; [by apply (Hrows c row)|by eapply pending_policed]. Qed.
End Running.

(** ** The wiring of server.ts *)

Lemma consume_inert sha256 self c :
  prefix self = "wraplink:rate:create" -> inert (RateLimiter.consume sha256 self c).
Proof.
  intros Hp. assert (Hkey : forall cmd, command_key cmd = RateLimiter.key sha256 self c -> elsewhere cmd).
  { intros cmd Hc. unfold RateLimiter.key in Hc. rewrite Hp in Hc. split; [intros shard _|intros code]; rewrite Hc.
    - destruct (queue_key_split shard) as [t ->]. intros Heq. by repeat injection Heq as Heq.
    - destruct (link_key_split code) as [t ->]. intros Heq. by repeat injection Heq as Heq. }
  unfold RateLimiter.consume. apply inert_bind; [by apply inert_local|]. intros ready.
  destruct (negb ready); [apply inert_done|]. apply inert_bind.
  - apply inert_redis. unfold CONSUME_RATE_LIMIT.
    repeat first [apply only_entry; intros ? [= <-] | apply only_call; [by apply Hkey|]; intros ? | apply only_as_number; intros ?
      | apply only_tonumber; intros ? | done | case_match | apply only_async_bind; [|intros ?] ].
  - intros result. repeat (case_match; try apply inert_done).
Qed.

(** What the URL policy answers with, for some request and some answers of the
    resolver. *)
Definition let_through (isIP : string -> Z) (parse : string -> option URL) (target : string) : Prop :=
  exists resolver value, UrlPolicy.validate isIP parse resolver value = Some target.

(** The components of [buildApp]. [deferred] is the queueing store of
    write-behind mode, nothing in synchronous mode. *)
Record wired `{Redis} `{Postgres} (otherDate : string -> option Z) (otherNumber : string -> option Z)
    (sha256 : string -> string) (isIP : string -> Z) (parse : string -> option URL)
    (resolver : string -> result (list string)) (self : CachedLinkStore) (deferred : option WriteBehindLinkStore)
    (limiter : RedisRateLimiter) (app : App) : Prop := {
  wired_store : match deferred with
                | None => App.store app = CachedStore.store otherDate otherNumber self
                | Some store => App.store app = WriteBehind.store store
                                /\ synchronous store = CachedStore.store otherDate otherNumber self
                end;
  wired_source : source self = PostgresLinkStore.store;
  wired_ttl : ttl_ok (ttlSeconds self * 1000);
  wired_limiter : rateLimiter app = Some (RateLimiter.consume sha256 limiter);
  wired_prefix : prefix limiter = "wraplink:rate:create";
  wired_policy : urlPolicy app = Some (fun value => lift (Return (UrlPolicy.validate isIP parse resolver value)));
  wired_generator : inert (codeGenerator app)
}.

(** The links that may be cached before they are stored: none in synchronous
    mode, those queued with a policed target in write-behind mode. *)
Definition backlog_of (deferred : option WriteBehindLinkStore) (P : string -> Prop) : Backlog :=
  match deferred with None => no_backlog | Some _ => queue_backlog P end.

(** A link of this code and this target exists: its row is in the table or, in
    write-behind mode, Redis has taken its record for a sync queue. *)
Definition stands (deferred : option WriteBehindLinkStore) (s : state) (code target : string) : Prop :=
  (exists row, Sql.links (db s.1) !! code = Some row /\ target_url row = target)
  \/ deferred <> None /\ exists shard record p, RPUSH (queue_key shard) record ∈ s.2
     /\ serializePendingLink p = Return record /\ p_code p = code /\ p_targetUrl p = target.

(** A sync worker over the Redis queues and the table. *)
Record syncs_queues `{Redis} `{Postgres} (worker : LinkSyncWorker) : Prop := {
  syncs_queue : SyncWorker.queue worker = RedisSyncQueue.queue;
  syncs_sink : sink worker = PostgresLinkStore.insertPendingBatch
}.

Section BacklogOf.
Context `{Postgres} (deferred : option WriteBehindLinkStore) (P : string -> Prop).
Local Instance backlog_there : Backlog := backlog_of deferred P.

Lemma backlog_admits t : P t -> admissible t.
Proof. unfold admissible, backlog_there, backlog_of. by destruct deferred. Qed.

Lemma backlog_policed s c link : pending s c link -> P (targetUrl link).
Proof. unfold pending, backlog_there, backlog_of. destruct deferred; [by intros (_ & ? & _)|done]. Qed.

Lemma vouched_stands s c link : vouched s c link -> stands deferred s c (targetUrl link).
Proof.
  intros [(row & Hrow & ->)|Hp]; [left; by exists row|right].
  unfold pending, backlog_there, backlog_of in Hp. destruct deferred; [|done].
  destruct Hp as (Hc & _ & shard & record & Hin & Hr). split; [done|]. by exists shard, record, (record_of link).
Qed.
End BacklogOf.

Section Wired.
Context `{Redis} `{Postgres} {otherDate otherNumber : string -> option Z} {sha256 : string -> string}.
Context {isIP : string -> Z} {parse : string -> option URL} {resolver : string -> result (list string)}.
Context {self : CachedLinkStore} {deferred : option WriteBehindLinkStore} {limiter : RedisRateLimiter} {app : App}.
Context (Hw : wired otherDate otherNumber sha256 isIP parse resolver self deferred limiter app).

Abbreviation Pol := (let_through isIP parse).
Local Instance backlog_here : Backlog := backlog_of deferred Pol.
Abbreviation law := (lawful otherDate Pol).
Abbreviation lawfully := (safe (fun _ : choice => True) law law).

Lemma wired_honest : HonestStore otherDate (App.store app).
Proof.
  assert (Hc : HonestStore otherDate (CachedStore.store otherDate otherNumber self)).
  { apply cached_honest; [apply Hw|]. rewrite (wired_source _ _ _ _ _ _ _ _ _ _ Hw). apply postgres_honest. }
  pose proof (wired_store _ _ _ _ _ _ _ _ _ _ Hw) as Hs. unfold backlog_here in *. destruct deferred as [wb|]; [|by rewrite Hs].
  destruct Hs as [-> Hs]. apply (write_behind_honest otherDate Pol wb). rewrite Hs. exact Hc.
Qed.

Lemma wired_obedient : ObedientStore otherDate Pol (App.store app).
Proof.
  assert (Hc : ObedientStore otherDate Pol (CachedStore.store otherDate otherNumber self)).
  { apply cached_obedient. rewrite (wired_source _ _ _ _ _ _ _ _ _ _ Hw). apply postgres_obedient. }
  pose proof (wired_store _ _ _ _ _ _ _ _ _ _ Hw) as Hs. destruct deferred as [wb|]; [|by rewrite Hs].
  destruct Hs as [-> Hs]. apply write_behind_obedient. by rewrite Hs.
Qed.

Lemma wired_create parseHref req s : inv otherDate s ->
  lawfully (createLink parseHref app req) (fun s' r => forall resp, r = Return resp -> created_as app s' resp) s.
Proof.
  intros Hs. pose proof wired_honest. pose proof wired_obedient.
  eapply safe_mono; [|apply (createLink_leads otherDate Pol parseHref app); try done].
  - by intros s' r [Hr _].
  - intros consume c. rewrite (wired_limiter _ _ _ _ _ _ _ _ _ _ Hw). intros [= <-]. apply consume_inert, Hw.
  - intros v. unfold validateUrl. rewrite (wired_policy _ _ _ _ _ _ _ _ _ _ Hw). apply runs_done.
    intros a [= <-] u Hu. by exists resolver, v.
  - apply Hw.
  - apply backlog_admits.
Qed.

Lemma wired_redirect code s : inv otherDate s ->
  lawfully (redirectLink app code) (fun s' r => forall resp, r = Return resp -> redirects_as code s' resp) s.
Proof.
  intros Hs. pose proof wired_honest. pose proof wired_obedient.
  eapply safe_mono; [|by apply (redirectLink_leads otherDate Pol app)]. by intros s' r [Hr _].
Qed.

End Wired.

(** C6. No redirect leads where the URL policy would not let it, in either write
    mode. The service runs with the wiring of server.ts: over the cached PostgreSQL
    store, in write-behind mode with the queueing store in front of it, with its
    rate limiter and its URL policy. A state is policed when the targets of the
    table and of the records in the sync queues are among those the policy has let
    through. Whatever fails, and however the effects interleave with those of other
    processes that are lawful (they keep the rows, a truthful cache, a clock in
    range, and a policed state policed): every effect of [POST /api/v1/links], of
    [GET /:code] and of a shard's synchronization by a sync worker is lawful in
    turn, so the state stays policed; and a 302 names nothing but a target the
    policy has let through, also when it is answered from the cache for a link that
    still waits in its queue. *)
Theorem redirects_policed `{Redis} `{Postgres} otherDate otherNumber sha256 isIP parse resolver parseHref
    self deferred limiter app s :
  let P := let_through isIP parse in
  let law := lawful (Bl := backlog_of deferred P) otherDate P in
  wired otherDate otherNumber sha256 isIP parse resolver self deferred limiter app ->
  inv (Bl := backlog_of deferred P) otherDate s -> policed otherDate P s ->
  (forall req, safe (fun _ => True) law law (createLink parseHref app req) (fun s' _ => policed otherDate P s') s)
  /\ (forall code, safe (fun _ => True) law law (redirectLink app code)
     (fun s' r => policed otherDate P s' /\ forall resp, r = Return resp -> status resp = 302 ->
        exists target, headers resp = [("location", target)] /\ P target) s)
  /\ (forall worker shard, syncs_queues worker -> valid_shard shard ->
     safe (fun _ => True) law law (syncShard otherDate worker shard) (fun s' _ => policed otherDate P s') s).
Proof.
  intros P law Hw Hinv Hp.
  assert (Hkept : forall s s', law s s' -> policed otherDate P s -> policed otherDate P s') by (intros s1 s2; apply lawful_policed).
  split_and!.
  - intros req. eapply safe_mono; [|eapply (lawfully_framed _ _ _ _ _ _ Hkept); [by apply (wired_create Hw)|exact Hp]].
    by intros s' r [_ H2].
  - intros code. eapply safe_mono; [|eapply (lawfully_framed _ _ _ _ _ _ Hkept); [by apply (wired_redirect Hw)|exact Hp]].
    intros s' r [Hr Hpol]. split; [done|]. intros resp -> H302. destruct (Hr resp eq_refl H302) as (link & Hv & Hh).
    exists (targetUrl link). split; [done|].
    eapply (vouched_policed (Bl := backlog_of deferred P)); [intros s1 c l; apply backlog_policed|exact Hpol|exact Hv].
  - intros worker shard [Hq Hs] Hshard. by apply syncShard_lawful.
Qed.

(** C7. A created link stands. Under the same wiring, failures and
    interleavings, a 201 names a code, its short URL and a target, and a link of
    that code and target stands: in synchronous mode it is a row of the table; in
    write-behind mode it is a row of the table, or a record that Redis has taken for
    a sync queue. A redirect of a code goes to the target of a link of that code
    that stands in this sense. And in synchronous mode, from any state in which the
    table holds a code, a redirect of this code goes to the target it was created
    with and to no other. *)
Theorem created_links_stand `{Redis} `{Postgres} otherDate otherNumber sha256 isIP parse resolver parseHref
    self deferred limiter app s :
  let P := let_through isIP parse in
  let law := lawful (Bl := backlog_of deferred P) otherDate P in
  wired otherDate otherNumber sha256 isIP parse resolver self deferred limiter app ->
  inv (Bl := backlog_of deferred P) otherDate s ->
  (forall req, safe (fun _ => True) law law (createLink parseHref app req)
     (fun s' r => forall resp, r = Return resp -> status resp = 201 -> exists code target expires,
        payload resp = JObject [("code", JString code); ("shortUrl", JString (shortUrl app code));
                                ("targetUrl", JString target); ("expiresAt", expires)]
        /\ stands deferred s' code target) s)
  /\ (forall code, safe (fun _ => True) law law (redirectLink app code)
     (fun s' r => forall resp, r = Return resp -> status resp = 302 ->
        exists target, headers resp = [("location", target)] /\ stands deferred s' code target) s)
  /\ (deferred = None -> forall code row, Sql.links (db s.1) !! code = Some row ->
     safe (fun _ => True) law law (redirectLink app code)
     (fun _ r => forall resp, r = Return resp -> status resp = 302 ->
        headers resp = [("location", target_url row)]) s).
Proof.
  intros P law Hw Hinv.
  assert (Hred : forall code, safe (fun _ => True) law law (redirectLink app code)
     (fun s' r => forall resp, r = Return resp -> status resp = 302 ->
        exists target, headers resp = [("location", target)] /\ stands deferred s' code target) s).
  { intros code. eapply safe_mono; [|by apply (wired_redirect Hw)]. intros s' r Hr resp -> H302.
    destruct (Hr resp eq_refl H302) as (link & Hv & Hh). exists (targetUrl link). split; [done|]. by eapply vouched_stands. }
  split; [|split; [exact Hred|]].
  - intros req. eapply safe_mono; [|by apply (wired_create Hw)]. intros s' r Hr resp -> H201.
    destruct (Hr resp eq_refl H201) as (code & expires & link & Hpay & Hv). exists code, (targetUrl link), expires.
    split; [done|]. by eapply vouched_stands.
  - intros -> code row Hrow.
    set (F := fun s : state => exists row', Sql.links (db s.1) !! code = Some row' /\ target_url row' = target_url row).
    assert (HF : forall s s', law s s' -> F s -> F s').
    { intros s1 s2 [(Hk & _) _ _] (row1 & Hrow1 & Ht). destruct (Hk _ _ Hrow1) as (row2 & Hrow2 & Hu & _).
      exists row2. split; [done|]. congruence. }
    eapply safe_mono; [|eapply (lawfully_framed _ _ F _ _ _ HF); [by apply (wired_redirect Hw)|by exists row]].
    intros s' r [Hr (row2 & Hrow2 & Ht)] resp -> H302. destruct (Hr resp eq_refl H302) as (link & [(row1 & Hrow1 & ->)|[]] & ->).
    rewrite Hrow1 in Hrow2. injection Hrow2 as ->. simpl. by rewrite Ht.
Qed.

(** ** Witnesses *)
Definition demo_generator `{Redis} `{Postgres} : async effect string :=
  await block <- reserveBlock; lift (Base62.encodeBase62Fixed (BlockAllocator.start block) 9).

Definition demo_store_of `{Redis} `{Postgres} : LinkStore := CachedStore.store no_other_date no_other_date demo_cached.

Definition demo_deferred `{Redis} `{Postgres} : WriteBehindLinkStore :=
  {| synchronous := demo_store_of; maxPendingPerShard := 98 |}.

Definition demo_app `{Redis} `{Postgres} (deferred : option WriteBehindLinkStore) : App :=
  {| baseUrl := "https://wrap.link";
     App.store := match deferred with Some store => WriteBehind.store store | None => demo_store_of end;
     rateLimiter := Some (RateLimiter.consume no_sha demo_limiter); apiKeyAuthenticator := None;
     urlPolicy := Some (fun value => lift (Return (UrlPolicy.validate demo_isIP demo_parse demo_resolve value)));
     codeGenerator := demo_generator; renderMetrics := resolve ""; extraMetrics := None |}.

Definition stored_row : row :=
  {| target_url := "https://example.com/"; created_at := 1709164800000000; expires_at := None; row_clicks := 2 |}.

Definition stored_state : state :=
  (with_db demo_world {| Sql.links := {["docs" := stored_row]}; next_block := 0 |}, []).

(** A link that has been queued, and is in no table yet. *)
Definition waiting_state : state :=
  (with_ks demo_world
     (<[queue_key 210 := {| value := RList [pending_record]; pttl := None |}]>
        {[link_key "docs" := {| value := RHash pending_hash; pttl := None |}]}),
   [RPUSH (queue_key 210) pending_record]).

Abbreviation demo_P := (let_through demo_isIP demo_parse).

Lemma demo_wired `{Redis} `{Postgres} deferred :
  match deferred with Some store => synchronous store = demo_store_of | None => True end ->
  wired no_other_date no_other_date no_sha demo_isIP demo_parse demo_resolve demo_cached deferred demo_limiter (demo_app deferred).
Proof.
  intros Hd. split; try done; [by destruct deferred|].
  apply inert_bind; [apply reserveBlock_inert|]. intros block. apply inert_done.
Qed.

Lemma example_let_through : demo_P "https://example.com/".
Proof. exists demo_resolve, (Text "https://example.com/"). by vm_compute. Qed.

Lemma stored_inv `{Redis} `{Postgres} : inv (Bl := backlog_of None demo_P) no_other_date stored_state.
Proof.
  split; [|by vm_compute]. intros c h link. unfold hash_at. simpl. rewrite lookup_empty. intros [= <-].
  by rewrite identity_empty.
Qed.

Lemma stored_policed : policed no_other_date demo_P stored_state.
Proof.
  split.
  - intros c r. cbn [stored_state fst with_db db Sql.links]. intros [<- <-]%lookup_singleton_Some. apply example_let_through.
  - intros shard x p _. unfold queue_of, list_at. simpl. rewrite lookup_empty. by intros ?%elem_of_nil.
Qed.

Lemma waiting_inv `{Redis} `{Postgres} : inv (Bl := queue_backlog demo_P) no_other_date waiting_state.
Proof.
  split; [|by vm_compute]. intros c h link Hh Hi. right. unfold hash_at in Hh. cbn [waiting_state fst with_ks ks] in Hh.
  rewrite lookup_insert_ne in Hh by auto with wraplink.
  destruct (decide (link_key "docs" = link_key c)) as [<-%link_key_inj|Hne].
  - rewrite lookup_singleton_eq in Hh. injection Hh as <-.
    assert (link = pending_link) as -> by (vm_compute in Hi; by injection Hi).
    split_and!; [done|apply example_let_through|]. exists 210, pending_record. split; [by left|]. by vm_compute.
  - rewrite lookup_singleton_ne in Hh by done. injection Hh as <-. by rewrite identity_empty in Hi.
Qed.

Lemma waiting_policed : policed no_other_date demo_P waiting_state.
Proof.
  split; [intros c r; simpl; by rewrite lookup_empty|].
  intros shard x p Hs Hx Hp. unfold queue_of, list_at in Hx. cbn [waiting_state fst with_ks ks] in Hx.
  change (key_of "sync:queue" shard) with (queue_key shard) in Hx.
  destruct (decide (queue_key 210 = queue_key shard)) as [He|Hne].
  - rewrite <- He, lookup_insert_eq in Hx. cbn [fmap option_fmap option_map value] in Hx. apply list_elem_of_singleton in Hx as ->.
    vm_compute in Hp. injection Hp as <-. apply example_let_through.
  - rewrite lookup_insert_ne in Hx by done. rewrite lookup_singleton_ne in Hx by auto with wraplink.
    by apply elem_of_nil in Hx.
Qed.

Definition demo_parseHref (s : string) : option (string * string) := Some ("https:", s).

Definition demo_mode (b : bool) : option WriteBehindLinkStore :=
  if b then Some (@demo_deferred reference_redis reference_postgres) else None.

Abbreviation demo_law := (fun b => @lawful reference_postgres (backlog_of (demo_mode b) demo_P) no_other_date demo_P).
Abbreviation demo_redirect := (fun b => redirectLink (@demo_app reference_redis reference_postgres (demo_mode b)) "docs").

(** The redirect of a stored link in synchronous mode, and of a waiting one in
    write-behind mode. *)
Lemma redirects_policed_witness :
  @safe reference_redis reference_postgres (fun _ => True) (demo_law false) (demo_law false) _ (demo_redirect false)
    (fun s' r => policed no_other_date demo_P s' /\ forall resp, r = Return resp -> status resp = 302 ->
       exists target, headers resp = [("location", target)] /\ demo_P target) stored_state
  /\ @safe reference_redis reference_postgres (fun _ => True) (demo_law true) (demo_law true) _ (demo_redirect true)
    (fun s' r => policed no_other_date demo_P s' /\ forall resp, r = Return resp -> status resp = 302 ->
       exists target, headers resp = [("location", target)] /\ demo_P target) waiting_state.
Proof.
  split.
  - exact (proj1 (proj2 (@redirects_policed reference_redis reference_postgres _ _ _ _ _ _ demo_parseHref _ None _ _ stored_state
      (@demo_wired reference_redis reference_postgres None I) (@stored_inv reference_redis reference_postgres) stored_policed)) "docs").
  - exact (proj1 (proj2 (@redirects_policed reference_redis reference_postgres _ _ _ _ _ _ demo_parseHref _ (demo_mode true) _ _ waiting_state
      (@demo_wired reference_redis reference_postgres (demo_mode true) eq_refl)
      (@waiting_inv reference_redis reference_postgres) waiting_policed)) "docs").
Defined.

Lemma created_links_stand_witness :
  @safe reference_redis reference_postgres (fun _ => True) (demo_law false) (demo_law false) _ (demo_redirect false)
    (fun _ r => forall resp, r = Return resp -> status resp = 302 ->
       headers resp = [("location", "https://example.com/")]) stored_state
  /\ @safe reference_redis reference_postgres (fun _ => True) (demo_law true) (demo_law true) _ (demo_redirect true)
    (fun s' r => forall resp, r = Return resp -> status resp = 302 ->
       exists target, headers resp = [("location", target)] /\ stands (demo_mode true) s' "docs" target) waiting_state.
Proof.
  split.
  - refine (proj2 (proj2 (@created_links_stand reference_redis reference_postgres _ _ _ _ _ _ demo_parseHref _ None _ _ stored_state
      (@demo_wired reference_redis reference_postgres None I) (@stored_inv reference_redis reference_postgres)))
      eq_refl "docs" stored_row _). reflexivity.
  - exact (proj1 (proj2 (@created_links_stand reference_redis reference_postgres _ _ _ _ _ _ demo_parseHref _ (demo_mode true) _ _ waiting_state
      (@demo_wired reference_redis reference_postgres (demo_mode true) eq_refl)
      (@waiting_inv reference_redis reference_postgres))) "docs").
Defined.
