(* ===== verification/Clients.v ===== *)
(** * The clients of the servers

    How src/src/cache/redis-client.ts and src/src/database/pool.ts set up the
    clients of Redis and PostgreSQL; the clients themselves are libraries. *)
From S2P Require Import Prelude Config.
Open Scope Z_scope.

(** ** Redis *)

(** What node-redis is told after a failed attempt to connect: wait, or stop. *)
Inductive reconnection : Type :=
  | Wait (ms : Z)
  | Stop (message : string).

Definition reconnectStrategy (retries : Z) : reconnection :=
  if 5 <=? retries then Stop "Redis reconnection limit reached" else Wait (Z.min (retries * 50) 1000).

Record socket : Type := { connectTimeout : Z; strategy : Z -> reconnection }.

Definition SOCKET : socket := {| connectTimeout := 5000; strategy := reconnectStrategy |}.

Inductive RedisClient : Type :=
  | ClusterClient (rootNodes : list string) (useReplicas : bool) (defaults : socket)
  | SingleClient (url : string) (options : socket).

Definition createRedisClient (redisUrl : string) (redisClusterUrls : list string) (redisClusterUseReplicas : option bool) : RedisClient :=
  if (0 <? List.length redisClusterUrls)%nat
  then ClusterClient redisClusterUrls (default false redisClusterUseReplicas) SOCKET
  else SingleClient redisUrl SOCKET.

(** ** PostgreSQL *)

Record Pool : Type := { connectionString : string; max : Z; connectionTimeoutMillis : Z; idleTimeoutMillis : Z }.

Definition createDatabasePool (databaseUrl : string) (databasePoolMax : Z) : Pool :=
  {| connectionString := databaseUrl; max := databasePoolMax; connectionTimeoutMillis := 5000; idleTimeoutMillis := 30000 |}.

(** ** What they amount to *)

(** The waits of a connection that never comes about, [fuel] attempts at most. *)
Fixpoint waits (fuel : nat) (retries : Z) : list Z :=
  match fuel, reconnectStrategy retries with
  | S fuel, Wait ms => ms :: waits fuel (retries + 1)
  | _, _ => []
  end.

(** It is given up after five attempts and half a second of waiting; the cap of a
    second is never reached. *)
Lemma gives_up fuel : (5 <= fuel)%nat -> waits fuel 0 = [0; 50; 100; 150; 200].
Proof. intros Hf. do 5 (destruct fuel as [|fuel]; [lia|]). by destruct fuel. Qed.

Lemma waits_at_most retries ms : 0 <= retries -> reconnectStrategy retries = Wait ms -> 0 <= ms <= 200.
Proof. intros Hr. unfold reconnectStrategy. destruct (Z.leb_spec 5 retries); [done|]. intros [= <-]. lia. Qed.

(** The clients of the server, and those of the jobs (the sync job's pool holds 10
    connections, the warm-up job's 4). *)
Definition server_clients (config : AppConfig) : Pool * RedisClient :=
  (createDatabasePool (databaseUrl config) (databasePoolMax config),
   createRedisClient (redisUrl config) (redisClusterUrls config) (Some (redisClusterUseReplicas config))).

Definition job_clients (env : JobEnv) (databasePoolMax : Z) : Pool * RedisClient :=
  (createDatabasePool (job_databaseUrl env) databasePoolMax, createRedisClient (job_redisUrl env) (job_redisClusterUrls env) None).

Definition nodes (c : RedisClient) : list string :=
  match c with ClusterClient rootNodes _ _ => rootNodes | SingleClient url _ => [url] end.

(** In the environment of a server the jobs work on its database and its Redis. *)
Lemma same_servers env config n :
  loadConfig env = Return config ->
  connectionString (job_clients (loadJobEnv env) n).1 = connectionString (server_clients config).1
  /\ nodes (job_clients (loadJobEnv env) n).2 = nodes (server_clients config).2.
Proof.
  intros Hload. rewrite (job_settings env config Hload). split; [done|]. cbn. unfold createRedisClient. by case_match.
Qed.
