(* ===== verification/SyncJob.v ===== *)
(** * All the shards of a worker, and the sync job

    A tick of [LinkSyncWorker] synchronizes all its shards on a bounded number
    of lanes (SyncWorker.v, Parallel.v). Whatever order the event loop takes
    their effects in, the shards do not get in each other's way, so that a tick
    empties every queue nobody else touches; src/src/jobs/sync-links.ts does so
    for all of them. *)
From S2P Require Import Prelude JsNum JsString JsMap Keys Link Async Redis Sql World Interleave PostgresStore.
From S2P Require Import SyncQueue Parallel SyncWorker Durability Draining Footprint Config.
Open Scope Z_scope.

Lemma drain_loop_S tick k n total :
  drain_loop tick k (S n) total
  = (await result <- tick k;
     if synced result + conflicted result + poison result =? 0 then resolve (addResult total result)
     else drain_loop tick (S k) n (addResult total result)).
Proof. done. Qed.

(** ** Ticks *)
Section Ticks.
Context (otherDate : string -> option Z).

(** [m] is [processShards] of a worker, for one order of the effects of its
    shards; [uuids] are the answers of [randomUUID()]. *)
Definition ticks (uuids : nat -> string) (self : LinkSyncWorker) (m : async effect SyncResult) : Prop :=
  exists mapped,
    map_tasks (concurrency self) (List.length (shards (options self))) (shardTask otherDate self) uuids mapped
    /\ m = processShards self mapped.

(** One of them: a shard after the other. *)
Definition tick_in_turn (uuids : nat -> string) (self : LinkSyncWorker) : async effect SyncResult :=
  processShards self
    (sequentially (concurrency self) (List.length (shards (options self))) (shardTask otherDate self) uuids).

Lemma tick_in_turn_ticks uuids self : ticks uuids self (tick_in_turn uuids self).
Proof. eexists. split; [apply sequentially_map_tasks|done]. Qed.

Context `{Redis} `{Postgres}.

(** *** One shard among others *)

(** What the rest of the program may do while [token] works on [shard]. *)
Definition elsewhere (token : string) (shard : Z) (s s' : state) : Prop :=
  others otherDate token s s' /\ undisturbed shard s s'.

Definition shard_ready (self : LinkSyncWorker) (q : list string) : Prop :=
  Forall (fine_entry otherDate) q
  /\ Z.of_nat (List.length q) <= Z.max 0 (maxBatchesPerShard self) * batchSize (options self).

Lemma syncShard_together token shard self q s :
  valid_shard shard -> ready_worker self -> shard_ready self q -> consistent otherDate s -> shard_state shard q None s ->
  safe (responsive token) (elsewhere token shard) (fun a b => own otherDate token a b /\ leaves_others shard a b)
    (syncShard otherDate self shard)
    (fun s' r => returns r /\ consistent otherDate s' /\ shard_state shard [] None s') s.
Proof.
  intros Hsh [Hqueue Hsink Hbatch Hlock Httl] [Hfine Hlen] Hcons Hs.
  pose proof (shard_calm otherDate token shard Hsh self Hqueue Hsink Hbatch Hlock Httl q s Hfine Hlen Hs) as Hcalm.
  pose proof (safe_consistent otherDate token _ _ s
    (syncShard_safe otherDate token shard Hsh self Hqueue Hsink Hbatch Hlock s Hcons) Hcons) as Hsafe.
  pose proof (syncShard_leaves otherDate shard Hsh self Hqueue Hsink (mine token) (others otherDate token) s) as Hleaves.
  pose proof (safe_both (mine token) (mine token) (mine token) (others otherDate token) _ _ _ _ _ _ _ _
    (fun c Hc => conj Hc Hc) (fun a b Hab => conj Hab Hab) Hsafe Hleaves) as Hboth.
  eapply safe_guar; [|eapply safe_mono; [|eapply (safe_both _ _ _ (elsewhere token shard)); [| |exact Hboth|exact Hcalm]]].
  - intros a b [[Ho Hl] _]. by split.
  - intros s' r [[[_ Hc] _] (counts & -> & Hdone)]. split; [by exists counts|]. by split.
  - intros c [Hd Hu]. split; [exact Hu|by split].
  - intros a b [Ha Hb]. by split.
Qed.

(** *** All of them *)

(** Redis is up, and calls are answered. *)
Definition answered (c : choice) : Prop := c_fate c = Delivered /\ c_ready c = true.

(** The others leave all the queues and locks of the worker alone. *)
Definition quiet_queues (which : list Z) (s s' : state) : Prop :=
  everyone otherDate s s' /\ forall shard, shard ∈ which -> undisturbed shard s s'.

(** What the tick does meanwhile. *)
Definition keeps_account : state -> state -> Prop := moves otherDate (fun _ => False).

Definition all_ready (self : LinkSyncWorker) (queues : Z -> list string) (s : state) : Prop :=
  consistent otherDate s
  /\ forall shard, shard ∈ shards (options self) ->
     shard_ready self (queues shard) /\ shard_state shard (queues shard) None s.

Definition all_drained (which : list Z) (s : state) : Prop :=
  consistent otherDate s /\ forall shard, shard ∈ which -> shard_state shard [] None s.

Lemma mapped_drains uuids self queues mapped s :
  ready_worker self -> 1 <= concurrency self -> Inj (=) (=) uuids ->
  NoDup (shards (options self)) -> Forall valid_shard (shards (options self)) ->
  map_tasks (concurrency self) (List.length (shards (options self))) (shardTask otherDate self) uuids mapped ->
  all_ready self queues s ->
  safe answered (quiet_queues (shards (options self))) keeps_account mapped
    (fun s' rs => all_drained (shards (options self)) s') s.
Proof.
  intros Hself Hconc Hinj Hnd Hvalid Hm [Hcons Hready]. set (which := shards (options self)) in *.
  set (shard_at := fun i => default 0 (which !! i)).
  assert (Hat : forall i, (i < List.length which)%nat -> which !! i = Some (shard_at i) /\ shard_at i ∈ which).
  { intros i Hi. unfold shard_at. destruct (lookup_lt_is_Some_2 which i Hi) as [sh Hsh]. rewrite Hsh. cbn.
    split; [done|]. by eapply list_elem_of_lookup_2. }
  assert (Hfrom : forall shard, shard ∈ which -> exists i, (i < List.length which)%nat /\ shard = shard_at i).
  { intros shard [i Hi]%list_elem_of_lookup. exists i. split; [by eapply lookup_lt_Some|]. unfold shard_at. by rewrite Hi. }
  set (Rs := fun i => elsewhere (uuids i) (shard_at i)).
  set (Gs := fun i a b => own otherDate (uuids i) a b /\ leaves_others (shard_at i) a b).
  set (P := fun i s => consistent otherDate s /\ shard_state (shard_at i) (queues (shard_at i)) None s).
  set (Q := fun i s (r : result SyncResult) => returns r /\ consistent otherDate s /\ shard_state (shard_at i) [] None s).
  assert (Hstable : forall i q a b, Rs i a b -> consistent otherDate a /\ shard_state (shard_at i) q None a ->
    consistent otherDate b /\ shard_state (shard_at i) q None b).
  { intros i q a b [Ho Hu] [Hc Hs]. split; [by eapply others_consistent|by apply Hu]. }
  assert (Hmapped : safe answered (quiet_queues which) keeps_account mapped (all_done (List.length which) Q) s).
  { apply (map_tasks_safe (concurrency self) (List.length which) (shardTask otherDate self) uuids Hconc answered smooth
      (conj eq_refl eq_refl) ltac:(done) _ _ Rs Gs P Q); try exact Hm.
    + intros i a b Hi [Heveryone Hquiet]. split; [eapply moves_weaken; [|exact Heveryone]; done|apply Hquiet, Hat, Hi].
    + intros i a. split; [apply others_refl|apply undisturbed_refl].
    + intros i a b c [Ho1 Hu1] [Ho2 Hu2]. split; [by eapply others_trans|by eapply undisturbed_trans].
    + intros i j a b Hi Hj Hne [Hown Hleave]. split.
      * eapply moves_weaken; [|exact Hown]. simpl. intros t ->. intros He. apply Hne. symmetry. by apply Hinj.
      * apply Hleave; [by eapply Forall_forall; [exact Hvalid|apply Hat]|]. intros He. apply Hne.
        destruct (Hat i Hi) as [Hi' _], (Hat j Hj) as [Hj' _]. rewrite He in Hj'. by eapply NoDup_lookup.
    + intros i a b _ [Hown _]. eapply moves_weaken; [|exact Hown]. done.
    + intros i. apply Hstable.
    + intros i r a b HR (Hr & Hca). split; [done|]. by eapply Hstable.
    + intros i a Hi [Hc Hs]. destruct (Hat i Hi) as [Hi' Hin]. unfold shardTask. fold which. rewrite Hi'.
      eapply safe_choices; [|apply (syncShard_together (uuids i) (shard_at i) self (queues (shard_at i)) a)]; try done.
      * by intros c [[? _] ?].
      * by eapply Forall_forall; [exact Hvalid|].
      * by apply Hready.
    + intros i Hi. split; [exact Hcons|]. by apply Hready, Hat. }
  eapply safe_mono; [|apply (safe_frame _ _ _ (consistent otherDate)); [|eapply safe_guar; [|exact Hmapped]|exact Hcons]].
  - intros s' rs [[_ Hdone] Hc]. split; [exact Hc|]. intros shard (i & Hi & ->)%Hfrom.
    by destruct (Hdone i Hi) as (r & _ & _ & _ & Hs).
  - intros a b [(_ & _ & Hc & _) _]. exact Hc.
  - intros a b Hk. split; [exact Hk|apply Hk].
Qed.
(** *** Programs on quiet queues *)
Section Quiet.
Context (which : list Z) (Hwhich : Forall valid_shard which).

Lemma queues_quiet_trans a b c : quiet_queues which a b -> quiet_queues which b c -> quiet_queues which a c.
Proof.
  intros [Ha Hua] [Hb Hub]. split; [by eapply moves_trans|]. intros shard Hin. eapply undisturbed_trans; eauto.
Qed.

Lemma queues_quiet_refl s : quiet_queues which s s.
Proof. split; [apply moves_refl|]. intros. apply undisturbed_refl. Qed.

(** The program returns, with [P]. *)
Definition quietly {A} (m : async effect A) (P : A -> state -> Prop) (s : state) : Prop :=
  safe answered (quiet_queues which) keeps_account m (fun s' r => exists a, r = Return a /\ P a s') s.

Lemma quietly_bind {A B} (m : async effect A) (f : A -> async effect B) P Q s :
  quietly m P s -> (forall a s', P a s' -> quietly (f a) Q s') -> quietly (async_bind m f) Q s.
Proof.
  intros Hm Hf. apply safe_async_bind; [apply queues_quiet_refl|]. eapply safe_mono; [|exact Hm].
  intros s' r (a & -> & Ha). by apply Hf.
Qed.

Lemma quietly_resolve {A} (a : A) (P : A -> state -> Prop) s :
  (forall s', quiet_queues which s s' -> P a s') -> quietly (resolve a) P s.
Proof. intros HP s' Hs. exists a. split; [done|by apply HP]. Qed.

(** The queues, and the account of their records. *)
Definition queues_are (queues : Z -> list string) (s : state) : Prop :=
  consistent otherDate s /\ forall shard, shard ∈ which -> shard_state shard (queues shard) None s.

Lemma queues_stable queues s s' : quiet_queues which s s' -> queues_are queues s -> queues_are queues s'.
Proof. intros [(_ & _ & Hc & _) Hu] [Hcons Hq]. split; [auto|]. intros shard Hin. by apply Hu, Hq. Qed.

(** A call that changes nothing here. *)
Lemma quietly_still {X} (e : effect X) (P : X -> Prop) queues s :
  queues_are queues s ->
  (forall c s1, answered c -> queues_are queues s1 ->
     let '(s2, r) := perform_logged c e s1 in
     ks s2.1 = ks s1.1 /\ clock s2.1 = clock s1.1 /\ keeps_account s1 s2 /\ exists a, r = Return a /\ P a) ->
  quietly (call e) (fun a s' => P a /\ queues_are queues s') s.
Proof.
  intros Hs He. apply safe_call. intros c s1 Hc H1. apply (queues_stable _ _ _ H1) in Hs. specialize (He c s1 Hc Hs).
  destruct (perform_logged c e s1) as [s2 r]. destruct He as (Hk & Hcl & Hg & a & -> & Ha). split; [done|].
  intros s3 H3. exists a. split; [done|]. split; [done|]. apply (queues_stable _ _ _ H3).
  destruct Hs as [Hcons Hq]. split; [by apply Hg|]. intros shard Hin. destruct (Hq shard Hin) as [Hkeys Hclock].
  split; [by rewrite Hk|by rewrite Hcl].
Qed.

Lemma quietly_local {X} (e : effect X) (P : X -> Prop) queues s :
  is_local e = true -> queues_are queues s ->
  (forall c w, answered c -> exists a, (perform c X e w).2 = Return a /\ P a) ->
  quietly (call e) (fun a s' => P a /\ queues_are queues s') s.
Proof.
  intros He Hs HP. apply quietly_still; [done|]. intros c s1 Hc _. unfold perform_logged.
  destruct (perform_local c e s1.1 He) as [Hk Hdb]. pose proof (perform_clock c e s1.1) as Hcl. specialize (HP c s1.1 Hc).
  assert (Hcs : commands_of c e s1.1 = []) by by destruct e.
  rewrite Hcs, app_nil_r. destruct (perform c X e s1.1) as [w r]. simpl in *. split_and!; [done|done| |done].
  apply moves_quiet. split; [done|]. split; [done|]. exists []. rewrite app_nil_r. split; [done|]. intros. apply not_elem_of_nil.
Qed.

Lemma length_quiet shard queues s :
  shard ∈ which -> queues_are queues s ->
  quietly (RedisSyncQueue.length shard)
    (fun n s' => n = Z.of_nat (List.length (queues shard)) /\ queues_are queues s') s.
Proof.
  intros Hin Hs. assert (Hvalid : valid_shard shard) by (by eapply Forall_forall).
  unfold RedisSyncQueue.length. rewrite syncQueueKey_eq by done. fold (queue_key shard).
  apply (quietly_still _ (fun n => n = Z.of_nat (List.length (queues shard)))); [done|].
  intros c s1 [Hd _] [_ Hq]. destruct (Hq shard Hin) as [Hkeys _].
  rewrite perform_redis, logged_call, execute_LLEN, (sk_queue _ _ _ _ Hkeys) by done. unfold answer, as_number.
  rewrite logged_resolve. split_and!; [done|done| |by eexists]. apply moves_quiet, quiet_after. set_solver.
Qed.

Lemma backlog_quiet queues some s :
  Forall (fun shard => shard ∈ which) some -> queues_are queues s ->
  quietly (syncBacklog RedisSyncQueue.queue some)
    (fun n s' => n = backlog ((fun shard => Z.of_nat (List.length (queues shard))) <$> some) /\ queues_are queues s') s.
Proof.
  intros Hsome Hs. unfold syncBacklog.
  apply (quietly_bind _ _ (fun ns s' => ns = (fun shard => Z.of_nat (List.length (queues shard))) <$> some /\ queues_are queues s')).
  - revert s Hs; induction Hsome as [|shard some Hin _ IH]; intros s Hs; cbn [fmap list_fmap promise_all].
    { apply quietly_resolve. intros s' Hq. split; [done|by eapply queues_stable]. }
    apply safe_bind; [apply queues_quiet_refl|]. eapply safe_mono; [|by apply (length_quiet shard)].
    intros s1 r (n & -> & -> & Hs1). apply safe_bind; [apply queues_quiet_refl|]. eapply safe_mono; [|by apply IH].
    intros s2 r (ns & -> & -> & Hs2) s3 Hq. eexists. split; [done|]. split; [done|by eapply queues_stable].
  - intros ns s1 [-> Hs1]. apply quietly_resolve. intros s2 Hq. split; [done|by eapply queues_stable].
Qed.
End Quiet.

(** *** A tick, and [drain] *)
Section Worker.
Context (self : LinkSyncWorker) (Hself : ready_worker self) (Hconc : 1 <= concurrency self).
Context (Hnd : NoDup (shards (options self))) (Hvalid : Forall valid_shard (shards (options self))).
Context (Havailable : isAvailable (options self) = None \/ isAvailable (options self) = Some isReady).

Abbreviation mine := (shards (options self)).

Definition all_fit (queues : Z -> list string) : Prop := forall shard, shard ∈ mine -> shard_ready self (queues shard).

Lemma tick_quiet uuids m queues s :
  ticks uuids self m -> Inj (=) (=) uuids -> all_fit queues -> queues_are mine queues s ->
  quietly mine m (fun _ s' => queues_are mine (fun _ => []) s') s.
Proof.
  intros (mapped & Hm & ->) Hinj Hfit Hs. unfold processShards.
  apply (quietly_bind _ _ _ (fun b s' => b = true /\ queues_are mine queues s')).
  - destruct Havailable as [->| ->].
    + apply quietly_resolve. intros s' Hq. split; [done|by eapply queues_stable].
    + apply (quietly_local _ _ (fun b => b = true)); [done|done|]. intros c w [_ Hr]. eexists. split; [done|exact Hr].
  - intros b s1 [-> Hs1]. cbn [negb]. apply safe_bind; [apply queues_quiet_refl|].
    eapply safe_mono; [|eapply (mapped_drains uuids self queues); try done; destruct Hs1 as [Hc Hq]; split; auto].
    intros s2 rs Hs2. cbv zeta. set (n := Z.of_nat _).
    apply (quietly_bind _ _ _ (fun _ s' => queues_are mine (fun _ => []) s')).
    + destruct (0 <? n).
      * eapply safe_mono; [|apply (quietly_local _ _ (fun _ => True) (fun _ => [])); [done|exact Hs2|by intros; eexists]].
        intros s3 r (a & -> & _ & Hs3). by exists a.
      * apply quietly_resolve. intros s' Hq. by eapply queues_stable.
    + intros _ s3 Hs3. apply quietly_resolve. intros s' Hq. by eapply queues_stable.
Qed.

Lemma empty_fit : all_fit (fun _ => []).
Proof. intros shard _. split; [constructor|]. destruct Hself as [_ _ Hb _ _]. simpl. nia. Qed.

Lemma drain_quiet uuids tick n k queues total s :
  (forall i, ticks (uuids i) self (tick i)) -> (forall i, Inj (=) (=) (uuids i)) ->
  all_fit queues -> queues_are mine queues s ->
  quietly mine (drain_loop tick k (S n) total) (fun _ s' => queues_are mine (fun _ => []) s') s.
Proof.
  intros Ht Hu. revert k queues total s; induction n as [|n IH]; intros k queues total s Hfit Hs; rewrite drain_loop_S;
    (eapply quietly_bind; [by eapply (tick_quiet (uuids k))|]); intros r s1 Hs1; cbv zeta;
    (destruct (_ =? 0); [apply quietly_resolve; intros s' Hq; by eapply queues_stable|]).
  - apply quietly_resolve. intros s' Hq. by eapply queues_stable.
  - apply (IH _ (fun _ => [])); [apply empty_fit|done].
Qed.
End Worker.
End Ticks.

(** ** The job *)

(** What it prints. *)
Inductive SyncOutput : Type :=
  | Synced (before : Z) (result : SyncResult) (after : Z)
  | Letters (shown : list (string * Z * list string)) (total : Z).

(** The loop of [--dead-letters]. *)
Fixpoint listDeadLetters (shards : list Z) (shown : list (string * Z * list string)) (total : Z) : async effect SyncOutput :=
  match shards with
  | [] => resolve (Letters shown total)
  | shard :: shards =>
      await key <- lift (syncDeadLetterKey shard);
      await length <- redis_eval (local reply <- LLEN key; as_number reply);
      if length =? 0 then listDeadLetters shards shown total
      else
        await entries <- redis_eval (local reply <- LRANGE key 0 4; RedisSyncQueue.as_elements reply);
        listDeadLetters shards (shown ++ [(key, length, entries)]) (total + length)
  end.

Definition jobOptions (shards : list Z) (batchSize cacheTtlSeconds : Z) : LinkSyncOptions :=
  {| shards := shards; intervalMs := 1000; batchSize := batchSize; opt_cacheTtlSeconds := cacheTtlSeconds;
     opt_lockTtlMs := None; opt_maxBatchesPerShard := Some 1000; opt_concurrency := None; isAvailable := None |}.

(** [tick worker n] is the worker's [n]th tick. *)
Definition syncLinks (env : string -> option string) (argv : list string)
    (tick : LinkSyncWorker -> nat -> async effect SyncResult) : async effect SyncOutput :=
  let args := parseArgs argv in
  await_ pg SelectOne;
  await shards <- lift allShards;
  if bool_decide (is_Some (get args "dead-letters")) then listDeadLetters shards [] 0
  else
    await before <- syncBacklog RedisSyncQueue.queue shards;
    await batchSize <- lift (positiveIntegerArg args "batch" 2000 false);
    await worker <- lift (SyncWorker.new RedisSyncQueue.queue PostgresLinkStore.insertPendingBatch
                            (jobOptions shards batchSize (job_redisCacheTtlSeconds (loadJobEnv env))));
    await result <- drain (tick worker) 1000000;
    await after <- syncBacklog RedisSyncQueue.queue shards;
    resolve (Synced before result after).

(** ** Properties *)

(** A worker whose shards are its own: what [new] and [shardsForWorker] build. *)
Record lone_worker (self : LinkSyncWorker) : Prop := {
  lw_ready : ready_worker self;
  lw_concurrency : 1 <= concurrency self;
  lw_distinct : NoDup (shards (options self));
  lw_valid : Forall valid_shard (shards (options self));
  lw_available : isAvailable (options self) = None \/ isAvailable (options self) = Some isReady
}.

Lemma backlog_total (queues : Z -> list string) all :
  backlog ((fun shard => Z.of_nat (List.length (queues shard))) <$> all) = Z.of_nat (List.length (concat (queues <$> all))).
Proof.
  assert (Hsum : forall l acc, fold_left Z.add l acc = acc + fold_left Z.add l 0).
  { induction l as [|x l IH]; intros acc; cbn [fold_left]; [lia|]. rewrite IH, (IH (0 + x)). lia. }
  unfold backlog. induction all as [|x all IH]; [done|]. cbn [fmap list_fmap fold_left concat]. rewrite Hsum, length_app, IH. lia.
Qed.

Section Jobs.
Context `{Redis} `{Postgres} (otherDate : string -> option Z).

(** Every record ever queued on these shards is settled. *)
Definition all_settled (which : list Z) (s : state) : Prop :=
  forall shard x, shard ∈ which -> RPUSH (queue_key shard) x ∈ s.2 -> settled otherDate s shard x.

Lemma drained_settled which s :
  Forall valid_shard which -> queues_are otherDate which (fun _ => []) s -> all_settled which s.
Proof.
  intros Hvalid [Hcons Hq] shard x Hin Hx. rewrite Forall_forall in Hvalid.
  destruct (all_accounted _ _ Hcons shard x (Hvalid _ Hin) Hx) as [Hq'|]; [|done]. exfalso. revert Hq'. unfold queue_of.
  rewrite (sk_queue _ _ _ _ (ss_keys _ _ _ _ (Hq shard Hin))). apply not_elem_of_nil.
Qed.

(** *** The worker of the job *)

Lemma allShards_all :
  exists all, allShards = Return all /\ NoDup all /\ forall shard, shard ∈ all <-> valid_shard shard.
Proof.
  destruct (shards_owned 1 0) as (all & Ha & Hnd & Hel).
  { unfold worker_ok, MAX_SAFE_INTEGER. lia. }
  exists all. split; [exact Ha|]. split; [exact Hnd|]. intros shard. rewrite Hel, Z.mod_1_r. unfold valid_shard. tauto.
Qed.

Lemma safe_checked n : 0 < n <= MAX_SAFE_INTEGER -> negb (isSafeInteger n) || (n <? 1) = false.
Proof.
  intros Hn. unfold isSafeInteger, MAX_SAFE_INTEGER in *. rewrite orb_false_iff, negb_false_iff, andb_true_iff, !Z.leb_le, Z.ltb_ge. lia.
Qed.

Lemma job_worker env batch all :
  allShards = Return all -> 0 < batch <= MAX_SAFE_INTEGER ->
  exists worker,
    SyncWorker.new RedisSyncQueue.queue PostgresLinkStore.insertPendingBatch
      (jobOptions all batch (job_redisCacheTtlSeconds (loadJobEnv env))) = Return worker
    /\ lone_worker worker /\ shards (options worker) = all /\ batchSize (options worker) = batch
    /\ maxBatchesPerShard worker = 1000.
Proof.
  intros Hall Hb. pose proof (job_ttl env) as Ht. unfold positive_safe in Ht.
  destruct allShards_all as (all' & Hall' & Hnd & Hel). rewrite Hall in Hall'. injection Hall' as <-.
  unfold SyncWorker.new. cbn [check_positive jobOptions intervalMs batchSize opt_cacheTtlSeconds].
  set (ttl := job_redisCacheTtlSeconds (loadJobEnv env)) in *. clearbody ttl. unfold MAX_SAFE_INTEGER in *.
  rewrite (safe_checked 1000), (safe_checked batch), (safe_checked ttl) by (unfold MAX_SAFE_INTEGER; lia).
  cbn [result_bind]. eexists. split; [done|]. split; [|done]. split; cbn; try done.
  - split; cbn; unfold ttl_ok; done || lia.
  - apply Forall_forall. intros shard. apply Hel.
  - by left.
Qed.

(** *** Dead letters *)

(** The dead letters of every shard, and what the others leave alone of them. *)
Definition letters_are (letters : Z -> list string) (s : state) : Prop :=
  forall shard, valid_shard shard -> list_at (ks s.1) (dead_key shard) = Return (letters shard).

Definition letters_kept (s s' : state) : Prop := forall letters, letters_are letters s -> letters_are letters s'.

Definition only_reads (s s' : state) : Prop := ks s'.1 = ks s.1 /\ db s'.1 = db s.1.

(** What the list should say. *)
Definition letter_list (letters : Z -> list string) (all : list Z) : SyncOutput :=
  Letters ((fun shard => (dead_key shard, Z.of_nat (List.length (letters shard)), take 5 (letters shard)))
             <$> filter (fun shard => letters shard <> []) all)
          (Z.of_nat (List.length (concat (letters <$> all)))).

Abbreviation lists := (safe answered letters_kept only_reads).

Lemma letters_call {A} sc (a : A) letters s :
  letters_are letters s ->
  (forall k, (forall shard, valid_shard shard -> list_at k (dead_key shard) = Return (letters shard)) ->
     exists cs, logged sc k = (k, cs, Return a)) ->
  lists (redis_eval sc) (fun s' r => r = Return a /\ letters_are letters s') s.
Proof.
  intros Hs Hsc. apply safe_call. intros c s1 [Hd _] H1. destruct (Hsc (ks s1.1)) as [cs Hl]; [by apply H1|].
  rewrite perform_redis, Hl by done. split; [done|]. intros s2 H2. split; [done|]. apply H2. exact (H1 _ Hs).
Qed.

Lemma kept_refl s : letters_kept s s.
Proof. by intros letters. Qed.

Lemma letters_listed letters all shown total s :
  Forall valid_shard all -> letters_are letters s ->
  lists (listDeadLetters all shown total)
    (fun _ r => match letter_list letters all with
                | Letters shown' total' => r = Return (Letters (shown ++ shown') (total + total'))
                | Synced _ _ _ => False
                end) s.
Proof.
  intros Hall. revert shown total s; induction Hall as [|shard all Hsh _ IH]; intros shown total s Hs; cbn [listDeadLetters].
  { intros s' _. cbn. by rewrite app_nil_r, Z.add_0_r. }
  rewrite (syncDeadLetterKey_eq shard) by done. fold (dead_key shard).
  change (async_bind (lift (Return (dead_key shard))) ?f) with (f (dead_key shard)). cbv beta.
  apply safe_bind; [apply kept_refl|]. eapply safe_mono; [|apply (letters_call _ (Z.of_nat (List.length (letters shard))) letters); [done|]].
  2: { intros k Hk. rewrite logged_call, execute_LLEN, Hk by done. unfold answer, as_number. rewrite logged_resolve. by eexists. }
  intros s1 r [-> Hs1]. destruct (decide (letters shard = [])) as [Hnil|Hne].
  { rewrite Hnil. cbn. unfold letter_list in IH |- *. cbn [filter list_filter]. rewrite decide_False by (by intros ?).
    cbn [fmap list_fmap concat]. rewrite Hnil. by apply IH. }
  rewrite (proj2 (Z.eqb_neq _ 0)) by (destruct (letters shard); [done|simpl; lia]).
  apply safe_bind; [apply kept_refl|]. eapply safe_mono; [|apply (letters_call _ (take 5 (letters shard)) letters); [done|]].
  2: { intros k Hk. rewrite logged_call, execute_LRANGE, Hk by done. unfold answer, RedisSyncQueue.as_elements.
       rewrite (list_range_prefix 5), logged_resolve by done. by eexists. }
  intros s2 r [-> Hs2]. eapply safe_mono; [|by apply IH]. intros s3 r Hr. unfold letter_list in *.
  cbn [filter list_filter]. rewrite decide_True by done. cbn [fmap list_fmap concat].
  rewrite Hr, <- app_assoc, length_app. cbn [app]. do 2 f_equal. lia.
Qed.

(** *** Draining *)

(** What the job asks of the queues: its ticks take a thousand batches a shard. *)
Definition job_fits (batch : Z) (all : list Z) (queues : Z -> list string) : Prop :=
  forall shard, shard ∈ all ->
    Forall (fine_entry otherDate) (queues shard) /\ Z.of_nat (List.length (queues shard)) <= 1000 * batch.

(** A statement that only reads. *)
Lemma reading_quiet which queues {X} (q : sql X) s :
  (forall now db, exists a, query X now db q = (db, Return a)) -> queues_are otherDate which queues s ->
  quietly otherDate which (pg q) (fun _ s' => queues_are otherDate which queues s') s.
Proof.
  intros Hq Hs. eapply safe_mono; [|apply (quietly_still otherDate which (PgQuery X q) (fun _ => True) queues); [exact Hs|]].
  - intros s' r (a & -> & _ & Hs'). by exists a.
  - intros c s1 [Hd _] _. unfold perform_logged, perform, on_pg, deliver, commands_of. rewrite Hd.
    destruct (Hq (pg_clock s1.1) (db s1.1)) as [a ->].
    split_and!; [done|done| |by eexists]. apply moves_pg; [done|cbn; by rewrite app_nil_r|]. intros code r Hr. by exists r.
Qed.

Lemma job_drains env argv tick uuids all batch queues s :
  (forall worker n, ticks otherDate (uuids n) worker (tick worker n)) -> (forall n, Inj (=) (=) (uuids n)) ->
  allShards = Return all -> get (parseArgs argv) "dead-letters" = None ->
  positiveIntegerArg (parseArgs argv) "batch" 2000 false = Return batch ->
  job_fits batch all queues -> queues_are otherDate all queues s ->
  quietly otherDate all (syncLinks env argv tick)
    (fun out s' => (exists result, out = Synced (Z.of_nat (List.length (concat (queues <$> all)))) result 0)
       /\ queues_are otherDate all (fun _ => []) s' /\ all_settled all s') s.
Proof.
  intros Hticks Hinj Hall Hnone Hbatch Hfit Hs.
  assert (Hb : 0 < batch <= MAX_SAFE_INTEGER).
  { destruct (positiveIntegerArg_bounds _ _ _ _ _ Hbatch) as [->|Hr]; unfold MAX_SAFE_INTEGER in *; lia. }
  destruct (job_worker env batch all Hall Hb) as (worker & Hnew & [Hready Hconc Hnd Hvalid Hav] & Hsh & Hwb & Hmax).
  assert (Hzero : List.length (concat ((fun _ : Z => @nil string) <$> all)) = 0%nat) by (clear; by induction all).
  assert (Hin : Forall (fun shard => shard ∈ all) all) by (by apply Forall_forall).
  unfold syncLinks. cbv zeta. eapply quietly_bind; [apply reading_quiet; [intros; eexists; apply query_SelectOne|done]|]. intros ? s1 Hs1.
  rewrite Hall, Hnone, Hbatch. rewrite bool_decide_false by (by intros [? ?]).
  change (async_bind (lift (Return all)) ?f) with (f all). cbv beta.
  subst all. eapply quietly_bind; [by apply backlog_quiet|]. intros before s2 [-> Hs2].
  change (async_bind (lift (Return batch)) ?f) with (f batch). cbv beta. rewrite Hnew.
  change (async_bind (lift (Return worker)) ?f) with (f worker). cbv beta.
  eapply (quietly_bind _ _ _ _ (fun _ s' => queues_are otherDate (shards (options worker)) (fun _ => []) s')).
  { unfold drain. replace (Z.to_nat 1000000) with (S (Z.to_nat 999999)) by (rewrite <- Z2Nat.inj_succ; done).
    eapply (drain_quiet otherDate worker Hready Hconc Hnd Hvalid Hav uuids); [by intros|by intros| |exact Hs2].
    intros shard Hsh. destruct (Hfit shard Hsh) as [Hf Hl]. split; [done|]. rewrite Hwb, Hmax. lia. }
  intros result s3 Hs3. eapply quietly_bind; [by apply backlog_quiet|]. intros after s4 [-> Hs4].
  apply quietly_resolve. intros s5 Hq. apply (queues_stable _ _ _ _ _ Hq) in Hs4. split; [|split; [done|by apply drained_settled]].
  exists result. rewrite !backlog_total, Hzero. done.
Qed.
End Jobs.

(** C3. A tick empties all the queues of its worker, whatever order the event loop
    takes the effects of its shards in. Take a worker over distinct shards, each lock
    free and each queue holding at most [maxBatchesPerShard] batches of entries, each
    no record at all or one PostgreSQL can hold. While its calls are answered and the
    others, with whatever else they do, leave these queues and locks alone, the tick
    returns, every queue is then empty and every lock free, and every record ever
    queued there is settled: its link is in PostgreSQL, or its code is another link's
    there and it is dead-lettered, or another record took its place. *)
Theorem tick_drains `{Redis} `{Postgres} otherDate uuids self m queues s :
  lone_worker self -> ticks otherDate uuids self m -> Inj (=) (=) uuids ->
  all_fit otherDate self queues -> queues_are otherDate (shards (options self)) queues s ->
  safe answered (quiet_queues otherDate (shards (options self))) (keeps_account otherDate) m
    (fun s' r => returns r
       /\ (forall shard, shard ∈ shards (options self) -> shard_state shard [] None s')
       /\ all_settled otherDate (shards (options self)) s') s.
Proof.
  intros [Hready Hconc Hnd Hvalid Hav] Hm Hinj Hfit Hs.
  eapply safe_mono; [|by apply (tick_quiet otherDate self Hready Hconc Hnd Hvalid Hav uuids m queues s)].
  intros s' r (a & -> & Hs'). split; [by exists a|]. split; [apply Hs'|by apply drained_settled].
Qed.

(** C20. The sync job does what it is for. Run with every lock free and at most a
    thousand batches in each queue, its calls answered and the others leaving the
    queues alone, [npm run sync] reports the exact backlog, returns with every queue of
    all 1,024 shards empty and every record settled, and reports 0 left, in whatever
    order its ticks take their shards. Run with [--dead-letters] it prints, while the
    others leave the dead letters alone, exactly the shards that have some, each with
    the exact count and its first five, and the exact total. *)
Theorem sync_job `{Redis} `{Postgres} otherDate env argv tick uuids all s :
  (forall worker n, ticks otherDate (uuids n) worker (tick worker n)) -> (forall n, Inj (=) (=) (uuids n)) ->
  allShards = Return all ->
  (forall batch queues,
     get (parseArgs argv) "dead-letters" = None ->
     positiveIntegerArg (parseArgs argv) "batch" 2000 false = Return batch ->
     job_fits otherDate batch all queues -> queues_are otherDate all queues s ->
     safe answered (quiet_queues otherDate all) (keeps_account otherDate) (syncLinks env argv tick)
       (fun s' r => (exists result, r = Return (Synced (Z.of_nat (List.length (concat (queues <$> all)))) result 0))
          /\ (forall shard, shard ∈ all -> shard_state shard [] None s') /\ all_settled otherDate all s') s)
  /\ (forall letters,
     is_Some (get (parseArgs argv) "dead-letters") -> letters_are letters s ->
     safe answered letters_kept only_reads (syncLinks env argv tick)
       (fun _ r => r = Return (letter_list letters all)) s).
Proof.
  intros Hticks Hinj Hall. split.
  - intros batch queues Hnone Hbatch Hfit Hs. eapply safe_mono; [|by eapply job_drains].
    intros s' r (out & -> & [result ->] & Hs' & Hset). split; [by exists result|]. split; [apply Hs'|done].
  - intros letters Hsome Hs. destruct allShards_all as (all' & Hall' & _ & Hel). rewrite Hall in Hall'. injection Hall' as <-.
    unfold syncLinks. cbv zeta. apply safe_async_bind; [apply kept_refl|]. apply safe_call. intros c s1 [Hd _] H1.
    unfold perform_logged, perform, on_pg, deliver. rewrite Hd, query_SelectOne. split; [done|]. intros s2 H2.
    rewrite Hall, bool_decide_true by done. change (async_bind (lift (Return all)) ?f) with (f all). cbv beta.
    eapply safe_mono; [|apply (letters_listed letters)]; [|by apply Forall_forall; intros ? ?%Hel|apply H2; exact (H1 _ Hs)].
    intros s3 r Hr. destruct (letter_list letters all) eqn:Hl; [done|]. exact Hr.
Qed.

(** ** Witnesses *)

Definition demo_queues (shard : Z) : list string := if decide (shard = demo_shard) then [demo_record] else [].

(** What [randomUUID()] answers: distinct texts. *)
Definition demo_uuids (task : nat) : string := js_String (Z.of_nat task).

Lemma demo_uuids_distinct : Inj (=) (=) demo_uuids.
Proof. intros i j He. unfold demo_uuids in He. apply js_String_inj in He. lia. Qed.

Lemma demo_queues_are which : Forall valid_shard which -> queues_are no_other_date which demo_queues queued_state.
Proof.
  intros Hwhich. split; [apply queued_consistent|]. intros shard Hin. rewrite Forall_forall in Hwhich.
  specialize (Hwhich shard Hin). unfold demo_queues. destruct (decide (shard = demo_shard)) as [->|Hne]; [apply queued_shard_state|].
  pose proof queued_shard_state as [[_ _ [Ht _]] Hc]. split; [|exact Hc]. split; [| |split; [exact Ht|]].
  - unfold list_at. rewrite queued_other; [done|]. intros He. apply Hne.
    by apply (key_of_inj "sync:queue"); [|apply demo_shard_valid|].
  - by rewrite queued_other by auto with wraplink.
  - exists []. unfold list_at. by rewrite queued_other by auto with wraplink.
Qed.

Lemma demo_entries shard : Forall (fine_entry no_other_date) (demo_queues shard) /\ Z.of_nat (List.length (demo_queues shard)) <= 1.
Proof.
  unfold demo_queues. destruct (decide _); [split; [apply queued_fine|done]|by split; [apply Forall_nil_2|]].
Qed.

Lemma draining_lone : lone_worker draining_worker.
Proof.
  split; [apply draining_ready|done| | |by left].
  - apply NoDup_singleton.
  - apply Forall_cons. split; [apply demo_shard_valid|apply Forall_nil_2].
Qed.

Lemma tick_drains_witness :
  @safe reference_redis reference_postgres answered
    (quiet_queues no_other_date [demo_shard]) (keeps_account no_other_date) _
    (@tick_in_turn no_other_date demo_uuids draining_worker)
    (fun s' r => returns r
       /\ (forall shard, shard ∈ [demo_shard] -> shard_state shard [] None s')
       /\ all_settled no_other_date [demo_shard] s') queued_state.
Proof.
  apply (@tick_drains reference_redis reference_postgres no_other_date demo_uuids draining_worker _ demo_queues).
  - apply draining_lone.
  - apply tick_in_turn_ticks.
  - apply demo_uuids_distinct.
  - intros shard _. destruct (demo_entries shard) as [Hf Hl]. split; [exact Hf|]. cbn. lia.
  - apply demo_queues_are, draining_lone.
Defined.

Lemma sync_job_witness :
  exists all, allShards = Return all
  /\ @safe reference_redis reference_postgres answered (quiet_queues no_other_date all) (keeps_account no_other_date) _
       (syncLinks demo_env ["--batch"; "500"] (fun worker _ => tick_in_turn no_other_date demo_uuids worker))
       (fun s' r => (exists result, r = Return (Synced (Z.of_nat (List.length (concat (demo_queues <$> all)))) result 0))
          /\ (forall shard, shard ∈ all -> shard_state shard [] None s') /\ all_settled no_other_date all s') queued_state.
Proof.
  destruct allShards_all as (all & Hall & _ & Hel). exists all. split; [exact Hall|].
  apply (@sync_job reference_redis reference_postgres no_other_date demo_env ["--batch"; "500"]
           (fun worker _ => tick_in_turn no_other_date demo_uuids worker) (fun _ => demo_uuids) all queued_state) with (batch := 500).
  - intros worker n. apply tick_in_turn_ticks.
  - intros n. apply demo_uuids_distinct.
  - exact Hall.
  - vm_compute. reflexivity.
  - vm_compute. reflexivity.
  - intros shard _. destruct (demo_entries shard) as [Hf Hl]. split; [exact Hf|lia].
  - apply demo_queues_are, Forall_forall. intros shard. apply Hel.
Defined.
