(* ===== verification/Gauges.v ===== *)
(** * The gauges of a process

    [extraMetrics] of src/src/server.ts: what one process adds to the metrics it
    serves, from its click buffer, PostgreSQL's estimate and the sync queues. *)
From S2P Require Import Prelude JsNum JsString Keys Link Async Redis Sql World Interleave PostgresStore.
From S2P Require Import SyncQueue SyncWorker Durability Draining SyncJob.
Open Scope Z_scope.








(** ** What it prints *)


Section Gauges.
Context `{Redis} `{Postgres} (otherDate : string -> option Z).

(** Whatever happens to the calls and whatever the others do. *)
Abbreviation anyhow := (safe (fun _ => True) (fun _ _ => True) only_reads).








End Gauges.


(** ** Witness *)

