(* ===== verification/Server.v ===== *)
(** * The server process

    src/src/server.ts: the components one process builds from its
    configuration, in the order of the source. What the components do is in
    their own files; here is how they are put together, and that a
    configuration [loadConfig] lets through is one they can be built from. *)
From S2P Require Import Prelude JsNum JsString Json Keys Link Async Redis Sql World UrlPolicy ApiKeys RateLimiter.
From S2P Require Import ClickBuffer CodeAllocator PostgresStore CachedStore WriteBehind SyncQueue SyncWorker Draining App Policed AppSafety Config SyncJob.
Open Scope Z_scope.


Section Server.
Context `{Redis} `{Postgres}.
(** Texts of dates and numbers the program does not write itself (Link.v,
    CachedStore.v); node's crypto, [net.isIP], the URL parser and the resolver. *)
Context (otherDate otherNumber : string -> option Z).
Context (sha256_hex sha256 : string -> string) (hmac_sha256 : string -> string -> list Z).
Context (isIP : string -> Z) (parse : string -> option URL) (resolver : string -> result (list string)).
(** The codes of [generateCode], and those an allocator draws with a scrambler:
    RandomCode.v and BlockAllocator.v; the texts of the metrics collector and of
    [extraMetrics]. *)
Context (randomCodes : async effect string) (allocatedCodes : CodeScrambler.t -> async effect string).
Context (renderMetrics extraMetrics : async effect string).



(** ** Properties *)









End Server.


(** ** Witnesses *)




