(* ===== verification/Process.v ===== *)
(** * The life of the server process

    The rest of src/src/server.ts: start-up, the two signal handlers and
    [closeResources], as concurrent programs over the resources of the process.
    What closing a resource does is in the file of the resource; here is when it
    is closed, and what has happened by then. *)
From S2P Require Import Prelude Async.
Open Scope Z_scope.

(** The calls these programs make; [syncWorker] is there when it is enabled, and
    [metrics.close] with the collector that has one. *)
Inductive resource : Type -> Type :=
  | PoolQuery : resource unit                 (* pool.query("SELECT 1") *)
  | RedisConnect : resource unit
  | RedisIsReady : resource bool
  | RedisIsOpen : resource bool
  | WorkerStart : resource unit
  | WorkerClose : resource unit
  | AppListen : resource unit
  | AppClose : resource unit
  | ClicksClose : resource unit               (* clickBuffer.close() *)
  | MetricsClose : resource unit
  | PoolEnd : resource unit
  | RedisClose : resource unit
  | SetExitCode (code : Z) : resource unit    (* process.exitCode = code *)
  | IsConnected : resource bool               (* process.connected *)
  | Disconnect : resource unit.

Section Process.
Context (syncWorker : bool) (closable : bool).

Definition when (b : bool) (m : async resource unit) : async resource unit := if b then m else resolve tt.

Definition disconnectFromPrimary : async resource unit :=
  await connected <- call IsConnected;
  when connected (call Disconnect).

Definition closeResources : async resource unit :=
  await ready <- (if syncWorker then call RedisIsReady else resolve false);
  await_ when ready (call WorkerClose);
  await_ call ClicksClose;
  await_ when closable (call MetricsClose);
  await_ promise_all [call PoolEnd; (await open <- call RedisIsOpen; when open (call RedisClose))];
  resolve tt.

(** The rest of [shutdown], after its check of [shuttingDown]. *)
Definition shutdownBody : async resource unit :=
  try_finally
    (try_catch
       (await_ call AppClose;
        await_ closeResources;
        call (SetExitCode 0))
       (fun _ => call (SetExitCode 1)))
    disconnectFromPrimary.

(** [shutdown]: the value of [shuttingDown] it leaves, and what it goes on to do. *)
Definition shutdown (shuttingDown : bool) : bool * option (async resource unit) :=
  if shuttingDown then (shuttingDown, None) else (true, Some shutdownBody).

(** The statements at the end of the module. *)
Definition startup : async resource unit :=
  try_catch
    (await_ call PoolQuery;
     await_ try_catch (call RedisConnect) (fun _ => resolve tt);
     await_ when syncWorker (call WorkerStart);
     call AppListen)
    (fun _ =>
       await_ try_catch closeResources (fun _ => resolve tt);
       await_ call (SetExitCode 1);
       disconnectFromPrimary).

(** ** The process *)

Record status : Type := {
  accepting : bool;            (* the application takes requests *)
  app_closed : bool;           (* [app.close()] was called *)
  app_closes : nat;            (* calls of [app.close()] *)
  worker_done : bool;          (* the last tick was made, or there was no Redis to make it against *)
  clicks_done : bool;          (* the buffered clicks were flushed *)
  metrics_done : bool;
  pool_ended : bool;
  redis_closed : bool;         (* or it was not open *)
  exit_code : option Z
}.

Definition fresh_status : status :=
  {| accepting := false; app_closed := false; app_closes := 0; worker_done := false; clicks_done := false;
     metrics_done := false; pool_ended := false; redis_closed := false; exit_code := None |}.

Definition ok {X} (r : result X) : bool := match r with Return _ => true | Throw _ => false end.

Definition with_app (s : status) (accepts closed : bool) (closes : nat) : status :=
  {| accepting := accepts; app_closed := closed; app_closes := closes; worker_done := worker_done s;
     clicks_done := clicks_done s; metrics_done := metrics_done s; pool_ended := pool_ended s;
     redis_closed := redis_closed s; exit_code := exit_code s |}.

Definition with_work (s : status) (worker clicks metrics : bool) : status :=
  {| accepting := accepting s; app_closed := app_closed s; app_closes := app_closes s; worker_done := worker_done s || worker;
     clicks_done := clicks_done s || clicks; metrics_done := metrics_done s || metrics; pool_ended := pool_ended s;
     redis_closed := redis_closed s; exit_code := exit_code s |}.

Definition with_connections (s : status) (pool redis : bool) : status :=
  {| accepting := accepting s; app_closed := app_closed s; app_closes := app_closes s; worker_done := worker_done s;
     clicks_done := clicks_done s; metrics_done := metrics_done s; pool_ended := pool_ended s || pool;
     redis_closed := redis_closed s || redis; exit_code := exit_code s |}.

Definition with_exit_code (s : status) (code : Z) : status :=
  {| accepting := accepting s; app_closed := app_closed s; app_closes := app_closes s; worker_done := worker_done s;
     clicks_done := clicks_done s; metrics_done := metrics_done s; pool_ended := pool_ended s;
     redis_closed := redis_closed s; exit_code := Some code |}.

(** A call and its answer, [r]. Anything may reject; [app.close()] that rejects may
    or may not have stopped the application, and an application that was closed does
    not listen again. *)
Definition answers {X} (s : status) (e : resource X) (s' : status) : result X -> Prop :=
  match e in resource X return (result X -> Prop) with
  | PoolQuery | RedisConnect | WorkerStart => fun _ => s' = s
  | RedisIsReady => fun r => exists ready, r = Return ready /\ s' = with_work s (negb ready) false false
  | RedisIsOpen => fun r => exists open, r = Return open /\ s' = with_connections s false (negb open)
  | IsConnected => fun r => ok r = true /\ s' = s
  | WorkerClose => fun r => s' = with_work s (ok r) false false
  | AppListen => fun r =>
      match r with
      | Return _ => app_closed s = false /\ s' = with_app s true false (app_closes s)
      | Throw _ => s' = s
      end
  | AppClose => fun r =>
      exists still, s' = with_app s (accepting s && still) true (S (app_closes s)) /\ (ok r = true -> still = false)
  | ClicksClose => fun r => s' = with_work s false (ok r) false
  | MetricsClose => fun r => s' = with_work s false false (ok r)
  | PoolEnd => fun _ => s' = with_connections s true false
  | RedisClose => fun _ => s' = with_connections s false true
  | SetExitCode code => fun r => r = Return tt /\ s' = with_exit_code s code
  | Disconnect => fun r => r = Return tt /\ s' = s
  end.

Inductive signal : Type := SIGINT | SIGTERM.

Record process : Type := {
  state : status;
  shuttingDown : bool;
  handled : signal -> bool;                            (* [process.once] *)
  starting : async resource unit;                      (* what is left of start-up *)
  stopping : option (async resource unit)              (* of the shutdown in progress *)
}.

Inductive step : process -> process -> Prop :=
  | step_starting p X (e : resource X) k r s' :
      starting p = Await e k -> answers (state p) e s' r ->
      step p {| state := s'; shuttingDown := shuttingDown p; handled := handled p; starting := k r; stopping := stopping p |}
  | step_signal p sig :
      handled p sig = false ->
      step p {| state := state p; shuttingDown := (shutdown (shuttingDown p)).1;
                handled := fun s => match sig, s with SIGINT, SIGINT | SIGTERM, SIGTERM => true | _, _ => handled p s end;
                starting := starting p;
                stopping := match (shutdown (shuttingDown p)).2 with Some m => Some m | None => stopping p end |}
  | step_stopping p X (e : resource X) k r s' :
      stopping p = Some (Await e k) -> answers (state p) e s' r ->
      step p {| state := s'; shuttingDown := shuttingDown p; handled := handled p; starting := starting p; stopping := Some (k r) |}.

Definition launched : process :=
  {| state := fresh_status; shuttingDown := false; handled := fun _ => false; starting := startup; stopping := None |}.

Inductive reachable : process -> Prop :=
  | reachable_launched : reachable launched
  | reachable_step p p' : reachable p -> step p p' -> reachable p'.

(** ** What each of the two programs knows *)

Inductive stage : Type :=
  | Starting     (* start-up, not listening *)
  | Listening
  | Closing      (* start-up failed, closing the connections *)
  | Stopping     (* shutdown, before [app.close()] *)
  | Stopped
  | Failed.      (* [app.close()] rejected *)

Record knowledge : Type := {
  at_stage : stage;
  k_worker : bool;
  k_clicks : bool;
  k_metrics : bool;
  k_pool : bool;
  k_redis : bool
}.

Definition knowing (at_ : stage) : knowledge :=
  {| at_stage := at_; k_worker := false; k_clicks := false; k_metrics := false; k_pool := false; k_redis := false |}.

(** The work is done that the connections are needed for. *)
Definition worked (worker clicks metrics : bool) : Prop :=
  (syncWorker = true -> worker = true) /\ clicks = true /\ (closable = true -> metrics = true).

Definition quiet (at_ : stage) : Prop := at_ = Starting \/ at_ = Closing \/ at_ = Stopped.

Definition may_close (g : knowledge) : Prop :=
  quiet (at_stage g) /\ worked (k_worker g) (k_clicks g) (k_metrics g).

Definition allowed (X : Type) (g : knowledge) (e : resource X) : Prop :=
  match e with
  | AppListen => at_stage g = Starting
  | AppClose => at_stage g = Stopping
  | PoolEnd | RedisIsOpen | RedisClose => may_close g
  | SetExitCode code => code = 0 -> at_stage g = Stopped /\ may_close g /\ k_pool g = true /\ k_redis g = true
  | _ => True
  end.

Definition letting_go (at_ : stage) : stage := match at_ with Starting => Closing | _ => at_ end.

Definition learn {X} (g : knowledge) (e : resource X) : result X -> knowledge :=
  let work worker clicks metrics :=
    {| at_stage := at_stage g; k_worker := k_worker g || worker; k_clicks := k_clicks g || clicks;
       k_metrics := k_metrics g || metrics; k_pool := k_pool g; k_redis := k_redis g |} in
  let stage_ at_ :=
    {| at_stage := at_; k_worker := k_worker g; k_clicks := k_clicks g; k_metrics := k_metrics g;
       k_pool := k_pool g; k_redis := k_redis g |} in
  let closes pool redis :=
    {| at_stage := letting_go (at_stage g); k_worker := k_worker g; k_clicks := k_clicks g;
       k_metrics := k_metrics g; k_pool := k_pool g || pool; k_redis := k_redis g || redis |} in
  match e in resource X return (result X -> knowledge) with
  | RedisIsReady => fun r => work (match r with Return ready => negb ready | Throw _ => false end) false false
  | RedisIsOpen => fun r => closes false (match r with Return open => negb open | Throw _ => false end)
  | WorkerClose => fun r => work (ok r) false false
  | ClicksClose => fun r => work false (ok r) false
  | MetricsClose => fun r => work false false (ok r)
  | AppListen => fun r => stage_ (if ok r then Listening else Starting)
  | AppClose => fun r => stage_ (if ok r then Stopped else Failed)
  | PoolEnd => fun _ => closes true false
  | RedisClose => fun _ => closes false true
  | _ => fun _ => g
  end.

Definition getter {X} (e : resource X) : bool :=
  match e with RedisIsReady | RedisIsOpen | IsConnected | SetExitCode _ | Disconnect => true | _ => false end.

Definition answer (X : Type) (g : knowledge) (e : resource X) (r : result X) (g' : knowledge) : Prop :=
  (getter e = true -> ok r = true) /\ g' = learn g e r.

Abbreviation follows := (wp allowed answer).

Lemma follows_call {X} (e : resource X) Q g :
  allowed X g e -> (forall r, (getter e = true -> ok r = true) -> Q (learn g e r) r) -> follows (call e) Q g.
Proof. intros Ha HQ. apply wp_call; [done|]. intros r g' [Hr ->]. by apply HQ. Qed.

Lemma follows_disconnect (Q : knowledge -> result unit -> Prop) g : (forall r, Q g r) -> follows disconnectFromPrimary Q g.
Proof.
  intros HQ. apply wp_async_bind, follows_call; [done|]. intros [[]|e] _; cbn [learn when]; [|apply HQ..].
  apply follows_call; [done|]. intros r _. apply HQ.
Qed.

(** Closing the connections, the last of [closeResources]. *)
Definition closeConnections : list (async resource unit) :=
  [call PoolEnd; (await open <- call RedisIsOpen; when open (call RedisClose))].

Lemma quiet_closing at_ : quiet at_ -> quiet (letting_go at_).
Proof. unfold quiet. destruct at_; tauto. Qed.

Lemma closeConnections_follows (Q : knowledge -> result unit -> Prop) g :
  may_close g ->
  (forall g' r, may_close g' -> (at_stage g = Stopped -> at_stage g' = Stopped) ->
     k_pool g' = true -> (ok r = true -> k_redis g' = true) -> Q g' r) ->
  follows (await_ promise_all closeConnections; resolve tt) Q g.
Proof.
  intros [Hq Hw] HQ. apply wp_async_bind. cbn [promise_all closeConnections].
  apply wp_bind, follows_call; [by split|]. intros r1 _. set (g1 := learn g PoolEnd r1).
  assert (H1 : may_close g1 /\ (at_stage g = Stopped -> at_stage g1 = Stopped) /\ k_pool g1 = true).
  { split; [split; [apply (quiet_closing _ Hq)|exact Hw]|]. split; [cbn; by intros ->|]. cbn. apply orb_true_r. }
  clearbody g1. destruct H1 as ([Hq1 Hw1] & Hst1 & Hp1). apply wp_bind, wp_bind, wp_async_bind, follows_call; [by split|].
  intros r2 Hr2. set (g2 := learn g1 RedisIsOpen r2).
  assert (H2 : may_close g2 /\ (at_stage g = Stopped -> at_stage g2 = Stopped) /\ k_pool g2 = true
    /\ match r2 with Return open => open = true \/ k_redis g2 = true | Throw _ => False end).
  { split; [split; [apply (quiet_closing _ Hq1)|exact Hw1]|]. split; [cbn; intros He; by rewrite (Hst1 He)|]. split; [cbn; by rewrite Hp1|].
    destruct r2 as [[]|e]; [by left|right; apply orb_true_r|by specialize (Hr2 eq_refl)]. }
  clearbody g2. destruct H2 as ([Hq2 Hw2] & Hst2 & Hp2 & Hopen). destruct r2 as [open|e]; [|done].
  apply (wp_mono _ _ _ (fun g3 r => may_close g3 /\ (at_stage g = Stopped -> at_stage g3 = Stopped)
    /\ k_pool g3 = true /\ k_redis g3 = true)).
  2: { destruct open; cbn [when]; [|by destruct Hopen]. apply follows_call; [by split|]. intros r3 _.
       split; [split; [apply (quiet_closing _ Hq2)|exact Hw2]|]. split; [cbn; intros He; by rewrite (Hst2 He)|]. split; [cbn; by rewrite Hp2|apply orb_true_r]. }
  intros g3 r3 (Hm & Hst3 & Hp3 & Hr3). cbn. destruct r1, r3; by apply HQ.
Qed.

(** The work of [closeResources], done or not. *)
Lemma closeResources_follows (Q : knowledge -> result unit -> Prop) g :
  quiet (at_stage g) ->
  (forall g' e, quiet (at_stage g') -> (at_stage g = Stopped -> at_stage g' = Stopped) -> Q g' (Throw e)) ->
  (forall g', may_close g' -> (at_stage g = Stopped -> at_stage g' = Stopped) -> k_pool g' = true -> k_redis g' = true ->
     Q g' (Return tt)) ->
  follows closeResources Q g.
Proof.
  intros Hq Hfail Hdone. unfold closeResources. apply wp_async_bind.
  apply (wp_mono _ _ _ (fun g1 r => at_stage g1 = at_stage g
    /\ match r with Return ready => syncWorker = true -> ready = true \/ k_worker g1 = true | Throw _ => False end)).
  2: { destruct syncWorker; [|by split]. apply follows_call; [done|]. intros [ready|e] Hr; [|by specialize (Hr eq_refl)].
       split; [done|]. intros _. destruct ready; [by left|right; apply orb_true_r]. }
  intros g1 [ready|e] (Hst & Hready); [|done]. rewrite <- Hst in Hq, Hfail, Hdone. clear Hst g. apply wp_async_bind.
  apply (wp_mono _ _ _ (fun g2 r => at_stage g2 = at_stage g1
    /\ match r with Return _ => syncWorker = true -> k_worker g2 = true | Throw _ => True end)).
  2: { destruct ready; cbn [when]; [|split; [done|]; intros Hw; by destruct (Hready Hw)].
       apply follows_call; [done|]. intros [u|e] _; split; try done. intros _. apply orb_true_r. }
  intros g2 [u|e] (Hst & Hworker); [|apply Hfail; by rewrite Hst]. rewrite <- Hst in Hq, Hfail, Hdone. clear Hready Hst g1.
  apply wp_async_bind, follows_call; [done|]. intros [u'|e] _; [|by apply Hfail]. apply wp_async_bind.
  apply (wp_mono _ _ _ (fun g3 r => at_stage g3 = at_stage g2
    /\ match r with Return _ => worked (k_worker g3) (k_clicks g3) (k_metrics g3) | Throw _ => True end)).
  2: { unfold worked. destruct closable; cbn [when].
       - apply follows_call; [done|]. intros [u''|e] _; (split; [done|]); [|done]. cbn. rewrite !orb_true_r, !orb_false_r. auto.
       - split; [done|]. cbn. rewrite orb_true_r, orb_false_r. split_and!; done. }
  intros g3 [u''|e] (Hst & Hwork); [|apply Hfail; by rewrite Hst]. rewrite <- Hst in Hq, Hfail, Hdone.
  apply closeConnections_follows; [by split|]. intros g4 [[]|e] Hm Hst4 Hp Hr; [|by apply Hfail; [apply Hm|]].
  by apply Hdone; [| | |apply Hr].
Qed.

(** Start-up only lets go of the connections while nothing listens. *)
Definition of_startup (at_ : stage) : Prop := at_ = Starting \/ at_ = Listening \/ at_ = Closing.

Definition ended (g : knowledge) (r : result unit) : Prop := True.

Lemma startup_follows : follows startup ended (knowing Starting).
Proof.
  unfold startup, try_catch. apply wp_bind.
  apply (wp_mono _ _ _ (fun g r => match r with Return _ => True | Throw _ => at_stage g = Starting end)).
  - intros g [u|e] Hg; [done|]. apply wp_async_bind, wp_bind.
    assert (Hrest : forall g, wp allowed answer (await_ call (SetExitCode 1); disconnectFromPrimary) ended g).
    { intros g'. apply wp_async_bind, follows_call; [done|]. intros [u|e'] _; [by apply follows_disconnect|done]. }
    apply closeResources_follows; [by left| |]; intros; apply Hrest.
  - apply wp_async_bind, follows_call; [done|]. intros [u|e] _; [|done]. apply wp_async_bind, wp_bind, follows_call; [done|].
    intros r _. apply (wp_mono _ _ _ (fun g r => ok r = true /\ at_stage g = Starting)); [|by destruct r].
    intros g [u'|e] [Hr Hg]; [|done]. apply wp_async_bind.
    apply (wp_mono _ _ _ (fun g r => at_stage g = Starting)); [|destruct syncWorker; cbn [when]; [by apply follows_call|done]].
    intros g' [u''|e] Hg'; [|done]. apply follows_call; [done|]. intros [u3|e] _; done.
Qed.

Lemma shutdown_follows : follows shutdownBody ended (knowing Stopping).
Proof.
  unfold shutdownBody, try_finally, try_catch. apply wp_bind, wp_bind.
  assert (Hend : forall g (r : result unit), wp allowed answer (io_bind disconnectFromPrimary (fun q =>
    match q with Return _ => Done r | Throw e => reject e end)) ended g).
  { intros g r. apply wp_bind, follows_disconnect. by intros [u|e]. }
  assert (Hcatch : forall g, wp allowed answer (call (SetExitCode 1)) (fun g r => wp allowed answer (io_bind disconnectFromPrimary (fun q =>
    match q with Return _ => Done r | Throw e => reject e end)) ended g) g).
  { intros g. apply follows_call; [done|]. intros r _. apply Hend. }
  apply wp_async_bind, follows_call; [done|]. intros [u|e] _; [|apply Hcatch]. apply wp_async_bind, closeResources_follows.
  - by right; right.
  - intros g e _ _. apply Hcatch.
  - intros g Hm Hst Hp Hr. apply follows_call; [intros _; split_and!; auto|]. intros [u'|e] Hok; [apply Hend|by specialize (Hok eq_refl)].
Qed.

(** ** Both at once *)

Record known (s : status) (g : knowledge) : Prop := {
  known_worker : k_worker g = true -> worker_done s = true;
  known_clicks : k_clicks g = true -> clicks_done s = true;
  known_metrics : k_metrics g = true -> metrics_done s = true;
  known_pool : k_pool g = true -> pool_ended s = true;
  known_redis : k_redis g = true -> redis_closed s = true
}.

Definition resting (s : status) : Prop := accepting s = false /\ app_closed s = true.

(** A connection was closed. *)
Definition letting (s : status) : Prop := pool_ended s = true \/ redis_closed s = true.

Definition all_worked (s : status) : Prop := worked (worker_done s) (clicks_done s) (metrics_done s).

Lemma known_worked s g : known s g -> worked (k_worker g) (k_clicks g) (k_metrics g) -> all_worked s.
Proof. intros [H1 H2 H3 _ _] (Hw & Hc & Hm). split_and!; auto. Qed.

Definition listens {X} (e : resource X) : bool := match e with AppListen => true | _ => false end.
Definition closes {X} (e : resource X) : bool := match e with AppClose => true | _ => false end.

Ltac answered :=
  repeat match goal with
    | H : exists _, _ |- _ => destruct H as (? & ?)
    | H : _ /\ _ |- _ => destruct H
    | r : result _ |- _ => destruct r
    end; simplify_eq.

Section Answer.
Context {X : Type} (s s' : status) (e : resource X) (r : result X) (Hanswer : answers s e s' r).

Lemma answer_known g : known s g -> known s' g.
Proof using Hanswer.
  intros [H1 H2 H3 H4 H5]. destruct e; simpl in Hanswer; answered; split; cbn; rewrite ?orb_true_iff; auto.
Qed.

Lemma answer_learned g : known s g -> known s' (learn g e r).
Proof using Hanswer.
  intros Hk. pose proof (answer_known g Hk) as [H1 H2 H3 H4 H5]. clear Hk.
  destruct e; simpl in Hanswer; answered; split; cbn in *; rewrite ?orb_true_iff, ?orb_false_r in *; tauto || auto.
Qed.

Lemma answer_resting : resting s -> resting s'.
Proof using Hanswer.
  intros [Ha Hc]. destruct e; simpl in Hanswer; answered; first [by split|congruence|split; cbn; [by rewrite Ha|done]].
Qed.

(** Only listening lets requests in. *)
Lemma answer_accepting : accepting s = false -> listens e = false \/ ok r = false -> accepting s' = false.
Proof using Hanswer.
  intros Ha Hl. destruct e; simpl in Hanswer; answered; try done; cbn in *; first [by rewrite Ha|by destruct Hl].
Qed.

(** Only [app.close()] closes the application. *)
Lemma answer_closes : closes e = false -> app_closes s' = app_closes s /\ app_closed s' = app_closed s.
Proof using Hanswer. intros He. by destruct e; simpl in Hanswer; answered. Qed.

(** What a program that closes connections knew. *)
Lemma answer_letting g : allowed X g e -> letting s' ->
  letting s \/ may_close g /\ at_stage (learn g e r) = letting_go (at_stage g).
Proof using Hanswer.
  intros Hg Hl. unfold letting in *. destruct e; simpl in Hanswer; answered; try (by left); try (by right).
Qed.

Lemma answer_exit g :
  allowed X g e -> exit_code s' = Some 0 ->
  exit_code s = Some 0 \/ at_stage g = Stopped /\ may_close g /\ k_pool g = true /\ k_redis g = true.
Proof using Hanswer.
  intros Hg Hl. destruct e; simpl in Hanswer; answered; try (by left). injection Hl as ->. right. by apply Hg.
Qed.
End Answer.

(** What start-up stands for while it runs, and the shutdown. *)
Record starts_with (p : process) (g : knowledge) : Prop := {
  sw_stage : of_startup (at_stage g);
  sw_known : known (state p) g;
  sw_silent : at_stage g <> Listening -> accepting (state p) = false;
  sw_program : follows (starting p) ended g
}.

Definition of_shutdown (at_ : stage) : Prop := at_ = Stopping \/ at_ = Stopped \/ at_ = Failed.

Record stops_with (p : process) (m : async resource unit) (g : knowledge) : Prop := {
  st_stage : of_shutdown (at_stage g);
  st_known : known (state p) g;
  st_stopped : at_stage g = Stopped -> resting (state p);
  st_closes : app_closes (state p) = match at_stage g with Stopping => 0%nat | _ => 1%nat end;
  st_program : follows m ended g
}.

Record invariant (p : process) : Prop := {
  inv_starting : exists g, starts_with p g /\ (letting (state p) -> resting (state p) \/ at_stage g = Closing);
  inv_stopping : match stopping p with
                 | None => shuttingDown p = false /\ app_closes (state p) = 0%nat
                 | Some m => shuttingDown p = true /\ exists g, stops_with p m g
                 end;
  inv_worked : letting (state p) -> all_worked (state p);
  inv_exit : exit_code (state p) = Some 0 ->
    resting (state p) /\ all_worked (state p) /\ pool_ended (state p) = true /\ redis_closed (state p) = true
}.

Lemma may_close_worked s g : known s g -> may_close g -> all_worked s.
Proof. intros Hk [_ Hw]. by eapply known_worked. Qed.

(** A step of either program keeps what does not depend on which. *)
Lemma answer_worked {X} s s' (e : resource X) r g :
  answers s e s' r -> allowed X g e -> known s g -> (letting s -> all_worked s) -> letting s' -> all_worked s'.
Proof.
  intros Ha Hg Hk Hl Hl'. apply (answer_known s s' e r Ha) in Hk as Hk'.
  destruct (answer_letting s s' e r Ha g Hg Hl') as [H|[H _]]; [|by eapply may_close_worked].
  apply Hl in H as (Hw & Hc & Hm). pose proof (answer_known s s' e r Ha
    {| at_stage := Starting; k_worker := worker_done s; k_clicks := clicks_done s; k_metrics := metrics_done s; k_pool := false; k_redis := false |}
    ltac:(by split)) as [H1 H2 H3 _ _]. split_and!; auto.
Qed.

Lemma answer_done {X} s s' (e : resource X) r :
  answers s e s' r -> all_worked s -> pool_ended s = true -> redis_closed s = true ->
  all_worked s' /\ pool_ended s' = true /\ redis_closed s' = true.
Proof.
  intros Ha (Hw & Hc & Hm) Hp Hr. pose proof (answer_known s s' e r Ha
    {| at_stage := Starting; k_worker := worker_done s; k_clicks := clicks_done s; k_metrics := metrics_done s; k_pool := true; k_redis := true |}
    ltac:(by split)) as [H1 H2 H3 H4 H5]. split_and!; [split_and!|..]; auto.
Qed.

Lemma exit_kept {X} s s' (e : resource X) r g :
  answers s e s' r -> allowed X g e -> known s g -> (at_stage g = Stopped -> resting s) ->
  (exit_code s = Some 0 -> resting s /\ all_worked s /\ pool_ended s = true /\ redis_closed s = true) ->
  exit_code s' = Some 0 -> resting s' /\ all_worked s' /\ pool_ended s' = true /\ redis_closed s' = true.
Proof.
  intros Ha Hg Hk Hst Hs He'.
  assert (Hall : resting s /\ all_worked s /\ pool_ended s = true /\ redis_closed s = true).
  { destruct (answer_exit s s' e r Ha g Hg He') as [He|(Hstop & Hm & Hp & Hr)]; [by apply Hs|].
    split; [by apply Hst|]. split; [by eapply may_close_worked|]. split; [by apply (known_pool _ _ Hk)|by apply (known_redis _ _ Hk)]. }
  destruct Hall as (Hr & Hw & Hp & Hc). split; [by eapply answer_resting|by eapply answer_done].
Qed.

Lemma starting_kept p X (e : resource X) k r s' :
  invariant p -> starting p = Await e k -> answers (state p) e s' r ->
  invariant {| state := s'; shuttingDown := shuttingDown p; handled := handled p; starting := k r; stopping := stopping p |}.
Proof.
  intros [(g & [Hst Hk Hsil Hprog] & Hlet) Hstop Hwork Hexit] Hp Ha. rewrite Hp in Hprog. destruct Hprog as [Hg Hprog].
  assert (Hget : getter e = true -> ok r = true).
  { intros He. destruct e; simpl in *; answered; done. }
  assert (Hno : closes e = false).
  { destruct e; try done. simpl in Hg. destruct Hst as [|[|]]; congruence. }
  destruct (answer_closes _ _ _ _ Ha Hno) as [Hcl Hcd]. split; cbn.
  - exists (learn g e r). split; [split|]; cbn.
    + unfold of_startup in *. destruct e; cbn; try exact Hst; try done;
        first [solve [destruct (ok r); auto]|destruct Hst as [-> |[-> | ->]]; cbn; auto].
    + by eapply answer_learned.
    + intros Hne. apply (answer_accepting _ _ _ _ Ha).
      * apply Hsil. intros He. apply Hne. destruct e; try done; simpl in *; rewrite ?He; done || congruence.
      * destruct e; try (by left). right. destruct r; [|done]. by destruct Hne.
    + by apply Hprog.
    + intros Hl. destruct (answer_letting _ _ _ _ Ha g Hg Hl) as [Hl'|Hm]; [|].
      * destruct (Hlet Hl') as [Hr|Hc]; [left; by eapply answer_resting|right].
        destruct e; cbn in *; try done; try (by rewrite Hc); congruence.
      * right. destruct Hm as [[[Hs|[Hs|Hs]] _] ->]; rewrite Hs; try done. destruct Hst as [|[|]]; congruence.
  - destruct (stopping p); [|by rewrite Hcl]. destruct Hstop as [Hsd (g' & [H1 H2 H3 H4 H5])]. split; [done|]. exists g'.
    split; cbn; [done|by eapply answer_known| |by rewrite Hcl|done]. intros Hs. by eapply answer_resting, H3.
  - by eapply answer_worked.
  - eapply exit_kept; try done. intros Hs. destruct Hst as [|[|]]; congruence.
Qed.

Lemma shutdown_stage X (e : resource X) r s s' g :
  answers s e s' r -> allowed X g e -> of_shutdown (at_stage g) -> (at_stage g = Stopped -> resting s) ->
  app_closes s = match at_stage g with Stopping => 0%nat | _ => 1%nat end ->
  of_shutdown (at_stage (learn g e r)) /\ (at_stage (learn g e r) = Stopped -> resting s')
  /\ app_closes s' = match at_stage (learn g e r) with Stopping => 0%nat | _ => 1%nat end.
Proof.
  intros Ha Hg Hst Hstop Hcl. destruct (closes e) eqn:He.
  - destruct e; try done. simpl in Ha, Hg. destruct Ha as (still & -> & Hstill). rewrite Hg in Hcl. destruct r as [u|m]; cbn.
    + split; [by right; left|]. split; [|by rewrite Hcl]. intros _. split; [|done]. cbn. by rewrite (Hstill eq_refl), andb_false_r.
    + split; [by right; right|]. split; [done|by rewrite Hcl].
  - destruct (answer_closes _ _ _ _ Ha He) as [Hcl' _].
    assert (Hsame : at_stage (learn g e r) = at_stage g).
    { destruct e; try done; cbn in Hg |- *; destruct Hst as [H|[H|H]]; rewrite H in *; done. }
    rewrite Hsame, Hcl'. split_and!; try done. intros Hs. by eapply answer_resting, Hstop.
Qed.

Lemma stopping_kept p X (e : resource X) k r s' :
  invariant p -> stopping p = Some (Await e k) -> answers (state p) e s' r ->
  invariant {| state := s'; shuttingDown := shuttingDown p; handled := handled p; starting := starting p; stopping := Some (k r) |}.
Proof.
  intros [(g0 & [Hst0 Hk0 Hsil0 Hprog0] & Hlet0) Hstop Hwork Hexit] Hp Ha. rewrite Hp in Hstop.
  destruct Hstop as [Hsd (g & [Hst Hk Hstopped Hcl [Hg Hprog]])].
  assert (Hget : getter e = true -> ok r = true).
  { intros He. destruct e; simpl in *; answered; done. }
  assert (Hno : listens e = false).
  { destruct e; try done. simpl in Hg. destruct Hst as [|[|]]; congruence. }
  destruct (shutdown_stage X e r _ _ g Ha Hg Hst Hstopped Hcl) as (Hst' & Hstopped' & Hcl'). split; cbn.
  - exists g0. split; [split; cbn; [done|by eapply answer_known| |done]|].
    + intros Hne. apply (answer_accepting _ _ _ _ Ha); [by apply Hsil0|by left].
    + intros Hl. destruct (answer_letting _ _ _ _ Ha g Hg Hl) as [Hl'|[[Hq _] _]].
      * destruct (Hlet0 Hl') as [Hr|Hc]; [left; by eapply answer_resting|by right].
      * left. eapply answer_resting; [done|]. apply Hstopped. destruct Hst as [|[|]], Hq as [|[|]]; congruence.
  - split; [done|]. exists (learn g e r). split; cbn; try done; [by eapply answer_learned|by apply Hprog].
  - by eapply answer_worked.
  - by eapply exit_kept.
Qed.

Lemma signal_kept p h :
  invariant p ->
  invariant {| state := state p; shuttingDown := (shutdown (shuttingDown p)).1; handled := h; starting := starting p;
               stopping := match (shutdown (shuttingDown p)).2 with Some m => Some m | None => stopping p end |}.
Proof.
  intros [(g0 & [Hst Hk Hsil Hprog] & Hlet) Hstop Hwork Hexit]. unfold shutdown. destruct (shuttingDown p) eqn:Hsd; cbn.
  - split; cbn; [by exists g0| |done|done]. destruct (stopping p); [|by destruct Hstop; congruence].
    destruct Hstop as [_ (g & [H1 H2 H3 H4 H5])]. split; [done|by exists g].
  - split; cbn; try done; [by exists g0|]. split; [done|].
    destruct (stopping p) as [m|]; [by destruct Hstop; congruence|]. destruct Hstop as [_ Hcl].
    exists (knowing Stopping). split; cbn; try done; [by left|]. apply shutdown_follows.
Qed.

Lemma process_invariant p : reachable p -> invariant p.
Proof.
  induction 1 as [|p p' _ IH Hstep].
  - split; cbn; try done; [|by intros [|]]. exists (knowing Starting). split; [|by intros [|]]. split; [by left|done|done|].
    apply startup_follows.
  - destruct Hstep as [p X e k r s' Hp Ha|p sig Hh|p X e k r s' Hp Ha];
      [by eapply starting_kept|by apply signal_kept|by eapply stopping_kept].
Qed.
End Process.

(** ** Properties *)

(** C19. Shutting down in order. Whenever the signals come, during start-up or after,
    and whatever the resources answer: the application is closed at most once; while
    PostgreSQL's pool or the Redis client is being closed no request is accepted, now
    or later; before that, the sync worker made its last tick or there was no Redis to
    make it against, the buffered clicks were flushed without error, and the metrics
    collector was closed; and the exit code is 0 only when all of it is done. So a
    shutdown whose last flush of clicks is rejected closes neither connection. *)
Theorem graceful_shutdown syncWorker closable p :
  reachable syncWorker closable p ->
  (app_closes (state p) <= 1)%nat
  /\ (pool_ended (state p) = true \/ redis_closed (state p) = true ->
      accepting (state p) = false
      /\ (syncWorker = true -> worker_done (state p) = true) /\ clicks_done (state p) = true
      /\ (closable = true -> metrics_done (state p) = true))
  /\ (clicks_done (state p) = false -> pool_ended (state p) = false /\ redis_closed (state p) = false)
  /\ (exit_code (state p) = Some 0 ->
      accepting (state p) = false /\ app_closed (state p) = true /\ clicks_done (state p) = true
      /\ pool_ended (state p) = true /\ redis_closed (state p) = true).
Proof.
  intros [(g & Hg & Hlet) Hstop Hwork Hexit]%process_invariant.
  assert (Hworked : letting (state p) -> clicks_done (state p) = true) by (intros Hl; by apply Hwork).
  split_and!.
  - destruct (stopping p); [|destruct Hstop as [_ ->]; lia]. destruct Hstop as [_ (g' & Hs)].
    rewrite (st_closes _ _ _ _ _ Hs). destruct (at_stage g'); lia.
  - intros Hl. destruct (Hwork Hl) as (Hw & Hc & Hm). split; [|done].
    destruct (Hlet Hl) as [[Ha _]|Hcl]; [done|]. apply (sw_silent _ _ _ _ Hg). by rewrite Hcl.
  - intros Hc. split; apply not_true_is_false; intros He;
      [rewrite (Hworked (or_introl He)) in Hc|rewrite (Hworked (or_intror He)) in Hc]; done.
  - intros He. destruct (Hexit He) as ([Ha Hcd] & (_ & Hc & _) & Hp & Hr). by split_and!.
Qed.

(** ** Witness *)

(** Everything answers; [flushed] is whether the last flush of clicks does. *)
Definition respond (flushed : bool) (X : Type) (e : resource X) (s : status) : status * result X :=
  match e in resource X return status * result X with
  | RedisIsReady => (with_work s false false false, Return true)
  | RedisIsOpen => (with_connections s false false, Return true)
  | IsConnected => (s, Return true)
  | WorkerClose => (with_work s true false false, Return tt)
  | AppListen => if app_closed s then (s, Throw "closed") else (with_app s true false (app_closes s), Return tt)
  | AppClose => (with_app s (accepting s && false) true (S (app_closes s)), Return tt)
  | ClicksClose => (with_work s false flushed false, if flushed then Return tt else Throw "no connection")
  | MetricsClose => (with_work s false false true, Return tt)
  | PoolEnd => (with_connections s true false, Return tt)
  | RedisClose => (with_connections s false true, Return tt)
  | SetExitCode code => (with_exit_code s code, Return tt)
  | PoolQuery | RedisConnect | WorkerStart | Disconnect => (s, Return tt)
  end.

Lemma respond_answers flushed {X} (e : resource X) s : let '(s', r) := respond flushed X e s in answers s e s' r.
Proof.
  destruct e; cbn; first [done|by exists true|by exists false|by destruct flushed|idtac].
  by destruct (app_closed s) eqn:Hc; cbn; rewrite ?Hc.
Qed.

Section Runs.
Context (syncWorker closable flushed : bool).

Lemma starting_runs p m :
  reachable syncWorker closable p -> starting p = m ->
  reachable syncWorker closable
    {| state := (run (respond flushed) m (state p)).1; shuttingDown := shuttingDown p; handled := handled p;
       starting := Done (run (respond flushed) m (state p)).2; stopping := stopping p |}.
Proof.
  revert p; induction m as [r|X e k IH]; intros p Hr Hm; [destruct p; cbn in *; by subst|].
  cbn [run]. pose proof (respond_answers flushed e (state p)) as Ha. destruct (respond flushed X e (state p)) as [s' r].
  eapply (IH r {| state := s'; starting := k r |}); [|done]. eapply reachable_step; [exact Hr|]. by apply (step_starting _ _ p X e k r s').
Qed.

Lemma stopping_runs p m :
  reachable syncWorker closable p -> stopping p = Some m ->
  reachable syncWorker closable
    {| state := (run (respond flushed) m (state p)).1; shuttingDown := shuttingDown p; handled := handled p;
       starting := starting p; stopping := Some (Done (run (respond flushed) m (state p)).2) |}.
Proof.
  revert p; induction m as [r|X e k IH]; intros p Hr Hm; [destruct p; cbn in *; by subst|].
  cbn [run]. pose proof (respond_answers flushed e (state p)) as Ha. destruct (respond flushed X e (state p)) as [s' r].
  eapply (IH r {| state := s'; stopping := Some (k r) |}); [|done]. eapply reachable_step; [exact Hr|]. by apply (step_stopping _ _ p X e k r s').
Qed.
End Runs.

(** Start-up, SIGTERM, and the shutdown, with a last flush of clicks that succeeds or
    not. *)
Definition served (flushed : bool) : process :=
  {| state := (run (respond flushed) (startup true true) fresh_status).1; shuttingDown := false; handled := fun _ => false;
     starting := Done (run (respond flushed) (startup true true) fresh_status).2; stopping := None |}.

Definition stopped (flushed : bool) : status := (run (respond flushed) (shutdownBody true true) (state (served flushed))).1.

Lemma stopped_reachable flushed : exists p, reachable true true p /\ state p = stopped flushed.
Proof.
  assert (Hs : reachable true true (served flushed)).
  { apply (starting_runs true true flushed (launched true true) (startup true true)); [apply reachable_launched|done]. }
  pose proof (reachable_step _ _ _ _ Hs (step_signal true true (served flushed) SIGTERM eq_refl)) as Hsig.
  apply (stopping_runs true true flushed _ (shutdownBody true true)) in Hsig; [|done]. by eexists.
Qed.

Lemma graceful_shutdown_witness :
  (exists p, reachable true true p /\ exit_code (state p) = Some 0 /\ pool_ended (state p) = true /\ accepting (state p) = false)
  /\ (exists p, reachable true true p /\ exit_code (state p) = Some 1 /\ app_closed (state p) = true
      /\ pool_ended (state p) = false /\ redis_closed (state p) = false).
Proof.
  split.
  - destruct (stopped_reachable true) as (p & Hp & Hs). exists p. split; [exact Hp|].
    assert (He : exit_code (state p) = Some 0) by (rewrite Hs; reflexivity).
    destruct (graceful_shutdown true true p Hp) as (_ & _ & _ & H). by destruct (H He) as (Ha & _ & _ & Hpool & _).
  - destruct (stopped_reachable false) as (p & Hp & Hs). exists p. split; [exact Hp|].
    assert (Hc : clicks_done (state p) = false) by (rewrite Hs; reflexivity).
    destruct (graceful_shutdown true true p Hp) as (_ & _ & H & _). destruct (H Hc) as [Hpool Hredis].
    split_and!; try done; rewrite Hs; reflexivity.
Defined.
