(* ===== verification/WarmCache.v ===== *)
(** * The cache warm-up job

    src/src/jobs/warm-cache.ts loads the live links of PostgreSQL into Redis,
    page after page in the order of their codes. It puts nothing in the cache
    that the table does not hold, whatever runs at the same time; and on quiet
    servers it ends with every live link cached. *)
From stdpp Require Import sorting.
From S2P Require Import Prelude JsNum JsString JsDate JsMap JsDouble Keys Link Async Redis Sql World Interleave.
From S2P Require Import PostgresStore CachedStore Config.
Open Scope Z_scope.

Section Job.
Context (batchSize ttlSeconds limit : Z).

(** The time to live in milliseconds, 0 for none; [None] once the link is over. *)
Definition entryTtlMs (link : LinkRow) (now : Z) : option Z :=
  let ttlMs := if ttlSeconds =? 0 then 0 else to_double (ttlSeconds * 1000) in
  match r_expires_at link with
  | None => Some ttlMs
  | Some expires =>
      let remaining := expires - now in
      if remaining <=? 0 then None
      else Some (if ttlMs =? 0 then remaining else Z.min ttlMs remaining)
  end.

(** [cacheLink] up to its only [await]: the commands of the transaction. *)
Definition cacheLinkCommands (link : LinkRow) : async effect (option (list command)) :=
  await key <- lift (linkKey (r_code link));
  await t <- now;
  match entryTtlMs link t with
  | None => resolve None
  | Some ttlMs =>
      await created <- lift (toISOString (r_created_at link));
      await expires <- lift (isoOr (r_expires_at link));
      resolve (Some
        [HSET key [("code", r_code link); ("targetUrl", r_target_url link); ("createdAt", created);
                   ("expiresAt", expires); ("clicks", r_clicks link)];
         if ttlMs =? 0 then PERSIST key else PEXPIRE key ttlMs])
  end.

(** Its [transaction.exec()]. *)
Definition cacheLinkExec (commands : option (list command)) : async effect unit :=
  match commands with
  | None => resolve tt
  | Some commands => await_ redis_eval (multi commands); resolve tt
  end.

(** [Promise.all(rows.map(cacheLink))]. [map] calls [cacheLink] for every row
    without a pause; each call computes its commands and hands them to the client,
    which sends what it was handed once the loop of [map] is over, in order. So no
    transaction runs before the last call is prepared, and one that fails takes none
    of the others back. The promise rejects with the first error in time: that of a
    call that fails to compute its commands, if there is one, and otherwise that of
    the first transaction that fails, for the answers come in order. *)
Fixpoint prepareLinks (rows : list LinkRow) : async effect (list (result (option (list command)))) :=
  match rows with
  | [] => resolve []
  | row :: rows =>
      io_bind (cacheLinkCommands row) (fun prepared =>
        await rest <- prepareLinks rows;
        resolve (prepared :: rest))
  end.

Fixpoint execLinks (prepared : list (result (option (list command)))) : async effect unit :=
  match prepared with
  | [] => resolve tt
  | p :: rest =>
      io_bind (await commands <- lift p; cacheLinkExec commands) (fun r =>
        io_bind (execLinks rest) (fun rs =>
          Done (match r with Throw e => Throw e | Return _ => rs end)))
  end.

Fixpoint first_error {A} (results : list (result A)) : option string :=
  match results with
  | [] => None
  | Throw e :: _ => Some e
  | Return _ :: results => first_error results
  end.

Definition cacheLinks (rows : list LinkRow) : async effect unit :=
  await prepared <- prepareLinks rows;
  io_bind (execLinks prepared) (fun sent =>
    Done (match first_error prepared with Some e => Throw e | None => sent end)).

(** [while (loaded < limit)], at most [fuel] times; [None] when that is not
    enough. *)
Fixpoint pages (fuel : nat) (lastCode : string) (loaded : Z) : async effect (option Z) :=
  match fuel with
  | O => resolve None
  | S fuel =>
      if limit <=? loaded then resolve (Some loaded)
      else
        await rows <- pg (SelectPage lastCode (Z.min batchSize (limit - loaded)));
        match last rows with
        | None => resolve (Some loaded)
        | Some row =>
            await_ cacheLinks rows;
            pages fuel (r_code row) (loaded + Z.of_nat (List.length rows))
        end
  end.

Definition warm (fuel : nat) : async effect (option Z) := pages fuel "" 0.
End Job.

(** The job with its environment and its command line: the size of a page, the
    time to live and the limit. *)
Definition jobArguments (env : string -> option string) (argv : list string) : result (Z * Z * Z) :=
  let args := parseArgs argv in
  try batchSize <- positiveIntegerArg args "batch" 2000 false;
  try ttlSeconds <- positiveIntegerArg args "ttl" (job_redisCacheTtlSeconds (loadJobEnv env)) true;
  try limit <- positiveIntegerArg args "limit" MAX_SAFE_INTEGER false;
  Return (batchSize, ttlSeconds, limit).

Definition warmCache (env : string -> option string) (argv : list string) (fuel : nat) : async effect (option Z) :=
  await ' (batchSize, ttlSeconds, limit) <- lift (jobArguments env argv);
  warm batchSize ttlSeconds limit fuel.

(** ** The cache stays honest *)
Section Honest.
Context `{Redis} `{Postgres} {Bl : Backlog} (otherDate : string -> option Z) (batchSize ttlSeconds limit : Z).

Abbreviation safely := (safe (fun _ : choice => True) (keeps otherDate) (keeps otherDate)).

(** The transaction writes the link of a row. *)
Definition writes (w : world) (commands : list command) : Prop :=
  exists link created expires clicks lifetime,
    serves w (code link) link
    /\ toISOString (createdAt link) = Return created /\ isoOr (expiresAt link) = Return expires
    /\ commands = [HSET (link_key (code link))
         [("code", code link); ("targetUrl", targetUrl link); ("createdAt", created);
          ("expiresAt", expires); ("clicks", clicks)]; lifetime]
    /\ (lifetime = PERSIST (link_key (code link)) \/ exists ms, lifetime = PEXPIRE (link_key (code link)) ms).

Definition truthful (w : world) (prepared : result (option (list command))) : Prop :=
  forall commands, prepared = Return (Some commands) -> writes w commands.

Lemma truthful_kept s s' p : keeps otherDate s s' -> truthful s.1 p -> truthful s'.1 p.
Proof.
  intros Hk Hp commands ->. destruct (Hp _ eq_refl) as (link & created & expires & clicks & lifetime & Hs & Hw).
  exists link, created, expires, clicks, lifetime. split; [by eapply keeps_serves|exact Hw].
Qed.

Definition row_served (w : world) (row : LinkRow) : Prop := serves w (r_code row) (mapLink row).

Lemma row_served_kept s s' rows :
  keeps otherDate s s' -> Forall (row_served s.1) rows -> Forall (row_served s'.1) rows.
Proof. intros Hk Hrows. eapply Forall_impl; [exact Hrows|]. intros row. by apply (keeps_serves _ _ _ _ _ Hk). Qed.

Lemma cacheLinkCommands_safely row s :
  row_served s.1 row -> safely (cacheLinkCommands ttlSeconds row) (fun s' p => truthful s'.1 p) s.
Proof.
  intros Hs. unfold cacheLinkCommands. rewrite linkKey_ok. apply safely_lift, safely_now. intros s1 t H1.
  assert (H2 : row_served s1.1 row) by by eapply keeps_serves.
  destruct (entryTtlMs _ _ _) as [ttlMs|]; [|by apply safely_resolve].
  destruct (toISOString (r_created_at row)) as [created|] eqn:Hcr; [|done].
  destruct (isoOr (r_expires_at row)) as [expires|] eqn:Hex; [|done].
  do 2 apply safely_lift. apply safely_resolve. intros s2 Hk. apply (truthful_kept s1); [done|].
  intros commands [= <-]. exists (mapLink row), created, expires, (r_clicks row).
  eexists. split_and!; [exact H2|done|done|reflexivity|].
  destruct (ttlMs =? 0); [by left|right; by eexists].
Qed.

(** A change of the time to live keeps the hash, or nothing is left. *)
Lemma lifetime_hash key k lifetime h :
  lifetime = PERSIST key \/ (exists ms, lifetime = PEXPIRE key ms) ->
  hash_at (execute k lifetime).1 key = Return h -> h = ∅ \/ hash_at k key = Return h.
Proof.
  intros [->|[ms ->]].
  - rewrite execute_PERSIST. unfold hash_at. destruct (k !! key) as [e|] eqn:He; simpl.
    + rewrite lookup_insert_eq. by right.
    + rewrite He. by right.
  - unfold hash_at. destruct (execute_PEXPIRE_value k key ms) as [->| ->]; [|by right].
    intros [= <-]. by left.
Qed.

Lemma cacheLinkExec_safely p s :
  truthful s.1 p ->
  safely (await commands <- lift p; cacheLinkExec commands) (fun _ _ => True) s.
Proof.
  intros Hp. destruct p as [[commands|]|]; [|done..]. apply safely_lift.
  destruct (Hp _ eq_refl) as (link & created & expires & clicks & lifetime & Hs & Hcr & Hex & -> & Hl).
  assert (Hkey : command_key lifetime = link_key (code link)) by by destruct Hl as [->|[ms ->]].
  apply (safely_then _ _ _ (fun _ _ => True)); [|by intros; apply safely_resolve|done].
  apply safely_redis; [|done]. intros s1 H1. rewrite logged_multi2. rewrite execute_HSET by done. unfold answer.
  set (fields := [_; _; _; _; _]).
  assert (Hout : forall k1 key, key <> link_key (code link) -> (execute k1 lifetime).1 !! key = k1 !! key).
  { intros k1 key Hne. apply execute_frame. congruence. }
  destruct (hash_at (ks s1.1) (link_key (code link))) as [h|e] eqn:Hh; cbv beta iota zeta.
  - pose proof (lifetime_hash (link_key (code link)) (put (ks s1.1) (link_key (code link)) (RHash (set_fields h fields))) lifetime) as Hlife.
    specialize (Hout (put (ks s1.1) (link_key (code link)) (RHash (set_fields h fields)))).
    destruct (execute _ lifetime) as [k2 r2]. split; [|by destruct r2]. apply (keeps_frame _ _ _ _ (code link)).
    + intros key Hne. rewrite Hout by done. by apply put_lookup_ne.
    + intros h' l Hh' Hi. destruct (Hlife _ Hl Hh') as [->|Hh2]; [by rewrite identity_empty in Hi|].
      rewrite hash_at_put in Hh2. injection Hh2 as <-.
      apply (written_identity _ h link created expires) in Hi; [|done|done]. subst l.
      right. apply vouched_with, (vouched_kept s1); [by intros ? r ?; exists r|by eexists|].
      left. by eapply keeps_serves.
  - pose proof (lifetime_hash (link_key (code link)) (ks s1.1) lifetime) as Hlife. specialize (Hout (ks s1.1)).
    destruct (execute _ lifetime) as [k2 r2]. split; [|by destruct r2]. apply (keeps_frame _ _ _ _ (code link)).
    + intros key Hne. by rewrite Hout.
    + intros h' l Hh' Hi. destruct (Hlife _ Hl Hh') as [->|Hh2]; [by rewrite identity_empty in Hi|]. congruence.
Qed.

Lemma prepareLinks_safely rows s :
  Forall (row_served s.1) rows ->
  safely (prepareLinks ttlSeconds rows)
    (fun s' r => match r with Return ps => Forall (truthful s'.1) ps | Throw _ => True end) s.
Proof.
  revert s; induction rows as [|row rows IH]; intros s Hs; cbn [prepareLinks].
  { apply safely_resolve. intros s' _. constructor. }
  apply Forall_cons in Hs as [Hrow Hrows]. apply safe_bind; [apply keeps_refl|].
  eapply safe_mono; [|apply (safely_frame _ (fun s => Forall (row_served s.1) rows));
    [by intros ??; apply row_served_kept|by apply cacheLinkCommands_safely|done]].
  intros s1 p [Hp Hs1].
  eapply (safely_then _ _ _ (fun s' ps => Forall (truthful s'.1) (p :: ps))); [| |done].
  - eapply safe_mono; [|apply (safely_frame _ (fun s => truthful s.1 p)); [|by apply IH|done]].
    + intros s2 [ps|e] [Hps Hp2]; [|done]. by constructor.
    + intros s2 s3. apply truthful_kept.
  - intros s2 ps Hps. apply safely_resolve. intros s3 Hk. eapply Forall_impl; [exact Hps|].
    intros q. by apply truthful_kept.
Qed.

Lemma execLinks_safely ps s : Forall (truthful s.1) ps -> safely (execLinks ps) (fun _ _ => True) s.
Proof.
  revert s; induction ps as [|p ps IH]; intros s Hs; cbn [execLinks]; [by apply safely_resolve|].
  apply Forall_cons in Hs as [Hp Hps]. apply safe_bind; [apply keeps_refl|].
  eapply safe_mono; [|apply (safely_frame _ (fun s => Forall (truthful s.1) ps));
    [|by apply cacheLinkExec_safely|done]].
  - intros s1 r [_ Hs1]. apply safe_bind; [apply keeps_refl|]. eapply safe_mono; [|by apply IH]. done.
  - intros s1 s2 Hk Hf. eapply Forall_impl; [exact Hf|]. intros q. by apply truthful_kept.
Qed.

Lemma page_served (s1 s2 s3 : state) lastCode count rows :
  0 <= count <= INT8_MAX ->
  query _ (pg_clock s1.1) (db s1.1) (SelectPage lastCode count) = (db s2.1, Return rows) ->
  keeps otherDate s2 s3 -> Forall (row_served s3.1) rows.
Proof.
  intros Hcount Hq Hk. rewrite query_SelectPage in Hq by done. injection Hq as Hdb <-.
  apply Forall_forall. intros row (code & _ & Hrow)%list_elem_of_omap.
  destruct (Sql.links (db s1.1) !! code) as [r|] eqn:Hr; [|done]. injection Hrow as <-.
  eapply keeps_serves; [exact Hk|]. exists r. split; [by rewrite <- Hdb|done].
Qed.

Lemma pages_safely fuel lastCode loaded s :
  0 < batchSize <= MAX_SAFE_INTEGER ->
  safely (pages batchSize ttlSeconds limit fuel lastCode loaded) (fun _ _ => True) s.
Proof.
  intros Hb. revert lastCode loaded s; induction fuel as [|fuel IH]; intros lastCode loaded s; cbn [pages];
    [by apply safely_resolve|].
  destruct (Z.leb_spec limit loaded) as [_|Hlt]; [by apply safely_resolve|].
  apply (safely_then _ _ _ (fun s' rows => Forall (row_served s'.1) rows)); [| |done].
  - apply pg_honest; [|done]. intros s1 s2 s3 rows. apply page_served.
    unfold MAX_SAFE_INTEGER, INT8_MAX in *. lia.
  - intros s1 rows Hrows. destruct (last rows) as [row|]; [|by apply safely_resolve].
    apply (safely_then _ _ _ (fun _ _ => True)); [|intros s2 _ _; apply IH|done].
    apply (safely_then _ _ _ (fun s' ps => Forall (truthful s'.1) ps)); [by apply prepareLinks_safely| |done].
    intros s2 ps Hps. apply safe_bind; [apply keeps_refl|]. eapply safe_mono; [|by apply execLinks_safely].
    intros s3 r _ s4 _. by destruct (first_error ps), r.
Qed.
End Honest.

(** ** The pages *)
Section Pages.
Context {R : string -> string -> Prop} `{!RelDecision R, !PartialOrder R, !Total R}.
Context (now : Z) (l : gmap string row).

Definition live_in (code : string) : Prop := exists r, l !! code = Some r /\ is_live now r = true.

Lemma codes_after_elem last code :
  code ∈ codes_after R now l last <-> live_in code /\ code <> last /\ R last code.
Proof.
  unfold codes_after. rewrite merge_sort_Permutation, list_elem_of_filter, list_elem_of_fmap. unfold live_in. split.
  - intros (Hc & [c r] & -> & Hin). apply list_elem_of_filter in Hin as [Hl Hin%elem_of_map_to_list].
    split; [|done]. exists r. split; [done|by apply Is_true_eq_true].
  - intros ((r & Hr & Hl) & Hc). split; [done|]. exists (code, r). split; [done|].
    apply list_elem_of_filter. split; [by apply Is_true_eq_left|by apply elem_of_map_to_list].
Qed.

Lemma codes_after_sorted last : StronglySorted R (codes_after R now l last).
Proof. apply StronglySorted_merge_sort; apply _. Qed.

Lemma codes_after_NoDup last : NoDup (codes_after R now l last).
Proof.
  unfold codes_after. rewrite merge_sort_Permutation. apply NoDup_filter.
  apply NoDup_fmap_fst; [|apply NoDup_filter, NoDup_map_to_list].
  intros x r1 r2 [_ H1%elem_of_map_to_list]%list_elem_of_filter [_ H2%elem_of_map_to_list]%list_elem_of_filter. congruence.
Qed.

(** The page after a page. *)
Lemma codes_after_page last n c page :
  take n (codes_after R now l last) = page ++ [c] ->
  codes_after R now l c = drop n (codes_after R now l last).
Proof.
  intros Hpage. set (L := codes_after R now l last) in *.
  pose proof (codes_after_sorted last) as HS. pose proof (codes_after_NoDup last) as HN. fold L in HS, HN.
  rewrite <- (take_drop n L), Hpage in HS, HN.
  apply StronglySorted_app in HS as (Hcross & Hs1 & Hs2). apply NoDup_app in HN as (_ & Hd & HN2).
  apply (StronglySorted_unique R); [apply codes_after_sorted|done|].
  apply NoDup_Permutation; [apply codes_after_NoDup|done|]. intros x. rewrite codes_after_elem.
  assert (Hc : c ∈ L). { rewrite <- (take_drop n L), Hpage. set_solver. }
  apply codes_after_elem in Hc as (Hlc & Hne & Hlast). split.
  - intros (Hx & Hxc & HR). assert (Hin : x ∈ L).
    { apply codes_after_elem. split_and!; [done| |by transitivity c].
      intros ->. apply Hxc. by apply (anti_symm R). }
    rewrite <- (take_drop n L), Hpage in Hin. apply elem_of_app in Hin as [Hin|Hin]; [|done]. exfalso. apply Hxc.
    apply elem_of_app in Hin as [Hin|Hin%list_elem_of_singleton]; [|done].
    apply (anti_symm R); [|done]. apply StronglySorted_app in Hs1 as (Hs1 & _). apply Hs1; [done|set_solver].
  - intros Hx. assert (Hin : x ∈ L). { rewrite <- (take_drop n L). set_solver. }
    apply codes_after_elem in Hin as (Hl & _). split_and!; [done| |apply Hcross; set_solver].
    intros ->. apply (Hd c); set_solver.
Qed.

Lemma rows_at_codes date codes : Forall live_in codes -> r_code <$> rows_at date l codes = codes.
Proof.
  induction 1 as [|code codes (r & Hr & _) _ IH]; [done|].
  unfold rows_at. cbn. rewrite Hr. cbn. f_equal. exact IH.
Qed.
End Pages.

(** ** A run on quiet servers *)
Section Quiet.
Context `{Redis} `{Postgres} (batchSize ttlSeconds limit : Z).
Context (Hbatch : 0 < batchSize <= MAX_SAFE_INTEGER) (Httl : 0 <= ttlSeconds) (Hms : ttlSeconds * 1000 <= MAX_SAFE_INTEGER).
Context (Hlimit : limit <= MAX_SAFE_INTEGER).

(** What a page gives of a row the program wrote. *)
Definition sane (row : LinkRow) : Prop :=
  cacheable (mapLink row) /\ r_clicks row = js_String (clicks (mapLink row)).

Definition text (r : result string) : string := match r with Return s => s | Throw _ => "" end.

Definition row_fields (row : LinkRow) : list (string * string) :=
  [("code", r_code row); ("targetUrl", r_target_url row); ("createdAt", text (toISOString (r_created_at row)));
   ("expiresAt", text (isoOr (r_expires_at row))); ("clicks", r_clicks row)].

Definition hash_of (k : keyspace) (key : string) : gmap string string :=
  match hash_at k key with Return h => h | Throw _ => ∅ end.

(** What the job leaves of a row in the cache. *)
Definition write_entry (t : Z) (k : keyspace) (row : LinkRow) : keyspace :=
  let key := link_key (r_code row) in
  match entryTtlMs ttlSeconds row t with
  | None => k
  | Some ms =>
      <[key := {| value := RHash (set_fields (hash_of k key) (row_fields row));
                  pttl := if ms =? 0 then None else Some ms |}]> k
  end.

(** Links are cached as hashes, and no key is about to expire. *)
Record settled_cache (k : keyspace) : Prop := {
  sc_links code : returns (hash_at k (link_key code));
  sc_alive key e : k !! key = Some e -> from_option (fun ms => 0 < ms) True (pttl e)
}.

Lemma ttl_bounds row t ms : sane row -> 0 <= t -> entryTtlMs ttlSeconds row t = Some ms -> 0 <= ms /\ ttl_ok ms.
Proof.
  intros [(_ & _ & _ & _ & (expires & He)) _] Ht. unfold entryTtlMs. cbv zeta.
  unfold MAX_SAFE_INTEGER in *. rewrite to_double_exact by lia. unfold ttl_ok. cbn [mapLink expiresAt] in He.
  set (T := if ttlSeconds =? 0 then 0 else _). assert (HT : 0 <= T <= 2 ^ 53 - 1) by (subst T; destruct (_ =? _); lia).
  clearbody T. destruct (r_expires_at row) as [e|]; [|intros [= <-]; lia].
  destruct (Z.leb_spec (e - t) 0); [done|]. simpl in He. unfold toISOString in He.
  destruct (valid_time e) eqn:Hv; [|done]. unfold valid_time, MAX_TIME in Hv. bool_to_prop.
  destruct (T =? 0); intros [= <-]; lia.
Qed.

Lemma wait_settled w : settled_cache (ks w) -> wait 0 w = w.
Proof.
  intros [_ Ha]. destruct w as [k d t pt cs b]. unfold wait. cbn in *. f_equal; [|lia..].
  apply map_eq. intros key. rewrite elapse_lookup. destruct (k !! key) as [[v [ms|]]|] eqn:He; cbn; [|done..].
  specialize (Ha _ _ He). cbn in Ha. rewrite (proj2 (Z.leb_gt _ _)) by lia. by rewrite Z.sub_0_r.
Qed.

Lemma write_entry_settled t k row :
  0 <= t -> sane row -> settled_cache k -> settled_cache (write_entry t k row).
Proof.
  intros Ht Hrow [Hl Ha]. unfold write_entry. destruct (entryTtlMs _ _ _) as [ms|] eqn:Hms'; [|by split].
  apply ttl_bounds in Hms' as [Hpos _]; [|done..]. split.
  - intros code. destruct (decide (link_key (r_code row) = link_key code)) as [He|Hne].
    + unfold hash_at. rewrite He, lookup_insert_eq. by eexists.
    + rewrite (hash_at_ext _ k); [apply Hl|by apply lookup_insert_ne].
  - intros key e. destruct (decide (link_key (r_code row) = key)) as [<-|Hne].
    + rewrite lookup_insert_eq. intros [= <-]. cbn. destruct (Z.eqb_spec ms 0); cbn; [done|lia].
    + rewrite lookup_insert_ne by done. apply Ha.
Qed.

(** The transaction of a sane row. *)
Definition row_commands (t : Z) (row : LinkRow) : option (list command) :=
  (fun ms => [HSET (link_key (r_code row)) (row_fields row);
              if ms =? 0 then PERSIST (link_key (r_code row)) else PEXPIRE (link_key (r_code row)) ms])
  <$> entryTtlMs ttlSeconds row t.

Lemma commands_exec row w :
  sane row -> settled_cache (ks w) ->
  exec (cacheLinkCommands ttlSeconds row) [] w = (w, Return (row_commands (clock w) row)).
Proof.
  intros [(_ & _ & _ & (created & Hcr) & (expires & Hex)) _] Hw. unfold cacheLinkCommands, row_commands, row_fields.
  cbn [mapLink createdAt expiresAt] in Hcr, Hex.
  rewrite linkKey_ok, exec_given, exec_now, wait_settled by done.
  destruct (entryTtlMs _ _ _) as [ms|]; [|apply exec_resolve].
  rewrite Hcr, Hex, !exec_given. apply exec_resolve.
Qed.

Lemma transaction_exec row w :
  0 <= clock w -> sane row -> settled_cache (ks w) ->
  exec (cacheLinkExec (row_commands (clock w) row)) [] w
  = (with_ks w (write_entry (clock w) (ks w) row), Return tt).
Proof.
  intros Ht Hrow Hw. unfold row_commands, write_entry.
  destruct (entryTtlMs ttlSeconds row (clock w)) as [ms|] eqn:Hms'; cbn [fmap option_fmap option_map cacheLinkExec];
    [|rewrite exec_resolve; by destruct w].
  destruct (ttl_bounds _ _ _ Hrow Ht Hms') as [Hpos Hok].
  rewrite exec_script, wait_settled by done. unfold eval. cbn [multi io_bind run call on_server].
  destruct (sc_links _ Hw (r_code row)) as [h Hh]. rewrite execute_HSET, Hh by done. unfold answer, hash_of. rewrite Hh.
  cbv beta iota zeta. cbn [run on_server]. set (k := put _ _ _).
  assert (Hk : k !! link_key (r_code row) = Some {| value := RHash (set_fields h (row_fields row));
      pttl := ks w !! link_key (r_code row) ≫= pttl |}) by apply lookup_insert_eq.
  assert (Hput : forall e, <[link_key (r_code row) := e]> k = <[link_key (r_code row) := e]> (ks w))
    by (intros e; apply insert_insert_eq).
  destruct (Z.eqb_spec ms 0) as [->|Hne].
  - rewrite execute_PERSIST, Hk, Hput. reflexivity.
  - rewrite execute_PEXPIRE by done. unfold set_ttl. rewrite Hk, (proj2 (Z.leb_gt _ _)), Hput by lia. reflexivity.
Qed.

Lemma exec_io_bind {A B} (m : async effect A) (f : result A -> async effect B) w :
  exec (io_bind m f) [] w = let '(w', r) := exec m [] w in exec (f r) [] w'.
Proof.
  unfold exec. rewrite run_bind. pose proof (run_nil m w) as Hnil.
  destruct (run handle m ([], w)) as [[cs w'] r]. simpl in Hnil. by subst cs.
Qed.

Lemma prepareLinks_exec rows w :
  Forall sane rows -> settled_cache (ks w) ->
  exec (prepareLinks ttlSeconds rows) [] w = (w, Return ((fun row => Return (row_commands (clock w) row)) <$> rows)).
Proof.
  intros Hrows Hw. induction Hrows as [|row rows Hrow _ IH]; cbn [prepareLinks]; [apply exec_resolve|].
  rewrite exec_io_bind, commands_exec by done. rewrite exec_bind, IH. apply exec_resolve.
Qed.

Definition write_entries (t : Z) (k : keyspace) (rows : list LinkRow) : keyspace := fold_left (write_entry t) rows k.

Lemma write_entries_settled t k rows :
  0 <= t -> Forall sane rows -> settled_cache k -> settled_cache (write_entries t k rows).
Proof.
  intros Ht Hrows. revert k. induction Hrows as [|row rows Hrow _ IH]; intros k Hk; [done|].
  by apply IH, write_entry_settled.
Qed.

Lemma execLinks_exec rows w :
  0 <= clock w -> Forall sane rows -> settled_cache (ks w) ->
  exec (execLinks ((fun row => Return (row_commands (clock w) row)) <$> rows)) [] w
  = (with_ks w (write_entries (clock w) (ks w) rows), Return tt).
Proof.
  intros Ht Hrows. revert w Ht. induction Hrows as [|row rows Hrow _ IH]; intros w Ht Hw; cbn [fmap list_fmap execLinks].
  - rewrite exec_resolve. by destruct w.
  - rewrite exec_io_bind, exec_given, transaction_exec by done. rewrite exec_io_bind.
    specialize (IH (with_ks w (write_entry (clock w) (ks w) row)) Ht). cbn [with_ks clock ks] in IH.
    rewrite IH by by apply write_entry_settled. reflexivity.
Qed.

Lemma cacheLinks_exec rows w :
  0 <= clock w -> Forall sane rows -> settled_cache (ks w) ->
  exec (cacheLinks ttlSeconds rows) [] w = (with_ks w (write_entries (clock w) (ks w) rows), Return tt).
Proof.
  intros Ht Hrows Hw. unfold cacheLinks. rewrite exec_bind, prepareLinks_exec by done.
  rewrite exec_io_bind, execLinks_exec by done.
  assert (Hnone : first_error ((fun row => Return (row_commands (clock w) row)) <$> rows) = None).
  { clear. by induction rows. }
  by rewrite Hnone.
Qed.

(** *** All pages *)

(** Every live row of the table is one the program wrote. *)
Definition sane_table (w : world) : Prop :=
  forall code r, Sql.links (db w) !! code = Some r -> sane (live_row driver_date code r).

Lemma rows_sane w codes : sane_table w -> Forall sane (rows_at driver_date (Sql.links (db w)) codes).
Proof.
  intros Hw. apply Forall_forall. intros row (code & _ & Hrow)%list_elem_of_omap.
  destruct (Sql.links (db w) !! code) as [r|] eqn:Hr; [|done]. injection Hrow as <-. by apply Hw.
Qed.

Definition rows_from (w : world) (lastCode : string) (n : Z) : list LinkRow :=
  rows_at driver_date (Sql.links (db w))
    (take (Z.to_nat n) (codes_after collate (pg_clock w) (Sql.links (db w)) lastCode)).

Lemma page_exec lastCode n w :
  0 <= n <= INT8_MAX -> settled_cache (ks w) ->
  exec (pg (SelectPage lastCode n)) [] w = (w, Return (rows_from w lastCode n)).
Proof.
  intros Hn Hw. rewrite exec_pg, wait_settled by done. unfold on_pg. rewrite query_SelectPage by done. by destruct w.
Qed.

Lemma codes_live w lastCode : Forall (live_in (pg_clock w) (Sql.links (db w)))
  (codes_after collate (pg_clock w) (Sql.links (db w)) lastCode).
Proof. apply Forall_forall. intros code Hin. by apply codes_after_elem in Hin as [? _]. Qed.

Lemma rows_from_codes w lastCode n :
  r_code <$> rows_from w lastCode n
  = take (Z.to_nat n) (codes_after collate (pg_clock w) (Sql.links (db w)) lastCode).
Proof. apply (rows_at_codes (pg_clock w)). apply Forall_take, codes_live. Qed.

Lemma rows_from_split w lastCode row n m :
  last (rows_from w lastCode n) = Some row -> 0 <= n -> 0 <= m ->
  rows_from w lastCode (n + m) = rows_from w lastCode n ++ rows_from w (r_code row) m.
Proof.
  intros Hlast Hn Hm'. unfold rows_from. apply last_Some in Hlast as (rows & Hrows).
  pose proof (f_equal (fmap r_code) Hrows) as Hpage. rewrite rows_from_codes, fmap_app in Hpage.
  rewrite (codes_after_page _ _ _ _ _ _ Hpage), Z2Nat.inj_add, <- take_take_drop by done.
  unfold rows_at. by rewrite omap_app.
Qed.

Definition codes_from (w : world) (lastCode : string) : list string :=
  codes_after collate (pg_clock w) (Sql.links (db w)) lastCode.

Lemma rows_from_length w lastCode n :
  List.length (rows_from w lastCode n) = (Z.to_nat n `min` List.length (codes_from w lastCode))%nat.
Proof. rewrite <- (length_fmap r_code), rows_from_codes. apply length_take. Qed.

Lemma rows_from_exact w lastCode n :
  rows_from w lastCode (Z.of_nat (List.length (rows_from w lastCode n))) = rows_from w lastCode n.
Proof.
  rewrite rows_from_length. unfold rows_from, codes_from. rewrite Nat2Z.id.
  destruct (Nat.le_ge_cases (Z.to_nat n) (List.length (codes_after collate (pg_clock w) (Sql.links (db w)) lastCode))).
  - by rewrite Nat.min_l.
  - by rewrite Nat.min_r, firstn_all, (take_ge _ (Z.to_nat n)) by lia.
Qed.

Lemma codes_from_shrink w lastCode n row :
  last (rows_from w lastCode n) = Some row -> 0 <= n ->
  (List.length (codes_from w (r_code row)) < List.length (codes_from w lastCode))%nat.
Proof.
  intros Hlast Hn. pose proof Hlast as (rows & Hrows)%last_Some.
  pose proof (f_equal (fmap r_code) Hrows) as Hpage. rewrite rows_from_codes, fmap_app in Hpage.
  unfold codes_from. rewrite (codes_after_page _ _ _ _ _ _ Hpage), length_drop.
  apply (f_equal List.length) in Hrows. rewrite rows_from_length, length_app in Hrows. unfold codes_from in Hrows. simpl in Hrows. lia.
Qed.

Lemma pages_exec fuel lastCode loaded w :
  (List.length (codes_from w lastCode) < fuel)%nat -> 0 <= loaded ->
  0 <= clock w -> sane_table w -> settled_cache (ks w) ->
  exec (pages batchSize ttlSeconds limit fuel lastCode loaded) [] w
  = (with_ks w (write_entries (clock w) (ks w) (rows_from w lastCode (limit - loaded))),
     Return (Some (loaded + Z.of_nat (List.length (rows_from w lastCode (limit - loaded)))))).
Proof.
  revert lastCode loaded w; induction fuel as [|fuel IH]; intros lastCode loaded w Hfuel Hl Ht Hsane Hw; [lia|].
  cbn [pages]. destruct (Z.leb_spec limit loaded) as [Hle|Hlt].
  { assert (rows_from w lastCode (limit - loaded) = []) as ->.
    { apply length_zero_iff_nil. rewrite rows_from_length. lia. }
    rewrite exec_resolve. destruct w. cbn. by rewrite Z.add_0_r. }
  set (n := Z.min batchSize (limit - loaded)). assert (Hn : 0 < n <= MAX_SAFE_INTEGER) by (subst n; lia).
  rewrite exec_bind, page_exec by (try done; unfold MAX_SAFE_INTEGER, INT8_MAX in *; lia).
  destruct (last (rows_from w lastCode n)) as [row|] eqn:Hlast.
  - rewrite exec_bind, cacheLinks_exec by (try done; by apply rows_sane).
    pose proof (codes_from_shrink _ _ _ _ Hlast ltac:(lia)) as Hshrink.
    rewrite IH; cbn [with_ks db ks clock pg_clock];
      [|change (List.length (codes_from w (r_code row)) < fuel)%nat; lia|lia|done|done|
       by apply write_entries_settled; [|apply rows_sane|]].
    change (rows_from (with_ks w _) (r_code row)) with (rows_from w (r_code row)).
    set (rows := rows_from w lastCode n) in *. set (len := Z.of_nat (List.length rows)).
    assert (Hlen : len <= n) by (subst len rows; rewrite rows_from_length; lia).
    assert (Hall : rows_from w lastCode (limit - loaded) = rows ++ rows_from w (r_code row) (limit - (loaded + len))).
    { replace (limit - loaded) with (len + (limit - (loaded + len))) by lia.
      rewrite (rows_from_split _ _ row); [|subst len rows; by rewrite rows_from_exact|lia|subst n; lia].
      f_equal. subst len rows. apply rows_from_exact. }
    rewrite Hall, length_app. f_equal; [by unfold write_entries; rewrite fold_left_app|]. subst len. do 2 f_equal. lia.
  - apply last_None in Hlast. assert (rows_from w lastCode (limit - loaded) = []) as ->.
    { apply (f_equal List.length) in Hlast. rewrite rows_from_length in Hlast. simpl in Hlast.
      apply length_zero_iff_nil. rewrite rows_from_length. lia. }
    rewrite exec_resolve. destruct w. cbn. by rewrite Z.add_0_r.
Qed.

(** *** What is in the cache then *)
Context (otherDate otherNumber : string -> option Z).

Lemma mapLink_live code r : mapLink (live_row driver_date code r) = read_link code r.
Proof. unfold mapLink, read_link, live_row, Number. cbn. by rewrite read_integer_String. Qed.

Lemma row_stands h row : sane row -> stands_for otherDate otherNumber (set_fields h (row_fields row)) (mapLink row).
Proof.
  intros [Hca Hclicks]. pose proof Hca as (_ & _ & _ & (created & Hcr) & (expires & Hex)).
  unfold row_fields. rewrite Hclicks. cbn [mapLink createdAt expiresAt] in Hcr, Hex. rewrite Hcr, Hex.
  by apply (written_stands otherDate otherNumber h (mapLink row)).
Qed.

(** The link of the row is cached, for [ms] milliseconds or for good. *)
Definition cached_for (k : keyspace) (code : string) (link : Link) (ms : Z) : Prop :=
  exists h, k !! link_key code = Some {| value := RHash h; pttl := if ms =? 0 then None else Some ms |}
    /\ stands_for otherDate otherNumber h link.

Lemma write_entries_other t k rows key :
  (forall row, row ∈ rows -> key <> link_key (r_code row)) -> write_entries t k rows !! key = k !! key.
Proof.
  revert k; induction rows as [|row rows IH]; intros k Hkey; [done|]. cbn [write_entries fold_left].
  fold (write_entries t (write_entry t k row) rows). rewrite IH by (intros; apply Hkey; set_solver).
  unfold write_entry. destruct (entryTtlMs _ _ _); [|done].
  rewrite lookup_insert_ne; [done|]. intros He. by apply (Hkey row); [set_solver|].
Qed.

Lemma write_entries_cached t k rows row ms :
  Forall sane rows -> NoDup (r_code <$> rows) -> row ∈ rows -> entryTtlMs ttlSeconds row t = Some ms ->
  cached_for (write_entries t k rows) (r_code row) (mapLink row) ms.
Proof.
  intros Hsane. revert k; induction Hsane as [|row' rows Hrow Hsane IH]; intros k Hnd Hin Hms'; [by apply not_elem_of_nil in Hin|].
  cbn [write_entries fold_left]. fold (write_entries t (write_entry t k row') rows).
  apply NoDup_cons in Hnd as [Hnew Hnd]. apply elem_of_cons in Hin as [->|Hin]; [|by apply IH].
  unfold cached_for. rewrite write_entries_other.
  - unfold write_entry. rewrite Hms', lookup_insert_eq. eexists. split; [done|]. by apply row_stands.
  - intros row2 Hin He%link_key_inj. apply Hnew. rewrite He. by apply list_elem_of_fmap_2.
Qed.

Lemma codes_from_small w lastCode : (List.length (codes_from w lastCode) <= size (Sql.links (db w)))%nat.
Proof.
  unfold codes_from, codes_after. rewrite merge_sort_Permutation. etransitivity; [apply length_filter|].
  rewrite length_fmap. etransitivity; [apply length_filter|]. by rewrite length_map_to_list.
Qed.

(** How long a link should be cached: the time to live of the job, 0 for none,
    and not beyond its own end. *)
Definition lifetimeMs (link : Link) (now : Z) : Z :=
  match expiresAt link with
  | None => ttlSeconds * 1000
  | Some e => if ttlSeconds =? 0 then e - now else Z.min (ttlSeconds * 1000) (e - now)
  end.

Lemma entryTtlMs_lifetime row t :
  from_option (fun e => t < e) True (r_expires_at row) ->
  entryTtlMs ttlSeconds row t = Some (lifetimeMs (mapLink row) t).
Proof.
  intros He. unfold entryTtlMs, lifetimeMs. cbn [mapLink expiresAt]. cbv zeta. unfold MAX_SAFE_INTEGER in *.
  rewrite to_double_exact by lia. destruct (r_expires_at row) as [e|]; cbn in He.
  - rewrite (proj2 (Z.leb_gt _ _)) by lia. destruct (Z.eqb_spec ttlSeconds 0); [done|].
    by rewrite (proj2 (Z.eqb_neq _ _)) by lia.
  - by destruct (Z.eqb_spec ttlSeconds 0) as [->|].
Qed.

(** The cache [k] the job leaves, having started with [w]. *)
Record warmed (w : world) (k : keyspace) (loaded : list string) : Prop := {
  wm_loaded code r : code ∈ loaded -> Sql.links (db w) !! code = Some r ->
    let link := read_link code r in
    from_option (fun e => clock w < e) True (expiresAt link) ->
    cached_for k code link (lifetimeMs link (clock w));
  wm_rest key : (forall code, code ∈ loaded -> key <> link_key code) -> k !! key = ks w !! key
}.

Lemma written_warmed w n :
  sane_table w ->
  warmed w (write_entries (clock w) (ks w) (rows_from w "" n)) (take (Z.to_nat n) (codes_from w "")).
Proof.
  intros Hsane. unfold codes_from. rewrite <- rows_from_codes. split.
  - intros code r (row & -> & Hin)%list_elem_of_fmap Hr. cbv zeta. rewrite <- mapLink_live. intros Hends.
    assert (row = live_row driver_date (r_code row) r) as Hrow.
    { apply list_elem_of_omap in Hin as (code & _ & Hrow).
      destruct (Sql.links (db w) !! code) as [r'|] eqn:Hr'; [|done]. injection Hrow as <-.
      cbn [live_row r_code] in *. congruence. }
    rewrite <- Hrow in Hends |- *. apply write_entries_cached; [by apply rows_sane| |done|by apply entryTtlMs_lifetime].
    rewrite rows_from_codes. eapply sublist_NoDup; [apply (codes_after_NoDup (R := collate))|apply sublist_take].
  - intros key Hkey. apply write_entries_other. intros row Hin. apply Hkey. by apply list_elem_of_fmap_2.
Qed.

Lemma live_codes w code :
  sane_table w -> code ∈ codes_from w "" <-> live_in (pg_clock w) (Sql.links (db w)) code.
Proof.
  intros Hsane. unfold codes_from. rewrite codes_after_elem. split; [by intros [? _]|].
  intros Hlive. split; [done|]. split; [|apply collate_empty]. destruct Hlive as (r & Hr & _).
  by destruct (Hsane _ _ Hr) as [[Hne _] _].
Qed.
End Quiet.

Lemma jobArguments_bounds env argv batchSize ttlSeconds limit :
  jobArguments env argv = Return (batchSize, ttlSeconds, limit) ->
  0 < batchSize <= MAX_SAFE_INTEGER /\ 0 <= ttlSeconds /\ 0 < limit <= MAX_SAFE_INTEGER.
Proof.
  unfold jobArguments. cbv zeta. pose proof (job_ttl env) as [Ht _].
  destruct (positiveIntegerArg _ "batch" _ _) as [b|] eqn:Hb; [|done]. cbn [result_bind].
  destruct (positiveIntegerArg _ "ttl" _ _) as [t|] eqn:Htt; [|done]. cbn [result_bind].
  destruct (positiveIntegerArg _ "limit" _ _) as [l|] eqn:Hl; [|done]. intros [= <- <- <-].
  apply positiveIntegerArg_bounds in Hb, Htt, Hl. unfold MAX_SAFE_INTEGER in *. lia.
Qed.

(** C27. Warming the cache. For every command line the job accepts: whatever fails
    and whatever others do meanwhile, every effect of the job keeps the cache
    coherent with the table (and in write-behind mode with the queues). On quiet servers, whose cached links are hashes and
    whose rows the program wrote, the job ends once it has seen every page (one more
    than there are rows is enough); it reports the number of links it loaded, the
    first [limit] live links in the order of their codes, each once; each of these is
    then cached with the configured time to live cut to what the link has left, unless
    the clock of the job sees it over, as a hash that reads back as the very link of
    the table; and no other key of Redis has changed. *)
Theorem cache_warmed `{Redis} `{Postgres} otherDate otherNumber env argv batchSize ttlSeconds limit :
  jobArguments env argv = Return (batchSize, ttlSeconds, limit) -> ttlSeconds * 1000 <= MAX_SAFE_INTEGER ->
  (forall (Bl : Backlog) fuel s, safe (fun _ => True) (keeps otherDate) (keeps otherDate)
     (warmCache env argv fuel) (fun _ _ => True) s)
  /\ (forall fuel w, 0 <= clock w -> sane_table w -> settled_cache (ks w) ->
       (size (Sql.links (db w)) < fuel)%nat ->
       exists live k, NoDup live
         /\ (forall code, code ∈ live <-> live_in (pg_clock w) (Sql.links (db w)) code)
         /\ StronglySorted collate live
         /\ let loaded := take (Z.to_nat limit) live in
            exec (warmCache env argv fuel) [] w
            = (with_ks w k, Return (Some (Z.of_nat (List.length loaded))))
            /\ warmed ttlSeconds otherDate otherNumber w k loaded).
Proof.
  intros Hargs Hms. pose proof (jobArguments_bounds _ _ _ _ _ Hargs) as (Hbatch & Httl & _ & Hlimit).
  unfold warmCache. rewrite Hargs. split; [intros Bl fuel s; by apply pages_safely|].
  intros fuel w Ht Hsane Hw Hfuel. exists (codes_from w "").
  exists (write_entries ttlSeconds (clock w) (ks w) (rows_from w "" limit)). cbv zeta.
  split_and!; [apply codes_after_NoDup|by intros; apply live_codes|apply codes_after_sorted| |by apply (written_warmed batchSize ttlSeconds limit)].
  pose proof (codes_from_small w ""). rewrite exec_given. unfold warm. rewrite pages_exec by (tauto || lia).
  rewrite Z.sub_0_r, length_take, rows_from_length. done.
Qed.

(** ** Witness *)

(** Two links and an expired one, in pages of one row. *)
Definition demo_table : gmap string row :=
  <["docs" := {| target_url := "https://example.com/"; created_at := 1709164800123000;
                 expires_at := None; row_clicks := 5 |}]>
  (<["blog" := {| target_url := "https://example.org/"; created_at := 1709164800123000;
                  expires_at := Some 1709164900123000; row_clicks := 0 |}]>
  (<["over" := {| target_url := "https://example.net/"; created_at := 1709164800123000;
                  expires_at := Some 1709164800123000; row_clicks := 0 |}]> ∅)).

Definition warm_world : world := with_db demo_world (with_links (db demo_world) demo_table).

Lemma warm_world_sane : @sane_table reference_postgres warm_world.
Proof.
  intros code r Hr. unfold warm_world, demo_table in Hr. cbn [with_db with_links db Sql.links] in Hr.
  repeat (apply lookup_insert_Some in Hr as [[<- <-]|[_ Hr]]; [by split; [split_and!; try discriminate; eexists; reflexivity|reflexivity]|]).
  by rewrite lookup_empty in Hr.
Qed.

Lemma warm_world_settled : settled_cache (ks warm_world).
Proof. split; [intros code; exists ∅|intros key e; cbn]; unfold hash_at; cbn; by rewrite ?lookup_empty. Qed.

Lemma demo_live code : live_in (pg_clock warm_world) (Sql.links (db warm_world)) code <-> code ∈ ["blog"; "docs"].
Proof.
  unfold live_in, warm_world, demo_table. cbn [with_db with_links db Sql.links pg_clock]. split.
  - intros (r & Hr & Hl). repeat (apply lookup_insert_Some in Hr as [[<- <-]|[_ Hr]]; [|]); [set_solver..|done|].
    by rewrite lookup_empty in Hr.
  - rewrite !elem_of_cons. intros [->|[->|[]%elem_of_nil]]; (eexists; split; [reflexivity|reflexivity]).
Qed.

Lemma cache_warmed_witness :
  exists k, @exec reference_redis reference_postgres _
      (warmCache (fun _ => None) ["--batch"; "1"; "--limit"; "5"; "--ttl"; "60"] 9) [] warm_world
    = (with_ks warm_world k, Return (Some 2))
    /\ @warmed reference_postgres 60 no_other_date no_other_date warm_world k ["blog"; "docs"].
Proof.
  destruct (@cache_warmed reference_redis reference_postgres no_other_date no_other_date (fun _ => None)
    ["--batch"; "1"; "--limit"; "5"; "--ttl"; "60"] 1 60 5) as [_ Hrun].
  - vm_compute. reflexivity.
  - discriminate.
  - destruct (Hrun 9%nat warm_world) as (live & k & Hnd & Hlive & Hsorted & He & Hw).
    + discriminate.
    + apply warm_world_sane.
    + apply warm_world_settled.
    + apply (bool_decide_unpack _). vm_compute. exact I.
    + assert (live = ["blog"; "docs"]) as ->; [|exists k; split; [exact He|exact Hw]].
      apply (StronglySorted_unique String.le); [exact Hsorted|by apply (bool_decide_unpack _); vm_compute|].
      apply NoDup_Permutation; [exact Hnd|by apply (bool_decide_unpack _); vm_compute|]. intros code. rewrite Hlive.
      apply demo_live.
Defined.
