(* ===== verification/Metrics.v ===== *)
(** * Metrics

    src/src/metrics.ts: counters and request-duration histograms, their
    aggregation and their Prometheus exposition. Integer numbers are their
    values, added with the rounding of doubles; durations are the binary64
    numbers of JsDouble.v. [localeCompare] and the decimal text of a double
    belong to the JavaScript engine and its locale data, and are parameters. *)
From Stdlib Require Import SpecFloat.
From S2P Require Import Prelude JsNum JsString JsDouble JsMap Json.
Open Scope Z_scope.

(** ** Numbers *)

(** [a + b] on integral numbers. *)
Definition plus (a b : Z) : Z := to_double (a + b).

Definition at_ (l : list Z) (i : nat) : Z := default 0 (l !! i).

(** [l\[i\] = v]; a hole reads as 0 everywhere in this program. *)
Definition assign (l : list Z) (i : nat) (v : Z) : list Z :=
  if decide (i < List.length l)%nat then <[i := v]> l
  else l ++ replicate (i - List.length l) 0 ++ [v].

(** ** Snapshots *)

Record RequestDurationSnapshot : Type := { buckets : list Z; sum : double; count : Z }.

Record HttpRequestMetricsSnapshot : Type := {
  method : string;
  route : string;
  statusCode : Z;
  requests : Z;
  requestDuration : RequestDurationSnapshot
}.

(** A named counter is a number, or a text where the name is inherited from
    [Object.prototype]: adding to the function found there concatenates. *)
Definition counter : Type := (Z + string).

Record MetricsSnapshot : Type := {
  created : Z;
  redirects : Z;
  misses : Z;
  httpRequests : list HttpRequestMetricsSnapshot;
  counters : option (jsmap counter)
}.

Definition COUNTER_NAME_PATTERN (name : string) : bool :=
  match name with
  | EmptyString => false
  | String c rest =>
      is_lower c && string_forallb (fun c => is_lower c || is_digit c || Ascii.eqb c "_") rest
      && (String.length rest <=? 63)%nat
  end.

(** The bounds of the buckets: the number and how it prints. *)
Definition REQUEST_DURATION_BUCKETS : list (double * string) :=
  Eval vm_compute in
  [(literal 5 1000, "0.005"); (literal 1 100, "0.01"); (literal 25 1000, "0.025"); (literal 5 100, "0.05");
   (literal 1 10, "0.1"); (literal 25 100, "0.25"); (literal 5 10, "0.5"); (double_of 1, "1");
   (literal 25 10, "2.5"); (double_of 5, "5"); (double_of 10, "10")].

Definition zero : double := S754_zero false.

Definition emptyRequestDurationSnapshot : RequestDurationSnapshot :=
  {| buckets := (fun _ => 0) <$> REQUEST_DURATION_BUCKETS; sum := zero; count := 0 |}.

Definition emptyMetricsSnapshot : MetricsSnapshot :=
  {| created := 0; redirects := 0; misses := 0; httpRequests := []; counters := None |}.

Definition SERIES_KEY_SEPARATOR : string := chr (char_of 0).

Definition seriesKey (method route : string) (statusCode : Z) : string :=
  method +:+ SERIES_KEY_SEPARATOR +:+ route +:+ SERIES_KEY_SEPARATOR +:+ js_String statusCode.

Definition key_of (s : HttpRequestMetricsSnapshot) : string := seriesKey (method s) (route s) (statusCode s).

Definition createHttpSeries (method route : string) (statusCode : Z) : HttpRequestMetricsSnapshot :=
  {| method := method; route := route; statusCode := statusCode; requests := 0;
     requestDuration := emptyRequestDurationSnapshot |}.

(** ** Changing a snapshot *)

(** The copies that are given away. The model's values are immutable, so a copy
    equals what it copies ([copyMetricsSnapshot_eq]). *)
Definition copyRequestDuration (d : RequestDurationSnapshot) : RequestDurationSnapshot :=
  {| buckets := buckets d; sum := sum d; count := count d |}.

Definition copyHttpSeries (s : HttpRequestMetricsSnapshot) : HttpRequestMetricsSnapshot :=
  {| method := method s; route := route s; statusCode := statusCode s; requests := requests s;
     requestDuration := copyRequestDuration (requestDuration s) |}.

Definition copyMetricsSnapshot (s : MetricsSnapshot) : MetricsSnapshot :=
  {| created := created s; redirects := redirects s; misses := misses s;
     httpRequests := copyHttpSeries <$> httpRequests s;
     counters := match counters s with Some c => Some c | None => None end |}.

Definition with_requests (s : HttpRequestMetricsSnapshot) (n : Z) (d : RequestDurationSnapshot) :=
  {| method := method s; route := route s; statusCode := statusCode s; requests := n; requestDuration := d |}.

Definition with_series (s : MetricsSnapshot) (l : list HttpRequestMetricsSnapshot) : MetricsSnapshot :=
  {| created := created s; redirects := redirects s; misses := misses s; httpRequests := l; counters := counters s |}.

Definition with_counters (s : MetricsSnapshot) (c : jsmap counter) : MetricsSnapshot :=
  {| created := created s; redirects := redirects s; misses := misses s; httpRequests := httpRequests s;
     counters := Some c |}.

(** [counters\[name\] ?? 0]. *)
Definition read_counter (c : jsmap counter) (name : string) : counter :=
  match get c name with
  | Some v => v
  | None => if String.eqb name "constructor" then inr "function Object() { [native code] }" else inl 0
  end.

Definition plus_counter (old : counter) (value : Z) : counter :=
  match old with inl n => inl (plus n value) | inr text => inr (text +:+ js_String value) end.

Definition addCounter (s : MetricsSnapshot) (name : string) (value : Z) : MetricsSnapshot :=
  if negb (COUNTER_NAME_PATTERN name) || negb (isSafeInteger value) || (value <=? 0) then s
  else
    let c := default [] (counters s) in
    with_counters s (set c name (plus_counter (read_counter c name) value)).

(** The loop of [observeDuration], from bucket [i]. *)
Fixpoint observe_bucket (bounds : list (double * string)) (i : nat) (seconds : double) (l : list Z) : list Z :=
  match bounds with
  | [] => l
  | (upperBound, _) :: bounds =>
      if SFleb seconds upperBound then assign l i (plus (at_ l i) 1)
      else observe_bucket bounds (S i) seconds l
  end.

Definition observeDuration (d : RequestDurationSnapshot) (seconds : double) : RequestDurationSnapshot :=
  if negb (isFinite seconds) || SFltb seconds zero then d
  else {| buckets := observe_bucket REQUEST_DURATION_BUCKETS 0 seconds (buckets d);
          sum := dadd (sum d) seconds; count := plus (count d) 1 |}.

Definition addRequestDuration (target source : RequestDurationSnapshot) : RequestDurationSnapshot :=
  let n := List.length REQUEST_DURATION_BUCKETS in
  {| buckets := ((fun i => plus (at_ (buckets target) i) (at_ (buckets source) i)) <$> seq 0 n)
                ++ drop n (buckets target);
     sum := dadd (sum target) (sum source); count := plus (count target) (count source) |}.

(** A [Map] from series keys to the entries of [httpRequests], by position. *)
Abbreviation index := (jsmap nat).

Definition index_of (l : list HttpRequestMetricsSnapshot) : index :=
  fold_left (fun m p => set m (key_of p.2) p.1) (imap pair l) [].

(** The entry of a key, created at the end of the list where there is none. *)
Definition entry_for (l : list HttpRequestMetricsSnapshot) (m : index) (method route : string) (statusCode : Z) :
    list HttpRequestMetricsSnapshot * index * nat :=
  let key := seriesKey method route statusCode in
  match get m key with
  | Some i => (l, m, i)
  | None => (l ++ [createHttpSeries method route statusCode], set m key (List.length l), List.length l)
  end.

Definition add_series (acc : list HttpRequestMetricsSnapshot * index) (source : HttpRequestMetricsSnapshot) :
    list HttpRequestMetricsSnapshot * index :=
  let '(l, m, i) := entry_for acc.1 acc.2 (method source) (route source) (statusCode source) in
  (alter (fun e => with_requests e (plus (requests e) (requests source))
                     (addRequestDuration (requestDuration e) (requestDuration source))) i l, m).

(** The entries of the counters that are numbers; [addCounter] ignores a text. *)
Definition add_counters (target : MetricsSnapshot) (c : jsmap counter) : MetricsSnapshot :=
  fold_left (fun s entry => match entry.2 with inl value => addCounter s entry.1 value | inr _ => s end) c target.

Definition addMetricsSnapshot (target source : MetricsSnapshot) : MetricsSnapshot :=
  let target :=
    {| created := plus (created target) (created source); redirects := plus (redirects target) (redirects source);
       misses := plus (misses target) (misses source); httpRequests := httpRequests target;
       counters := counters target |} in
  let target := match counters source with Some c => add_counters target c | None => target end in
  with_series target
    (fold_left add_series (httpRequests source) (httpRequests target, index_of (httpRequests target))).1.

(** ** Exposition *)

(** One pass of [value.replaceAll(character, text)]. *)
Fixpoint replaceAll (c : ascii) (by_ s : string) : string :=
  match s with
  | EmptyString => ""
  | String d s => if Ascii.eqb d c then by_ +:+ replaceAll c by_ s else String d (replaceAll c by_ s)
  end.

Definition LF : ascii := "010".

Definition escapePrometheusLabel (value : string) : string :=
  replaceAll DQUOTE (String BACKSLASH (chr DQUOTE))
    (replaceAll LF (String BACKSLASH "n")
       (replaceAll BACKSLASH (String BACKSLASH (chr BACKSLASH)) value)).

(** [name="value"]. *)
Definition label (name value : string) : string := name +:+ "=" +:+ chr DQUOTE +:+ value +:+ chr DQUOTE.

Definition labelsFor (s : HttpRequestMetricsSnapshot) : string :=
  label "method" (escapePrometheusLabel (method s)) +:+ "," +:+
  label "route" (escapePrometheusLabel (route s)) +:+ "," +:+
  label "status_code" (js_String (statusCode s)).

Section Render.
Context (localeCompare : string -> string -> Z) (show : double -> string).

(** [Array.prototype.sort]: stable, by a comparison. *)
Fixpoint insert_by {A} (cmp : A -> A -> Z) (x : A) (l : list A) : list A :=
  match l with
  | [] => [x]
  | y :: l => if cmp x y <? 0 then x :: y :: l else y :: insert_by cmp x l
  end.

Definition sort_by {A} (cmp : A -> A -> Z) (l : list A) : list A := fold_left (fun acc x => insert_by cmp x acc) l [].

Definition compare_series (l r : HttpRequestMetricsSnapshot) : Z :=
  let m := localeCompare (method l) (method r) in
  if negb (m =? 0) then m
  else
    let o := localeCompare (route l) (route r) in
    if negb (o =? 0) then o else statusCode l - statusCode r.

Definition counter_text (v : counter) : string := match v with inl n => js_String n | inr text => text end.

Definition HISTOGRAM : string := "shortener_http_request_duration_seconds".

(** The lines of the buckets, cumulative. *)
Fixpoint bucket_lines (labels : string) (bounds : list (double * string)) (i : nat) (l : list Z) (cumulative : Z) :
    list string :=
  match bounds with
  | [] => []
  | (_, text) :: bounds =>
      let cumulative := plus cumulative (at_ l i) in
      (HISTOGRAM +:+ "_bucket{" +:+ labels +:+ "," +:+ label "le" text +:+ "} " +:+ js_String cumulative)
      :: bucket_lines labels bounds (S i) l cumulative
  end.

Definition histogram_lines (s : HttpRequestMetricsSnapshot) : list string :=
  let labels := labelsFor s in
  let d := requestDuration s in
  bucket_lines labels REQUEST_DURATION_BUCKETS 0 (buckets d) 0 ++
  [HISTOGRAM +:+ "_bucket{" +:+ labels +:+ "," +:+ label "le" "+Inf" +:+ "} " +:+ js_String (count d);
   HISTOGRAM +:+ "_sum{" +:+ labels +:+ "} " +:+ show (sum d);
   HISTOGRAM +:+ "_count{" +:+ labels +:+ "} " +:+ js_String (count d)].

Definition renderMetrics (s : MetricsSnapshot) : string :=
  let series := sort_by compare_series (httpRequests s) in
  let named := sort_by (fun l r => localeCompare l.1 r.1) (default [] (counters s)) in
  let lines :=
    ["# TYPE shortener_http_requests_total counter"]
    ++ ((fun e => "shortener_http_requests_total{" +:+ labelsFor e +:+ "} " +:+ js_String (requests e)) <$> series)
    ++ ["# TYPE shortener_links_created_total counter"; "shortener_links_created_total " +:+ js_String (created s);
        "# TYPE shortener_redirects_total counter"; "shortener_redirects_total " +:+ js_String (redirects s);
        "# TYPE shortener_redirect_misses_total counter";
        "shortener_redirect_misses_total " +:+ js_String (misses s)]
    ++ flat_map (fun p => ["# TYPE shortener_" +:+ p.1 +:+ "_total counter";
                           "shortener_" +:+ p.1 +:+ "_total " +:+ counter_text p.2]) named
    ++ ["# TYPE " +:+ HISTOGRAM +:+ " histogram"]
    ++ flat_map histogram_lines series in
  String.concat (chr LF) lines +:+ chr LF.
End Render.

(** ** The in-process collector *)
Module Metrics.
Record t : Type := { snapshot : MetricsSnapshot; series : index }.

Definition new : t := {| snapshot := emptyMetricsSnapshot; series := [] |}.

Definition request_ok (method route : string) (statusCode : Z) (durationSeconds : double) : bool :=
  negb (String.eqb method "") && negb (String.eqb route "") && isSafeInteger statusCode
  && (100 <=? statusCode) && (statusCode <=? 599) && isFinite durationSeconds
  && negb (SFltb durationSeconds zero).

Definition request (method route : string) (statusCode : Z) (durationSeconds : double) (s : t) : t :=
  if negb (request_ok method route statusCode durationSeconds) then s
  else
    let '(l, m, i) := entry_for (httpRequests (snapshot s)) (series s) method route statusCode in
    {| snapshot := with_series (snapshot s)
         (alter (fun e => with_requests e (plus (requests e) 1) (observeDuration (requestDuration e) durationSeconds)) i l);
       series := m |}.

Definition on_snapshot (f : MetricsSnapshot -> MetricsSnapshot) (s : t) : t :=
  {| snapshot := f (snapshot s); series := series s |}.

Definition add_created (s : MetricsSnapshot) : MetricsSnapshot :=
  {| created := plus (created s) 1; redirects := redirects s; misses := misses s;
     httpRequests := httpRequests s; counters := counters s |}.
Definition add_redirect (s : MetricsSnapshot) : MetricsSnapshot :=
  {| created := created s; redirects := plus (redirects s) 1; misses := misses s;
     httpRequests := httpRequests s; counters := counters s |}.
Definition add_miss (s : MetricsSnapshot) : MetricsSnapshot :=
  {| created := created s; redirects := redirects s; misses := plus (misses s) 1;
     httpRequests := httpRequests s; counters := counters s |}.

Definition increment (name : string) (value : Z) : t -> t := on_snapshot (fun s => addCounter s name value).

Definition read (s : t) : MetricsSnapshot := copyMetricsSnapshot (snapshot s).

Definition render (localeCompare : string -> string -> Z) (number_text : double -> string) (s : t) : string :=
  renderMetrics localeCompare number_text (read s).
End Metrics.

(** ** What a snapshot counts *)

Inductive view : Type :=
  | Created | Redirects | Misses
  | Counter (name : string)
  | Requests (key : string)
  | Observed (key : string)
  | Bucket (key : string) (i : nat).

Definition sumZ (l : list Z) : Z := foldr Z.add 0 l.

Definition series_value (v : view) (s : HttpRequestMetricsSnapshot) : Z :=
  match v with
  | Requests k => if decide (key_of s = k) then requests s else 0
  | Observed k => if decide (key_of s = k) then count (requestDuration s) else 0
  | Bucket k i => if decide (key_of s = k) then at_ (buckets (requestDuration s)) i else 0
  | _ => 0
  end.

Definition counter_value (c : option (jsmap counter)) (name : string) : Z :=
  match get (default [] c) name with Some (inl n) => n | _ => 0 end.

Definition measure (v : view) (s : MetricsSnapshot) : Z :=
  match v with
  | Created => created s
  | Redirects => redirects s
  | Misses => misses s
  | Counter name => counter_value (counters s) name
  | _ => sumZ (series_value v <$> httpRequests s)
  end.

Lemma copyMetricsSnapshot_eq s : copyMetricsSnapshot s = s.
Proof.
  destruct s as [c r m l n]. unfold copyMetricsSnapshot. f_equal; [|by destruct n]. simpl.
  induction l as [|[me ro st rq [b su co]] l IH]; [done|]. rewrite fmap_cons, IH. done.
Qed.

(** A snapshot as the program builds them: nothing negative, one entry per
    counter, all of them numbers with valid names. *)
Definition series_ok (s : HttpRequestMetricsSnapshot) : Prop :=
  0 <= requests s /\ 0 <= count (requestDuration s) /\ Forall (Z.le 0) (buckets (requestDuration s))
  /\ List.length (buckets (requestDuration s)) = 11%nat.

Definition counter_ok (p : string * counter) : Prop :=
  COUNTER_NAME_PATTERN p.1 = true /\ p.1 <> "constructor" /\ exists n, p.2 = inl n /\ 0 <= n.

Record good (s : MetricsSnapshot) : Prop := {
  good_created : 0 <= created s;
  good_redirects : 0 <= redirects s;
  good_misses : 0 <= misses s;
  good_series : Forall series_ok (httpRequests s);
  good_keys : well_keyed (default [] (counters s));
  good_counters : Forall counter_ok (default [] (counters s))
}.

Lemma plus_exact a b : 0 <= a -> 0 <= b -> a + b <= 2 ^ 53 -> plus a b = a + b.
Proof. intros Ha Hb Hs. apply to_double_exact. lia. Qed.

Lemma sumZ_app l1 l2 : sumZ (l1 ++ l2) = sumZ l1 + sumZ l2.
Proof. unfold sumZ. induction l1 as [|x l1 IH]; simpl; lia. Qed.

Lemma sumZ_nonneg l : Forall (Z.le 0) l -> 0 <= sumZ l.
Proof. unfold sumZ. induction 1; simpl; lia. Qed.

Lemma at_nonneg l i : Forall (Z.le 0) l -> 0 <= at_ l i.
Proof.
  intros Hl. unfold at_. destruct (l !! i) as [x|] eqn:Hi; simpl; [|lia].
  rewrite Forall_lookup in Hl. by eapply Hl.
Qed.

Lemma series_value_nonneg v s : series_ok s -> 0 <= series_value v s.
Proof.
  intros (Hr & Hc & Hb & _). destruct v; simpl; try lia; case_decide; try lia. by apply at_nonneg.
Qed.

Lemma counter_value_ok c name :
  Forall counter_ok (default [] c) -> 0 <= counter_value c name.
Proof.
  intros Hc. unfold counter_value. induction Hc as [|[n v] l (_ & _ & x & Hv & Hx) _ IH]; [done|].
  cbn [get]. simpl in Hv. subst v. case_bool_decide; [done|exact IH].
Qed.

Lemma measure_nonneg v s : good s -> 0 <= measure v s.
Proof.
  intros [H1 H2 H3 H4 _ H6]. destruct v; simpl; try done; [by apply counter_value_ok|..];
    (apply sumZ_nonneg, Forall_fmap; eapply Forall_impl; [exact H4|]; intros s'; apply series_value_nonneg).
Qed.

(** ** Counters *)

Lemma addCounter_measure v s name value :
  good s -> COUNTER_NAME_PATTERN name = true -> name <> "constructor" -> 0 <= value ->
  measure (Counter name) s + value <= MAX_SAFE_INTEGER ->
  measure v (addCounter s name value)
  = measure v s + match v with Counter n => if decide (n = name) then value else 0 | _ => 0 end.
Proof.
  intros Hg Hn Hc Hv Hm. pose proof (measure_nonneg (Counter name) s Hg) as H0. unfold MAX_SAFE_INTEGER in Hm.
  unfold addCounter. rewrite Hn. cbn [negb orb].
  assert (Hsafe : isSafeInteger value = true)
    by (apply andb_true_iff; rewrite !Z.leb_le; unfold MAX_SAFE_INTEGER; lia).
  rewrite Hsafe. cbn [negb orb]. destruct (Z.leb_spec value 0).
  { assert (value = 0) as -> by lia. destruct v; try case_decide; lia. }
  destruct v; try (simpl; lia). cbn [measure with_counters counters default]. unfold counter_value at 1.
  simpl default. rewrite get_set. destruct (decide (name = name0)) as [<-|Hne].
  - rewrite decide_True by done. cbn [measure] in *. unfold counter_value, read_counter in *.
    destruct Hg as [_ _ _ _ Hk Hall]. destruct (get (default [] (counters s)) name) as [w|] eqn:Hget.
    + apply get_elem in Hget; [|done]. rewrite Forall_forall in Hall.
      destruct (Hall _ Hget) as (_ & _ & n & Hw & Hn0). simpl in Hw. subst w. simpl. apply plus_exact; lia.
    + rewrite (proj2 (String.eqb_neq _ _) Hc). simpl. rewrite plus_exact by lia. lia.
  - rewrite decide_False by congruence. unfold counter_value. lia.
Qed.

Lemma addCounter_good s name value : good s -> name <> "constructor" -> measure (Counter name) s + value <= 2 ^ 53 ->
  good (addCounter s name value).
Proof.
  intros Hg Hc Hm. pose proof (measure_nonneg (Counter name) s Hg) as H0. unfold addCounter.
  destruct (COUNTER_NAME_PATTERN name) eqn:Hn; [|done]. cbn [negb orb].
  destruct (isSafeInteger value); [|done]. cbn [negb orb]. destruct (Z.leb_spec value 0); [done|].
  destruct Hg as [H1 H2 H3 H4 Hk Hall]. split; try done; cbn [with_counters counters default]; simpl default.
  - by apply set_well_keyed.
  - apply set_Forall; [done|]. split; [done|]. split; [done|]. cbn [measure] in *.
    unfold counter_value, read_counter in *. cbn [snd].
    destruct (get (default [] (counters s)) name) as [w|] eqn:Hget.
    + apply get_elem in Hget; [|done]. rewrite Forall_forall in Hall.
      destruct (Hall _ Hget) as (_ & _ & n & Hw & Hn0). simpl in Hw. subst w. simpl. eexists. split; [reflexivity|].
      rewrite plus_exact by lia. lia.
    + rewrite (proj2 (String.eqb_neq _ _) Hc). simpl. eexists. split; [reflexivity|]. rewrite plus_exact by lia. lia.
Qed.

(** ** Series *)

Abbreviation total v l := (sumZ (series_value v <$> l)).

Lemma total_cons v s l : total v (s :: l) = series_value v s + total v l.
Proof. done. Qed.

Lemma total_zero v l : (forall s, series_value v s = 0) -> total v l = 0.
Proof. intros Hv. induction l as [|s l IH]; [done|]. rewrite total_cons, Hv. lia. Qed.

(** The index of a list finds an entry of every key that has one. *)
Definition index_ok (l : list HttpRequestMetricsSnapshot) (m : index) : Prop :=
  forall k, match get m k with
            | Some i => exists e, l !! i = Some e /\ key_of e = k
            | None => Forall (fun e => key_of e <> k) l
            end.

Lemma index_of_ok l : index_ok l (index_of l).
Proof.
  unfold index_of.
  enough (H : forall l1 l2 m, index_ok l1 m ->
    index_ok (l1 ++ l2) (fold_left (fun m p => set m (key_of p.2) p.1) (imap (fun i => pair (List.length l1 + i)%nat) l2) m)).
  { apply (H [] l []). intros k. constructor. }
  intros l1 l2. revert l1; induction l2 as [|e l2 IH]; intros l1 m Hm; simpl.
  - by rewrite app_nil_r.
  - specialize (IH (l1 ++ [e]) (set m (key_of e) (List.length l1 + 0)%nat)).
    rewrite <- app_assoc in IH. cbn [app] in IH. rewrite length_app in IH. cbn [List.length] in IH.
    replace (imap _ l2) with (imap (fun i => pair (List.length l1 + 1 + i)%nat) l2).
    + apply IH. intros k. rewrite get_set. destruct (decide (key_of e = k)) as [<-|Hne].
      * exists e. split; [|done]. rewrite Nat.add_0_r. by rewrite list_lookup_middle.
      * specialize (Hm k). destruct (get m k) as [i|].
        -- destruct Hm as (e' & He' & Hk). exists e'. split; [|done]. by apply lookup_app_l_Some.
        -- apply Forall_app. split; [done|]. by apply Forall_singleton.
    + apply imap_ext. intros i x _. simpl. f_equal. lia.
Qed.

Lemma total_new v me ro st : series_value v (createHttpSeries me ro st) = 0.
Proof.
  destruct v; simpl; try done; case_decide; try done. unfold at_.
  do 11 (destruct i as [|i]; [done|]). done.
Qed.

Lemma new_series_ok me ro st : series_ok (createHttpSeries me ro st).
Proof. repeat split; simpl; try lia. repeat constructor; lia. Qed.

Lemma entry_for_spec l m me ro st :
  index_ok l m ->
  let '(l', m', i) := entry_for l m me ro st in
  index_ok l' m' /\ (exists e, l' !! i = Some e /\ key_of e = seriesKey me ro st)
  /\ (forall v, total v l' = total v l) /\ (Forall series_ok l -> Forall series_ok l').
Proof.
  intros Hm. unfold entry_for. pose proof (Hm (seriesKey me ro st)) as Hk.
  destruct (get m (seriesKey me ro st)) as [i|] eqn:Hg; [done|].
  split; [|split; [|split]].
  - intros k. rewrite get_set. case_decide as Hkk; subst.
    + exists (createHttpSeries me ro st). split; [|done]. by rewrite list_lookup_middle.
    + specialize (Hm k). destruct (get m k) as [i|].
      * destruct Hm as (e & He & Hke). exists e. split; [|done]. by apply lookup_app_l_Some.
      * apply Forall_app. split; [done|]. by apply Forall_singleton.
  - exists (createHttpSeries me ro st). split; [|done]. by rewrite list_lookup_middle.
  - intros v. rewrite fmap_app, sumZ_app. simpl. rewrite total_new. lia.
  - intros Hl. apply Forall_app. split; [done|]. apply Forall_singleton, new_series_ok.
Qed.

(** Changing one entry without changing its key. *)
Lemma alter_spec f l m i e :
  index_ok l m -> l !! i = Some e -> (forall e, key_of (f e) = key_of e) ->
  index_ok (alter f i l) m
  /\ (forall v, total v (alter f i l) = total v l - series_value v e + series_value v (f e))
  /\ (Forall series_ok l -> series_ok (f e) -> Forall series_ok (alter f i l)).
Proof.
  intros Hm Hi Hf. split; [|split].
  - intros k. specialize (Hm k). destruct (get m k) as [j|].
    + destruct Hm as (e' & He' & Hk). destruct (decide (i = j)) as [<-|Hne].
      * exists (f e'). rewrite list_lookup_alter_eq, He'. split; [done|]. by rewrite Hf.
      * exists e'. by rewrite list_lookup_alter_ne.
    + apply Forall_lookup. intros j x. rewrite Forall_lookup in Hm. destruct (decide (i = j)) as [<-|Hne].
      * rewrite list_lookup_alter_eq, Hi. intros [= <-]. rewrite Hf. by eapply Hm.
      * rewrite list_lookup_alter_ne by done. apply Hm.
  - intros v. clear Hm. revert i Hi; induction l as [|x l IH]; intros [|i] Hi; [done..| |].
    + injection Hi as ->. change (alter f 0%nat (e :: l)) with (f e :: l). rewrite !total_cons. lia.
    + change (alter f (S i) (x :: l)) with (x :: alter f i l). rewrite !total_cons, (IH i Hi). lia.
  - intros Hl He. rewrite Forall_lookup in *. intros j x. destruct (decide (i = j)) as [<-|Hne].
    + rewrite list_lookup_alter_eq, Hi. by intros [= <-].
    + rewrite list_lookup_alter_ne by done. apply Hl.
Qed.

Lemma total_at_least v l i e : Forall series_ok l -> l !! i = Some e -> series_value v e <= total v l.
Proof.
  revert i; induction l as [|x l IH]; intros [|i] Hl Hi; [done..| |]; apply Forall_cons in Hl as [Hx Hl]; rewrite total_cons.
  - injection Hi as ->. assert (0 <= total v l); [|lia]. apply sumZ_nonneg, Forall_fmap.
    eapply Forall_impl; [exact Hl|]. intros s'. apply series_value_nonneg.
  - pose proof (series_value_nonneg v x Hx). specialize (IH i Hl Hi). lia.
Qed.

Lemma at_added t s i :
  List.length t = 11%nat -> List.length s = 11%nat -> Forall (Z.le 0) t -> Forall (Z.le 0) s ->
  at_ t i + at_ s i <= 2 ^ 53 ->
  at_ (((fun i => plus (at_ t i) (at_ s i)) <$> seq 0 11) ++ drop 11 t) i = at_ t i + at_ s i.
Proof.
  intros Ht Hs H0t H0s Hb. rewrite drop_ge by lia. rewrite app_nil_r. unfold at_ at 1. rewrite list_lookup_fmap.
  destruct (decide (i < 11)%nat).
  - rewrite lookup_seq_lt by done. simpl. apply plus_exact; [by apply at_nonneg..|done].
  - rewrite lookup_seq_ge by lia. simpl. unfold at_. rewrite !lookup_ge_None_2 by lia. done.
Qed.

Definition merged (e s : HttpRequestMetricsSnapshot) : HttpRequestMetricsSnapshot :=
  with_requests e (plus (requests e) (requests s)) (addRequestDuration (requestDuration e) (requestDuration s)).

Lemma merged_value v e s :
  series_ok e -> series_ok s -> key_of e = key_of s -> series_value v e + series_value v s <= 2 ^ 53 ->
  series_value v (merged e s) = series_value v e + series_value v s.
Proof.
  intros (He1 & He2 & He3 & He4) (Hs1 & Hs2 & Hs3 & Hs4) Hk Hb.
  destruct v; simpl in *; try lia; change (key_of (merged e s)) with (key_of e); rewrite <- Hk in *;
    case_decide; try lia; simpl.
  - by apply plus_exact.
  - by apply plus_exact.
  - by apply at_added.
Qed.

Lemma plus_nonneg a b : 0 <= a -> 0 <= b -> 0 <= plus a b.
Proof.
  intros Ha Hb. unfold plus, to_double. cbv zeta.
  destruct (Z.leb_spec (Z.log2 (Z.abs (a + b)) - 52) 0) as [Hle|Hle]; [lia|]. rewrite Z.abs_eq in * by lia. set (k := Z.log2 (a + b) - 52) in *.
  assert (0 < 2 ^ k) by (apply Z.pow_pos_nonneg; lia).
  assert (0 <= (a + b) / 2 ^ k) by (apply Z.div_pos; lia).
  assert (0 <= Z.sgn (a + b)) by lia. destruct (_ || _); nia.
Qed.

Lemma merged_ok e s : series_ok e -> series_ok s -> series_ok (merged e s).
Proof.
  intros (He1 & He2 & He3 & He4) (Hs1 & Hs2 & Hs3 & Hs4). split_and!; cbn [merged with_requests requests requestDuration].
  - by apply plus_nonneg.
  - by apply plus_nonneg.
  - unfold addRequestDuration. cbn [buckets]. apply Forall_app. split; [|by apply Forall_drop].
    apply Forall_fmap, Forall_true. intros i. by apply plus_nonneg; apply at_nonneg.
  - unfold addRequestDuration. cbn [buckets]. rewrite length_app, length_fmap, length_seq, length_drop, He4. done.
Qed.

Lemma add_series_spec l m s :
  index_ok l m -> Forall series_ok l -> series_ok s -> (forall v, total v l + series_value v s <= 2 ^ 53) ->
  let '(l', m') := add_series (l, m) s in
  index_ok l' m' /\ Forall series_ok l' /\ forall v, total v l' = total v l + series_value v s.
Proof.
  intros Hm Hl Hs Hb. unfold add_series. cbn [fst snd].
  pose proof (entry_for_spec l m (method s) (route s) (statusCode s) Hm) as He.
  destruct (entry_for l m _ _ _) as [[l1 m1] i]. destruct He as (Hm1 & (e & Hi & Hk) & Ht & Hl1).
  specialize (Hl1 Hl).
  assert (Hok : series_ok e) by (rewrite Forall_lookup in Hl1; by eapply Hl1).
  destruct (alter_spec (fun e => merged e s) l1 m1 i e Hm1 Hi ltac:(done)) as (Ha1 & Ha2 & Ha3).
  split; [exact Ha1|]. split; [apply Ha3; [done|by apply merged_ok]|].
  intros v. rewrite <- Ht. etransitivity; [apply Ha2|]. rewrite merged_value; [lia|done..|].
  specialize (Hb v). rewrite <- Ht in Hb. pose proof (total_at_least v l1 i e Hl1 Hi). lia.
Qed.

Lemma add_all_series_spec ss l m :
  index_ok l m -> Forall series_ok l -> Forall series_ok ss -> (forall v, total v l + total v ss <= 2 ^ 53) ->
  let '(l', m') := fold_left add_series ss (l, m) in
  Forall series_ok l' /\ forall v, total v l' = total v l + total v ss.
Proof.
  revert l m; induction ss as [|s ss IH]; intros l m Hm Hl Hss Hb; [split; [done|intros v; simpl; lia]|].
  apply Forall_cons in Hss as [Hs Hss].
  assert (Hnn : forall v, 0 <= total v ss).
  { intros v. apply sumZ_nonneg, Forall_fmap. eapply Forall_impl; [exact Hss|]. intros s'. apply series_value_nonneg. }
  pose proof (add_series_spec l m s Hm Hl Hs) as Ha. cbn [fold_left].
  destruct (add_series (l, m) s) as [l1 m1].
  destruct Ha as (Hm1 & Hl1 & Ht1). { intros v. specialize (Hb v). rewrite total_cons in Hb. specialize (Hnn v). lia. }
  specialize (IH l1 m1 Hm1 Hl1 Hss). destruct (fold_left add_series ss (l1, m1)) as [l2 m2].
  destruct IH as (Hl2 & Ht2). { intros v. specialize (Hb v). rewrite total_cons in Hb. rewrite Ht1. lia. }
  split; [done|]. intros v. rewrite Ht2, Ht1, total_cons. lia.
Qed.

Definition fits (t s : MetricsSnapshot) : Prop := forall v, measure v t + measure v s <= MAX_SAFE_INTEGER.

Lemma add_counters_spec c s :
  well_keyed c -> Forall counter_ok c -> good s ->
  (forall n, measure (Counter n) s + counter_value (Some c) n <= MAX_SAFE_INTEGER) ->
  good (add_counters s c)
  /\ forall v, measure v (add_counters s c)
     = measure v s + match v with Counter n => counter_value (Some c) n | _ => 0 end.
Proof.
  unfold add_counters. revert s. induction c as [|[k w] c IH]; intros s Hk Hall Hg Hb; cbn [fold_left].
  { split; [done|]. intros []; cbn; lia. }
  apply NoDup_cons in Hk as [Hnk Hk]. apply Forall_cons in Hall as [(Hname & Hc & n & Hw & Hn) Hall].
  simpl in Hname, Hc, Hw. subst w. cbn [fst snd].
  assert (Hval : forall x, counter_value (Some ((k, inl n) :: c)) x = counter_value (Some c) x + (if decide (x = k) then n else 0)).
  { intros x. unfold counter_value. cbn [get default]. simpl. case_bool_decide as He.
    - subst. rewrite decide_True by done. apply get_none in Hnk. simpl in Hnk. rewrite Hnk. lia.
    - rewrite decide_False by congruence. lia. }
  pose proof (Hb k) as Hbk. rewrite Hval, decide_True in Hbk by done.
  assert (H0k : forall x, 0 <= counter_value (Some c) x) by (intros x; by apply counter_value_ok).
  pose proof (H0k k) as H0. unfold MAX_SAFE_INTEGER in *.
  assert (Hm : forall v, measure v (addCounter s k n)
    = measure v s + match v with Counter x => if decide (x = k) then n else 0 | _ => 0 end).
  { intros v. apply addCounter_measure; [done..|]. unfold MAX_SAFE_INTEGER. lia. }
  destruct (IH (addCounter s k n)) as [Hg2 Hm2]; [done|done| | |].
  - apply addCounter_good; [done|done|]. lia.
  - intros x. rewrite Hm. specialize (Hb x). rewrite Hval in Hb. case_decide; lia.
  - split; [exact Hg2|]. intros v. rewrite Hm2, Hm. destruct v; try lia. rewrite Hval. lia.
Qed.

Lemma add_snapshot_spec t s :
  good t -> good s -> fits t s ->
  good (addMetricsSnapshot t s) /\ forall v, measure v (addMetricsSnapshot t s) = measure v t + measure v s.
Proof.
  intros Ht Hs Hf. pose proof (measure_nonneg Created t Ht). pose proof (measure_nonneg Created s Hs).
  pose proof (Hf Created). pose proof (Hf Redirects). pose proof (Hf Misses). unfold MAX_SAFE_INTEGER in *.
  destruct Ht as [Ht1 Ht2 Ht3 Ht4 Ht5 Ht6], Hs as [Hs1 Hs2 Hs3 Hs4 Hs5 Hs6].
  unfold addMetricsSnapshot. cbv zeta.
  set (t1 := {| created := _; redirects := _; misses := _; httpRequests := _; counters := _ |}).
  assert (Hg1 : good t1) by (split; try done; simpl; by apply plus_nonneg).
  assert (Hm1 : forall v, measure v t1 = measure v t + match v with Created => created s | Redirects => redirects s
    | Misses => misses s | _ => 0 end).
  { intros v; destruct v; simpl in *; try lia; apply plus_exact; simpl in *; lia. }
  set (t2 := match counters s with Some c => add_counters t1 c | None => t1 end).
  assert (Hboth : good t2 /\ forall v, measure v t2 = measure v t1 + match v with Counter n => measure v s | _ => 0 end).
  { unfold t2. destruct (counters s) as [c|] eqn:Hc.
    - destruct (add_counters_spec c t1) as [Hg2 Hm2]; [done..| |].
      { intros n. rewrite Hm1. specialize (Hf (Counter n)). change (measure (Counter n) s) with (counter_value (counters s) n) in Hf.
        rewrite Hc in Hf. unfold MAX_SAFE_INTEGER in *. lia. }
      split; [done|]. intros v. rewrite Hm2. destruct v; try done. simpl. by rewrite Hc.
    - split; [done|]. intros []; try lia. simpl. rewrite Hc. unfold counter_value. simpl. lia. }
  destruct Hboth as [[G1 G2 G3 G4 G5 G6] Hm2].
  pose proof (add_all_series_spec (httpRequests s) (httpRequests t2) (index_of (httpRequests t2))
    (index_of_ok _) G4 Hs4) as Ha.
  assert (Hsame : httpRequests t2 = httpRequests t).
  { unfold t2. destruct (counters s) as [c|]; [|done]. clear. unfold add_counters.
    enough (H : forall r, httpRequests (fold_left (fun r entry => match entry.2 with inl value => addCounter r entry.1 value
      | inr _ => r end) c r) = httpRequests r) by exact (H t1).
    induction c as [|[k [n|x]] c IH]; intros r; cbn [fold_left]; [done| |apply IH]. rewrite IH. simpl.
    unfold addCounter. by destruct (_ || _). }
  destruct (fold_left _ _ _) as [l' m']. destruct Ha as [Hl' Htot].
  { intros v. rewrite Hsame. pose proof (Hf v) as Hfv. destruct v;
      [rewrite !total_zero by done; lia..| | |]; (etransitivity; [exact Hfv|]; unfold MAX_SAFE_INTEGER; lia). }
  cbn [fst]. split; [by split|]. intros v. specialize (Hm2 v). specialize (Hm1 v). specialize (Htot v).
  destruct v; cbn [measure with_series created redirects misses counters httpRequests] in *; try lia.
  all: rewrite ?Hsame in *; cbn [measure] in *; lia.
Qed.

(** ** What was recorded *)

Inductive event : Type :=
  | Request (method route : string) (statusCode : Z) (durationSeconds : double)
  | CreatedLink | Redirected | Missed
  | Incremented (name : string) (value : Z).

(** The first bucket whose bound a duration does not exceed. *)
Fixpoint bucket_from (bounds : list (double * string)) (i : nat) (seconds : double) : option nat :=
  match bounds with
  | [] => None
  | (upperBound, _) :: bounds => if SFleb seconds upperBound then Some i else bucket_from bounds (S i) seconds
  end.

Definition bucket_of (seconds : double) : option nat := bucket_from REQUEST_DURATION_BUCKETS 0 seconds.

Definition indicator (b : bool) : Z := if b then 1 else 0.

(** What one event adds to a view. *)
Definition weight (v : view) (e : event) : Z :=
  match v, e with
  | Created, CreatedLink | Redirects, Redirected | Misses, Missed => 1
  | Counter n, Incremented name value =>
      if COUNTER_NAME_PATTERN name && isSafeInteger value && (0 <? value) && String.eqb n name then value else 0
  | Requests k, Request m r st d | Observed k, Request m r st d =>
      indicator (Metrics.request_ok m r st d && String.eqb k (seriesKey m r st))
  | Bucket k i, Request m r st d =>
      indicator (Metrics.request_ok m r st d && String.eqb k (seriesKey m r st)
                 && bool_decide (bucket_of d = Some i))
  | _, _ => 0
  end.

Definition recorded (v : view) (es : list event) : Z := sumZ (weight v <$> es).

(** The durations observed for a series, in order. *)
Definition durations (k : string) (es : list event) : list double :=
  flat_map (fun e => match e with
                     | Request m r st d =>
                         if Metrics.request_ok m r st d && String.eqb k (seriesKey m r st) then [d] else []
                     | _ => []
                     end) es.

Definition sum_durations (ds : list double) : double := fold_left dadd ds zero.

Definition plain (e : event) : Prop :=
  match e with Incremented name _ => name <> "constructor" | _ => True end.

Lemma weight_nonneg v e : 0 <= weight v e.
Proof.
  destruct v, e; simpl; try lia; try (unfold indicator; case_match; lia).
Qed.

Lemma recorded_app v es1 es2 : recorded v (es1 ++ es2) = recorded v es1 + recorded v es2.
Proof. unfold recorded. by rewrite fmap_app, sumZ_app. Qed.

Lemma recorded_nonneg v es : 0 <= recorded v es.
Proof. apply sumZ_nonneg, Forall_fmap, Forall_true. intros e. apply weight_nonneg. Qed.

(** ** The in-process collector records exactly *)

Lemma at_assign l i v j : at_ (assign l i v) j = if decide (i = j) then v else at_ l j.
Proof.
  unfold assign, at_. destruct (decide (i < List.length l)%nat) as [Hi|Hi].
  - destruct (decide (i = j)) as [<-|Hne]; [by rewrite list_lookup_insert_eq|by rewrite list_lookup_insert_ne].
  - destruct (decide (i = j)) as [<-|Hne].
    + rewrite lookup_app_r by lia. rewrite lookup_app_r by (rewrite length_replicate; lia).
      rewrite length_replicate, Nat.sub_diag. done.
    + destruct (decide (j < List.length l)%nat) as [Hj|Hj]; [by rewrite lookup_app_l|].
      rewrite lookup_app_r by lia. rewrite (lookup_ge_None_2 l j) by lia.
      destruct (decide (j < i)%nat).
      * rewrite lookup_app_l by (rewrite length_replicate; lia). by rewrite lookup_replicate_2 by lia.
      * rewrite lookup_ge_None_2; [done|]. rewrite length_app, length_replicate. simpl. lia.
Qed.

Lemma observe_bucket_spec bounds i d l j :
  Forall (Z.le 0) l -> at_ l j < 2 ^ 53 ->
  at_ (observe_bucket bounds i d l) j = at_ l j + indicator (bool_decide (bucket_from bounds i d = Some j)).
Proof.
  intros Hl Hb. revert i; induction bounds as [|[b t] bounds IH]; intros i; cbn [observe_bucket bucket_from].
  { rewrite bool_decide_false by done. simpl. lia. }
  destruct (SFleb d b); [|apply IH]. rewrite at_assign. destruct (decide (i = j)) as [<-|Hne].
  - rewrite bool_decide_true by done. simpl. apply plus_exact; [by apply at_nonneg|lia|lia].
  - rewrite bool_decide_false by congruence. simpl. lia.
Qed.

Lemma observe_bucket_shape bounds i d l :
  (i + List.length bounds <= List.length l)%nat -> Forall (Z.le 0) l ->
  List.length (observe_bucket bounds i d l) = List.length l /\ Forall (Z.le 0) (observe_bucket bounds i d l).
Proof.
  intros Hi Hl. revert i Hi; induction bounds as [|[b t] bounds IH]; intros i Hi; cbn [observe_bucket]; [done|].
  cbn [List.length] in Hi. destruct (SFleb d b); [|apply IH; lia]. unfold assign. rewrite decide_True by lia.
  rewrite length_insert. split; [done|]. apply Forall_insert; [done|]. apply plus_nonneg; [by apply at_nonneg|lia].
Qed.

Module Recording.
Definition apply (s : Metrics.t) (e : event) : Metrics.t :=
  match e with
  | Request m r st d => Metrics.request m r st d s
  | CreatedLink => Metrics.on_snapshot Metrics.add_created s
  | Redirected => Metrics.on_snapshot Metrics.add_redirect s
  | Missed => Metrics.on_snapshot Metrics.add_miss s
  | Incremented name value => Metrics.increment name value s
  end.

(** The entries of the series are distinct, found by the index, and carry the
    durations of their requests. *)
Record tracks (es : list event) (s : Metrics.t) : Prop := {
  t_good : good (Metrics.snapshot s);
  t_index : index_ok (httpRequests (Metrics.snapshot s)) (Metrics.series s);
  t_measure v : measure v (Metrics.snapshot s) = recorded v es;
  t_keys : NoDup (key_of <$> httpRequests (Metrics.snapshot s));
  t_sums : Forall (fun e => sum (requestDuration e) = sum_durations (durations (key_of e) es))
                  (httpRequests (Metrics.snapshot s))
}.

Lemma durations_app k es1 es2 : durations k (es1 ++ es2) = durations k es1 ++ durations k es2.
Proof. apply flat_map_app. Qed.

Lemma no_entry_no_request k es s :
  tracks es s -> Forall (fun e => key_of e <> k) (httpRequests (Metrics.snapshot s)) -> durations k es = [].
Proof.
  intros Ht Hn. assert (H0 : recorded (Requests k) es = 0).
  { rewrite <- (t_measure _ _ Ht). cbn [measure].
    induction Hn as [|e l He _ IH]; [done|]. rewrite total_cons, IH. simpl. by rewrite decide_False. }
  clear Ht Hn. unfold recorded in H0. induction es as [|e es IH]; [done|].
  change (weight (Requests k) e + recorded (Requests k) es = 0) in H0.
  pose proof (weight_nonneg (Requests k) e). pose proof (recorded_nonneg (Requests k) es).
  cbn [durations flat_map]. unfold durations in IH. rewrite IH by (unfold recorded in *; lia).
  rewrite app_nil_r. destruct e; try done. simpl in *. unfold indicator in *. case_match; [lia|done].
Qed.

(** Finding or creating the entry of a key keeps all that is tracked. *)
Lemma entry_tracks es s me ro st :
  tracks es s ->
  let '(l, m, i) := entry_for (httpRequests (Metrics.snapshot s)) (Metrics.series s) me ro st in
  tracks es {| Metrics.snapshot := with_series (Metrics.snapshot s) l; Metrics.series := m |}
  /\ exists e, l !! i = Some e /\ key_of e = seriesKey me ro st.
Proof.
  intros Ht. pose proof (entry_for_spec _ _ me ro st (t_index _ _ Ht)) as He. unfold entry_for in *.
  pose proof (t_index _ _ Ht (seriesKey me ro st)) as Hk.
  destruct (get (Metrics.series s) (seriesKey me ro st)) as [i|] eqn:Hget.
  - destruct He as (H1 & H2 & H3 & H4). split; [|done]. destruct Ht, s as [[] m]. by split.
  - destruct He as (H1 & H2 & H3 & H4). split; [|done].
    pose proof (no_entry_no_request _ _ _ Ht Hk) as Hnone. destruct Ht as [Hg Hi Hm Hn Hs].
    split; cbn [Metrics.snapshot Metrics.series with_series httpRequests].
    + destruct Hg. split; try done. by apply H4.
    + done.
    + intros v. rewrite <- Hm. destruct v; try done; apply H3.
    + rewrite fmap_app. apply list.NoDup_app. split; [done|]. split; [|apply NoDup_singleton].
      intros k Hin Hnew%list_elem_of_singleton. apply list_elem_of_fmap in Hin as (e & He & Hin).
      rewrite Forall_forall in Hk. apply (Hk e Hin). by rewrite <- He.
    + apply Forall_app. split; [done|]. apply Forall_singleton. by rewrite (Hnone : durations (key_of (createHttpSeries me ro st)) es = []).
Qed.

Lemma alter_keys f (i : nat) (l : list HttpRequestMetricsSnapshot) : (forall e, key_of (f e) = key_of e) -> key_of <$> alter f i l = key_of <$> l.
Proof.
  intros Hf. revert i; induction l as [|e l IH]; intros [|i]; [done|done| |].
  - change (key_of (f e) :: (key_of <$> l) = key_of e :: (key_of <$> l)). by rewrite Hf.
  - change (key_of e :: (key_of <$> alter f i l) = key_of e :: (key_of <$> l)). by rewrite IH.
Qed.

Definition observed (d : double) (e : HttpRequestMetricsSnapshot) : HttpRequestMetricsSnapshot :=
  with_requests e (plus (requests e) 1) (observeDuration (requestDuration e) d).

Lemma request_ok_duration m r st d :
  Metrics.request_ok m r st d = true -> negb (isFinite d) || SFltb d zero = false.
Proof.
  unfold Metrics.request_ok. intros Hok. apply andb_true_iff in Hok as [Hok Hneg].
  apply andb_true_iff in Hok as [_ Hfin]. rewrite Hfin. by destruct (SFltb d zero).
Qed.

Lemma observed_value v e m r st d :
  Metrics.request_ok m r st d = true -> series_ok e -> key_of e = seriesKey m r st ->
  series_value v e + weight v (Request m r st d) <= MAX_SAFE_INTEGER ->
  series_value v (observed d e) = series_value v e + weight v (Request m r st d).
Proof.
  intros Hok (He1 & He2 & He3 & He4) Hk Hb. unfold MAX_SAFE_INTEGER in Hb.
  destruct v; try done; simpl in Hb |- *; change (key_of (observed d e)) with (key_of e); rewrite Hk in *;
    rewrite Hok in *; cbn [andb] in *.
  - destruct (decide (seriesKey m r st = key)) as [<-|Hne].
    + rewrite String.eqb_refl in *. simpl in *. apply plus_exact; lia.
    + rewrite (proj2 (String.eqb_neq _ _)) by congruence. simpl. lia.
  - unfold observeDuration. rewrite (request_ok_duration m r st d Hok). cbn [count].
    destruct (decide (seriesKey m r st = key)) as [<-|Hne].
    + rewrite String.eqb_refl in *. simpl in *. apply plus_exact; lia.
    + rewrite (proj2 (String.eqb_neq _ _)) by congruence. simpl. lia.
  - unfold observeDuration. rewrite (request_ok_duration m r st d Hok). cbn [buckets].
    destruct (decide (seriesKey m r st = key)) as [<-|Hne].
    + rewrite String.eqb_refl in *. cbn [andb] in *. apply observe_bucket_spec; [done|].
      unfold indicator in *. case_match; lia.
    + rewrite (proj2 (String.eqb_neq _ _)) by congruence. simpl. lia.
Qed.

Lemma observed_ok e d : negb (isFinite d) || SFltb d zero = false -> series_ok e -> series_ok (observed d e).
Proof.
  intros Hd (He1 & He2 & He3 & He4). unfold observed, observeDuration. rewrite Hd.
  destruct (observe_bucket_shape REQUEST_DURATION_BUCKETS 0 d (buckets (requestDuration e))) as [Hlen Hnn];
    [by rewrite He4|done|].
  split_and!; cbn [with_requests requests requestDuration count buckets]; try done; try (apply plus_nonneg; lia).
  by rewrite Hlen.
Qed.

Lemma sum_durations_snoc ds d : sum_durations (ds ++ [d]) = dadd (sum_durations ds) d.
Proof. unfold sum_durations. by rewrite fold_left_app. Qed.

Lemma request_tracks es s m r st d :
  tracks es s -> (forall v, recorded v (es ++ [Request m r st d]) <= MAX_SAFE_INTEGER) ->
  tracks (es ++ [Request m r st d]) (Metrics.request m r st d s).
Proof.
  intros Ht Hb. unfold Metrics.request. destruct (Metrics.request_ok m r st d) eqn:Hok; cbn [negb].
  2: { assert (Hw : forall v, weight v (Request m r st d) = 0) by (intros []; simpl; by rewrite ?Hok).
       destruct Ht as [H1 H2 H3 H4 H5]. split; try done.
       - intros v. rewrite recorded_app, <- H3. unfold recorded. simpl. rewrite Hw. lia.
       - eapply Forall_impl; [exact H5|]. intros e He. rewrite durations_app. simpl. by rewrite Hok, !app_nil_r. }
  pose proof (entry_tracks es s m r st Ht) as He. destruct (entry_for _ _ m r st) as [[l idx] i].
  destruct He as [[H1 H2 H3 H4 H5] (e & Hi & Hk)]. cbn [Metrics.snapshot Metrics.series with_series httpRequests] in *.
  destruct (alter_spec (observed d) l idx i e H2 Hi ltac:(done)) as (Ha1 & Ha2 & Ha3).
  assert (Hl : Forall series_ok l) by apply H1.
  assert (Hoke : series_ok e) by (rewrite Forall_lookup in Hl; by eapply Hl).
  assert (Hval : forall v, (match v with Requests _ | Observed _ | Bucket _ _ => True | _ => False end) ->
    series_value v (observed d e) = series_value v e + weight v (Request m r st d)).
  { intros v Hv. apply observed_value; [done..|]. specialize (Hb v). rewrite recorded_app, <- H3 in Hb.
    pose proof (total_at_least v l i e Hl Hi). change (recorded v [_]) with (weight v (Request m r st d) + 0) in Hb.
    destruct v; try done; cbn [measure with_series httpRequests] in Hb; lia. }
  split; cbn [Metrics.snapshot Metrics.series with_series httpRequests].
  - destruct H1. split; try done. cbn [with_series httpRequests]. apply Ha3; [done|]. apply observed_ok; [|done].
    by eapply request_ok_duration.
  - exact Ha1.
  - intros v. rewrite recorded_app, <- H3. change (recorded v [_]) with (weight v (Request m r st d) + 0).
    destruct v; try (simpl; lia); cbn [measure with_series httpRequests];
      (etransitivity; [apply Ha2|]); rewrite Hval by done; lia.
  - by rewrite alter_keys.
  - apply Forall_lookup. intros j x. rewrite Forall_lookup in H5.
    destruct (decide (i = j)) as [<-|Hne].
    + rewrite list_lookup_alter_eq, Hi. intros Hx. assert (Hkx : key_of x = key_of e) by by injection Hx as <-.
      rewrite Hkx. injection Hx as <-. cbn [observed with_requests requestDuration]. unfold observeDuration.
      rewrite (request_ok_duration m r st d Hok). cbn [sum]. rewrite durations_app. cbn [durations flat_map].
      rewrite Hok, Hk, String.eqb_refl. cbn [andb app]. by rewrite sum_durations_snoc, (H5 _ _ Hi), Hk.
    + rewrite list_lookup_alter_ne by done. intros Hj. rewrite (H5 _ _ Hj), durations_app. cbn [durations flat_map].
      rewrite Hok. cbn [andb]. rewrite (proj2 (String.eqb_neq _ _)); [by rewrite !app_nil_r|]. intros Hkj.
      apply Hne. apply (NoDup_lookup _ i j (key_of e) H4); rewrite list_lookup_fmap; [by rewrite Hi|].
      rewrite Hj. simpl. by rewrite Hkj, Hk.
Qed.

Lemma bound_before es1 es2 v : recorded v (es1 ++ es2) <= MAX_SAFE_INTEGER -> recorded v es1 <= MAX_SAFE_INTEGER.
Proof. rewrite recorded_app. pose proof (recorded_nonneg v es2). lia. Qed.

Lemma scalar_tracks es s f e :
  tracks es s -> good (f (Metrics.snapshot s)) ->
  (forall v, measure v (f (Metrics.snapshot s)) = measure v (Metrics.snapshot s) + weight v e) ->
  httpRequests (f (Metrics.snapshot s)) = httpRequests (Metrics.snapshot s) -> (forall k, durations k [e] = []) ->
  tracks (es ++ [e]) (Metrics.on_snapshot f s).
Proof.
  intros [H1 H2 H3 H4 H5] Hg Hm Hh Hd. split; cbn [Metrics.on_snapshot Metrics.snapshot Metrics.series]; rewrite ?Hh;
    try done.
  - intros v. rewrite recorded_app, <- H3, Hm. change (recorded v [e]) with (weight v e + 0). lia.
  - eapply Forall_impl; [exact H5|]. intros x Hx. by rewrite durations_app, Hd, app_nil_r.
Qed.

Lemma addCounter_weight v s name value :
  good s -> name <> "constructor" -> measure (Counter name) s + weight (Counter name) (Incremented name value) <= MAX_SAFE_INTEGER ->
  good (addCounter s name value)
  /\ measure v (addCounter s name value) = measure v s + weight v (Incremented name value).
Proof.
  intros Hg Hc Hb. cbn [measure weight] in Hb. rewrite String.eqb_refl, andb_true_r in Hb.
  destruct (COUNTER_NAME_PATTERN name && isSafeInteger value && (0 <? value)) eqn:Hv.
  - apply andb_true_iff in Hv as [[Hn Hs]%andb_true_iff Hpos%Z.ltb_lt]. unfold MAX_SAFE_INTEGER in Hb.
    split; [apply addCounter_good; [done|done|cbn [measure]; lia]|].
    rewrite addCounter_measure; [|done|done|done|lia|unfold MAX_SAFE_INTEGER; cbn [measure]; lia]. f_equal. destruct v; try done.
    simpl. rewrite Hn, Hs, (proj2 (Z.ltb_lt _ _) Hpos). cbn [andb].
    destruct (String.eqb_spec name0 name); case_decide; congruence.
  - assert (Hsame : addCounter s name value = s).
    { unfold addCounter. destruct (COUNTER_NAME_PATTERN name), (isSafeInteger value); try done. cbn [andb negb orb] in *.
      apply Z.ltb_ge in Hv. by rewrite (proj2 (Z.leb_le _ _)). }
    rewrite Hsame. split; [done|]. destruct v; simpl; try lia. rewrite Hv. simpl. lia.
Qed.

Lemma apply_tracks es s e :
  tracks es s -> plain e -> (forall v, recorded v (es ++ [e]) <= MAX_SAFE_INTEGER) ->
  tracks (es ++ [e]) (apply s e).
Proof.
  intros Ht Hp Hb.
  assert (Hbm : forall v, measure v (Metrics.snapshot s) + weight v e <= MAX_SAFE_INTEGER).
  { intros v. rewrite (t_measure _ _ Ht). specialize (Hb v). rewrite recorded_app in Hb.
    change (recorded v [e]) with (weight v e + 0) in Hb. lia. }
  pose proof (t_good _ _ Ht) as Hg. unfold MAX_SAFE_INTEGER in Hbm.
  pose proof (Hbm Created) as B1. pose proof (Hbm Redirects) as B2. pose proof (Hbm Misses) as B3.
  destruct e as [m r st d| | | |name value]; cbn [apply].
  - by apply request_tracks.
  - apply scalar_tracks; try done.
    + destruct Hg. split; try done. simpl. apply plus_nonneg; lia.
    + intros []; simpl; try lia. destruct Hg. apply plus_exact; simpl in B1; lia.
  - apply scalar_tracks; try done.
    + destruct Hg. split; try done. simpl. apply plus_nonneg; lia.
    + intros []; simpl; try lia. destruct Hg. apply plus_exact; simpl in B2; lia.
  - apply scalar_tracks; try done.
    + destruct Hg. split; try done. simpl. apply plus_nonneg; lia.
    + intros []; simpl; try lia. destruct Hg. apply plus_exact; simpl in B3; lia.
  - assert (Hc : forall v, _) by (intros v; exact (addCounter_weight v _ name value Hg Hp (Hbm (Counter name)))).
    unfold Metrics.increment. apply scalar_tracks; try done; [apply (Hc Created)|intros v; apply Hc|].
    unfold addCounter. by destruct (_ || _).
Qed.

Lemma new_tracks : tracks [] Metrics.new.
Proof.
  split; try done.
  - split; simpl; try lia; apply Forall_nil_2 || apply NoDup_nil_2.
  - intros k. apply Forall_nil_2.
  - by intros [].
  - apply NoDup_nil_2.
Qed.

Lemma run_tracks es : Forall plain es -> (forall v, recorded v es <= MAX_SAFE_INTEGER) ->
  tracks es (fold_left apply es Metrics.new).
Proof.
  induction es as [|e es IH] using rev_ind; intros Hp Hb; [apply new_tracks|].
  apply Forall_app in Hp as [Hp He]. apply Forall_cons in He as [He _]. rewrite fold_left_app. cbn [fold_left].
  apply apply_tracks; [|done|done]. apply IH; [done|]. intros v. eapply bound_before, Hb.
Qed.
End Recording.

(** C39. The in-process collector records exactly. After any sequence of
    requests, creations, redirects, misses and increments, as long as no total
    leaves the safe integers, every counter, every request count and every
    histogram bucket is the number of the events it stands for (each request in
    the first bucket whose bound it does not exceed), there is one series per
    method, route and status, and its sum of durations is the floating-point
    sum of its own requests, in their order. *)
Theorem metrics_exact es :
  Forall plain es -> (forall v, recorded v es <= MAX_SAFE_INTEGER) ->
  let s := Metrics.snapshot (fold_left Recording.apply es Metrics.new) in
  (forall v, measure v s = recorded v es) /\ NoDup (key_of <$> httpRequests s)
  /\ Forall (fun e => sum (requestDuration e) = sum_durations (durations (key_of e) es)) (httpRequests s).
Proof.
  intros Hp Hb s. destruct (Recording.run_tracks es Hp Hb) as [_ _ H3 H4 H5]. done.
Qed.

(** Aggregation loses nothing. Adding one snapshot to another adds every
    counter, request count, observation count and bucket of the two, whichever
    series and names they have in common, as long as the totals stay safe
    integers; and the result is again a snapshot of which this holds. *)
Theorem aggregation_exact t s :
  good t -> good s -> fits t s ->
  good (addMetricsSnapshot t s) /\ forall v, measure v (addMetricsSnapshot t s) = measure v t + measure v s.
Proof. apply add_snapshot_spec. Qed.

(** ** Labels *)

(** What a Prometheus scraper reads of a quoted label value: up to the first
    quote that is not escaped, undoing the escapes. *)
Fixpoint read_label (s : string) : option (string * string) :=
  match s with
  | EmptyString => None
  | String c s =>
      if Ascii.eqb c DQUOTE then Some ("", s)
      else if Ascii.eqb c BACKSLASH then
        match s with
        | EmptyString => None
        | String d s =>
            match read_label s with
            | Some (v, rest) => Some (String (if Ascii.eqb d "n" then LF else d) v, rest)
            | None => None
            end
        end
      else match read_label s with Some (v, rest) => Some (String c v, rest) | None => None end
  end.

Definition escape_char (c : ascii) : string :=
  if Ascii.eqb c BACKSLASH then String BACKSLASH (chr BACKSLASH)
  else if Ascii.eqb c LF then String BACKSLASH "n"
  else if Ascii.eqb c DQUOTE then String BACKSLASH (chr DQUOTE)
  else chr c.

Lemma replaceAll_app c b s t : replaceAll c b (s +:+ t) = replaceAll c b s +:+ replaceAll c b t.
Proof.
  induction s as [|d s IH]; [done|]. rewrite string_app_cons. cbn [replaceAll]. rewrite IH.
  case_match; [by rewrite string_app_assoc|done].
Qed.

(** The three passes escape each character on its own. *)
Lemma escape_cons c s : escapePrometheusLabel (String c s) = escape_char c +:+ escapePrometheusLabel s.
Proof.
  unfold escapePrometheusLabel, escape_char. cbn [replaceAll].
  destruct (Ascii.eqb_spec c BACKSLASH) as [->|H1]; [by rewrite !replaceAll_app|].
  cbn [replaceAll]. destruct (Ascii.eqb_spec c LF) as [->|H2]; [by rewrite !replaceAll_app|].
  cbn [replaceAll]. by destruct (Ascii.eqb_spec c DQUOTE).
Qed.

Lemma read_escaped d s v rest :
  read_label s = Some (v, rest) ->
  read_label (String BACKSLASH (String d s)) = Some (String (if Ascii.eqb d "n" then LF else d) v, rest).
Proof. intros Hs. simpl. by rewrite Hs. Qed.

Lemma escape_no_line_break s : string_forallb (fun c => negb (Ascii.eqb c LF)) (escapePrometheusLabel s) = true.
Proof.
  induction s as [|c s IH]; [done|]. rewrite escape_cons, string_forallb_app, IH, andb_true_r. unfold escape_char.
  destruct (Ascii.eqb_spec c BACKSLASH); [done|]. destruct (Ascii.eqb_spec c LF) as [|Hn]; [done|].
  destruct (Ascii.eqb_spec c DQUOTE); [done|]. simpl. by rewrite (proj2 (Ascii.eqb_neq _ _) Hn).
Qed.

(** No label breaks out of its quotes. Whatever a method or a route
    contains, quotes, backslashes and line breaks included, a scraper that
    reads the quoted label gets that very text back and continues right after
    the closing quote, and the label stays on its line. *)
Theorem labels_roundtrip value rest :
  read_label (escapePrometheusLabel value +:+ String DQUOTE rest) = Some (value, rest)
  /\ string_forallb (fun c => negb (Ascii.eqb c LF)) (escapePrometheusLabel value) = true.
Proof.
  split; [|apply escape_no_line_break]. induction value as [|c value IH]; [done|].
  rewrite escape_cons, <- string_app_assoc. unfold escape_char.
  destruct (Ascii.eqb_spec c BACKSLASH) as [->|H1]; [exact (read_escaped BACKSLASH _ _ _ IH)|].
  destruct (Ascii.eqb_spec c LF) as [->|H2]; [exact (read_escaped "n" _ _ _ IH)|].
  destruct (Ascii.eqb_spec c DQUOTE) as [->|H3]; [exact (read_escaped DQUOTE _ _ _ IH)|].
  unfold chr. rewrite string_app_char. cbn [read_label].
  by rewrite (proj2 (Ascii.eqb_neq _ _) H3), (proj2 (Ascii.eqb_neq _ _) H1), IH.
Qed.

(** ** Witnesses *)
Definition demo_events : list event :=
  [Request "GET" "/:code" 302 (literal 3 1000); Redirected; Request "GET" "/:code" 302 (double_of 30);
   Incremented "links_synced" 7; CreatedLink; Incremented "links_synced" 5; Request "GET" "/:code" 404 zero].

Lemma small_events v es :
  forallb (fun e => match e with Incremented _ value => value <=? 1000000 | _ => true end) es = true ->
  recorded v es <= 1000000 * Z.of_nat (List.length es).
Proof.
  induction es as [|e es IH]; [done|]. simpl forallb. intros [He Hes]%andb_true_iff. specialize (IH Hes).
  change (recorded v (e :: es)) with (weight v e + recorded v es). cbn [List.length].
  assert (weight v e <= 1000000); [|lia].
  destruct v, e; simpl; try lia; try (unfold indicator; case_match; lia).
Qed.

Lemma metrics_exact_witness :
  let s := Metrics.snapshot (fold_left Recording.apply demo_events Metrics.new) in
  measure (Requests (seriesKey "GET" "/:code" 302)) s = 2 /\ measure (Counter "links_synced") s = 12
  /\ measure (Bucket (seriesKey "GET" "/:code" 302) 0) s = 1.
Proof.
  destruct (metrics_exact demo_events) as (H & _ & _).
  - repeat constructor; discriminate.
  - intros v. etransitivity; [by apply small_events|]. discriminate.
  - cbv zeta in H |- *. rewrite !H. vm_compute. split_and!; reflexivity.
Defined.

Definition demo_snapshot : MetricsSnapshot := Metrics.snapshot (fold_left Recording.apply demo_events Metrics.new).

Lemma demo_snapshot_tracks : Recording.tracks demo_events (fold_left Recording.apply demo_events Metrics.new).
Proof.
  apply Recording.run_tracks; [repeat constructor; discriminate|].
  intros v. etransitivity; [by apply small_events|]. discriminate.
Qed.

Lemma aggregation_exact_witness :
  measure (Counter "links_synced") (addMetricsSnapshot demo_snapshot demo_snapshot) = 24.
Proof.
  pose proof demo_snapshot_tracks as Ht.
  destruct (aggregation_exact demo_snapshot demo_snapshot (Recording.t_good _ _ Ht) (Recording.t_good _ _ Ht)) as [_ H].
  - intros v. unfold demo_snapshot. rewrite (Recording.t_measure _ _ Ht).
    pose proof (small_events v demo_events eq_refl) as Hs. simpl in Hs. unfold MAX_SAFE_INTEGER. lia.
  - rewrite H. vm_compute. reflexivity.
Defined.
