(* ===== verification/Timing.v ===== *)
(** * The timing hooks

    The hooks of src/src/app.ts that measure requests: the table of start times,
    and what [metrics.request] is told. *)
From S2P Require Import Prelude JsDouble Metrics.
Open Scope Z_scope.

(** The start times, by request; nanoseconds of [process.hrtime.bigint()]. *)
Abbreviation RequestStartTimes := (gmap nat Z).

Definition onRequest (request : nat) (now : Z) (requestStartTimes : RequestStartTimes) : RequestStartTimes :=
  <[request := now]> requestStartTimes.

(** The table, and the measurement if there is one; [url] is [request.routeOptions.url]. *)
Definition onResponse (request : nat) (method : string) (url : option string) (statusCode now : Z)
    (requestStartTimes : RequestStartTimes) : RequestStartTimes * option event :=
  match requestStartTimes !! request with
  | None => (requestStartTimes, None)
  | Some startTime =>
      let elapsedNanoseconds := now - startTime in
      let route := default "unknown" url in
      (delete request requestStartTimes,
       Some (Request method route statusCode (literal elapsedNanoseconds 1000000000)))
  end.

(** ** What is measured *)

Inductive happening : Type :=
  | Arrives (request : nat) (now : Z)
  | Responds (request : nat) (method : string) (url : option string) (statusCode now : Z).

Fixpoint measured (hs : list happening) (times : RequestStartTimes) : RequestStartTimes * list event :=
  match hs with
  | [] => (times, [])
  | Arrives request now :: hs => measured hs (onRequest request now times)
  | Responds request method url statusCode now :: hs =>
      let '(times, e) := onResponse request method url statusCode now times in
      let '(times, es) := measured hs times in (times, option_list e ++ es)
  end.

Definition responses (hs : list happening) : list nat :=
  omap (fun h => match h with Responds request _ _ _ _ => Some request | _ => None end) hs.

(** Where every response is to a request that waits for one, as many are measured as
    there are responses, and the table holds the requests in flight. *)
Inductive lawful : gset nat -> list happening -> Prop :=
  | lawful_nil waiting : lawful waiting []
  | lawful_arrives waiting request now hs :
      request ∉ waiting -> lawful ({[request]} ∪ waiting) hs -> lawful waiting (Arrives request now :: hs)
  | lawful_responds waiting request method url statusCode now hs :
      request ∈ waiting -> lawful (waiting ∖ {[request]}) hs ->
      lawful waiting (Responds request method url statusCode now :: hs).

Lemma all_measured waiting hs times :
  lawful waiting hs -> dom times = waiting -> List.length (measured hs times).2 = List.length (responses hs).
Proof.
  intros Hl. revert times; induction Hl as [|waiting request now hs Hn _ IH|waiting request method url statusCode now hs Hin _ IH];
    intros times Hd; cbn [measured responses omap list_omap]; [done| |].
  - apply IH. unfold onRequest. by rewrite dom_insert_L, Hd.
  - unfold onResponse. rewrite <- Hd in Hin. apply elem_of_dom in Hin as [startTime ->].
    specialize (IH (delete request times)). destruct (measured hs (delete request times)) as [times' es]. cbn in *.
    rewrite IH; [done|]. by rewrite dom_delete_L, Hd.
Qed.

(** A request that was measured is not measured again. *)
Lemma measured_once request method url statusCode now times :
  (onResponse request method url statusCode now (onResponse request method url statusCode now times).1).2 = None.
Proof.
  unfold onResponse. destruct (times !! request) as [t|] eqn:Ht; cbn; [by rewrite lookup_delete_eq|by rewrite Ht].
Qed.
