(* ===== verification/ClusterMetrics.v ===== *)
(** * Metrics of a clustered worker

    src/src/cluster-metrics.ts: the collector of a worker process, which sends
    what it counts to the primary process in batches, and the validation of the
    messages the two exchange. Messages arrive as the parsed JSON values of
    node's IPC channel. *)
From Stdlib Require Import SpecFloat.
From S2P Require Import Prelude JsNum JsString JsDouble JsMap Metrics.
Open Scope Z_scope.

(** ** Values of messages *)

(** A number, given as an integer or as a double. *)
Inductive number : Type := Int (n : Z) | Real (d : double).

#[warnings="-register-all"]
Inductive value : Type :=
  | VUndefined
  | VNull
  | VBool (b : bool)
  | VNumber (n : number)
  | VString (s : string)
  | VArray (elements : list value)
  | VObject (members : jsmap value).

Definition integer (n : number) : option Z := match n with Int z => Some z | Real d => integer_of d end.
Definition real (n : number) : double := match n with Int z => double_of z | Real d => d end.

(** [(value as Record<string, unknown>).name]. *)
Definition field (v : value) (name : string) : value :=
  match v with VObject m => default VUndefined (get m name) | _ => VUndefined end.

(** [typeof value === "object" && value !== null]. *)
Definition is_object (v : value) : bool := match v with VObject _ | VArray _ => true | _ => false end.

(** ** Validation *)

Definition isNonNegativeSafeInteger (v : value) : bool :=
  match v with
  | VNumber n => match integer n with Some z => isSafeInteger z && (0 <=? z) | None => false end
  | _ => false
  end.

Definition isNonNegativeFiniteNumber (v : value) : bool :=
  match v with
  | VNumber n => isFinite (real n) && negb (SFltb (real n) zero)
  | _ => false
  end.

Definition isRequestDurationSnapshot (v : value) : bool :=
  if negb (is_object v) then false
  else
    match field v "buckets" with
    | VArray buckets =>
        if negb (List.length buckets =? List.length REQUEST_DURATION_BUCKETS)%nat
           || negb (isNonNegativeFiniteNumber (field v "sum")) || negb (isNonNegativeSafeInteger (field v "count"))
        then false
        else forallb isNonNegativeSafeInteger buckets
    | _ => false
    end.

Definition nonempty_string (v : value) : bool :=
  match v with VString s => negb (String.eqb s "") | _ => false end.

Definition isHttpRequestMetricsSnapshot (v : value) : bool :=
  if negb (is_object v) then false
  else
    nonempty_string (field v "method") && nonempty_string (field v "route")
    && match field v "statusCode" with
       | VNumber n =>
           match integer n with Some z => isSafeInteger z && (100 <=? z) && (z <=? 599) | None => false end
       | _ => false
       end
    && isNonNegativeSafeInteger (field v "requests") && isRequestDurationSnapshot (field v "requestDuration").

Definition isCounterRecord (v : value) : bool :=
  match v with
  | VUndefined => true
  | VObject m => forallb (fun p => COUNTER_NAME_PATTERN p.1 && isNonNegativeSafeInteger p.2) m
  | _ => false
  end.

Definition isMetricsSnapshot (v : value) : bool :=
  if negb (is_object v) then false
  else
    isCounterRecord (field v "counters") && isNonNegativeSafeInteger (field v "created")
    && isNonNegativeSafeInteger (field v "redirects") && isNonNegativeSafeInteger (field v "misses")
    && match field v "httpRequests" with VArray l => forallb isHttpRequestMetricsSnapshot l | _ => false end.

Definition is_text (v : value) (text : string) : bool :=
  match v with VString s => String.eqb s text | _ => false end.

Definition isWorkerMetricsMessage (v : value) : bool :=
  if negb (is_object v) then false
  else if is_text (field v "type") "metrics:batch" then isMetricsSnapshot (field v "snapshot")
  else if is_text (field v "type") "metrics:snapshot-request" || is_text (field v "type") "metrics:flush-response"
  then nonempty_string (field v "requestId")
  else false.

Definition isPrimaryMetricsMessage (v : value) : bool :=
  if negb (is_object v) then false
  else if is_text (field v "type") "metrics:flush-request" then nonempty_string (field v "requestId")
  else is_text (field v "type") "metrics:snapshot-response" && nonempty_string (field v "requestId")
       && isMetricsSnapshot (field v "snapshot").

(** ** Messages *)

Inductive WorkerMetricsMessage : Type :=
  | MetricsBatchMessage (snapshot : MetricsSnapshot)
  | MetricsSnapshotRequest (requestId : string)
  | MetricsFlushResponse (requestId : string).

Inductive PrimaryMetricsMessage : Type :=
  | MetricsFlushRequest (requestId : string)
  | MetricsSnapshotResponse (requestId : string) (snapshot : MetricsSnapshot).

(** What the channel makes of a snapshot: JSON has no infinite number. *)
Definition double_value (d : double) : value := if isFinite d then VNumber (Real d) else VNull.

Definition duration_value (d : RequestDurationSnapshot) : value :=
  VObject [("buckets", VArray ((fun n => VNumber (Int n)) <$> buckets d)); ("sum", double_value (sum d));
           ("count", VNumber (Int (count d)))].

Definition series_value (s : HttpRequestMetricsSnapshot) : value :=
  VObject [("method", VString (method s)); ("route", VString (route s)); ("statusCode", VNumber (Int (statusCode s)));
           ("requests", VNumber (Int (requests s))); ("requestDuration", duration_value (requestDuration s))].

Definition counter_value (c : counter) : value := match c with inl n => VNumber (Int n) | inr text => VString text end.

Definition snapshot_value (s : MetricsSnapshot) : value :=
  VObject ([("created", VNumber (Int (created s))); ("redirects", VNumber (Int (redirects s)));
            ("misses", VNumber (Int (misses s))); ("httpRequests", VArray (series_value <$> httpRequests s))]
           ++ match counters s with
              | Some c => [("counters", VObject ((fun p => (p.1, counter_value p.2)) <$> c))]
              | None => []
              end).

Definition worker_value (m : WorkerMetricsMessage) : value :=
  match m with
  | MetricsBatchMessage s => VObject [("type", VString "metrics:batch"); ("snapshot", snapshot_value s)]
  | MetricsSnapshotRequest id => VObject [("type", VString "metrics:snapshot-request"); ("requestId", VString id)]
  | MetricsFlushResponse id => VObject [("type", VString "metrics:flush-response"); ("requestId", VString id)]
  end.

Definition primary_value (m : PrimaryMetricsMessage) : value :=
  match m with
  | MetricsFlushRequest id => VObject [("type", VString "metrics:flush-request"); ("requestId", VString id)]
  | MetricsSnapshotResponse id s =>
      VObject [("type", VString "metrics:snapshot-response"); ("requestId", VString id); ("snapshot", snapshot_value s)]
  end.

(** Reading a validated value at its declared type. *)
Definition as_integer (v : value) : Z := match v with VNumber n => default 0 (integer n) | _ => 0 end.
Definition as_double (v : value) : double := match v with VNumber n => real n | _ => zero end.
Definition as_string (v : value) : string := match v with VString s => s | _ => "" end.
Definition as_array (v : value) : list value := match v with VArray l => l | _ => [] end.

Definition as_duration (v : value) : RequestDurationSnapshot :=
  {| buckets := as_integer <$> as_array (field v "buckets"); sum := as_double (field v "sum");
     count := as_integer (field v "count") |}.

Definition as_series (v : value) : HttpRequestMetricsSnapshot :=
  {| method := as_string (field v "method"); route := as_string (field v "route");
     statusCode := as_integer (field v "statusCode"); requests := as_integer (field v "requests");
     requestDuration := as_duration (field v "requestDuration") |}.

Definition as_snapshot (v : value) : MetricsSnapshot :=
  {| created := as_integer (field v "created"); redirects := as_integer (field v "redirects");
     misses := as_integer (field v "misses"); httpRequests := as_series <$> as_array (field v "httpRequests");
     counters := match field v "counters" with
                 | VObject m => Some ((fun p => (p.1, inl (as_integer p.2) : counter)) <$> m)
                 | _ => None
                 end |}.

(** The handlers read a message only once it is validated. *)
Definition as_worker_message (v : value) : option WorkerMetricsMessage :=
  if isWorkerMetricsMessage v then
    Some (if is_text (field v "type") "metrics:batch" then MetricsBatchMessage (as_snapshot (field v "snapshot"))
          else if is_text (field v "type") "metrics:flush-response"
          then MetricsFlushResponse (as_string (field v "requestId"))
          else MetricsSnapshotRequest (as_string (field v "requestId")))
  else None.

Definition as_primary_message (v : value) : option PrimaryMetricsMessage :=
  if isPrimaryMetricsMessage v then
    Some (if is_text (field v "type") "metrics:flush-request"
          then MetricsFlushRequest (as_string (field v "requestId"))
          else MetricsSnapshotResponse (as_string (field v "requestId")) (as_snapshot (field v "snapshot")))
  else None.

Definition isEmptySnapshot (s : MetricsSnapshot) : bool :=
  (created s =? 0) && (redirects s =? 0) && (misses s =? 0) && (List.length (httpRequests s) =? 0)%nat
  && (List.length (default [] (counters s)) =? 0)%nat.

(** ** The aggregate of the primary *)
Module MetricsAggregator.
Definition t : Type := MetricsSnapshot.
Definition new : t := emptyMetricsSnapshot.
Definition add (s : t) (snapshot : MetricsSnapshot) : t := addMetricsSnapshot s snapshot.
Definition snapshot (s : t) : MetricsSnapshot := copyMetricsSnapshot s.
End MetricsAggregator.

(** ** The collector of a worker *)
Module ClusterMetrics.

(** [#pending]: the snapshot requests still waiting for an answer, each with a
    timer. [handled]: is [handleMessage] still subscribed. *)
Record t : Type := {
  pending : list string;
  pendingSnapshot : MetricsSnapshot;
  nextRequestId : Z;
  flushTimer : bool;
  handled : bool
}.

(** [process.send]: absent, refusing, or there. *)
Inductive channel : Type := NoChannel | Broken | Open.

(** What a method does to the outside: messages sent, promises resolved. *)
Record effects : Type := { sent : list WorkerMetricsMessage; resolved : list (string * MetricsSnapshot) }.
Definition quiet : effects := {| sent := []; resolved := [] |}.
Definition sends (m : WorkerMetricsMessage) : effects := {| sent := [m]; resolved := [] |}.

Definition new (ch : channel) : t :=
  {| pending := []; pendingSnapshot := emptyMetricsSnapshot; nextRequestId := 0;
     flushTimer := match ch with NoChannel => false | _ => true end; handled := true |}.

Definition with_snapshot (s : t) (p : MetricsSnapshot) : t :=
  {| pending := pending s; pendingSnapshot := p; nextRequestId := nextRequestId s; flushTimer := flushTimer s;
     handled := handled s |}.
Definition with_pending (s : t) (l : list string) : t :=
  {| pending := l; pendingSnapshot := pendingSnapshot s; nextRequestId := nextRequestId s; flushTimer := flushTimer s;
     handled := handled s |}.

(** The buckets of one observation. *)
Fixpoint one_hot (previousBound : double) (bounds : list (double * string)) (seconds : double) : list Z :=
  match bounds with
  | [] => []
  | (upperBound, _) :: bounds =>
      (if SFleb seconds upperBound && SFltb previousBound seconds then 1 else 0)
      :: one_hot upperBound bounds seconds
  end.

Definition one_request (method route : string) (statusCode : Z) (durationSeconds : double) : MetricsSnapshot :=
  with_series emptyMetricsSnapshot
    [{| method := method; route := route; statusCode := statusCode; requests := 1;
        requestDuration := {| buckets := one_hot zero REQUEST_DURATION_BUCKETS durationSeconds;
                              sum := durationSeconds; count := 1 |} |}].

Definition request (method route : string) (statusCode : Z) (durationSeconds : double) (s : t) : t :=
  if negb (Metrics.request_ok method route statusCode durationSeconds) then s
  else with_snapshot s (addMetricsSnapshot (pendingSnapshot s) (one_request method route statusCode durationSeconds)).

Definition on_snapshot (f : MetricsSnapshot -> MetricsSnapshot) (s : t) : t := with_snapshot s (f (pendingSnapshot s)).

Definition increment (name : string) (value : Z) : t -> t := on_snapshot (fun p => addCounter p name value).

Definition flush (ch : channel) (s : t) : t * effects :=
  match ch with
  | NoChannel => (s, quiet)
  | _ =>
      let snapshot := pendingSnapshot s in
      if isEmptySnapshot snapshot then (s, quiet)
      else
        let s := with_snapshot s emptyMetricsSnapshot in
        match ch with
        | Open => (s, sends (MetricsBatchMessage snapshot))
        | _ => (with_snapshot s (addMetricsSnapshot (pendingSnapshot s) snapshot), quiet)
        end
  end.

(** [render] waits for the promise of [requestSnapshot]; [None]: the send threw. *)
Definition requestSnapshot (pid : Z) (ch : channel) (s : t) : t * option effects :=
  match ch with
  | NoChannel => (s, Some {| sent := []; resolved := [("", emptyMetricsSnapshot)] |})
  | _ =>
      let n := nextRequestId s + 1 in
      let requestId := js_String pid +:+ ":" +:+ js_String n in
      let s := {| pending := pending s ++ [requestId]; pendingSnapshot := pendingSnapshot s; nextRequestId := n;
                  flushTimer := flushTimer s; handled := handled s |} in
      (s, match ch with Open => Some (sends (MetricsSnapshotRequest requestId)) | _ => None end)
  end.

(** The timer of a pending request. *)
Definition timeout (requestId : string) (s : t) : t * effects :=
  (with_pending s (filter (fun id => id <> requestId) (pending s)),
   {| sent := []; resolved := [(requestId, emptyMetricsSnapshot)] |}).

(** [None]: the acknowledgement could not be sent, and the handler throws. *)
Definition handleMessage (ch : channel) (v : value) (s : t) : t * option effects :=
  match as_primary_message v with
  | None => (s, Some quiet)
  | Some (MetricsFlushRequest requestId) =>
      let '(s, e) := flush ch s in
      match ch with
      | NoChannel => (s, Some e)
      | Broken => (s, None)
      | Open => (s, Some {| sent := sent e ++ [MetricsFlushResponse requestId]; resolved := resolved e |})
      end
  | Some (MetricsSnapshotResponse requestId snapshot) =>
      if decide (requestId ∈ pending s)
      then (with_pending s (filter (fun id => id <> requestId) (pending s)),
            Some {| sent := []; resolved := [(requestId, snapshot)] |})
      else (s, Some quiet)
  end.

Definition close (ch : channel) (s : t) : t * effects :=
  let s := {| pending := pending s; pendingSnapshot := pendingSnapshot s; nextRequestId := nextRequestId s;
              flushTimer := false; handled := handled s |} in
  let '(s, e) := flush ch s in
  ({| pending := []; pendingSnapshot := pendingSnapshot s; nextRequestId := nextRequestId s;
      flushTimer := flushTimer s; handled := false |}, e).
End ClusterMetrics.

(** ** What validation guarantees *)

Definition safe_count (n : Z) : Prop := 0 <= n <= MAX_SAFE_INTEGER.

Record wf_duration (d : RequestDurationSnapshot) : Prop := {
  wf_buckets : Forall safe_count (buckets d);
  wf_length : List.length (buckets d) = 11%nat;
  wf_finite : isFinite (sum d) = true;
  wf_sign : SFltb (sum d) zero = false;
  wf_count : safe_count (count d)
}.

Record wf_series (s : HttpRequestMetricsSnapshot) : Prop := {
  wf_method : method s <> "";
  wf_route : route s <> "";
  wf_status : 100 <= statusCode s <= 599;
  wf_requests : safe_count (requests s);
  wf_histogram : wf_duration (requestDuration s)
}.

Definition wf_counter (p : string * counter) : Prop :=
  COUNTER_NAME_PATTERN p.1 = true /\ exists n, p.2 = inl n /\ safe_count n.

Record wf_snapshot (s : MetricsSnapshot) : Prop := {
  wf_created : safe_count (created s);
  wf_redirects : safe_count (redirects s);
  wf_misses : safe_count (misses s);
  wf_all_series : Forall wf_series (httpRequests s);
  wf_counters : Forall wf_counter (default [] (counters s))
}.

Lemma safe_integer v : isNonNegativeSafeInteger v = true <-> exists n z, v = VNumber n /\ integer n = Some z /\ safe_count z.
Proof.
  unfold isNonNegativeSafeInteger, safe_count, isSafeInteger, MAX_SAFE_INTEGER. split.
  - destruct v as [| | |n| | |]; try done. destruct (integer n) as [z|] eqn:Hz; [|done]. intros Hb. exists n, z.
    split_and!; try done; lia.
  - intros (n & z & -> & -> & Hz). lia.
Qed.


Lemma safe_integer_Int z : safe_count z -> isNonNegativeSafeInteger (VNumber (Int z)) = true.
Proof. intros Hz. apply safe_integer. by exists (Int z), z. Qed.

Lemma finite_double v :
  isNonNegativeFiniteNumber v = true -> isFinite (as_double v) = true /\ SFltb (as_double v) zero = false.
Proof. destruct v; try done. simpl. intros [Hf Hs%negb_true_iff]%andb_true_iff. done. Qed.

Lemma text_nonempty v : nonempty_string v = true -> as_string v <> "".
Proof. destruct v; try done. simpl. by intros Hs%negb_true_iff%String.eqb_neq. Qed.

(** The values that have the declared types, written from the interfaces and
    not from the guards: every field is there, has exactly its type and its
    bounds, and reads as the given value. A field that is absent, or of another
    type, has no reading. *)
Definition counts_as (v : value) (z : Z) : Prop := exists n, v = VNumber n /\ integer n = Some z /\ safe_count z.
Definition double_of_value (v : value) (d : double) : Prop :=
  exists n, v = VNumber n /\ real n = d /\ isFinite d = true /\ SFltb d zero = false.
Definition text_of (v : value) (s : string) : Prop := v = VString s /\ s <> "".

Record duration_of (v : value) (d : RequestDurationSnapshot) : Prop := {
  of_buckets : exists l, field v "buckets" = VArray l /\ Forall2 counts_as l (buckets d);
  of_length : List.length (buckets d) = 11%nat;
  of_sum : double_of_value (field v "sum") (sum d);
  of_observations : counts_as (field v "count") (count d)
}.

Record series_of (v : value) (s : HttpRequestMetricsSnapshot) : Prop := {
  of_method : text_of (field v "method") (method s);
  of_route : text_of (field v "route") (route s);
  of_status : exists n, field v "statusCode" = VNumber n /\ integer n = Some (statusCode s) /\ 100 <= statusCode s <= 599;
  of_requests : counts_as (field v "requests") (requests s);
  of_histogram : duration_of (field v "requestDuration") (requestDuration s)
}.

Definition counter_of (p : string * value) (q : string * counter) : Prop :=
  q.1 = p.1 /\ COUNTER_NAME_PATTERN p.1 = true /\ exists n, q.2 = inl n /\ counts_as p.2 n.

(** The counters are optional: they may be absent, and are an object otherwise. *)
Definition counters_of (v : value) (c : option (jsmap counter)) : Prop :=
  match c with None => v = VUndefined | Some c => exists m, v = VObject m /\ Forall2 counter_of m c end.

Record snapshot_of (v : value) (s : MetricsSnapshot) : Prop := {
  of_created : counts_as (field v "created") (created s);
  of_redirects : counts_as (field v "redirects") (redirects s);
  of_misses : counts_as (field v "misses") (misses s);
  of_series : exists l, field v "httpRequests" = VArray l /\ Forall2 series_of l (httpRequests s);
  of_counters : counters_of (field v "counters") (counters s)
}.

Definition worker_message_of (v : value) (m : WorkerMetricsMessage) : Prop :=
  match m with
  | MetricsBatchMessage s => field v "type" = VString "metrics:batch" /\ snapshot_of (field v "snapshot") s
  | MetricsSnapshotRequest id =>
      field v "type" = VString "metrics:snapshot-request" /\ text_of (field v "requestId") id
  | MetricsFlushResponse id => field v "type" = VString "metrics:flush-response" /\ text_of (field v "requestId") id
  end.

Definition primary_message_of (v : value) (m : PrimaryMetricsMessage) : Prop :=
  match m with
  | MetricsFlushRequest id => field v "type" = VString "metrics:flush-request" /\ text_of (field v "requestId") id
  | MetricsSnapshotResponse id s =>
      field v "type" = VString "metrics:snapshot-response" /\ text_of (field v "requestId") id
      /\ snapshot_of (field v "snapshot") s
  end.

(** Each guard accepts exactly the values that have a reading, and it is the one
    the handlers take. *)
Lemma field_object v name x : field v name = x -> x <> VUndefined -> is_object v = true.
Proof. destruct v; cbn; intros; subst; done. Qed.

Lemma count_read v z : isNonNegativeSafeInteger v = true /\ as_integer v = z <-> counts_as v z.
Proof.
  split.
  - intros [(n & z' & -> & Hz & Hs)%safe_integer <-]. exists n. cbn. rewrite Hz. done.
  - intros (n & -> & Hz & Hs). split; [apply safe_integer; by exists n, z|]. cbn. by rewrite Hz.
Qed.

Lemma double_read v d : isNonNegativeFiniteNumber v = true /\ as_double v = d <-> double_of_value v d.
Proof.
  split.
  - intros [Hv <-]. destruct v; try done. exists n. by apply finite_double in Hv.
  - intros (n & -> & <- & Hf & Hs). cbn. by rewrite Hf, Hs.
Qed.

Lemma text_read v s : nonempty_string v = true /\ as_string v = s <-> text_of v s.
Proof.
  split.
  - intros [Hv <-]. split; [by destruct v|by apply text_nonempty].
  - intros [-> Hs]. cbn. by rewrite (proj2 (String.eqb_neq _ _) Hs).
Qed.

(** A guard on each element, and a reading of each. *)
Lemma all_read {A B} (p : A -> bool) (f : A -> B) (R : A -> B -> Prop) (l : list A) l' :
  (forall x y, p x = true /\ f x = y <-> R x y) -> forallb p l = true /\ f <$> l = l' <-> Forall2 R l l'.
Proof.
  intros Hr. revert l'. induction l as [|x l IH]; intros l'.
  - split; [by intros [_ <-]|]. by intros ->%Forall2_nil_inv_l.
  - rewrite fmap_cons. cbn [forallb]. split.
    + intros [[Hx Hl]%andb_true_iff <-]. constructor; [by apply Hr|]. by apply IH.
    + intros (y & l2 & Hy & Hl & ->)%Forall2_cons_inv_l. apply Hr in Hy as [-> <-]. by apply IH in Hl as [-> <-].
Qed.

Lemma duration_read v d : isRequestDurationSnapshot v = true /\ as_duration v = d <-> duration_of v d.
Proof.
  unfold isRequestDurationSnapshot, as_duration. split.
  - intros [Hv <-]. destruct (is_object v); [|done]. cbn [negb] in Hv.
    destruct (field v "buckets") as [| | | | |l|] eqn:Hb; try done. destruct (negb _ || _ || _) eqn:Hg; [done|].
    apply orb_false_iff in Hg as [[Hl%negb_false_iff%Nat.eqb_eq Hs%negb_false_iff]%orb_false_iff Hc%negb_false_iff].
    split; cbn [buckets sum count as_array]; [|by rewrite length_fmap|by apply double_read|by apply count_read].
    exists l. split; [done|]. by apply (all_read isNonNegativeSafeInteger as_integer counts_as _ _ count_read).
  - destruct d as [b s c]. intros [(l & Hb & Hl) Hlen Hs Hc].
    cbn [buckets sum count] in *. apply double_read in Hs as [Hs <-]. apply count_read in Hc as [Hc <-].
    rewrite (field_object _ _ _ Hb) by done. rewrite Hb, Hs, Hc. cbn [negb as_array].
    apply (all_read isNonNegativeSafeInteger as_integer counts_as _ _ count_read) in Hl as [Hl <-].
    rewrite length_fmap in Hlen. by rewrite Hlen, Hl.
Qed.

Lemma status_read v z :
  match v with
  | VNumber n => match integer n with Some z => isSafeInteger z && (100 <=? z) && (z <=? 599) | None => false end
  | _ => false
  end = true /\ as_integer v = z <-> exists n, v = VNumber n /\ integer n = Some z /\ 100 <= z <= 599.
Proof.
  split.
  - intros [Hv <-]. destruct v as [| | |n| | |]; try done. exists n. cbn. destruct (integer n); [|done]. cbn.
    split_and!; [done|done|lia..].
  - intros (n & -> & Hz & Hb). cbn. rewrite Hz. split; [|done]. unfold isSafeInteger, MAX_SAFE_INTEGER. lia.
Qed.

Lemma series_read v s : isHttpRequestMetricsSnapshot v = true /\ as_series v = s <-> series_of v s.
Proof.
  unfold isHttpRequestMetricsSnapshot, as_series. split.
  - intros [Hv <-]. destruct (is_object v); [|done]. cbn [negb] in Hv.
    apply andb_true_iff in Hv as [[[[Hm Hr]%andb_true_iff Hst]%andb_true_iff Hq]%andb_true_iff Hd].
    split; cbn [method route statusCode requests requestDuration];
      [by apply text_read|by apply text_read|by apply status_read|by apply count_read|by apply duration_read].
  - destruct s as [m r st q d]. intros [Hm Hr Hst Hq Hd]. cbn [method route statusCode requests requestDuration] in *.
    rewrite (field_object _ _ _ (proj1 Hm)) by done. apply text_read in Hm as [-> ->]. apply text_read in Hr as [-> ->].
    apply status_read in Hst as [-> ->]. apply count_read in Hq as [-> ->]. by apply duration_read in Hd as [-> ->].
Qed.

Definition as_counters (v : value) : option (jsmap counter) :=
  match v with
  | VObject m => Some ((fun p => (p.1, inl (as_integer p.2) : counter)) <$> m)
  | _ => None
  end.

Lemma counter_read p q :
  COUNTER_NAME_PATTERN p.1 && isNonNegativeSafeInteger p.2 = true /\ (p.1, inl (as_integer p.2) : counter) = q
  <-> counter_of p q.
Proof.
  split.
  - intros [[Hn Hv]%andb_true_iff <-]. split_and!; [done|done|]. exists (as_integer p.2). split; [done|]. by apply count_read.
  - destruct q as [n c]. intros (Hn & Hp & z & Hc & [Hv Hz]%count_read). cbn in *. subst. by rewrite Hp, Hv.
Qed.

Lemma counters_read v c : isCounterRecord v = true /\ as_counters v = c <-> counters_of v c.
Proof.
  unfold counters_of. split.
  - intros [Hv <-]. destruct v as [| | | | | |m]; try done. exists m. split; [done|].
    by apply (all_read _ _ counter_of _ _ counter_read).
  - destruct c as [c|]; [|by intros ->]. intros (m & -> & [Hm <-]%(all_read _ _ counter_of _ _ counter_read)). done.
Qed.

Lemma snapshot_read v s : isMetricsSnapshot v = true /\ as_snapshot v = s <-> snapshot_of v s.
Proof.
  unfold isMetricsSnapshot, as_snapshot. fold (as_counters (field v "counters")). split.
  - intros [Hv <-]. destruct (is_object v); [|done]. cbn [negb] in Hv.
    apply andb_true_iff in Hv as [[[[Hc Hcr]%andb_true_iff Hre]%andb_true_iff Hmi]%andb_true_iff Hl].
    split; cbn [created redirects misses httpRequests counters]; try (by apply count_read);
      [|by apply counters_read].
    destruct (field v "httpRequests") as [| | | | |l|]; try done. exists l. split; [done|].
    by apply (all_read _ _ series_of _ _ series_read).
  - destruct s as [cr re mi h c]. intros [Hcr Hre Hmi (l & Hf & Hl) Hc].
    cbn [created redirects misses httpRequests counters] in *.
    rewrite (field_object _ _ _ Hf) by done. rewrite Hf. cbn [negb as_array].
    apply count_read in Hcr as [-> ->], Hre as [-> ->], Hmi as [-> ->]. apply counters_read in Hc as [-> ->].
    by apply (all_read _ _ series_of _ _ series_read) in Hl as [-> ->].
Qed.

(** What has a reading is well formed. *)
Lemma counts_safe l l' : Forall2 counts_as l l' -> Forall safe_count l'.
Proof. induction 1 as [|v z l l' (n & _ & _ & Hs) _ IH]; [apply Forall_nil_2|by apply Forall_cons]. Qed.

Lemma duration_typed v d : duration_of v d -> wf_duration d.
Proof.
  intros [(l & _ & Hl) Hlen (n & _ & _ & Hf & Hs) (n' & _ & _ & Hc)]. split; try done. by apply counts_safe in Hl.
Qed.

Lemma series_typed v s : series_of v s -> wf_series s.
Proof. intros [[_ Hm] [_ Hr] (n & _ & _ & Hst) (n' & _ & _ & Hq) Hd]. split; try done. by apply duration_typed in Hd. Qed.

Lemma snapshot_typed v s : snapshot_of v s -> wf_snapshot s.
Proof.
  intros [(? & _ & _ & Hcr) (? & _ & _ & Hre) (? & _ & _ & Hmi) (l & _ & Hl) Hc]. split; try done.
  - clear -Hl. induction Hl as [|x y l l' Hx _ IH]; [apply Forall_nil_2|]. apply Forall_cons. split; [|done].
    by apply series_typed in Hx.
  - destruct (counters s) as [c|]; [|apply Forall_nil_2]. destruct Hc as (m & _ & Hm). cbn [default].
    clear -Hm. induction Hm as [|p q m c (Hn & Hp & z & Hz & ? & _ & _ & Hs) _ IH]; [apply Forall_nil_2|].
    apply Forall_cons. split; [|done]. split; [by rewrite Hn|]. by exists z.
Qed.

(** ** What is sent is accepted *)

(** Evaluates the lookups of the fields of a literal object. *)
Ltac fields :=
  repeat first [rewrite bool_decide_true by reflexivity | rewrite bool_decide_false by discriminate];
  cbn [from_option id nonempty_string is_text as_array as_integer as_string as_double integer default].

Lemma map_id_of {A B} (f : A -> B) (g : B -> A) (P : A -> Prop) (l : list A) :
  (forall x, P x -> g (f x) = x) -> Forall P l -> g <$> (f <$> l) = l.
Proof. intros Hgf. induction 1 as [|x l Hx _ IH]; [done|]. rewrite !fmap_cons, IH. by rewrite Hgf. Qed.

Lemma forallb_fmap_of {A B} (f : A -> B) (p : B -> bool) (P : A -> Prop) (l : list A) :
  (forall x, P x -> p (f x) = true) -> Forall P l -> forallb p (f <$> l) = true.
Proof. intros Hp. induction 1 as [|x l Hx _ IH]; [done|]. rewrite fmap_cons. cbn [forallb]. by rewrite IH, Hp. Qed.

Lemma duration_accepted d :
  wf_duration d -> isRequestDurationSnapshot (duration_value d) = true /\ as_duration (duration_value d) = d.
Proof.
  intros [H1 H2 H3 H4 H5]. destruct d as [b s c]. cbn [buckets sum count] in *. split.
  - unfold isRequestDurationSnapshot. cbn [duration_value is_object negb field get]. simpl bool_decide. cbn [default].
    cbn -[isNonNegativeFiniteNumber isNonNegativeSafeInteger double_value forallb length]. 
    rewrite length_fmap, H2, Nat.eqb_refl, (safe_integer_Int c H5). unfold double_value. rewrite H3.
    cbn [isNonNegativeFiniteNumber real]. rewrite H3, H4. cbn [negb andb orb].
    apply (forallb_fmap_of _ _ safe_count); [apply safe_integer_Int|done].
  - unfold as_duration. cbn. unfold double_value. rewrite H3. cbn. f_equal.
    apply (map_id_of _ _ safe_count); [done|done].
Qed.

Lemma series_accepted s :
  wf_series s -> isHttpRequestMetricsSnapshot (series_value s) = true /\ as_series (series_value s) = s.
Proof.
  intros [H1 H2 H3 H4 H5]. destruct (duration_accepted _ H5) as [Hd1 Hd2].
  destruct s as [m r st q d]. cbn [method route statusCode requests requestDuration] in *. split.
  - unfold isHttpRequestMetricsSnapshot, series_value.
    cbn -[isNonNegativeSafeInteger isRequestDurationSnapshot duration_value isSafeInteger Z.leb].
    fields. rewrite Hd1, (safe_integer_Int q H4), (proj2 (String.eqb_neq _ _) H1), (proj2 (String.eqb_neq _ _) H2).
    unfold isSafeInteger, MAX_SAFE_INTEGER. cbn [negb andb]. lia.
  - unfold as_series, series_value. cbn -[as_duration duration_value]. fields. by rewrite Hd2.
Qed.

Lemma counters_accepted c :
  Forall wf_counter c ->
  isCounterRecord (VObject ((fun p => (p.1, counter_value p.2)) <$> c)) = true
  /\ (fun p => (p.1, inl (as_integer p.2) : counter)) <$> ((fun p => (p.1, counter_value p.2)) <$> c) = c.
Proof.
  intros Hc. split.
  - apply (forallb_fmap_of _ _ wf_counter); [|done]. intros [n v] (Hn & z & Hv & Hz). simpl in *. subst v.
    rewrite Hn. by apply safe_integer_Int.
  - apply (map_id_of _ _ wf_counter); [|done]. intros [n v] (Hn & z & Hv & Hz). simpl in *. by subst v.
Qed.

Lemma snapshot_accepted s : wf_snapshot s -> isMetricsSnapshot (snapshot_value s) = true /\ as_snapshot (snapshot_value s) = s.
Proof.
  intros [H1 H2 H3 H4 H5]. destruct s as [cr re mi l c]. cbn [created redirects misses httpRequests counters] in *.
  assert (Hl : forallb isHttpRequestMetricsSnapshot (series_value <$> l) = true)
    by (apply (forallb_fmap_of _ _ wf_series); [apply series_accepted|done]).
  assert (Hl2 : as_series <$> (series_value <$> l) = l)
    by (apply (map_id_of _ _ wf_series); [apply series_accepted|done]).
  unfold isMetricsSnapshot, as_snapshot, snapshot_value.
  destruct c as [c|]; [destruct (counters_accepted c H5) as [Hc1 Hc2]|]; split;
    cbn -[isNonNegativeSafeInteger isHttpRequestMetricsSnapshot forallb as_series series_value fmap isCounterRecord]; fields;
    rewrite ?Hl, ?Hl2, ?Hc1, ?Hc2, ?(safe_integer_Int _ H1), ?(safe_integer_Int _ H2), ?(safe_integer_Int _ H3); done.
Qed.

Definition sendable_worker (m : WorkerMetricsMessage) : Prop :=
  match m with MetricsBatchMessage s => wf_snapshot s | MetricsSnapshotRequest id | MetricsFlushResponse id => id <> "" end.

Definition sendable_primary (m : PrimaryMetricsMessage) : Prop :=
  match m with MetricsFlushRequest id => id <> "" | MetricsSnapshotResponse id s => id <> "" /\ wf_snapshot s end.

Lemma worker_message_roundtrip m : sendable_worker m -> as_worker_message (worker_value m) = Some m.
Proof.
  unfold as_worker_message, isWorkerMetricsMessage. destruct m as [s|id|id]; intros Hm;
    cbn -[isMetricsSnapshot as_snapshot snapshot_value]; fields; cbn -[isMetricsSnapshot as_snapshot snapshot_value].
  - destruct (snapshot_accepted s Hm) as [H1 H2]. by rewrite H1, H2.
  - by rewrite (proj2 (String.eqb_neq _ _) Hm).
  - by rewrite (proj2 (String.eqb_neq _ _) Hm).
Qed.

Lemma primary_message_roundtrip m : sendable_primary m -> as_primary_message (primary_value m) = Some m.
Proof.
  unfold as_primary_message, isPrimaryMetricsMessage. destruct m as [id|id s]; intros Hm;
    cbn -[isMetricsSnapshot as_snapshot snapshot_value]; fields; cbn -[isMetricsSnapshot as_snapshot snapshot_value].
  - by rewrite (proj2 (String.eqb_neq _ _) Hm).
  - destruct Hm as [Hid Hs]. destruct (snapshot_accepted s Hs) as [H1 H2].
    by rewrite H1, H2, (proj2 (String.eqb_neq _ _) Hid).
Qed.

(** Only what is well formed is accepted. *)
Lemma safe_Int_inv z : isNonNegativeSafeInteger (VNumber (Int z)) = true -> safe_count z.
Proof. intros (n & z' & [= <-] & [= <-] & Hz)%safe_integer. done. Qed.

Lemma forallb_fmap_inv {A B} (f : A -> B) (p : B -> bool) (P : A -> Prop) (l : list A) :
  (forall x, p (f x) = true -> P x) -> forallb p (f <$> l) = true -> Forall P l.
Proof.
  intros Hp. induction l as [|x l IH]; [intros; apply Forall_nil_2|]. rewrite fmap_cons. cbn [forallb].
  intros [Hx Hl]%andb_true_iff. apply Forall_cons. split; [by apply Hp|by apply IH].
Qed.

Lemma duration_accepted_inv d : isRequestDurationSnapshot (duration_value d) = true -> wf_duration d.
Proof.
  destruct d as [b s c]. unfold isRequestDurationSnapshot.
  cbn -[isNonNegativeFiniteNumber isNonNegativeSafeInteger double_value forallb length]. fields.
  rewrite length_fmap. destruct (negb _ || _ || _) eqn:Hg; [done|].
  apply orb_false_iff in Hg as [[Hl%negb_false_iff%Nat.eqb_eq Hs%negb_false_iff]%orb_false_iff Hc%negb_false_iff].
  intros Hall. unfold double_value in Hs. destruct (isFinite s) eqn:Hf; [|done].
  cbn [isNonNegativeFiniteNumber real] in Hs. apply andb_true_iff in Hs as [_ Hs%negb_true_iff].
  split; cbn [buckets sum count]; try done; [|by apply safe_Int_inv].
  by apply (forallb_fmap_inv _ _ safe_count) in Hall; [|intros x; apply safe_Int_inv].
Qed.

Lemma series_accepted_inv s : isHttpRequestMetricsSnapshot (series_value s) = true -> wf_series s.
Proof.
  destruct s as [m r st q d]. unfold isHttpRequestMetricsSnapshot, series_value.
  cbn -[isNonNegativeSafeInteger isRequestDurationSnapshot duration_value isSafeInteger Z.leb nonempty_string]. fields.
  intros [[[[Hm Hr]%andb_true_iff Hst]%andb_true_iff Hq]%andb_true_iff Hd]%andb_true_iff.
  split; cbn [method route statusCode requests requestDuration].
  - by apply negb_true_iff, String.eqb_neq in Hm.
  - by apply negb_true_iff, String.eqb_neq in Hr.
  - lia.
  - by apply safe_Int_inv.
  - by apply duration_accepted_inv.
Qed.

Lemma snapshot_accepted_inv s : isMetricsSnapshot (snapshot_value s) = true -> wf_snapshot s.
Proof.
  destruct s as [cr re mi l c]. unfold isMetricsSnapshot, snapshot_value.
  assert (Hser : forallb isHttpRequestMetricsSnapshot (series_value <$> l) = true -> Forall wf_series l)
    by (apply forallb_fmap_inv; apply series_accepted_inv).
  destruct c as [c|];
    cbn -[isNonNegativeSafeInteger isHttpRequestMetricsSnapshot forallb series_value fmap isCounterRecord]; fields;
    intros [[[[Hc Hcr%safe_Int_inv]%andb_true_iff Hre%safe_Int_inv]%andb_true_iff Hmi%safe_Int_inv]%andb_true_iff Hl]%andb_true_iff;
    split; cbn [created redirects misses httpRequests counters]; try done; try by apply Hser.
  revert Hc. apply forallb_fmap_inv. intros [n [z|t]] [Hn Hv]%andb_true_iff; [|done].
  split; [done|]. exists z. split; [done|]. by apply safe_Int_inv.
Qed.

(** A message is read back unchanged or not at all. *)
Lemma worker_message_read m m' : as_worker_message (worker_value m) = Some m' -> m' = m.
Proof.
  intros Hm. enough (Hs : sendable_worker m) by (apply worker_message_roundtrip in Hs; congruence).
  unfold as_worker_message in Hm. destruct (isWorkerMetricsMessage _) eqn:Hv; [|done]. clear Hm m'.
  revert Hv. unfold isWorkerMetricsMessage. destruct m as [s|id|id];
    cbn -[isMetricsSnapshot snapshot_value nonempty_string]; fields; cbn -[isMetricsSnapshot snapshot_value].
  - apply snapshot_accepted_inv.
  - by intros Hid%negb_true_iff%String.eqb_neq.
  - by intros Hid%negb_true_iff%String.eqb_neq.
Qed.

(** The type of a message. *)
Lemma is_text_of v text : is_text v text = true <-> v = VString text.
Proof. split; [|by intros ->; apply String.eqb_eq]. destruct v; try done. by intros ->%String.eqb_eq. Qed.

Lemma worker_message_typed v m : as_worker_message v = Some m <-> worker_message_of v m.
Proof.
  unfold as_worker_message, isWorkerMetricsMessage. split.
  - destruct (is_object v); [|done]. cbn [negb].
    destruct (is_text (field v "type") "metrics:batch") eqn:Hb.
    { destruct (isMetricsSnapshot _) eqn:Hs; [|done]. intros [= <-]. split; [by apply is_text_of|].
      by apply snapshot_read. }
    destruct (is_text _ "metrics:snapshot-request") eqn:Hr; destruct (is_text _ "metrics:flush-response") eqn:Hf;
      cbn [orb]; try done; destruct (nonempty_string _) eqn:Hs; try done; intros [= <-].
    + apply is_text_of in Hr. rewrite Hr in Hf. done.
    + split; [by apply is_text_of|by apply text_read].
    + split; [by apply is_text_of|by apply text_read].
  - destruct m as [s|id|id]; intros [Ht Hs]; rewrite (field_object _ _ _ Ht), Ht by done; cbn [negb is_text].
    + apply snapshot_read in Hs as [Hs <-]. cbn. by rewrite Hs.
    + apply text_read in Hs as [Hs <-]. cbn -[nonempty_string]. by rewrite Hs.
    + apply text_read in Hs as [Hs <-]. cbn -[nonempty_string]. by rewrite Hs.
Qed.

Lemma primary_message_typed v m : as_primary_message v = Some m <-> primary_message_of v m.
Proof.
  unfold as_primary_message, isPrimaryMetricsMessage. split.
  - destruct (is_object v); [|done]. cbn [negb].
    destruct (is_text (field v "type") "metrics:flush-request") eqn:Hb.
    { destruct (nonempty_string _) eqn:Hs; [|done]. intros [= <-]. split; [by apply is_text_of|]. by apply text_read. }
    destruct (is_text _ _ && _ && _) eqn:Hg; [|done]. intros [= <-].
    apply andb_true_iff in Hg as [[Ht Hid]%andb_true_iff Hs].
    split_and!; [by apply is_text_of|by apply text_read|by apply snapshot_read].
  - destruct m as [id|id s].
    + intros [Ht [Hs <-]%text_read]. rewrite (field_object _ _ _ Ht), Ht by done. cbn -[nonempty_string]. by rewrite Hs.
    + intros (Ht & [Hi <-]%text_read & [Hs <-]%snapshot_read). rewrite (field_object _ _ _ Ht), Ht by done.
      cbn -[nonempty_string]. by rewrite Hi, Hs.
Qed.

(** C40. Messages have the type the guards claim, and no other is lost. A value
    that arrives is accepted as a message of a worker exactly when every one of
    its fields is there at its declared type: the type text, an identifier that is
    a non-empty string, and for a batch three safe, non-negative counts, an array
    of request series (each a method, a route, a status, a count and a histogram
    of 11 buckets, a finite sum and a count) and either no counters or an object
    of counts under valid names; and the message is the one those fields spell.
    Likewise for the messages of the primary. Every message made of such parts is
    accepted by the other side's guard and read back unchanged. *)
Theorem messages_typed :
  (forall v, isWorkerMetricsMessage v = true <-> exists m, worker_message_of v m)
  /\ (forall v, isPrimaryMetricsMessage v = true <-> exists m, primary_message_of v m)
  /\ (forall v m, as_worker_message v = Some m <-> worker_message_of v m)
  /\ (forall v m, as_primary_message v = Some m <-> primary_message_of v m)
  /\ (forall m, sendable_worker m -> as_worker_message (worker_value m) = Some m)
  /\ (forall m, sendable_primary m -> as_primary_message (primary_value m) = Some m).
Proof.
  split_and!; [intros v..|apply worker_message_typed|apply primary_message_typed|apply worker_message_roundtrip
              |apply primary_message_roundtrip].
  - setoid_rewrite <- worker_message_typed. unfold as_worker_message. destruct (isWorkerMetricsMessage v).
    + split; [by eexists|done].
    + split; [done|by intros []].
  - setoid_rewrite <- primary_message_typed. unfold as_primary_message. destruct (isPrimaryMetricsMessage v).
    + split; [by eexists|done].
    + split; [done|by intros []].
Qed.

(** ** Recording in a worker *)

Definition positive (d : double) : Prop := exists m e, d = S754_finite false m e.

Lemma positive_leb m1 e1 m2 e2 :
  SFleb (S754_finite false m1 e1) (S754_finite false m2 e2) = (e1 <? e2) || (e1 =? e2) && (Z.pos m1 <=? Z.pos m2).
Proof.
  unfold SFleb, SFcompare. destruct (Z.compare_spec e1 e2) as [->|Hlt|Hgt].
  - rewrite Z.ltb_irrefl, Z.eqb_refl. simpl. change (Pos.compare_cont Eq m1 m2) with (Pos.compare m1 m2).
    destruct (Pos.compare_spec m1 m2); lia.
  - lia.
  - lia.
Qed.

Lemma positive_ltb m1 e1 m2 e2 :
  SFltb (S754_finite false m1 e1) (S754_finite false m2 e2) = (e1 <? e2) || (e1 =? e2) && (Z.pos m1 <? Z.pos m2).
Proof.
  unfold SFltb, SFcompare. destruct (Z.compare_spec e1 e2) as [->|Hlt|Hgt].
  - rewrite Z.ltb_irrefl, Z.eqb_refl. simpl. change (Pos.compare_cont Eq m1 m2) with (Pos.compare m1 m2).
    destruct (Pos.compare_spec m1 m2); lia.
  - lia.
  - lia.
Qed.

Lemma positive_total a b : positive a -> positive b -> SFltb a b = negb (SFleb b a).
Proof. intros (m1 & e1 & ->) (m2 & e2 & ->). rewrite positive_ltb, positive_leb. lia. Qed.

Lemma positive_trans a b c : positive a -> positive b -> positive c -> SFleb a b -> SFleb b c -> SFleb a c.
Proof.
  intros (m1 & e1 & ->) (m2 & e2 & ->) (m3 & e3 & ->). rewrite !positive_leb, !Is_true_true. lia.
Qed.

(** Bounds in increasing order. *)
Inductive increasing : list (double * string) -> Prop :=
  | increasing_nil : increasing []
  | increasing_cons b t bounds :
      positive b -> Forall (fun p => SFleb b p.1) bounds -> increasing bounds -> increasing ((b, t) :: bounds).

Lemma increasing_positive bounds : increasing bounds -> Forall (fun p => positive p.1) bounds.
Proof. induction 1; by constructor. Qed.

Lemma buckets_increasing : increasing REQUEST_DURATION_BUCKETS.
Proof. repeat (constructor; [by do 2 eexists|by repeat constructor|]). constructor. Qed.

Lemma one_hot_past prev bounds d j :
  positive d -> SFleb d prev -> positive prev -> increasing ((prev, "") :: bounds) ->
  at_ (ClusterMetrics.one_hot prev bounds d) j = 0.
Proof.
  intros Hd Hle Hp Hinc. revert prev j Hle Hp Hinc; induction bounds as [|[b t] bounds IH]; intros prev j Hle Hp Hinc; [done|].
  inversion Hinc as [|? ? ? _ Hall Hrest]; subst. apply Forall_cons in Hall as [Hpb Hall].
  inversion Hrest as [|? ? ? Hb Hall2 Hrest2]; subst.
  cbn [ClusterMetrics.one_hot]. apply Is_true_true in Hle as Hle'. rewrite positive_total, Hle' by done.
  rewrite andb_false_r. destruct j as [|j]; [done|]. apply (IH b); [|done|by constructor].
  by apply (positive_trans d prev b).
Qed.

Lemma bucket_from_shift bounds i d j :
  bool_decide (bucket_from bounds (S i) d = Some (S j)) = bool_decide (bucket_from bounds i d = Some j).
Proof.
  revert i; induction bounds as [|[b t] bounds IH]; intros i; cbn [bucket_from]; [done|].
  destruct (SFleb d b); [|apply IH]. apply bool_decide_ext. split; congruence.
Qed.

Lemma bucket_from_least bounds i d j : bucket_from bounds i d = Some j -> (i <= j)%nat.
Proof.
  revert i; induction bounds as [|[b t] bounds IH]; intros i; cbn [bucket_from]; [done|].
  destruct (SFleb d b); [by intros [= ->]|]. intros Hj%IH. lia.
Qed.

Lemma one_hot_spec prev bounds d j :
  positive d -> SFltb prev d = true -> increasing bounds ->
  at_ (ClusterMetrics.one_hot prev bounds d) j = indicator (bool_decide (bucket_from bounds 0 d = Some j)).
Proof.
  intros Hd. revert prev j; induction bounds as [|[b t] bounds IH]; intros prev j Hlt Hinc; [done|].
  inversion Hinc as [|? ? ? Hb Hall Hrest]; subst. cbn [ClusterMetrics.one_hot bucket_from]. rewrite Hlt, andb_true_r.
  destruct (SFleb d b) eqn:Hle.
  - destruct j as [|j]; [done|]. change (at_ (1 :: ?l) (S j)) with (at_ l j).
    rewrite bool_decide_false by done. apply one_hot_past; [done|by rewrite Hle|done|by constructor].
  - assert (Hbd : SFltb b d = true) by (rewrite positive_total, Hle by done; done).
    destruct j as [|j].
    + rewrite bool_decide_false; [done|]. intros Hj%bucket_from_least. lia.
    + change (at_ (0 :: ?l) (S j)) with (at_ l j). rewrite bucket_from_shift. by apply IH.
Qed.

(** A duration of exactly zero is in no bucket at all. *)
Lemma one_hot_zero s j : at_ (ClusterMetrics.one_hot zero REQUEST_DURATION_BUCKETS (S754_zero s)) j = 0.
Proof. do 11 (destruct j as [|j]; [by destruct s|]). by destruct s. Qed.

Lemma request_ok_shape m r st d :
  Metrics.request_ok m r st d = true -> (exists s, d = S754_zero s) \/ positive d.
Proof.
  unfold Metrics.request_ok. intros [[_ Hfin]%andb_true_iff Hneg%negb_true_iff]%andb_true_iff.
  destruct d as [s| | |[] mm ee]; try done; [left|right]; eauto. by do 2 eexists.
Qed.

(** What the worker's collector adds for one event: as [weight], but nothing to
    any bucket for a duration of exactly zero. *)
Definition counted (v : view) (e : event) : Z :=
  match v, e with
  | Bucket _ _, Request _ _ _ d => if SFltb zero d then weight v e else 0
  | _, _ => weight v e
  end.

Definition counts (v : view) (es : list event) : Z := sumZ (counted v <$> es).

Lemma counted_le v e : 0 <= counted v e <= weight v e.
Proof.
  pose proof (weight_nonneg v e) as Hw. destruct v, e; simpl in *; try lia; case_match; lia.
Qed.

Lemma counts_app v es1 es2 : counts v (es1 ++ es2) = counts v es1 + counts v es2.
Proof. unfold counts. by rewrite fmap_app, sumZ_app. Qed.

Lemma one_request_measure v m r st d :
  Metrics.request_ok m r st d = true ->
  good (ClusterMetrics.one_request m r st d)
  /\ measure v (ClusterMetrics.one_request m r st d) = counted v (Request m r st d).
Proof.
  intros Hok. split.
  - split; cbn [ClusterMetrics.one_request with_series emptyMetricsSnapshot created redirects misses httpRequests counters
      default]; try lia; try apply NoDup_nil_2; try apply Forall_nil_2.
    apply Forall_cons. split; [|apply Forall_nil_2]. split_and!; cbn [requests requestDuration count buckets]; try lia.
    + cbn [ClusterMetrics.one_hot REQUEST_DURATION_BUCKETS]. repeat (apply Forall_cons; split; [case_match; lia|]).
      apply Forall_nil_2.
    + done.
  - destruct v; try done; cbn [measure ClusterMetrics.one_request with_series httpRequests counted weight];
      rewrite total_cons; cbn [Metrics.series_value fmap list_fmap sumZ foldr];
      change (key_of _) with (seriesKey m r st); rewrite Hok; cbn [andb requests requestDuration count buckets].
    + destruct (decide (seriesKey m r st = key)) as [<-|Hne]; [by rewrite String.eqb_refl|].
      by rewrite (proj2 (String.eqb_neq _ _)) by congruence.
    + destruct (decide (seriesKey m r st = key)) as [<-|Hne]; [by rewrite String.eqb_refl|].
      by rewrite (proj2 (String.eqb_neq _ _)) by congruence.
    + destruct (decide (seriesKey m r st = key)) as [<-|Hne].
      * rewrite String.eqb_refl, Z.add_0_r. cbn [andb].
        destruct (request_ok_shape m r st d Hok) as [[s ->]|Hd]; [rewrite one_hot_zero; by destruct s|].
        rewrite one_hot_spec; [|done| |apply buckets_increasing]; destruct Hd as (mm & ee & ->); done.
      * rewrite (proj2 (String.eqb_neq _ _)) by congruence. by destruct (SFltb zero d).
Qed.

Module Worker.
Import ClusterMetrics.

Definition apply (s : t) (e : event) : t :=
  match e with
  | Request m r st d => request m r st d s
  | CreatedLink => on_snapshot Metrics.add_created s
  | Redirected => on_snapshot Metrics.add_redirect s
  | Missed => on_snapshot Metrics.add_miss s
  | Incremented name value => increment name value s
  end.

(** An event adds what it counts to the pending snapshot, and touches nothing else. *)
Lemma apply_counts s e :
  good (pendingSnapshot s) -> plain e -> (forall v, measure v (pendingSnapshot s) + counted v e <= MAX_SAFE_INTEGER) ->
  good (pendingSnapshot (apply s e))
  /\ (forall v, measure v (pendingSnapshot (apply s e)) = measure v (pendingSnapshot s) + counted v e)
  /\ apply s e = with_snapshot s (pendingSnapshot (apply s e)).
Proof.
  intros Hg Hp Hb. pose proof (Hb Created) as B1. pose proof (Hb Redirects) as B2. pose proof (Hb Misses) as B3.
  unfold MAX_SAFE_INTEGER in *.
  destruct e as [m r st d| | | |name value]; cbn [apply] in *.
  - unfold request. destruct (Metrics.request_ok m r st d) eqn:Hok; cbn [negb].
    + pose proof (fun v => one_request_measure v m r st d Hok) as Ho.
      destruct (add_snapshot_spec (pendingSnapshot s) (one_request m r st d) Hg (proj1 (Ho Created))) as [Hg2 Hm2].
      { intros v. rewrite (proj2 (Ho v)). apply Hb. }
      split; [exact Hg2|]. split; [|done]. intros v. cbn [with_snapshot pendingSnapshot]. rewrite Hm2.
      by rewrite (proj2 (Ho v)).
    + split; [done|]. split; [|by destruct s]. intros v. destruct v; simpl; rewrite ?Hok; simpl; try lia.
      by destruct (SFltb zero d); rewrite Z.add_0_r.
  - split; [|split; [|done]]; cbn [on_snapshot with_snapshot pendingSnapshot].
    + destruct Hg. split; try done. simpl. apply plus_nonneg; lia.
    + intros []; simpl; try lia. destruct Hg. apply plus_exact; simpl in B1; lia.
  - split; [|split; [|done]]; cbn [on_snapshot with_snapshot pendingSnapshot].
    + destruct Hg. split; try done. simpl. apply plus_nonneg; lia.
    + intros []; simpl; try lia. destruct Hg. apply plus_exact; simpl in B2; lia.
  - split; [|split; [|done]]; cbn [on_snapshot with_snapshot pendingSnapshot].
    + destruct Hg. split; try done. simpl. apply plus_nonneg; lia.
    + intros []; simpl; try lia. destruct Hg. apply plus_exact; simpl in B3; lia.
  - pose proof (fun v => Recording.addCounter_weight v _ name value Hg Hp (Hb (Counter name))) as Hc.
    split; [apply (Hc Created)|]. split; [|done]. intros v. cbn [increment on_snapshot with_snapshot pendingSnapshot].
    rewrite (proj2 (Hc v)). by destruct v.
Qed.

Lemma empty_good : good emptyMetricsSnapshot.
Proof. split; simpl; try lia; apply Forall_nil_2 || apply NoDup_nil_2. Qed.

Lemma run_counts es s :
  good (pendingSnapshot s) -> Forall plain es ->
  (forall v, measure v (pendingSnapshot s) + counts v es <= MAX_SAFE_INTEGER) ->
  good (pendingSnapshot (fold_left apply es s))
  /\ forall v, measure v (pendingSnapshot (fold_left apply es s)) = measure v (pendingSnapshot s) + counts v es.
Proof.
  revert s; induction es as [|e es IH]; intros s Hg Hp Hb; cbn [fold_left].
  { split; [done|]. intros v. unfold counts. simpl. lia. }
  apply Forall_cons in Hp as [He Hp].
  assert (H0 : forall v, 0 <= counts v es).
  { intros v. apply sumZ_nonneg, Forall_fmap, Forall_true. intros x. apply counted_le. }
  assert (Hb1 : forall v, measure v (pendingSnapshot s) + counted v e <= MAX_SAFE_INTEGER).
  { intros v. specialize (Hb v). specialize (H0 v). change (counts v (e :: es)) with (counted v e + counts v es) in Hb. lia. }
  destruct (apply_counts s e Hg He Hb1) as (Hg1 & Hm1 & _).
  destruct (IH (apply s e) Hg1 Hp) as [Hg2 Hm2].
  { intros v. rewrite Hm1. specialize (Hb v). change (counts v (e :: es)) with (counted v e + counts v es) in Hb. lia. }
  split; [done|]. intros v. rewrite Hm2, Hm1. change (counts v (e :: es)) with (counted v e + counts v es). lia.
Qed.
End Worker.

(** ** What makes a batch acceptable *)

Lemma round_sign m e l : SFltb (binary_round_aux 53 1024 false m e l) zero = false.
Proof.
  unfold binary_round_aux. destruct (shr_fexp _ _ _ _ _) as [mrs e']. destruct (shr_fexp _ _ _ _ _) as [mrs2 e2].
  destruct (shr_m mrs2); try done. by destruct (e2 <=? _).
Qed.

(** A sum of durations never becomes negative. *)
Lemma dadd_sign a b : SFltb a zero = false -> SFltb b zero = false -> SFltb (dadd a b) zero = false.
Proof.
  destruct a as [sa|[]| |[] ma ea], b as [sb|[]| |[] mb eb]; try done; try (by destruct sa); try (by destruct sb);
    try (by destruct sa, sb).
  intros _ _. unfold dadd, SFadd. cbv zeta. unfold binary_normalize, cond_Zopp.
  destruct (shl_align ma ea _) as [m1 e1]. destruct (shl_align mb eb _) as [m2 e2]. cbn [fst].
  change (Z.pos m1 + Z.pos m2) with (Z.pos (m1 + m2)). unfold binary_round. case_match. apply round_sign.
Qed.

Definition labelled_series (e : HttpRequestMetricsSnapshot) : Prop :=
  method e <> "" /\ route e <> "" /\ 100 <= statusCode e <= 599 /\ SFltb (sum (requestDuration e)) zero = false.

Definition labelled (s : MetricsSnapshot) : Prop := Forall labelled_series (httpRequests s).

Lemma add_series_labelled l m s :
  Forall labelled_series l -> labelled_series s -> Forall labelled_series (add_series (l, m) s).1.
Proof.
  intros Hl (H1 & H2 & H3 & H4). unfold add_series, entry_for. cbn [fst snd].
  assert (Hf : forall e, labelled_series e -> labelled_series (merged e s)).
  { intros e (E1 & E2 & E3 & E4). do 3 (split; [done|]). by apply dadd_sign. }
  assert (Ha : forall i l, Forall labelled_series l -> Forall labelled_series (alter (fun e => merged e s) i l)).
  { clear Hl. intros i l0 Hl. revert i; induction l0 as [|e l0 IH]; intros [|i]; try done;
      apply Forall_cons in Hl as [He Hl]; apply Forall_cons; auto. }
  destruct (get m _); cbn [fst]; apply Ha; [done|]. apply Forall_app. split; [done|].
  apply Forall_cons. split; [by do 3 (split; [done|])|apply Forall_nil_2].
Qed.

Lemma add_labelled t s : labelled t -> labelled s -> labelled (addMetricsSnapshot t s).
Proof.
  unfold labelled, addMetricsSnapshot. intros Ht Hs. cbn [with_series httpRequests].
  match goal with |- context [fold_left add_series _ (?l, _)] => assert (Hl : l = httpRequests t) end.
  { destruct (counters s) as [c|]; [|done]. unfold add_counters.
    match goal with |- httpRequests (fold_left _ c ?r) = _ => transitivity (httpRequests r); [|done]; generalize r end.
    clear. induction c as [|[k [n|x]] c IH]; intros r; cbn [fold_left]; [done| |apply IH].
    rewrite IH. unfold addCounter. cbn [fst snd]. by destruct (_ || _). }
  rewrite Hl. generalize (index_of (httpRequests t)). revert Ht. generalize (httpRequests t). clear Hl.
  induction Hs as [|e ss He _ IH]; intros l Hl m; cbn [fold_left]; [done|].
  pose proof (add_series_labelled l m e Hl He) as H1. destruct (add_series (l, m) e) as [l1 m1]. by apply IH.
Qed.

Lemma one_request_labelled m r st d :
  Metrics.request_ok m r st d = true -> labelled (ClusterMetrics.one_request m r st d).
Proof.
  unfold Metrics.request_ok. rewrite !andb_true_iff. intros [[[[[[H1 H2] _] H3] H4] _] H5].
  apply Forall_cons. split; [|apply Forall_nil_2].
  split; [|split; [|split]]; cbn [method route statusCode requestDuration sum].
  - by apply negb_true_iff, String.eqb_neq in H1.
  - by apply negb_true_iff, String.eqb_neq in H2.
  - lia.
  - by apply negb_true_iff in H5.
Qed.

Definition finite_sums (s : MetricsSnapshot) : Prop :=
  Forall (fun e => isFinite (sum (requestDuration e)) = true) (httpRequests s).

(** Counts within the safe integers, labels and finite sums are all it takes. *)
Lemma good_wf s :
  good s -> labelled s -> (forall v, measure v s <= MAX_SAFE_INTEGER) -> finite_sums s -> wf_snapshot s.
Proof.
  intros Hg Hl Hb Hf. pose proof (fun v => conj (measure_nonneg v s Hg) (Hb v)) as Hm.
  destruct Hg as [_ _ _ Hs Hk Hc].
  split; [apply (Hm Created)|apply (Hm Redirects)|apply (Hm Misses)| |].
  - apply Forall_forall. intros e He. pose proof He as Hin. apply list_elem_of_lookup in Hin as [i Hi].
    unfold labelled, finite_sums in *. rewrite Forall_forall in Hl, Hf.
    destruct (Hl e He) as (L1 & L2 & L3 & L4). specialize (Hf e He).
    assert (Hle : forall v, Metrics.series_value v e <= total v (httpRequests s)) by (intros v; by eapply total_at_least).
    rewrite Forall_forall in Hs. destruct (Hs e He) as (S1 & S2 & S3 & S4).
    assert (Hreq : requests e <= MAX_SAFE_INTEGER).
    { specialize (Hle (Requests (key_of e))). pose proof (proj2 (Hm (Requests (key_of e)))) as Hr. cbn [measure] in Hr.
      cbn [Metrics.series_value] in Hle. rewrite decide_True in Hle by done. lia. }
    assert (Hcnt : count (requestDuration e) <= MAX_SAFE_INTEGER).
    { specialize (Hle (Observed (key_of e))). pose proof (proj2 (Hm (Observed (key_of e)))) as Hr. cbn [measure] in Hr.
      cbn [Metrics.series_value] in Hle. rewrite decide_True in Hle by done. lia. }
    split; try done. split; try done.
    apply Forall_forall. intros b Hin. pose proof Hin as Hin2. apply list_elem_of_lookup in Hin as [j Hj].
    rewrite Forall_forall in S3. split; [by apply S3|].
    specialize (Hle (Bucket (key_of e) j)). pose proof (proj2 (Hm (Bucket (key_of e) j))) as Hr. cbn [measure] in Hr.
    cbn [Metrics.series_value] in Hle. rewrite decide_True in Hle by done. unfold at_ in Hle. rewrite Hj in Hle.
    simpl in Hle. lia.
  - apply Forall_forall. intros [n v] Hin. pose proof Hin as Hget. apply get_elem in Hget; [|done].
    rewrite Forall_forall in Hc. destruct (Hc _ Hin) as (Hn & _ & z & Hz & H0). simpl in Hz. subst v.
    split; [done|]. exists z. split; [done|]. split; [done|].
    pose proof (proj2 (Hm (Counter n))) as Hr. cbn [measure] in Hr. unfold Metrics.counter_value in Hr. by rewrite Hget in Hr.
Qed.

(** Durations the two collectors treat alike. *)
Definition timed (e : event) : Prop :=
  match e with Request m r st d => Metrics.request_ok m r st d = true -> SFltb zero d = true | _ => True end.

Lemma counted_timed v e : timed e -> counted v e = weight v e.
Proof.
  intros Ht. destruct v; try done. destruct e as [m r st d| | | |]; try done. cbn [counted].
  destruct (SFltb zero d) eqn:Hd; [done|]. cbn [timed weight] in *. destruct (Metrics.request_ok m r st d); [|done].
  by rewrite (Ht eq_refl) in Hd.
Qed.

(** C23. A worker's collector counts what a single process would. After the
    same events, every counter, request count and histogram bucket waiting in a
    clustered worker equals the one of the in-process collector, as long as no
    request took exactly zero seconds - such a request is counted by both but
    lands in a bucket of the in-process histogram only. *)
Theorem collectors_agree es :
  Forall plain es -> (forall v, recorded v es <= MAX_SAFE_INTEGER) ->
  let single := Metrics.snapshot (fold_left Recording.apply es Metrics.new) in
  let worker := ClusterMetrics.pendingSnapshot (fold_left Worker.apply es (ClusterMetrics.new ClusterMetrics.Open)) in
  (Forall timed es -> forall v, measure v worker = measure v single)
  /\ (forall v, (forall k i, v <> Bucket k i) -> measure v worker = measure v single)
  /\ (forall k i, measure (Bucket k i) worker <= measure (Bucket k i) single).
Proof.
  intros Hp Hb single worker.
  assert (Hle : forall v, counts v es <= recorded v es).
  { intros v. clear. induction es as [|e es IH]; [done|]. pose proof (counted_le v e).
    change (counts v (e :: es)) with (counted v e + counts v es).
    change (recorded v (e :: es)) with (weight v e + recorded v es). lia. }
  assert (Hs : forall v, measure v single = recorded v es) by apply (Recording.run_tracks es Hp Hb).
  destruct (Worker.run_counts es (ClusterMetrics.new ClusterMetrics.Open) Worker.empty_good Hp) as [_ Hw].
  { intros v. specialize (Hb v). specialize (Hle v).
    assert (measure v (ClusterMetrics.pendingSnapshot (ClusterMetrics.new ClusterMetrics.Open)) = 0) by by destruct v.
    lia. }
  assert (Hw2 : forall v, measure v worker = counts v es) by (intros v; unfold worker; rewrite Hw; by destruct v).
  split_and!.
  - intros Ht v. rewrite Hw2, Hs. unfold counts, recorded. f_equal. apply list_fmap_ext. intros i e He.
    rewrite Forall_lookup in Ht. apply counted_timed. by eapply Ht.
  - intros v Hv. rewrite Hw2, Hs. unfold counts, recorded. f_equal. apply list_fmap_ext. intros i e _.
    destruct v; try done. by destruct (Hv key i0).
  - intros k i. rewrite Hw2, Hs. apply Hle.
Qed.

(** ** Witnesses *)
Lemma demo_plain : Forall plain demo_events.
Proof. repeat constructor; discriminate. Qed.

Lemma demo_bound v : recorded v demo_events <= MAX_SAFE_INTEGER.
Proof. etransitivity; [by apply small_events|]. discriminate. Qed.

Lemma collectors_agree_witness :
  measure (Requests (seriesKey "GET" "/:code" 302))
    (ClusterMetrics.pendingSnapshot
       (fold_left Worker.apply demo_events (ClusterMetrics.new ClusterMetrics.Open))) = 2.
Proof.
  destruct (collectors_agree demo_events demo_plain demo_bound) as (_ & H & _).
  rewrite H; [|intros k i; discriminate]. vm_compute. reflexivity.
Defined.

Definition demo_message : WorkerMetricsMessage :=
  MetricsBatchMessage
    (ClusterMetrics.pendingSnapshot (fold_left Worker.apply demo_events (ClusterMetrics.new ClusterMetrics.Open))).

Lemma messages_typed_witness :
  worker_message_of (worker_value demo_message) demo_message
  /\ as_worker_message (worker_value demo_message) = Some demo_message.
Proof.
  destruct messages_typed as (_ & _ & Hread & _ & Hsent & _).
  assert (Hm : sendable_worker demo_message) by (apply snapshot_accepted_inv; vm_compute; reflexivity).
  split; [apply Hread|]; exact (Hsent demo_message Hm).
Defined.
