(* ===== verification/Cluster.v ===== *)
(** * The primary process

    src/src/cluster.ts: the supervisor that forks the workers, replaces those
    that exit, and answers their requests for the metrics of the whole
    cluster. node's [cluster] module gives worker identifiers, connection
    states and events; they are inputs of the handlers below. *)
From S2P Require Import Prelude JsNum JsString JsDouble JsMap Metrics ClusterMetrics.
Open Scope Z_scope.

Definition MAX_WORKERS : Z := 512.

(** [Number.parseInt(text, 10)], [None] where it is [NaN]. *)
Fixpoint digits_prefix (acc : option Z) (s : string) : option Z :=
  match s with
  | String c s => match digit_value c with Some d => digits_prefix (Some (default 0 acc * 10 + d)) s | None => acc end
  | EmptyString => acc
  end.

Definition parseInt10 (s : string) : option Z :=
  match trimStart s with
  | String "-" s => (fun n => to_double (- n)) <$> digits_prefix None s
  | String "+" s => to_double <$> digits_prefix None s
  | s => to_double <$> digits_prefix None s
  end.

Definition parseWorkerCount (availableParallelism : Z) (value : option string) : result Z :=
  match value with
  | None => Return (Z.min availableParallelism MAX_WORKERS)
  | Some value =>
      match parseInt10 value with
      | Some parsed =>
          if negb (isSafeInteger parsed) || (parsed <? 1)
          then Throw "WEB_CONCURRENCY must be a positive integer"
          else Return (Z.min parsed MAX_WORKERS)
      | None => Throw "WEB_CONCURRENCY must be a positive integer"
      end
  end.

(** The connections the workers may open, and whether the warning is printed. *)
Definition connectionBudget (workerCount : Z) (DATABASE_POOL_MAX : option string) : option (Z * bool) :=
  match parseInt10 (default "20" DATABASE_POOL_MAX) with
  | Some poolMax =>
      if isSafeInteger poolMax && (0 <? poolMax)
      then let budget := to_double (workerCount * poolMax) in Some (budget, 500 <? budget)
      else None
  | None => None
  end.

Module Primary.

Record PendingSnapshot : Type := { requester : nat; awaitingWorkerIds : list nat }.

Record t : Type := {
  metrics : MetricsSnapshot;
  shuttingDown : bool;
  pendingSnapshots : jsmap PendingSnapshot;
  workerIndexes : gmap nat nat
}.

Definition new : t :=
  {| metrics := emptyMetricsSnapshot; shuttingDown := false; pendingSnapshots := []; workerIndexes := ∅ |}.

(** What a handler asks of node: fork a worker with its index, send to one,
    kill one, set the exit code. *)
Inductive action : Type :=
  | Fork (id index : nat)
  | Send (id : nat) (message : PrimaryMetricsMessage)
  | Kill (id : nat) (signal : string)
  | ExitCode (code : Z).

Definition with_metrics (p : t) (m : MetricsSnapshot) : t :=
  {| metrics := m; shuttingDown := shuttingDown p; pendingSnapshots := pendingSnapshots p;
     workerIndexes := workerIndexes p |}.
Definition with_pending (p : t) (m : jsmap PendingSnapshot) : t :=
  {| metrics := metrics p; shuttingDown := shuttingDown p; pendingSnapshots := m; workerIndexes := workerIndexes p |}.
Definition with_indexes (p : t) (m : gmap nat nat) : t :=
  {| metrics := metrics p; shuttingDown := shuttingDown p; pendingSnapshots := pendingSnapshots p; workerIndexes := m |}.

Section Handlers.
(** [worker.isConnected()], and [cluster.workers] with [worker.isDead()]. *)
Context (isConnected : nat -> bool) (workers : list nat) (isDead : nat -> bool).

Definition snapshot_response (id : nat) (requestId : string) (p : t) : list action :=
  if isConnected id then [Send id (MetricsSnapshotResponse requestId (MetricsAggregator.snapshot (metrics p)))] else [].

Definition completeSnapshot (requestId : string) (p : t) : t * list action :=
  match get (pendingSnapshots p) requestId with
  | None => (p, [])
  | Some pending =>
      (with_pending p (remove (pendingSnapshots p) requestId), snapshot_response (requester pending) requestId p)
  end.

Definition requestWorkerFlushes (requester : nat) (requestId : string) (p : t) : t * list action :=
  let live := filter (fun id => isConnected id && negb (isDead id)) workers in
  match live with
  | [] => (p, snapshot_response requester requestId p)
  | _ =>
      (with_pending p (set (pendingSnapshots p) requestId {| requester := requester; awaitingWorkerIds := live |}),
       (fun id => Send id (MetricsFlushRequest requestId)) <$> live)
  end.

(** One worker no longer awaited for one request. *)
Definition no_longer_awaits (id : nat) (requestId : string) (p : t) : t * list action :=
  match get (pendingSnapshots p) requestId with
  | None => (p, [])
  | Some pending =>
      let awaiting := filter (fun i => i <> id) (awaitingWorkerIds pending) in
      let p := with_pending p (set (pendingSnapshots p) requestId
                 {| requester := requester pending; awaitingWorkerIds := awaiting |}) in
      match awaiting with [] => completeSnapshot requestId p | _ => (p, []) end
  end.

Definition acknowledgeWorkerFlush (id : nat) (requestId : string) (p : t) : t * list action :=
  no_longer_awaits id requestId p.

(** The loop over [pendingSnapshots], in insertion order. *)
Fixpoint remove_from (id : nat) (requestIds : list string) (p : t) : t * list action :=
  match requestIds with
  | [] => (p, [])
  | requestId :: requestIds =>
      let '(p, a1) := no_longer_awaits id requestId p in
      let '(p, a2) := remove_from id requestIds p in
      (p, a1 ++ a2)
  end.

Definition removeWorkerFromSnapshots (id : nat) (p : t) : t * list action :=
  remove_from id (pendingSnapshots p).*1 p.

(** [id] is the identifier node gives to the new worker. *)
Definition startWorker (index id : nat) (p : t) : t * list action :=
  (with_indexes p (<[id := index]> (workerIndexes p)), [Fork id index]).

(** The [message] listener of a worker. *)
Definition onMessage (id : nat) (v : value) (p : t) : t * list action :=
  match as_worker_message v with
  | None => (p, [])
  | Some (MetricsBatchMessage snapshot) => (with_metrics p (MetricsAggregator.add (metrics p) snapshot), [])
  | Some (MetricsFlushResponse requestId) => acknowledgeWorkerFlush id requestId p
  | Some (MetricsSnapshotRequest requestId) => requestWorkerFlushes id requestId p
  end.

(** The [exit] listener; [fresh] identifies the replacement. *)
Definition onExit (id fresh : nat) (p : t) : t * list action :=
  let '(p, a) := removeWorkerFromSnapshots id p in
  let index := default 0%nat (workerIndexes p !! id) in
  let p := with_indexes p (delete id (workerIndexes p)) in
  if shuttingDown p then (p, a)
  else let '(p, a2) := startWorker index fresh p in (p, a ++ a2).

Definition shutdown (p : t) : t * list action :=
  if shuttingDown p then (p, [])
  else
    ({| metrics := metrics p; shuttingDown := true; pendingSnapshots := []; workerIndexes := workerIndexes p |},
     match workers with [] => [ExitCode 0] | _ => (fun id => Kill id "SIGTERM") <$> workers end).

(** What [shutdown] leaves behind: the timer, which kills those of its workers that
    are still there, and a listener for the last exit. *)
Definition forceShutdown (stopping : list nat) : list action :=
  (fun id => Kill id "SIGKILL") <$> filter (fun id => negb (isDead id)) stopping.

Definition lastExit : list action :=
  if existsb (fun id => negb (isDead id)) workers then [] else [ExitCode 0].
End Handlers.

(** The loop that starts the workers: identifiers are given in order. *)
Fixpoint start_from (index workerCount : nat) (p : t) : t * list action :=
  match workerCount with
  | O => (p, [])
  | S n =>
      let '(p, a1) := startWorker index index p in
      let '(p, a2) := start_from (S index) n p in
      (p, a1 ++ a2)
  end.

Definition start (workerCount : nat) : t * list action := start_from 0 workerCount new.
End Primary.
