(* ===== verification/ClusterSystem.v ===== *)
(** * The cluster as a whole

    The primary of Cluster.v and the collectors of ClusterMetrics.v, joined by
    the ordered message channels of node's cluster module: which processes
    exist and with which index, and where every counted event is. *)
From Stdlib Require Import SpecFloat.
From S2P Require Import Prelude JsNum JsString JsDouble JsMap Keys Config Metrics ClusterMetrics Cluster.
Open Scope Z_scope.

(** ** Processes and channels *)

(** A worker process. [up] and [down] are the messages under way to and from
    the primary. The rest is bookkeeping of the proof: what the process has
    recorded, and which of its batches the primary has added, has refused, or
    will never see. *)
Record proc : Type := {
  collector : ClusterMetrics.t;
  up : list WorkerMetricsMessage;
  down : list PrimaryMetricsMessage;
  running : bool;
  exited : bool;
  index : nat;
  log : list event;
  added : list MetricsSnapshot;
  refused : list MetricsSnapshot;
  lost : list MetricsSnapshot
}.

Definition new_proc (index : nat) : proc :=
  {| collector := ClusterMetrics.new ClusterMetrics.Open; up := []; down := []; running := true; exited := false;
     index := index; log := []; added := []; refused := []; lost := [] |}.

Definition with_collector (p : proc) (c : ClusterMetrics.t) (es : list event) (sent : list WorkerMetricsMessage) : proc :=
  {| collector := c; up := up p ++ sent; down := down p; running := running p; exited := exited p; index := index p;
     log := log p ++ es; added := added p; refused := refused p; lost := lost p |}.

Definition with_down (p : proc) (l : list PrimaryMetricsMessage) : proc :=
  {| collector := collector p; up := up p; down := l; running := running p; exited := exited p; index := index p;
     log := log p; added := added p; refused := refused p; lost := lost p |}.

Definition batches (l : list WorkerMetricsMessage) : list MetricsSnapshot :=
  flat_map (fun m => match m with MetricsBatchMessage s => [s] | _ => [] end) l.

(** The primary has taken the first message off the channel. *)
Definition taken (p : proc) (m : WorkerMetricsMessage) (rest : list WorkerMetricsMessage) : proc :=
  let accepted := match as_worker_message (worker_value m) with Some _ => true | None => false end in
  {| collector := collector p; up := rest; down := down p; running := running p; exited := exited p; index := index p;
     log := log p; added := added p ++ (if accepted then batches [m] else []);
     refused := refused p ++ (if accepted then [] else batches [m]); lost := lost p |}.

(** The process ends: what it had not sent is lost, and of what is under way
    the primary may still receive the beginning. *)
Definition stopped (p : proc) (kept rest : list WorkerMetricsMessage) : proc :=
  {| collector := ClusterMetrics.with_snapshot (collector p) emptyMetricsSnapshot; up := kept; down := [];
     running := false; exited := exited p; index := index p; log := log p; added := added p; refused := refused p;
     lost := lost p ++ batches rest ++ [ClusterMetrics.pendingSnapshot (collector p)] |}.

Definition reported (p : proc) : proc :=
  {| collector := collector p; up := up p; down := down p; running := running p; exited := true; index := index p;
     log := log p; added := added p; refused := refused p; lost := lost p |}.

Record system : Type := { primary : Primary.t; procs : list proc }.

Definition receive (m : PrimaryMetricsMessage) (p : proc) : proc :=
  if running p then with_down p (down p ++ [m]) else p.

Definition act (l : list proc) (a : Primary.action) : list proc :=
  match a with
  | Primary.Fork _ index => l ++ [new_proc index]
  | Primary.Send id m => alter (receive m) id l
  | Primary.Kill _ _ | Primary.ExitCode _ => l
  end.

Definition is_connected (l : list proc) (id : nat) : bool := from_option running false (l !! id).

(** [cluster.workers]: the processes whose exit has not been reported. *)
Definition cluster_workers (l : list proc) : list nat :=
  filter (fun id => negb (from_option exited true (l !! id))) (seq 0 (List.length l)).

(** The outcome of a handler of the primary, its actions carried out. *)
Definition carried_out (l : list proc) (r : Primary.t * list Primary.action) : system :=
  {| primary := r.1; procs := fold_left act r.2 l |}.

Definition booted (workerCount : nat) : system := carried_out [] (Primary.start workerCount).

(** All that was ever recorded, of one view. *)
Definition total_counts (v : view) (l : list proc) : Z := sumZ ((fun p => counts v (log p)) <$> l).

Section Steps.
Context (pid : nat -> Z).

(** One step. Recording is bounded: the totals stay within the safe integers.
    A channel may close before or after its process ends: what [worker.isDead()]
    answers is any function. *)
Inductive sys_step (s : system) : system -> Prop :=
  | SRecord i p e :
      procs s !! i = Some p -> running p = true -> plain e ->
      (forall v, total_counts v (procs s) + counted v e <= MAX_SAFE_INTEGER) ->
      sys_step s {| primary := primary s;
                    procs := <[i := with_collector p (Worker.apply (collector p) e) [e] []]> (procs s) |}
  | SFlush i p ch c' fx :
      procs s !! i = Some p -> running p = true -> ClusterMetrics.flushTimer (collector p) = true ->
      ClusterMetrics.flush ch (collector p) = (c', fx) ->
      sys_step s {| primary := primary s; procs := <[i := with_collector p c' [] (ClusterMetrics.sent fx)]> (procs s) |}
  | SRender i p c' fx :
      procs s !! i = Some p -> running p = true ->
      ClusterMetrics.requestSnapshot (pid i) ClusterMetrics.Open (collector p) = (c', Some fx) ->
      sys_step s {| primary := primary s; procs := <[i := with_collector p c' [] (ClusterMetrics.sent fx)]> (procs s) |}
  | STimeout i p requestId c' fx :
      procs s !! i = Some p -> running p = true -> ClusterMetrics.timeout requestId (collector p) = (c', fx) ->
      sys_step s {| primary := primary s; procs := <[i := with_collector p c' [] (ClusterMetrics.sent fx)]> (procs s) |}
  | SDown i p m rest c' fx :
      procs s !! i = Some p -> running p = true -> down p = m :: rest ->
      (if ClusterMetrics.handled (collector p)
       then ClusterMetrics.handleMessage ClusterMetrics.Open (primary_value m) (collector p)
       else (collector p, Some ClusterMetrics.quiet)) = (c', Some fx) ->
      sys_step s {| primary := primary s;
                    procs := <[i := with_collector (with_down p rest) c' [] (ClusterMetrics.sent fx)]> (procs s) |}
  | SClose i p c' fx :
      procs s !! i = Some p -> running p = true ->
      ClusterMetrics.close ClusterMetrics.Open (collector p) = (c', fx) ->
      sys_step s {| primary := primary s; procs := <[i := with_collector p c' [] (ClusterMetrics.sent fx)]> (procs s) |}
  | SUp i p m rest (isDead : nat -> bool) :
      procs s !! i = Some p -> up p = m :: rest ->
      sys_step s (carried_out (<[i := taken p m rest]> (procs s))
                    (Primary.onMessage (is_connected (procs s)) (cluster_workers (procs s)) isDead i
                       (worker_value m) (primary s)))
  | SDeadline requestId :
      sys_step s (carried_out (procs s) (Primary.completeSnapshot (is_connected (procs s)) requestId (primary s)))
  | SStop i p kept rest :
      procs s !! i = Some p -> running p = true -> up p = kept ++ rest ->
      sys_step s {| primary := primary s; procs := <[i := stopped p kept rest]> (procs s) |}
  | SExit i p :
      procs s !! i = Some p -> running p = false -> exited p = false ->
      sys_step s (carried_out (<[i := reported p]> (procs s))
                    (Primary.onExit (is_connected (procs s)) i (List.length (procs s)) (primary s)))
  | SShutdown :
      sys_step s (carried_out (procs s) (Primary.shutdown (cluster_workers (procs s)) (primary s))).

Inductive reachable (workerCount : nat) : system -> Prop :=
  | reachable_boot : reachable workerCount (booted workerCount)
  | reachable_step s s' : reachable workerCount s -> sys_step s s' -> reachable workerCount s'.
End Steps.

(** ** Where every counted event is *)

Definition held (v : view) (l : list MetricsSnapshot) : Z := sumZ (measure v <$> l).

Lemma held_app v l1 l2 : held v (l1 ++ l2) = held v l1 + held v l2.
Proof. unfold held. by rewrite fmap_app, sumZ_app. Qed.

Lemma held_nonneg v l : Forall good l -> 0 <= held v l.
Proof. intros Hl. apply sumZ_nonneg, Forall_fmap. eapply Forall_impl; [exact Hl|]. intros s. apply measure_nonneg. Qed.

Lemma batches_app l1 l2 : batches (l1 ++ l2) = batches l1 ++ batches l2.
Proof. apply flat_map_app. Qed.

(** Everything a process recorded is added, under way, waiting, refused or lost. *)
Record accounted (p : proc) : Prop := {
  acc_pending : good (ClusterMetrics.pendingSnapshot (collector p));
  acc_labelled : labelled (ClusterMetrics.pendingSnapshot (collector p));
  acc_up : Forall good (batches (up p));
  acc_up_labelled : Forall labelled (batches (up p));
  acc_refused_why : Forall (fun s => ~ finite_sums s) (refused p);
  acc_added : Forall good (added p);
  acc_refused : Forall good (refused p);
  acc_lost : Forall good (lost p);
  acc_sum v : counts v (log p) = held v (added p) + held v (batches (up p))
    + measure v (ClusterMetrics.pendingSnapshot (collector p)) + held v (refused p) + held v (lost p)
}.

Lemma new_accounted i : accounted (new_proc i).
Proof. split; try apply Forall_nil_2; [apply Worker.empty_good|]. by intros []. Qed.

Lemma counts_nonneg v es : 0 <= counts v es.
Proof. apply sumZ_nonneg, Forall_fmap, Forall_true. intros x. apply counted_le. Qed.

Lemma accounted_bounds p v : accounted p ->
  0 <= held v (added p) /\ 0 <= held v (batches (up p)) /\ 0 <= measure v (ClusterMetrics.pendingSnapshot (collector p))
  /\ 0 <= held v (refused p) /\ 0 <= held v (lost p).
Proof. intros [H1 _ H2 _ _ H3 H4 H5 _]. split_and!; try by apply held_nonneg. by apply measure_nonneg. Qed.

(** ** Processes, one at a time *)

Lemma total_insert (l : list proc) i p p' (f : proc -> Z) :
  l !! i = Some p -> sumZ (f <$> <[i := p']> l) = sumZ (f <$> l) - f p + f p'.
Proof.
  revert i; induction l as [|q l IH]; intros [|i] Hi; [done..| |].
  - injection Hi as ->. change (f p' + sumZ (f <$> l) = f p + sumZ (f <$> l) - f p + f p'). lia.
  - change (f q + sumZ (f <$> <[i := p']> l) = f q + sumZ (f <$> l) - f p + f p'). rewrite (IH i Hi). lia.
Qed.

Lemma part_le (l : list proc) i p (f : proc -> Z) : (forall q, 0 <= f q) -> l !! i = Some p -> f p <= sumZ (f <$> l).
Proof.
  intros Hf. revert i; induction l as [|q l IH]; intros [|i] Hi; [done..| |].
  - injection Hi as ->. change (f p <= f p + sumZ (f <$> l)).
    assert (0 <= sumZ (f <$> l)) by (apply sumZ_nonneg, Forall_fmap, Forall_true; apply Hf). lia.
  - change (f p <= f q + sumZ (f <$> l)). specialize (IH i Hi). specialize (Hf q). lia.
Qed.

(** The parts of a process that the primary's actions leave alone. *)
Definition same_but_down (p q : proc) : Prop :=
  collector q = collector p /\ up q = up p /\ running q = running p /\ exited q = exited p /\ index q = index p
  /\ log q = log p /\ added q = added p /\ refused q = refused p /\ lost q = lost p.

Lemma same_refl p : same_but_down p p.
Proof. by split_and!. Qed.

Lemma same_trans p q r : same_but_down p q -> same_but_down q r -> same_but_down p r.
Proof. unfold same_but_down. naive_solver congruence. Qed.

Lemma receive_same m p : same_but_down p (receive m p).
Proof. unfold receive. destruct (running p) eqn:Hr; [by split_and!|apply same_refl]. Qed.

Lemma all_same l : Forall2 same_but_down l l.
Proof. induction l as [|p l IH]; constructor; [apply same_refl|done]. Qed.

Lemma all_same_trans l1 l2 l3 : Forall2 same_but_down l1 l2 -> Forall2 same_but_down l2 l3 -> Forall2 same_but_down l1 l3.
Proof.
  intros H. revert l3; induction H as [|p q l1 l2 Hp _ IH]; intros l3 H3; inversion H3; subst; [constructor|].
  constructor; [by eapply same_trans|by apply IH].
Qed.

(** Carrying out actions only delivers messages and adds new processes. *)
Definition fresh (p : proc) : Prop := exists index, same_but_down (new_proc index) p.

Definition extends (l l' : list proc) : Prop :=
  exists l1 l2, l' = l1 ++ l2 /\ Forall2 same_but_down l l1 /\ Forall fresh l2.

Lemma extends_refl l : extends l l.
Proof. exists l, []. split; [by rewrite app_nil_r|]. split; [apply all_same|apply Forall_nil_2]. Qed.

Lemma extends_trans l1 l2 l3 : extends l1 l2 -> extends l2 l3 -> extends l1 l3.
Proof.
  intros (a & b & -> & Ha & Hb) (c & d & -> & Hc & Hd). apply Forall2_app_inv_l in Hc as (c1 & c2 & H1 & H2 & ->).
  exists c1, (c2 ++ d). split; [by rewrite app_assoc|]. split; [by eapply all_same_trans|].
  apply Forall_app. split; [|done]. clear -Hb H2. revert c2 H2; induction Hb as [|p b [i Hp] _ IH]; intros c2 H2;
    inversion H2; subst; [apply Forall_nil_2|]. apply Forall_cons. split; [|by apply IH].
  exists i. by eapply same_trans.
Qed.

Lemma act_extends l x : extends l (act l x).
Proof.
  destruct x as [id k|id m|id g|code]; cbn [act]; [| |apply extends_refl..].
  - exists l, [new_proc k]. split; [done|]. split; [apply all_same|].
    apply Forall_cons. split; [|apply Forall_nil_2]. exists k. apply same_refl.
  - exists (alter (receive m) id l), []. split; [by rewrite app_nil_r|]. split; [|apply Forall_nil_2].
    apply Forall2_same_length_lookup. split; [by rewrite length_alter|]. intros i p q Hp Hq.
    destruct (decide (id = i)) as [<-|Hne].
    + rewrite list_lookup_alter_eq, Hp in Hq. injection Hq as <-. apply receive_same.
    + rewrite list_lookup_alter_ne, Hp in Hq by done. injection Hq as <-. apply same_refl.
Qed.

Lemma acts_extend l a : extends l (fold_left act a l).
Proof.
  revert l; induction a as [|x a IH]; intros l; cbn [fold_left]; [apply extends_refl|].
  eapply extends_trans; [apply act_extends|apply IH].
Qed.

Lemma extends_Forall (P : proc -> Prop) l l' :
  (forall p q, same_but_down p q -> P p -> P q) -> (forall i, P (new_proc i)) -> extends l l' ->
  Forall P l -> Forall P l'.
Proof.
  intros HP Hnew (l1 & l2 & -> & H1 & H2) Hl. apply Forall_app. split.
  - clear H2. induction H1 as [|p q l l1 Hpq _ IH]; [apply Forall_nil_2|]. apply Forall_cons in Hl as [Hp Hl].
    apply Forall_cons. split; [by eapply HP|by apply IH].
  - eapply Forall_impl; [exact H2|]. intros p [i Hp]. eapply HP; [exact Hp|apply Hnew].
Qed.

Lemma extends_sum (f : proc -> Z) l l' :
  (forall p q, same_but_down p q -> f q = f p) -> (forall i, f (new_proc i) = 0) -> extends l l' ->
  sumZ (f <$> l') = sumZ (f <$> l).
Proof.
  intros Hf Hnew (l1 & l2 & -> & H1 & H2). rewrite fmap_app, sumZ_app.
  assert (Hl1 : sumZ (f <$> l1) = sumZ (f <$> l)).
  { clear H2. induction H1 as [|p q l l1 Hpq _ IH]; [done|].
    change (f q + sumZ (f <$> l1) = f p + sumZ (f <$> l)). by rewrite IH, (Hf p q). }
  assert (Hl2 : sumZ (f <$> l2) = 0).
  { clear H1 Hl1. induction H2 as [|p l2 [i Hp] _ IH]; [done|].
    change (f p + sumZ (f <$> l2) = 0). by rewrite IH, (Hf _ _ Hp), Hnew. }
  lia.
Qed.

Lemma same_accounted p q : same_but_down p q -> accounted p -> accounted q.
Proof.
  intros (E1 & E2 & E3 & E4 & E5 & E6 & E7 & E8 & E9) [].
  split; rewrite ?E1, ?E2, ?E6, ?E7, ?E8, ?E9; done.
Qed.

(** ** The invariant *)
Record balanced (s : system) : Prop := {
  bal_procs : Forall accounted (procs s);
  bal_good : good (Primary.metrics (primary s));
  bal_sum v : measure v (Primary.metrics (primary s)) = sumZ ((fun p => held v (added p)) <$> procs s);
  bal_bound v : total_counts v (procs s) <= MAX_SAFE_INTEGER
}.

(** A step that carries out actions and keeps the primary's aggregate. *)
Lemma balanced_acts l r m :
  Primary.metrics r.1 = m -> balanced {| primary := Primary.with_metrics Primary.new m; procs := l |} ->
  balanced (carried_out l r).
Proof.
  intros Hm [H1 H2 H3 H4]. cbn [primary procs Primary.with_metrics Primary.metrics] in *.
  pose proof (acts_extend l r.2) as He. unfold carried_out. split; cbn [primary procs]; rewrite ?Hm; try done.
  - eapply extends_Forall; [apply same_accounted|apply new_accounted|exact He|done].
  - intros v. rewrite H3. symmetry. apply (extends_sum (fun p => held v (added p))); [| |exact He].
    + by intros p q (_ & _ & _ & _ & _ & _ & -> & _).
    + done.
  - intros v. unfold total_counts. erewrite (extends_sum (fun p => counts v (log p))); [apply H4| | |exact He].
    + by intros p q (_ & _ & _ & _ & _ & -> & _).
    + done.
Qed.

(** A step of one process that leaves what the primary has added. *)
Lemma balanced_insert s i p p' :
  balanced s -> procs s !! i = Some p -> (accounted p -> accounted p') -> added p' = added p ->
  (forall v, total_counts v (procs s) - counts v (log p) + counts v (log p') <= MAX_SAFE_INTEGER) ->
  balanced {| primary := primary s; procs := <[i := p']> (procs s) |}.
Proof.
  intros [H1 H2 H3 H4] Hi Hacc Hadd Hb. split; cbn [primary procs]; try done.
  - apply Forall_insert; [done|]. apply Hacc. rewrite Forall_lookup in H1. by eapply H1.
  - intros v. rewrite (total_insert _ i p) by done. rewrite Hadd, H3. lia.
  - intros v. unfold total_counts in *. rewrite (total_insert _ i p) by done. apply Hb.
Qed.

(** ** What the methods of a collector move *)

Definition moves (c c' : ClusterMetrics.t) (sent : list WorkerMetricsMessage) : Prop :=
  good (ClusterMetrics.pendingSnapshot c) -> labelled (ClusterMetrics.pendingSnapshot c) ->
  (forall v, measure v (ClusterMetrics.pendingSnapshot c) <= MAX_SAFE_INTEGER) ->
  (good (ClusterMetrics.pendingSnapshot c') /\ labelled (ClusterMetrics.pendingSnapshot c'))
  /\ (Forall good (batches sent) /\ Forall labelled (batches sent))
  /\ forall v, measure v (ClusterMetrics.pendingSnapshot c') + held v (batches sent)
     = measure v (ClusterMetrics.pendingSnapshot c).

Lemma moves_nothing c c' sent :
  ClusterMetrics.pendingSnapshot c' = ClusterMetrics.pendingSnapshot c -> batches sent = [] -> moves c c' sent.
Proof.
  intros Hp Hs Hg Hl _. rewrite Hp, Hs. split; [done|]. split; [split; apply Forall_nil_2|].
  intros v. unfold held. simpl. lia.
Qed.

Lemma measure_empty v : measure v emptyMetricsSnapshot = 0.
Proof. by destruct v. Qed.

Lemma flush_moves ch c c' fx : ClusterMetrics.flush ch c = (c', fx) -> moves c c' (ClusterMetrics.sent fx).
Proof.
  intros Hf. unfold ClusterMetrics.flush in Hf. destruct ch; [|destruct (isEmptySnapshot _)..];
    injection Hf as <- <-; try (by apply moves_nothing).
  - intros Hg Hl Hb. cbn [ClusterMetrics.with_snapshot ClusterMetrics.pendingSnapshot].
    destruct (add_snapshot_spec emptyMetricsSnapshot _ Worker.empty_good Hg) as [Hg2 Hm].
    { intros v. rewrite measure_empty. apply Hb. }
    split; [split; [done|apply add_labelled; [apply Forall_nil_2|done]]|]. split; [split; apply Forall_nil_2|].
    intros v. rewrite Hm, measure_empty. unfold held. simpl. lia.
  - intros Hg Hl Hb. cbn [ClusterMetrics.with_snapshot ClusterMetrics.pendingSnapshot].
    split; [split; [apply Worker.empty_good|apply Forall_nil_2]|]. split; [split; by apply Forall_cons|].
    intros v. rewrite measure_empty. unfold held. simpl. lia.
Qed.

Lemma batches_quiet l : Forall (fun m => match m with MetricsBatchMessage _ => False | _ => True end) l -> batches l = [].
Proof. induction 1 as [|m l Hm _ IH]; [done|]. by destruct m. Qed.

Lemma requestSnapshot_moves pid ch c c' fx :
  ClusterMetrics.requestSnapshot pid ch c = (c', Some fx) -> moves c c' (ClusterMetrics.sent fx).
Proof. unfold ClusterMetrics.requestSnapshot. destruct ch; try done; intros [= <- <-]; by apply moves_nothing. Qed.

Lemma timeout_moves id c c' fx : ClusterMetrics.timeout id c = (c', fx) -> moves c c' (ClusterMetrics.sent fx).
Proof. intros [= <- <-]. by apply moves_nothing. Qed.

Lemma close_moves ch c c' fx : ClusterMetrics.close ch c = (c', fx) -> moves c c' (ClusterMetrics.sent fx).
Proof.
  unfold ClusterMetrics.close. destruct (ClusterMetrics.flush ch _) as [c1 fx1] eqn:Hf. intros [= <- <-].
  exact (flush_moves _ _ _ _ Hf).
Qed.

Lemma handleMessage_moves v c c' fx :
  ClusterMetrics.handleMessage ClusterMetrics.Open v c = (c', Some fx) -> moves c c' (ClusterMetrics.sent fx).
Proof.
  unfold ClusterMetrics.handleMessage. destruct (as_primary_message v) as [[id|id s]|].
  - destruct (ClusterMetrics.flush ClusterMetrics.Open c) as [c1 fx1] eqn:Hf. intros [= <- <-].
    intros Hg Hl Hb. destruct (flush_moves _ _ _ _ Hf Hg Hl Hb) as (H1 & H2 & H3). cbn [ClusterMetrics.sent].
    rewrite batches_app, app_nil_r. done.
  - destruct (decide _); intros [= <- <-]; by apply moves_nothing.
  - intros [= <- <-]. by apply moves_nothing.
Qed.

Lemma pending_bound s i p v :
  balanced s -> procs s !! i = Some p -> counts v (log p) <= MAX_SAFE_INTEGER
  /\ measure v (ClusterMetrics.pendingSnapshot (collector p)) <= MAX_SAFE_INTEGER.
Proof.
  intros [H1 _ _ H4] Hi. rewrite Forall_lookup in H1. pose proof (H1 _ _ Hi) as Hacc.
  pose proof (accounted_bounds p v Hacc). pose proof (acc_sum _ Hacc v).
  pose proof (part_le (procs s) i p (fun p => counts v (log p)) (fun q => counts_nonneg v (log q)) Hi).
  specialize (H4 v). unfold total_counts in H4. cbv beta in *. lia.
Qed.

Lemma move_accounted p c' sent l :
  moves (collector p) c' sent -> (forall v, counts v (log p) <= MAX_SAFE_INTEGER) ->
  accounted p -> accounted (with_collector (with_down p l) c' [] sent).
Proof.
  intros Hm Hb Hacc. pose proof (fun v => accounted_bounds p v Hacc) as Hnn. pose proof (acc_sum _ Hacc) as Hsum.
  destruct (Hm (acc_pending _ Hacc) (acc_labelled _ Hacc)) as ([G1 L1] & [G2 L2] & G3).
  { intros v. specialize (Hb v). specialize (Hnn v). specialize (Hsum v). lia. }
  destruct Hacc as [H1 H1l H2 H2l H0 H3 H4 H5 H6].
  split; cbn [with_collector with_down collector up added refused lost log]; try done.
  - rewrite batches_app. by apply Forall_app.
  - rewrite batches_app. by apply Forall_app.
  - intros v. rewrite batches_app, held_app, app_nil_r. specialize (G3 v). specialize (H6 v). lia.
Qed.

Lemma balanced_move s i p c' sent l :
  balanced s -> procs s !! i = Some p -> moves (collector p) c' sent ->
  balanced {| primary := primary s; procs := <[i := with_collector (with_down p l) c' [] sent]> (procs s) |}.
Proof.
  intros Hs Hi Hm. apply (balanced_insert s i p); [done|done| |done|].
  - apply move_accounted; [done|]. intros v. by eapply pending_bound.
  - intros v. cbn [with_collector with_down log]. rewrite app_nil_r. pose proof (bal_bound _ Hs v). lia.
Qed.

(** ** The handlers of the primary *)

Lemma complete_metrics f id p : Primary.metrics (Primary.completeSnapshot f id p).1 = Primary.metrics p.
Proof. unfold Primary.completeSnapshot. by destruct (get _ _). Qed.

Lemma no_longer_metrics f i id p : Primary.metrics (Primary.no_longer_awaits f i id p).1 = Primary.metrics p.
Proof.
  unfold Primary.no_longer_awaits. destruct (get _ _); [|done]. cbv zeta.
  destruct (filter _ _); [by rewrite complete_metrics|done].
Qed.

Lemma remove_metrics f i ids p : Primary.metrics (Primary.remove_from f i ids p).1 = Primary.metrics p.
Proof.
  revert p; induction ids as [|id ids IH]; intros p; [done|]. cbn [Primary.remove_from].
  pose proof (no_longer_metrics f i id p) as Hn. destruct (Primary.no_longer_awaits f i id p) as [p1 a1].
  specialize (IH p1). destruct (Primary.remove_from f i ids p1) as [p2 a2]. simpl in *. congruence.
Qed.

Lemma exit_metrics f i k p : Primary.metrics (Primary.onExit f i k p).1 = Primary.metrics p.
Proof.
  unfold Primary.onExit, Primary.removeWorkerFromSnapshots.
  pose proof (remove_metrics f i ((Primary.pendingSnapshots p).*1) p) as Hr.
  destruct (Primary.remove_from f i _ p) as [p1 a1]. simpl in *. by destruct (Primary.shuttingDown p1).
Qed.

Lemma start_metrics k n p : Primary.metrics (Primary.start_from k n p).1 = Primary.metrics p.
Proof.
  revert k p; induction n as [|n IH]; intros k p; [done|]. cbn [Primary.start_from Primary.startWorker].
  specialize (IH (S k) (Primary.with_indexes p (<[k:=k]> (Primary.workerIndexes p)))).
  by destruct (Primary.start_from (S k) n _) as [p2 a2].
Qed.

Lemma onMessage_metrics f ws d i v p :
  Primary.metrics (Primary.onMessage f ws d i v p).1
  = match as_worker_message v with
    | Some (MetricsBatchMessage s) => addMetricsSnapshot (Primary.metrics p) s
    | _ => Primary.metrics p
    end.
Proof.
  unfold Primary.onMessage. destruct (as_worker_message v) as [[s|id|id]|]; try done.
  - unfold Primary.requestWorkerFlushes. by destruct (filter _ _).
  - apply no_longer_metrics.
Qed.

(** ** Each step keeps the balance *)

Lemma apply_labelled c e :
  labelled (ClusterMetrics.pendingSnapshot c) -> labelled (ClusterMetrics.pendingSnapshot (Worker.apply c e)).
Proof.
  intros Hl. destruct e as [m r st d| | | |name value]; try done; cbn [Worker.apply].
  - unfold ClusterMetrics.request. destruct (Metrics.request_ok m r st d) eqn:Hok; [|done]. cbn [negb].
    apply add_labelled; [done|by apply one_request_labelled].
  - unfold ClusterMetrics.increment, ClusterMetrics.on_snapshot. cbn [ClusterMetrics.with_snapshot ClusterMetrics.pendingSnapshot].
    unfold addCounter. by destruct (_ || _).
Qed.

Lemma record_balanced s i p e :
  balanced s -> procs s !! i = Some p -> plain e ->
  (forall v, total_counts v (procs s) + counted v e <= MAX_SAFE_INTEGER) ->
  balanced {| primary := primary s;
              procs := <[i := with_collector p (Worker.apply (collector p) e) [e] []]> (procs s) |}.
Proof.
  intros Hs Hi Hp Hb.
  assert (Hcap : accounted p -> forall v, measure v (ClusterMetrics.pendingSnapshot (collector p)) + counted v e <= MAX_SAFE_INTEGER).
  { intros Hacc v. pose proof (accounted_bounds p v Hacc). pose proof (acc_sum _ Hacc v).
    pose proof (part_le (procs s) i p (fun p => counts v (log p)) (fun q => counts_nonneg v (log q)) Hi).
    specialize (Hb v). unfold total_counts in Hb. cbv beta in *. lia. }
  apply (balanced_insert s i p); [done|done| |done|].
  - intros Hacc. destruct (Worker.apply_counts (collector p) e (acc_pending _ Hacc) Hp (Hcap Hacc)) as (G1 & G2 & _).
    destruct Hacc as [H1 H1l H2 H2l H0 H3 H4 H5 H6].
    split; cbn [with_collector collector up added refused lost log]; rewrite ?app_nil_r; try done; [by apply apply_labelled|].
    intros v. rewrite counts_app, H6, G2. change (counts v [e]) with (counted v e + 0). lia.
  - intros v. cbn [with_collector log]. rewrite counts_app. change (counts v [e]) with (counted v e + 0).
    specialize (Hb v). lia.
Qed.

Lemma stop_balanced s i p kept rest :
  balanced s -> procs s !! i = Some p -> up p = kept ++ rest ->
  balanced {| primary := primary s; procs := <[i := stopped p kept rest]> (procs s) |}.
Proof.
  intros Hs Hi Hup. apply (balanced_insert s i p); [done|done| |done|].
  - intros [H1 H1l H2 H2l H0 H3 H4 H5 H6]. rewrite Hup, batches_app in H2, H2l.
    apply Forall_app in H2 as [H2a H2b]. apply Forall_app in H2l as [H2c H2d].
    split; cbn [stopped collector up added refused lost log ClusterMetrics.with_snapshot ClusterMetrics.pendingSnapshot]; try done.
    + apply Worker.empty_good.
    + apply Forall_nil_2.
    + apply Forall_app. split; [done|]. apply Forall_app. split; [done|]. by apply Forall_cons.
    + intros v. rewrite H6, Hup, batches_app, !held_app, measure_empty. unfold held. simpl. lia.
  - intros v. pose proof (bal_bound _ Hs v). simpl. lia.
Qed.

Lemma report_balanced s i p : balanced s -> procs s !! i = Some p ->
  balanced {| primary := primary s; procs := <[i := reported p]> (procs s) |}.
Proof.
  intros Hs Hi. apply (balanced_insert s i p); [done|done| |done|].
  - by intros [].
  - intros v. pose proof (bal_bound _ Hs v). simpl. lia.
Qed.

(** What a process has recorded beyond what is added still fits the aggregate. *)
Lemma room_left s i p v :
  balanced s -> procs s !! i = Some p ->
  measure v (Primary.metrics (primary s)) + (counts v (log p) - held v (added p)) <= MAX_SAFE_INTEGER.
Proof.
  intros Hs Hi. rewrite (bal_sum _ Hs v). pose proof (bal_bound _ Hs v) as Hb. unfold total_counts in Hb.
  pose proof (bal_procs _ Hs) as Hall. clear Hs.
  enough (sumZ ((fun p => held v (added p)) <$> procs s) + (counts v (log p) - held v (added p))
          <= sumZ ((fun p => counts v (log p)) <$> procs s)) by lia.
  clear Hb. assert (Hle : forall q, accounted q -> held v (added q) <= counts v (log q)).
  { intros q Hq. pose proof (acc_sum _ Hq v). pose proof (accounted_bounds q v Hq). lia. }
  revert i Hi; induction (procs s) as [|q l IH]; intros i Hi; [done|]. apply Forall_cons in Hall as [Hq Hall].
  specialize (Hle q Hq) as Hqle. rewrite !fmap_cons. change (sumZ (?x :: ?y)) with (x + sumZ y).
  destruct i as [|i]; [injection Hi as ->|specialize (IH Hall i Hi); lia].
  enough (sumZ ((fun p => held v (added p)) <$> l) <= sumZ ((fun p => counts v (log p)) <$> l)) by lia.
  clear -Hall Hle. induction Hall as [|x l Hx _ IH]; [done|]. rewrite !fmap_cons.
  change (sumZ (?x :: ?y)) with (x + sumZ y). specialize (Hle x Hx). lia.
Qed.

Lemma held_one v s : held v [s] = measure v s.
Proof. unfold held. simpl. lia. Qed.

(** Taking a message off leaves a process accounted for, and a batch is only
    refused for an infinite sum. *)
Lemma taken_accounted p m rest :
  accounted p -> up p = m :: rest -> (forall v, counts v (log p) <= MAX_SAFE_INTEGER) ->
  accounted (taken p m rest).
Proof.
  intros Hacc Hup Hb. pose proof (fun v => accounted_bounds p v Hacc) as Hnn.
  destruct Hacc as [H1 H1l H2 H2l H0 H3 H4 H5 H6].
  assert (Hcut : batches (up p) = batches [m] ++ batches rest) by (rewrite Hup; apply (batches_app [m] rest)).
  rewrite Hcut in H2, H2l. apply Forall_app in H2 as [Gm Gr]. apply Forall_app in H2l as [Lm Lr].
  unfold taken. destruct (as_worker_message (worker_value m)) as [m'|] eqn:Hread;
    split; cbn [collector up added refused lost log]; rewrite ?app_nil_r; try done.
  - by apply Forall_app.
  - intros v. rewrite H6, Hcut, !held_app. lia.
  - apply Forall_app. split; [done|]. destruct m as [sn|id|id]; try apply Forall_nil_2.
    apply Forall_cons. split; [|apply Forall_nil_2]. intros Hfin.
    apply Forall_cons in Gm as [Gm _]. apply Forall_cons in Lm as [Lm _].
    assert (Hwf : wf_snapshot sn).
    { apply good_wf; [done|done| |done]. intros v. specialize (Hb v). specialize (H6 v). specialize (Hnn v).
      rewrite Hcut, held_app in H6, Hnn. change (batches [MetricsBatchMessage sn]) with [sn] in H6, Hnn.
      rewrite held_one in H6, Hnn. pose proof (held_nonneg v _ Gr). lia. }
    by rewrite (worker_message_roundtrip (MetricsBatchMessage sn) Hwf) in Hread.
  - by apply Forall_app.
  - intros v. rewrite H6, Hcut, !held_app. lia.
Qed.

Lemma taken_balanced s i p m rest f ws d :
  balanced s -> procs s !! i = Some p -> up p = m :: rest ->
  balanced (carried_out (<[i := taken p m rest]> (procs s)) (Primary.onMessage f ws d i (worker_value m) (primary s))).
Proof.
  intros Hs Hi Hup. eapply balanced_acts; [apply onMessage_metrics|].
  pose proof (bal_procs _ Hs) as Hall. pose proof Hall as Hacc. rewrite Forall_lookup in Hacc. apply Hacc in Hi as Hp.
  assert (Hcount : forall v, counts v (log p) <= MAX_SAFE_INTEGER) by (intros v; by eapply pending_bound).
  pose proof (taken_accounted p m rest Hp Hup Hcount) as Htaken.
  assert (Hprocs : Forall accounted (<[i:=taken p m rest]> (procs s))) by by apply Forall_insert.
  assert (Hbound : forall v, total_counts v (<[i:=taken p m rest]> (procs s)) <= MAX_SAFE_INTEGER).
  { intros v. unfold total_counts. rewrite (total_insert _ i p) by done. pose proof (bal_bound _ Hs v) as Hb.
    unfold total_counts in Hb. cbn [taken log]. lia. }
  assert (Hsums : forall v, sumZ ((fun q => held v (added q)) <$> <[i:=taken p m rest]> (procs s))
    = measure v (Primary.metrics (primary s)) - held v (added p) + held v (added (taken p m rest))).
  { intros v. rewrite (total_insert _ i p) by done. by rewrite (bal_sum _ Hs v). }
  destruct (as_worker_message (worker_value m)) as [m'|] eqn:Hread.
  - apply worker_message_read in Hread as Hm'. subst m'. destruct m as [sn|id|id].
    + assert (Gsn : good sn).
      { pose proof (acc_up _ Hp) as G. rewrite Hup in G. by apply Forall_cons in G as [G _]. }
      destruct (add_snapshot_spec (Primary.metrics (primary s)) sn (bal_good _ Hs) Gsn) as [G2 M2].
      { intros v. pose proof (room_left s i p v Hs Hi) as Hroom. pose proof (acc_sum _ Hp v) as Hsum.
        pose proof (accounted_bounds p v Hp) as Hnn. rewrite Hup in Hsum.
        change (batches (_ :: rest)) with ([sn] ++ batches rest) in Hsum. rewrite held_app, held_one in Hsum.
        assert (0 <= held v (batches rest)); [|lia]. apply held_nonneg.
        pose proof (acc_up _ Hp) as G. rewrite Hup in G. by apply Forall_cons in G as [_ G]. }
      split; cbn [primary procs Primary.with_metrics Primary.metrics]; try done. intros v.
      rewrite M2, Hsums. unfold taken. rewrite Hread. cbn [added]. rewrite held_app.
      change (batches [MetricsBatchMessage sn]) with [sn]. rewrite held_one. lia.
    + split; cbn [primary procs Primary.with_metrics Primary.metrics]; try done; [apply Hs|]. intros v.
      rewrite Hsums. unfold taken. rewrite Hread. cbn [added batches flat_map]. rewrite app_nil_r. lia.
    + split; cbn [primary procs Primary.with_metrics Primary.metrics]; try done; [apply Hs|]. intros v.
      rewrite Hsums. unfold taken. rewrite Hread. cbn [added batches flat_map]. rewrite app_nil_r. lia.
  - split; cbn [primary procs Primary.with_metrics Primary.metrics]; try done; [apply Hs|]. intros v.
    rewrite Hsums. unfold taken. rewrite Hread. cbn [added]. rewrite app_nil_r. lia.
Qed.

Lemma balanced_same l r s :
  Primary.metrics r.1 = Primary.metrics (primary s) -> balanced {| primary := primary s; procs := l |} ->
  balanced (carried_out l r).
Proof. intros Hm [H1 H2 H3 H4]. eapply balanced_acts; [exact Hm|]. by split. Qed.

Lemma step_balanced pid s s' : sys_step pid s s' -> balanced s -> balanced s'.
Proof.
  assert (Hown : forall p : proc, with_down p (down p) = p) by by intros [].
  intros Hst Hs. destruct Hst as [i p e Hi Hr Hp Hb|i p ch c' fx Hi Hr Ht Hf|i p c' fx Hi Hr Hf|i p id c' fx Hi Hr Hf
    |i p m rest c' fx Hi Hr Hd Hf|i p c' fx Hi Hr Hf|i p m rest isDead Hi Hu|id|i p kept rest Hi Hr Hu|i p Hi Hr He|].
  - by apply record_balanced.
  - rewrite <- (Hown p) at 1. apply balanced_move; [done|done|by eapply flush_moves].
  - rewrite <- (Hown p) at 1. apply balanced_move; [done|done|by eapply requestSnapshot_moves].
  - rewrite <- (Hown p) at 1. apply balanced_move; [done|done|by eapply timeout_moves].
  - apply balanced_move; [done|done|]. destruct (ClusterMetrics.handled (collector p)).
    + by eapply handleMessage_moves.
    + injection Hf as <- <-. by apply moves_nothing.
  - rewrite <- (Hown p) at 1. apply balanced_move; [done|done|by eapply close_moves].
  - by apply taken_balanced.
  - apply (balanced_same _ _ s); [apply complete_metrics|by destruct s].
  - by apply stop_balanced.
  - apply (balanced_same _ _ s); [apply exit_metrics|by apply report_balanced].
  - apply (balanced_same _ _ s); [|by destruct s]. unfold Primary.shutdown. by destruct (Primary.shuttingDown _).
Qed.

Lemma boot_balanced n : balanced (booted n).
Proof.
  unfold booted. eapply balanced_acts; [apply start_metrics|]. split; [apply Forall_nil_2|apply Worker.empty_good| |done].
  by intros [].
Qed.

Lemma reachable_balanced pid n s : reachable pid n s -> balanced s.
Proof. induction 1; [apply boot_balanced|by eapply step_balanced]. Qed.

(** C13. No count is lost or made up on its way. In every state the cluster can
    reach, through any interleaving of requests, flushes, failed sends, acknowledgements,
    deadlines, crashes, replacements and shutdown, and for every counter, request
    count and bucket: what the primary reports, plus what is still under way or
    waiting in the workers, plus what was lost with a process that ended, is
    exactly what the processes have recorded; the primary never refuses a batch
    except for a sum of durations that is no longer finite. *)
Theorem cluster_counts_conserved pid n s :
  reachable pid n s ->
  (forall v, total_counts v (procs s)
     = measure v (Primary.metrics (primary s))
       + sumZ ((fun p => held v (batches (up p)) + measure v (ClusterMetrics.pendingSnapshot (collector p))
                         + held v (refused p) + held v (lost p)) <$> procs s))
  /\ Forall (fun p => Forall (fun b => ~ finite_sums b) (refused p)) (procs s).
Proof.
  intros [H1 _ H3 _]%reachable_balanced. split.
  - intros v. rewrite H3. clear H3. unfold total_counts. induction H1 as [|p l Hp _ IH]; [done|].
    rewrite !fmap_cons. change (sumZ (?x :: ?y)) with (x + sumZ y). pose proof (acc_sum _ Hp v). lia.
  - eapply Forall_impl; [exact H1|]. by intros p [].
Qed.

(** ** Which process has which index *)

Definition slots (l : list proc) : list (bool * nat) := (fun p => (exited p, index p)) <$> l.

Definition forks (a : list Primary.action) : list (bool * nat) :=
  flat_map (fun x => match x with Primary.Fork _ k => [(false, k)] | _ => [] end) a.

Lemma forks_app a b : forks (a ++ b) = forks a ++ forks b.
Proof. apply flat_map_app. Qed.

Lemma acts_slots l a : slots (fold_left act a l) = slots l ++ forks a.
Proof.
  revert l; induction a as [|x a IH]; intros l; cbn [fold_left]; [by rewrite app_nil_r|]. rewrite IH.
  destruct x as [id k|id m|id g|code]; cbn [act forks flat_map].
  - unfold slots. rewrite fmap_app, <- app_assoc. done.
  - f_equal. unfold slots. apply list_eq. intros i. rewrite !list_lookup_fmap.
    destruct (decide (id = i)) as [<-|Hne]; [|by rewrite list_lookup_alter_ne]. rewrite list_lookup_alter_eq.
    destruct (l !! id) as [p|]; [|done]. simpl. unfold receive. by destruct (running p).
  - done.
  - done.
Qed.

Lemma slots_insert l i p p' :
  l !! i = Some p -> exited p' = exited p -> index p' = index p -> slots (<[i := p']> l) = slots l.
Proof.
  intros Hi He Hk. unfold slots. rewrite list_fmap_insert. apply list_insert_id. rewrite list_lookup_fmap, Hi. simpl.
  by rewrite He, Hk.
Qed.

(** The handlers that only answer. *)
Lemma complete_quiet f id p :
  forks (Primary.completeSnapshot f id p).2 = [] /\ Primary.workerIndexes (Primary.completeSnapshot f id p).1 = Primary.workerIndexes p
  /\ Primary.shuttingDown (Primary.completeSnapshot f id p).1 = Primary.shuttingDown p.
Proof.
  unfold Primary.completeSnapshot. destruct (get _ _); [|done]. unfold Primary.snapshot_response. by destruct (f _).
Qed.

Lemma no_longer_quiet f i id p :
  forks (Primary.no_longer_awaits f i id p).2 = []
  /\ Primary.workerIndexes (Primary.no_longer_awaits f i id p).1 = Primary.workerIndexes p
  /\ Primary.shuttingDown (Primary.no_longer_awaits f i id p).1 = Primary.shuttingDown p.
Proof.
  unfold Primary.no_longer_awaits. destruct (get _ _); [|done]. cbv zeta. destruct (filter _ _); [|done].
  match goal with |- context [Primary.completeSnapshot f id ?q] => by destruct (complete_quiet f id q) as (-> & -> & ->) end.
Qed.

Lemma remove_quiet f i ids p :
  forks (Primary.remove_from f i ids p).2 = []
  /\ Primary.workerIndexes (Primary.remove_from f i ids p).1 = Primary.workerIndexes p
  /\ Primary.shuttingDown (Primary.remove_from f i ids p).1 = Primary.shuttingDown p.
Proof.
  revert p; induction ids as [|id ids IH]; intros p; [done|]. cbn [Primary.remove_from].
  destruct (no_longer_quiet f i id p) as (H1 & H2 & H3). destruct (Primary.no_longer_awaits f i id p) as [p1 a1].
  destruct (IH p1) as (H4 & H5 & H6). destruct (Primary.remove_from f i ids p1) as [p2 a2]. cbn [fst snd] in *.
  rewrite forks_app, H1, H4, H5, H6. done.
Qed.

Lemma message_quiet f ws d i v p :
  forks (Primary.onMessage f ws d i v p).2 = []
  /\ Primary.workerIndexes (Primary.onMessage f ws d i v p).1 = Primary.workerIndexes p
  /\ Primary.shuttingDown (Primary.onMessage f ws d i v p).1 = Primary.shuttingDown p.
Proof.
  unfold Primary.onMessage. destruct (as_worker_message v) as [[s|id|id]|]; try done.
  - unfold Primary.requestWorkerFlushes, Primary.snapshot_response. destruct (filter _ _) as [|w l]; [by destruct (f i)|].
    split; [|done]. cbn [snd]. generalize (w :: l). intros l0. by induction l0 as [|x l0 IH].
  - apply no_longer_quiet.
Qed.

(** The primary's index of the workers is exact, no two live processes share an
    index, and before shutdown every index is held. *)
Record staffed (n : nat) (W : gmap nat nat) (sl : list (bool * nat)) (closing : bool) : Prop := {
  st_map id k : W !! id = Some k <-> sl !! id = Some (false, k);
  st_range i b k : sl !! i = Some (b, k) -> (k < n)%nat;
  st_inj i j k : sl !! i = Some (false, k) -> sl !! j = Some (false, k) -> i = j;
  st_full k : closing = false -> (k < n)%nat -> exists i, sl !! i = Some (false, k)
}.

Definition well_staffed (n : nat) (s : system) : Prop :=
  staffed n (Primary.workerIndexes (primary s)) (slots (procs s)) (Primary.shuttingDown (primary s)).

Lemma staffed_close n W sl b : staffed n W sl b -> staffed n W sl true.
Proof. by intros [H1 H2 H3 _]. Qed.

Lemma staffed_exit n W sl b i k :
  staffed n W sl b -> sl !! i = Some (false, k) -> staffed n (delete i W) (<[i := (true, k)]> sl) true.
Proof.
  intros [H1 H2 H3 H4] Hi. apply lookup_lt_Some in Hi as Hlen. split; [| | |done].
  - intros id x. destruct (decide (i = id)) as [<-|Hne].
    + rewrite lookup_delete_eq, list_lookup_insert_eq by done. split; congruence.
    + rewrite lookup_delete_ne, list_lookup_insert_ne by done. apply H1.
  - intros j c x. destruct (decide (i = j)) as [<-|Hne].
    + rewrite list_lookup_insert_eq by done. intros [= <- <-]. by eapply H2.
    + rewrite list_lookup_insert_ne by done. apply H2.
  - intros j j' x. destruct (decide (i = j)) as [<-|Hne]; [by rewrite list_lookup_insert_eq by done|].
    destruct (decide (i = j')) as [<-|Hne']; [by rewrite list_lookup_insert_eq by done|].
    rewrite !list_lookup_insert_ne by done. apply H3.
Qed.

(** The replacement takes the index of the process it replaces. *)
Lemma staffed_replace n W sl i k :
  staffed n W sl false -> sl !! i = Some (false, k) ->
  staffed n (<[List.length sl := k]> (delete i W)) (<[i := (true, k)]> sl ++ [(false, k)]) false.
Proof.
  intros Hst Hi. pose proof (staffed_exit _ _ _ _ _ _ Hst Hi) as [E1 E2 E3 _]. destruct Hst as [H1 H2 H3 H4].
  apply lookup_lt_Some in Hi as Hlen. set (sl' := <[i := (true, k)]> sl) in *.
  assert (Hlen' : List.length sl' = List.length sl) by by apply length_insert.
  assert (Hlast : forall j x, (sl' ++ [(false, k)]) !! j = Some x <-> sl' !! j = Some x \/ j = List.length sl /\ x = (false, k)).
  { intros j x. rewrite lookup_app_Some, Hlen', list_lookup_singleton_Some. split.
    - intros [Hj|(Hj & Hz & <-)]; [by left|right]. split; [lia|done].
    - intros [Hj|[-> ->]]; [by left|right]. by rewrite Nat.sub_diag. }
  assert (Hnone : forall x, sl' !! List.length sl <> Some x).
  { intros x Hx. apply lookup_lt_Some in Hx. lia. }
  assert (Hgone : forall j, sl' !! j <> Some (false, k)).
  { intros j Hj. unfold sl' in Hj. destruct (decide (i = j)) as [<-|Hne]; [by rewrite list_lookup_insert_eq in Hj|].
    rewrite list_lookup_insert_ne in Hj by done. by apply Hne, (H3 i j k). }
  split.
  - intros id x. rewrite Hlast. destruct (decide (List.length sl = id)) as [<-|Hne].
    + rewrite lookup_insert_eq. split; [intros [= <-]; by right|]. intros [Hx|[_ [= ->]]]; [by destruct (Hnone _ Hx)|done].
    + rewrite lookup_insert_ne, E1 by done. split; [by left|]. by intros [Hx|[-> _]].
  - intros j c x. rewrite Hlast. intros [Hj|[_ [= -> ->]]]; [by eapply E2|by eapply H2].
  - intros j j' x. rewrite !Hlast. intros [Hj|[-> [= ->]]] [Hj'|[-> [=]]]; subst; try done.
    + by eapply E3.
    + by destruct (Hgone j).
    + by destruct (Hgone j').
  - intros x _ Hx. destruct (H4 x eq_refl Hx) as [j Hj]. destruct (decide (x = k)) as [->|Hne].
    + exists (List.length sl). apply Hlast. by right.
    + exists j. apply Hlast. left. unfold sl'. rewrite list_lookup_insert_ne; [done|]. intros ->. congruence.
Qed.

Lemma staffed_kept n s l r :
  well_staffed n s -> slots l = slots (procs s) -> forks r.2 = [] ->
  Primary.workerIndexes r.1 = Primary.workerIndexes (primary s) ->
  (Primary.shuttingDown r.1 = Primary.shuttingDown (primary s) \/ Primary.shuttingDown r.1 = true) ->
  well_staffed n (carried_out l r).
Proof.
  intros Hst Hl Hf Hw Hd. unfold well_staffed, carried_out. cbn [primary procs]. rewrite acts_slots, Hf, app_nil_r, Hl, Hw.
  destruct Hd as [->| ->]; [exact Hst|by eapply staffed_close].
Qed.

Lemma staffed_own n s i p p' :
  well_staffed n s -> procs s !! i = Some p -> exited p' = exited p -> index p' = index p ->
  well_staffed n {| primary := primary s; procs := <[i := p']> (procs s) |}.
Proof. intros Hst Hi He Hk. unfold well_staffed. cbn [primary procs]. by rewrite (slots_insert _ _ _ _ Hi He Hk). Qed.

Lemma exit_staffed n s i p f :
  well_staffed n s -> procs s !! i = Some p -> exited p = false ->
  well_staffed n (carried_out (<[i := reported p]> (procs s)) (Primary.onExit f i (List.length (procs s)) (primary s))).
Proof.
  intros Hst Hi He. assert (Hslot : slots (procs s) !! i = Some (false, index p)).
  { unfold slots. rewrite list_lookup_fmap, Hi. simpl. by rewrite He. }
  unfold Primary.onExit, Primary.removeWorkerFromSnapshots.
  destruct (remove_quiet f i ((Primary.pendingSnapshots (primary s)).*1) (primary s)) as (Hf & Hw & Hd).
  destruct (Primary.remove_from f i _ (primary s)) as [p1 a1]. cbn [fst snd] in *.
  unfold well_staffed in *. cbn [Primary.with_indexes Primary.shuttingDown Primary.workerIndexes]. rewrite Hw, Hd. pose proof (st_map _ _ _ _ Hst i (index p)) as [_ Hidx].
  rewrite (Hidx Hslot). cbn [default from_option id].
  assert (Hrep : slots (<[i:=reported p]> (procs s)) = <[i:=(true, index p)]> (slots (procs s)))
    by (unfold slots; by rewrite list_fmap_insert).
  assert (Hlen : List.length (slots (procs s)) = List.length (procs s)) by apply length_fmap.
  destruct (Primary.shuttingDown (primary s)) eqn:Hclose; cbn [Primary.startWorker]; unfold carried_out;
    cbn [primary procs fst snd Primary.with_indexes Primary.workerIndexes Primary.shuttingDown];
    rewrite acts_slots, ?forks_app, Hf, Hrep, Hd; cbn [forks flat_map app].
  - rewrite app_nil_r. by eapply staffed_exit.
  - rewrite <- Hlen. by apply staffed_replace.
Qed.

Lemma step_staffed pid n s s' : sys_step pid s s' -> well_staffed n s -> well_staffed n s'.
Proof.
  intros Hst Hs. destruct Hst as [i p e Hi Hr Hp Hb|i p ch c' fx Hi Hr Ht Hf|i p c' fx Hi Hr Hf|i p id c' fx Hi Hr Hf
    |i p m rest c' fx Hi Hr Hd Hf|i p c' fx Hi Hr Hf|i p m rest isDead Hi Hu|id|i p kept rest Hi Hr Hu|i p Hi Hr He|];
    try (by eapply staffed_own).
  - destruct (message_quiet (is_connected (procs s)) (cluster_workers (procs s)) isDead i (worker_value m)
      (primary s)) as (H1 & H2 & H3).
    apply (staffed_kept n s); [done|by eapply slots_insert|done|done|by left].
  - destruct (complete_quiet (is_connected (procs s)) id (primary s)) as (H1 & H2 & H3).
    by apply (staffed_kept n s); [| | | |left].
  - by apply exit_staffed.
  - assert (Hk : forall l, forks (match l with [] => [Primary.ExitCode 0] | _ => (fun id => Primary.Kill id "SIGTERM") <$> l end) = []).
    { intros [|id l]; [done|]. by induction l as [|id' l IH] in id |- *; [|apply (IH id')]. }
    apply (staffed_kept n s); [done|done| | |]; unfold Primary.shutdown;
      destruct (Primary.shuttingDown (primary s)) eqn:Hc; cbn [fst snd Primary.shuttingDown Primary.workerIndexes]; auto.
Qed.

Lemma start_spec k m p :
  forks (Primary.start_from k m p).2 = (fun i => (false, i)) <$> seq k m
  /\ (forall id, Primary.workerIndexes (Primary.start_from k m p).1 !! id
        = if decide (k <= id < k + m)%nat then Some id else Primary.workerIndexes p !! id)
  /\ Primary.shuttingDown (Primary.start_from k m p).1 = Primary.shuttingDown p.
Proof.
  revert k p; induction m as [|m IH]; intros k p; cbn [Primary.start_from].
  { split; [done|]. split; [|done]. intros id. by rewrite decide_False by lia. }
  cbn [Primary.startWorker].
  destruct (IH (S k) (Primary.with_indexes p (<[k:=k]> (Primary.workerIndexes p)))) as (H1 & H2 & H3).
  destruct (Primary.start_from (S k) m _) as [p2 a2]. cbn [fst snd] in *. split; [|split; [|done]].
  - rewrite forks_app, H1. done.
  - intros id. rewrite H2. cbn [Primary.with_indexes Primary.workerIndexes].
    destruct (decide (id = k)) as [->|Hne].
    + rewrite decide_False by lia. rewrite decide_True by lia. by rewrite lookup_insert_eq.
    + rewrite lookup_insert_ne by done. destruct (decide (S k <= id < S k + m)%nat); [rewrite decide_True by lia|rewrite decide_False by lia]; done.
Qed.

Lemma boot_staffed n : well_staffed n (booted n).
Proof.
  unfold well_staffed, booted, carried_out, Primary.start. cbn [primary procs]. rewrite acts_slots.
  destruct (start_spec 0 n Primary.new) as (-> & HW & ->). cbn [slots fmap list_fmap app].
  assert (Hsl : forall i b k, ((fun i => (false, i)) <$> seq 0 n) !! i = Some (b, k) <-> b = false /\ k = i /\ (i < n)%nat).
  { intros i b k. rewrite list_lookup_fmap. destruct (decide (i < n)%nat).
    - rewrite lookup_seq_lt by done. simpl. naive_solver.
    - rewrite lookup_seq_ge by lia. simpl. split; [done|lia]. }
  split.
  - intros id k. rewrite HW, Hsl. cbn [Primary.new Primary.workerIndexes]. rewrite lookup_empty.
    destruct (decide _); [|split; [done|lia]]. split; [intros [= <-]; split; [done|lia]|]. by intros (_ & -> & _).
  - intros i b k (_ & -> & Hi)%Hsl. done.
  - intros i j k (_ & -> & _)%Hsl (_ & Heq & _)%Hsl. done.
  - intros k _ Hk. exists k. by apply Hsl.
Qed.

Lemma reachable_staffed pid n s : reachable pid n s -> well_staffed n s.
Proof. induction 1; [apply boot_staffed|by eapply step_staffed]. Qed.

(** The shards a process synchronises: server.ts computes them from the identity
    it reads in the environment it was forked with. *)
Definition owns (env : string -> option string) (n : nat) (p : proc) (shard : Z) : Prop :=
  let '(index, count) := workerIdentity (forked_env env (Z.of_nat (index p)) (Z.of_nat n)) in
  exists owned, shardsForWorker index count = Return owned /\ shard ∈ owned.

Lemma owns_mod env n p shard :
  (index p < n)%nat -> Z.of_nat n <= MAX_SAFE_INTEGER ->
  owns env n p shard <-> 0 <= shard < LINK_KEY_SHARDS /\ shard mod Z.of_nat n = Z.of_nat (index p).
Proof.
  intros Hk Hn. destruct (shards_owned (Z.of_nat n) (Z.of_nat (index p))) as (owned & Ho & _ & Hel); [split; lia|].
  unfold owns. rewrite identity_forked by lia. rewrite <- Hel, Ho. split; [by intros (o & [= <-] & H)|by intros H; exists owned].
Qed.

Lemma slot_of l i p : l !! i = Some p -> slots l !! i = Some (exited p, index p).
Proof. intros Hi. unfold slots. by rewrite list_lookup_fmap, Hi. Qed.

Lemma slot_proc l i b k : slots l !! i = Some (b, k) -> exists p, l !! i = Some p /\ exited p = b /\ index p = k.
Proof.
  unfold slots. rewrite list_lookup_fmap. destruct (l !! i) as [p|]; [|done]. intros [= <- <-]. by exists p.
Qed.

(** After shutdown nothing is forked any more. *)
Lemma closing_step pid s s' :
  sys_step pid s s' -> Primary.shuttingDown (primary s) = true -> List.length (procs s') = List.length (procs s).
Proof.
  assert (Hacts : forall l a, forks a = [] -> List.length (fold_left act a l) = List.length l).
  { intros l a Hf. pose proof (acts_slots l a) as Hs. rewrite Hf, app_nil_r in Hs. apply (f_equal List.length) in Hs.
    unfold slots in Hs. by rewrite !length_fmap in Hs. }
  intros Hst Hc. destruct Hst as [i p e Hi Hr Hp Hb|i p ch c' fx Hi Hr Ht Hf|i p c' fx Hi Hr Hf|i p id c' fx Hi Hr Hf
    |i p m rest c' fx Hi Hr Hd Hf|i p c' fx Hi Hr Hf|i p m rest isDead Hi Hu|id|i p kept rest Hi Hr Hu|i p Hi Hr He|];
    unfold carried_out; cbn [procs]; try (by rewrite length_insert).
  - rewrite Hacts by apply message_quiet. by rewrite length_insert.
  - by rewrite Hacts by apply complete_quiet.
  - unfold Primary.onExit, Primary.removeWorkerFromSnapshots.
    destruct (remove_quiet (is_connected (procs s)) i ((Primary.pendingSnapshots (primary s)).*1) (primary s)) as (Hf & _ & Hd).
    destruct (Primary.remove_from _ i _ (primary s)) as [p1 a1]. cbn [fst snd] in *.
    cbn [Primary.with_indexes Primary.shuttingDown]. rewrite Hd, Hc. cbn [snd]. rewrite Hacts by done. by rewrite length_insert.
  - unfold Primary.shutdown. by rewrite Hc.
Qed.

(** C12. Every shard has one keeper. However workers crash and are replaced, two
    processes whose exit has not been reported never have the same index, nor
    ever synchronise the same write-behind shard; until shutdown every index is
    held, and so every one of the 1,024 shards is synchronised by some process;
    and once shutdown has begun no process is started. *)
Theorem one_keeper_per_shard pid env n s :
  reachable pid n s -> 0 < Z.of_nat n <= MAX_WORKERS ->
  (forall i j p q shard, procs s !! i = Some p -> procs s !! j = Some q -> exited p = false -> exited q = false ->
     index p = index q \/ owns env n p shard /\ owns env n q shard -> i = j)
  /\ (Primary.shuttingDown (primary s) = false ->
      forall shard, 0 <= shard < LINK_KEY_SHARDS ->
      exists i p, procs s !! i = Some p /\ exited p = false /\ owns env n p shard)
  /\ (Primary.shuttingDown (primary s) = true -> forall s', sys_step pid s s' ->
      List.length (procs s') = List.length (procs s)).
Proof.
  intros Hre Hn. destruct (reachable_staffed _ _ _ Hre) as [_ H2 H3 H4].
  assert (Hmax : Z.of_nat n <= MAX_SAFE_INTEGER) by (unfold MAX_WORKERS, MAX_SAFE_INTEGER in *; lia).
  split_and!.
  - intros i j p q shard Hi Hj Hp Hq Hor. apply slot_of in Hi, Hj. rewrite Hp in Hi. rewrite Hq in Hj.
    assert (Heq : index p = index q).
    { destruct Hor as [|[Op Oq]]; [done|]. apply owns_mod in Op as [_ Op]; [|by eapply H2|done].
      apply owns_mod in Oq as [_ Oq]; [|by eapply H2|done]. lia. }
    rewrite <- Heq in Hj. by eapply H3.
  - intros Hc shard Hs. pose proof (Z.mod_pos_bound shard (Z.of_nat n) ltac:(lia)) as Hm.
    destruct (H4 (Z.to_nat (shard mod Z.of_nat n)) Hc ltac:(lia)) as [i Hi].
    destruct (slot_proc _ _ _ _ Hi) as (p & Hp & He & Hk). exists i, p. split; [done|]. split; [done|].
    apply owns_mod; [rewrite Hk; lia|done|]. split; [done|]. rewrite Hk. lia.
  - intros Hc s' Hst. by eapply closing_step.
Qed.

(** ** Witnesses *)

(** Two workers; the first counts a redirect and sends its batch to the
    primary, which adds it; then the process ends and is replaced. *)
Definition demo_pid (i : nat) : Z := 42 + Z.of_nat i.

Definition demo_batch : WorkerMetricsMessage :=
  MetricsBatchMessage (ClusterMetrics.pendingSnapshot (Worker.apply (ClusterMetrics.new ClusterMetrics.Open) Redirected)).

Definition demo_recording : proc :=
  with_collector (new_proc 0) (Worker.apply (ClusterMetrics.new ClusterMetrics.Open) Redirected) [Redirected] [].
Definition demo_flushed : proc :=
  with_collector demo_recording (ClusterMetrics.flush ClusterMetrics.Open (collector demo_recording)).1 [] [demo_batch].

Definition demo_system : system :=
  carried_out [taken demo_flushed demo_batch []; new_proc 1]
    (Primary.onMessage (fun _ => true) [0; 1]%nat (fun _ => false) 0%nat (worker_value demo_batch) (primary (booted 2))).

Lemma demo_cluster_reachable : reachable demo_pid 2 demo_system.
Proof.
  set (s1 := {| primary := primary (booted 2); procs := [demo_recording; new_proc 1] |}).
  set (s2 := {| primary := primary (booted 2); procs := [demo_flushed; new_proc 1] |}).
  assert (H1 : sys_step demo_pid (booted 2) s1).
  { refine (SRecord demo_pid (booted 2) 0 (new_proc 0) Redirected eq_refl eq_refl I _).
    intros v. assert (Hv : counted v Redirected <= 1) by (etransitivity; [apply counted_le|]; by destruct v).
    change (counted v Redirected <= MAX_SAFE_INTEGER). unfold MAX_SAFE_INTEGER. lia. }
  assert (H2 : sys_step demo_pid s1 s2).
  { by refine (SFlush demo_pid s1 0 demo_recording ClusterMetrics.Open
      (ClusterMetrics.flush ClusterMetrics.Open (collector demo_recording)).1
      (ClusterMetrics.flush ClusterMetrics.Open (collector demo_recording)).2 _ _ _ _). }
  assert (H3 : sys_step demo_pid s2 demo_system) by exact (SUp demo_pid s2 0 demo_flushed demo_batch [] (fun _ => false) eq_refl eq_refl).
  exact (reachable_step _ _ _ _ (reachable_step _ _ _ _ (reachable_step _ _ _ _ (reachable_boot _ _) H1) H2) H3).
Qed.

Lemma cluster_counts_conserved_witness : total_counts Redirects (procs demo_system) = 1.
Proof. rewrite (proj1 (cluster_counts_conserved demo_pid 2 demo_system demo_cluster_reachable)). vm_compute. reflexivity. Defined.

Lemma one_keeper_per_shard_witness :
  exists i p, procs demo_system !! i = Some p /\ exited p = false /\ owns (fun _ => None) 2 p 511.
Proof.
  destruct (one_keeper_per_shard demo_pid (fun _ => None) 2 demo_system demo_cluster_reachable ltac:(split; reflexivity || discriminate))
    as (_ & H & _).
  apply (H eq_refl). split; [discriminate|reflexivity].
Defined.
